(* ===== verification/_CoqProject ===== *)
-Q . S2P
Prelude.v
GoStd.v
Logging.v
Configuration.v
PortManager.v
PortConcurrency.v
ServerInterface.v
AgentServerManager.v
AgentServerConcurrency.v
Proto.v
ConnectionManager.v
Sweeper.v
GrpcServer.v
StreamHandler.v
Http.v
RequestHandler.v
GrpcClient.v
ProxyHandler.v
Forwarding.v
Deadlines.v
KeyStore.v
FileSystem.v
CertService.v
CertHandler.v
ProvisionHandler.v
SqlTypes.v
Users.v
Auth.v
Middleware.v
Router.v
Dto.v
Database.v
SystemTests.v
Tls.v
ServerStart.v
AgentProvision.v
ProvisionConcurrency.v
AgentMain.v
Shutdown.v
AgentProcess.v
ServerMain.v
ServerProcess.v
