(* ===== verification/Prelude.v ===== *)
(** * Silo Proxy: a verification development

    ** The program

    Silo Proxy makes a service behind a firewall reachable.  An _agent_ runs beside
    the service and opens a gRPC stream to the _server_; for each connected agent
    the server opens an HTTP port, and what arrives there is sent to the agent as a
    [ProxyMessage], answered by the local service, and sent back.

    - Server, gRPC side ([src/internal/grpc/server/]): [Server] matches responses
      to waiting HTTP requests; [ConnectionManager] keeps one connection per agent
      and sweeps silent ones; [StreamHandler] runs one goroutine pair per stream.
    - Server, HTTP side ([src/internal/api/http/]): [PortManager] hands out ports,
      [AgentServerManager] runs one HTTP server per agent, the proxy handler
      forwards requests, and a management API (accounts, certificates,
      provisioning keys, connected agents) has its route table and middleware.
    - Certificates ([src/internal/cert/]), provisioning keys
      ([src/internal/provision/]), TLS credentials ([src/internal/grpc/tls/]),
      accounts and tokens ([src/internal/users/], [src/internal/auth/]) and the
      database ([src/internal/db/]).
    - Agent ([src/internal/grpc/client/]): [Client] connects, reconnects with a
      growing delay and answers; [RequestHandler] makes the local HTTP request;
      [src/cmd/silo-proxy-agent/] also has the [provision] command.
    - The commands ([src/cmd/]): both read a configuration, set up the logger, make
      the components, and stop them on a signal or a failure.

    ** Method

    Stateful Go code is a function from a state to an [outcome]: a value and the
    new state, a panic, or a goroutine that blocks for ever ([Panic] and [Block]
    are what the safety theorems exclude).  [wp] is its total-correctness
    predicate.  Code between two points at which another goroutine can come in is
    one such function; goroutines are interleaved by step relations ([Inductive]),
    and what is reachable is [rtc] of them, so invariants are proved by rule
    induction.  Errors keep their wrapping ([error], [errors_Is]); machine integers
    are [Z] with their wrap-around written out ([int64], [int32]).

    What the outside decides is an argument of a definition or an environment in
    the state: clock readings (nanoseconds), random bytes, the order in which Go
    visits a map, the case a [select] takes, the outcome of each network, file and
    database call.  Libraries that are not in the repository are parameters with
    their documented laws as type classes: [BcryptLaws], [JWTLaws], [UuidLaws],
    [GinLaws] (matching a path to a route), [BinderLaws] (reading a request body);
    each theorem that uses them has a
    witness in which a concrete function satisfies the laws.

    ** The files

    Foundations: this file (errors, the Go monad, channels, map and list lemmas,
    machine integers, [defer] and [recover], the hint database [silo] and the tactics
    [wp_step], [wp_steps], [by_parts], [evaluate], [runs]); GoStd.v ([strings],
    [strconv], [encoding/hex]); Http.v ([http.Header]); Logging.v ([initLogger] and
    the request logger); Configuration.v ([InitConfig] of both commands);
    FileSystem.v ([path/filepath] and a file system with faults); Proto.v (the
    messages).

    - PortManager.v: [port_manager.go], every method.  The pool and the allocated
      ports partition the range; no call blocks.  PortConcurrency.v: the same
      methods split where other goroutines come in; they refine a port map.
    - ServerInterface.v: the type classes [AgentServerOps] and [AgentServerSpec],
      what the gRPC side relies on.  AgentServerManager.v:
      [agent_server_manager.go] over listeners and [http.Server]s, and the instance
      of the interface.  AgentServerConcurrency.v: a slow [StopAgentServer] and the
      clean-up of failed servers interleaved with everything else.
    - ConnectionManager.v: [connection_manager.go], proved against the interface.
      Connections live in a heap, since handlers keep pointers to replaced ones.
      Sweeper.v: its goroutine [cleanupStaleConnections], with the clock and the
      ticker.
    - GrpcServer.v: the pending-request table of [server.go]
      ([SendRequestToAgent], [HandleResponse]), alone and interleaved.
      ServerStart.v: [Start] and [Stop] of the same file.
    - StreamHandler.v: [stream_handler.go]: handlers, their send and receive loops,
      the sweeper and HTTP goroutines as one transition system.
    - RequestHandler.v and GrpcClient.v: the agent ([request_handler.go],
      [client.go]).  ProxyHandler.v: [handler/proxy.go], the engine of an agent's
      port, and the round trip of a request through server and agent.
    - Forwarding.v: the server's requests and streams, a network that delays and
      loses, and any number of agents as one system ([net_step]), with a remote
      call as its specification ([spec_step]); the calls of local services are
      counted where [HandleRequest] makes them.  Deadlines.v: that system with a
      clock, the two timers of a request and the time [cm.mu] is kept.
    - KeyStore.v: [key_store.go].  CertService.v: [generate.go], [service.go],
      [utils.go].  CertHandler.v and ProvisionHandler.v: their endpoints.
      ProvisionConcurrency.v: concurrent requests to the provisioning endpoint, with
      the administrators' operations on keys and certificates.
    - Users.v: the users table and its queries ([users.sql.go]), [users/service.go],
      [password.go], [handler/user.go].  Auth.v: [jwt.go], [auth/service.go],
      [handler/auth.go].  Middleware.v: [middleware/auth.go].  Router.v:
      [router.go], [handler/admin.go], and the dispatch of any request to the
      modelled handlers, and the agent's own route.  Dto.v: the request types of
      [dto/] with their binding rules.  Database.v: [migration.go] and [db.go].
      SqlTypes.v: the scanning of roles in [sqlc/models.go].
    - SystemTests.v: the end-to-end tests of [src/systemtest/] as programs over
      Router.v and Database.v.
    - Tls.v: [credentials.go], with the checks of a handshake its settings ask
      [crypto/tls] for.  AgentProvision.v: the work of the provision command, and
      the handshake it makes possible.  AgentMain.v: flags, configuration and
      exit codes of the agent's [main].  ServerMain.v: the start of the server's
      [main], and what its components do from there ([app_step]).
    - Shutdown.v, AgentProcess.v and ServerProcess.v: the goroutines the two [main]s
      end with, the signals, and the shutdown.

    ** What is shown

    - Ports and HTTP servers: the partition invariants, [StartAgentServer] on every
      branch against a reference, no port or listener lost under any interleaving,
      and that everything that began can end.
    - Connections and streams: no channel is closed twice and no operation under the
      manager's lock panics or blocks; what the [select] of [SendToAgent], which is
      outside it, does on any connection, exactly; the sweep drops exactly the silent
      agents, within 150 seconds and the delay of its goroutine;
      registrations do not outlive their streams; a stream sends in order.
    - The whole: server, streams, network and agents refine a remote call
      ([proxy_refines_remote_call]): for a request the agents together call their
      local services at most once, by an agent it was meant for, and what an HTTP
      goroutine returns is that agent's answer to its own request or an error, at the
      latest 35 seconds after it began, five more per registered agent (their servers
      may be being stopped, under the lock it needs) and seven delays of the runtime
      ([requests_end_in_time]).
    - Requests: a response reaches only the request with its id, the pending table
      holds exactly the running requests, and an HTTP client gets what the local
      service answered or an error with its reason; what is preserved of a request
      and a response, exactly.
    - The agent: one open connection at most, the delay's bounds, no stuck
      goroutine, and the end of the loop after [Stop].
    - Certificates and provisioning: agents' files are confined and disjoint,
      certificates are issued once, the key store accepts exactly the keys its
      history allows, a key is single use, also under concurrency, and a
      provisioned agent completes a mutual TLS handshake with the server.
    - The API: each route runs exactly for the requests its guard admits; what a
      request without credentials can change; tokens live exactly as long as
      configured; accounts and pages of the user list; and the repository's system
      tests pass ([system_tests_pass]).
    - Start-up and shutdown: [main] serves with every component's invariant
      established, and kept whatever follows, or exits, exactly for the reasons
      stated; stopping it leaves no agent, connection, listener or allocated port; no wait of either shutdown is a
      deadlock; the goroutines of the agent's [main] never panic, those of the
      server's only when the gRPC server was never made.

    Some theorems state behaviour that looks unintended; they are named beside the
    definitions: [old_handler_drops_new_connection],
    [send_to_dropped_agent_panics], [pong_crashes_server],
    [unmade_server_crashes], [start_retries_single_port],
    [encoded_path_is_not_preserved], [lost_ca_key_breaks_server_cert],
    [concurrent_creation_mixes_pairs], [zip_of_agent_ca],
    [provisioning_locks_out], [provision_escapes_directory],
    [list_users_offset_wraps], the last conjunct of
    [Start_correct] and the clean-up interval of [server_main_correct].

    ** Bounds and fuel

    Few definitions need fuel.  [prefill] counts down the size of the pool plus one,
    which [prefill_spec] shows to be enough; [ancestors] counts down the length of
    the path, and every directory above a path is shorter; [parse_query] has the
    length of the query, and each member is cut off it.  [bind_attempts] has the
    code's bound, [maxPortBindRetries].  Other loops are
    structural recursions over the list Go iterates, or steps of a transition
    relation without a bound; nothing limits the number of agents, requests,
    reconnections or goroutines.

    ** Not modelled

    - The wire encoding of messages and the gRPC stubs ([src/proto/], generated)
      and the gRPC transport: what a stream's [Send] and [Recv] return is free.
    - The scanning of rows and the connection pool of the database code; how [adder]
      and [godotenv] find and decode a configuration (parameters); the log lines
      other than the request logger's, standard error, and the CORS and recovery
      middleware [main] puts in front of the management API.
    - The time a client takes to send the body of a request: it is read before the
      clock of [requests_end_in_time] starts, and the code sets no limit for it.
    - Cryptography: keys are identities and a signature names its key; PEM and DER
      are infallible beyond the kinds of block a file can hold; certificate chains
      have one certificate below a root.
    - Go's memory model below locks and channels: a step is atomic where the code
      holds a lock or does one channel operation.
    - Docker behind the system tests (a parameter), the manual test client
      [src/test/] and the unit tests ([_test.go]). *)
From stdpp Require Import base strings list gmap fin_maps.
From Stdlib Require Import ZArith Lia.

(** ** Errors

    Go errors.  [Sentinel] is a package level [errors.New] value that callers
    compare with [errors.Is] ([io.EOF], [ErrKeyExpired], ...), [Errorf] is an
    anonymous error, and [Wrapf m e] is [fmt.Errorf("m: %w", e)]. *)
Inductive error : Type :=
  | Sentinel (msg : string)
  | Errorf (msg : string)
  | Wrapf (msg : string) (err : error).

#[export] Instance error_eq_dec : EqDecision error.
Proof. solve_decision. Defined.

(** [err.Error()]. *)
Fixpoint Error (e : error) : string :=
  match e with
  | Sentinel m | Errorf m => m
  | Wrapf m e' => m +:+ ": " +:+ Error e'
  end.

(** [errors.Is(err, target)]: the chain of wrapped errors holds the sentinel. *)
Fixpoint errors_Is (e : error) (target : error) : bool :=
  bool_decide (e = target) ||
  match e with
  | Wrapf _ e' => errors_Is e' target
  | _ => false
  end.

Definition io_EOF : error := Sentinel "EOF".
Definition context_Canceled : error := Sentinel "context canceled".
Definition context_DeadlineExceeded : error := Sentinel "context deadline exceeded".

(** A Go function's [(A, error)] pair in which exactly one part is meaningful. *)
Inductive result (A : Type) : Type :=
  | Ok (a : A)
  | Err (e : error).
Arguments Ok {A} a.
Arguments Err {A} e.

(** ** The Go monad

    Stateful code is a function from the state to an outcome: a returned value
    with the new state, a panic, or a goroutine that can never continue (a
    blocking channel operation nobody will serve). *)
Inductive outcome (S A : Type) : Type :=
  | Ret (a : A) (s : S)
  | Panic (msg : string) (s : S)
  | Block (s : S).
Arguments Ret {S A} a s.
Arguments Panic {S A} msg s.
Arguments Block {S A} s.

Definition M (S A : Type) : Type := S → outcome S A.

#[export] Instance M_ret (S : Type) : MRet (M S) := λ A a s, Ret a s.
#[export] Instance M_bind (S : Type) : MBind (M S) := λ A B f m s,
  match m s with
  | Ret a s' => f a s'
  | Panic e s' => Panic e s'
  | Block s' => Block s'
  end.

Section GoMonad.
Context {S : Type}.

Definition get : M S S := λ s, Ret s s.
Definition put (s' : S) : M S unit := λ _, Ret () s'.
Definition gets {A} (f : S → A) : M S A := λ s, Ret (f s) s.
Definition modify (f : S → S) : M S unit := λ s, Ret () (f s).
Definition panic {A} (msg : string) : M S A := λ s, Panic msg s.
Definition block {A} : M S A := λ s, Block s.

(** Run code of a component inside the state that contains it. *)
Definition zoom {T A} (proj : S → T) (upd : T → S → S) (m : M T A) : M S A := λ s,
  match m (proj s) with
  | Ret a t => Ret a (upd t s)
  | Panic e t => Panic e (upd t s)
  | Block t => Block (upd t s)
  end.

(** [for _, x := range l { f(x) }] *)
Fixpoint for_each {A} (l : list A) (f : A → M S unit) : M S unit :=
  match l with
  | [] => mret ()
  | x :: l' => _ ← f x; for_each l' f
  end.

(** [a, err := m; if err != nil { return wrap(err) }; k a] *)
Definition try {A B} (m : M S (result A)) (wrap : error → error) (k : A → M S (result B)) :
    M S (result B) :=
  r ← m;
  match r with
  | Ok a => k a
  | Err e => mret (Err (wrap e))
  end.

(** [if err := m; err != nil { return wrap(err) }; k] *)
Definition check {B} (m : M S (option error)) (wrap : error → error) (k : M S (result B)) :
    M S (result B) :=
  r ← m;
  match r with
  | None => k
  | Some e => mret (Err (wrap e))
  end.

(** [defer d()] before the rest of a function: [d] runs however the rest ends, also
    when it panics. *)
Definition deferred {A} (d : M S unit) (m : M S A) : M S A := λ s,
  match m s with
  | Ret a s' => (_ ← d; mret a) s'
  | Panic e s' => (_ ← d; panic e) s'
  | Block s' => Block s'
  end.

(** A deferred [recover()]: a panic becomes a value. *)
Definition recovered {A} (h : string → A) (m : M S A) : M S A := λ s,
  match m s with
  | Panic e s' => Ret (h e) s'
  | o => o
  end.

(** *** Total correctness

    [wp m s Q]: from [s] the code returns, without panicking or blocking, and
    the value and the state it returns satisfy [Q]. *)
Definition wp {A} (m : M S A) (s : S) (Q : A → S → Prop) : Prop :=
  match m s with
  | Ret a s' => Q a s'
  | _ => False
  end.

Lemma wp_ret {A} (a : A) s Q : Q a s → wp (mret a) s Q.
Proof. done. Qed.

Lemma wp_bind {A B} (m : M S A) (k : A → M S B) s Q :
  wp m s (λ a s', wp (k a) s' Q) → wp (m ≫= k) s Q.
Proof. unfold wp, mbind, M_bind. by destruct (m s). Qed.

Lemma wp_mono {A} (m : M S A) s (Q R : A → S → Prop) :
  wp m s Q → (∀ a s', Q a s' → R a s') → wp m s R.
Proof. unfold wp. destruct (m s); naive_solver. Qed.

Lemma wp_conj {A} (m : M S A) s (Q R : A → S → Prop) :
  wp m s Q → wp m s R → wp m s (λ a s', Q a s' ∧ R a s').
Proof. unfold wp. destruct (m s); naive_solver. Qed.

Lemma wp_get s Q : Q s s → wp get s Q.
Proof. done. Qed.

Lemma wp_gets {A} (f : S → A) s Q : Q (f s) s → wp (gets f) s Q.
Proof. done. Qed.

Lemma wp_put s s' (Q : unit → S → Prop) : Q () s' → wp (put s') s Q.
Proof. done. Qed.

Lemma wp_modify f s (Q : unit → S → Prop) : Q () (f s) → wp (modify f) s Q.
Proof. done. Qed.

Lemma wp_Ret {A} (m : M S A) s a s' Q : wp m s Q → m s = Ret a s' → Q a s'.
Proof. intros Hw E. unfold wp in Hw. by rewrite E in Hw. Qed.

(** A sequence that returned has run both its parts. *)
Lemma bind_Ret {A B} (m : M S A) (k : A → M S B) s b s' :
  (m ≫= k) s = Ret b s' → ∃ a s1, m s = Ret a s1 ∧ k a s1 = Ret b s'.
Proof. unfold mbind, M_bind. destruct (m s) as [a s1| |]; [|done..]. intros E. by exists a, s1. Qed.

Lemma bind_run {A B} (m : M S A) (k : A → M S B) s a s' : m s = Ret a s' → (m ≫= k) s = k a s'.
Proof. unfold mbind, M_bind. by intros ->. Qed.

(** What [wp] means for a run that is known to return. *)
Lemma wp_run {A} (m : M S A) s Q :
  wp m s Q ↔ ∃ a s', m s = Ret a s' ∧ Q a s'.
Proof. unfold wp. destruct (m s); naive_solver. Qed.

Lemma wp_try {A B} (m : M S (result A)) w (k : A → M S (result B)) s Q :
  wp m s (λ r s', match r with Ok a => wp (k a) s' Q | Err e => Q (Err (w e)) s' end) →
  wp (try m w k) s Q.
Proof. intros Hm. apply wp_bind. eapply wp_mono; [exact Hm|]. by intros [a|e] s'. Qed.

Lemma wp_check {B} (m : M S (option error)) w (k : M S (result B)) s Q :
  wp m s (λ r s', match r with None => wp k s' Q | Some e => Q (Err (w e)) s' end) →
  wp (check m w k) s Q.
Proof. intros Hm. apply wp_bind. eapply wp_mono; [exact Hm|]. by intros [e|] s'. Qed.

Lemma wp_deferred {A} (d : M S unit) (m : M S A) s Q :
  wp m s (λ a s', wp d s' (λ _ s'', Q a s'')) → wp (deferred d m) s Q.
Proof.
  unfold wp, deferred. destruct (m s) as [a s'| |]; [|done..].
  unfold mbind, M_bind, mret, M_ret. by destruct (d s').
Qed.

Lemma wp_for_each {A} (l : list A) (f : A → M S unit) s (I : list A → S → Prop) :
  I l s →
  (∀ x l' s, I (x :: l') s → wp (f x) s (λ _ s', I l' s')) →
  wp (for_each l f) s (λ _ s', I [] s').
Proof.
  intros HI Hstep. revert s HI. induction l as [|x l IH]; intros s HI; [done|].
  simpl. apply wp_bind. eapply wp_mono; [by apply Hstep|]. intros [] s' ?. by apply IH.
Qed.
End GoMonad.

Lemma wp_zoom {S T A} (proj : S → T) upd (m : M T A) s (Q : A → S → Prop) :
  wp m (proj s) (λ a t, Q a (upd t s)) → wp (zoom proj upd m) s Q.
Proof. unfold wp, zoom. by destruct (m (proj s)). Qed.

Arguments wp {S A} m s Q : simpl never.

(** ** Channels

    A buffered channel; an unbuffered "done" channel is one of capacity 0 that
    is only ever closed. *)
Record chan (A : Type) : Type := mkChan {
  ch_buf : list A;
  ch_cap : nat;
  ch_closed : bool;
}.
Arguments mkChan {A} ch_buf ch_cap ch_closed.
Arguments ch_buf {A} c.
Arguments ch_cap {A} c.
Arguments ch_closed {A} c.

Section Channels.
Context {A : Type}.

(** [make(chan A, cap)] *)
Definition make_chan (cap : nat) : chan A := mkChan [] cap false.

Definition ch_full (c : chan A) : bool := bool_decide (ch_cap c ≤ length (ch_buf c)).

Definition ch_push (a : A) (c : chan A) : chan A :=
  mkChan (ch_buf c ++ [a]) (ch_cap c) (ch_closed c).

(** [ch <- a] *)
Definition ch_send (a : A) : M (chan A) unit := λ c,
  if ch_closed c then Panic "send on closed channel" c
  else if ch_full c then Block c
  else Ret () (ch_push a c).

(** [select { case ch <- a: true; default: false }] *)
Definition ch_try_send (a : A) : M (chan A) bool := λ c,
  if ch_closed c then Panic "send on closed channel" c
  else if ch_full c then Ret false c
  else Ret true (ch_push a c).

(** [select { case a := <-ch: Some a; default: None }] on a channel that is
    never closed. *)
Definition ch_try_recv : M (chan A) (option A) := λ c,
  match ch_buf c with
  | [] => Ret None c
  | a :: buf => Ret (Some a) (mkChan buf (ch_cap c) (ch_closed c))
  end.

(** [close(ch)] *)
Definition ch_close : M (chan A) unit := λ c,
  if ch_closed c then Panic "close of closed channel" c
  else Ret () (mkChan (ch_buf c) (ch_cap c) true).

Definition ch_wf (c : chan A) : Prop := length (ch_buf c) ≤ ch_cap c.

Lemma wp_ch_send a c (Q : unit → chan A → Prop) :
  ch_closed c = false → length (ch_buf c) < ch_cap c →
  Q () (ch_push a c) → wp (ch_send a) c Q.
Proof.
  intros Hc Hlt HQ. unfold wp, ch_send, ch_full. rewrite Hc.
  rewrite bool_decide_eq_false_2 by lia. done.
Qed.

Lemma wp_ch_try_recv c (Q : option A → chan A → Prop) :
  (ch_buf c = [] → Q None c) →
  (∀ a buf, ch_buf c = a :: buf → Q (Some a) (mkChan buf (ch_cap c) (ch_closed c))) →
  wp ch_try_recv c Q.
Proof. intros H1 H2. unfold wp, ch_try_recv. destruct (ch_buf c); auto. Qed.

Lemma wp_ch_close c (Q : unit → chan A → Prop) :
  ch_closed c = false → Q () (mkChan (ch_buf c) (ch_cap c) true) → wp ch_close c Q.
Proof. intros Hc HQ. unfold wp, ch_close. by rewrite Hc. Qed.
End Channels.

(** ** Keys of a finite map, as a list *)
Section MapKeys.
Context {K V : Type} `{Countable K}.
Implicit Types m : gmap K V.

Definition keys (m : gmap K V) : list K := (map_to_list m).*1.

Lemma NoDup_keys m : NoDup (keys m).
Proof. apply NoDup_fst_map_to_list. Qed.

Lemma elem_of_keys m k : k ∈ keys m ↔ is_Some (m !! k).
Proof.
  unfold keys. rewrite list_elem_of_fmap. split.
  - intros ([k' v] & -> & Hin). exists v. by apply elem_of_map_to_list in Hin.
  - intros [v Hv]. exists (k, v). split; [done|]. by apply elem_of_map_to_list.
Qed.

Lemma keys_empty : keys ∅ = [].
Proof. unfold keys. by rewrite map_to_list_empty. Qed.

Lemma keys_insert m k v : m !! k = None → keys (<[k := v]> m) ≡ₚ k :: keys m.
Proof. intros Hk. unfold keys. by rewrite map_to_list_insert. Qed.

Lemma keys_delete m k v : m !! k = Some v → keys m ≡ₚ k :: keys (delete k m).
Proof. intros Hk. unfold keys. by rewrite <- (map_to_list_delete m k v). Qed.

Lemma length_keys m : length (keys m) = size m.
Proof. unfold keys. rewrite length_fmap. apply length_map_to_list. Qed.
End MapKeys.

(** A function that has no value twice on a list. *)
Lemma NoDup_fmap_eq {A B} (f : A → B) (l : list A) x y :
  NoDup (f <$> l) → x ∈ l → y ∈ l → f x = f y → x = y.
Proof.
  induction l as [|z l IH]; simpl; [by intros _ ?%not_elem_of_nil|].
  rewrite NoDup_cons, list_elem_of_fmap. intros [Hz Hl] [->|Hx]%elem_of_cons [->|Hy]%elem_of_cons E.
  - done.
  - destruct Hz. by exists y.
  - destruct Hz. by exists x.
  - by apply IH.
Qed.

(** What the values of a map contribute through [f], in some order: the ports a
    set of goroutines has in flight, the requests it waits for, ... *)
Section Gather.
Context {K V B : Type} `{Countable K} (f : V → option B).
Implicit Types m : gmap K V.

Definition gather (m : gmap K V) : list B := omap f (map_to_list m).*2.

Lemma gather_empty : gather ∅ = [].
Proof. unfold gather. by rewrite map_to_list_empty. Qed.

Lemma gather_insert_new m k v :
  m !! k = None → gather (<[k := v]> m) ≡ₚ option_list (f v) ++ gather m.
Proof.
  intros Hk. unfold gather. rewrite map_to_list_insert by done. simpl.
  by destruct (f v).
Qed.

Lemma gather_delete m k v :
  m !! k = Some v → gather m ≡ₚ option_list (f v) ++ gather (delete k m).
Proof.
  intros Hk. rewrite <- gather_insert_new by apply lookup_delete_eq.
  by rewrite insert_delete_id.
Qed.

Lemma gather_insert m k v :
  gather (<[k := v]> m) ≡ₚ option_list (f v) ++ gather (delete k m).
Proof. rewrite <- insert_delete_eq. apply gather_insert_new, lookup_delete_eq. Qed.

Lemma elem_of_gather m b : b ∈ gather m ↔ ∃ k v, m !! k = Some v ∧ f v = Some b.
Proof.
  unfold gather. rewrite list_elem_of_omap. split.
  - intros (v & ([k v'] & -> & Hin)%list_elem_of_fmap & Hf).
    apply elem_of_map_to_list in Hin. by exists k, v'.
  - intros (k & v & Hk & Hf). exists v. split; [|done].
    apply list_elem_of_fmap. exists (k, v). split; [done|]. by apply elem_of_map_to_list.
Qed.
End Gather.

(** ** Transition systems *)

(** An invariant of the initial state and of every step holds in every
    reachable state. *)
Lemma rtc_invariant {A} (R : relation A) (P : A → Prop) x y :
  rtc R x y → P x → (∀ a b, P a → R a b → P b) → P y.
Proof. induction 1; eauto. Qed.

(** The run goes on from the same state, written otherwise. *)
Lemma rtc_from {A} (R : relation A) x x' y : x = x' → rtc R x' y → rtc R x y.
Proof. by intros ->. Qed.

(** Functional simulation with stuttering. *)
Lemma rtc_simulation {A B} (R : relation A) (R' : relation B) (I : A → Prop) (abs : A → B) x y :
  rtc R x y → I x →
  (∀ a b, I a → R a b → I b ∧ (abs a = abs b ∨ R' (abs a) (abs b))) →
  rtc R' (abs x) (abs y).
Proof.
  intros Hxy HI Hstep. induction Hxy as [x|x y z Hxy _ IH]; [done|].
  destruct (Hstep _ _ HI Hxy) as [HIy [Heq|HR]].
  - rewrite Heq. by apply IH.
  - eapply rtc_l; [done|]. by apply IH.
Qed.

(** ** Machine integers *)
Definition wrap (bits : Z) (z : Z) : Z :=
  ((z + 2 ^ (bits - 1)) mod 2 ^ bits - 2 ^ (bits - 1))%Z.
Definition int64 (z : Z) : Z := wrap 64 z.
Definition int32 (z : Z) : Z := wrap 32 z.

Lemma wrap_id bits z :
  (0 < bits)%Z → (- 2 ^ (bits - 1) ≤ z < 2 ^ (bits - 1))%Z → wrap bits z = z.
Proof.
  intros Hb Hz. unfold wrap.
  assert (2 ^ bits = 2 * 2 ^ (bits - 1))%Z as E.
  { rewrite <- Z.pow_succ_r by lia. f_equal. lia. }
  rewrite Z.mod_small by lia. lia.
Qed.

Lemma wrap_range bits z :
  (0 < bits)%Z → (- 2 ^ (bits - 1) ≤ wrap bits z < 2 ^ (bits - 1))%Z.
Proof.
  intros Hb. unfold wrap.
  assert (2 ^ bits = 2 * 2 ^ (bits - 1))%Z as E.
  { rewrite <- Z.pow_succ_r by lia. f_equal. lia. }
  pose proof (Z.mod_pos_bound (z + 2 ^ (bits - 1)) (2 ^ bits) ltac:(lia)). lia.
Qed.

(** ** Automation *)
Create HintDb silo discriminated.
#[export] Hint Resolve wp_ret wp_get wp_gets wp_put wp_modify : silo.

(** One step of symbolic execution of the Go monad. *)
Ltac wp_step :=
  lazymatch goal with
  | |- wp (_ ≫= _) _ _ => apply wp_bind
  | |- wp (mret _) _ _ => apply wp_ret
  | |- wp (try _ _ _) _ _ => apply wp_try
  | |- wp (check _ _ _) _ _ => apply wp_check
  | |- wp get _ _ => apply wp_get
  | |- wp (gets _) _ _ => apply wp_gets
  | |- wp (put _) _ _ => apply wp_put
  | |- wp (modify _) _ _ => apply wp_modify
  | |- wp (zoom _ _ _) _ _ => apply wp_zoom
  end.
Ltac wp_steps := repeat (wp_step; cbn beta).

(** Evaluate the state a concrete run has reached. *)
Ltac evaluate :=
  lazymatch goal with
  | |- rtc ?R ?x ?y =>
      let x' := eval vm_compute in x in apply (rtc_from R x x' y); [vm_cast_no_check (eq_refl x')|]
  end.

(** What a concrete call returns. *)
Ltac runs :=
  first
    [ lazymatch goal with
      | |- ?l = _ =>
          let l' := eval vm_compute in l in
          refine (eq_trans (y := l') _ _); [vm_cast_no_check (eq_refl l')|reflexivity]
      end
    | reflexivity ].

(** Close a goal that is a conjunction of parts of the hypotheses. *)
Ltac by_parts := intros; cbn beta in *; destruct_and?; subst; split_and?; done.
