(* ===== verification/GoStd.v ===== *)
(** * The parts of Go's standard library the program uses

    [strings], [strconv] and [encoding/hex], on byte strings.  A Go [string] and
    a Go [[]byte] are both a [string] (a list of 8-bit characters), so the
    conversions between the two are the identity. *)
From stdpp Require Import base strings list gmap fin_maps.
From Stdlib Require Import ZArith Lia Ascii DecimalString DecimalZ Decimal.
From S2P Require Import Prelude.

Abbreviation bytes := string.

(** ** strings *)

(** [s[n:]] *)
Fixpoint drop_string (n : nat) (s : string) : string :=
  match n, s with
  | O, _ => s
  | S n', String _ s' => drop_string n' s'
  | S _, EmptyString => EmptyString
  end.

Definition HasPrefix (s p : string) : bool := String.prefix p s.

Definition TrimPrefix (s p : string) : string :=
  if HasPrefix s p then drop_string (String.length p) s else s.

Lemma string_app_cons c s t : String c s +:+ t = String c (s +:+ t).
Proof. done. Qed.

Lemma HasPrefix_app p s : HasPrefix (p +:+ s) p = true.
Proof.
  unfold HasPrefix. induction p as [|c p IH]; [by destruct s|].
  rewrite string_app_cons. simpl. by destruct (Ascii.ascii_dec c c).
Qed.

Lemma drop_string_app p s : drop_string (String.length p) (p +:+ s) = s.
Proof. by induction p. Qed.

Lemma TrimPrefix_app p s : TrimPrefix (p +:+ s) p = s.
Proof. unfold TrimPrefix. by rewrite HasPrefix_app, drop_string_app. Qed.

Lemma HasPrefix_inv s p : HasPrefix s p = true → s = p +:+ TrimPrefix s p.
Proof.
  intros H. unfold TrimPrefix. rewrite H. unfold HasPrefix in H. revert s H.
  induction p as [|c p IH]; intros s H; [done|].
  destruct s as [|c' s]; simpl in H; [done|].
  destruct (Ascii.ascii_dec c c') as [->|]; [|done].
  rewrite string_app_cons. simpl. f_equal. by apply IH.
Qed.

#[export] Instance string_app_inj_r (p : string) : Inj (=) (=) (String.append p).
Proof.
  intros s t H. induction p as [|c p IH]; [done|].
  rewrite !string_app_cons in H. injection H as H. by apply IH.
Qed.

Lemma string_length_app s t : String.length (s +:+ t) = String.length s + String.length t.
Proof. induction s as [|c s IH]; [done|]. rewrite string_app_cons. simpl. by rewrite IH. Qed.

Lemma string_app_nil_r s : s +:+ "" = s.
Proof. induction s as [|c s IH]; [done|]. rewrite string_app_cons. by f_equal. Qed.

Lemma string_app_assoc s t u : s +:+ (t +:+ u) = (s +:+ t) +:+ u.
Proof. induction s as [|c s IH]; [done|]. rewrite !string_app_cons. by rewrite IH. Qed.

Lemma string_app_inj_l (s1 s2 t : string) : s1 +:+ t = s2 +:+ t → s1 = s2.
Proof.
  revert s2. induction s1 as [|c s1 IH]; intros [|c2 s2] H; [done|..].
  1,2: exfalso; apply (f_equal String.length) in H;
       rewrite ?string_app_cons, ?string_length_app in H; simpl in H;
       rewrite ?string_length_app in H; simpl in H; lia.
  rewrite !string_app_cons in H. injection H as -> H. f_equal. by apply IH.
Qed.

(** [strings.ToUpper], on ASCII letters; a level in the configuration is compared
    with ASCII names only. *)
Definition upper_ascii (c : ascii) : ascii :=
  let n := nat_of_ascii c in
  if bool_decide (97 ≤ n ≤ 122) then ascii_of_nat (n - 32) else c.

Fixpoint ToUpper (s : string) : string :=
  match s with
  | EmptyString => EmptyString
  | String c s' => String (upper_ascii c) (ToUpper s')
  end.

Lemma upper_ascii_idemp c : upper_ascii (upper_ascii c) = upper_ascii c.
Proof. by destruct c as [[] [] [] [] [] [] [] []]. Qed.

Lemma ToUpper_idemp s : ToUpper (ToUpper s) = ToUpper s.
Proof. induction s as [|c s IH]; [done|]. simpl. by rewrite upper_ascii_idemp, IH. Qed.

(** ** strconv *)

(** [strconv.Itoa], also [%d]. *)
Definition Itoa (z : Z) : string := NilZero.string_of_int (Z.to_int z).

Definition max_int64 : Z := 2 ^ 63 - 1.
Definition min_int64 : Z := - 2 ^ 63.

Definition err_syntax (s : string) : error :=
  Wrapf ("strconv.Atoi: parsing " +:+ s) (Sentinel "invalid syntax").
Definition err_range (s : string) : error :=
  Wrapf ("strconv.Atoi: parsing " +:+ s) (Sentinel "value out of range").

(** [strconv.Atoi]: an optional sign and a non-empty run of decimal digits.  A
    syntax error returns 0, a value that does not fit an [int] the nearest
    representable one; the error comes beside the value. *)
Definition Atoi (s : string) : Z * option error :=
  let digits_of t k :=
    match NilZero.uint_of_string t with
    | None => (0%Z, Some (err_syntax s))
    | Some u =>
        let z := k (Z.of_uint u) in
        if (z >? max_int64)%Z then (max_int64, Some (err_range s))
        else if (z <? min_int64)%Z then (min_int64, Some (err_range s))
        else (z, None)
    end in
  match s with
  | String "+"%char t => digits_of t id
  | String "-"%char t => digits_of t Z.opp
  | _ => digits_of s id
  end.

(** A printed decimal never starts with a sign character other than its own. *)
Lemma string_of_uint_head u t :
  NilZero.string_of_uint u = String "+"%char t ∨ NilZero.string_of_uint u = String "-"%char t → False.
Proof. by destruct u; simpl; intros [H|H]; injection H. Qed.

Lemma Itoa_Atoi z :
  (min_int64 ≤ z ≤ max_int64)%Z → Atoi (Itoa z) = (z, None).
Proof.
  intros [Hlo Hhi]. unfold Itoa.
  pose proof (DecimalZ.of_to z) as Hz.
  assert (Z.to_int z ≠ Pos Nil ∧ Z.to_int z ≠ Neg Nil) as [Hn1 Hn2].
  { destruct z as [|p|p]; simpl; split; try done;
      intros H; injection H as H; by apply (DecimalPos.Unsigned.to_uint_nonnil p). }
  destruct (Z.to_int z) as [u|u] eqn:E; simpl.
  - assert (NilZero.uint_of_string (NilZero.string_of_uint u) = Some u) as Hu.
    { apply NilZero.usu. intros ->. by apply Hn1. }
    unfold Atoi.
    destruct (NilZero.string_of_uint u) as [|c t] eqn:Es.
    { by rewrite Hu in *. }
    assert (c ≠ "+"%char ∧ c ≠ "-"%char) as [Hp Hm].
    { split; intros ->; eapply string_of_uint_head; eauto. }
    assert (Z.of_uint u = z) as Hzu by done.
    destruct c as [[] [] [] [] [] [] [] []]; try done; rewrite Hu, Hzu; unfold id;
      repeat case_match; try done; exfalso; lia.
  - assert (NilZero.uint_of_string (NilZero.string_of_uint u) = Some u) as Hu.
    { apply NilZero.usu. intros ->. by apply Hn2. }
    unfold Atoi. simpl. rewrite Hu.
    assert (Z.opp (Z.of_uint u) = z) as -> by done.
    repeat case_match; try done; exfalso; lia.
Qed.

(** ** encoding/hex *)

Definition hex_digit (n : nat) : ascii :=
  ascii_of_nat (if decide (n < 10) then 48 + n else 87 + n).

(** [hex.EncodeToString] *)
Fixpoint hex_EncodeToString (b : bytes) : string :=
  match b with
  | EmptyString => EmptyString
  | String c b' =>
      String (hex_digit (nat_of_ascii c / 16))
        (String (hex_digit (nat_of_ascii c mod 16)) (hex_EncodeToString b'))
  end.

Lemma hex_digit_inj n m : n < 16 → m < 16 → hex_digit n = hex_digit m → n = m.
Proof.
  unfold hex_digit. intros Hn Hm E. apply (f_equal nat_of_ascii) in E.
  rewrite !nat_ascii_embedding in E by (repeat case_decide; lia).
  repeat case_decide; lia.
Qed.

Lemma String_inj2 a b t a' b' t' :
  String a (String b t) = String a' (String b' t') → a = a' ∧ b = b' ∧ t = t'.
Proof. by intros [= -> -> ->]. Qed.

#[export] Instance hex_EncodeToString_inj : Inj (=) (=) hex_EncodeToString.
Proof.
  intros s. induction s as [|c s IH]; intros [|c' s'] E; cbn [hex_EncodeToString] in E; try done.
  apply String_inj2 in E as (E1 & E2 & E3). apply IH in E3 as ->. f_equal.
  pose proof (nat_ascii_bounded c). pose proof (nat_ascii_bounded c').
  apply hex_digit_inj in E1; [|apply Nat.Div0.div_lt_upper_bound; simpl; lia..].
  apply hex_digit_inj in E2; [|apply Nat.mod_upper_bound; lia..].
  rewrite <- (ascii_nat_embedding c), <- (ascii_nat_embedding c'). f_equal.
  rewrite (Nat.div_mod_eq (nat_of_ascii c) 16), (Nat.div_mod_eq (nat_of_ascii c') 16). by rewrite E1, E2.
Qed.

Lemma hex_length b : String.length (hex_EncodeToString b) = 2 * String.length b.
Proof. induction b; simpl; lia. Qed.
