(* ===== verification/Logging.v ===== *)
(** * Logging

    Models [initLogger] of the two commands ([src/cmd/silo-proxy-agent/logger.go],
    [src/cmd/silo-proxy-server/logger.go], the same code) and the request logger of
    [src/internal/api/http/middleware/logger.go].  [log/slog]'s text handler keeps a
    record when its level is at least the handler's. *)
From stdpp Require Import base strings list gmap fin_maps.
From Stdlib Require Import ZArith Lia.
From S2P Require Import Prelude GoStd.

(** ** Levels *)

(** [slog.Level] and its constants. *)
Abbreviation Level := Z.
Definition LevelDebug : Level := -4.
Definition LevelInfo : Level := 0.
Definition LevelWarn : Level := 4.
Definition LevelError : Level := 8.

Definition LOG_LEVEL_ERROR : string := "ERROR".
Definition LOG_LEVEL_WARNING : string := "WARNING".
Definition LOG_LEVEL_INFO : string := "INFO".
Definition LOG_LEVEL_DEBUG : string := "DEBUG".

(** The [switch] of [initLogger]. *)
Definition level_of (logLevel : string) : Level :=
  let l := ToUpper logLevel in
  if decide (l = LOG_LEVEL_ERROR) then LevelError
  else if decide (l = LOG_LEVEL_WARNING) then LevelWarn
  else if decide (l = LOG_LEVEL_INFO) then LevelInfo
  else if decide (l = LOG_LEVEL_DEBUG) then LevelDebug
  else LevelInfo.

(** What is logged: the level, the message and the attributes. *)
Record LogRecord : Type := mkRecord {
  lr_Level : Level;
  lr_Msg : string;
  lr_Attrs : list (string * string);
}.

(** The default logger: its handler's level and what it has written. *)
Record Logger : Type := mkLogger { lg_Level : Level; lg_Out : list LogRecord }.

(** [slog.SetDefault] of a new text handler on standard output. *)
Definition initLogger (logLevel : string) : M Logger unit :=
  modify (λ l, mkLogger (level_of logLevel) (lg_Out l)).

Definition slog_Log (level : Level) (msg : string) (attrs : list (string * string)) : M Logger unit :=
  modify (λ l,
    if decide (lg_Level l ≤ level)%Z then mkLogger (lg_Level l) (lg_Out l ++ [mkRecord level msg attrs])
    else l).

(** ** The request logger *)

(** What it reads of the request. *)
Record LoggedRequest : Type := mkLogged {
  lq_Method : string;
  lq_Path : string;
  lq_RawQuery : string;
  lq_ClientIP : string;
}.

Definition completion_level (statusCode : Z) : Level :=
  if decide (500 ≤ statusCode)%Z then LevelError
  else if decide (400 ≤ statusCode)%Z then LevelWarn
  else LevelDebug.

Definition incoming_attrs (q : LoggedRequest) : list (string * string) :=
  [("method", lq_Method q); ("path", lq_Path q); ("query", lq_RawQuery q); ("client_ip", lq_ClientIP q)].

Definition completed_attrs (q : LoggedRequest) (statusCode : Z) (latency : string) : list (string * string) :=
  [("method", lq_Method q); ("path", lq_Path q); ("status", Itoa statusCode); ("latency", latency);
   ("client_ip", lq_ClientIP q)].

Section RequestLogger.
Context {S A : Type}.

Definition in_logger {B} : M Logger B → M (S * Logger) B := zoom snd (λ l s, (s.1, l)).
Definition in_chain : M S A → M (S * Logger) A := zoom fst (λ t s, (t, s.2)).

(** [next] is [c.Next()], with the response it leaves; [Status] is
    [c.Writer.Status()] of that response. *)
Definition RequestLogger (Status : A → Z) (q : LoggedRequest) (latency : string) (next : M S A) :
    M (S * Logger) A :=
  if decide (lq_Path q = "/health") then in_chain next
  else
    _ ← in_logger (slog_Log LevelDebug "Incoming request" (incoming_attrs q));
    response ← in_chain next;
    let statusCode := Status response in
    _ ← in_logger (slog_Log (completion_level statusCode) "Request completed"
                     (completed_attrs q statusCode latency));
    mret response.
End RequestLogger.

(** ** Facts *)

(** The four names. *)
Definition level_names : gmap string Level :=
  {["ERROR" := LevelError; "WARNING" := LevelWarn; "INFO" := LevelInfo; "DEBUG" := LevelDebug]}.

(** The records one request adds. *)
Definition logged (min : Level) (q : LoggedRequest) (statusCode : Z) (latency : string) : list LogRecord :=
  if decide (lq_Path q = "/health") then []
  else filter (λ r, (min ≤ lr_Level r)%Z)
         [mkRecord LevelDebug "Incoming request" (incoming_attrs q);
          mkRecord (completion_level statusCode) "Request completed" (completed_attrs q statusCode latency)].

Lemma slog_Log_run level msg attrs l :
  slog_Log level msg attrs l =
    Ret () (mkLogger (lg_Level l) (lg_Out l ++ filter (λ r, (lg_Level l ≤ lr_Level r)%Z) [mkRecord level msg attrs])).
Proof.
  unfold slog_Log, modify. rewrite filter_cons. simpl. destruct l as [m o]; simpl.
  destruct (decide (m ≤ level)%Z); [done|]. by rewrite filter_nil, app_nil_r.
Qed.

(** The request logger, as one function of what is behind it. *)
Lemma RequestLogger_run {S A} (Status : A → Z) (q : LoggedRequest) latency (next : M S A) (s : S) l :
  match next s with
  | Ret a s' => RequestLogger Status q latency next (s, l) =
      Ret a (s', mkLogger (lg_Level l) (lg_Out l ++ logged (lg_Level l) q (Status a) latency))
  | Panic e s' => ∃ l', RequestLogger Status q latency next (s, l) = Panic e (s', l')
  | Block s' => ∃ l', RequestLogger Status q latency next (s, l) = Block (s', l')
  end.
Proof.
  destruct l as [min out]. unfold RequestLogger, logged. destruct (decide (lq_Path q = "/health")).
  - unfold in_chain, zoom. simpl. destruct (next s); [by rewrite app_nil_r|by eexists..].
  - unfold in_chain, in_logger, mbind, M_bind, zoom. cbn [fst snd]. rewrite slog_Log_run. cbn [fst snd lg_Level lg_Out].
    destruct (next s) as [a s'|e s'|s']; [|by eexists..]. cbn [fst snd]. rewrite slog_Log_run. cbn [lg_Level lg_Out].
    by rewrite <- app_assoc, <- filter_app.
Qed.

(** ** Properties *)

(** The level of a logger does not depend on how its name is written: any case of
    the four names gives that level, any other text the level of INFO.  With the
    level ERROR nothing below an error is written, with WARNING nothing below a
    warning. *)
Theorem initLogger_levels name l :
  initLogger name l = initLogger (ToUpper name) l ∧
  level_of name = default LevelInfo (level_names !! ToUpper name) ∧
  ∀ level msg attrs l1 l2, initLogger name l = Ret () l1 → slog_Log level msg attrs l1 = Ret () l2 →
    lg_Out l2 = lg_Out l ++ (if decide (level_of name ≤ level)%Z then [mkRecord level msg attrs] else []).
Proof.
  split; [unfold initLogger, level_of, modify; by rewrite ToUpper_idemp|]. split.
  - unfold level_of, level_names. generalize (ToUpper name). intros s.
    repeat case_decide; subst; try done. by rewrite !lookup_insert_ne, lookup_singleton_ne by done.
  - intros level msg attrs l1 l2 [= <-]. rewrite slog_Log_run. intros [= <-]. simpl.
    rewrite filter_cons. simpl. by case_decide.
Qed.

(** The request logger is transparent and logs by outcome.  The handlers behind
    it run exactly once and leave what they leave; a health check is never logged;
    any other request that is answered is logged as it comes in, and once more with
    its status when it is done, as an error from 500, as a warning from 400; at the
    level INFO a request that succeeds leaves no line. *)
Theorem request_logger_correct {S A} (Status : A → Z) (q : LoggedRequest) latency (next : M S A) (s : S) l :
  match next s with
  | Ret a s' => RequestLogger Status q latency next (s, l) =
      Ret a (s', mkLogger (lg_Level l) (lg_Out l ++ logged (lg_Level l) q (Status a) latency)) ∧
      (lg_Level l = LevelInfo → (Status a < 400)%Z → logged (lg_Level l) q (Status a) latency = []) ∧
      (lg_Level l = LevelInfo → (400 ≤ Status a)%Z → lq_Path q ≠ "/health" →
         logged (lg_Level l) q (Status a) latency =
           [mkRecord (if decide (500 ≤ Status a)%Z then LevelError else LevelWarn) "Request completed"
              (completed_attrs q (Status a) latency)])
  | Panic e s' => ∃ l', RequestLogger Status q latency next (s, l) = Panic e (s', l')
  | Block s' => ∃ l', RequestLogger Status q latency next (s, l) = Block (s', l')
  end.
Proof.
  pose proof (RequestLogger_run Status q latency next s l) as Hrun.
  destruct (next s) as [a s'|e s'|s']; [|done..]. split; [done|]. generalize (Status a) as st.
  unfold logged. intros st. rewrite !filter_cons, !filter_nil.
  unfold completion_level, LevelDebug, LevelInfo, LevelWarn, LevelError.
  split; simpl; intros ->; intros; repeat case_decide; try lia; done.
Qed.

(** ** Witnesses *)

Lemma initLogger_levels_witness :
  lg_Out (mkLogger LevelWarn [mkRecord LevelError "down" []]) =
    lg_Out (mkLogger LevelInfo []) ++ [mkRecord LevelError "down" []].
Proof.
  destruct (initLogger_levels "Warning" (mkLogger LevelInfo [])) as (_ & _ & H).
  apply (H LevelError "down" [] (mkLogger LevelWarn []) (mkLogger LevelWarn [mkRecord LevelError "down" []])).
  - reflexivity.
  - reflexivity.
Defined.

Lemma request_logger_correct_witness :
  RequestLogger id (mkLogged "GET" "/agents" "" "10.0.0.1") "1ms" (λ n : nat, Ret 404%Z n)
    (7, mkLogger LevelInfo []) =
  Ret 404%Z (7, mkLogger LevelInfo [mkRecord LevelWarn "Request completed"
    [("method", "GET"); ("path", "/agents"); ("status", "404"); ("latency", "1ms"); ("client_ip", "10.0.0.1")]]).
Proof.
  apply (request_logger_correct id (mkLogged "GET" "/agents" "" "10.0.0.1") "1ms" (λ n : nat, Ret 404%Z n) 7
    (mkLogger LevelInfo [])).
Defined.
