(* ===== verification/Configuration.v ===== *)
(** * Reading the configuration

    Models the [Config] of [src/internal/api/http/http.go], the [LogConfig] and the
    [InitConfig] of the two commands ([src/cmd/silo-proxy-agent/config.go] and
    [src/cmd/silo-proxy-server/config.go], which differ in the type they fill and in
    one directory).  The libraries it calls are parameters: [godotenv.Load], what
    [adder] finds and decodes under the settings it was given, and
    [json.MarshalIndent]. *)
From stdpp Require Import base strings list gmap fin_maps.
From Stdlib Require Import ZArith Lia.
From S2P Require Import Prelude GoStd Logging.

(** ** The shared parts *)

Record PortRange : Type := mkPortRange { PR_Start : Z; PR_End : Z }.

Record HttpConfig : Type := mkHttpConfig {
  HttpPort : Z;
  AgentPortRange : PortRange;
  AdminAPIKey : string;
}.

Record LogConfig : Type := mkLogConfig { Level_ : string; Log_Http : HttpConfig }.

(** What [adder] was told before it reads. *)
Record Settings : Type := mkSettings {
  ad_ConfigName : string;
  ad_Paths : list string;
  ad_ConfigType : string;
  ad_KeyReplacer : option (string * string);
  ad_AutomaticEnv : bool;
  ad_Bound : list (string * string);
}.

Definition no_settings : Settings := mkSettings "" [] "" None false [].

Definition Environ := gmap string string.

(** The libraries, for a configuration of type [C].  [Unmarshal] fills the value it
    is given, and may leave it changed when it fails. *)
Record Libraries (C : Type) : Type := mkLibraries {
  godotenv_Load : Environ → Environ;
  ReadInConfig : Settings → option error;
  Unmarshal : Settings → Environ → C → C * option error;
  MarshalIndent : C → result string;
}.
Arguments mkLibraries {C} _ _ _ _.
Arguments godotenv_Load {C} _ _.
Arguments ReadInConfig {C} _ _.
Arguments Unmarshal {C} _ _ _ _.
Arguments MarshalIndent {C} _ _.

(** The globals [InitConfig] works on. *)
Record Boot (C : Type) : Type := mkBoot {
  bt_config : C;
  bt_environ : Environ;
  bt_adder : Settings;
  bt_logger : Logger;
  bt_stdout : list string;
}.
Arguments mkBoot {C} _ _ _ _ _.
Arguments bt_config {C} _.
Arguments bt_environ {C} _.
Arguments bt_adder {C} _.
Arguments bt_logger {C} _.
Arguments bt_stdout {C} _.

Section InitConfig.
Context {C : Type} (lib : Libraries C) (log_level : C → string) (dir : string).

Definition on_adder (f : Settings → Settings) : M (Boot C) unit :=
  modify (λ b, mkBoot (bt_config b) (bt_environ b) (f (bt_adder b)) (bt_logger b) (bt_stdout b)).

Definition SetConfigName (name : string) : M (Boot C) unit :=
  on_adder (λ a, mkSettings name (ad_Paths a) (ad_ConfigType a) (ad_KeyReplacer a) (ad_AutomaticEnv a) (ad_Bound a)).
Definition AddConfigPath (path : string) : M (Boot C) unit :=
  on_adder (λ a, mkSettings (ad_ConfigName a) (ad_Paths a ++ [path]) (ad_ConfigType a) (ad_KeyReplacer a)
                   (ad_AutomaticEnv a) (ad_Bound a)).
Definition SetConfigType (type : string) : M (Boot C) unit :=
  on_adder (λ a, mkSettings (ad_ConfigName a) (ad_Paths a) type (ad_KeyReplacer a) (ad_AutomaticEnv a) (ad_Bound a)).
Definition SetEnvKeyReplacer (old new : string) : M (Boot C) unit :=
  on_adder (λ a, mkSettings (ad_ConfigName a) (ad_Paths a) (ad_ConfigType a) (Some (old, new)) (ad_AutomaticEnv a)
                   (ad_Bound a)).
Definition AutomaticEnv : M (Boot C) unit :=
  on_adder (λ a, mkSettings (ad_ConfigName a) (ad_Paths a) (ad_ConfigType a) (ad_KeyReplacer a) true (ad_Bound a)).
Definition BindEnv (key var : string) : M (Boot C) unit :=
  on_adder (λ a, mkSettings (ad_ConfigName a) (ad_Paths a) (ad_ConfigType a) (ad_KeyReplacer a) (ad_AutomaticEnv a)
                   (ad_Bound a ++ [(key, var)])).

Definition load_dotenv : M (Boot C) unit :=
  modify (λ b, mkBoot (bt_config b) (godotenv_Load lib (bt_environ b)) (bt_adder b) (bt_logger b) (bt_stdout b)).

(** [adder.Unmarshal(&config)] *)
Definition unmarshal : M (Boot C) (option error) := λ b,
  let (c, err) := Unmarshal lib (bt_adder b) (bt_environ b) (bt_config b) in
  Ret err (mkBoot c (bt_environ b) (bt_adder b) (bt_logger b) (bt_stdout b)).

Definition Println (line : string) : M (Boot C) unit :=
  modify (λ b, mkBoot (bt_config b) (bt_environ b) (bt_adder b) (bt_logger b) (bt_stdout b ++ [line])).

Definition in_boot_logger {A} : M Logger A → M (Boot C) A :=
  zoom bt_logger (λ l b, mkBoot (bt_config b) (bt_environ b) (bt_adder b) l (bt_stdout b)).

(** [if err != nil { panic(err) }] *)
Definition must (err : option error) : M (Boot C) unit :=
  match err with Some e => panic (Error e) | None => mret () end.

Definition InitConfig : M (Boot C) unit :=
  _ ← load_dotenv;
  _ ← SetConfigName "application";
  _ ← AddConfigPath ".";
  _ ← AddConfigPath dir;
  _ ← SetConfigType "yaml";
  _ ← SetEnvKeyReplacer "." "_";
  _ ← AutomaticEnv;
  _ ← BindEnv "telegram.token" "TELEGRAM_TOKEN";
  _ ← BindEnv "openrouter.apiKey" "OPENROUTER_API_KEY";
  b ← get;
  _ ← must (ReadInConfig lib (bt_adder b));
  err ← unmarshal;
  _ ← must err;
  b ← get;
  _ ← in_boot_logger (initLogger (log_level (bt_config b)));
  if decide (ToUpper (log_level (bt_config b)) = LOG_LEVEL_DEBUG) then
    match MarshalIndent lib (bt_config b) with
    | Ok configJSON => _ ← Println "Config loaded:"; Println configJSON
    | Err _ => mret ()
    end
  else mret ().
End InitConfig.

(** ** Facts *)

(** What [adder] is told when the process starts. *)
Definition init_settings (dir : string) : Settings :=
  mkSettings "application" ["."; dir] "yaml" (Some (".", "_")) true
    [("telegram.token", "TELEGRAM_TOKEN"); ("openrouter.apiKey", "OPENROUTER_API_KEY")].

(** What is printed of a configuration. *)
Definition printed {C} (lib : Libraries C) (log_level : C → string) (c : C) : list string :=
  if decide (level_of (log_level c) = LevelDebug) then
    match MarshalIndent lib c with Ok configJSON => ["Config loaded:"; configJSON] | Err _ => [] end
  else [].

Lemma level_of_debug name : level_of name = LevelDebug ↔ ToUpper name = LOG_LEVEL_DEBUG.
Proof.
  unfold level_of, LOG_LEVEL_ERROR, LOG_LEVEL_WARNING, LOG_LEVEL_INFO, LOG_LEVEL_DEBUG, LevelDebug, LevelError,
    LevelWarn, LevelInfo.
  repeat case_decide; split; intros; congruence.
Qed.

Lemma printed_eq {C} (lib : Libraries C) log_level c :
  printed lib log_level c =
    if decide (ToUpper (log_level c) = LOG_LEVEL_DEBUG) then
      match MarshalIndent lib c with Ok configJSON => ["Config loaded:"; configJSON] | Err _ => [] end
    else [].
Proof.
  unfold printed. destruct (decide (ToUpper (log_level c) = LOG_LEVEL_DEBUG)) as [H|H];
    rewrite <- level_of_debug in H; [by rewrite decide_True|by rewrite decide_False].
Qed.

(** [InitConfig] of a process that starts, as one function. *)
Lemma InitConfig_run {C} (lib : Libraries C) log_level dir zero env l out :
  let env' := godotenv_Load lib env in
  let s := init_settings dir in
  InitConfig lib log_level dir (mkBoot zero env no_settings l out) =
    match ReadInConfig lib s with
    | Some e => Panic (Error e) (mkBoot zero env' s l out)
    | None =>
        match Unmarshal lib s env' zero with
        | (c, Some e) => Panic (Error e) (mkBoot c env' s l out)
        | (c, None) => Ret () (mkBoot c env' s (mkLogger (level_of (log_level c)) (lg_Out l))
                                 (out ++ printed lib log_level c))
        end
    end.
Proof.
  cbv zeta. unfold InitConfig. do 10 (etrans; [refine (bind_run _ _ _ _ _ eq_refl)|]; simpl).
  fold (init_settings dir).
  destruct (ReadInConfig lib (init_settings dir)) as [e|]; [done|]. erewrite bind_run by done.
  destruct (Unmarshal lib (init_settings dir) _ zero) as [c [e|]] eqn:E.
  - erewrite bind_run; [|unfold unmarshal; cbn [bt_adder bt_environ bt_config]; by rewrite E]. done.
  - erewrite bind_run; [|unfold unmarshal; cbn [bt_adder bt_environ bt_config]; by rewrite E].
    do 3 (etrans; [refine (bind_run _ _ _ _ _ eq_refl)|]; simpl). rewrite printed_eq.
    destruct (decide (ToUpper (log_level c) = LOG_LEVEL_DEBUG)); [|by rewrite app_nil_r].
    destruct (MarshalIndent lib c); [|by rewrite app_nil_r]. unfold Println, modify, mbind, M_bind. simpl.
    by rewrite <- app_assoc.
Qed.
