(* ===== verification/PortManager.v ===== *)
(** * PortManager: the pool of ports for the per-agent HTTP servers

    Models [src/internal/api/http/port_manager.go].  The pool is the buffered
    channel [availablePorts]; [allocatedPorts] maps a port to the agent that
    holds it.  Every operation is in the Go monad, so that "never blocks" and
    "never panics" are part of what is proved. *)
From stdpp Require Import base strings list gmap fin_maps list_numbers.
From Stdlib Require Import ZArith Lia.
From S2P Require Import Prelude GoStd.

(** ** The code *)

Record PortManager : Type := mkPM {
  availablePorts : chan Z;
  allocatedPorts : gmap Z string;
  rangeStart : Z;
  rangeEnd : Z;
}.

Definition set_availablePorts (c : chan Z) (pm : PortManager) : PortManager :=
  mkPM c (allocatedPorts pm) (rangeStart pm) (rangeEnd pm).
Definition set_allocatedPorts (m : gmap Z string) (pm : PortManager) : PortManager :=
  mkPM (availablePorts pm) m (rangeStart pm) (rangeEnd pm).

(** [for port := start; port <= end; port++ { pm.availablePorts <- port }];
    [fuel] bounds the number of iterations. *)
Fixpoint prefill (fuel : nat) (port end_ : Z) : M (chan Z) unit :=
  match fuel with
  | O => block
  | S fuel' =>
      if (port <=? end_)%Z then _ ← ch_send port; prefill fuel' (port + 1) end_
      else mret ()
  end.

Definition NewPortManager (start end_ : Z) : outcome () (result PortManager) :=
  if (start >? end_)%Z then
    Ret (Err (Errorf ("invalid port range: start (" +:+ Itoa start +:+
      ") must be <= end (" +:+ Itoa end_ +:+ ")"))) ()
  else if (start <? 1)%Z || (end_ <? 1)%Z then
    Ret (Err (Errorf ("invalid port range: ports must be >= 1 (start: " +:+ Itoa start +:+
      ", end: " +:+ Itoa end_ +:+ ")"))) ()
  else if (end_ >? 65535)%Z then
    Ret (Err (Errorf ("invalid port range: end port (" +:+ Itoa end_ +:+
      ") must be <= 65535"))) ()
  else
    let poolSize := Z.to_nat (end_ - start + 1) in
    match prefill (S poolSize) start end_ (make_chan poolSize) with
    | Ret _ ch => Ret (Ok (mkPM ch ∅ start end_)) ()
    | Panic msg _ => Panic msg ()
    | Block _ => Block ()
    end.

Definition err_exhausted (pm : PortManager) : error :=
  Errorf ("no available ports in range " +:+ Itoa (rangeStart pm) +:+ "-" +:+ Itoa (rangeEnd pm)).

Definition Allocate (agentID : string) : M PortManager (result Z) :=
  got ← zoom availablePorts set_availablePorts ch_try_recv;
  match got with
  | Some port =>
      _ ← modify (λ pm, set_allocatedPorts (<[port := agentID]> (allocatedPorts pm)) pm);
      mret (Ok port)
  | None => pm ← get; mret (Err (err_exhausted pm))
  end.

Definition Release (port : Z) : M PortManager unit :=
  pm ← get;
  match allocatedPorts pm !! port with
  | None => mret ()
  | Some _ =>
      _ ← modify (λ pm, set_allocatedPorts (delete port (allocatedPorts pm)) pm);
      zoom availablePorts set_availablePorts (ch_send port)
  end.

Definition GetAllocations : M PortManager (gmap Z string) := gets allocatedPorts.

(** ** The invariant *)

Definition pool (pm : PortManager) : list Z := ch_buf (availablePorts pm).

(** Every port of the range is in the pool or allocated, never both, never
    twice, and the channel has room for the whole range. *)
Definition range_ports (start end_ : Z) : list Z := seqZ start (end_ - start + 1).

Definition range_of (pm : PortManager) : Z * Z := (rangeStart pm, rangeEnd pm).

Record pm_ok (pm : PortManager) : Prop := {
  pm_bounds : (1 ≤ rangeStart pm ≤ rangeEnd pm)%Z ∧ (rangeEnd pm ≤ 65535)%Z;
  pm_open : ch_closed (availablePorts pm) = false;
  pm_cap : ch_cap (availablePorts pm) = length (range_ports (rangeStart pm) (rangeEnd pm));
  pm_partition :
    pool pm ++ keys (allocatedPorts pm) ≡ₚ range_ports (rangeStart pm) (rangeEnd pm);
}.

(** ** Supporting lemmas *)

Lemma range_ports_NoDup s e : NoDup (range_ports s e).
Proof. apply NoDup_seqZ. Qed.

Lemma elem_of_range_ports p s e : p ∈ range_ports s e ↔ (s ≤ p ≤ e)%Z.
Proof. unfold range_ports. rewrite elem_of_seqZ. lia. Qed.

Lemma length_range_ports s e : length (range_ports s e) = Z.to_nat (e - s + 1).
Proof. apply length_seqZ. Qed.

(** The consequences of the partition that the clients use. *)
Section Partition.
Context (pm : PortManager) (Hok : pm_ok pm).

Lemma pm_ports_NoDup : NoDup (pool pm ++ keys (allocatedPorts pm)).
Proof. rewrite (pm_partition _ Hok). apply range_ports_NoDup. Qed.

Lemma pm_pool_NoDup : NoDup (pool pm).
Proof. pose proof pm_ports_NoDup as H. by apply NoDup_app in H as [? _]. Qed.

Lemma pm_pool_unallocated p : p ∈ pool pm → allocatedPorts pm !! p = None.
Proof.
  intros Hp. pose proof pm_ports_NoDup as H. apply NoDup_app in H as (_ & H & _).
  apply eq_None_not_Some. rewrite <- elem_of_keys. by apply H.
Qed.

Lemma pm_port_in_range p :
  p ∈ pool pm ∨ is_Some (allocatedPorts pm !! p) ↔ (rangeStart pm ≤ p ≤ rangeEnd pm)%Z.
Proof.
  rewrite <- elem_of_range_ports, <- (pm_partition _ Hok), elem_of_app.
  by rewrite elem_of_keys.
Qed.

Lemma pm_count :
  length (pool pm) + size (allocatedPorts pm) = ch_cap (availablePorts pm).
Proof.
  rewrite (pm_cap _ Hok), <- (pm_partition _ Hok), length_app. by rewrite length_keys.
Qed.

(** A held port leaves room in the channel, so giving it back cannot block. *)
Lemma pm_room p a : allocatedPorts pm !! p = Some a → length (pool pm) < ch_cap (availablePorts pm).
Proof.
  intros Hp. rewrite <- pm_count.
  assert (size (allocatedPorts pm) ≠ 0); [|lia].
  intros E. apply map_size_empty_inv in E. by rewrite E, lookup_empty in Hp.
Qed.
End Partition.

(** ** NewPortManager *)

Lemma prefill_spec fuel p e c :
  ch_closed c = false →
  length (ch_buf c) + Z.to_nat (e - p + 1) ≤ ch_cap c →
  Z.to_nat (e - p + 1) < fuel →
  prefill fuel p e c = Ret () (mkChan (ch_buf c ++ range_ports p e) (ch_cap c) false).
Proof.
  intros Hc Hlen Hfuel. revert p c Hc Hlen Hfuel.
  induction fuel as [|fuel IH]; intros p c Hc Hlen Hfuel; [lia|]. simpl.
  destruct (Z.leb_spec p e) as [Hle|Hgt].
  - unfold mbind, M_bind, ch_send, ch_full. rewrite Hc, bool_decide_eq_false_2 by lia.
    rewrite IH; cbn [ch_push ch_buf ch_cap ch_closed]; [|done|rewrite length_app; simpl; lia|lia].
    f_equal. f_equal. rewrite <- (assoc_L (++)). f_equal. unfold range_ports.
    rewrite (seqZ_cons p) by lia. simpl. f_equal. f_equal; lia.
  - unfold range_ports. rewrite (seqZ_nil p) by lia. rewrite app_nil_r.
    destruct c as [b cp cl]; simpl in *. by subst.
Qed.

Definition valid_range (start end_ : Z) : Prop :=
  (1 ≤ start ≤ end_)%Z ∧ (end_ ≤ 65535)%Z.

Lemma NewPortManager_eq start end_ :
  valid_range start end_ →
  NewPortManager start end_ =
    Ret (Ok (mkPM (mkChan (range_ports start end_) (length (range_ports start end_)) false)
                  ∅ start end_)) ().
Proof.
  intros [[H1 H2] H3]. unfold NewPortManager.
  destruct (Z.gtb_spec start end_); [lia|].
  destruct (Z.ltb_spec start 1); [lia|]. destruct (Z.ltb_spec end_ 1); [lia|]. cbn [orb].
  destruct (Z.gtb_spec end_ 65535); [lia|].
  rewrite prefill_spec; cbn [make_chan ch_buf ch_cap ch_closed length]; [|done|lia|lia].
  by rewrite length_range_ports.
Qed.

#[export] Instance valid_range_dec start end_ : Decision (valid_range start end_).
Proof. unfold valid_range. apply _. Defined.

Lemma NewPortManager_invalid start end_ :
  ¬ valid_range start end_ → ∃ e, NewPortManager start end_ = Ret (Err e) ().
Proof.
  intros Hv. unfold NewPortManager.
  destruct (Z.gtb_spec start end_); [by eexists|].
  destruct (Z.ltb_spec start 1); [by eexists|].
  destruct (Z.ltb_spec end_ 1); [by eexists|]. cbn [orb].
  destruct (Z.gtb_spec end_ 65535); [by eexists|]. destruct Hv. unfold valid_range. lia.
Qed.

Lemma pm_ok_new start end_ :
  valid_range start end_ →
  pm_ok (mkPM (mkChan (range_ports start end_) (length (range_ports start end_)) false)
              ∅ start end_).
Proof.
  intros Hv. split; simpl; [apply Hv|done|done|].
  unfold keys. by rewrite map_to_list_empty, app_nil_r.
Qed.

Lemma NewPortManager_Ok_inv start end_ pm :
  NewPortManager start end_ = Ret (Ok pm) () →
  valid_range start end_ ∧ pm_ok pm ∧ rangeStart pm = start ∧ rangeEnd pm = end_.
Proof.
  intros E. destruct (decide (valid_range start end_)) as [Hv|Hv].
  - rewrite (NewPortManager_eq _ _ Hv) in E. injection E as <-.
    split; [done|]. split; [by apply pm_ok_new|done].
  - destruct (NewPortManager_invalid _ _ Hv) as [e He]. by rewrite He in E.
Qed.

(** ** Allocate and Release *)

Lemma Allocate_spec agentID pm :
  pm_ok pm →
  wp (Allocate agentID) pm (λ r pm', pm_ok pm' ∧
    match r with
    | Ok port =>
        pool pm = port :: pool pm' ∧ allocatedPorts pm !! port = None ∧
        allocatedPorts pm' = <[port := agentID]> (allocatedPorts pm) ∧
        (1 ≤ port ≤ 65535)%Z ∧ range_of pm' = range_of pm
    | Err e => pool pm = [] ∧ pm' = pm ∧ e = err_exhausted pm
    end).
Proof.
  intros Hok. unfold Allocate. wp_steps. apply wp_ch_try_recv.
  - intros E. wp_steps. destruct pm. by simpl in *.
  - intros port buf E. wp_steps.
    assert (port ∈ pool pm) as Hin by (unfold pool; rewrite E; left).
    pose proof (pm_pool_unallocated _ Hok _ Hin) as Hun.
    assert (rangeStart pm ≤ port ≤ rangeEnd pm)%Z as Hr
      by (apply (pm_port_in_range _ Hok); by left).
    destruct (pm_bounds _ Hok) as [? ?]. split; [|by split_and!; try lia].
    split; simpl; [done|apply Hok|apply Hok|].
    rewrite <- (pm_partition _ Hok). unfold pool. simpl. rewrite E, keys_insert by done.
    simpl. by rewrite Permutation_middle.
Qed.

Lemma Release_spec port pm :
  pm_ok pm →
  wp (Release port) pm (λ _ pm', pm_ok pm' ∧
    range_of pm' = range_of pm ∧
    allocatedPorts pm' = delete port (allocatedPorts pm) ∧
    pool pm' = match allocatedPorts pm !! port with
               | Some _ => pool pm ++ [port]
               | None => pool pm
               end).
Proof.
  intros Hok. unfold Release. wp_steps.
  destruct (allocatedPorts pm !! port) as [a|] eqn:E.
  - wp_steps. apply wp_ch_send; simpl; [apply Hok|by eapply pm_room|].
    split; [|done]. split; simpl; [apply Hok..|].
    rewrite <- (pm_partition _ Hok). unfold pool. simpl.
    rewrite (keys_delete _ _ _ E), <- (assoc_L (++)). done.
  - wp_steps. by rewrite delete_id.
Qed.

(** ** Properties *)

(** [NewPortManager] accepts exactly the ranges [1 <= start <= end <= 65535];
    it then returns a manager whose pool holds every port of the range once, in
    increasing order, with nothing allocated, and otherwise it returns an error
    and never blocks on the channel it fills. *)
Theorem NewPortManager_correct start end_ :
  match NewPortManager start end_ with
  | Ret (Ok pm) _ =>
      valid_range start end_ ∧ pm_ok pm ∧ pool pm = range_ports start end_ ∧
      allocatedPorts pm = ∅ ∧ rangeStart pm = start ∧ rangeEnd pm = end_
  | Ret (Err _) _ => ¬ valid_range start end_
  | _ => False
  end.
Proof.
  destruct (decide (valid_range start end_)) as [Hv|Hv].
  - rewrite (NewPortManager_eq _ _ Hv). split; [done|]. split; [by apply pm_ok_new|done].
  - by destruct (NewPortManager_invalid _ _ Hv) as [e ->].
Qed.

(** The calls a client makes, and running a sequence of them. *)
Inductive pm_call : Type :=
  | CallAllocate (agentID : string)
  | CallRelease (port : Z).

Definition run_call (c : pm_call) : M PortManager unit :=
  match c with
  | CallAllocate a => _ ← Allocate a; mret ()
  | CallRelease p => Release p
  end.

Lemma run_call_ok c pm : pm_ok pm → wp (run_call c) pm (λ _ pm',
  pm_ok pm' ∧ range_of pm' = range_of pm).
Proof.
  intros Hok. destruct c as [a|p]; simpl.
  - wp_steps. eapply wp_mono; [by apply Allocate_spec|].
    intros [p|e] pm' H; wp_steps; [by destruct H as (? & _ & _ & _ & _ & ?)|]. by destruct H as (? & _ & -> & _).
  - eapply wp_mono; [by apply Release_spec|]. by intros ? ? (? & ? & _).
Qed.

(** From a fresh manager, any sequence of [Allocate] and [Release] calls
    (releases of ports nobody holds and double releases included) returns
    without blocking or panicking, and afterwards each port of the range is
    either free or held by one agent, exactly once. *)
Theorem port_pool_partition start end_ (calls : list pm_call) pm0 :
  NewPortManager start end_ = Ret (Ok pm0) () →
  wp (for_each calls run_call) pm0 (λ _ pm,
    pool pm ++ keys (allocatedPorts pm) ≡ₚ range_ports start end_ ∧
    NoDup (pool pm ++ keys (allocatedPorts pm))).
Proof.
  intros (_ & Hok & <- & <-)%NewPortManager_Ok_inv.
  eapply wp_mono.
  - apply (wp_for_each calls run_call pm0 (λ _ pm,
      pm_ok pm ∧ range_of pm = range_of pm0)); [done|].
    intros c l pm (Hpm & Hr). eapply wp_mono; [by apply run_call_ok|].
    intros [] pm'. rewrite Hr. done.
  - intros [] pm (Hpm & Hr). injection Hr as <- <-.
    split; [apply Hpm|by apply pm_ports_NoDup].
Qed.

Lemma port_pool_partition_witness :
  wp (for_each [CallAllocate "a"; CallAllocate "b"; CallRelease 8100; CallRelease 8100;
                CallAllocate "c"] run_call)
     (mkPM (mkChan [8100; 8101; 8102]%Z 3 false) ∅ 8100 8102)
     (λ _ pm, pool pm ++ keys (allocatedPorts pm) ≡ₚ range_ports 8100 8102 ∧
              NoDup (pool pm ++ keys (allocatedPorts pm))).
Proof. apply (port_pool_partition 8100 8102). vm_compute. reflexivity. Defined.

(** [Allocate] hands out the port that has been free the longest and fails
    exactly when every port of the range is held; a failed call changes
    nothing, a successful one moves one port from the pool to the agent. *)
Theorem Allocate_correct agentID pm :
  pm_ok pm →
  match Allocate agentID pm with
  | Ret (Ok port) pm' =>
      pool pm = port :: pool pm' ∧ allocatedPorts pm !! port = None ∧
      allocatedPorts pm' = <[port := agentID]> (allocatedPorts pm)
  | Ret (Err _) pm' =>
      pm' = pm ∧ ∀ port, (rangeStart pm ≤ port ≤ rangeEnd pm)%Z ↔ is_Some (allocatedPorts pm !! port)
  | _ => False
  end.
Proof.
  intros Hok. pose proof (Allocate_spec agentID pm Hok) as H. unfold wp in H.
  destruct (Allocate agentID pm) as [[p|e] pm'| |]; [naive_solver| |done|done].
  destruct H as (_ & Hpool & -> & _). split; [done|]. intros p.
  rewrite <- (pm_port_in_range _ Hok), Hpool. split; [|by right].
  intros [H|H]; [by apply not_elem_of_nil in H|done].
Qed.

Lemma Allocate_correct_witness :
  match Allocate "x" (mkPM (mkChan [8101]%Z 2 false) {[8100%Z := "a"]} 8100 8101) with
  | Ret (Ok port) pm' => port = 8101%Z
  | _ => False
  end.
Proof.
  assert (pm_ok (mkPM (mkChan [8101]%Z 2 false) {[8100%Z := "a"]} 8100 8101)) as Hok.
  { split; [simpl; lia|done|done|]. apply perm_swap. }
  pose proof (Allocate_correct "x" _ Hok) as H.
  destruct (Allocate _ _) as [[p|e] pm'| |]; [|exfalso|done|done].
  - destruct H as [H _]. injection H. done.
  - destruct H as [_ H]. destruct (proj1 (H 8101%Z)); [simpl; lia|]. done.
Defined.
