(* ===== verification/PortConcurrency.v ===== *)
(** * PortManager under concurrent callers

    [Allocate] and [Release] of [src/internal/api/http/port_manager.go] are
    called from several goroutines.  [Allocate] receives from the channel
    before it takes the mutex and [Release] sends to the channel after it has
    given the mutex back, so between the two a port is in neither place.  Here
    each channel operation and each critical section is one step, and any
    number of calls interleave.  The specification the interleaving refines is
    an atomic map from ports to agents, with the calls and what they return. *)
From stdpp Require Import base strings list gmap fin_maps relations list_numbers.
From Stdlib Require Import ZArith Lia.
From S2P Require Import Prelude GoStd PortManager.

(** Where a goroutine is inside a call. *)
Inductive thread : Type :=
  | TAlloc (agentID : string)              (** before the [select] *)
  | TAllocGot (agentID : string) (port : Z)  (** received, before [pm.mu.Lock()] *)
  | TAllocDone (r : result Z)
  | TRelease (port : Z)                    (** before [pm.mu.Lock()] *)
  | TReleaseDel (port : Z)                 (** after [pm.mu.Unlock()], before the send *)
  | TReleaseDone.

Record sys : Type := mkSys { spm : PortManager; threads : gmap nat thread }.

Inductive step : sys → sys → Prop :=
  | step_call pm ts t th :
      ts !! t = None → (∃ a, th = TAlloc a) ∨ (∃ p, th = TRelease p) →
      step (mkSys pm ts) (mkSys pm (<[t := th]> ts))
  | step_recv pm ts t a p c' :
      ts !! t = Some (TAlloc a) →
      ch_try_recv (availablePorts pm) = Ret (Some p) c' →
      step (mkSys pm ts) (mkSys (set_availablePorts c' pm) (<[t := TAllocGot a p]> ts))
  | step_exhausted pm ts t a c' :
      ts !! t = Some (TAlloc a) →
      ch_try_recv (availablePorts pm) = Ret None c' →
      step (mkSys pm ts) (mkSys pm (<[t := TAllocDone (Err (err_exhausted pm))]> ts))
  | step_record pm ts t a p :
      ts !! t = Some (TAllocGot a p) →
      step (mkSys pm ts)
           (mkSys (set_allocatedPorts (<[p := a]> (allocatedPorts pm)) pm)
                  (<[t := TAllocDone (Ok p)]> ts))
  | step_release_unknown pm ts t p :
      ts !! t = Some (TRelease p) → allocatedPorts pm !! p = None →
      step (mkSys pm ts) (mkSys pm (<[t := TReleaseDone]> ts))
  | step_release_delete pm ts t p a :
      ts !! t = Some (TRelease p) → allocatedPorts pm !! p = Some a →
      step (mkSys pm ts)
           (mkSys (set_allocatedPorts (delete p (allocatedPorts pm)) pm)
                  (<[t := TReleaseDel p]> ts))
  | step_release_send pm ts t p c' :
      ts !! t = Some (TReleaseDel p) →
      ch_send p (availablePorts pm) = Ret () c' →
      step (mkSys pm ts) (mkSys (set_availablePorts c' pm) (<[t := TReleaseDone]> ts)).

Definition init (pm : PortManager) : sys := mkSys pm ∅.

(** ** The invariant *)

Definition in_flight (th : thread) : option Z :=
  match th with
  | TAllocGot _ p | TReleaseDel p => Some p
  | _ => None
  end.

Definition flying (s : sys) : list Z := gather in_flight (threads s).

Record ports_ok (r0 r1 : Z) (s : sys) : Prop := {
  so_open : ch_closed (availablePorts (spm s)) = false;
  so_cap : ch_cap (availablePorts (spm s)) = length (range_ports r0 r1);
  so_partition :
    pool (spm s) ++ flying s ++ keys (allocatedPorts (spm s)) ≡ₚ range_ports r0 r1;
}.

Section Invariant.
Context (r0 r1 : Z).

Lemma ports_ok_init pm :
  pm_ok pm → rangeStart pm = r0 → rangeEnd pm = r1 → ports_ok r0 r1 (init pm).
Proof.
  intros Hok <- <-. split; simpl; [apply Hok|apply Hok|].
  unfold flying. simpl. rewrite gather_empty. simpl. apply Hok.
Qed.

Lemma flying_insert pm ts t th th' :
  ts !! t = Some th →
  option_list (in_flight th) ++ flying (mkSys pm (<[t := th']> ts))
    ≡ₚ option_list (in_flight th') ++ flying (mkSys pm ts).
Proof.
  intros Ht. unfold flying. simpl. rewrite (gather_delete in_flight ts t th Ht).
  rewrite gather_insert. solve_Permutation.
Qed.

(** A port some goroutine has in flight is not recorded as held, and is not in
    the pool. *)
Lemma flying_unallocated s p :
  ports_ok r0 r1 s → p ∈ flying s → allocatedPorts (spm s) !! p = None ∧ p ∉ pool (spm s).
Proof.
  intros Hok Hp. pose proof (range_ports_NoDup r0 r1) as Hnd.
  rewrite <- (so_partition _ _ _ Hok) in Hnd.
  apply NoDup_app in Hnd as (_ & Hd1 & Hnd). apply NoDup_app in Hnd as (_ & Hd2 & _).
  split.
  - apply eq_None_not_Some. rewrite <- elem_of_keys. by apply Hd2.
  - intros Hpool. apply (Hd1 _ Hpool). rewrite elem_of_app. by left.
Qed.

Lemma thread_flying pm ts t th p :
  ts !! t = Some th → in_flight th = Some p → p ∈ flying (mkSys pm ts).
Proof. intros. apply elem_of_gather. eauto. Qed.

Lemma ports_ok_step s s' : ports_ok r0 r1 s → step s s' → ports_ok r0 r1 s'.
Proof.
  intros Hok Hs.
  destruct Hs as [pm ts t th Ht Hth|pm ts t a p c' Ht Hr|pm ts t a c' Ht Hr|pm ts t a p Ht
    |pm ts t p Ht Hp|pm ts t p a Ht Hp|pm ts t p c' Ht Hr];
    pose proof (so_open _ _ _ Hok) as Ho; pose proof (so_cap _ _ _ Hok) as Hc;
    pose proof (so_partition _ _ _ Hok) as Hpart; cbn [spm] in *.
  - split; [done..|]. unfold flying in *. simpl in *. rewrite gather_insert_new by done.
    destruct Hth as [[a ->]|[p ->]]; done.
  - unfold ch_try_recv in Hr. unfold pool in *.
    destruct (ch_buf (availablePorts pm)) as [|p' buf] eqn:E; [done|]. injection Hr as <- <-.
    split; [done..|]. cbn [spm]. rewrite <- Hpart.
    pose proof (flying_insert (set_availablePorts (mkChan buf (ch_cap (availablePorts pm))
      (ch_closed (availablePorts pm))) pm) ts t _ (TAllocGot a p') Ht) as Hf. simpl in Hf.
    unfold pool. simpl. rewrite Hf. unfold flying. simpl. solve_Permutation.
  - split; [done..|]. rewrite <- Hpart.
    pose proof (flying_insert pm ts t _ (TAllocDone (Err (err_exhausted pm))) Ht) as Hf.
    simpl in *. by rewrite Hf.
  - split; [done..|]. rewrite <- Hpart.
    destruct (flying_unallocated _ p Hok) as [Hn _]; [by eapply thread_flying|]. simpl in Hn.
    pose proof (flying_insert pm ts t _ (TAllocDone (Ok p)) Ht) as Hf. simpl in Hf.
    unfold pool. simpl. rewrite keys_insert by done. unfold flying in *. simpl in *.
    rewrite <- Hf. solve_Permutation.
  - split; [done..|]. rewrite <- Hpart.
    pose proof (flying_insert pm ts t _ TReleaseDone Ht) as Hf. simpl in *. by rewrite Hf.
  - split; [done..|]. rewrite <- Hpart.
    pose proof (flying_insert pm ts t _ (TReleaseDel p) Ht) as Hf. simpl in Hf.
    unfold pool, flying in *. simpl in *. rewrite Hf, (keys_delete _ _ _ Hp).
    solve_Permutation.
  - unfold ch_send in Hr. rewrite Ho in Hr. destruct (ch_full _); [done|]. injection Hr as <-.
    split; [done..|]. rewrite <- Hpart.
    pose proof (flying_insert pm ts t _ TReleaseDone Ht) as Hf. simpl in Hf.
    unfold pool, flying in *. simpl in *. rewrite <- Hf. solve_Permutation.
Qed.

Lemma ports_ok_reachable pm s :
  pm_ok pm → rangeStart pm = r0 → rangeEnd pm = r1 → rtc step (init pm) s → ports_ok r0 r1 s.
Proof.
  intros Hok H0 H1 Hr. eapply rtc_invariant; [done|by apply ports_ok_init|].
  intros ???. by apply ports_ok_step.
Qed.
End Invariant.

(** ** The specification: an atomic port map *)

(** What a call of a goroutine is, to somebody who sees calls, returns and the map: an
    [Allocate] for an agent, still out or returned with its result; a [Release] of a
    port, before its entry is gone, after it and before the return, and returned. *)
Inductive port_call : Type :=
  | SAlloc (agentID : string)
  | SAllocated (r : result Z)
  | SRelease (port : Z)
  | SReleasing
  | SReleased.

Record port_spec : Type := mkSpec { sp_map : gmap Z string; sp_calls : gmap nat port_call }.

Definition spec_init : port_spec := mkSpec ∅ ∅.

(** The calls that can have a port in their hands. *)
Definition holding (c : port_call) : option unit :=
  match c with SAlloc _ | SReleasing => Some () | _ => None end.

(** Every call takes effect at one moment between its start and its return.  An
    [Allocate] that succeeds takes a port of the range that no agent holds and returns
    that one; one that fails does so only when the agents and the other calls under way
    can hold the whole range; a [Release] frees the port it was called with, and only
    if somebody holds it. *)
Inductive spec_step (r0 r1 : Z) : port_spec → port_spec → Prop :=
  | spec_call m cs t c :
      cs !! t = None → (∃ a, c = SAlloc a) ∨ (∃ p, c = SRelease p) →
      spec_step r0 r1 (mkSpec m cs) (mkSpec m (<[t := c]> cs))
  | spec_allocate m cs t a p :
      cs !! t = Some (SAlloc a) → (r0 ≤ p ≤ r1)%Z → m !! p = None →
      spec_step r0 r1 (mkSpec m cs) (mkSpec (<[p := a]> m) (<[t := SAllocated (Ok p)]> cs))
  | spec_exhausted m cs t a e :
      cs !! t = Some (SAlloc a) →
      Z.to_nat (r1 - r0 + 1) ≤ size m + length (gather holding (delete t cs)) →
      spec_step r0 r1 (mkSpec m cs) (mkSpec m (<[t := SAllocated (Err e)]> cs))
  | spec_release m cs t p a :
      cs !! t = Some (SRelease p) → m !! p = Some a →
      spec_step r0 r1 (mkSpec m cs) (mkSpec (delete p m) (<[t := SReleasing]> cs))
  | spec_release_unknown m cs t p :
      cs !! t = Some (SRelease p) → m !! p = None →
      spec_step r0 r1 (mkSpec m cs) (mkSpec m (<[t := SReleased]> cs))
  | spec_released m cs t :
      cs !! t = Some SReleasing →
      spec_step r0 r1 (mkSpec m cs) (mkSpec m (<[t := SReleased]> cs)).

(** What is seen of a goroutine inside a call. *)
Definition seen (th : thread) : port_call :=
  match th with
  | TAlloc a | TAllocGot a _ => SAlloc a
  | TAllocDone r => SAllocated r
  | TRelease p => SRelease p
  | TReleaseDel _ => SReleasing
  | TReleaseDone => SReleased
  end.

Definition abs (s : sys) : port_spec := mkSpec (allocatedPorts (spm s)) (seen <$> threads s).

(** Ports in flight are in the hands of calls that are seen to be under way. *)
Lemma flying_holding (ts : gmap nat thread) :
  length (gather in_flight ts) ≤ length (gather holding (seen <$> ts)).
Proof.
  induction ts as [|t th ts Ht IH] using map_ind; [done|].
  rewrite fmap_insert, !gather_insert_new by (rewrite ?lookup_fmap, Ht; done).
  rewrite !length_app. destruct th; simpl; lia.
Qed.

Lemma exhausted_when_all_held r0 r1 pm ts t a :
  ports_ok r0 r1 (mkSys pm ts) → ts !! t = Some (TAlloc a) → pool pm = [] →
  Z.to_nat (r1 - r0 + 1) ≤
    size (allocatedPorts pm) + length (gather holding (delete t (seen <$> ts))).
Proof.
  intros Hok Ht Hp. rewrite <- length_range_ports, <- (so_partition _ _ _ Hok). simpl.
  rewrite Hp, !length_app, length_keys, <- fmap_delete. simpl.
  assert (flying (mkSys pm ts) ≡ₚ gather in_flight (delete t ts)) as -> by apply (gather_delete in_flight ts t _ Ht).
  pose proof (flying_holding (delete t ts)). lia.
Qed.

Lemma step_simulates r0 r1 s s' :
  ports_ok r0 r1 s → step s s' → abs s = abs s' ∨ spec_step r0 r1 (abs s) (abs s').
Proof.
  intros Hok Hs. destruct Hs as [pm ts t th Ht Hth|pm ts t a p c' Ht Hr|pm ts t a c' Ht Hr|pm ts t a p Ht
    |pm ts t p Ht Hp|pm ts t p a Ht Hp|pm ts t p c' Ht Hr]; unfold abs; cbn [spm threads];
    rewrite fmap_insert;
    assert ((seen <$> ts) !! t = seen <$> ts !! t) as Hts by apply lookup_fmap; rewrite Ht in Hts; simpl in Hts.
  - right. apply spec_call; [done|]. destruct Hth as [[a ->]|[p ->]]; eauto.
  - left. simpl. by rewrite insert_id.
  - right. eapply spec_exhausted; [exact Hts|]. eapply exhausted_when_all_held; [exact Hok|exact Ht|].
    unfold ch_try_recv in Hr. unfold pool. by destruct (ch_buf (availablePorts pm)).
  - right. pose proof (thread_flying pm _ _ _ p Ht eq_refl) as Hfly.
    apply spec_allocate; [exact Hts| |by eapply (flying_unallocated _ _ _ _ Hok Hfly)].
    rewrite <- elem_of_range_ports, <- (so_partition _ _ _ Hok), !elem_of_app. auto.
  - right. by apply (spec_release_unknown _ _ _ _ _ p).
  - right. by eapply spec_release.
  - right. by apply spec_released.
Qed.

(** ** Properties *)

(** However the calls interleave, no port is lost or duplicated: at every
    point each port of the range is in the channel, in the hands of exactly one
    goroutine between its two critical actions, or recorded for one agent; and
    a [Release] that has removed its entry can always complete its send, so the
    blocking send in [Release] never blocks. *)
Theorem concurrent_port_safety start end_ pm0 s :
  NewPortManager start end_ = Ret (Ok pm0) () →
  rtc step (init pm0) s →
  NoDup (pool (spm s) ++ flying s ++ keys (allocatedPorts (spm s))) ∧
  (∀ p, p ∈ pool (spm s) ++ flying s ++ keys (allocatedPorts (spm s)) ↔ (start ≤ p ≤ end_)%Z) ∧
  (∀ t p, threads s !! t = Some (TReleaseDel p) →
     ∃ c', ch_send p (availablePorts (spm s)) = Ret () c').
Proof.
  intros (_ & Hok & Hs & He)%NewPortManager_Ok_inv Hr.
  pose proof (ports_ok_reachable _ _ _ _ Hok Hs He Hr) as Hi.
  pose proof (so_partition _ _ _ Hi) as Hp. split; [|split].
  - rewrite Hp. apply range_ports_NoDup.
  - intros p. rewrite Hp. apply elem_of_range_ports.
  - intros t p Ht. unfold ch_send, ch_full. rewrite (so_open _ _ _ Hi), bool_decide_eq_false_2.
    + by eexists.
    + rewrite (so_cap _ _ _ Hi), <- Hp, !length_app.
      pose proof (thread_flying (spm s) _ _ _ p Ht eq_refl) as Hfly.
      destruct s as [pm ts]. simpl in *. unfold pool.
      destruct (flying (mkSys pm ts)); [by apply not_elem_of_nil in Hfly|]. simpl. lia.
Qed.

(** C20: the interleaved system implements an atomic port map.  Every step any of the
    goroutines takes is, to an observer of the calls, their results and the map, one
    step of [spec_step] or none: an [Allocate] returns a port of the range that nobody
    held at the moment it took it, and the map holds it for the agent it was called
    for; it fails only when agents and other calls can hold the whole range; a
    [Release] frees the port it names and nothing else.  So no allocation ever
    overwrites another agent's port. *)
Theorem concurrent_refines_port_map start end_ pm0 s :
  NewPortManager start end_ = Ret (Ok pm0) () →
  rtc step (init pm0) s →
  rtc (spec_step start end_) spec_init (abs s) ∧
  ∀ s', step s s' → abs s = abs s' ∨ spec_step start end_ (abs s) (abs s').
Proof.
  intros Hnew Hr. pose proof (NewPortManager_Ok_inv _ _ _ Hnew) as (Hv & Hok & Hs & He).
  assert (abs (init pm0) = spec_init) as <-.
  { rewrite (NewPortManager_eq _ _ Hv) in Hnew. injection Hnew as <-. unfold abs, spec_init. simpl.
    by rewrite fmap_empty. }
  split.
  - eapply (rtc_simulation step _ (ports_ok start end_)); [done|by apply ports_ok_init|].
    intros a b Ha Hab. split; [by eapply ports_ok_step|]. by apply step_simulates.
  - intros s'. apply step_simulates. by eapply ports_ok_reachable.
Qed.

(** An [Allocate] reports exhaustion only when every port of the range is
    recorded for an agent or is in transit in a concurrent call; with no other
    call in progress that means every port is held. *)
Theorem concurrent_exhaustion start end_ pm0 s t a s' :
  NewPortManager start end_ = Ret (Ok pm0) () →
  rtc step (init pm0) s → step s s' →
  threads s !! t = Some (TAlloc a) →
  threads s' !! t = Some (TAllocDone (Err (err_exhausted (spm s)))) →
  size (allocatedPorts (spm s)) + length (flying s) = Z.to_nat (end_ - start + 1).
Proof.
  intros (_ & Hok & Hs & He)%NewPortManager_Ok_inv Hr Hstep Ht Ht'.
  pose proof (ports_ok_reachable _ _ _ _ Hok Hs He Hr) as Hi.
  rewrite <- length_range_ports, <- (so_partition _ _ _ Hi), !length_app, length_keys.
  assert (pool (spm s) = []) as ->; [|simpl; lia].
  destruct Hstep as [pm ts t' th Hn|pm ts t' a' p c' Hn|pm ts t' a' c' Hn Hc|pm ts t' a' p Hn
    |pm ts t' p Hn|pm ts t' p a' Hn|pm ts t' p c' Hn]; cbn [threads spm] in *;
    (destruct (decide (t' = t)) as [->|Hne];
      [rewrite lookup_insert_eq in Ht'|rewrite lookup_insert_ne in Ht' by done]); try congruence.
  unfold ch_try_recv in Hc. unfold pool. by destruct (ch_buf (availablePorts pm)).
Qed.

(** A run on a one-port range: [b] asks for a port while [a] gives the only one
    back, and is told that the pool is exhausted. *)
Module Run.
Definition pm0 : PortManager := mkPM (mkChan [8100%Z] 1 false) ∅ 8100 8100.
Definition pm1 : PortManager := mkPM (mkChan [] 1 false) ∅ 8100 8100.
Definition pm2 : PortManager := mkPM (mkChan [] 1 false) {[8100%Z := "a"]} 8100 8100.
Definition ts5 : gmap nat thread :=
  <[2 := TAlloc "b"]> (<[1 := TReleaseDel 8100]> (<[1 := TRelease 8100]>
    (<[0 := TAllocDone (Ok 8100%Z)]> (<[0 := TAllocGot "a" 8100]> {[0 := TAlloc "a"]})))).
Definition mid : sys := mkSys pm1 ts5.
Definition last : sys := mkSys pm1 (<[2 := TAllocDone (Err (err_exhausted pm1))]> ts5).

Lemma run_mid : rtc step (init pm0) mid.
Proof.
  eapply rtc_l; [apply (step_call _ _ 0 (TAlloc "a")); [done|eauto]|].
  eapply rtc_l; [eapply (step_recv _ _ 0 "a" 8100); [done|reflexivity]|].
  eapply rtc_l; [eapply (step_record _ _ 0 "a" 8100); done|].
  eapply rtc_l; [apply (step_call _ _ 1 (TRelease 8100)); [done|eauto]|].
  eapply rtc_l; [eapply (step_release_delete _ _ 1 8100 "a"); done|].
  eapply rtc_l; [apply (step_call _ _ 2 (TAlloc "b")); [done|eauto]|].
  apply rtc_refl.
Defined.

Lemma run_last : step mid last.
Proof. eapply (step_exhausted _ _ 2 "b"); [done|reflexivity]. Defined.
End Run.

Lemma concurrent_port_safety_witness :
  ∃ c', ch_send 8100%Z (availablePorts (spm Run.mid)) = Ret () c'.
Proof.
  destruct (concurrent_port_safety 8100 8100 Run.pm0 Run.mid) as (_ & _ & H).
  - vm_compute. reflexivity.
  - exact Run.run_mid.
  - apply (H 1). reflexivity.
Defined.

Lemma concurrent_refines_port_map_witness :
  rtc (spec_step 8100 8100) spec_init (abs Run.mid) ∧
  (abs Run.mid = abs Run.last ∨ spec_step 8100 8100 (abs Run.mid) (abs Run.last)).
Proof.
  destruct (concurrent_refines_port_map 8100 8100 Run.pm0 Run.mid) as [Hrun Hstep].
  - vm_compute. reflexivity.
  - exact Run.run_mid.
  - split; [exact Hrun|]. exact (Hstep Run.last Run.run_last).
Defined.

Lemma concurrent_exhaustion_witness :
  size (allocatedPorts (spm Run.mid)) + length (flying Run.mid) = 1.
Proof.
  apply (concurrent_exhaustion 8100 8100 Run.pm0 Run.mid 2 "b" Run.last).
  - vm_compute. reflexivity.
  - exact Run.run_mid.
  - exact Run.run_last.
  - reflexivity.
  - reflexivity.
Defined.
