(* ===== verification/ServerInterface.v ===== *)
(** * The AgentServerManager interface

    [src/internal/grpc/server/connection_manager.go] declares the Go interface
    through which the connection manager starts and stops the per-agent HTTP
    servers.  Here it is a class of operations on a state [S], and a second
    class with what an implementation promises: a view of which agent is served
    on which port, and how each operation changes it.  [ConnectionManager] is
    verified against these classes; [AgentServerManager] is an instance. *)
From stdpp Require Import base strings gmap.
From Stdlib Require Import ZArith.
From S2P Require Import Prelude.

Class AgentServerOps (S : Type) : Type := {
  asm_start : string → M S (result Z);       (** [StartAgentServer(agentID) (int, error)] *)
  asm_stop : string → M S (result unit);     (** [StopAgentServer(agentID) error] *)
  asm_shutdown : M S (result unit);          (** [Shutdown() error] *)
}.

Class AgentServerSpec (S : Type) `{AgentServerOps S} : Type := {
  asm_inv : S → Prop;
  asm_view : S → gmap string Z;
  asm_view_inj : ∀ s a b p, asm_inv s →
    asm_view s !! a = Some p → asm_view s !! b = Some p → a = b;
  asm_view_port : ∀ s a p, asm_inv s → asm_view s !! a = Some p → (1 ≤ p ≤ 65535)%Z;
  asm_start_ok : ∀ a s, asm_inv s →
    wp (asm_start a) s (λ r s', asm_inv s' ∧
      match r with
      | Ok p => asm_view s !! a = None ∧ (∀ b, asm_view s !! b ≠ Some p) ∧
                asm_view s' = <[a := p]> (asm_view s)
      | Err _ => asm_view s' = asm_view s
      end);
  asm_stop_ok : ∀ a s, asm_inv s →
    wp (asm_stop a) s (λ _ s', asm_inv s' ∧ asm_view s' = delete a (asm_view s));
  asm_shutdown_ok : ∀ s, asm_inv s →
    wp asm_shutdown s (λ _ s', asm_inv s' ∧ asm_view s' = ∅);
}.
