(* ===== verification/AgentServerManager.v ===== *)
(** * AgentServerManager: one HTTP server per connected agent

    Models [src/internal/api/http/agent_server_manager.go] over the
    [PortManager] model.  The parts of [net] and [net/http] the code uses are
    modelled beside it: a table of open listeners (binding a port that is
    already bound fails, closing a listener frees its port) and the life of an
    [http.Server] ([Serve], [Shutdown], [Close]).  What the outside world
    decides (another process holding a port, a graceful shutdown that runs into
    its deadline, the wall clock) is the [Env] in the state; the theorems hold
    for every [Env]. *)
From stdpp Require Import base strings list gmap fin_maps list_numbers.
From Stdlib Require Import ZArith Lia.
From S2P Require Import Prelude GoStd PortManager ServerInterface.

(** ** net and net/http *)

Record Env : Type := mkEnv {
  bind_refused : nat → Z → bool;   (** at the n-th call, the OS refuses the port *)
  shutdown_late : nat → bool;      (** at the n-th call, connections outlive the deadline *)
  time_now : nat → Z;
}.

Inductive srv_status : Type := SrvNew | SrvServing | SrvShutdown.

Record Net : Type := mkNet {
  listeners : gmap nat Z;             (** open listeners and the port each one holds *)
  httpServers : gmap nat srv_status;
  next_ptr : nat;                     (** the next fresh address *)
  clock : nat;                        (** calls to the outside world so far *)
  env : Env;
}.

Definition tick (n : Net) : Net :=
  mkNet (listeners n) (httpServers n) (next_ptr n) (S (clock n)) (env n).
Definition set_listeners (l : gmap nat Z) (n : Net) : Net :=
  mkNet l (httpServers n) (next_ptr n) (clock n) (env n).
Definition set_httpServers (h : gmap nat srv_status) (n : Net) : Net :=
  mkNet (listeners n) h (next_ptr n) (clock n) (env n).

Definition ErrClosed : error := Sentinel "use of closed network connection".
Definition ErrServerClosed : error := Sentinel "http: Server closed".

Definition port_bound (n : Net) (port : Z) : bool :=
  bool_decide (port ∈ (map_to_list (listeners n)).*2).

(** [net.Listen("tcp", ":port")] *)
Definition net_Listen (port : Z) : M Net (result nat) :=
  n ← get;
  _ ← modify tick;
  if port_bound n port || bind_refused (env n) (clock n) port
  then mret (Err (Errorf "bind: address already in use"))
  else
    _ ← modify (λ n, mkNet (<[next_ptr n := port]> (listeners n)) (httpServers n)
                           (S (next_ptr n)) (clock n) (env n));
    mret (Ok (next_ptr n)).

(** [listener.Close()] *)
Definition Listener_Close (l : nat) : M Net (option error) :=
  n ← get;
  match listeners n !! l with
  | None => mret (Some ErrClosed)
  | Some _ => _ ← modify (λ n, set_listeners (delete l (listeners n)) n); mret None
  end.

(** [&http.Server{...}] *)
Definition new_http_server : M Net nat :=
  n ← get;
  _ ← modify (λ n, mkNet (listeners n) (<[next_ptr n := SrvNew]> (httpServers n))
                         (S (next_ptr n)) (clock n) (env n));
  mret (next_ptr n).

(** The listeners a server has accepted for serving are closed by [Shutdown]
    and [Close]; one that was never passed to [Serve] is not. *)
Definition close_tracked (srv l : nat) : M Net unit :=
  n ← get;
  match httpServers n !! srv with
  | Some SrvServing => _ ← Listener_Close l; mret ()
  | _ => mret ()
  end.

(** [srv.Shutdown(ctx)] with the server's listener [l] *)
Definition Server_Shutdown (srv l : nat) : M Net (option error) :=
  _ ← close_tracked srv l;
  n ← get;
  _ ← modify (λ n, set_httpServers (<[srv := SrvShutdown]> (httpServers n)) (tick n));
  mret (if shutdown_late (env n) (clock n) then Some context_DeadlineExceeded else None).

(** [srv.Close()] *)
Definition Server_Close (srv l : nat) : M Net unit :=
  _ ← close_tracked srv l;
  modify (λ n, set_httpServers (<[srv := SrvShutdown]> (httpServers n)) n).

(** ** The manager *)

Record AgentServerInfo : Type := mkInfo {
  info_ptr : nat;       (** the address of the struct, compared by [info == serverInfo] *)
  AgentID : string;
  Port : Z;
  Server : nat;
  Listener : nat;
  StartedAt : Z;
}.

#[export] Instance AgentServerInfo_eq_dec : EqDecision AgentServerInfo.
Proof. solve_decision. Defined.

Record ASM : Type := mkASM {
  servers : gmap string AgentServerInfo;
  portManager : PortManager;
  net : Net;
  goroutines : gmap nat AgentServerInfo;   (** running [Serve] goroutines, by [info_ptr] *)
}.

Definition set_servers (m : gmap string AgentServerInfo) (w : ASM) : ASM :=
  mkASM m (portManager w) (net w) (goroutines w).
Definition set_portManager (pm : PortManager) (w : ASM) : ASM :=
  mkASM (servers w) pm (net w) (goroutines w).
Definition set_net (n : Net) (w : ASM) : ASM :=
  mkASM (servers w) (portManager w) n (goroutines w).
Definition set_goroutines (g : gmap nat AgentServerInfo) (w : ASM) : ASM :=
  mkASM (servers w) (portManager w) (net w) g.

Definition in_pm {A} : M PortManager A → M ASM A := zoom portManager set_portManager.
Definition in_net {A} : M Net A → M ASM A := zoom net set_net.

Definition maxPortBindRetries : nat := 3.

Definition NewAgentServerManager (pm : PortManager) (n : Net) : ASM := mkASM ∅ pm n ∅.

(** Lines 94-138: the server for a port that was bound. *)
Definition install_server (agentID : string) (port : Z) (listener : nat) : M ASM unit :=
  srv ← in_net new_http_server;
  w ← get;
  let info := mkInfo (next_ptr (net w)) agentID port srv listener
                     (time_now (env (net w)) (clock (net w))) in
  _ ← in_net (modify (λ n, mkNet (listeners n) (httpServers n) (S (next_ptr n)) (S (clock n)) (env n)));
  _ ← modify (λ w, set_servers (<[agentID := info]> (servers w)) w);
  modify (λ w, set_goroutines (<[info_ptr info := info]> (goroutines w)) w).

(** The [for attempt := 1; attempt <= maxPortBindRetries; attempt++] loop and
    what follows it; [n] attempts are left. *)
Fixpoint bind_attempts (n : nat) (lastErr : option error) (agentID : string) : M ASM (result Z) :=
  match n with
  | O =>
      mret (match lastErr with
            | Some e => Err (Wrapf ("failed to start server after " +:+
                          Itoa (Z.of_nat maxPortBindRetries) +:+ " attempts") e)
            | None => Ok 0%Z
            end)
  | S n' =>
      allocated ← in_pm (Allocate agentID);
      match allocated with
      | Err e => mret (Err (Wrapf "failed to allocate port" e))
      | Ok port =>
          bound ← in_net (net_Listen port);
          match bound with
          | Err e =>
              _ ← in_pm (Release port);
              bind_attempts n' (Some (Wrapf ("failed to bind port " +:+ Itoa port) e)) agentID
          | Ok listener =>
              _ ← install_server agentID port listener;
              mret (Ok port)
          end
      end
  end.

Definition StartAgentServer (agentID : string) : M ASM (result Z) :=
  w ← get;
  match servers w !! agentID with
  | Some _ => mret (Err (Errorf ("server already exists for agent: " +:+ agentID)))
  | None => bind_attempts maxPortBindRetries None agentID
  end.

(** Lines 170-191: graceful shutdown, forced close when it is late, and the
    listener's own close. *)
Definition stop_server (info : AgentServerInfo) : M Net unit :=
  late ← Server_Shutdown (Server info) (Listener info);
  _ ← match late with
      | Some _ => Server_Close (Server info) (Listener info)
      | None => mret ()
      end;
  _ ← Listener_Close (Listener info);
  mret ().

Definition StopAgentServer (agentID : string) : M ASM (result unit) :=
  w ← get;
  match servers w !! agentID with
  | None => mret (Err (Errorf ("no server found for agent: " +:+ agentID)))
  | Some info =>
      _ ← modify (λ w, set_servers (delete agentID (servers w)) w);
      _ ← in_net (stop_server info);
      _ ← in_pm (Release (Port info));
      mret (Ok ())
  end.

(** The snapshot [GetAllServers] returns: copies of the entries, in the map's
    iteration order. *)
Definition GetAllServers : M ASM (list AgentServerInfo) :=
  gets (λ w, (map_to_list (servers w)).*2).

(** [Shutdown] collects the agent ids under the lock, then stops each. *)
Definition Shutdown : M ASM (result unit) :=
  w ← get;
  _ ← for_each (keys (servers w)) (λ a, _ ← StopAgentServer a; mret ());
  mret (Ok ()).

(** ** The goroutine [StartAgentServer] starts (lines 111-134) *)

(** [Server.Serve] begins: a server that is already shut down closes the
    listener and returns [ErrServerClosed], and the goroutine ends. *)
Definition serve_begin (ptr : nat) : M ASM unit :=
  w ← get;
  match goroutines w !! ptr with
  | None => mret ()
  | Some info =>
      match httpServers (net w) !! Server info with
      | Some SrvShutdown =>
          _ ← in_net (Listener_Close (Listener info));
          modify (λ w, set_goroutines (delete ptr (goroutines w)) w)
      | _ => in_net (modify (λ n, set_httpServers (<[Server info := SrvServing]> (httpServers n)) n))
      end
  end.

(** [Server.Serve] returns: it closes the listener, and the error is
    [ErrServerClosed] exactly when the server was shut down. *)
Definition serve_end (ptr : nat) : M ASM unit :=
  w ← get;
  match goroutines w !! ptr with
  | None => mret ()
  | Some info =>
      _ ← in_net (Listener_Close (Listener info));
      _ ← modify (λ w, set_goroutines (delete ptr (goroutines w)) w);
      match httpServers (net w) !! Server info with
      | Some SrvShutdown => mret ()
      | _ =>
          _ ← in_net (Listener_Close (Listener info));
          w ← get;
          match servers w !! AgentID info with
          | Some info' =>
              if decide (info_ptr info' = info_ptr info) then
                _ ← modify (λ w, set_servers (delete (AgentID info) (servers w)) w);
                in_pm (Release (Port info))
              else mret ()
          | None => mret ()
          end
      end
  end.

(** ** The invariant *)

Definition live (w : ASM) (i : AgentServerInfo) : Prop :=
  (∃ a, servers w !! a = Some i) ∨ (∃ g, goroutines w !! g = Some i).

Definition alloc (w : ASM) : gmap Z string := allocatedPorts (portManager w).

(** Listed servers, allocated ports and open listeners are in bijection, every
    object has its own address, and a listed server has not been shut down. *)
Record asm_ok (w : ASM) : Prop := {
  ao_pm : pm_ok (portManager w);
  ao_server : ∀ a i, servers w !! a = Some i →
    AgentID i = a ∧ alloc w !! Port i = Some a ∧
    listeners (net w) !! Listener i = Some (Port i) ∧
    httpServers (net w) !! Server i ≠ Some SrvShutdown;
  ao_alloc : ∀ p a, alloc w !! p = Some a → ∃ i, servers w !! a = Some i ∧ Port i = p;
  ao_listen : ∀ l p, listeners (net w) !! l = Some p →
    ∃ a i, servers w !! a = Some i ∧ Listener i = l ∧ Port i = p;
  ao_fresh : ∀ i, live w i →
    info_ptr i < next_ptr (net w) ∧ Server i < next_ptr (net w) ∧ Listener i < next_ptr (net w);
  ao_unique : ∀ i j, live w i → live w j →
    info_ptr i = info_ptr j ∨ Server i = Server j ∨ Listener i = Listener j → i = j;
  ao_goroutine : ∀ g i, goroutines w !! g = Some i → info_ptr i = g;
}.

(** What no operation changes: the outside world and the port range. *)
Definition config (w : ASM) : Env * (Z * Z) := (env (net w), range_of (portManager w)).

(** What the manager promises to its clients: which agent has a server on
    which port. *)
Definition view (w : ASM) : gmap string Z := Port <$> servers w.

Lemma view_lookup w a p :
  view w !! a = Some p ↔ ∃ i, servers w !! a = Some i ∧ Port i = p.
Proof. unfold view. rewrite lookup_fmap_Some. naive_solver. Qed.

Lemma view_insert w a i : Port <$> <[a := i]> (servers w) = <[a := Port i]> (view w).
Proof. apply fmap_insert. Qed.

Lemma view_inj w a b p : asm_ok w → view w !! a = Some p → view w !! b = Some p → a = b.
Proof.
  intros Hok (i & Hi & <-)%view_lookup (j & Hj & Hp)%view_lookup.
  destruct (ao_server _ Hok _ _ Hi) as (_ & H1 & _).
  destruct (ao_server _ Hok _ _ Hj) as (_ & H2 & _).
  rewrite Hp in H2. congruence.
Qed.

Lemma view_range w a p : asm_ok w → view w !! a = Some p → (1 ≤ p ≤ 65535)%Z.
Proof.
  intros Hok (i & Hi & <-)%view_lookup.
  destruct (ao_server _ Hok _ _ Hi) as (_ & H1 & _).
  destruct (pm_bounds _ (ao_pm _ Hok)).
  assert (rangeStart (portManager w) ≤ Port i ≤ rangeEnd (portManager w))%Z; [|lia].
  apply (pm_port_in_range _ (ao_pm _ Hok)). right. by exists a.
Qed.

(** Binding a port of the pool can only fail because of the outside world. *)
Lemma free_port_unbound w p : asm_ok w → p ∈ pool (portManager w) → port_bound (net w) p = false.
Proof.
  intros Hok Hp. apply bool_decide_eq_false_2.
  intros ([l q] & -> & Hl)%list_elem_of_fmap. apply elem_of_map_to_list in Hl. simpl in *.
  destruct (ao_listen _ Hok _ _ Hl) as (a & i & Hi & _ & <-).
  destruct (ao_server _ Hok _ _ Hi) as (_ & Ha & _).
  unfold alloc in Ha. by rewrite (pm_pool_unallocated _ (ao_pm _ Hok) _ Hp) in Ha.
Qed.

Lemma asm_ok_new pm n :
  pm_ok pm → allocatedPorts pm = ∅ → listeners n = ∅ → asm_ok (NewAgentServerManager pm n).
Proof.
  intros Hpm Ha Hl. split; unfold alloc, live; simpl; rewrite ?Ha, ?Hl; try done;
    setoid_rewrite lookup_empty; naive_solver.
Qed.

(** *** The network operations *)

Lemma net_Listen_spec port n :
  wp (net_Listen port) n (λ r n',
    httpServers n' = httpServers n ∧ env n' = env n ∧ clock n' = S (clock n) ∧
    match r with
    | Err _ => listeners n' = listeners n ∧ next_ptr n' = next_ptr n ∧
               (port_bound n port || bind_refused (env n) (clock n) port = true)
    | Ok l => l = next_ptr n ∧ listeners n' = <[l := port]> (listeners n) ∧
              next_ptr n' = S (next_ptr n) ∧ bind_refused (env n) (clock n) port = false
    end).
Proof.
  unfold net_Listen. wp_steps.
  destruct (port_bound n port); simpl; [wp_steps; done|].
  destruct (bind_refused _ _ _); wp_steps; done.
Qed.

Lemma Listener_Close_spec l n :
  wp (Listener_Close l) n (λ _ n', n' = set_listeners (delete l (listeners n)) n).
Proof.
  unfold Listener_Close. wp_steps. destruct (listeners n !! l) eqn:E; wp_steps; [done|].
  rewrite delete_id by done. by destruct n.
Qed.

Lemma close_tracked_spec srv l n :
  wp (close_tracked srv l) n (λ _ n',
    n' = n ∨ n' = set_listeners (delete l (listeners n)) n).
Proof.
  unfold close_tracked. wp_steps.
  destruct (httpServers n !! srv) as [[]|]; wp_steps; auto.
  eapply wp_mono; [apply Listener_Close_spec|]. intros ? ? ->. wp_steps. by right.
Qed.

(** Whatever the deadline does and whether or not [Serve] had begun, after the
    shutdown sequence of [StopAgentServer] the listener is closed. *)
Lemma stop_server_spec info n :
  wp (stop_server info) n (λ _ n',
    listeners n' = delete (Listener info) (listeners n) ∧
    httpServers n' = <[Server info := SrvShutdown]> (httpServers n) ∧
    next_ptr n' = next_ptr n ∧ env n' = env n).
Proof.
  unfold stop_server, Server_Shutdown, Server_Close. wp_steps.
  eapply wp_mono; [apply close_tracked_spec|]. intros [] n1 H1. wp_steps.
  destruct (shutdown_late _ _); wp_steps.
  - eapply wp_mono; [apply close_tracked_spec|]. intros [] n2 H2. wp_steps.
    eapply wp_mono; [apply Listener_Close_spec|]. intros ? n3 ->. wp_steps.
    destruct H1 as [-> | ->], H2 as [-> | ->]; simpl;
      by rewrite ?delete_delete_eq, ?insert_insert_eq.
  - eapply wp_mono; [apply Listener_Close_spec|]. intros ? n3 ->. wp_steps.
    destruct H1 as [-> | ->]; simpl; by rewrite ?delete_delete_eq.
Qed.

(** *** Adding and removing a server *)

Lemma asm_ok_install w w' a i :
  asm_ok w → servers w !! a = None → AgentID i = a → alloc w !! Port i = None →
  pm_ok (portManager w') → alloc w' = <[Port i := a]> (alloc w) →
  servers w' = <[a := i]> (servers w) →
  listeners (net w') = <[Listener i := Port i]> (listeners (net w)) →
  httpServers (net w') = <[Server i := SrvNew]> (httpServers (net w)) →
  goroutines w' = <[info_ptr i := i]> (goroutines w) →
  Listener i = next_ptr (net w) → Server i = S (next_ptr (net w)) →
  info_ptr i = S (S (next_ptr (net w))) → next_ptr (net w') = 3 + next_ptr (net w) →
  asm_ok w'.
Proof.
  intros Hok Ha Hid Hp Hpm Halloc Hs Hl Hh Hg El Es Ei En.
  assert (∀ j, live w' j → j = i ∨ live w j) as Hlive.
  { intros j [[b Hb]|[g Hgj]].
    - rewrite Hs in Hb. apply lookup_insert_Some in Hb. unfold live. naive_solver.
    - rewrite Hg in Hgj. apply lookup_insert_Some in Hgj. unfold live. naive_solver. }
  assert (∀ b j, servers w !! b = Some j → b ≠ a) as Hne by (intros b j Hb ->; congruence).
  split.
  - done.
  - intros b j Hb. rewrite Hs in Hb. apply lookup_insert_Some in Hb as [[<- <-]|[_ Hb]].
    + rewrite Halloc, Hl, Hh, !lookup_insert_eq. done.
    + destruct (ao_server _ Hok _ _ Hb) as (H1 & H2 & H3 & H4).
      assert (live w j) as Hj by (left; eauto). destruct (ao_fresh _ Hok _ Hj) as (?&?&?).
      rewrite Halloc, Hl, Hh, !lookup_insert_ne by (lia || congruence). done.
  - intros p b Hb. rewrite Halloc in Hb. rewrite Hs.
    apply lookup_insert_Some in Hb as [[<- <-]|[_ Hb]].
    + exists i. by rewrite lookup_insert_eq.
    + destruct (ao_alloc _ Hok _ _ Hb) as (j & Hj & Hpj). exists j.
      by rewrite lookup_insert_ne by (symmetry; by eapply Hne).
  - intros l p Hlp. rewrite Hl in Hlp. rewrite Hs.
    apply lookup_insert_Some in Hlp as [[<- <-]|[_ Hlp]].
    + exists a, i. by rewrite lookup_insert_eq.
    + destruct (ao_listen _ Hok _ _ Hlp) as (b & j & Hj & H1 & H2). exists b, j.
      by rewrite lookup_insert_ne by (symmetry; by eapply Hne).
  - intros j [-> | Hj]%Hlive; [lia|]. destruct (ao_fresh _ Hok _ Hj). lia.
  - intros j k [-> | Hj]%Hlive [-> | Hk]%Hlive Heq; [done|..|by apply (ao_unique _ Hok)];
      exfalso; [destruct (ao_fresh _ Hok _ Hk)|destruct (ao_fresh _ Hok _ Hj)]; lia.
  - intros g j Hgj. rewrite Hg in Hgj. apply lookup_insert_Some in Hgj as [[<- <-]|[_ Hgj]];
      [done|by apply (ao_goroutine _ Hok)].
Qed.

Lemma asm_ok_remove w w' a i :
  asm_ok w → servers w !! a = Some i →
  pm_ok (portManager w') → alloc w' = delete (Port i) (alloc w) →
  servers w' = delete a (servers w) →
  listeners (net w') = delete (Listener i) (listeners (net w)) →
  (∀ srv, srv ≠ Server i → httpServers (net w') !! srv = httpServers (net w) !! srv) →
  next_ptr (net w') = next_ptr (net w) → goroutines w' ⊆ goroutines w →
  asm_ok w'.
Proof.
  intros Hok Ha Hpm Halloc Hs Hl Hh En Hg.
  assert (∀ j, live w' j → live w j) as Hlive.
  { intros j [[b Hb]|[g Hgj]]; [left|right].
    - rewrite Hs in Hb. apply lookup_delete_Some in Hb as [_ Hb]. eauto.
    - exists g. by eapply lookup_weaken. }
  assert (live w i) as Hi by (left; eauto).
  destruct (ao_server _ Hok _ _ Ha) as (Hid & Hai & Hli & _).
  split.
  - done.
  - intros b j Hb. rewrite Hs in Hb. apply lookup_delete_Some in Hb as [Hab Hb].
    destruct (ao_server _ Hok _ _ Hb) as (H1 & H2 & H3 & H4).
    assert (live w j) as Hj by (left; eauto).
    assert (j ≠ i) by (intros ->; congruence).
    rewrite Halloc, Hl, Hh, !lookup_delete_ne; [done|..].
    + intros E. destruct (ao_unique _ Hok j i Hj Hi); [|done]. auto.
    + congruence.
    + intros E. destruct (ao_unique _ Hok j i Hj Hi); [|done]. auto.
  - intros p b Hb. rewrite Halloc in Hb. apply lookup_delete_Some in Hb as [Hpi Hb].
    destruct (ao_alloc _ Hok _ _ Hb) as (j & Hj & Hpj). exists j. rewrite Hs.
    rewrite lookup_delete_ne; [done|]. congruence.
  - intros l p Hlp. rewrite Hl in Hlp. apply lookup_delete_Some in Hlp as [Hli' Hlp].
    destruct (ao_listen _ Hok _ _ Hlp) as (b & j & Hj & H1 & H2). exists b, j.
    rewrite Hs, lookup_delete_ne; [done|]. congruence.
  - intros j Hj%Hlive. rewrite En. by apply (ao_fresh _ Hok).
  - intros j k Hj%Hlive Hk%Hlive. by apply (ao_unique _ Hok).
  - intros g j Hgj. eapply (ao_goroutine _ Hok). by eapply lookup_weaken.
Qed.

(** Changes that concern no listed server, allocated port or open listener. *)
Lemma asm_ok_frame w w' :
  asm_ok w → pm_ok (portManager w') → alloc w' = alloc w → servers w' = servers w →
  listeners (net w') = listeners (net w) →
  (∀ a i, servers w !! a = Some i → httpServers (net w') !! Server i ≠ Some SrvShutdown) →
  next_ptr (net w') = next_ptr (net w) → goroutines w' ⊆ goroutines w →
  asm_ok w'.
Proof.
  intros Hok Hpm Halloc Hs Hl Hh En Hg.
  assert (∀ j, live w' j → live w j) as Hlive.
  { intros j [[b Hb]|[g Hgj]]; [left|right].
    - rewrite Hs in Hb. eauto.
    - exists g. by eapply lookup_weaken. }
  split; rewrite ?Halloc, ?Hs, ?Hl, ?En; try apply Hok; try done.
  - intros b j Hb. destruct (ao_server _ Hok _ _ Hb) as (?&?&?&_). eauto.
  - intros j Hj%Hlive. by apply (ao_fresh _ Hok).
  - intros j k Hj%Hlive Hk%Hlive. by apply (ao_unique _ Hok).
  - intros g j Hgj. eapply (ao_goroutine _ Hok). by eapply lookup_weaken.
Qed.

(** ** StartAgentServer *)

(** Reference for the retry loop: take the head of the pool, and if it cannot
    be bound put it at the end and try again, [n] times at most; [k] counts the
    calls to the outside world, and is in the outcome. *)
Inductive bind_outcome : Type :=
  | Bound (port : Z) (free : list Z) (call : nat)
  | Refused (free : list Z) (call : nat)
  | Exhausted.

Fixpoint bind_ref (n k : nat) (refused : nat → Z → bool) (free : list Z) : bind_outcome :=
  match n, free with
  | O, _ => Refused free k
  | S _, [] => Exhausted
  | S n', p :: rest =>
      if refused k p then bind_ref n' (S k) refused (rest ++ [p]) else Bound p rest k
  end.

Lemma bind_ref_Exhausted n k refused free : bind_ref n k refused free = Exhausted → free = [].
Proof.
  revert k free. induction n as [|n IH]; intros k [|p rest] H; simpl in H; try done.
  destruct (refused k p); [|done]. apply IH in H. by destruct rest.
Qed.

(** The states the reference leaves: with the pool as given... *)
Definition set_pool (free : list Z) (al : gmap Z string) (pm : PortManager) : PortManager :=
  mkPM (mkChan free (ch_cap (availablePorts pm)) (ch_closed (availablePorts pm))) al (rangeStart pm) (rangeEnd pm).

(** ...after refusals alone: nothing else moved, but for the outside world's calls... *)
Definition after_refusals (free : list Z) (call : nat) (w : ASM) : ASM :=
  let n := net w in
  mkASM (servers w) (set_pool free (alloc w) (portManager w))
    (mkNet (listeners n) (httpServers n) (next_ptr n) call (env n)) (goroutines w).

(** ...and after the bind of call [call] on [p]: the port is the agent's, a new
    listener holds it, and a new server, not serving yet, has its [Serve] goroutine
    running with the very info the manager lists. *)
Definition started_info (a : string) (p : Z) (call : nat) (w : ASM) : AgentServerInfo :=
  let l := next_ptr (net w) in
  mkInfo (S (S l)) a p (S l) l (time_now (env (net w)) (S call)).

Definition after_start (a : string) (p : Z) (free : list Z) (call : nat) (w : ASM) : ASM :=
  let n := net w in
  let i := started_info a p call w in
  mkASM (<[a := i]> (servers w)) (set_pool free (<[p := a]> (alloc w)) (portManager w))
    (mkNet (<[Listener i := p]> (listeners n)) (<[Server i := SrvNew]> (httpServers n))
       (S (info_ptr i)) (S (S call)) (env n))
    (<[info_ptr i := i]> (goroutines w)).

(** The fields of a consistent port manager that determine the rest. *)
Lemma set_pool_eq pm pm' :
  pm_ok pm → pm_ok pm' → range_of pm' = range_of pm → pm' = set_pool (pool pm') (allocatedPorts pm') pm.
Proof.
  intros [_ H1 H2 _] [_ H1' H2' _] Hr. unfold set_pool, pool, range_of in *. injection Hr as Hs He.
  rewrite Hs, He, <- H2 in H2'. destruct pm as [[b c cl] al s e], pm' as [[b' c' cl'] al' s' e']. simpl in *.
  by subst.
Qed.

Definition start_post (n : nat) (a : string) (w : ASM) (r : result Z) (w' : ASM) : Prop :=
  asm_ok w' ∧ config w' = config w ∧
  match bind_ref n (clock (net w)) (bind_refused (env (net w))) (pool (portManager w)) with
  | Bound p free call => r = Ok p ∧ w' = after_start a p free call w
  | Refused free call =>
      (∃ e, r = Err (Wrapf "failed to start server after 3 attempts" e)) ∧ w' = after_refusals free call w
  | Exhausted => r = Err (Wrapf "failed to allocate port" (err_exhausted (portManager w))) ∧ w' = w
  end.

Lemma after_refusals_self w : w = after_refusals (pool (portManager w)) (clock (net w)) w.
Proof. by destruct w as [? [[] ? ? ?] [] ?]. Qed.

Lemma bind_attempts_spec n le a w :
  asm_ok w → servers w !! a = None → n ≠ 0 ∨ is_Some le →
  wp (bind_attempts n le a) w (start_post n a w).
Proof.
  revert le w. induction n as [|n IH]; intros le w Hok Ha Hn; simpl.
  { destruct Hn as [|[e ->]]; [done|]. wp_steps.
    split; [done|]. split; [done|]. cbn [bind_ref]. split; [by eexists|apply after_refusals_self]. }
  unfold in_pm, in_net. wp_steps. eapply wp_mono; [by apply Allocate_spec, Hok|].
  intros [p|e] pm1; simpl.
  2:{ intros (Hpm & Hpool & -> & ->). wp_steps. unfold start_post. rewrite Hpool. simpl.
      destruct w. eauto 7. }
  intros (Hpm & Hpool & Hun & Halloc & _ & Hr1). wp_steps.
  assert (p ∈ pool (portManager w)) as Hin by (rewrite Hpool; left).
  pose proof (free_port_unbound _ _ Hok Hin) as Hub.
  eapply wp_mono; [apply net_Listen_spec|]. cbn [net set_portManager].
  intros [l|e] n1 (Eh & Ee & Ec & Hl).
  - destruct Hl as (-> & El & En & Er). unfold install_server, new_http_server, in_net. wp_steps. simpl.
    unfold start_post, config. simpl. rewrite Hpool, Ee, Hr1. cbn [bind_ref]. rewrite Er.
    split; [|split; [done|]].
    + eapply (asm_ok_install w _ a (mkInfo _ a p _ _ _)); [exact Hok|exact Ha|..]; simpl; rewrite ?El, ?Eh, ?En; try done.
    + split; [done|]. rewrite (set_pool_eq (portManager w) pm1) by (done || apply Hok). rewrite Halloc.
      unfold after_start, started_info, alloc. simpl. by rewrite El, Eh, En, Ec.
  - destruct Hl as (El & En & Er). rewrite Hub in Er. simpl in Er. wp_steps.
    eapply wp_mono; [by apply Release_spec|].
    intros [] pm2 (Hpm2 & Hr2 & Halloc2 & Hpool2). simpl in *.
    rewrite Halloc, lookup_insert_eq in Hpool2.
    rewrite Halloc, delete_insert_id in Halloc2 by done.
    rewrite Hr1 in Hr2.
    assert (∀ w1, w1 = mkASM (servers w) pm2 n1 (goroutines w) →
      w1 = after_refusals (pool pm1 ++ [p]) (S (clock (net w))) w) as Ew.
    { intros w1 ->. unfold after_refusals, alloc.
      rewrite (set_pool_eq (portManager w) pm2), Halloc2, Hpool2 by (done || apply Hok).
      rewrite <- El, <- Eh, <- En, <- Ec, <- Ee. by destruct n1. }
    eapply wp_mono; [apply IH; simpl; [|done|by right; eexists]|].
    + eapply asm_ok_frame; [exact Hok|..]; simpl; rewrite ?Halloc2, ?El, ?Eh, ?En; try done.
      intros b i Hb. by destruct (ao_server _ Hok _ _ Hb) as (_&_&_&?).
    + intros r w' H. match type of H with start_post _ _ ?x _ _ => rewrite (Ew x eq_refl) in H end.
      destruct H as (Hok' & Hcfg & Hres). split; [done|]. split; [done|].
      rewrite Hpool. cbn [bind_ref]. rewrite Er. cbn [after_refusals net clock env portManager pool set_pool
        availablePorts ch_buf] in Hres.
      destruct (bind_ref n _ _ _) as [q f c|f c|] eqn:Eb; [done..|].
      apply bind_ref_Exhausted in Eb. by destruct (pool pm1).
Qed.

Lemma StartAgentServer_spec a w :
  asm_ok w →
  wp (StartAgentServer a) w (λ r w',
    match servers w !! a with
    | Some _ => r = Err (Errorf ("server already exists for agent: " +:+ a)) ∧ w' = w
    | None => start_post maxPortBindRetries a w r w'
    end).
Proof.
  intros Hok. unfold StartAgentServer. wp_steps.
  destruct (servers w !! a) eqn:E; wp_steps; [done|].
  apply bind_attempts_spec; auto.
Qed.

(** ** StopAgentServer and Shutdown *)

Lemma StopAgentServer_spec a w :
  asm_ok w →
  wp (StopAgentServer a) w (λ r w', asm_ok w' ∧ config w' = config w ∧
    servers w' = delete a (servers w) ∧
    match servers w !! a with
    | Some i => r = Ok () ∧ listeners (net w') !! Listener i = None ∧
                pool (portManager w') = pool (portManager w) ++ [Port i]
    | None => (∃ e, r = Err e) ∧ w' = w
    end).
Proof.
  intros Hok. unfold StopAgentServer, in_net, in_pm. wp_steps.
  destruct (servers w !! a) as [i|] eqn:Ei; wp_steps; simpl.
  - eapply wp_mono; [apply stop_server_spec|]. intros [] n (El & Eh & En & Ee). wp_steps. simpl.
    eapply wp_mono; [by apply Release_spec, Hok|].
    intros [] pm' (Hpm & Hr & Halloc & Hpool). wp_steps. simpl.
    destruct (ao_server _ Hok _ _ Ei) as (_ & Hai & _ & _). unfold alloc in Hai.
    rewrite Hai in Hpool. unfold config. simpl. rewrite Ee, Hr. split; [|split_and!; try done].
    + eapply asm_ok_remove; [exact Hok|exact Ei|..]; simpl; try done.
      intros srv Hne. rewrite Eh. by rewrite lookup_insert_ne.
    + rewrite El. apply lookup_delete_eq.
  - split_and!; try done; [by rewrite delete_id|eauto].
Qed.

(** Stopping every agent of a list, in the list's order. *)
Lemma stop_all_spec l w :
  asm_ok w →
  wp (for_each l (λ a, _ ← StopAgentServer a; mret ())) w (λ _ w', asm_ok w' ∧ config w' = config w ∧
    ∀ a, servers w' !! a = if decide (a ∈ l) then None else servers w !! a).
Proof.
  intros Hok. revert w Hok. induction l as [|b l IH]; intros w Hok; cbn [for_each].
  - wp_steps. split; [done|]. split; [done|]. intros a. case_decide; set_solver.
  - wp_steps. eapply wp_mono; [by apply StopAgentServer_spec|].
    intros r w1 (Hok1 & Hc & Hs & _). wp_steps. eapply wp_mono; [by apply IH|].
    intros [] w' (Hok' & Hc' & Hs'). split; [done|]. split; [congruence|]. intros a. rewrite Hs', Hs.
    destruct (decide (a = b)) as [->|Hne].
    + rewrite lookup_delete_eq. repeat case_decide; set_solver.
    + rewrite lookup_delete_ne by done. repeat case_decide; set_solver.
Qed.

Lemma Shutdown_spec w :
  asm_ok w →
  wp Shutdown w (λ r w', asm_ok w' ∧ config w' = config w ∧ r = Ok () ∧ servers w' = ∅).
Proof.
  intros Hok. unfold Shutdown. wp_steps. eapply wp_mono; [by apply stop_all_spec|].
  intros [] w' (Hok' & Hc & Hs). wp_steps. split_and!; try done.
  apply map_eq. intros a. rewrite Hs, lookup_empty. case_decide as Hin; [done|].
  rewrite elem_of_keys in Hin. by apply eq_None_not_Some.
Qed.

(** ** The Serve goroutine *)

(** A listener that no listed server owns is closed already. *)
Lemma unlisted_listener_closed w i :
  asm_ok w → live w i → (∀ a, servers w !! a ≠ Some i) → listeners (net w) !! Listener i = None.
Proof.
  intros Hok Hi Hn. apply eq_None_not_Some. intros [p Hp].
  destruct (ao_listen _ Hok _ _ Hp) as (a & j & Hj & Hl & _).
  apply (Hn a). rewrite Hj. f_equal. apply (ao_unique _ Hok); [left; eauto|done|auto].
Qed.

(** The server of a goroutine is shut down only after it has left the map. *)
Lemma shutdown_unlisted w i a :
  asm_ok w → httpServers (net w) !! Server i = Some SrvShutdown → servers w !! a ≠ Some i.
Proof. intros Hok Hs Ha. by destruct (ao_server _ Hok _ _ Ha) as (_&_&_&?). Qed.

Lemma asm_ok_drop_goroutine w g n :
  asm_ok w → listeners n = listeners (net w) → httpServers n = httpServers (net w) →
  next_ptr n = next_ptr (net w) →
  asm_ok (set_goroutines (delete g (goroutines w)) (set_net n w)).
Proof.
  intros Hok El Eh En. eapply asm_ok_frame; [exact Hok|..]; simpl; try done.
  - apply Hok.
  - intros a i Hi. rewrite Eh. by destruct (ao_server _ Hok _ _ Hi) as (_&_&_&?).
  - apply delete_subseteq.
Qed.

Lemma serve_begin_spec ptr w :
  asm_ok w → wp (serve_begin ptr) w (λ _ w',
    asm_ok w' ∧ config w' = config w ∧ servers w' = servers w).
Proof.
  intros Hok. unfold serve_begin, in_net. wp_steps.
  destruct (goroutines w !! ptr) as [i|] eqn:Ei; [|by wp_steps].
  assert (live w i) as Hi by (right; eauto).
  assert (∀ st, st ≠ SrvShutdown → asm_ok (set_net (set_httpServers
    (<[Server i := st]> (httpServers (net w))) (net w)) w)) as Hserve.
  { intros st Hst. eapply asm_ok_frame; [exact Hok|..]; simpl; try done; [apply Hok|].
    intros a j Hj. rewrite lookup_insert. case_decide; [congruence|].
    by destruct (ao_server _ Hok _ _ Hj) as (_&_&_&?). }
  destruct (httpServers (net w) !! Server i) as [[]|] eqn:Es; wp_steps; try (split; [by apply Hserve|done]).
  eapply wp_mono; [apply Listener_Close_spec|]. intros r n ->. wp_steps.
  split; [|done]. apply (asm_ok_drop_goroutine w); try done. simpl.
  rewrite delete_id; [done|]. apply unlisted_listener_closed; try done.
  intros a. by apply shutdown_unlisted.
Qed.

Lemma serve_end_spec ptr w :
  asm_ok w → wp (serve_end ptr) w (λ _ w', asm_ok w' ∧ config w' = config w ∧
    (servers w' = servers w ∨
     ∃ a i, servers w !! a = Some i ∧ info_ptr i = ptr ∧ servers w' = delete a (servers w))).
Proof.
  intros Hok. unfold serve_end, in_net, in_pm. wp_steps.
  destruct (goroutines w !! ptr) as [i|] eqn:Ei; [|wp_steps; auto].
  assert (live w i) as Hi by (right; eauto).
  pose proof (ao_goroutine _ Hok _ _ Ei) as Hptr.
  assert ((∀ a, servers w !! a ≠ Some i) → ∀ n, n = set_listeners (delete (Listener i) (listeners (net w))) (net w) →
    asm_ok (set_goroutines (delete ptr (goroutines w)) (set_net n w))) as Hdrop.
  { intros Hn n ->. apply (asm_ok_drop_goroutine w); try done. simpl.
    rewrite delete_id; [done|]. by apply unlisted_listener_closed. }
  wp_steps. eapply wp_mono; [apply Listener_Close_spec|]. intros r n ->. wp_steps.
  assert (∀ j, servers w !! AgentID i = Some j → info_ptr j ≠ info_ptr i →
    ∀ a, servers w !! a ≠ Some i) as Hother.
  { intros j Hj Hne a Ha. destruct (ao_server _ Hok _ _ Ha) as (E & _). rewrite E in Hj. congruence. }
  destruct (httpServers (net w) !! Server i) as [[]|] eqn:Es; wp_steps.
  3:{ split_and!; [|done|by left]. apply Hdrop; [|done]. intros a. by apply shutdown_unlisted. }
  all: eapply wp_mono; [apply Listener_Close_spec|]; intros r' n ->; wp_steps; simpl;
    rewrite delete_delete_eq;
    destruct (servers w !! AgentID i) as [j|] eqn:Ej; [destruct (decide _) as [Hpe|Hpe]|]; wp_steps.
  all: try (split_and!; [apply Hdrop; [by eapply Hother|done]|done|by left]).
  all: try (split_and!; [apply Hdrop; [|done]; intros a Ha;
         destruct (ao_server _ Hok _ _ Ha) as (E & _); congruence|done|by left]).
  all: assert (j = i) as -> by (apply (ao_unique _ Hok); [left; eauto|done|auto]);
    eapply wp_mono; [by apply Release_spec, Hok|]; intros [] pm' (Hpm & Hr & Halloc & _);
    simpl; (split_and!; [|unfold config; simpl; by rewrite Hr|right; by exists (AgentID i), i]);
    eapply asm_ok_remove; [exact Hok|exact Ej|..]; simpl; try done; apply delete_subseteq.
Qed.

(** ** The instance of the interface *)

#[export] Instance asm_ops : AgentServerOps ASM := {|
  asm_start := StartAgentServer;
  asm_stop := StopAgentServer;
  asm_shutdown := Shutdown;
|}.

Lemma bind_ref_Bound n k refused free p rest call :
  bind_ref n k refused free = Bound p rest call → p ∈ free.
Proof.
  revert k free. induction n as [|n IH]; intros k [|q free] H; simpl in H; try done.
  destruct (refused k q).
  - apply IH in H. rewrite elem_of_app, list_elem_of_singleton in H. rewrite elem_of_cons. tauto.
  - injection H as -> _ _. left.
Qed.

Lemma start_view a w :
  asm_ok w → wp (StartAgentServer a) w (λ r w', asm_ok w' ∧ config w' = config w ∧
    match r with
    | Ok p => view w !! a = None ∧ (∀ b, view w !! b ≠ Some p) ∧ view w' = <[a := p]> (view w)
    | Err _ => view w' = view w
    end).
Proof.
  intros Hok. eapply wp_mono; [by apply StartAgentServer_spec|]. intros r w' H.
  destruct (servers w !! a) eqn:Ea; [by destruct H as [-> ->]|].
  destruct H as (Hok' & Hc & H). split; [done|]. split; [done|].
  destruct (bind_ref _ _ _ _) as [p rest call| |] eqn:Eb.
  - destruct H as (-> & ->). split_and!.
    + unfold view. by rewrite lookup_fmap, Ea.
    + intros b (j & Hj & Hp)%view_lookup. destruct (ao_server _ Hok _ _ Hj) as (_ & Hal & _).
      apply bind_ref_Bound in Eb. rewrite Hp in Hal. unfold alloc in Hal.
      by rewrite (pm_pool_unallocated _ (ao_pm _ Hok) _ Eb) in Hal.
    + apply view_insert.
  - by destruct H as ((e & ->) & ->).
  - by destruct H as (-> & ->).
Qed.

#[export] Instance asm_spec : AgentServerSpec ASM.
Proof.
  refine {| asm_inv := asm_ok; asm_view := view |}.
  - intros s a b p. apply view_inj.
  - intros s a p. apply view_range.
  - intros a s Hok. eapply wp_mono; [by apply start_view|]. by intros r s' (? & _ & ?).
  - intros a s Hok. eapply wp_mono; [by apply StopAgentServer_spec|].
    intros r s' (Hok' & _ & Hs & _). split; [done|]. unfold view. by rewrite Hs, fmap_delete.
  - intros s Hok. eapply wp_mono; [by apply Shutdown_spec|].
    intros r s' (Hok' & _ & _ & Hs). split; [done|]. unfold view. by rewrite Hs, fmap_empty.
Defined.

(** ** Properties *)

(** What can happen to the manager: calls of its operations, and the [Serve]
    goroutine of a server beginning or ending (with an error or not). *)
Inductive asm_event : Type :=
  | EvStart (agentID : string)
  | EvStop (agentID : string)
  | EvShutdown
  | EvServeBegin (ptr : nat)
  | EvServeEnd (ptr : nat).

Definition run_event (e : asm_event) : M ASM unit :=
  match e with
  | EvStart a => _ ← StartAgentServer a; mret ()
  | EvStop a => _ ← StopAgentServer a; mret ()
  | EvShutdown => _ ← Shutdown; mret ()
  | EvServeBegin ptr => serve_begin ptr
  | EvServeEnd ptr => serve_end ptr
  end.

Lemma run_event_ok e w :
  asm_ok w → wp (run_event e) w (λ _ w', asm_ok w' ∧ config w' = config w).
Proof.
  intros Hok. destruct e; simpl; wp_steps.
  - eapply wp_mono; [by apply start_view|]. intros r w' (? & ? & _). by wp_steps.
  - eapply wp_mono; [by apply StopAgentServer_spec|]. intros r w' (? & ? & _). by wp_steps.
  - eapply wp_mono; [by apply Shutdown_spec|]. intros r w' (? & ? & _). by wp_steps.
  - eapply wp_mono; [by apply serve_begin_spec|]. by_parts.
  - eapply wp_mono; [by apply serve_end_spec|]. by_parts.
Qed.

Lemma run_events_ok evs w :
  asm_ok w → wp (for_each evs run_event) w (λ _ w', asm_ok w' ∧ config w' = config w).
Proof.
  intros Hok. apply (wp_for_each evs run_event w (λ _ w', asm_ok w' ∧ config w' = config w)); [done|].
  intros e l w' (Hok' & <-). by apply run_event_ok.
Qed.

(** From a fresh manager, whatever servers are started, stopped, shut down
    or fail in their [Serve] goroutine, and whatever the operating system
    answers, no call blocks or panics, and running servers, allocated ports and
    open listeners correspond one to one: every listed server listens on the
    port of the configured range recorded for its agent, every allocated port
    belongs to a listed server, and no listener outlives its server. *)
Theorem agent_servers_consistent start end_ pm0 n0 (evs : list asm_event) :
  NewPortManager start end_ = Ret (Ok pm0) () → listeners n0 = ∅ →
  wp (for_each evs run_event) (NewAgentServerManager pm0 n0) (λ _ w,
    (∀ a i, servers w !! a = Some i →
       AgentID i = a ∧ (start ≤ Port i ≤ end_)%Z ∧
       alloc w !! Port i = Some a ∧ listeners (net w) !! Listener i = Some (Port i)) ∧
    (∀ p a, alloc w !! p = Some a → ∃ i, servers w !! a = Some i ∧ Port i = p) ∧
    (∀ l p, listeners (net w) !! l = Some p →
       ∃ a i, servers w !! a = Some i ∧ Listener i = l ∧ Port i = p) ∧
    (∀ a b i j, servers w !! a = Some i → servers w !! b = Some j → Port i = Port j → a = b)).
Proof.
  intros Hnew Hn. pose proof (NewPortManager_Ok_inv _ _ _ Hnew) as (Hv & Hpm & Hs & He).
  assert (asm_ok (NewAgentServerManager pm0 n0)) as Hok0.
  { apply asm_ok_new; [done| |done]. rewrite (NewPortManager_eq _ _ Hv) in Hnew. by injection Hnew as <-. }
  eapply wp_mono; [by apply run_events_ok|]. intros [] w (Hok & Hc). injection Hc as _ Hrs Hre.
  split_and!; [|apply Hok|apply Hok|].
  - intros a i Hi. destruct (ao_server _ Hok _ _ Hi) as (H1 & H2 & H3 & _).
    split; [done|]. split; [|done].
    rewrite <- Hs, <- He, <- Hrs, <- Hre. apply (pm_port_in_range _ (ao_pm _ Hok)).
    right. by exists a.
  - intros a b i j Hi Hj Hp. apply (view_inj w a b (Port i) Hok); apply view_lookup; eauto.
Qed.

(** C22: [StartAgentServer] on a consistent manager returns without blocking and keeps
    it consistent; it refuses an agent that already has a server and changes nothing,
    and an empty pool likewise; otherwise it binds as the reference [bind_ref] does,
    three times at most, each time the head of the pool, each refused port going back
    to the end of the pool (so with fewer than three free ports a refused port is
    tried again: [start_retries_single_port]).  After three refusals only the
    order of the pool has changed.  After a bind the state is [after_start]: the
    port allocated to the agent and held by a new listener, a new server and the
    info of both listed for the agent, and one new [Serve] goroutine, with that info;
    all the rest is as it was. *)
Theorem StartAgentServer_correct a w :
  asm_ok w →
  wp (StartAgentServer a) w (λ r w', asm_ok w' ∧
    match servers w !! a with
    | Some _ => r = Err (Errorf ("server already exists for agent: " +:+ a)) ∧ w' = w
    | None =>
        match bind_ref 3 (clock (net w)) (bind_refused (env (net w))) (pool (portManager w)) with
        | Bound p free call => r = Ok p ∧ w' = after_start a p free call w
        | Refused free call =>
            (∃ e, r = Err (Wrapf "failed to start server after 3 attempts" e)) ∧
            w' = after_refusals free call w
        | Exhausted =>
            r = Err (Wrapf "failed to allocate port" (err_exhausted (portManager w))) ∧ w' = w
        end
    end).
Proof.
  intros Hok. eapply wp_mono; [by apply StartAgentServer_spec|]. intros r w' H.
  destruct (servers w !! a) eqn:Ea; [by destruct H as [-> ->]|]. by destruct H as (Hok' & _ & H).
Qed.

(** With three or more free ports the (at most three) attempts of
    [StartAgentServer] are on three different ports, the three that have been
    free the longest, and it fails only if all three are refused. *)
Theorem start_tries_three_ports a w p0 p1 p2 rest :
  asm_ok w → servers w !! a = None → pool (portManager w) = p0 :: p1 :: p2 :: rest →
  NoDup [p0; p1; p2] ∧
  wp (StartAgentServer a) w (λ r _,
    let refused k p := bind_refused (env (net w)) (k + clock (net w)) p in
    if refused 0 p0 then
      if refused 1 p1 then
        if refused 2 p2 then ∃ e, r = Err e else r = Ok p2
      else r = Ok p1
    else r = Ok p0).
Proof.
  intros Hok Ha Hpool. split.
  - pose proof (pm_pool_NoDup _ (ao_pm _ Hok)) as Hnd. rewrite Hpool in Hnd.
    apply (NoDup_app [p0; p1; p2] rest) in Hnd. tauto.
  - eapply wp_mono; [by apply StartAgentServer_spec|]. intros r w'. rewrite Ha.
    intros (_ & _ & H). rewrite Hpool in H. simpl in *.
    repeat case_match; naive_solver.
Qed.

(** With a single free port all three attempts are on that same port: one
    refused bind is not followed by an attempt on a different port. *)
Theorem start_retries_single_port a w p :
  asm_ok w → servers w !! a = None → pool (portManager w) = [p] →
  wp (StartAgentServer a) w (λ r _,
    if forallb (λ k, bind_refused (env (net w)) (k + clock (net w)) p) [0; 1; 2]
    then ∃ e, r = Err e else r = Ok p).
Proof.
  intros Hok Ha Hpool. eapply wp_mono; [by apply StartAgentServer_spec|]. intros r w'. rewrite Ha.
  intros (_ & _ & H). rewrite Hpool in H. simpl in *.
  repeat case_match; naive_solver.
Qed.

(** [StopAgentServer] always completes, whether the graceful shutdown meets
    its deadline or not and whether or not [Serve] had begun: the agent's
    listener is closed, its port is back at the end of the pool, its entry is
    gone, and every other server is untouched; an unknown agent is an error
    that changes nothing. *)
Theorem StopAgentServer_correct a w :
  asm_ok w →
  wp (StopAgentServer a) w (λ r w', asm_ok w' ∧ view w' = delete a (view w) ∧
    match servers w !! a with
    | Some i => r = Ok () ∧ listeners (net w') !! Listener i = None ∧
                pool (portManager w') = pool (portManager w) ++ [Port i]
    | None => (∃ e, r = Err e) ∧ w' = w
    end).
Proof.
  intros Hok. eapply wp_mono; [by apply StopAgentServer_spec|].
  intros r w' (Hok' & _ & Hs & H). split_and!; try done.
  unfold view. by rewrite Hs, fmap_delete.
Qed.

(** A concrete manager with four ports, in a world that refuses port 8100 and
    whose graceful shutdowns are always late. *)
Module Demo.
Definition env0 : Env := mkEnv (λ _ p, (p =? 8100)%Z) (λ _, true) (λ _, 0%Z).
Definition pm0 : PortManager := mkPM (mkChan [8100; 8101; 8102; 8103]%Z 4 false) ∅ 8100 8103.
Definition w0 : ASM := NewAgentServerManager pm0 (mkNet ∅ ∅ 0 0 env0).
Definition pm1 : PortManager := mkPM (mkChan [8100%Z] 1 false) ∅ 8100 8100.
Definition w1 : ASM := NewAgentServerManager pm1 (mkNet ∅ ∅ 0 0 env0).

Lemma pm0_new : NewPortManager 8100 8103 = Ret (Ok pm0) ().
Proof. vm_compute. reflexivity. Qed.

Lemma pm1_new : NewPortManager 8100 8100 = Ret (Ok pm1) ().
Proof. vm_compute. reflexivity. Qed.

Lemma w0_ok : asm_ok w0.
Proof. apply asm_ok_new; [|done..]. by destruct (NewPortManager_Ok_inv _ _ _ pm0_new) as (_ & ? & _). Qed.

Lemma w1_ok : asm_ok w1.
Proof. apply asm_ok_new; [|done..]. by destruct (NewPortManager_Ok_inv _ _ _ pm1_new) as (_ & ? & _). Qed.
End Demo.

Lemma agent_servers_consistent_witness :
  wp (for_each [EvStart "a"; EvStart "b"; EvServeBegin 2; EvServeEnd 2; EvStop "b"; EvStart "a"] run_event)
     Demo.w0 (λ _ w, ∀ p a, alloc w !! p = Some a → ∃ i, servers w !! a = Some i ∧ Port i = p).
Proof.
  eapply wp_mono; [apply (agent_servers_consistent 8100 8103 Demo.pm0 (mkNet ∅ ∅ 0 0 Demo.env0))|].
  - exact Demo.pm0_new.
  - reflexivity.
  - intros _ w (_ & H & _). exact H.
Defined.

Lemma StartAgentServer_correct_witness :
  wp (StartAgentServer "a") Demo.w0 (λ r w',
    r = Ok 8101%Z ∧ pool (portManager w') = [8102; 8103; 8100]%Z ∧
    goroutines w' = {[2 := mkInfo 2 "a" 8101 1 0 0]} ∧ listeners (net w') = {[0 := 8101%Z]}).
Proof.
  eapply wp_mono; [apply (StartAgentServer_correct "a" Demo.w0 Demo.w0_ok)|].
  intros r w' [_ H]. destruct H as [H1 H2]. split; [exact H1|]. rewrite H2. split_and!; reflexivity.
Defined.

Lemma start_tries_three_ports_witness :
  NoDup [8100; 8101; 8102]%Z ∧ wp (StartAgentServer "a") Demo.w0 (λ r _, r = Ok 8101%Z).
Proof.
  apply (start_tries_three_ports "a" Demo.w0 8100 8101 8102 [8103%Z]).
  - exact Demo.w0_ok.
  - reflexivity.
  - reflexivity.
Defined.

Lemma start_retries_single_port_witness :
  wp (StartAgentServer "a") Demo.w1 (λ r _, ∃ e, r = Err e).
Proof.
  apply (start_retries_single_port "a" Demo.w1 8100).
  - exact Demo.w1_ok.
  - reflexivity.
  - reflexivity.
Defined.

Lemma StopAgentServer_correct_witness :
  wp (StartAgentServer "a") Demo.w0 (λ _ w, wp (StopAgentServer "a") w (λ r w',
    view w' = delete "a" (view w))).
Proof.
  eapply wp_mono; [apply (start_view "a" Demo.w0 Demo.w0_ok)|].
  intros r w (Hok & _). eapply wp_mono; [apply (StopAgentServer_correct "a" w Hok)|].
  intros r' w' (_ & H & _). exact H.
Defined.
