(* ===== verification/AgentServerConcurrency.v ===== *)
(** * Starting and stopping agent servers concurrently

    [StartAgentServer] holds [asm.mu] to its end, but [StopAgentServer] gives it
    back before the shutdown, which may take seconds, and the goroutine of a server
    that failed takes it only for its clean-up.  Here the operations of
    AgentServerManager.v are split at the points where other goroutines can come
    in, for any number of goroutines stopping servers. *)
From stdpp Require Import base strings list gmap fin_maps relations.
From Stdlib Require Import ZArith Lia.
From S2P Require Import Prelude GoStd PortManager ServerInterface AgentServerManager.

(** ** The steps *)

(** Where a goroutine is inside [StopAgentServer], after the locked part. *)
Inductive stopping : Type :=
  | StShutdown (info : AgentServerInfo)
  | StForce (info : AgentServerInfo) (late : bool)   (** [late]: [Shutdown] returned an error *)
  | StListener (info : AgentServerInfo)
  | StRelease (info : AgentServerInfo).

Definition stop_info (st : stopping) : AgentServerInfo :=
  match st with StShutdown i | StForce i _ | StListener i | StRelease i => i end.

(** Where the goroutine that holds [asm.mu] is inside [StartAgentServer]; [n]
    attempts are left. *)
Inductive starting : Type :=
  | SaAllocate (n : nat) (agentID : string)
  | SaListen (n : nat) (agentID : string) (port : Z)
  | SaRelease (n : nat) (agentID : string) (port : Z)
  | SaInstall (agentID : string) (port : Z) (listener : nat).

Definition start_agent (m : starting) : string :=
  match m with SaAllocate _ a | SaListen _ a _ | SaRelease _ a _ | SaInstall a _ _ => a end.
Definition start_port (m : starting) : option Z :=
  match m with SaAllocate _ _ => None | SaListen _ _ p | SaRelease _ _ p | SaInstall _ p _ => Some p end.

(** Where the goroutine of a failed server is in its clean-up. *)
Inductive failing : Type :=
  | FClose (info : AgentServerInfo)
  | FLock (info : AgentServerInfo).

Definition fail_info (f : failing) : AgentServerInfo := match f with FClose i | FLock i => i end.

Record casm : Type := mkCasm {
  cs_asm : ASM;
  cs_mu : option starting;                 (** [None]: free, or held for one step *)
  cs_stops : gmap nat stopping;
  cs_failed : gmap nat failing;
}.

(** After an attempt to allocate, and to bind. *)
Definition allocated (n : nat) (a : string) (r : result Z) : option starting :=
  match r with Ok port => Some (SaListen n a port) | Err _ => None end.
Definition bound (n : nat) (a : string) (port : Z) (r : result nat) : starting :=
  match r with Ok l => SaInstall a port l | Err _ => SaRelease n a port end.

(** [Serve] returns: the server of the goroutine if it failed. *)
Definition serve_return (ptr : nat) : M ASM (option AgentServerInfo) :=
  w ← get;
  match goroutines w !! ptr with
  | None => mret None
  | Some info =>
      _ ← in_net (Listener_Close (Listener info));
      _ ← modify (λ w, set_goroutines (delete ptr (goroutines w)) w);
      mret (match httpServers (net w) !! Server info with Some SrvShutdown => None | _ => Some info end)
  end.

(** Lines 127-133, under the lock. *)
Definition fail_cleanup (info : AgentServerInfo) : M ASM unit :=
  w ← get;
  match servers w !! AgentID info with
  | Some info' =>
      if decide (info_ptr info' = info_ptr info) then
        _ ← modify (λ w, set_servers (delete (AgentID info) (servers w)) w);
        in_pm (Release (Port info))
      else mret ()
  | None => mret ()
  end.

Inductive castep : casm → casm → Prop :=
  | ca_start w stops failed a :
      servers w !! a = None →
      castep (mkCasm w None stops failed) (mkCasm w (Some (SaAllocate maxPortBindRetries a)) stops failed)
  | ca_give_up w stops failed a :
      castep (mkCasm w (Some (SaAllocate 0 a)) stops failed) (mkCasm w None stops failed)
  | ca_allocate w w' stops failed n a r :
      in_pm (Allocate a) w = Ret r w' →
      castep (mkCasm w (Some (SaAllocate (S n) a)) stops failed) (mkCasm w' (allocated n a r) stops failed)
  | ca_listen w w' stops failed n a p r :
      in_net (net_Listen p) w = Ret r w' →
      castep (mkCasm w (Some (SaListen n a p)) stops failed) (mkCasm w' (Some (bound n a p r)) stops failed)
  | ca_release w w' stops failed n a p :
      in_pm (Release p) w = Ret () w' →
      castep (mkCasm w (Some (SaRelease n a p)) stops failed) (mkCasm w' (Some (SaAllocate n a)) stops failed)
  | ca_install w w' stops failed a p l :
      install_server a p l w = Ret () w' →
      castep (mkCasm w (Some (SaInstall a p l)) stops failed) (mkCasm w' None stops failed)
  | ca_stop w stops failed a i t :
      servers w !! a = Some i → stops !! t = None →
      castep (mkCasm w None stops failed)
             (mkCasm (set_servers (delete a (servers w)) w) None (<[t := StShutdown i]> stops) failed)
  | ca_shutdown w w' mu stops failed t i r :
      stops !! t = Some (StShutdown i) → in_net (Server_Shutdown (Server i) (Listener i)) w = Ret r w' →
      castep (mkCasm w mu stops failed)
             (mkCasm w' mu (<[t := StForce i (bool_decide (is_Some r))]> stops) failed)
  | ca_force w w' mu stops failed t i late :
      stops !! t = Some (StForce i late) →
      (if late : bool then in_net (Server_Close (Server i) (Listener i)) else mret ()) w = Ret () w' →
      castep (mkCasm w mu stops failed) (mkCasm w' mu (<[t := StListener i]> stops) failed)
  | ca_close w w' mu stops failed t i r :
      stops !! t = Some (StListener i) → in_net (Listener_Close (Listener i)) w = Ret r w' →
      castep (mkCasm w mu stops failed) (mkCasm w' mu (<[t := StRelease i]> stops) failed)
  | ca_done w w' mu stops failed t i :
      stops !! t = Some (StRelease i) → in_pm (Release (Port i)) w = Ret () w' →
      castep (mkCasm w mu stops failed) (mkCasm w' mu (delete t stops) failed)
  | ca_serve w w' mu stops failed ptr :
      serve_begin ptr w = Ret () w' → castep (mkCasm w mu stops failed) (mkCasm w' mu stops failed)
  | ca_serve_return w w' mu stops failed ptr r :
      serve_return ptr w = Ret r w' →
      castep (mkCasm w mu stops failed)
             (mkCasm w' mu stops (match r with Some i => <[ptr := FClose i]> failed | None => failed end))
  | ca_fail_close w w' mu stops failed g i r :
      failed !! g = Some (FClose i) → in_net (Listener_Close (Listener i)) w = Ret r w' →
      castep (mkCasm w mu stops failed) (mkCasm w' mu stops (<[g := FLock i]> failed))
  | ca_fail w w' stops failed g i :
      failed !! g = Some (FLock i) → fail_cleanup i w = Ret () w' →
      castep (mkCasm w None stops failed) (mkCasm w' None stops (delete g failed)).

(** ** The invariant *)

(** The servers that hold a port: listed, or being stopped. *)
Definition owns (s : casm) (i : AgentServerInfo) : Prop :=
  (∃ a, servers (cs_asm s) !! a = Some i) ∨ (∃ t st, cs_stops s !! t = Some st ∧ stop_info st = i).

(** All servers some goroutine can still reach. *)
Definition known (s : casm) (i : AgentServerInfo) : Prop :=
  owns s i ∨ (∃ g, goroutines (cs_asm s) !! g = Some i) ∨
  (∃ g f, cs_failed s !! g = Some f ∧ fail_info f = i).

Definition mu_ok (s : casm) (m : starting) : Prop :=
  servers (cs_asm s) !! start_agent m = None ∧
  (∀ p, start_port m = Some p →
     alloc (cs_asm s) !! p = Some (start_agent m) ∧ ∀ i, owns s i → Port i ≠ p) ∧
  match m with
  | SaInstall _ p l =>
      listeners (net (cs_asm s)) !! l = Some p ∧ l < next_ptr (net (cs_asm s)) ∧
      ∀ i, known s i → Listener i ≠ l
  | _ => True
  end.

Record casm_ok (s : casm) : Prop := {
  ck_pm : pm_ok (portManager (cs_asm s));
  ck_server : ∀ a i, servers (cs_asm s) !! a = Some i →
    AgentID i = a ∧ httpServers (net (cs_asm s)) !! Server i ≠ Some SrvShutdown ∧
    (listeners (net (cs_asm s)) !! Listener i = Some (Port i) ∨
     ∃ g f, cs_failed s !! g = Some f ∧ fail_info f = i);
  ck_own : ∀ i, owns s i → alloc (cs_asm s) !! Port i = Some (AgentID i);
  ck_ports : ∀ i j, owns s i → owns s j → Port i = Port j → i = j;
  ck_stopped : ∀ t st, cs_stops s !! t = Some st →
    (∀ a, servers (cs_asm s) !! a ≠ Some (stop_info st)) ∧
    (∀ u su, cs_stops s !! u = Some su → stop_info su = stop_info st → u = t);
  ck_mu : ∀ m, cs_mu s = Some m → mu_ok s m;
  ck_alloc : ∀ p a, alloc (cs_asm s) !! p = Some a →
    (∃ i, owns s i ∧ Port i = p) ∨ (∃ m, cs_mu s = Some m ∧ start_port m = Some p);
  ck_listen : ∀ l p, listeners (net (cs_asm s)) !! l = Some p →
    (∃ i, owns s i ∧ Listener i = l ∧ Port i = p) ∨ (∃ a, cs_mu s = Some (SaInstall a p l));
  ck_closed : ∀ t i, cs_stops s !! t = Some (StRelease i) →
    listeners (net (cs_asm s)) !! Listener i = None;
  ck_failed : ∀ g f, cs_failed s !! g = Some f →
    info_ptr (fail_info f) = g ∧ listeners (net (cs_asm s)) !! Listener (fail_info f) = None;
  ck_fresh : ∀ i, known s i →
    info_ptr i < next_ptr (net (cs_asm s)) ∧ Server i < next_ptr (net (cs_asm s)) ∧
    Listener i < next_ptr (net (cs_asm s));
  ck_unique : ∀ i j, known s i → known s j →
    info_ptr i = info_ptr j ∨ Server i = Server j ∨ Listener i = Listener j → i = j;
  ck_goroutine : ∀ g i, goroutines (cs_asm s) !! g = Some i → info_ptr i = g;
}.

(** ** Preservation *)

(** What the calls on a server's listener and status may do. *)
Definition net_call (srv l : nat) (n n' : Net) : Prop :=
  (listeners n' = listeners n ∨ listeners n' = delete l (listeners n)) ∧
  httpServers n' = <[srv := SrvShutdown]> (httpServers n) ∧ next_ptr n' = next_ptr n.

Lemma Server_Shutdown_spec srv l n : wp (Server_Shutdown srv l) n (λ _ n', net_call srv l n n').
Proof.
  unfold Server_Shutdown. wp_steps. eapply wp_mono; [apply close_tracked_spec|].
  intros [] n1 [-> | ->]; wp_steps; (split; [simpl; auto|done]).
Qed.

Lemma Server_Close_spec srv l n : wp (Server_Close srv l) n (λ _ n', net_call srv l n n').
Proof.
  unfold Server_Close. wp_steps. eapply wp_mono; [apply close_tracked_spec|].
  intros [] n1 [-> | ->]; wp_steps; (split; [simpl; auto|done]).
Qed.

Lemma in_net_Ret {A} (m : M Net A) w r w' Q :
  wp m (net w) Q → in_net m w = Ret r w' → ∃ n', w' = set_net n' w ∧ Q r n'.
Proof.
  unfold in_net, zoom, wp. destruct (m (net w)) as [v n'| |]; [|done..].
  intros HQ [= -> <-]. by exists n'.
Qed.

Lemma in_pm_Ret {A} (m : M PortManager A) w r w' Q :
  wp m (portManager w) Q → in_pm m w = Ret r w' → ∃ pm', w' = set_portManager pm' w ∧ Q r pm'.
Proof.
  unfold in_pm, zoom, wp. destruct (m (portManager w)) as [v pm'| |]; [|done..].
  intros HQ [= -> <-]. by exists pm'.
Qed.

Section Steps.
Context (s : casm) (Hok : casm_ok s).
Notation w := (cs_asm s).

Lemma listed_known a i : servers w !! a = Some i → known s i.
Proof. left; left. eauto. Qed.

Lemma stopping_known t st : cs_stops s !! t = Some st → known s (stop_info st).
Proof. left; right. eauto. Qed.

(** A stopping goroutine keeps its server. *)
Lemma same_stop (stops' : gmap nat stopping) t st :
  (∀ t, stop_info <$> stops' !! t = stop_info <$> cs_stops s !! t) → stops' !! t = Some st →
  ∃ st0, cs_stops s !! t = Some st0 ∧ stop_info st0 = stop_info st.
Proof. intros Hst E. specialize (Hst t). rewrite E in Hst. destruct (cs_stops s !! t); [|done]. injection Hst. eauto. Qed.

Lemma owns_same w' mu' stops' failed' j :
  servers w' = servers w → (∀ t, stop_info <$> stops' !! t = stop_info <$> cs_stops s !! t) →
  owns (mkCasm w' mu' stops' failed') j ↔ owns s j.
Proof.
  intros Es Hst. unfold owns. simpl. rewrite Es. apply or_iff_compat_l. split; intros (t & st & Ht & E).
  - destruct (same_stop _ _ _ Hst Ht) as (st0 & H0 & E0). exists t, st0. by rewrite E0.
  - specialize (Hst t). rewrite Ht in Hst. destruct (stops' !! t) as [st'|] eqn:E'; [|done].
    injection Hst as Hst. exists t, st'. by rewrite Hst.
Qed.

(** *** Steps on the network *)

(** What such a step may do: close the listener of one known server, which is not
    listed or about to be cleaned up, and change the state of one that is not
    listed. *)
Lemma net_step w' stops' failed' i :
  let s' := mkCasm w' (cs_mu s) stops' failed' in
  known s i →
  portManager w' = portManager w → servers w' = servers w → goroutines w' ⊆ goroutines w →
  next_ptr (net w') = next_ptr (net w) →
  listeners (net w') = listeners (net w) ∨ listeners (net w') = delete (Listener i) (listeners (net w)) →
  (∀ a, servers w !! a = Some i → httpServers (net w') !! Server i ≠ Some SrvShutdown) →
  (∀ srv, srv ≠ Server i → httpServers (net w') !! srv = httpServers (net w) !! srv) →
  (∀ a, servers w !! a = Some i → listeners (net w') = listeners (net w) ∨
     ∃ g f, failed' !! g = Some f ∧ fail_info f = i) →
  (∀ g f a, cs_failed s !! g = Some f → servers w !! a = Some (fail_info f) →
     ∃ g' f', failed' !! g' = Some f' ∧ fail_info f' = fail_info f) →
  (∀ g f, failed' !! g = Some f →
     known s (fail_info f) ∧ info_ptr (fail_info f) = g ∧
     listeners (net w') !! Listener (fail_info f) = None) →
  (∀ t, stop_info <$> stops' !! t = stop_info <$> cs_stops s !! t) →
  (∀ t j, stops' !! t = Some (StRelease j) → listeners (net w') !! Listener j = None) →
  casm_ok s'.
Proof.
  intros s' Hi Epm Es Hg En Hl Hh1 Hh2 Hl1 Hf1 Hf2 Hst Hrel.
  assert (∀ j, owns s' j ↔ owns s j) as Ho by (intros j; by apply owns_same).
  assert (∀ j, known s' j → known s j) as Hk.
  { intros j [?%Ho|[[g Hj]|(g & f & Hj & E)]]; [by left|right; left; exists g; by eapply lookup_weaken|].
    rewrite <- E. by apply (Hf2 g f). }
  assert (∀ l p, listeners (net w') !! l = Some p → listeners (net w) !! l = Some p) as Hsub.
  { intros l p Hp. destruct Hl as [E|E]; rewrite E in Hp; [done|]. by apply lookup_delete_Some in Hp as [_ ?]. }
  split; cbn [cs_asm cs_mu cs_stops cs_failed s']; unfold alloc; rewrite ?Epm, ?Es, ?En.
  - apply Hok.
  - intros a j Hj. destruct (ck_server _ Hok _ _ Hj) as (H1 & H2 & H3). split; [done|].
    destruct (decide (j = i)) as [->|Hne].
    + split; [by eapply Hh1|]. destruct (Hl1 _ Hj) as [->|?]; [|by right].
      destruct H3 as [|(g & f & Hf & <-)]; [by left|right; by eapply Hf1].
    + split.
      { rewrite Hh2; [done|]. intros E. apply Hne, (ck_unique _ Hok); eauto using listed_known. }
      destruct H3 as [H3|(g & f & Hf & <-)]; [left|right; by eapply Hf1].
      destruct Hl as [->| ->]; [done|]. rewrite lookup_delete_ne; [done|].
      intros E. apply Hne, (ck_unique _ Hok); eauto using listed_known.
  - intros j Hj%Ho. by apply (ck_own _ Hok).
  - intros j k Hj%Ho Hk'%Ho. by apply (ck_ports _ Hok).
  - intros t st Ht. destruct (same_stop _ _ _ Hst Ht) as (st0 & H0 & E0). destruct (ck_stopped _ Hok _ _ H0) as [H1 H2].
    rewrite E0 in *. split; [done|]. intros u su Hu Eu. destruct (same_stop _ _ _ Hst Hu) as (su0 & Hu0 & Eu0).
    apply (H2 _ su0 Hu0). congruence.
  - intros m Hm. destruct (ck_mu _ Hok _ Hm) as (H1 & H2 & H3). split; [|split].
    + simpl. by rewrite Es.
    + simpl. unfold alloc. rewrite Epm. intros p Hp. destruct (H2 _ Hp) as [? Hd]. split; [done|]. intros j Hj%Ho. by apply Hd.
    + destruct m as [| | |b p l]; try done. destruct H3 as (H3 & H4 & H5). simpl. rewrite En. split_and!; [|done|auto].
      destruct Hl as [->| ->]; [done|]. rewrite lookup_delete_ne; [done|]. by apply H5.
  - intros p a Hp. destruct (ck_alloc _ Hok _ _ Hp) as [(j & Hj & E)|?]; [left|by right].
    exists j. by rewrite Ho.
  - intros l p Hp%Hsub. destruct (ck_listen _ Hok _ _ Hp) as [(j & Hj & E)|?]; [left|by right].
    exists j. by rewrite Ho.
  - intros t j Ht. by apply (Hrel t).
  - intros g f Hf. by apply (Hf2 g f).
  - intros j Hj%Hk. by apply (ck_fresh _ Hok).
  - intros j k Hj%Hk Hk'%Hk. by apply (ck_unique _ Hok).
  - intros g j Hj. apply (ck_goroutine _ Hok). by eapply lookup_weaken.
Qed.

(** A goroutine that stops a server goes on. *)
Lemma stop_step w' t st st' :
  cs_stops s !! t = Some st → stop_info st' = stop_info st →
  portManager w' = portManager w → servers w' = servers w → goroutines w' = goroutines w →
  next_ptr (net w') = next_ptr (net w) →
  listeners (net w') = delete (Listener (stop_info st)) (listeners (net w)) ∨
    (listeners (net w') = listeners (net w) ∧ ∀ i, st' ≠ StRelease i) →
  (∀ srv, srv ≠ Server (stop_info st) → httpServers (net w') !! srv = httpServers (net w) !! srv) →
  casm_ok (mkCasm w' (cs_mu s) (<[t := st']> (cs_stops s)) (cs_failed s)).
Proof.
  intros Ht Est Epm Es Eg En Hl Hh. destruct (ck_stopped _ Hok _ _ Ht) as [Hun _].
  assert (∀ l, listeners (net w) !! l = None → listeners (net w') !! l = None) as Hnone.
  { intros l. destruct Hl as [->|[-> _]]; [|done]. intros E. apply lookup_delete_None. by right. }
  eapply (net_step w' _ _ (stop_info st)); try done; [by eapply stopping_known|by rewrite Eg|naive_solver|..].
  - intros a Ha. by destruct (Hun a).
  - intros a Ha. by destruct (Hun a).
  - eauto.
  - intros g f Hf. destruct (ck_failed _ Hok _ _ Hf). split; [right; right; eauto|auto].
  - intros u. rewrite lookup_insert. case_decide; subst; [|done]. rewrite Ht. simpl. by rewrite Est.
  - intros u j. rewrite lookup_insert. case_decide; subst; [|intros Hu; by apply Hnone, (ck_closed _ Hok u)].
    intros [= ->]. simpl in Est. rewrite Est. destruct Hl as [->|[_ Hx]]; [apply lookup_delete_eq|by destruct (Hx j)].
Qed.

(** *** A server gives its port back *)

Lemma release_step w' stops' failed' i :
  owns s i → listeners (net w) !! Listener i = None →
  pm_ok (portManager w') → alloc w' = delete (Port i) (alloc w) → net w' = net w →
  goroutines w' = goroutines w → servers w' ⊆ servers w → stops' ⊆ cs_stops s → failed' ⊆ cs_failed s →
  (∀ a j, servers w !! a = Some j → j ≠ i → servers w' !! a = Some j) →
  (∀ t st, cs_stops s !! t = Some st → stop_info st ≠ i → stops' !! t = Some st) →
  (∀ g f, cs_failed s !! g = Some f → fail_info f ≠ i → failed' !! g = Some f) →
  (∀ a, servers w' !! a ≠ Some i) → (∀ t st, stops' !! t = Some st → stop_info st ≠ i) →
  casm_ok (mkCasm w' (cs_mu s) stops' failed').
Proof.
  intros Hi Hli Hpm Hal En Eg Hs Hst Hf Hs1 Hst1 Hf1 Hs2 Hst2. set (s' := mkCasm _ _ _ _).
  assert (∀ j, owns s' j ↔ owns s j ∧ j ≠ i) as Ho.
  { intros j. unfold owns. simpl. split.
    - intros [[a Ha]|(t & st & Ht & <-)].
      + split; [left; exists a; by eapply lookup_weaken|]. intros ->. by destruct (Hs2 a).
      + split; [right; exists t, st; split; [by eapply lookup_weaken|done]|by eapply Hst2].
    - intros [[[a Ha]|(t & st & Ht & <-)] Hne]; [left; exists a; by apply Hs1|right; exists t, st; split; [by apply Hst1|done]]. }
  assert (∀ j, known s' j → known s j) as Hk.
  { intros j [[? _]%Ho|[[g Hj]|(g & f & Hj & <-)]]; [by left|right; left; exists g; by rewrite <- Eg|].
    right; right. exists g, f. split; [by eapply lookup_weaken|done]. }
  assert (∀ j, owns s j → j ≠ i → Port j ≠ Port i) as Hport.
  { intros j Hj Hne E. by apply Hne, (ck_ports _ Hok). }
  split; cbn [cs_asm cs_mu cs_stops cs_failed s']; rewrite ?Hal, ?En.
  - done.
  - intros a j Hj. assert (j ≠ i) as Hne by (intros ->; by destruct (Hs2 a)).
    destruct (ck_server _ Hok a j) as (H1 & H2 & H3); [by eapply lookup_weaken|]. split_and!; [done..|].
    destruct H3 as [?|(g & f & Hfg & <-)]; [by left|right; exists g, f; split; [by apply Hf1|done]].
  - intros j [Hj Hne]%Ho. rewrite lookup_delete_ne; [by apply (ck_own _ Hok)|]. intros E. by apply (Hport j).
  - intros j k [Hj _]%Ho [Hk' _]%Ho. by apply (ck_ports _ Hok).
  - intros t st Ht. destruct (ck_stopped _ Hok t st) as [H1 H2]; [by eapply lookup_weaken|]. split.
    + intros a Ha. apply (H1 a). by eapply lookup_weaken.
    + intros u su Hu. apply H2. by eapply lookup_weaken.
  - intros m Hm. destruct (ck_mu _ Hok _ Hm) as (H1 & H2 & H3). split; [|split].
    + simpl. eapply lookup_weaken_None; [exact H1|done].
    + intros p Hp. destruct (H2 p Hp) as [Hap Hd]. simpl. rewrite Hal. split.
      * rewrite lookup_delete_ne; [done|]. by apply Hd.
      * intros j [Hj _]%Ho. by apply Hd.
    + destruct m as [| | |b p l]; try done. simpl. rewrite En. destruct H3 as (?&?&H5). split_and!; auto.
  - intros p a [Hp Hpa]%lookup_delete_Some. destruct (ck_alloc _ Hok _ _ Hpa) as [(j & Hj & E)|?]; [left|by right].
    exists j. split; [|done]. apply Ho. split; [done|]. by intros ->.
  - intros l p Hp. destruct (ck_listen _ Hok _ _ Hp) as [(j & Hj & El & E)|?]; [left|by right].
    exists j. split; [|done]. apply Ho. split; [done|]. intros ->. by rewrite El, Hp in Hli.
  - intros t j Ht. apply (ck_closed _ Hok t). by eapply lookup_weaken.
  - intros g f Hg. apply (ck_failed _ Hok g). by eapply lookup_weaken.
  - intros j Hj%Hk. by apply (ck_fresh _ Hok).
  - intros j k Hj%Hk Hk'%Hk. by apply (ck_unique _ Hok).
  - rewrite Eg. apply Hok.
Qed.

(** *** The goroutine that starts a server *)

Lemma mu_step w' mu' :
  let s' := mkCasm w' mu' (cs_stops s) (cs_failed s) in
  pm_ok (portManager w') → servers w' = servers w → goroutines w' = goroutines w →
  (∀ i, owns s i → alloc w' !! Port i = alloc w !! Port i) →
  httpServers (net w') = httpServers (net w) → next_ptr (net w) ≤ next_ptr (net w') →
  (∀ i, known s i → listeners (net w') !! Listener i = listeners (net w) !! Listener i) →
  (∀ m, mu' = Some m → mu_ok s' m) →
  (∀ p a, alloc w' !! p = Some a →
     (∃ i, owns s i ∧ Port i = p) ∨ ∃ m, mu' = Some m ∧ start_port m = Some p) →
  (∀ l p, listeners (net w') !! l = Some p →
     (∃ i, owns s i ∧ Listener i = l ∧ Port i = p) ∨ ∃ a, mu' = Some (SaInstall a p l)) →
  casm_ok s'.
Proof.
  intros s' Hpm Es Eg Hal Eh En Hl Hmu Hall Hlis.
  assert (∀ j, owns s' j ↔ owns s j) as Ho by (intros j; by apply owns_same).
  assert (∀ j, known s' j ↔ known s j) as Hk by (intros j; unfold known; rewrite Ho; simpl; by rewrite Eg).
  split; cbn [cs_asm cs_mu cs_stops cs_failed s']; rewrite ?Es, ?Eg, ?Eh.
  - done.
  - intros a j Hj. destruct (ck_server _ Hok a j Hj) as (?&?&H3). rewrite Hl by by eapply listed_known. done.
  - intros j Hj%Ho. rewrite Hal by done. by apply (ck_own _ Hok).
  - intros j k Hj%Ho Hk'%Ho. by apply (ck_ports _ Hok).
  - apply Hok.
  - done.
  - intros p a Hp. destruct (Hall _ _ Hp) as [(j & Hj & E)|?]; [left; exists j; by rewrite Ho|by right].
  - intros l p Hp. destruct (Hlis _ _ Hp) as [(j & Hj & E)|?]; [left; exists j; by rewrite Ho|by right].
  - intros t j Ht. rewrite Hl by by apply (stopping_known t (StRelease j)). by apply (ck_closed _ Hok t).
  - intros g f Hg. rewrite Hl by (right; right; eauto). by apply (ck_failed _ Hok g).
  - intros j Hj%Hk. destruct (ck_fresh _ Hok _ Hj) as (?&?&?). lia.
  - intros j k Hj%Hk Hk'%Hk. by apply (ck_unique _ Hok).
  - apply Hok.
Qed.

(** A port that is not allocated belongs to nobody. *)
Lemma free_port p : alloc w !! p = None →
  (∀ i, owns s i → Port i ≠ p) ∧ (∀ m, cs_mu s = Some m → start_port m ≠ Some p).
Proof.
  intros Hp. split.
  - intros i Hi <-. by rewrite (ck_own _ Hok _ Hi) in Hp.
  - intros m Hm E. destruct (ck_mu _ Hok _ Hm) as (_ & H & _). destruct (H _ E) as [Ha _]. congruence.
Qed.

Lemma start_step a : servers w !! a = None → cs_mu s = None →
  casm_ok (mkCasm w (Some (SaAllocate maxPortBindRetries a)) (cs_stops s) (cs_failed s)).
Proof.
  intros Ha Emu. apply mu_step; try done; [apply Hok|..].
  - intros m [= <-]. by split_and!.
  - intros p b Hp. destruct (ck_alloc _ Hok _ _ Hp) as [?|(m & Hm & _)]; [by left|congruence].
  - intros l p Hp. destruct (ck_listen _ Hok _ _ Hp) as [?|(b & Hb)]; [by left|congruence].
Qed.

Lemma no_port_step mu' m : cs_mu s = Some m → start_port m = None → mu' = None →
  casm_ok (mkCasm w mu' (cs_stops s) (cs_failed s)).
Proof.
  intros Em Ep ->. apply mu_step; try done; [apply Hok|..].
  - intros p b Hp. destruct (ck_alloc _ Hok _ _ Hp) as [?|(m' & Hm & E)]; [by left|congruence].
  - intros l p Hp. destruct (ck_listen _ Hok _ _ Hp) as [?|(b & Hb)]; [by left|].
    rewrite Em in Hb. injection Hb as ->. done.
Qed.

Lemma allocate_step n a r w' :
  cs_mu s = Some (SaAllocate (S n) a) → in_pm (Allocate a) w = Ret r w' →
  casm_ok (mkCasm w' (allocated n a r) (cs_stops s) (cs_failed s)).
Proof.
  intros Em E. destruct (in_pm_Ret _ _ _ _ _ (Allocate_spec a _ (ck_pm _ Hok)) E) as (pm' & -> & Hpm & Hv).
  destruct r as [p|e]; simpl.
  2:{ destruct Hv as (_ & -> & _). eapply mu_step; simpl; try done.
      - intros p b Hp. destruct (ck_alloc _ Hok _ _ Hp) as [?|(m' & Hm & Ep)]; [by left|].
        rewrite Em in Hm. by injection Hm as <-.
      - intros l p Hp. destruct (ck_listen _ Hok _ _ Hp) as [?|(b & Hb)]; [by left|congruence]. }
  destruct Hv as (_ & Hun & Hal & _). destruct (free_port p Hun) as [Hfree _].
  destruct (ck_mu _ Hok _ Em) as (Ha & _). apply mu_step; simpl; try done; unfold alloc; simpl; rewrite ?Hal.
  - intros i Hi. rewrite lookup_insert_ne; [done|]. intros Ep. by apply (Hfree i).
  - intros m [= <-]. split; [done|]. split; [|done]. intros q [= <-]. unfold alloc. simpl.
    rewrite Hal, lookup_insert_eq. split; [done|]. intros i Hi. by apply Hfree.
  - intros q b [[<- _]|[_ Hq]]%lookup_insert_Some; [right; eauto|].
    destruct (ck_alloc _ Hok _ _ Hq) as [?|(m' & Hm & Ep)]; [by left|]. rewrite Em in Hm. by injection Hm as <-.
  - intros l q Hq. destruct (ck_listen _ Hok _ _ Hq) as [?|(b & Hb)]; [by left|congruence].
Qed.

Lemma listen_step n a p r w' :
  cs_mu s = Some (SaListen n a p) → in_net (net_Listen p) w = Ret r w' →
  casm_ok (mkCasm w' (Some (bound n a p r)) (cs_stops s) (cs_failed s)).
Proof.
  intros Em E.
  destruct (in_net_Ret _ _ _ _ _ (net_Listen_spec p (net w)) E) as (n' & -> & Eh & _ & _ & Hv). destruct (ck_mu _ Hok _ Em) as (Ha & Hp & _).
  destruct (Hp _ eq_refl) as [Hap Hd].
  assert (∀ m, start_agent m = a → start_port m = Some p →
    (∀ b q l, m = SaInstall b q l → listeners n' !! l = Some q ∧ l < next_ptr n' ∧ ∀ i, known s i → Listener i ≠ l) →
    mu_ok (mkCasm (set_net n' w) (Some m) (cs_stops s) (cs_failed s)) m) as Hm.
  { intros m E1 E2 H. split; [by rewrite E1|]. split.
    - intros q Hq. rewrite E1. replace q with p by congruence. done.
    - destruct m; try done. by eapply H. }
  assert (∀ q b m, start_port m = Some p → alloc w !! q = Some b →
    (∃ i, owns s i ∧ Port i = q) ∨ ∃ m', Some m = Some m' ∧ start_port m' = Some q) as Hall.
  { intros q b m Epm Hq. destruct (ck_alloc _ Hok _ _ Hq) as [?|(m' & Hm' & Ep)]; [by left|]. right.
    exists m. split; [done|]. rewrite Em in Hm'. injection Hm' as <-. simpl in Ep. congruence. }
  destruct r as [l|e]; simpl.
  - destruct Hv as (-> & El & En & _). eapply mu_step; simpl; rewrite ?El, ?En; try done; [apply Hok|lia|..].
    + intros i Hi. destruct (ck_fresh _ Hok _ Hi) as (_ & _ & ?). rewrite lookup_insert_ne by lia. done.
    + intros m [= <-]. apply Hm; [done..|]. intros b q l [= <- <- <-]. rewrite El, lookup_insert_eq. split; [done|].
      split; [lia|]. intros i Hi. destruct (ck_fresh _ Hok _ Hi) as (_ & _ & ?). lia.
    + intros q b Hq. by eapply Hall.
    + intros l q [[<- <-]|[_ Hq]]%lookup_insert_Some; [right; eauto|].
      destruct (ck_listen _ Hok _ _ Hq) as [?|(b & Hb)]; [by left|congruence].
  - destruct Hv as (El & En & _). eapply mu_step; simpl; rewrite ?El, ?En; try done; [apply Hok|..].
    + intros m [= <-]. apply Hm; [done..|]. by intros.
    + intros q b Hq. by eapply Hall.
    + intros l q Hq. destruct (ck_listen _ Hok _ _ Hq) as [?|(b & Hb)]; [by left|congruence].
Qed.

Lemma give_back_step n a p w' :
  cs_mu s = Some (SaRelease n a p) → in_pm (Release p) w = Ret () w' →
  casm_ok (mkCasm w' (Some (SaAllocate n a)) (cs_stops s) (cs_failed s)).
Proof.
  intros Em E.
  destruct (in_pm_Ret _ _ _ _ _ (Release_spec p _ (ck_pm _ Hok)) E) as (pm' & -> & Hpm & _ & Hal & _). destruct (ck_mu _ Hok _ Em) as (Ha & Hp & _).
  destruct (Hp _ eq_refl) as [_ Hd].
  apply mu_step; simpl; try done; unfold alloc; simpl; rewrite ?Hal.
  - intros i Hi. rewrite lookup_delete_ne; [done|]. intros Ep. by apply (Hd i).
  - intros m [= <-]. by split_and!.
  - intros q b [Hne Hq]%lookup_delete_Some. destruct (ck_alloc _ Hok _ _ Hq) as [?|(m' & Hm & Ep)]; [by left|].
    rewrite Em in Hm. injection Hm as <-. simpl in Ep. congruence.
  - intros l q Hq. destruct (ck_listen _ Hok _ _ Hq) as [?|(b & Hb)]; [by left|congruence].
Qed.

Lemma install_step a p l w' :
  cs_mu s = Some (SaInstall a p l) → install_server a p l w = Ret () w' →
  casm_ok (mkCasm w' None (cs_stops s) (cs_failed s)).
Proof.
  intros Em E. destruct (ck_mu _ Hok _ Em) as (Ha & Hp & Hl & Hln & Hlu).
  destruct (Hp _ eq_refl) as [Hap Hd]. simpl in Ha, Hap.
  unfold install_server, in_net, new_http_server, zoom, mbind, M_bind, get, modify, mret, M_ret in E.
  cbn [net set_net set_servers next_ptr listeners httpServers clock env] in E. injection E as <-.
  set (i := mkInfo (S (next_ptr (net w))) a p (next_ptr (net w)) l _).
  set (s' := mkCasm _ _ _ _).
  assert (∀ j, owns s' j → j = i ∨ owns s j) as Ho.
  { intros j [[b Hb]|Hst]; [|by right; right]. simpl in Hb.
    apply lookup_insert_Some in Hb as [[_ <-]|[_ Hb]]; [by left|right; left; eauto]. }
  assert (∀ j, owns s j → owns s' j) as Ho'.
  { intros j [[b Hb]|Hst]; [left; exists b; simpl|by right]. rewrite lookup_insert_ne; [done|]. congruence. }
  assert (owns s' i) as Hi by (left; exists a; simpl; by rewrite lookup_insert_eq).
  assert (∀ j, known s' j → j = i ∨ known s j) as Hk.
  { intros j [[->|?]%Ho|[[g Hj]|Hf]]; [by left|by right; left| |by right; right; right].
    simpl in Hj. apply lookup_insert_Some in Hj as [[_ <-]|[_ Hj]]; [by left|right; right; left; eauto]. }
  assert (∀ j, known s j → info_ptr j < next_ptr (net w) ∧ Server j < next_ptr (net w) ∧
            Listener j < next_ptr (net w) ∧ Listener j ≠ l) as Hfr.
  { intros j Hj. destruct (ck_fresh _ Hok _ Hj) as (?&?&?). auto. }
  split; cbn [cs_asm cs_mu cs_stops cs_failed s']; simpl.
  - apply Hok.
  - intros b j [[<- <-]|[_ Hb]]%lookup_insert_Some.
    + split; [done|]. split; [by rewrite lookup_insert_eq|by left].
    + destruct (ck_server _ Hok _ _ Hb) as (H1 & H2 & H3). split; [done|].
      destruct (Hfr j (listed_known _ _ Hb)) as (_ & ? & _). rewrite lookup_insert_ne by lia. done.
  - intros j [->|Hj]%Ho; [done|by apply (ck_own _ Hok)].
  - intros j j' [->|Hj]%Ho [->|Hj']%Ho Ep; [done|..|by apply (ck_ports _ Hok)];
      simpl in Ep; exfalso; [by apply (Hd j')|by apply (Hd j)].
  - intros t st Ht. destruct (ck_stopped _ Hok _ _ Ht) as [H1 H2]. split; [|done].
    intros b [[<- Hb]|[_ Hb]]%lookup_insert_Some; [|by eapply H1].
    destruct (Hfr _ (stopping_known t st Ht)) as (? & _). rewrite <- Hb in *. simpl in *. lia.
  - done.
  - intros q b Hq. left. destruct (ck_alloc _ Hok _ _ Hq) as [(j & Hj & Ej)|(m & Hm & Ep)]; [by eauto|].
    rewrite Em in Hm. injection Hm as <-. injection Ep as <-. by exists i.
  - intros l' q Hq. left. destruct (ck_listen _ Hok _ _ Hq) as [(j & Hj & Ej)|(b & Hb)]; [by eauto|].
    rewrite Em in Hb. injection Hb as <- <- <-. by exists i.
  - intros t j Ht. by apply (ck_closed _ Hok t).
  - intros g f Hg. by apply (ck_failed _ Hok g).
  - intros j [->|Hj]%Hk; [simpl; lia|]. destruct (Hfr _ Hj) as (?&?&?&_). lia.
  - intros j j' [->|Hj]%Hk [->|Hj']%Hk Ep; [done|..|by apply (ck_unique _ Hok)]; exfalso;
      [destruct (Hfr _ Hj') as (?&?&?&?)|destruct (Hfr _ Hj) as (?&?&?&?)]; simpl in Ep; lia.
  - intros g j [[<- <-]|[_ Hg]]%lookup_insert_Some; [done|by apply (ck_goroutine _ Hok)].
Qed.

(** *** Stopping begins *)

Lemma stop_begin_step a i t :
  servers w !! a = Some i → cs_stops s !! t = None → cs_mu s = None →
  casm_ok (mkCasm (set_servers (delete a (servers w)) w) None (<[t := StShutdown i]> (cs_stops s)) (cs_failed s)).
Proof.
  intros Ha Ht Emu. set (s' := mkCasm _ _ _ _).
  assert (∀ b, servers w !! b = Some i → b = a) as Hone.
  { intros b Hb. destruct (ck_server _ Hok _ _ Ha) as [<- _]. by destruct (ck_server _ Hok _ _ Hb) as [<- _]. }
  assert (∀ j, owns s' j ↔ owns s j) as Ho.
  { intros j. unfold owns. simpl. split.
    - intros [[b [_ Hb]%lookup_delete_Some]|(u & st & [[<- <-]|[_ Hu]]%lookup_insert_Some & E)]; [left; eauto|left|right; eauto].
      exists a. by rewrite <- E.
    - intros [[b Hb]|(u & st & Hu & E)].
      + destruct (decide (b = a)) as [->|Hne].
        * right. exists t, (StShutdown i). rewrite lookup_insert_eq. split; [done|]. simpl. congruence.
        * left. exists b. by rewrite lookup_delete_ne.
      + right. exists u, st. rewrite lookup_insert_ne; [done|]. congruence. }
  assert (∀ j, known s' j ↔ known s j) as Hk by (intros j; unfold known; by rewrite Ho).
  split; cbn [cs_asm cs_mu cs_stops cs_failed s']; simpl.
  - apply Hok.
  - intros b j [_ Hb]%lookup_delete_Some. by apply (ck_server _ Hok).
  - intros j Hj%Ho. by apply (ck_own _ Hok).
  - intros j k Hj%Ho Hk'%Ho. by apply (ck_ports _ Hok).
  - intros u st [[<- <-]|[Hne Hu]]%lookup_insert_Some; simpl.
    + split.
      * intros b [Hb1 Hb2]%lookup_delete_Some. by rewrite (Hone _ Hb2) in Hb1.
      * intros v sv [[<- _]|[_ Hv]]%lookup_insert_Some E; [done|].
        destruct (ck_stopped _ Hok _ _ Hv) as [Hx _]. destruct (Hx a). by rewrite E.
    + destruct (ck_stopped _ Hok _ _ Hu) as [H1 H2]. split; [by intros b [_ Hb]%lookup_delete_Some; eapply H1|].
      intros v sv [[<- <-]|[_ Hv]]%lookup_insert_Some E; [|by eapply H2]. destruct (H1 a). by rewrite <- E.
  - done.
  - intros p b Hp. destruct (ck_alloc _ Hok _ _ Hp) as [(j & Hj & E)|(m & Hm & _)]; [left; exists j; by rewrite Ho|congruence].
  - intros l p Hp. destruct (ck_listen _ Hok _ _ Hp) as [(j & Hj & E)|(b & Hb)]; [left; exists j; by rewrite Ho|congruence].
  - intros u j [[_ [=]]|[_ Hu]]%lookup_insert_Some. by apply (ck_closed _ Hok u).
  - apply Hok.
  - intros j Hj%Hk. by apply (ck_fresh _ Hok).
  - intros j k Hj%Hk Hk'%Hk. by apply (ck_unique _ Hok).
  - apply Hok.
Qed.

(** *** Stopping goes on *)

Lemma shutdown_step t i r w' :
  cs_stops s !! t = Some (StShutdown i) → in_net (Server_Shutdown (Server i) (Listener i)) w = Ret r w' →
  casm_ok (mkCasm w' (cs_mu s) (<[t := StForce i (bool_decide (is_Some r))]> (cs_stops s)) (cs_failed s)).
Proof.
  intros Ht E. destruct (in_net_Ret _ _ _ _ _ (Server_Shutdown_spec _ _ _) E) as (n' & -> & Hl & Hh & En).
  eapply stop_step; [exact Ht|try done; simpl; try done..]; [naive_solver|].
  intros srv Hne. by rewrite Hh, lookup_insert_ne.
Qed.

Lemma force_step t i late w' :
  cs_stops s !! t = Some (StForce i late) →
  (if late : bool then in_net (Server_Close (Server i) (Listener i)) else mret ()) w = Ret () w' →
  casm_ok (mkCasm w' (cs_mu s) (<[t := StListener i]> (cs_stops s)) (cs_failed s)).
Proof.
  intros Ht E. destruct late.
  - destruct (in_net_Ret _ _ _ _ _ (Server_Close_spec _ _ _) E) as (n' & -> & Hl & Hh & En).
    eapply stop_step; [exact Ht|try done; simpl; try done..]; [naive_solver|].
    intros srv Hne. by rewrite Hh, lookup_insert_ne.
  - injection E as <-. eapply stop_step; [exact Ht|try done..]. by right.
Qed.

Lemma close_step t i r w' :
  cs_stops s !! t = Some (StListener i) → in_net (Listener_Close (Listener i)) w = Ret r w' →
  casm_ok (mkCasm w' (cs_mu s) (<[t := StRelease i]> (cs_stops s)) (cs_failed s)).
Proof.
  intros Ht E. destruct (in_net_Ret _ _ _ _ _ (Listener_Close_spec _ _) E) as (n' & -> & ->).
  eapply stop_step; [exact Ht|done..|by left|done].
Qed.

Lemma done_step t i w' :
  cs_stops s !! t = Some (StRelease i) → in_pm (Release (Port i)) w = Ret () w' →
  casm_ok (mkCasm w' (cs_mu s) (delete t (cs_stops s)) (cs_failed s)).
Proof.
  intros Ht E. destruct (in_pm_Ret _ _ _ _ _ (Release_spec _ _ (ck_pm _ Hok)) E) as (pm' & -> & Hpm & _ & Hal & _).
  destruct (ck_stopped _ Hok _ _ Ht) as [H1 H2].
  eapply (release_step _ _ _ i); try done; [right; eauto|by apply (ck_closed _ Hok t)|apply delete_subseteq|..].
  - intros u st Hu Hne. rewrite lookup_delete_ne; [done|]. intros <-. rewrite Ht in Hu. by injection Hu as <-.
  - intros u st [Hne Hu]%lookup_delete_Some Ei. by apply Hne, eq_sym, (H2 u st).
Qed.

(** *** The goroutine of a server *)

(** A server that is shut down is not listed. *)
Lemma shut_unlisted a i : httpServers (net w) !! Server i = Some SrvShutdown → servers w !! a ≠ Some i.
Proof. intros Hs Ha. by destruct (ck_server _ Hok _ _ Ha) as (_ & ? & _). Qed.

Lemma serve_begin_step ptr w' :
  serve_begin ptr w = Ret () w' → casm_ok (mkCasm w' (cs_mu s) (cs_stops s) (cs_failed s)).
Proof.
  unfold serve_begin. intros E. apply bind_Ret in E as (v & w1 & [= <- <-] & E).
  destruct (goroutines w !! ptr) as [i|] eqn:Ei; [|injection E as <-; by destruct s].
  assert (known s i) as Hi by (right; left; eauto).
  assert (∀ st, st ≠ SrvShutdown → ∀ w', w' = set_net (set_httpServers (<[Server i := st]> (httpServers (net w)))
    (net w)) w → casm_ok (mkCasm w' (cs_mu s) (cs_stops s) (cs_failed s))) as Hserve.
  { intros st Hst w2 ->. eapply (net_step _ _ _ i); simpl; try done; [by left|..]; intros.
    - rewrite lookup_insert_eq. congruence.
    - by rewrite lookup_insert_ne.
    - by left.
    - eauto.
    - destruct (ck_failed _ Hok g f) as [? ?]; [done|]. split; [right; right; eauto|done].
    - by apply (ck_closed _ Hok t). }
  destruct (httpServers (net w) !! Server i) as [[]|] eqn:Es; 
    try (unfold in_net, zoom, modify in E; injection E as <-; by apply (Hserve SrvServing)).
  apply bind_Ret in E as (v & w2 & E2 & [= <-]).
  destruct (in_net_Ret _ _ _ _ _ (Listener_Close_spec _ _) E2) as (n' & -> & ->).
  eapply (net_step _ _ _ i); simpl; try done; [apply delete_subseteq|by right|..]; intros.
  - by destruct (shut_unlisted a i Es).
  - by destruct (shut_unlisted a i Es).
  - eauto.
  - destruct (ck_failed _ Hok g f) as [? ?]; [done|]. split; [right; right; eauto|].
    by rewrite lookup_delete_None; auto.
  - apply lookup_delete_None. right. by apply (ck_closed _ Hok t).
Qed.

Lemma serve_return_step ptr r w' :
  serve_return ptr w = Ret r w' →
  casm_ok (mkCasm w' (cs_mu s) (cs_stops s)
    (match r with Some i => <[ptr := FClose i]> (cs_failed s) | None => cs_failed s end)).
Proof.
  unfold serve_return. intros E. apply bind_Ret in E as (v & w1 & [= <- <-] & E).
  destruct (goroutines w !! ptr) as [i|] eqn:Ei; [|injection E as <- <-; by destruct s].
  assert (known s i) as Hi by (right; left; eauto).
  apply bind_Ret in E as (v & w2 & E2 & E).
  destruct (in_net_Ret _ _ _ _ _ (Listener_Close_spec _ _) E2) as (n' & -> & ->).
  injection E as <- <-.
  assert (∀ l, listeners (net w) !! l = None → delete (Listener i) (listeners (net w)) !! l = None) as Hnone.
  { intros l Hl. apply lookup_delete_None. by right. }
  assert (∀ a, servers w !! a = Some i → httpServers (net w) !! Server i ≠ Some SrvShutdown) as Hst
    by (intros a Ha Hs; by eapply shut_unlisted).
  assert (httpServers (net w) !! Server i = Some SrvShutdown ∨
    match httpServers (net w) !! Server i with Some SrvShutdown => None | _ => Some i end = Some i) as [Es|Es]
    by (destruct (httpServers (net w) !! Server i) as [[]|]; auto).
  - rewrite Es. eapply (net_step _ _ _ i); simpl; try done; [apply delete_subseteq|by right|..]; intros.
    + by destruct (Hst a).
    + eauto.
    + destruct (ck_failed _ Hok g f) as [? ?]; [done|]. split; [right; right; eauto|auto].
    + by apply Hnone, (ck_closed _ Hok t).
  - rewrite Es. assert (<[ptr := FClose i]> (cs_failed s) !! ptr = Some (FClose i)) as Hnew by apply lookup_insert_eq.
    eapply (net_step _ _ _ i); simpl; try done; [apply delete_subseteq|by right|..]; intros.
    + right. eauto.
    + destruct (decide (g = ptr)) as [->|Hne].
      * exists ptr, (FClose i). split; [done|]. destruct (ck_failed _ Hok ptr f) as [Hp _]; [done|].
        pose proof (ck_goroutine _ Hok _ _ Ei) as Hpi.
        apply (ck_unique _ Hok); [done|right; right; eauto|left; simpl; congruence].
      * exists g, f. by rewrite lookup_insert_ne.
    + apply lookup_insert_Some in H as [[<- <-]|[_ Hg]].
      * split; [done|]. split; [by apply (ck_goroutine _ Hok)|]. apply lookup_delete_eq.
      * destruct (ck_failed _ Hok g f) as [? ?]; [done|]. split; [right; right; eauto|auto].
    + by apply Hnone, (ck_closed _ Hok t).
Qed.

Lemma fail_close_step g i r w' :
  cs_failed s !! g = Some (FClose i) → in_net (Listener_Close (Listener i)) w = Ret r w' →
  casm_ok (mkCasm w' (cs_mu s) (cs_stops s) (<[g := FLock i]> (cs_failed s))).
Proof.
  intros Hg E. destruct (in_net_Ret _ _ _ _ _ (Listener_Close_spec _ _) E) as (n' & -> & ->).
  destruct (ck_failed _ Hok _ _ Hg) as [Hp Hnone]. simpl in Hp, Hnone.
  rewrite (delete_id (listeners (net w)) (Listener i)) by done.
  assert (set_net (set_listeners (listeners (net w)) (net w)) w = w) as -> by (by destruct w as [? ? [] ?]).
  eapply (net_step _ _ _ i); simpl; try done; [right; right; eauto|by left|..].
  - intros a Ha. by destruct (ck_server _ Hok _ _ Ha) as (_ & ? & _).
  - by left.
  - intros g' f a Hf _. destruct (decide (g' = g)) as [->|Hne].
    + exists g, (FLock i). rewrite lookup_insert_eq. split; [done|]. rewrite Hg in Hf. by injection Hf as <-.
    + exists g', f. by rewrite lookup_insert_ne.
  - intros g' f [[<- <-]|[_ Hf]]%lookup_insert_Some; [split; [right; right; eauto|done]|].
    destruct (ck_failed _ Hok _ _ Hf). split; [right; right; eauto|done].
  - apply (ck_closed _ Hok).
Qed.

Lemma fail_cleanup_step g i w' :
  cs_mu s = None → cs_failed s !! g = Some (FLock i) → fail_cleanup i w = Ret () w' →
  casm_ok (mkCasm w' None (cs_stops s) (delete g (cs_failed s))).
Proof.
  intros Emu Hg E. rewrite <- Emu. destruct (ck_failed _ Hok _ _ Hg) as [Hp Hnone]. simpl in Hp, Hnone.
  assert (known s i) as Hi by (right; right; eauto).
  assert (∀ h f, cs_failed s !! h = Some f → fail_info f ≠ i → delete g (cs_failed s) !! h = Some f) as Hf1.
  { intros h f Hh Hne. rewrite lookup_delete_ne; [done|]. intros <-. rewrite Hg in Hh. by injection Hh as <-. }
  unfold fail_cleanup in E. apply bind_Ret in E as (v & w1 & [= <- <-] & E).
  assert ((∀ a, servers w !! a ≠ Some i) → w' = w → casm_ok (mkCasm w' (cs_mu s) (cs_stops s) (delete g (cs_failed s)))) as Hskip.
  { intros Hun ->. eapply (net_step _ _ _ i); simpl; try done; [by left|..].
    - intros a Ha. by destruct (Hun a).
    - by left.
    - intros h f a Hf Ha. exists h, f. split; [|done]. apply Hf1; [done|]. intros Ei. rewrite Ei in Ha. by destruct (Hun a).
    - intros h f [_ Hh]%lookup_delete_Some. destruct (ck_failed _ Hok _ _ Hh). split; [right; right; eauto|done].
    - apply (ck_closed _ Hok). }
  destruct (servers w !! AgentID i) as [j|] eqn:Ej; [destruct (decide _) as [Hpe|Hpe]|].
  2,3: injection E as <-; apply Hskip; [|done]; intros a Ha; destruct (ck_server _ Hok _ _ Ha) as [<- _]; congruence.
  assert (j = i) as -> by (apply (ck_unique _ Hok); [by eapply listed_known|done|by left]).
  apply bind_Ret in E as (v & w2 & [= <- <-] & E).
  destruct (in_pm_Ret _ (set_servers _ w) _ _ _ (Release_spec _ _ (ck_pm _ Hok)) E) as (pm' & -> & Hpm & _ & Hal & _).
  assert (∀ a, servers w !! a = Some i → a = AgentID i) as Hone.
  { intros a Ha. by destruct (ck_server _ Hok _ _ Ha) as [<- _]. }
  eapply (release_step _ _ _ i); simpl; try done; try apply delete_subseteq; [left; eauto|..].
  - intros a k Ha Hne. rewrite lookup_delete_ne; [done|]. intros <-. congruence.
  - intros a [Hne Ha]%lookup_delete_Some. by rewrite (Hone _ Ha) in Hne.
  - intros t st Ht Est. destruct (ck_stopped _ Hok _ _ Ht) as [Hx _]. apply (Hx (AgentID i)). by rewrite Est.
Qed.

End Steps.

Lemma castep_ok s s' : casm_ok s → castep s s' → casm_ok s'.
Proof.
  intros Hok Hs. destruct Hs.
  - by apply (start_step _ Hok).
  - by apply (no_port_step _ Hok _ (SaAllocate 0 a)).
  - by apply (allocate_step _ Hok).
  - by apply (listen_step _ Hok).
  - by eapply (give_back_step _ Hok).
  - by eapply (install_step _ Hok).
  - by apply (stop_begin_step _ Hok).
  - by apply (shutdown_step _ Hok).
  - by eapply (force_step _ Hok).
  - by eapply (close_step _ Hok).
  - by eapply (done_step _ Hok).
  - by eapply (serve_begin_step _ Hok).
  - by apply (serve_return_step _ Hok).
  - by eapply (fail_close_step _ Hok).
  - by eapply (fail_cleanup_step _ Hok).
Qed.

Lemma casm_reachable_ok s s' : casm_ok s → rtc castep s s' → casm_ok s'.
Proof. intros Hok Hr. eapply rtc_invariant; [exact Hr|exact Hok|]. intros ???. by apply castep_ok. Qed.

(** ** Quiescence *)

(** No goroutine is inside an operation. *)
Definition quiet (s : casm) : Prop := cs_mu s = None ∧ cs_stops s = ∅ ∧ cs_failed s = ∅.

Lemma quiet_owns s i : quiet s → owns s i ↔ ∃ a, servers (cs_asm s) !! a = Some i.
Proof.
  intros (_ & Est & _). unfold owns. rewrite Est. setoid_rewrite lookup_empty. naive_solver.
Qed.

Lemma quiet_known s i : quiet s → known s i ↔ live (cs_asm s) i.
Proof.
  intros Hq. unfold known, live. rewrite quiet_owns by done. destruct Hq as (_ & _ & Ef).
  rewrite Ef. setoid_rewrite lookup_empty. naive_solver.
Qed.

(** When everything has ended the manager is in the state the sequential
    operations keep. *)
Lemma quiet_ok s : casm_ok s → quiet s → asm_ok (cs_asm s).
Proof.
  intros Hok Hq. pose proof Hq as (Emu & Est & Ef). split.
  - apply Hok.
  - intros a i Hi. destruct (ck_server _ Hok _ _ Hi) as (H1 & H2 & H3). split; [done|].
    split; [rewrite <- H1; apply (ck_own _ Hok); left; eauto|]. split; [|done].
    destruct H3 as [?|(g & f & Hf & _)]; [done|]. by rewrite Ef, lookup_empty in Hf.
  - intros p a Hp. destruct (ck_alloc _ Hok _ _ Hp) as [(i & Hi & <-)|(m & Hm & _)]; [|congruence].
    pose proof (ck_own _ Hok _ Hi) as Ho. apply quiet_owns in Hi as [b Hi]; [|done].
    destruct (ck_server _ Hok _ _ Hi) as (H1 & _). exists i. split; [|done]. congruence.
  - intros l p Hp. destruct (ck_listen _ Hok _ _ Hp) as [(i & Hi & <- & <-)|(b & Hb)]; [|congruence].
    apply quiet_owns in Hi as [b Hi]; eauto.
  - intros i Hi. apply (ck_fresh _ Hok). by apply quiet_known.
  - intros i j Hi Hj. apply (ck_unique _ Hok); by apply quiet_known.
  - apply Hok.
Qed.

Lemma casm_ok_new w : asm_ok w → casm_ok (mkCasm w None ∅ ∅).
Proof.
  intros Hok. assert (quiet (mkCasm w None ∅ ∅)) as Hq by done.
  pose proof (λ i, quiet_owns _ i Hq) as Ho. pose proof (λ i, quiet_known _ i Hq) as Hk. cbn [cs_asm] in *.
  split; cbn [cs_asm cs_mu cs_stops cs_failed]; try (setoid_rewrite lookup_empty; done); try done.
  - apply Hok.
  - intros a i Hi. destruct (ao_server _ Hok _ _ Hi) as (?&?&?&?). auto.
  - intros i [a Hi]%Ho. by destruct (ao_server _ Hok _ _ Hi) as (<-&?&_).
  - intros i j [a Hi]%Ho [b Hj]%Ho E. destruct (ao_server _ Hok _ _ Hi) as (_&Hp&_).
    destruct (ao_server _ Hok _ _ Hj) as (_&Hq'&_). congruence.
  - intros p a Hp. left. destruct (ao_alloc _ Hok _ _ Hp) as (i & Hi & E). exists i. split; [apply Ho; eauto|done].
  - intros l p Hp. left. destruct (ao_listen _ Hok _ _ Hp) as (a & i & Hi & E). exists i. split; [apply Ho; eauto|done].
  - intros i Hi%Hk. by apply (ao_fresh _ Hok).
  - intros i j Hi%Hk Hj%Hk. by apply (ao_unique _ Hok).
  - apply Hok.
Qed.

(** ** Every operation that has begun can end *)

Lemma in_net_runs {A} (m : M Net A) w Q : wp m (net w) Q → ∃ r w', in_net m w = Ret r w'.
Proof. intros (r & n' & E & _)%wp_run. unfold in_net, zoom. rewrite E. eauto. Qed.

Lemma in_pm_runs {A} (m : M PortManager A) w Q : wp m (portManager w) Q → ∃ r w', in_pm m w = Ret r w'.
Proof. intros (r & n' & E & _)%wp_run. unfold in_pm, zoom. rewrite E. eauto. Qed.

Section Endings.
Context (mu : option starting) (stops : gmap nat stopping) (failed : gmap nat failing) (t : nat).

(** *** A goroutine that stops a server never waits for another one *)

Definition stop_can_end (st : stopping) : Prop := ∀ w,
  casm_ok (mkCasm w mu (<[t := st]> stops) failed) →
  ∃ w', rtc castep (mkCasm w mu (<[t := st]> stops) failed) (mkCasm w' mu (delete t stops) failed).

Lemma stop_goes_on st st' w w1 :
  casm_ok (mkCasm w mu (<[t := st]> stops) failed) →
  castep (mkCasm w mu (<[t := st]> stops) failed) (mkCasm w1 mu (<[t := st']> (<[t := st]> stops)) failed) →
  stop_can_end st' →
  ∃ w', rtc castep (mkCasm w mu (<[t := st]> stops) failed) (mkCasm w' mu (delete t stops) failed).
Proof.
  intros Hok Hs Hend. pose proof (castep_ok _ _ Hok Hs) as Hok1. rewrite insert_insert_eq in Hs, Hok1.
  destruct (Hend _ Hok1) as [w' Hr]. exists w'. by eapply rtc_l.
Qed.

Lemma release_ends i : stop_can_end (StRelease i).
Proof.
  intros w Hok. destruct (in_pm_runs _ w _ (Release_spec (Port i) _ (ck_pm _ Hok))) as ([] & w' & E).
  exists w'. apply rtc_once. rewrite <- (delete_insert_eq stops t (StRelease i)).
  eapply ca_done; [apply lookup_insert_eq|done].
Qed.

Lemma close_ends i : stop_can_end (StListener i).
Proof.
  intros w Hok. destruct (in_net_runs _ w _ (Listener_Close_spec (Listener i) _)) as (r & w1 & E).
  eapply stop_goes_on; [done| |apply (release_ends i)]. eapply ca_close; [apply lookup_insert_eq|done].
Qed.

Lemma force_ends i late : stop_can_end (StForce i late).
Proof.
  intros w Hok.
  assert (∃ w1, (if late then in_net (Server_Close (Server i) (Listener i)) else mret ()) w = Ret () w1) as [w1 E].
  { destruct late; [|by eexists].
    destruct (in_net_runs _ w _ (Server_Close_spec (Server i) (Listener i) _)) as ([] & w1 & E). eauto. }
  eapply stop_goes_on; [done| |apply (close_ends i)]. eapply ca_force; [apply lookup_insert_eq|done].
Qed.

Lemma shutdown_ends i : stop_can_end (StShutdown i).
Proof.
  intros w Hok.
  destruct (in_net_runs _ w _ (Server_Shutdown_spec (Server i) (Listener i) _)) as (r & w1 & E).
  eapply stop_goes_on; [done| |apply (force_ends i (bool_decide (is_Some r)))].
  eapply ca_shutdown; [apply lookup_insert_eq|done].
Qed.

(** *** Neither does the one that holds the lock *)

Definition start_can_end (m : starting) : Prop := ∀ w,
  casm_ok (mkCasm w (Some m) stops failed) →
  ∃ w', rtc castep (mkCasm w (Some m) stops failed) (mkCasm w' None stops failed).

Lemma start_goes_on m m' w w1 :
  casm_ok (mkCasm w (Some m) stops failed) →
  castep (mkCasm w (Some m) stops failed) (mkCasm w1 (Some m') stops failed) → start_can_end m' →
  ∃ w', rtc castep (mkCasm w (Some m) stops failed) (mkCasm w' None stops failed).
Proof.
  intros Hok Hs Hend. destruct (Hend _ (castep_ok _ _ Hok Hs)) as [w' Hr]. exists w'. by eapply rtc_l.
Qed.

Lemma install_ends a p l : start_can_end (SaInstall a p l).
Proof.
  intros w _. assert (wp (install_server a p l) w (λ _ _, True)) as ([] & w' & E & _)%wp_run
    by (unfold install_server, in_net, new_http_server; by wp_steps).
  exists w'. by apply rtc_once, ca_install.
Qed.

Lemma give_back_ends n a p : start_can_end (SaAllocate n a) → start_can_end (SaRelease n a p).
Proof.
  intros IH w Hok. destruct (in_pm_runs _ w _ (Release_spec p _ (ck_pm _ Hok))) as ([] & w1 & E).
  eapply start_goes_on; [done|by apply ca_release|done].
Qed.

Lemma listen_ends n a p : start_can_end (SaAllocate n a) → start_can_end (SaListen n a p).
Proof.
  intros IH w Hok. destruct (in_net_runs _ w _ (net_Listen_spec p _)) as (r & w1 & E).
  eapply start_goes_on; [done|by apply ca_listen|].
  destruct r; simpl; [apply install_ends|exact (give_back_ends _ _ _ IH)].
Qed.

Lemma allocate_ends n a : start_can_end (SaAllocate n a).
Proof.
  induction n as [|n IH]; intros w Hok; [eexists; apply rtc_once, ca_give_up|].
  destruct (in_pm_runs _ w _ (Allocate_spec a _ (ck_pm _ Hok))) as ([p|e] & w1 & E).
  - eapply start_goes_on; [done|by apply (ca_allocate _ _ _ _ _ _ (Ok p))|exact (listen_ends _ _ _ IH)].
  - eexists. by apply rtc_once, (ca_allocate _ _ _ _ _ _ (Err e)).
Qed.

(** *** Nor the goroutine of a failed server, once the lock is free *)

Lemma fail_cleanup_returns i w : pm_ok (portManager w) → ∃ w', fail_cleanup i w = Ret () w'.
Proof.
  intros Hpm. unfold fail_cleanup, mbind, M_bind, get, modify.
  destruct (servers w !! AgentID i) as [j|]; [|by eexists]. case_decide; [|by eexists].
  destruct (in_pm_runs (Release (Port i)) (set_servers (delete (AgentID i) (servers w)) w) _
              (Release_spec _ _ Hpm)) as ([] & w' & E). eauto.
Qed.

Lemma lock_ends i w : casm_ok (mkCasm w None stops (<[t := FLock i]> failed)) →
  ∃ w', rtc castep (mkCasm w None stops (<[t := FLock i]> failed)) (mkCasm w' None stops (delete t failed)).
Proof.
  intros Hok. destruct (fail_cleanup_returns i w (ck_pm _ Hok)) as [w' E]. exists w'.
  apply rtc_once. rewrite <- (delete_insert_eq failed t (FLock i)). eapply ca_fail; [apply lookup_insert_eq|done].
Qed.

Lemma fail_ends f w : casm_ok (mkCasm w None stops (<[t := f]> failed)) →
  ∃ w', rtc castep (mkCasm w None stops (<[t := f]> failed)) (mkCasm w' None stops (delete t failed)).
Proof.
  destruct f as [i|i]; [|apply lock_ends]. intros Hok.
  destruct (in_net_runs _ w _ (Listener_Close_spec (Listener i) _)) as (r & w1 & E).
  assert (castep (mkCasm w None stops (<[t := FClose i]> failed))
                 (mkCasm w1 None stops (<[t := FLock i]> failed))) as Hs.
  { rewrite <- (insert_insert_eq failed t (FLock i) (FClose i)). eapply ca_fail_close; [apply lookup_insert_eq|done]. }
  destruct (lock_ends i w1 (castep_ok _ _ Hok Hs)) as [w' Hr]. exists w'. by eapply rtc_l.
Qed.
End Endings.

(** Whatever has begun, there is a way to its end. *)
Lemma all_end s : casm_ok s → ∃ s', rtc castep s s' ∧ quiet s'.
Proof.
  destruct s as [w mu stops failed]. intros Hok.
  assert (∃ w', rtc castep (mkCasm w mu stops failed) (mkCasm w' None stops failed)) as [w1 Hr1].
  { destruct mu as [m|]; [|by exists w]. revert w Hok. change (start_can_end stops failed m).
    destruct m; eauto using allocate_ends, listen_ends, give_back_ends, install_ends. }
  pose proof (casm_reachable_ok _ _ Hok Hr1) as Hok1.
  assert (∃ w', rtc castep (mkCasm w1 None stops failed) (mkCasm w' None ∅ failed)) as [w2 Hr2].
  { clear Hr1 Hok. revert w1 Hok1. induction stops as [|t st stops Ht IH] using map_ind; intros w1 Hok1; [by exists w1|].
    assert (stop_can_end None stops failed t st) as Hend
      by (destruct st; eauto using release_ends, close_ends, force_ends, shutdown_ends).
    destruct (Hend _ Hok1) as [w' Hr]. rewrite delete_id in Hr by done.
    destruct (IH w' (casm_reachable_ok _ _ Hok1 Hr)) as [w2 Hr2]. exists w2. by etrans. }
  pose proof (casm_reachable_ok _ _ Hok1 Hr2) as Hok2.
  assert (∃ w', rtc castep (mkCasm w2 None ∅ failed) (mkCasm w' None ∅ ∅)) as [w3 Hr3].
  { clear Hr1 Hr2 Hok Hok1. revert w2 Hok2. induction failed as [|t f failed Ht IH] using map_ind; intros w2 Hok2; [by exists w2|].
    destruct (fail_ends ∅ failed t f w2 Hok2) as [w' Hr]. rewrite delete_id in Hr by done.
    destruct (IH w' (casm_reachable_ok _ _ Hok2 Hr)) as [w3 Hr3]. exists w3. by etrans. }
  exists (mkCasm w3 None ∅ ∅). split; [|done]. etrans; [exact Hr1|]. etrans; [exact Hr2|exact Hr3].
Qed.

(** ** The sequential operations are runs *)

Lemma bind_attempts_run n lastErr a w r w' stops failed :
  bind_attempts n lastErr a w = Ret r w' →
  rtc castep (mkCasm w (Some (SaAllocate n a)) stops failed) (mkCasm w' None stops failed).
Proof.
  revert lastErr w. induction n as [|n IH]; intros lastErr w E; cbn [bind_attempts] in E.
  { injection E as _ <-. apply rtc_once, ca_give_up. }
  apply bind_Ret in E as ([p|e] & w1 & E1 & E); pose proof (ca_allocate _ _ stops failed n _ _ E1) as Hs;
    (eapply rtc_l; [exact Hs|]); simpl; [|by injection E as _ <-].
  apply bind_Ret in E as ([l|e] & w2 & E2 & E); pose proof (ca_listen _ _ stops failed n a _ _ E2) as Hs2;
    (eapply rtc_l; [exact Hs2|]); simpl; apply bind_Ret in E as ([] & w3 & E3 & E).
  - injection E as _ <-. by apply rtc_once, ca_install.
  - eapply rtc_l; [by apply ca_release|]. by eapply IH.
Qed.

Lemma StartAgentServer_run a w r w' stops failed :
  StartAgentServer a w = Ret r w' →
  rtc castep (mkCasm w None stops failed) (mkCasm w' None stops failed).
Proof.
  unfold StartAgentServer. intros E. apply bind_Ret in E as (v & w1 & [= <- <-] & E).
  destruct (servers w !! a) eqn:Ea; [by injection E as _ <-|].
  eapply rtc_l; [by apply ca_start|]. by eapply bind_attempts_run.
Qed.

Lemma StopAgentServer_run a w r w' stops failed t :
  stops !! t = None → StopAgentServer a w = Ret r w' →
  rtc castep (mkCasm w None stops failed) (mkCasm w' None stops failed).
Proof.
  intros Ht E. unfold StopAgentServer in E. apply bind_Ret in E as (v & w1 & [= <- <-] & E).
  destruct (servers w !! a) as [i|] eqn:Ea; [|by injection E as _ <-].
  apply bind_Ret in E as (v & w1 & [= <- <-] & E).
  eapply rtc_l; [exact (ca_stop _ _ failed _ _ t Ea Ht)|].
  apply bind_Ret in E as (v & w2 & E2 & E). unfold in_net, zoom in E2.
  destruct (stop_server i _) as [v' n2| |] eqn:Es; [|done..]. injection E2 as -> <-.
  unfold stop_server in Es. apply bind_Ret in Es as (late & n1 & E1 & Es).
  apply bind_Ret in Es as ([] & n3 & E3 & Es). apply bind_Ret in Es as (c & n4 & E4 & [= <- <-]).
  set (w0 := set_servers (delete a (servers w)) w) in *.
  eapply rtc_l; [eapply (ca_shutdown w0 (set_net n1 w0)); [apply lookup_insert_eq|unfold in_net, zoom; by rewrite E1]|].
  rewrite insert_insert_eq.
  eapply rtc_l; [eapply (ca_force _ (set_net n3 w0)); [apply lookup_insert_eq|]|].
  { destruct late; simpl; [unfold in_net, zoom; simpl; by rewrite E3|by injection E3 as <-]. }
  rewrite insert_insert_eq.
  eapply rtc_l; [eapply (ca_close _ (set_net n4 w0)); [apply lookup_insert_eq|unfold in_net, zoom; simpl; by rewrite E4]|].
  rewrite insert_insert_eq. apply bind_Ret in E as ([] & w5 & E5 & [= <- <-]).
  apply rtc_once. rewrite <- (delete_insert_id stops t (StRelease i)) at 2 by done.
  eapply ca_done; [apply lookup_insert_eq|exact E5].
Qed.

Lemma serve_end_run ptr w w' stops failed :
  failed !! ptr = None → serve_end ptr w = Ret () w' →
  rtc castep (mkCasm w None stops failed) (mkCasm w' None stops failed).
Proof.
  intros Hp E. unfold serve_end in E. apply bind_Ret in E as (v & w1 & [= <- <-] & E).
  destruct (goroutines w !! ptr) as [i|] eqn:Ei; [|by injection E as <-].
  apply bind_Ret in E as (c & w1 & E1 & E). apply bind_Ret in E as ([] & w2 & [= <-] & E).
  set (r := match httpServers (net w) !! Server i with Some SrvShutdown => None | _ => Some i end).
  assert (serve_return ptr w = Ret r (set_goroutines (delete ptr (goroutines w1)) w1)) as Er.
  { unfold serve_return, mbind, M_bind, get. by rewrite Ei, E1. }
  eapply rtc_l; [exact (ca_serve_return _ _ None stops failed _ _ Er)|].
  assert (httpServers (net w) !! Server i = Some SrvShutdown ∨ r = Some i) as [Es|Es]
    by (unfold r; destruct (httpServers (net w) !! Server i) as [[]|]; auto).
  { unfold r. rewrite Es in E |- *. by injection E as <-. }
  assert ((_ ← in_net (Listener_Close (Listener i)); fail_cleanup i)
            (set_goroutines (delete ptr (goroutines w1)) w1) = Ret () w') as E'.
  { unfold r in Es. by destruct (httpServers (net w) !! Server i) as [[]|]. }
  rewrite Es. apply bind_Ret in E' as (c' & w3 & E3 & E4).
  eapply rtc_l; [eapply ca_fail_close; [apply lookup_insert_eq|exact E3]|]. rewrite insert_insert_eq.
  apply rtc_once. rewrite <- (delete_insert_id failed ptr (FLock i)) at 2 by done.
  eapply ca_fail; [apply lookup_insert_eq|exact E4].
Qed.

(** The range of ports is never changed. *)
Lemma castep_range s s' :
  casm_ok s → castep s s' → range_of (portManager (cs_asm s')) = range_of (portManager (cs_asm s)).
Proof.
  assert (∀ {A} (m : M Net A) w r w', in_net m w = Ret r w' → portManager w' = portManager w) as Hnet.
  { intros A m w r w' E. unfold in_net, zoom in E. destruct (m (net w)); [|done..]. by injection E as _ <-. }
  intros Hok Hs. destruct Hs; simpl; try done; try by erewrite Hnet.
  - destruct (in_pm_Ret _ _ _ _ _ (Allocate_spec a _ (ck_pm _ Hok)) H) as (pm' & -> & _ & Hv).
    destruct r; [by destruct Hv as (_&_&_&_&?)|by destruct Hv as (_ & -> & _)].
  - by destruct (in_pm_Ret _ _ _ _ _ (Release_spec p _ (ck_pm _ Hok)) H) as (pm' & -> & _ & ? & _).
  - unfold install_server in H. apply bind_Ret in H as (srv & w1 & H1%Hnet & H). rewrite <- H1.
    apply bind_Ret in H as (v & w2 & [= <- <-] & H). apply bind_Ret in H as (u & w3 & H3%Hnet & H).
    rewrite <- H3. apply bind_Ret in H as (u' & w4 & [= _ <-] & H). by injection H as <-.
  - destruct late; [by erewrite Hnet|by injection H0 as <-].
  - by destruct (in_pm_Ret _ _ _ _ _ (Release_spec (Port i) _ (ck_pm _ Hok)) H0) as (pm' & -> & _ & ? & _).
  - unfold serve_begin in H. apply bind_Ret in H as (v & w1 & [= <- <-] & H).
    destruct (goroutines w !! ptr) as [i|]; [|by injection H as <-].
    destruct (httpServers (net w) !! Server i) as [[]|]; try (by erewrite Hnet).
    apply bind_Ret in H as (u & w2 & H2%Hnet & [= <-]). by rewrite <- H2.
  - unfold serve_return in H. apply bind_Ret in H as (v & w1 & [= <- <-] & H).
    destruct (goroutines w !! ptr) as [i|]; [|by injection H as _ <-].
    apply bind_Ret in H as (u & w2 & H2%Hnet & [= _ <-]). by rewrite <- H2.
  - unfold fail_cleanup in H0. apply bind_Ret in H0 as (v & w1 & [= <- <-] & H0).
    destruct (servers w !! AgentID i); [case_decide|]; [|by injection H0 as <-..].
    apply bind_Ret in H0 as (u & w2 & [= _ <-] & H0).
    by destruct (in_pm_Ret _ (set_servers _ w) _ _ _ (Release_spec (Port i) _ (ck_pm _ Hok)) H0)
      as (pm' & -> & _ & ? & _).
Qed.

Lemma casm_reachable_range s s' : casm_ok s → rtc castep s s' →
  casm_ok s' ∧ range_of (portManager (cs_asm s')) = range_of (portManager (cs_asm s)).
Proof.
  intros Hok Hr. apply (rtc_invariant castep (λ s', casm_ok s' ∧
    range_of (portManager (cs_asm s')) = range_of (portManager (cs_asm s))) s s' Hr); [done|].
  intros s1 s2 [Hok1 E1] Hs. split; [by eapply castep_ok|]. rewrite <- E1. by apply castep_range.
Qed.

(** ** Properties *)

(** C7: starting, stopping and failing servers concurrently.  However the goroutines
    that stop servers (each as slow as it likes), the one that starts one and those
    that clean up failed servers interleave, every port of the range is free or has
    exactly one holder (a listed server, one being stopped, the one being started),
    so a server started while its agent's last one is still shutting down gets
    another port; what listens is held; every operation that has begun can be run
    to its end; and when all have ended the manager is in the state the sequential
    operations keep, with no port or listener lost. *)
Theorem concurrent_agent_servers start end_ pm0 n0 s :
  NewPortManager start end_ = Ret (Ok pm0) () → listeners n0 = ∅ →
  rtc castep (mkCasm (NewAgentServerManager pm0 n0) None ∅ ∅) s →
  let free p := p ∈ pool (portManager (cs_asm s)) in
  let starting p := ∃ m, cs_mu s = Some m ∧ start_port m = Some p in
  (∀ p, (start ≤ p ≤ end_)%Z ↔ free p ∨ (∃ i, owns s i ∧ Port i = p) ∨ starting p) ∧
  (∀ i j, owns s i → owns s j → Port i = Port j → i = j) ∧
  (∀ i, owns s i → ¬ free (Port i) ∧ ¬ starting (Port i)) ∧
  (∀ l p, listeners (net (cs_asm s)) !! l = Some p →
     (∃ i, owns s i ∧ Listener i = l ∧ Port i = p) ∨ starting p) ∧
  (∃ s', rtc castep s s' ∧ quiet s') ∧
  (quiet s → asm_ok (cs_asm s)).
Proof.
  intros Hnew Hn Hr free starting. pose proof (NewPortManager_Ok_inv _ _ _ Hnew) as (Hv & Hpm & Hs & He).
  assert (casm_ok (mkCasm (NewAgentServerManager pm0 n0) None ∅ ∅)) as Hok0.
  { apply casm_ok_new, asm_ok_new; [done| |done]. rewrite (NewPortManager_eq _ _ Hv) in Hnew. by injection Hnew as <-. }
  destruct (casm_reachable_range _ _ Hok0 Hr) as [Hok Hrange]. injection Hrange as Hrs Hre. rewrite Hs in Hrs. rewrite He in Hre.
  assert (∀ p, starting p → is_Some (alloc (cs_asm s) !! p)) as Hst.
  { intros p (m & Hm & Hp). destruct (ck_mu _ Hok _ Hm) as (_ & H & _). destruct (H _ Hp) as [Ha _]. eauto. }
  assert (∀ p, free p → alloc (cs_asm s) !! p = None) as Hfree by apply (pm_pool_unallocated _ (ck_pm _ Hok)).
  split_and!.
  - intros p. rewrite <- Hrs, <- Hre. rewrite <- (pm_port_in_range _ (ck_pm _ Hok)). apply or_iff_compat_l. split.
    + intros [a Ha]. by apply (ck_alloc _ Hok _ a).
    + intros [(i & Hi & <-)|Hp]; [|by apply Hst]. eexists. by apply (ck_own _ Hok).
  - apply (ck_ports _ Hok).
  - intros i Hi. pose proof (ck_own _ Hok _ Hi) as Ha. split.
    + intros Hf%Hfree. congruence.
    + intros (m & Hm & Hp). destruct (ck_mu _ Hok _ Hm) as (_ & H & _). destruct (H _ Hp) as [_ Hd]. by apply (Hd i).
  - intros l p Hp. destruct (ck_listen _ Hok _ _ Hp) as [?|[a Ha]]; [by left|right]. by exists (SaInstall a p l).
  - by apply all_end.
  - by apply quiet_ok.
Qed.

(** The steps are those of the operations: [StartAgentServer], [StopAgentServer]
    and the end of a [Serve] goroutine, each run without another goroutine coming
    in, are runs of the interleaved system. *)
Theorem agent_operations_are_runs w stops failed t ptr :
  stops !! t = None → failed !! ptr = None →
  (∀ a r w', StartAgentServer a w = Ret r w' →
     rtc castep (mkCasm w None stops failed) (mkCasm w' None stops failed)) ∧
  (∀ a r w', StopAgentServer a w = Ret r w' →
     rtc castep (mkCasm w None stops failed) (mkCasm w' None stops failed)) ∧
  (∀ w', serve_end ptr w = Ret () w' →
     rtc castep (mkCasm w None stops failed) (mkCasm w' None stops failed)).
Proof.
  intros Ht Hp. split_and!; intros; [by eapply StartAgentServer_run|by eapply StopAgentServer_run|by eapply serve_end_run].
Qed.

(** ** An agent that comes back while its server is still shutting down *)

Module Reconnection.
Definition ran {A} (m : M ASM A) (w : ASM) : ASM :=
  match m w with Ret _ w' | Panic _ w' | Block w' => w' end.
Definition w1 : ASM := ran (StartAgentServer "a") Demo.w0.
Definition old : AgentServerInfo := mkInfo 2 "a" 8101 1 0 0.
Definition w2 : ASM := set_servers (delete "a" (servers w1)) w1.
Definition w3 : ASM := ran (StartAgentServer "a") w2.
Definition new : AgentServerInfo := mkInfo 5 "a" 8102 4 3 0.
Definition s : casm := mkCasm w3 None {[0 := StShutdown old]} ∅.

Lemma start_of_old : StartAgentServer "a" Demo.w0 = Ret (Ok 8101%Z) w1.
Proof. vm_compute. reflexivity. Qed.
Lemma listed_old : servers w1 !! "a" = Some old.
Proof. vm_compute. reflexivity. Qed.
Lemma restarted : StartAgentServer "a" w2 = Ret (Ok 8102%Z) w3.
Proof. vm_compute. reflexivity. Qed.
Lemma listed_new : servers w3 !! "a" = Some new.
Proof. vm_compute. reflexivity. Qed.
Lemma reached : rtc castep (mkCasm Demo.w0 None ∅ ∅) s.
Proof.
  etrans; [exact (StartAgentServer_run _ _ _ _ _ _ start_of_old)|].
  eapply rtc_l; [exact (ca_stop _ _ _ _ _ 0 listed_old (lookup_empty _))|].
  exact (StartAgentServer_run _ _ _ _ _ _ restarted).
Qed.
End Reconnection.

Lemma concurrent_agent_servers_witness :
  owns Reconnection.s Reconnection.old ∧ owns Reconnection.s Reconnection.new ∧
  Port Reconnection.old ≠ Port Reconnection.new ∧
  ∃ s', rtc castep Reconnection.s s' ∧ quiet s'.
Proof.
  destruct (concurrent_agent_servers 8100 8103 Demo.pm0 (mkNet ∅ ∅ 0 0 Demo.env0) Reconnection.s)
    as (_ & Hports & _ & _ & Hend & _); [exact Demo.pm0_new|reflexivity|exact Reconnection.reached|].
  assert (owns Reconnection.s Reconnection.old) as Ho
    by (right; exists 0, (StShutdown Reconnection.old); split; reflexivity).
  assert (owns Reconnection.s Reconnection.new) as Hn by (left; exists "a"; exact Reconnection.listed_new).
  split; [exact Ho|]. split; [exact Hn|]. split; [|exact Hend].
  intros E. discriminate (Hports _ _ Ho Hn E).
Defined.

Lemma agent_operations_are_runs_witness :
  rtc castep (mkCasm Demo.w0 None ∅ ∅) (mkCasm Reconnection.w1 None ∅ ∅).
Proof.
  destruct (agent_operations_are_runs Demo.w0 ∅ ∅ 0 0) as (H & _); [reflexivity|reflexivity|].
  exact (H _ _ _ Reconnection.start_of_old).
Defined.
