(* ===== verification/Proto.v ===== *)
(** * The messages of the gRPC stream

    Models the generated types of [src/proto/proxy.pb.go]: a proto3 enum is
    open, so a message may carry a number the schema does not name. *)
From stdpp Require Import base strings gmap.
From Stdlib Require Import ZArith.
From S2P Require Import Prelude GoStd.

Inductive MessageType : Type :=
  | MessageType_UNKNOWN
  | MessageType_PING
  | MessageType_PONG
  | MessageType_REQUEST
  | MessageType_RESPONSE
  | MessageType_unnamed (n : Z).

#[export] Instance MessageType_eq_dec : EqDecision MessageType.
Proof. solve_decision. Defined.

Record ProxyMessage : Type := mkMsg {
  Id : string;
  Type_ : MessageType;
  Payload : bytes;
  Metadata : gmap string string;
}.

#[export] Instance ProxyMessage_eq_dec : EqDecision ProxyMessage.
Proof. solve_decision. Defined.

(** [m[k]] of a Go map: the zero value for a missing key. *)
Definition map_get (m : gmap string string) (k : string) : string := default "" (m !! k).
