(* ===== verification/ConnectionManager.v ===== *)
(** * ConnectionManager: the connected agents

    Models [src/internal/grpc/server/connection_manager.go] over any
    implementation of the [AgentServerManager] interface.  Connections are
    shared by reference (the handler of a stream keeps the pointer [Register]
    returned while the map may already point to a newer connection), so they
    live in a heap [conns] and the map [agents] holds addresses. *)
From stdpp Require Import base strings list gmap fin_maps.
From Stdlib Require Import ZArith Lia.
From S2P Require Import Prelude GoStd Proto ServerInterface.

(** ** The code *)

(** Durations and times are in nanoseconds. *)
Definition second : Z := 1000000000.
Definition minute : Z := 60 * second.

Definition sendChannelBuffer : nat := 100.
Definition staleConnectionTimeout : Z := 2 * minute.

Record AgentConnection : Type := mkConn {
  ID : string;
  Port : Z;                      (** 0 if no dedicated server *)
  Stream : nat;                  (** the gRPC stream, by identity *)
  SendCh : chan ProxyMessage;
  LastSeen : Z;
  ctx_done : bool;               (** [cancel] has been called *)
}.

Definition set_SendCh (c : chan ProxyMessage) (k : AgentConnection) : AgentConnection :=
  mkConn (ID k) (Port k) (Stream k) c (LastSeen k) (ctx_done k).
Definition set_LastSeen (t : Z) (k : AgentConnection) : AgentConnection :=
  mkConn (ID k) (Port k) (Stream k) (SendCh k) t (ctx_done k).
Definition set_ctx_done (k : AgentConnection) : AgentConnection :=
  mkConn (ID k) (Port k) (Stream k) (SendCh k) (LastSeen k) true.

Record ConnectionManager (S : Type) : Type := mkCM {
  agents : gmap string nat;
  conns : gmap nat AgentConnection;
  next_conn : nat;
  stopCh : chan unit;
  agentServerManager : option S;      (** [None] is Go's [nil] *)
}.
Arguments mkCM {S}.
Arguments agents {S}.
Arguments conns {S}.
Arguments next_conn {S}.
Arguments stopCh {S}.
Arguments agentServerManager {S}.

(** The cases of the [select] in [SendToAgent]; the runtime picks a ready one. *)
Inductive select_case : Type := CaseSend | CaseTimeout | CaseDone.

Section Code.
Context {S : Type} `{AgentServerOps S}.
Notation CM := (ConnectionManager S).

Definition set_agents (m : gmap string nat) (cm : CM) : CM :=
  mkCM m (conns cm) (next_conn cm) (stopCh cm) (agentServerManager cm).
Definition set_conns (h : gmap nat AgentConnection) (cm : CM) : CM :=
  mkCM (agents cm) h (next_conn cm) (stopCh cm) (agentServerManager cm).
Definition set_stopCh (c : chan unit) (cm : CM) : CM :=
  mkCM (agents cm) (conns cm) (next_conn cm) c (agentServerManager cm).
Definition set_manager (m : option S) (cm : CM) : CM :=
  mkCM (agents cm) (conns cm) (next_conn cm) (stopCh cm) m.

Definition NewConnectionManager (asm : option S) : CM :=
  mkCM ∅ ∅ 0 (make_chan 0) asm.

Definition SetAgentServerManager (asm : S) : M CM unit := modify (set_manager (Some asm)).

(** Run code on the connection at an address; a dangling address cannot occur
    in Go and is a nil dereference here. *)
Definition on_conn {A} (ptr : nat) (m : M AgentConnection A) : M CM A := λ cm,
  match conns cm !! ptr with
  | None => Panic "nil pointer dereference" cm
  | Some c =>
      match m c with
      | Ret a c' => Ret a (set_conns (<[ptr := c']> (conns cm)) cm)
      | Panic e c' => Panic e (set_conns (<[ptr := c']> (conns cm)) cm)
      | Block c' => Block (set_conns (<[ptr := c']> (conns cm)) cm)
      end
  end.

(** Run an operation of the manager, if there is one. *)
Definition in_asm {A} (m : M S A) : M CM (option A) := λ cm,
  match agentServerManager cm with
  | None => Ret None cm
  | Some s =>
      match m s with
      | Ret a s' => Ret (Some a) (set_manager (Some s') cm)
      | Panic e s' => Panic e (set_manager (Some s') cm)
      | Block s' => Block (set_manager (Some s') cm)
      end
  end.

(** [conn.cancel(); close(conn.SendCh)] and the stop of the agent's HTTP server,
    the sequence the four places that drop a connection share. *)
Definition close_conn (ptr : nat) : M CM unit :=
  on_conn ptr (_ ← modify set_ctx_done; zoom SendCh set_SendCh ch_close).

Definition stop_agent_server (agentID : string) (port : Z) : M CM unit :=
  if (port =? 0)%Z then mret () else _ ← in_asm (asm_stop agentID); mret ().

Definition drop_conn (agentID : string) (ptr : nat) : M CM unit :=
  _ ← close_conn ptr;
  c ← on_conn ptr get;
  stop_agent_server agentID (Port c).

Definition delete_agent (agentID : string) : M CM unit :=
  modify (λ cm, set_agents (delete agentID (agents cm)) cm).

Definition alloc_conn (c : AgentConnection) : M CM nat :=
  cm ← get;
  _ ← put (mkCM (agents cm) (<[next_conn cm := c]> (conns cm)) (Datatypes.S (next_conn cm))
                (stopCh cm) (agentServerManager cm));
  mret (next_conn cm).

Definition Register (agentID : string) (stream : nat) (now : Z) : M CM (result nat) :=
  cm ← get;
  _ ← match agents cm !! agentID with
      | Some existing => _ ← drop_conn agentID existing; delete_agent agentID
      | None => mret ()
      end;
  started ← in_asm (asm_start agentID);
  match started with
  | Some (Err e) => mret (Err (Wrapf "failed to start agent HTTP server" e))
  | _ =>
      let port := match started with Some (Ok p) => p | _ => 0%Z end in
      ptr ← alloc_conn (mkConn agentID port stream (make_chan sendChannelBuffer) now false);
      _ ← modify (λ cm, set_agents (<[agentID := ptr]> (agents cm)) cm);
      mret (Ok ptr)
  end.

Definition Deregister (agentID : string) : M CM unit :=
  cm ← get;
  match agents cm !! agentID with
  | Some ptr => _ ← drop_conn agentID ptr; delete_agent agentID
  | None => mret ()
  end.

(** [SendToAgent] in its two parts: the lookup under the read lock, and the
    [select], which runs after the lock is given back. *)
Definition SendToAgent_lookup (agentID : string) : M CM (result nat) :=
  cm ← get;
  mret (match agents cm !! agentID with
        | Some ptr => Ok ptr
        | None => Err (Errorf ("agent not found: " +:+ agentID))
        end).

Definition SendToAgent_select (choice : select_case) (agentID : string) (ptr : nat)
    (msg : ProxyMessage) : M CM (result unit) :=
  on_conn ptr
    match choice with
    | CaseSend => _ ← zoom SendCh set_SendCh (ch_send msg); mret (Ok ())
    | CaseTimeout => mret (Err (Errorf ("timeout sending message to agent: " +:+ agentID)))
    | CaseDone =>
        c ← get;
        if ctx_done c then mret (Err (Errorf ("agent connection closed: " +:+ agentID)))
        else block
    end.

Definition SendToAgent (choice : select_case) (agentID : string) (msg : ProxyMessage) :
    M CM (result unit) :=
  found ← SendToAgent_lookup agentID;
  match found with
  | Err e => mret (Err e)
  | Ok ptr => SendToAgent_select choice agentID ptr msg
  end.

Definition UpdateLastSeen (agentID : string) (now : Z) : M CM unit :=
  cm ← get;
  match agents cm !! agentID with
  | Some ptr => on_conn ptr (modify (set_LastSeen now))
  | None => mret ()
  end.

Definition GetConnection (agentID : string) : M CM (option AgentConnection) :=
  gets (λ cm, agents cm !! agentID ≫= λ ptr, conns cm !! ptr).

(** Go's map iteration order is unspecified: an operation that ranges over
    [cm.agents] takes the order as an argument, a permutation of the keys. *)
Definition ListConnections (order : list string) : M CM (list string) :=
  gets (λ cm, filter (λ a, is_Some (agents cm !! a)) order).

Definition removeStaleConnections (order : list string) (now : Z) : M CM unit :=
  for_each order (λ agentID,
    cm ← get;
    match agents cm !! agentID with
    | None => mret ()
    | Some ptr =>
        c ← on_conn ptr get;
        if (now - LastSeen c >? staleConnectionTimeout)%Z
        then _ ← drop_conn agentID ptr; delete_agent agentID
        else mret ()
    end).

Definition Stop (order : list string) : M CM unit :=
  _ ← zoom stopCh set_stopCh ch_close;
  _ ← for_each order (λ agentID,
        cm ← get;
        match agents cm !! agentID with
        | None => mret ()
        | Some ptr => drop_conn agentID ptr
        end);
  _ ← modify (set_agents ∅);
  _ ← in_asm asm_shutdown;
  mret ().
End Code.

(** ** The invariant *)

(** What [conn.cancel(); close(conn.SendCh)] does to a connection. *)
Definition closed (c : AgentConnection) : AgentConnection :=
  set_SendCh (mkChan (ch_buf (SendCh c)) (ch_cap (SendCh c)) true) (set_ctx_done c).

Definition open_conn (c : AgentConnection) : Prop :=
  ctx_done c = false ∧ ch_closed (SendCh c) = false.
Definition dead_conn (c : AgentConnection) : Prop :=
  ctx_done c = true ∧ ch_closed (SendCh c) = true.

Section Proofs.
Context {S : Type} `{AgentServerSpec S}.
Notation CM := (ConnectionManager S).
Implicit Types cm : CM.

(** Agent id to port, as the server manager sees it. *)
Definition served (cm : CM) : gmap string Z :=
  from_option asm_view ∅ (agentServerManager cm).

(** Registered connections are open, all others have been cancelled and closed
    exactly once; every HTTP server belongs to a registered connection that
    carries its port. *)
Record cm_ok (cm : CM) : Prop := {
  co_agent : ∀ a ptr, agents cm !! a = Some ptr →
    ∃ c, conns cm !! ptr = Some c ∧ ID c = a ∧ open_conn c;
  co_dead : ∀ ptr c, conns cm !! ptr = Some c → agents cm !! ID c ≠ Some ptr → dead_conn c;
  co_buf : ∀ ptr c, conns cm !! ptr = Some c →
    ch_cap (SendCh c) = sendChannelBuffer ∧ length (ch_buf (SendCh c)) ≤ sendChannelBuffer;
  co_fresh : ∀ ptr, is_Some (conns cm !! ptr) → ptr < next_conn cm;
  co_asm : from_option asm_inv True (agentServerManager cm);
  co_served : ∀ a p, served cm !! a = Some p →
    ∃ ptr c, agents cm !! a = Some ptr ∧ conns cm !! ptr = Some c ∧ Port c = p;
}.

Lemma cm_ok_agent_inj cm a b ptr :
  cm_ok cm → agents cm !! a = Some ptr → agents cm !! b = Some ptr → a = b.
Proof.
  intros Hok Ha Hb. destruct (co_agent _ Hok _ _ Ha) as (c & Hc & <- & _).
  destruct (co_agent _ Hok _ _ Hb) as (c' & Hc' & <- & _). congruence.
Qed.

Lemma cm_ok_new asm : from_option asm_inv True asm → from_option asm_view ∅ asm = ∅ →
  cm_ok (NewConnectionManager asm).
Proof.
  intros Hi Hv. split; unfold served; simpl; try done;
    rewrite ?Hv; setoid_rewrite lookup_empty; naive_solver.
Qed.

(** *** Steps shared by the operations *)

Lemma on_conn_spec {A} ptr (m : M AgentConnection A) cm c (Q : A → CM → Prop) :
  conns cm !! ptr = Some c →
  wp m c (λ a c', Q a (set_conns (<[ptr := c']> (conns cm)) cm)) → wp (on_conn ptr m) cm Q.
Proof. intros Hc Hm. unfold wp, on_conn in *. rewrite Hc. by destruct (m c). Qed.

Lemma on_conn_get_spec ptr cm c (Q : AgentConnection → CM → Prop) :
  conns cm !! ptr = Some c → Q c cm → wp (on_conn ptr get) cm Q.
Proof.
  intros Hc HQ. eapply on_conn_spec; [done|]. wp_steps. rewrite insert_id by done.
  by destruct cm.
Qed.

Lemma close_conn_spec ptr cm c (Q : unit → CM → Prop) :
  conns cm !! ptr = Some c → ch_closed (SendCh c) = false →
  Q () (set_conns (<[ptr := closed c]> (conns cm)) cm) → wp (close_conn ptr) cm Q.
Proof.
  intros Hc Ho HQ. eapply on_conn_spec; [done|]. wp_steps. by apply wp_ch_close.
Qed.

(** The server manager after an operation with effect [f] on the view. *)
Definition managed (f : gmap string Z → gmap string Z) (cm cm' : CM) : Prop :=
  match agentServerManager cm, agentServerManager cm' with
  | None, None => True
  | Some s, Some s' => asm_inv s' ∧ asm_view s' = f (asm_view s)
  | _, _ => False
  end.

Lemma managed_inv f cm cm' : managed f cm cm' → from_option asm_inv True (agentServerManager cm').
Proof. unfold managed. destruct (agentServerManager cm), (agentServerManager cm'); naive_solver. Qed.

Lemma managed_served f cm cm' :
  f ∅ = ∅ → managed f cm cm' → served cm' = f (served cm).
Proof.
  unfold managed, served. intros Hf.
  destruct (agentServerManager cm), (agentServerManager cm'); naive_solver.
Qed.

Lemma in_asm_spec {A} (m : M S A) cm (Q : option A → CM → Prop) :
  (agentServerManager cm = None → Q None cm) →
  (∀ s, agentServerManager cm = Some s →
     wp m s (λ a s', Q (Some a) (set_manager (Some s') cm))) →
  wp (in_asm m) cm Q.
Proof.
  intros HN HS. unfold wp, in_asm in *. destruct (agentServerManager cm) as [s|]; [|auto].
  specialize (HS s eq_refl). by destruct (m s).
Qed.

Lemma drop_conn_spec a ptr cm c :
  conns cm !! ptr = Some c → ch_closed (SendCh c) = false →
  from_option asm_inv True (agentServerManager cm) →
  (Port c = 0%Z → served cm !! a = None) →
  wp (drop_conn a ptr) cm (λ _ cm', managed (delete a) cm cm' ∧
    agents cm' = agents cm ∧ conns cm' = <[ptr := closed c]> (conns cm) ∧
    next_conn cm' = next_conn cm ∧ stopCh cm' = stopCh cm).
Proof.
  intros Hc Ho Hasm Hz.
  unfold drop_conn. wp_steps. eapply close_conn_spec; [done|done|]. wp_steps.
  eapply on_conn_get_spec; [apply lookup_insert_eq|]. unfold stop_agent_server. simpl.
  destruct (Z.eqb_spec (Port c) 0) as [E|E]; wp_steps.
  - split; [|done]. unfold managed. simpl. specialize (Hz E). unfold served in Hz.
    destruct (agentServerManager cm) as [s|]; [|done]. split; [done|].
    symmetry. by apply delete_id.
  - unfold managed. apply in_asm_spec; simpl; intros; wp_steps; simpl.
    + by case_match.
    + eapply wp_mono; [apply asm_stop_ok; by simplify_option_eq|].
      intros r s' [Hi Hv]. wp_steps. simpl. by case_match; simplify_eq.
Qed.

(** What [drop_conn_spec] asks for, for a registered connection. *)
Lemma cm_ok_droppable a ptr cm c :
  cm_ok cm → agents cm !! a = Some ptr → conns cm !! ptr = Some c →
  ID c = a ∧ ch_closed (SendCh c) = false ∧ (Port c = 0%Z → served cm !! a = None).
Proof.
  intros Hok Ha Hc. destruct (co_agent _ Hok _ _ Ha) as (c' & Hc' & Hid & Ho).
  rewrite Hc in Hc'. injection Hc' as <-. split; [done|]. split; [apply Ho|].
  intros E. apply eq_None_not_Some. intros [p Hp].
  destruct (co_served _ Hok a p Hp) as (ptr' & c' & Ha' & Hc' & Hpc).
  rewrite Ha in Ha'. injection Ha' as <-. rewrite Hc in Hc'. injection Hc' as <-.
  unfold served in Hp. pose proof (co_asm _ Hok) as Hasm.
  destruct (agentServerManager cm); simpl in *; [|done].
  pose proof (asm_view_port _ _ _ Hasm Hp). lia.
Qed.

(** The state with one agent's connection closed and the agent forgotten. *)
Definition without_agent (a : string) (ptr : nat) (c : AgentConnection) (cm cm' : CM) : Prop :=
  managed (delete a) cm cm' ∧ agents cm' = delete a (agents cm) ∧
  conns cm' = <[ptr := closed c]> (conns cm) ∧
  next_conn cm' = next_conn cm ∧ stopCh cm' = stopCh cm.

Lemma cm_ok_without_agent a ptr c cm cm' :
  cm_ok cm → agents cm !! a = Some ptr → conns cm !! ptr = Some c →
  without_agent a ptr c cm cm' → cm_ok cm'.
Proof.
  intros Hok Ha Hc (Hm & Eag & Eco & En & _).
  assert (ID c = a) as Hid.
  { destruct (co_agent _ Hok _ _ Ha) as (c' & Hc' & Hid & _). congruence. }
  split.
  - intros b q. rewrite Eag. intros [Hne Hb]%lookup_delete_Some.
    destruct (co_agent _ Hok _ _ Hb) as (d & Hd & Hidd & Ho). exists d.
    rewrite Eco, lookup_insert_ne; [done|]. intros ->. apply Hne. by eapply cm_ok_agent_inj.
  - intros q d. rewrite Eco, Eag. intros [[<- <-]|[Hne Hd]]%lookup_insert_Some; [done|].
    intros Hag. eapply (co_dead _ Hok); [done|]. intros Hq. apply Hag.
    rewrite lookup_delete_ne; [done|]. intros ->. congruence.
  - intros q d. rewrite Eco.
    intros [[<- <-]|[Hne Hd]]%lookup_insert_Some; [apply (co_buf _ Hok ptr c Hc)|by eapply (co_buf _ Hok)].
  - intros q. rewrite Eco, En. intros Hq. apply (co_fresh _ Hok).
    destruct (decide (ptr = q)) as [->|]; [by eexists|]. by rewrite lookup_insert_ne in Hq.
  - by eapply managed_inv.
  - intros b p. rewrite (managed_served _ _ _ (delete_empty _) Hm), Eag, Eco.
    intros [Hne Hp]%lookup_delete_Some. destruct (co_served _ Hok _ _ Hp) as (q & d & Hq & Hd & Hpd).
    exists q, d. rewrite lookup_delete_ne by done. rewrite lookup_insert_ne; [done|].
    intros ->. apply Hne. by eapply cm_ok_agent_inj.
Qed.

Lemma drop_delete_spec a ptr cm c :
  cm_ok cm → agents cm !! a = Some ptr → conns cm !! ptr = Some c →
  wp (_ ← drop_conn a ptr; delete_agent a) cm (λ _ cm',
    cm_ok cm' ∧ without_agent a ptr c cm cm').
Proof.
  intros Hok Ha Hc. destruct (cm_ok_droppable _ _ _ _ Hok Ha Hc) as (_ & Ho & Hz).
  wp_steps. eapply wp_mono; [apply drop_conn_spec; try done; apply Hok|].
  intros [] cm1 (Hm & Eag & Eco & En & Est). unfold delete_agent. wp_steps.
  assert (without_agent a ptr c cm (set_agents (delete a (agents cm1)) cm1)) as Hw.
  { unfold without_agent. simpl. rewrite Eag, Eco, En, Est. split_and!; try done. }
  split; [|done]. by eapply cm_ok_without_agent.
Qed.

(** *** Register and Deregister *)

(** The heap after the connection of [a], if any, is closed. *)
Definition close_old (a : string) (cm : CM) : gmap nat AgentConnection :=
  match agents cm !! a with
  | Some ptr => alter closed ptr (conns cm)
  | None => conns cm
  end.

Definition forgotten (a : string) (cm cm' : CM) : Prop :=
  managed (delete a) cm cm' ∧ agents cm' = delete a (agents cm) ∧
  conns cm' = close_old a cm ∧ next_conn cm' = next_conn cm ∧ stopCh cm' = stopCh cm.

Lemma Deregister_spec a cm :
  cm_ok cm → wp (Deregister a) cm (λ _ cm', cm_ok cm' ∧ forgotten a cm cm').
Proof.
  intros Hok. unfold Deregister, forgotten, close_old. wp_steps.
  destruct (agents cm !! a) as [ptr|] eqn:Ea.
  - destruct (co_agent _ Hok _ _ Ea) as (c & Hc & _).
    eapply wp_mono; [by apply drop_delete_spec|]. intros [] cm' (Hok' & Hw). split; [done|].
    destruct Hw as (? & ? & -> & ? & ?). split_and!; try done.
    apply map_eq. intros q. rewrite lookup_alter, lookup_insert. case_decide; [|done].
    subst. by rewrite Hc.
  - wp_steps. split; [done|]. rewrite delete_id by done. split_and!; try done.
    unfold managed. destruct (agentServerManager cm) as [s|] eqn:Es; [|done].
    pose proof (co_asm _ Hok) as Hi. rewrite Es in Hi. split; [done|].
    symmetry. apply delete_id, eq_None_not_Some. intros [p Hp].
    destruct (co_served _ Hok a p) as (ptr & _ & Hptr & _); [|congruence].
    unfold served. by rewrite Es.
Qed.

Lemma cm_ok_add a stream now p cm cm' :
  cm_ok cm → agents cm !! a = None →
  from_option asm_inv True (agentServerManager cm') →
  served cm' = served cm ∨ served cm' = <[a := p]> (served cm) →
  agents cm' = <[a := next_conn cm]> (agents cm) →
  conns cm' = <[next_conn cm := mkConn a p stream (make_chan sendChannelBuffer) now false]> (conns cm) →
  next_conn cm' = Datatypes.S (next_conn cm) →
  cm_ok cm'.
Proof.
  intros Hok Ha Hi Hs Eag Eco En.
  assert (∀ q d, conns cm !! q = Some d → q ≠ next_conn cm) as Hne.
  { intros q d Hq ->. assert (next_conn cm < next_conn cm); [|lia].
    apply (co_fresh _ Hok). by eexists. }
  split.
  - intros b q. rewrite Eag, Eco. intros [[<- <-]|[Hb Hq]]%lookup_insert_Some.
    + eexists. by rewrite lookup_insert_eq.
    + destruct (co_agent _ Hok _ _ Hq) as (d & Hd & ?). exists d.
      by rewrite lookup_insert_ne by (symmetry; by eapply Hne).
  - intros q d. rewrite Eag, Eco. intros [[<- <-]|[Hb Hq]]%lookup_insert_Some; simpl.
    + by rewrite lookup_insert_eq.
    + intros Hag. apply (co_dead _ Hok _ _ Hq). intros E. apply Hag.
      rewrite lookup_insert_ne; [done|]. intros ->. congruence.
  - intros q d. rewrite Eco. intros [[<- <-]|[Hb Hq]]%lookup_insert_Some; simpl; [lia|].
    by eapply (co_buf _ Hok).
  - intros q. rewrite Eco, En. intros [d [[<- <-]|[Hb Hq]]%lookup_insert_Some]; [lia|].
    assert (q < next_conn cm); [|lia]. apply (co_fresh _ Hok). by eexists.
  - done.
  - intros b p' Hb. rewrite Eag, Eco.
    assert ((b = a ∧ p' = p) ∨ served cm !! b = Some p') as [[-> ->]|Hb'].
    { destruct Hs as [Hs|Hs]; rewrite Hs in Hb; [by right|].
      apply lookup_insert_Some in Hb. naive_solver. }
    + exists (next_conn cm). eexists. by rewrite !lookup_insert_eq.
    + destruct (co_served _ Hok _ _ Hb') as (q & d & Hq & Hd & ?). exists q, d.
      rewrite !lookup_insert_ne; [done|symmetry; by eapply Hne|]. intros ->. congruence.
Qed.

Definition new_conn (a : string) (stream : nat) (now p : Z) : AgentConnection :=
  mkConn a p stream (make_chan sendChannelBuffer) now false.

Definition registered (a : string) (stream : nat) (now : Z) (cm : CM) (r : result nat) (cm' : CM) : Prop :=
  stopCh cm' = stopCh cm ∧
  match r with
  | Ok ptr =>
      ptr = next_conn cm ∧ agents cm' = <[a := ptr]> (agents cm) ∧
      ∃ p, conns cm' = <[ptr := new_conn a stream now p]> (close_old a cm) ∧
        match agentServerManager cm with
        | None => p = 0%Z ∧ agentServerManager cm' = None
        | Some _ => served cm' = <[a := p]> (served cm) ∧ (1 ≤ p ≤ 65535)%Z ∧
                    (∀ b, b ≠ a → served cm !! b ≠ Some p)
        end
  | Err e =>
      is_Some (agentServerManager cm) ∧ agents cm' = delete a (agents cm) ∧
      conns cm' = close_old a cm ∧ served cm' = delete a (served cm)
  end.

Lemma Register_spec a stream now cm :
  cm_ok cm → wp (Register a stream now) cm (λ r cm', cm_ok cm' ∧ registered a stream now cm r cm').
Proof.
  intros Hok. unfold Register, alloc_conn. wp_steps.
  assert (wp (match agents cm !! a with
              | Some existing => _ ← drop_conn a existing; delete_agent a
              | None => mret ()
              end) cm (λ _ cm', cm_ok cm' ∧ forgotten a cm cm')) as Hf.
  { pose proof (Deregister_spec a cm Hok) as Hd. unfold Deregister in Hd. exact Hd. }
  eapply wp_mono; [exact Hf|]. intros [] cm1 (Hok1 & Hm1 & Eag1 & Eco1 & En1 & Est1). wp_steps.
  pose proof (managed_served _ _ _ (delete_empty _) Hm1) as Es1.
  assert (agents cm1 !! a = None) as Ha1 by (rewrite Eag1; apply lookup_delete_eq).
  assert (agentServerManager cm1 = None ↔ agentServerManager cm = None) as Hnil.
  { unfold managed in Hm1. destruct (agentServerManager cm), (agentServerManager cm1); naive_solver. }
  apply in_asm_spec.
  - intros Hn. wp_steps. simpl. rewrite Eag1, Eco1, En1, insert_delete_eq.
    split.
    + eapply (cm_ok_add a stream now 0 cm1 _ Hok1 Ha1); simpl; try done.
      * apply (co_asm _ Hok1).
      * by left.
      * by rewrite Eag1, En1, insert_delete_eq.
      * by rewrite Eco1, En1.
      * by rewrite En1.
    + split; [done|]. split_and!; try done. exists 0%Z. split; [done|].
      by rewrite (proj1 Hnil Hn).
  - intros s Hs. pose proof (co_asm _ Hok1) as Hi. rewrite Hs in Hi. simpl in Hi.
    assert (asm_view s = served cm1) as Hv by (unfold served; by rewrite Hs).
    assert (is_Some (agentServerManager cm)) as Hsome.
    { apply not_eq_None_Some. intros E%Hnil. congruence. }
    eapply wp_mono; [by apply asm_start_ok|]. intros r s' (Hi' & Hr). rewrite Hv in Hr.
    destruct r as [p|e]; wp_steps; simpl.
    + destruct Hr as (Hvn & Hfresh & Hv'). rewrite Eag1, Eco1, En1, insert_delete_eq. split.
      * eapply (cm_ok_add a stream now p cm1 _ Hok1 Ha1); simpl; try done.
        -- right. done.
        -- by rewrite Eag1, En1, insert_delete_eq.
        -- by rewrite Eco1, En1.
        -- by rewrite En1.
      * split; [done|]. split_and!; try done. exists p. split; [done|].
        destruct Hsome as [s0 ->]. split; [|split].
        -- unfold served at 1. simpl. by rewrite Hv', Es1, insert_delete_eq.
        -- eapply (asm_view_port s' a p Hi'). by rewrite Hv', lookup_insert_eq.
        -- intros b Hb Hbp. apply (Hfresh b). by rewrite Es1, lookup_delete_ne.
    + split.
      * destruct Hok1. split; try done; unfold served; simpl.
        rewrite Hr. done.
      * split; [done|]. split_and!; try done. unfold served at 1. simpl. by rewrite Hr.
Qed.

(** *** Updating a connection in place *)

Lemma cm_ok_update ptr c c' cm :
  cm_ok cm → conns cm !! ptr = Some c →
  ID c' = ID c → Port c' = Port c → ctx_done c' = ctx_done c →
  ch_closed (SendCh c') = ch_closed (SendCh c) → ch_cap (SendCh c') = ch_cap (SendCh c) →
  length (ch_buf (SendCh c')) ≤ sendChannelBuffer →
  cm_ok (set_conns (<[ptr := c']> (conns cm)) cm).
Proof.
  intros Hok Hc Hid Hp Hd Hcl Hcap Hlen. split; simpl.
  - intros a q Ha. destruct (co_agent _ Hok _ _ Ha) as (d & Hq & Hidd & Ho).
    destruct (decide (ptr = q)) as [<-|].
    + exists c'. rewrite lookup_insert_eq. unfold open_conn in *. naive_solver congruence.
    + exists d. by rewrite lookup_insert_ne.
  - intros q d [[<- <-]|[Hne Hq]]%lookup_insert_Some; [|by apply (co_dead _ Hok)].
    intros Ha. rewrite Hid in Ha. unfold dead_conn. rewrite Hd, Hcl. by eapply (co_dead _ Hok).
  - intros q d [[<- <-]|[Hne Hq]]%lookup_insert_Some; [|by eapply (co_buf _ Hok)].
    split; [|done]. rewrite Hcap. by eapply (co_buf _ Hok).
  - intros q [d [[<- <-]|[Hne Hq]]%lookup_insert_Some]; apply (co_fresh _ Hok); by eexists.
  - apply Hok.
  - intros a p Ha. destruct (co_served _ Hok _ _ Ha) as (q & d & Hq & Hdq & Hpd).
    destruct (decide (ptr = q)) as [<-|].
    + exists ptr, c'. rewrite lookup_insert_eq. naive_solver congruence.
    + exists q, d. by rewrite lookup_insert_ne.
Qed.

Lemma UpdateLastSeen_spec a now cm :
  cm_ok cm → wp (UpdateLastSeen a now) cm (λ _ cm', cm_ok cm' ∧
    match agents cm !! a with
    | Some ptr => cm' = set_conns (alter (set_LastSeen now) ptr (conns cm)) cm
    | None => cm' = cm
    end).
Proof.
  intros Hok. unfold UpdateLastSeen. wp_steps.
  destruct (agents cm !! a) as [ptr|] eqn:Ea; [|by wp_steps].
  destruct (co_agent _ Hok _ _ Ea) as (c & Hc & _).
  eapply on_conn_spec; [done|]. wp_steps. split.
  - eapply cm_ok_update; [done|exact Hc|done..|]. apply (co_buf _ Hok _ _ Hc).
  - f_equal. apply map_eq. intros q. rewrite lookup_alter, lookup_insert.
    case_decide; [|done]. subst. by rewrite Hc.
Qed.

(** The connection's queue after a message is appended. *)
Definition queued (msg : ProxyMessage) (c : AgentConnection) : AgentConnection :=
  set_SendCh (ch_push msg (SendCh c)) c.

Lemma SendToAgent_select_spec choice a ptr msg cm c :
  cm_ok cm → conns cm !! ptr = Some c → ch_closed (SendCh c) = false →
  match SendToAgent_select choice a ptr msg cm with
  | Ret r cm' => cm_ok cm' ∧
      match r with
      | Ok _ => choice = CaseSend ∧ length (ch_buf (SendCh c)) < sendChannelBuffer ∧
                cm' = set_conns (<[ptr := queued msg c]> (conns cm)) cm
      | Err _ => (choice = CaseTimeout ∨ choice = CaseDone ∧ ctx_done c = true) ∧ cm' = cm
      end
  | Panic _ _ => False
  | Block cm' => cm' = cm ∧
      (choice = CaseSend ∧ length (ch_buf (SendCh c)) = sendChannelBuffer ∨
       choice = CaseDone ∧ ctx_done c = false)
  end.
Proof.
  intros Hok Hc Ho. destruct (co_buf _ Hok _ _ Hc) as [Hcap Hlen].
  assert (set_conns (<[ptr := c]> (conns cm)) cm = cm) as Hid.
  { rewrite insert_id by done. by destruct cm. }
  unfold SendToAgent_select, on_conn. rewrite Hc.
  destruct choice; cbn; unfold mbind, M_bind, mret, M_ret, zoom, ch_send, get, block.
  - rewrite Ho. unfold ch_full. case_bool_decide as Hb; simpl.
    + assert (set_SendCh (SendCh c) c = c) as -> by by destruct c.
      rewrite Hid. split; [done|]. left. split; [done|]. lia.
    + split; [|split; [done|split; [lia|done]]]. eapply cm_ok_update; try done.
      simpl. rewrite length_app. simpl. lia.
  - rewrite Hid. auto.
  - destruct (ctx_done c) eqn:Ed; rewrite Hid; auto.
Qed.

(** *** removeStaleConnections *)

Definition is_stale (now : Z) (cm : CM) (a : string) : bool :=
  match agents cm !! a ≫= λ ptr, conns cm !! ptr with
  | Some c => (now - LastSeen c >? staleConnectionTimeout)%Z
  | None => false
  end.

(** [cm'] is [cm] with exactly the agents in [gone] dropped. *)
Record dropped (gone : string → bool) (cm cm' : CM) : Prop := {
  dr_agents : ∀ a, agents cm' !! a = if gone a then None else agents cm !! a;
  dr_conns : ∀ ptr, conns cm' !! ptr =
    (λ c, if gone (ID c) && bool_decide (agents cm !! ID c = Some ptr) then closed c else c)
      <$> conns cm !! ptr;
  dr_served : ∀ a, served cm' !! a = if gone a then None else served cm !! a;
  dr_next : next_conn cm' = next_conn cm;
  dr_stopCh : stopCh cm' = stopCh cm;
}.

Lemma dropped_none cm : dropped (λ _, false) cm cm.
Proof. split; try done. intros ptr. by destruct (conns cm !! ptr). Qed.

Lemma without_agent_dropped a ptr c cm cm' :
  cm_ok cm → agents cm !! a = Some ptr → conns cm !! ptr = Some c →
  without_agent a ptr c cm cm' → dropped (λ b, bool_decide (b = a)) cm cm'.
Proof.
  intros Hok Ha Hc (Hm & Eag & Eco & En & Est).
  destruct (cm_ok_droppable _ _ _ _ Hok Ha Hc) as (Hid & _).
  split; try done.
  - intros b. rewrite Eag, lookup_delete. repeat case_decide; case_bool_decide; congruence.
  - intros q. rewrite Eco, lookup_insert. case_decide as Hq.
    + subst q. rewrite Hc. simpl. by rewrite Hid, !bool_decide_eq_true_2.
    + destruct (conns cm !! q) as [d|] eqn:Hd; [|done]. simpl.
      case_bool_decide; [|done]. rewrite bool_decide_eq_false_2; [done|]. congruence.
  - intros b. rewrite (managed_served _ _ _ (delete_empty _) Hm), lookup_delete.
    repeat case_decide; case_bool_decide; congruence.
Qed.

Lemma dropped_trans g1 g2 cm cm1 cm2 :
  dropped g1 cm cm1 → dropped g2 cm1 cm2 → dropped (λ a, g1 a || g2 a) cm cm2.
Proof.
  intros [A1 C1 S1 N1 T1] [A2 C2 S2 N2 T2]. split; try congruence.
  - intros a. rewrite A2, A1. by destruct (g1 a), (g2 a).
  - intros q. rewrite C2, C1. destruct (conns cm !! q) as [c|]; [|done]. simpl. f_equal.
    destruct (g1 (ID c)) eqn:E1; simpl.
    + case_bool_decide as Hb; simpl; rewrite A1, E1.
      * rewrite (bool_decide_eq_false_2 (None = Some q)) by done. by rewrite andb_false_r.
      * rewrite (bool_decide_eq_false_2 (None = Some q)) by done. by rewrite andb_false_r.
    + by rewrite A1, E1.
  - intros a. rewrite S2, S1. by destruct (g1 a), (g2 a).
Qed.

Lemma dropped_ext g1 g2 cm cm' :
  (∀ a, g1 a = g2 a ∨ agents cm !! a = None ∧ served cm !! a = None) →
  dropped g1 cm cm' → dropped g2 cm cm'.
Proof.
  intros Hg [A C Sv N T]. split; try done.
  - intros a. rewrite A. destruct (Hg a) as [->|[-> _]]; [done|]. by destruct (g1 a), (g2 a).
  - intros q. rewrite C. destruct (conns cm !! q) as [c|]; [|done]. simpl. f_equal.
    destruct (Hg (ID c)) as [->|[-> _]]; [done|]. by rewrite !andb_false_r.
  - intros a. rewrite Sv. destruct (Hg a) as [->|[_ ->]]; [done|]. by destruct (g1 a), (g2 a).
Qed.

Lemma unregistered_unserved cm a : cm_ok cm → agents cm !! a = None → served cm !! a = None.
Proof.
  intros Hok Ha. apply eq_None_not_Some. intros [p Hp].
  destruct (co_served _ Hok _ _ Hp) as (ptr & _ & Hptr & _). congruence.
Qed.

(** Dropping other agents does not change whether an agent is stale. *)
Lemma is_stale_dropped now g cm cm' a :
  cm_ok cm → dropped g cm cm' → is_stale now cm' a = negb (g a) && is_stale now cm a.
Proof.
  intros Hok [A C _ _ _]. unfold is_stale. rewrite A. destruct (g a); [done|]. simpl.
  destruct (agents cm !! a) as [ptr|]; [|done]. simpl. rewrite C.
  destruct (conns cm !! ptr) as [c|]; [|done]. simpl. by case_match.
Qed.

Lemma removeStale_loop_spec order now cm :
  cm_ok cm → wp (removeStaleConnections order now) cm (λ _ cm', cm_ok cm' ∧
    dropped (λ a, bool_decide (a ∈ order) && is_stale now cm a) cm cm').
Proof.
  revert cm. induction order as [|b order IH]; intros cm Hok.
  { wp_steps. split; [done|]. eapply dropped_ext; [|apply dropped_none]. intros a. by left. }
  unfold removeStaleConnections. cbn [for_each]. fold (removeStaleConnections order now).
  wp_steps.
  assert (∀ cm1 g1, cm_ok cm1 → dropped g1 cm cm1 →
    (∀ a, g1 a = bool_decide (a = b) && is_stale now cm a ∨ agents cm !! a = None) →
    wp (removeStaleConnections order now) cm1 (λ _ cm', cm_ok cm' ∧
      dropped (λ a, bool_decide (a ∈ b :: order) && is_stale now cm a) cm cm')) as Hrest.
  { intros cm1 g1 Hok1 Hd1 Hg1. eapply wp_mono; [by apply IH|].
    intros [] cm' (Hok' & Hd'). split; [done|].
    eapply dropped_ext; [|eapply dropped_trans; [exact Hd1|exact Hd']]. intros a. simpl.
    destruct (Hg1 a) as [Hga|Hna]; [left|right; split; [done|by apply unregistered_unserved]].
    rewrite (is_stale_dropped _ _ _ _ a Hok Hd1), Hga.
    destruct (decide (a = b)) as [->|Hne].
    - rewrite (bool_decide_eq_true_2 (b = b)) by done.
      rewrite (bool_decide_eq_true_2 (b ∈ b :: order)) by left.
      destruct (is_stale now cm b); simpl; by rewrite ?andb_false_r.
    - rewrite (bool_decide_eq_false_2 (a = b)) by done. simpl. f_equal.
      apply bool_decide_ext. set_solver. }
  destruct (agents cm !! b) as [ptr|] eqn:Eb.
  - destruct (co_agent _ Hok _ _ Eb) as (c & Hc & _). wp_steps.
    eapply on_conn_get_spec; [done|].
    assert (is_stale now cm b = (now - LastSeen c >? staleConnectionTimeout)%Z) as Hst.
    { unfold is_stale. rewrite Eb. simpl. by rewrite Hc. }
    destruct (now - LastSeen c >? staleConnectionTimeout)%Z.
    + eapply wp_mono; [by apply drop_delete_spec|]. intros [] cm1 (Hok1 & Hw).
      eapply Hrest; [done|by eapply without_agent_dropped|]. intros a. left.
      case_bool_decide; [|done]. by subst.
    + wp_steps. eapply Hrest; [done|apply dropped_none|]. intros a. left.
      case_bool_decide; [|done]. by subst.
  - wp_steps. eapply Hrest; [done|apply dropped_none|]. intros a.
    destruct (decide (a = b)) as [->|]; [by right|]. left. by rewrite bool_decide_eq_false_2.
Qed.

(** *** Stop *)

(** Loop invariant of [Stop]: the connections of the agents still to visit are
    untouched, those of the others are closed. *)
Definition stopping (cm0 : CM) (todo : list string) (cm : CM) : Prop :=
  NoDup todo ∧ agents cm = agents cm0 ∧ next_conn cm = next_conn cm0 ∧ stopCh cm = stopCh cm0 ∧
  from_option asm_inv True (agentServerManager cm) ∧
  (∀ a, served cm !! a = if bool_decide (a ∈ todo) then served cm0 !! a else None) ∧
  (∀ ptr, conns cm !! ptr =
    (λ c, if bool_decide (agents cm0 !! ID c = Some ptr) && negb (bool_decide (ID c ∈ todo))
          then closed c else c) <$> conns cm0 !! ptr).

Lemma stopping_step cm0 a todo cm :
  cm_ok cm0 → stopping cm0 (a :: todo) cm →
  wp (cm ← get; match agents cm !! a with None => mret () | Some ptr => drop_conn a ptr end) cm
     (λ _ cm', stopping cm0 todo cm').
Proof.
  intros Hok (Hnd & Eag & En & Est & Hi & Hs & Hco). apply NoDup_cons in Hnd as [Hnotin Hnd].
  wp_steps. rewrite Eag. destruct (agents cm0 !! a) as [ptr|] eqn:Ea.
  - destruct (co_agent _ Hok _ _ Ea) as (c & Hc & Hid & Ho).
    destruct (cm_ok_droppable _ _ _ _ Hok Ea Hc) as (_ & Hop & Hz).
    assert (conns cm !! ptr = Some c) as Hcm.
    { rewrite Hco, Hc. simpl. rewrite Hid, (bool_decide_eq_true_2 (a ∈ a :: todo)) by left.
      by rewrite andb_false_r. }
    eapply wp_mono; [apply drop_conn_spec; try done|].
    { intros E. rewrite Hs, Hz by done. by case_match. }
    intros [] cm' (Hm & Eag' & Eco' & En' & Est').
    split_and!; try congruence; [by eapply managed_inv| |].
    + intros b. rewrite (managed_served _ _ _ (delete_empty _) Hm), lookup_delete, Hs.
      case_decide; [subst; by rewrite bool_decide_eq_false_2|].
      erewrite bool_decide_ext; [done|]. set_solver.
    + intros q. rewrite Eco', lookup_insert. case_decide as Hq.
      * subst q. rewrite Hc. simpl. rewrite Hid, bool_decide_eq_true_2 by done.
        by rewrite bool_decide_eq_false_2.
      * rewrite Hco. destruct (conns cm0 !! q) as [d|] eqn:Hd; [|done]. simpl. f_equal.
        case_bool_decide as Hbq; [|done]. simpl.
        erewrite bool_decide_ext; [done|].
        assert (ID d ≠ a) by congruence. set_solver.
  - wp_steps. split_and!; try done.
    + intros b. rewrite Hs. destruct (decide (b = a)) as [->|].
      * rewrite (unregistered_unserved _ _ Hok Ea). by repeat case_match.
      * erewrite bool_decide_ext; [done|]. set_solver.
    + intros q. rewrite Hco. destruct (conns cm0 !! q) as [d|] eqn:Hd; [|done]. simpl. f_equal.
      case_bool_decide as Hbq; [|done]. simpl. erewrite bool_decide_ext; [done|].
      assert (ID d ≠ a) by congruence. set_solver.
Qed.

Lemma Stop_spec order cm :
  cm_ok cm → order ≡ₚ keys (agents cm) → ch_closed (stopCh cm) = false →
  wp (Stop order) cm (λ _ cm', cm_ok cm' ∧ agents cm' = ∅ ∧ served cm' = ∅ ∧
    ch_closed (stopCh cm') = true ∧
    (∀ ptr c, conns cm' !! ptr = Some c → dead_conn c) ∧ next_conn cm' = next_conn cm ∧
    ∀ ptr, conns cm' !! ptr =
      (λ c, if bool_decide (agents cm !! ID c = Some ptr) then closed c else c) <$> conns cm !! ptr).
Proof.
  intros Hok Hord Hst. unfold Stop. wp_steps. apply wp_ch_close; [done|]. wp_steps.
  set (cm0 := set_stopCh _ cm).
  assert (cm_ok cm0) as Hok0 by (destruct Hok; split; done).
  eapply wp_mono.
  { apply (wp_for_each order _ cm0 (stopping cm0)).
    - split_and!; try done.
      + rewrite Hord. apply NoDup_keys.
      + apply Hok.
      + intros a. case_bool_decide as Ha; [done|]. apply unregistered_unserved; [done|].
        apply eq_None_not_Some. intros Hin%elem_of_keys. apply Ha. by rewrite Hord.
      + intros ptr. destruct (conns cm0 !! ptr) as [c|] eqn:Hc; [|done]. simpl. f_equal.
        case_bool_decide as Hb; [|done]. rewrite bool_decide_eq_true_2; [done|].
        rewrite Hord, elem_of_keys. by exists ptr.
    - intros a l cm'. by apply stopping_step. }
  intros [] cm1 (_ & _ & En & Est & Hi & _ & Hco).
  assert (∀ ptr c, conns cm1 !! ptr = Some c → dead_conn c) as Hdead.
  { intros ptr c. rewrite Hco, fmap_Some. intros (d & Hd & ->). case_bool_decide as Hb; simpl.
    - done.
    - by apply (co_dead _ Hok0 _ _ Hd). }
  assert (∀ ptr c, conns cm1 !! ptr = Some c → ∃ d, conns cm0 !! ptr = Some d ∧
    ch_cap (SendCh c) = ch_cap (SendCh d) ∧ ch_buf (SendCh c) = ch_buf (SendCh d)) as Hsame.
  { intros ptr c. rewrite Hco, fmap_Some. intros (d & Hd & ->). exists d. by case_match. }
  assert (∀ ptr, conns cm1 !! ptr =
    (λ c, if bool_decide (agents cm !! ID c = Some ptr) then closed c else c) <$> conns cm !! ptr)
    as Hall.
  { intros ptr. rewrite Hco. apply option_fmap_ext. intros c. by rewrite andb_true_r. }
  wp_steps. apply in_asm_spec; simpl.
  - intros Hn. wp_steps. split; [|unfold served; simpl; by rewrite Hn, Est].
    split; simpl; unfold served; simpl; rewrite ?Hn; simpl; try done.
    + intros ptr c Hc _. by eapply Hdead.
    + intros ptr c Hc. destruct (Hsame _ _ Hc) as (d & Hd & -> & ->). by eapply (co_buf _ Hok0).
    + intros ptr [c Hc]. destruct (Hsame _ _ Hc) as (d & Hd & _).
      rewrite En. apply (co_fresh _ Hok0). by eexists.
  - intros s Hs. rewrite Hs in Hi. eapply wp_mono; [by apply asm_shutdown_ok|].
    intros r s' [Hi' Hv]. wp_steps. split; [|unfold served; simpl; by rewrite Est].
    split; simpl; unfold served; simpl; rewrite ?Hv; try done.
    + intros ptr c Hc _. by eapply Hdead.
    + intros ptr c Hc. destruct (Hsame _ _ Hc) as (d & Hd & -> & ->). by eapply (co_buf _ Hok0).
    + intros ptr [c Hc]. destruct (Hsame _ _ Hc) as (d & Hd & _).
      rewrite En. apply (co_fresh _ Hok0). by eexists.
Qed.

(** [SendToAgent_select], whether or not the connection is still open. *)
Lemma SendToAgent_select_Ret choice a ptr msg cm r cm' :
  cm_ok cm → SendToAgent_select choice a ptr msg cm = Ret r cm' →
  cm_ok cm' ∧
  match r with
  | Ok _ => ∃ c, conns cm !! ptr = Some c ∧ cm' = set_conns (<[ptr := queued msg c]> (conns cm)) cm
  | Err _ => cm' = cm
  end.
Proof.
  intros Hok E. destruct (conns cm !! ptr) as [c|] eqn:Hc.
  2:{ unfold SendToAgent_select, on_conn in E. by rewrite Hc in E. }
  destruct (ch_closed (SendCh c)) eqn:Hcl.
  - unfold SendToAgent_select, on_conn in E. rewrite Hc in E.
    assert (set_conns (<[ptr:=c]> (conns cm)) cm = cm) as Eid.
    { rewrite insert_id by done. by destruct cm. }
    destruct choice; simpl in E.
    + unfold mbind, M_bind, zoom, ch_send in E. by rewrite Hcl in E.
    + injection E as <- <-. by rewrite Eid.
    + unfold mbind, M_bind, get in E. destruct (ctx_done c); [|done].
      injection E as <- <-. by rewrite Eid.
  - pose proof (SendToAgent_select_spec choice a ptr msg cm c Hok Hc Hcl) as Hs.
    rewrite E in Hs. destruct Hs as [? Hr]. split; [done|]. destruct r; [|naive_solver].
    exists c. naive_solver.
Qed.

(** Every case of the [select] on a connection that was registered at some time. *)
Lemma SendToAgent_select_eq choice a ptr msg cm c :
  cm_ok cm → conns cm !! ptr = Some c →
  SendToAgent_select choice a ptr msg cm =
  match choice with
  | CaseSend =>
      if ch_closed (SendCh c) then Panic "send on closed channel" cm
      else if bool_decide (length (ch_buf (SendCh c)) < sendChannelBuffer)
      then Ret (Ok ()) (set_conns (<[ptr := queued msg c]> (conns cm)) cm)
      else Block cm
  | CaseTimeout => Ret (Err (Errorf ("timeout sending message to agent: " +:+ a))) cm
  | CaseDone =>
      if ctx_done c then Ret (Err (Errorf ("agent connection closed: " +:+ a))) cm else Block cm
  end.
Proof.
  intros Hok Hc. destruct (co_buf _ Hok _ _ Hc) as [Hcap Hlen].
  assert (set_conns (<[ptr := c]> (conns cm)) cm = cm) as Hid.
  { rewrite insert_id by done. by destruct cm. }
  assert (set_SendCh (SendCh c) c = c) as Hidc by by destruct c.
  unfold SendToAgent_select, on_conn. rewrite Hc.
  destruct choice; cbn; unfold mbind, M_bind, mret, M_ret, zoom, ch_send, get, block.
  - destruct (ch_closed (SendCh c)); [by rewrite Hidc, Hid|]. unfold ch_full. rewrite Hcap.
    case_bool_decide; case_bool_decide; try lia; simpl; [by rewrite Hidc, Hid|done].
  - by rewrite Hid.
  - destruct (ctx_done c); by rewrite Hid.
Qed.

(** ** The manager as a transition system

    Each operation holds [cm.mu] from its first to its last access, so one call is one
    step, but for [SendToAgent]: it gives the lock back after its lookup, which
    changes nothing, and its [select] is a step of its own, on any connection a
    lookup may have found earlier, dropped since or not.  [step_server_lost] is the
    server manager dropping servers on its own, when a [Serve] goroutine fails. *)
Inductive cm_step : CM → CM → Prop :=
  | step_register a stream now r cm cm' :
      Register a stream now cm = Ret r cm' → cm_step cm cm'
  | step_deregister a cm cm' : Deregister a cm = Ret () cm' → cm_step cm cm'
  | step_select choice a ptr msg r cm cm' :
      SendToAgent_select choice a ptr msg cm = Ret r cm' → cm_step cm cm'
  | step_seen a now cm cm' : UpdateLastSeen a now cm = Ret () cm' → cm_step cm cm'
  | step_sweep order now cm cm' :
      order ≡ₚ keys (agents cm) →
      removeStaleConnections order now cm = Ret () cm' → cm_step cm cm'
  | step_stop order cm cm' :
      order ≡ₚ keys (agents cm) → Stop order cm = Ret () cm' → cm_step cm cm'
  | step_server_lost s s' cm :
      agentServerManager cm = Some s → asm_inv s' → asm_view s' ⊆ asm_view s →
      cm_step cm (set_manager (Some s') cm).

Lemma SendToAgent_spec choice a msg cm :
  cm_ok cm →
  match SendToAgent choice a msg cm with
  | Ret r cm' => cm_ok cm' ∧
      match r with
      | Ok _ => ∃ ptr c, agents cm !! a = Some ptr ∧ conns cm !! ptr = Some c ∧
                  length (ch_buf (SendCh c)) < sendChannelBuffer ∧
                  cm' = set_conns (<[ptr := queued msg c]> (conns cm)) cm
      | Err e => cm' = cm
      end
  | Panic _ _ => False
  | Block cm' => cm' = cm
  end.
Proof.
  intros Hok. unfold SendToAgent, SendToAgent_lookup, mbind, M_bind, mret, M_ret, get.
  destruct (agents cm !! a) as [ptr|] eqn:Ea; [|done].
  destruct (co_agent _ Hok _ _ Ea) as (c & Hc & _ & Ho).
  pose proof (SendToAgent_select_spec choice a ptr msg cm c Hok Hc (proj2 Ho)) as Hsel.
  destruct (SendToAgent_select _ _ _ _ _) as [[[]|e] cm'| |]; naive_solver.
Qed.

(** A second [Stop] panics at once. *)
Lemma Stop_closed order cm :
  ch_closed (stopCh cm) = true → Stop order cm = Panic "close of closed channel" cm.
Proof.
  intros Ec. unfold Stop, mbind, M_bind, zoom, ch_close. rewrite Ec.
  by destruct cm.
Qed.

(** The connections of the heap, by whether they are registered. *)
Lemma registered_or_dead cm ptr c :
  cm_ok cm → conns cm !! ptr = Some c →
  (bool_decide (agents cm !! ID c = Some ptr) = true ∧ ch_closed (SendCh c) = false ∧ ctx_done c = false) ∨
  (bool_decide (agents cm !! ID c = Some ptr) = false ∧ ch_closed (SendCh c) = true ∧ ctx_done c = true).
Proof.
  intros Hok Hc. case_bool_decide as Ha; [left|right].
  - destruct (co_agent _ Hok _ _ Ha) as (c' & Hc' & _ & ? & ?). rewrite Hc in Hc'. by injection Hc' as <-.
  - by destruct (co_dead _ Hok _ _ Hc Ha).
Qed.

Lemma cm_step_ok cm cm' : cm_ok cm → cm_step cm cm' → cm_ok cm'.
Proof.
  intros Hok Hs. destruct Hs as [a stream now r cm cm' E|a cm cm' E|choice a ptr msg r cm cm' E
    |a now cm cm' E|order now cm cm' Ho E|order cm cm' Ho E|s s' cm Es Hi Hv].
  - by apply (wp_Ret _ _ _ _ _ (Register_spec a stream now cm Hok) E).
  - by apply (wp_Ret _ _ _ _ _ (Deregister_spec a cm Hok) E).
  - by apply (SendToAgent_select_Ret _ _ _ _ _ _ _ Hok E).
  - by apply (wp_Ret _ _ _ _ _ (UpdateLastSeen_spec a now cm Hok) E).
  - by apply (wp_Ret _ _ _ _ _ (removeStale_loop_spec order now cm Hok) E).
  - destruct (ch_closed (stopCh cm)) eqn:Ec.
    + unfold Stop, mbind, M_bind, zoom, ch_close in E. by rewrite Ec in E.
    + by apply (wp_Ret _ _ _ _ _ (Stop_spec order cm Hok Ho Ec) E).
  - destruct Hok as [A D B F I V]. split; try done. intros a p Hp. apply V.
    unfold served in *. simpl in Hp. rewrite Es. simpl. by eapply lookup_weaken.
Qed.

Lemma cm_reachable_ok asm cm :
  from_option asm_inv True asm → from_option asm_view ∅ asm = ∅ →
  rtc cm_step (NewConnectionManager asm) cm → cm_ok cm.
Proof.
  intros Hi Hv Hr. eapply rtc_invariant; [done|by apply cm_ok_new|]. intros ???. by apply cm_step_ok.
Qed.

(** ** Properties *)

(** C4: in every state the connection manager can reach, however registrations,
    replacements, sends, sweeps, stops and server failures follow each other: the
    operations under the lock neither panic nor block ([Stop] the first time; a second
    [Stop] panics, its [stopCh] being closed); [SendToAgent] looks an agent up
    without blocking, and its [select], on a connection the lookup found now or
    earlier, returns on a timeout, returns on a cancelled connection, and sends
    exactly if the connection is still registered and its queue is not full (it
    waits if it is full, and panics if the connection was dropped after the
    lookup); the connections registered are open and all others cancelled and
    closed, so none is leaked; and every HTTP server belongs to a registered
    agent whose connection carries its port. *)
Theorem connection_manager_safe asm cm :
  from_option asm_inv True asm → from_option asm_view ∅ asm = ∅ →
  rtc cm_step (NewConnectionManager asm) cm →
  (∀ a stream now, wp (Register a stream now) cm (λ _ _, True)) ∧
  (∀ a, wp (Deregister a) cm (λ _ _, True)) ∧
  (∀ a now, wp (UpdateLastSeen a now) cm (λ _ _, True)) ∧
  (∀ order now, wp (removeStaleConnections order now) cm (λ _ _, True)) ∧
  (∀ order, order ≡ₚ keys (agents cm) →
     if ch_closed (stopCh cm) then Stop order cm = Panic "close of closed channel" cm
     else wp (Stop order) cm (λ _ cm', ch_closed (stopCh cm') = true)) ∧
  (∀ a, wp (SendToAgent_lookup a) cm (λ r cm', cm' = cm ∧ ∀ ptr, r = Ok ptr → agents cm !! a = Some ptr)) ∧
  (∀ choice a ptr msg c, conns cm !! ptr = Some c →
     SendToAgent_select choice a ptr msg cm =
     match choice with
     | CaseTimeout => Ret (Err (Errorf ("timeout sending message to agent: " +:+ a))) cm
     | CaseDone =>
         if bool_decide (agents cm !! ID c = Some ptr) then Block cm
         else Ret (Err (Errorf ("agent connection closed: " +:+ a))) cm
     | CaseSend =>
         if bool_decide (agents cm !! ID c = Some ptr)
         then if bool_decide (length (ch_buf (SendCh c)) < sendChannelBuffer)
              then Ret (Ok ()) (set_conns (<[ptr := queued msg c]> (conns cm)) cm) else Block cm
         else Panic "send on closed channel" cm
     end) ∧
  (∀ a ptr, agents cm !! a = Some ptr → ∃ c, conns cm !! ptr = Some c ∧ ID c = a ∧ open_conn c) ∧
  (∀ ptr c, conns cm !! ptr = Some c → agents cm !! ID c = Some ptr ∨ dead_conn c) ∧
  (∀ a p, served cm !! a = Some p →
     ∃ ptr c, agents cm !! a = Some ptr ∧ conns cm !! ptr = Some c ∧ Port c = p).
Proof.
  intros Hi Hv Hr. pose proof (cm_reachable_ok _ _ Hi Hv Hr) as Hok. split_and!.
  - intros. eapply wp_mono; [by apply Register_spec|done].
  - intros. eapply wp_mono; [by apply Deregister_spec|done].
  - intros. eapply wp_mono; [by apply UpdateLastSeen_spec|done].
  - intros. eapply wp_mono; [by apply removeStale_loop_spec|done].
  - intros order Ho. destruct (ch_closed (stopCh cm)) eqn:Ec; [by apply Stop_closed|].
    eapply wp_mono; [by apply Stop_spec|]. by intros [] cm' (_ & _ & _ & Hc & _).
  - intros a. unfold SendToAgent_lookup. wp_steps. split; [done|]. destruct (agents cm !! a); naive_solver.
  - intros choice a ptr msg c Hc. rewrite (SendToAgent_select_eq _ _ _ _ _ _ Hok Hc).
    destruct (registered_or_dead _ _ _ Hok Hc) as [(Hb & -> & ->)|(Hb & -> & ->)]; by rewrite Hb.
  - apply Hok.
  - intros ptr c Hc. destruct (decide (agents cm !! ID c = Some ptr)); [by left|right].
    by eapply (co_dead _ Hok).
  - apply Hok.
Qed.

(** [Register] replaces the agent's previous connection (cancelling it,
    closing its channel and stopping its HTTP server) by a fresh one with an
    empty queue, stamped with the current time; with a server manager the new
    connection carries the port of the agent's running server, which no other
    agent has.  If no server can be started the agent ends up unregistered.
    Other agents' entries and connections are untouched either way. *)
Theorem Register_correct a stream now cm :
  cm_ok cm →
  wp (Register a stream now) cm (λ r cm', cm_ok cm' ∧
    (∀ b, b ≠ a → agents cm' !! b = agents cm !! b ∧
       ∀ ptr, agents cm !! b = Some ptr → conns cm' !! ptr = conns cm !! ptr) ∧
    (∀ ptr c, agents cm !! a = Some ptr → conns cm !! ptr = Some c →
       conns cm' !! ptr = Some (closed c)) ∧
    match r with
    | Ok ptr => conns cm !! ptr = None ∧ agents cm' !! a = Some ptr ∧
        ∃ p, conns cm' !! ptr = Some (new_conn a stream now p) ∧
          match agentServerManager cm with
          | None => p = 0%Z
          | Some _ => served cm' !! a = Some p ∧ (1 ≤ p ≤ 65535)%Z ∧
                      (∀ b, b ≠ a → served cm' !! b ≠ Some p)
          end
    | Err _ => is_Some (agentServerManager cm) ∧ agents cm' !! a = None ∧ served cm' !! a = None
    end).
Proof.
  intros Hok. eapply wp_mono; [by apply Register_spec|]. intros r cm' (Hok' & _ & Hr).
  assert (∀ ptr, is_Some (conns cm !! ptr) → ptr ≠ next_conn cm) as Hfr.
  { intros ptr Hp%(co_fresh _ Hok). lia. }
  assert (∀ b ptr, b ≠ a → agents cm !! b = Some ptr →
    close_old a cm !! ptr = conns cm !! ptr ∧ ptr ≠ next_conn cm) as Hoth.
  { intros b ptr Hb Hp. destruct (co_agent _ Hok _ _ Hp) as (c & Hc & _).
    split; [|apply Hfr; by eexists]. unfold close_old.
    destruct (agents cm !! a) as [q|] eqn:Ea; [|done].
    rewrite lookup_alter_ne; [done|]. intros ->. apply Hb. apply (cm_ok_agent_inj cm _ _ _ Hok Hp Ea). }
  assert (∀ ptr c, agents cm !! a = Some ptr → conns cm !! ptr = Some c →
    close_old a cm !! ptr = Some (closed c)) as Hold.
  { intros ptr c Ha Hc. unfold close_old. by rewrite Ha, lookup_alter_eq, Hc. }
  split; [done|]. destruct r as [ptr|e].
  - destruct Hr as (-> & Eag & p & Eco & Hm). rewrite Eag, Eco. split_and!.
    + intros b Hb. rewrite lookup_insert_ne by done. split; [done|]. intros q Hq.
      destruct (Hoth b q Hb Hq). by rewrite lookup_insert_ne.
    + intros q c Hq Hc. rewrite lookup_insert_ne by (symmetry; apply Hfr; by eexists). auto.
    + apply eq_None_not_Some. intros Hs. by apply (Hfr _ Hs).
    + apply lookup_insert_eq.
    + exists p. rewrite lookup_insert_eq. split; [done|].
      destruct (agentServerManager cm); [|tauto]. destruct Hm as (-> & Hp & Hf).
      rewrite lookup_insert_eq. split; [done|]. split; [done|]. intros b Hb.
      rewrite lookup_insert_ne by done. by apply Hf.
  - destruct Hr as (Hs & Eag & Eco & Esv). rewrite Eag, Eco, Esv. split_and!; try done.
    + intros b Hb. rewrite lookup_delete_ne by done. split; [done|]. intros q Hq.
      by destruct (Hoth b q Hb Hq).
    + apply lookup_delete_eq.
    + apply lookup_delete_eq.
Qed.

(** [removeStaleConnections] drops exactly the agents last seen more than
    two minutes ago, whatever order the map is visited in: their connections
    are cancelled and closed, their HTTP servers stopped and their entries
    deleted, and every other entry, connection and server stays as it was. *)
Theorem removeStaleConnections_correct order now cm :
  cm_ok cm → order ≡ₚ keys (agents cm) →
  wp (removeStaleConnections order now) cm (λ _ cm', cm_ok cm' ∧
    (∀ a ptr c, agents cm !! a = Some ptr → conns cm !! ptr = Some c →
       if (now - LastSeen c >? staleConnectionTimeout)%Z
       then agents cm' !! a = None ∧ conns cm' !! ptr = Some (closed c) ∧ served cm' !! a = None
       else agents cm' !! a = Some ptr ∧ conns cm' !! ptr = Some c ∧
            served cm' !! a = served cm !! a) ∧
    (∀ a, agents cm !! a = None → agents cm' !! a = None)).
Proof.
  intros Hok Hord. eapply wp_mono; [by apply removeStale_loop_spec|].
  intros [] cm' (Hok' & [A C Sv _ _]). split; [done|]. split.
  - intros a ptr c Ha Hc. destruct (cm_ok_droppable _ _ _ _ Hok Ha Hc) as (Hid & _).
    assert (is_stale now cm a = (now - LastSeen c >? staleConnectionTimeout)%Z) as Hst.
    { unfold is_stale. rewrite Ha. simpl. by rewrite Hc. }
    assert (a ∈ order) as Hin by (rewrite Hord, elem_of_keys; by eexists).
    rewrite A, C, Sv, Hc, Hst, (bool_decide_eq_true_2 _ Hin). simpl.
    rewrite Hid, Hst, (bool_decide_eq_true_2 _ Hin), Ha, bool_decide_eq_true_2 by done.
    by case_match.
  - intros a Ha. rewrite A, Ha. by case_match.
Qed.

(** [Stop], called once, leaves no agent registered, no connection open and
    no HTTP server running, whatever the order of the map. *)
Theorem Stop_correct order cm :
  cm_ok cm → order ≡ₚ keys (agents cm) → ch_closed (stopCh cm) = false →
  wp (Stop order) cm (λ _ cm', agents cm' = ∅ ∧ served cm' = ∅ ∧
    (∀ ptr c, conns cm' !! ptr = Some c → dead_conn c) ∧
    (∀ order', ∃ msg cm'', Stop order' cm' = Panic msg cm'')).
Proof.
  intros Hok Hord Hst. eapply wp_mono; [by apply Stop_spec|].
  intros [] cm' (_ & Ha & Hs & Hc & Hd & _). split_and!; try done.
  intros order'. unfold Stop, mbind, M_bind, zoom, ch_close. rewrite Hc. by do 2 eexists.
Qed.

(** With the lookup and the [select] uninterrupted, [SendToAgent] to a
    registered agent either appends the message to the end of that agent's
    queue, leaving the messages before it in order and every other connection
    alone, or changes nothing; it reports success exactly when it appended, and
    the queue never exceeds its 100 slots. *)
Theorem SendToAgent_correct choice a msg cm :
  cm_ok cm →
  match SendToAgent choice a msg cm with
  | Ret (Ok _) cm' => ∃ ptr c,
      agents cm !! a = Some ptr ∧ conns cm !! ptr = Some c ∧
      (∃ c', conns cm' !! ptr = Some c' ∧ ch_buf (SendCh c') = ch_buf (SendCh c) ++ [msg] ∧
             length (ch_buf (SendCh c')) ≤ sendChannelBuffer) ∧
      (∀ q, q ≠ ptr → conns cm' !! q = conns cm !! q) ∧ agents cm' = agents cm
  | Ret (Err _) cm' | Block cm' => cm' = cm
  | Panic _ _ => False
  end.
Proof.
  intros Hok. pose proof (SendToAgent_spec choice a msg cm Hok) as Hs.
  destruct (SendToAgent _ _ _ _) as [[[]|e] cm'| |]; try tauto.
  destruct Hs as (_ & ptr & c & Ha & Hc & Hlen & ->). exists ptr, c. split_and!; try done.
  - exists (queued msg c). simpl. rewrite lookup_insert_eq. split_and!; try done.
    rewrite length_app. simpl. lia.
  - intros q Hq. simpl. by rewrite lookup_insert_ne.
Qed.
End Proofs.

(** ** A one-port server manager, to run the theorems on *)
Module OnePort.
Definition start (a : string) : M (option string) (result Z) := λ s,
  match s with
  | None => Ret (Ok 8100%Z) (Some a)
  | Some _ => Ret (Err (Errorf "no available ports")) s
  end.
Definition stop (a : string) : M (option string) (result unit) := λ s,
  if decide (s = Some a) then Ret (Ok ()) None else Ret (Err (Errorf "no server found")) s.
Definition shutdown : M (option string) (result unit) := λ _, Ret (Ok ()) None.

#[global] Instance ops : AgentServerOps (option string) :=
  {| asm_start := start; asm_stop := stop; asm_shutdown := shutdown |}.

Definition view (s : option string) : gmap string Z :=
  match s with Some a => {[a := 8100%Z]} | None => ∅ end.

#[global] Instance spec : AgentServerSpec (option string).
Proof.
  refine {| asm_inv := λ _, True; asm_view := view |}.
  - intros [c|] a b p _ Ha Hb; simpl in *; [|done].
    apply lookup_singleton_Some in Ha as [<- _]. by apply lookup_singleton_Some in Hb as [<- _].
  - intros [c|] a p _ Ha; simpl in *; [|done]. apply lookup_singleton_Some in Ha as [_ <-]. lia.
  - intros a [c|] _; unfold wp; simpl; done.
  - intros a s _. unfold wp, asm_stop. simpl. unfold stop. case_decide as E; simpl.
    + subst. simpl. by rewrite delete_singleton_eq.
    + split; [done|]. destruct s as [c|]; simpl; [|by rewrite delete_empty].
      rewrite delete_id; [done|]. apply lookup_singleton_ne. congruence.
  - done.
Defined.

Definition cm0 : ConnectionManager (option string) := NewConnectionManager (Some None).

Lemma cm0_ok : cm_ok cm0.
Proof. by apply cm_ok_new. Qed.

(** One agent registered at time 0. *)
Definition cm1 : ConnectionManager (option string) :=
  mkCM {["a" := 0]} {[0 := new_conn "a" 7 0 8100]} 1 (make_chan 0) (Some (Some "a")).

Lemma cm1_run : Register "a" 7 0 cm0 = Ret (Ok 0) cm1.
Proof. vm_compute. reflexivity. Qed.

Lemma cm1_reachable : rtc cm_step cm0 cm1.
Proof. eapply rtc_once, step_register, cm1_run. Qed.

Lemma cm1_ok : cm_ok cm1.
Proof. by apply (cm_step_ok cm0); [apply cm0_ok|eapply step_register, cm1_run]. Qed.
End OnePort.

Lemma connection_manager_safe_witness :
  wp (Register "a" 8 5) OnePort.cm1 (λ _ _, True) ∧
  SendToAgent_select CaseSend "a" 0 (mkMsg "1" MessageType_PONG "" ∅) OnePort.cm1 ≠ Block OnePort.cm1.
Proof.
  destruct (connection_manager_safe (Some None) OnePort.cm1) as (H1 & _ & _ & _ & _ & _ & H2 & _).
  - exact I.
  - reflexivity.
  - exact OnePort.cm1_reachable.
  - split; [apply H1|].
    rewrite (H2 CaseSend "a" 0 (mkMsg "1" MessageType_PONG "" ∅) (new_conn "a" 7 0 8100) eq_refl). discriminate.
Defined.

Lemma Register_correct_witness :
  wp (Register "a" 8 5) OnePort.cm1 (λ r cm', ∀ ptr c,
    agents OnePort.cm1 !! "a" = Some ptr → conns OnePort.cm1 !! ptr = Some c →
    conns cm' !! ptr = Some (closed c)).
Proof.
  eapply wp_mono; [apply (Register_correct "a" 8 5 OnePort.cm1 OnePort.cm1_ok)|].
  intros r cm' (_ & _ & Hold & _). exact Hold.
Defined.

Lemma removeStaleConnections_correct_witness :
  wp (removeStaleConnections ["a"] (121 * second)) OnePort.cm1 (λ _ cm',
    agents cm' !! "a" = None ∧ served cm' !! "a" = None).
Proof.
  eapply wp_mono; [apply (removeStaleConnections_correct ["a"] (121 * second) OnePort.cm1)|].
  - exact OnePort.cm1_ok.
  - reflexivity.
  - intros _ cm' (_ & Hst & _). specialize (Hst "a" 0 (new_conn "a" 7 0 8100) eq_refl eq_refl).
    destruct Hst as (H1 & _ & H3). split; assumption.
Defined.

Lemma Stop_correct_witness :
  wp (Stop ["a"]) OnePort.cm1 (λ _ cm', agents cm' = ∅ ∧ served cm' = ∅).
Proof.
  eapply wp_mono; [apply (Stop_correct ["a"] OnePort.cm1)|].
  - exact OnePort.cm1_ok.
  - reflexivity.
  - reflexivity.
  - intros _ cm' (H1 & H2 & _). split; assumption.
Defined.

Lemma SendToAgent_correct_witness :
  match SendToAgent CaseSend "a" (mkMsg "1" MessageType_PONG "" ∅) OnePort.cm1 with
  | Ret (Ok _) cm' => agents cm' = {["a" := 0]}
  | _ => False
  end.
Proof.
  pose proof (SendToAgent_correct CaseSend "a" (mkMsg "1" MessageType_PONG "" ∅)
    OnePort.cm1 OnePort.cm1_ok) as Hs.
  vm_compute (SendToAgent _ _ _ _) in Hs |- *.
  destruct Hs as (ptr & c & _ & _ & _ & _ & Ha). exact Ha.
Defined.
