(* ===== verification/Sweeper.v ===== *)
(** * The sweep of silent connections, in time

    Models the goroutine [cleanupStaleConnections] of
    [src/internal/grpc/server/connection_manager.go] that [NewConnectionManager]
    starts, with the clock: what the operations of the manager read from
    [time.Now()] is the time at which they run, and the ticker comes due every
    [cleanupInterval].  [slack] bounds how late the goroutine takes up a tick. *)
From stdpp Require Import base strings list gmap fin_maps relations.
From Stdlib Require Import ZArith Lia.
From S2P Require Import Prelude GoStd Proto ServerInterface ConnectionManager.

Definition cleanupInterval : Z := 30 * second.

Section Code.
Context {S : Type} `{AgentServerSpec S}.
Notation CM := (ConnectionManager S).

(** The goroutine at its [select]: when the next tick is due, or returned. *)
Definition sweeper : Type := option Z.

(** One round of the [select] at a time: a tick that has come due sweeps, a closed
    [stopCh] ends the goroutine. *)
Inductive cleanupStaleConnections (now : Z) : CM → sweeper → CM → sweeper → Prop :=
  | sweep_tick cm cm' due order :
      (due ≤ now)%Z → order ≡ₚ keys (agents cm) → removeStaleConnections order now cm = Ret () cm' →
      cleanupStaleConnections now cm (Some due) cm' (Some (due + cleanupInterval)%Z)
  | sweep_stop cm due :
      ch_closed (stopCh cm) = true → cleanupStaleConnections now cm (Some due) cm None.

Record timed : Type := mkTimed { t_cm : CM; t_clock : Z; t_sweeper : sweeper }.

(** [NewConnectionManager] with the goroutine it starts. *)
Definition timed_init (asm : option S) (now : Z) : timed :=
  mkTimed (NewConnectionManager asm) now (Some (now + cleanupInterval)%Z).

Inductive timed_step (slack : Z) : timed → timed → Prop :=
  | ts_advance cm now sw d :
      (0 ≤ d)%Z → (∀ due, sw = Some due → now + d ≤ due + slack)%Z →
      timed_step slack (mkTimed cm now sw) (mkTimed cm (now + d)%Z sw)
  | ts_sweeper cm cm' now sw sw' :
      cleanupStaleConnections now cm sw cm' sw' →
      timed_step slack (mkTimed cm now sw) (mkTimed cm' now sw')
  | ts_register cm cm' now sw a stream r :
      Register a stream now cm = Ret r cm' → timed_step slack (mkTimed cm now sw) (mkTimed cm' now sw)
  | ts_deregister cm cm' now sw a :
      Deregister a cm = Ret () cm' → timed_step slack (mkTimed cm now sw) (mkTimed cm' now sw)
  | ts_send cm cm' now sw choice a ptr msg r :
      SendToAgent_select choice a ptr msg cm = Ret r cm' → timed_step slack (mkTimed cm now sw) (mkTimed cm' now sw)
  | ts_seen cm cm' now sw a :
      UpdateLastSeen a now cm = Ret () cm' → timed_step slack (mkTimed cm now sw) (mkTimed cm' now sw)
  | ts_stop cm cm' now sw order :
      order ≡ₚ keys (agents cm) → Stop order cm = Ret () cm' →
      timed_step slack (mkTimed cm now sw) (mkTimed cm' now sw)
  | ts_server_lost cm now sw s s' :
      agentServerManager cm = Some s → asm_inv s' → asm_view s' ⊆ asm_view s →
      timed_step slack (mkTimed cm now sw) (mkTimed (set_manager (Some s') cm) now sw).

(** ** Facts *)

(** What an operation at [now] does to the registered connections: it may drop them,
    and those it leaves were last seen when they were, or are seen now. *)
Definition refreshed (now : Z) (cm cm' : CM) : Prop :=
  ∀ a ptr c', agents cm' !! a = Some ptr → conns cm' !! ptr = Some c' →
    LastSeen c' = now ∨
    ∃ c, agents cm !! a = Some ptr ∧ conns cm !! ptr = Some c ∧ LastSeen c' = LastSeen c.

Lemma refreshed_same now (cm cm' : CM) :
  agents cm' = agents cm → conns cm' = conns cm → refreshed now cm cm'.
Proof. intros Ea Ec a ptr c. rewrite Ea, Ec. intros Ha Hc. right. by exists c. Qed.

Lemma close_old_seen a (cm : CM) ptr c' :
  close_old a cm !! ptr = Some c' → ∃ c, conns cm !! ptr = Some c ∧ LastSeen c' = LastSeen c.
Proof.
  unfold close_old. destruct (agents cm !! a) as [p|]; [|intros Hc; by exists c'].
  rewrite lookup_alter. case_decide; [|intros Hc; by exists c']. subst. intros (c & Hc & ->)%fmap_Some. by exists c.
Qed.

Lemma Register_refreshed a stream now cm cm' r :
  cm_ok cm → Register a stream now cm = Ret r cm' → refreshed now cm cm'.
Proof.
  intros Hok E. destruct (wp_Ret _ _ _ _ _ (Register_spec a stream now cm Hok) E) as (_ & _ & Hr).
  intros b ptr c'. destruct r as [p|e].
  - destruct Hr as (-> & Ea & port & Ec & _). rewrite Ea, Ec, lookup_insert. case_decide as Hb.
    + intros [= <-]. rewrite lookup_insert_eq. intros [= <-]. by left.
    + intros Hag. destruct (co_agent _ Hok _ _ Hag) as (c & Hc & _).
      rewrite lookup_insert_ne by (pose proof (co_fresh _ Hok ptr ltac:(by eexists)); lia).
      intros (c1 & Hc1 & El)%close_old_seen. right. by exists c1.
  - destruct Hr as (_ & Ea & Ec & _). rewrite Ea, Ec. intros [_ Hag]%lookup_delete_Some.
    intros (c1 & Hc1 & El)%close_old_seen. right. by exists c1.
Qed.

Lemma Deregister_refreshed a now cm cm' : cm_ok cm → Deregister a cm = Ret () cm' → refreshed now cm cm'.
Proof.
  intros Hok E. destruct (wp_Ret _ _ _ _ _ (Deregister_spec a cm Hok) E) as (_ & _ & Ea & Ec & _).
  intros b ptr c'. rewrite Ea, Ec. intros [_ Hag]%lookup_delete_Some.
  intros (c1 & Hc1 & El)%close_old_seen. right. by exists c1.
Qed.

Lemma SendToAgent_refreshed choice a ptr msg now cm cm' r :
  cm_ok cm → SendToAgent_select choice a ptr msg cm = Ret r cm' → refreshed now cm cm'.
Proof.
  intros Hok E. destruct (SendToAgent_select_Ret _ _ _ _ _ _ _ Hok E) as [_ Hs].
  destruct r as [u|e]; [|subst; by apply refreshed_same].
  destruct Hs as (c & Hc & ->). intros b q c'. simpl. intros Hb. rewrite lookup_insert.
  case_decide as Hp; [|intros Hc'; right; by eexists]. intros [= <-]. right. exists c. by subst.
Qed.

Lemma UpdateLastSeen_refreshed a now cm cm' :
  cm_ok cm → UpdateLastSeen a now cm = Ret () cm' → refreshed now cm cm'.
Proof.
  intros Hok E. destruct (wp_Ret _ _ _ _ _ (UpdateLastSeen_spec a now cm Hok) E) as [_ Hu].
  destruct (agents cm !! a) as [p|]; subst; [|by apply refreshed_same].
  intros b ptr c'. simpl. rewrite lookup_alter. case_decide; [|intros ? Hc; right; by eexists].
  intros _ (c & _ & ->)%fmap_Some. by left.
Qed.

(** A sweep keeps what was seen in time, as it was, and nothing else. *)
Lemma sweep_keeps order now cm cm' a ptr c :
  cm_ok cm → order ≡ₚ keys (agents cm) → removeStaleConnections order now cm = Ret () cm' →
  agents cm !! a = Some ptr → conns cm !! ptr = Some c → (now - LastSeen c ≤ staleConnectionTimeout)%Z →
  agents cm' !! a = Some ptr ∧ conns cm' !! ptr = Some c.
Proof.
  intros Hok Ho E Ha Hc Hl. destruct (wp_Ret _ _ _ _ _ (removeStale_loop_spec order now cm Hok) E) as [_ [A C _ _ _]].
  destruct (cm_ok_droppable _ _ _ _ Hok Ha Hc) as (Hid & _).
  assert (is_stale now cm a = false) as Hs.
  { unfold is_stale. rewrite Ha. simpl. rewrite Hc. lia. }
  rewrite A, C, Hc, Hs, andb_false_r. simpl. by rewrite Hid, Hs, andb_false_r.
Qed.

Lemma sweep_drops order now cm cm' a ptr c' :
  cm_ok cm → order ≡ₚ keys (agents cm) → removeStaleConnections order now cm = Ret () cm' →
  agents cm' !! a = Some ptr → conns cm' !! ptr = Some c' →
  ∃ c, agents cm !! a = Some ptr ∧ conns cm !! ptr = Some c ∧ LastSeen c' = LastSeen c ∧
    (now - LastSeen c ≤ staleConnectionTimeout)%Z.
Proof.
  intros Hok Ho E. destruct (wp_Ret _ _ _ _ _ (removeStale_loop_spec order now cm Hok) E) as [_ [A C _ _ _]].
  rewrite A, C. destruct (bool_decide (a ∈ order) && is_stale now cm a) eqn:Eg; [done|].
  intros Ha (c & Hc & ->)%fmap_Some. exists c. split_and!; try done; [by case_match|].
  rewrite bool_decide_eq_true_2 in Eg by (rewrite Ho; apply elem_of_keys; by eexists).
  unfold is_stale in Eg. rewrite Ha in Eg. simpl in Eg. rewrite Hc in Eg. lia.
Qed.

(** ** The invariant *)

(** While the goroutine runs, what is registered was seen within the timeout at the
    last tick. *)
Definition swept (slack now : Z) (cm : CM) (sw : sweeper) : Prop :=
  ∀ due, sw = Some due →
    (due - cleanupInterval ≤ now ≤ due + slack)%Z ∧
    ∀ a ptr c, agents cm !! a = Some ptr → conns cm !! ptr = Some c →
      (due - cleanupInterval - staleConnectionTimeout ≤ LastSeen c ≤ now)%Z.

Definition timed_ok (slack : Z) (t : timed) : Prop :=
  cm_ok (t_cm t) ∧ swept slack (t_clock t) (t_cm t) (t_sweeper t).

Lemma swept_refreshed slack now cm cm' sw :
  refreshed now cm cm' → swept slack now cm sw → swept slack now cm' sw.
Proof.
  intros Hr Hs due E. destruct (Hs due E) as [Hd Hl]. split; [done|]. intros a ptr c' Ha Hc.
  destruct (Hr a ptr c' Ha Hc) as [->|(c & Ha' & Hc' & ->)]; [|by eapply Hl].
  unfold staleConnectionTimeout, minute, second in *. lia.
Qed.

Lemma swept_dropped slack now cm cm' sw :
  (∀ a ptr, agents cm' !! a = Some ptr → False) → swept slack now cm sw → swept slack now cm' sw.
Proof. intros He Hs due E. destruct (Hs due E). split; [done|]. intros a ptr c Ha. by apply He in Ha. Qed.

Lemma timed_ok_init slack asm now :
  from_option asm_inv True asm → from_option asm_view ∅ asm = ∅ → (0 ≤ slack)%Z →
  timed_ok slack (timed_init asm now).
Proof.
  intros Hi Hv Hsl. split; [by apply cm_ok_new|]. intros due [= <-]. simpl.
  split; [unfold cleanupInterval, second; lia|]. intros a ptr c Ha. by rewrite lookup_empty in Ha.
Qed.

Lemma cleanup_swept slack now cm sw cm' sw' :
  cm_ok cm → cleanupStaleConnections now cm sw cm' sw' → swept slack now cm sw →
  cm_ok cm' ∧ swept slack now cm' sw'.
Proof.
  intros Hok Hst Hs. destruct Hst as [cm cm' due order Hd Ho E|cm due Hc].
  - split; [exact (cm_step_ok _ _ Hok (step_sweep _ _ _ _ Ho E))|]. intros due' [= <-].
    destruct (Hs due eq_refl) as [Hn Hl]. split; [unfold cleanupInterval, second in *; lia|].
    intros a ptr c' Ha Hc'.
    destruct (sweep_drops _ _ _ _ _ _ _ Hok Ho E Ha Hc') as (c & Ha' & Hc & -> & Ht).
    pose proof (Hl a ptr c Ha' Hc). unfold cleanupInterval, second in *. lia.
  - by split.
Qed.

Lemma timed_ok_step slack t t' : timed_ok slack t → timed_step slack t t' → timed_ok slack t'.
Proof.
  intros [Hok Hs] Hst. destruct Hst as [cm now sw d Hd Hdue|cm cm' now sw sw' E|cm cm' now sw a stream r E
    |cm cm' now sw a E|cm cm' now sw choice a ptr msg r E|cm cm' now sw a E|cm cm' now sw order Ho E
    |cm now sw s s' Es Hi Hv]; simpl in *.
  - split; [done|]. intros due E. simpl in *. destruct (Hs due E) as [Hn Hl]. specialize (Hdue due E).
    split; [lia|]. intros a ptr c Ha Hc. specialize (Hl a ptr c Ha Hc). lia.
  - by eapply cleanup_swept.
  - split; [exact (cm_step_ok _ _ Hok (step_register _ _ _ _ _ _ E))|]. by eapply swept_refreshed; [eapply Register_refreshed; [exact Hok|exact E]|].
  - split; [exact (cm_step_ok _ _ Hok (step_deregister _ _ _ E))|]. by eapply swept_refreshed; [eapply Deregister_refreshed; [exact Hok|exact E]|].
  - split; [exact (cm_step_ok _ _ Hok (step_select _ _ _ _ _ _ _ E))|]. by eapply swept_refreshed; [eapply SendToAgent_refreshed; [exact Hok|exact E]|].
  - split; [exact (cm_step_ok _ _ Hok (step_seen _ _ _ _ E))|]. by eapply swept_refreshed; [eapply UpdateLastSeen_refreshed; [exact Hok|exact E]|].
  - split; [exact (cm_step_ok _ _ Hok (step_stop _ _ _ Ho E))|]. eapply swept_dropped; [|done]. simpl. intros a ptr Ha.
    destruct (ch_closed (stopCh cm)) eqn:Ec.
    + unfold Stop, mbind, M_bind, zoom, ch_close in E. by rewrite Ec in E.
    + destruct (wp_Ret _ _ _ _ _ (Stop_spec order cm Hok Ho Ec) E) as (_ & He & _).
      by rewrite He, lookup_empty in Ha.
  - split; [exact (cm_step_ok _ _ Hok (step_server_lost _ _ _ Es Hi Hv))|]. eapply swept_refreshed; [by apply refreshed_same|done].
Qed.

(** ** Properties *)

(** C11: a silent agent is dropped in time: in every state the manager and its sweep can
    reach, an agent still registered was last seen at most the timeout, one interval of
    the ticker and the delay of the goroutine ago, 150 s and the delay; no round of the
    sweep drops an agent seen within the timeout; and a goroutine that has seen [Stop]
    returns, while one that has not returned has a tick coming. *)
Theorem silent_agents_dropped slack asm start t :
  from_option asm_inv True asm → from_option asm_view ∅ asm = ∅ → (0 ≤ slack < cleanupInterval)%Z →
  rtc (timed_step slack) (timed_init asm start) t →
  (∀ due a ptr c, t_sweeper t = Some due → agents (t_cm t) !! a = Some ptr → conns (t_cm t) !! ptr = Some c →
     (0 ≤ t_clock t - LastSeen c ≤ staleConnectionTimeout + cleanupInterval + slack)%Z) ∧
  (∀ cm' sw' a ptr c, cleanupStaleConnections (t_clock t) (t_cm t) (t_sweeper t) cm' sw' →
     agents (t_cm t) !! a = Some ptr → conns (t_cm t) !! ptr = Some c →
     (t_clock t - LastSeen c ≤ staleConnectionTimeout)%Z →
     agents cm' !! a = Some ptr ∧ conns cm' !! ptr = Some c) ∧
  (∀ due, t_sweeper t = Some due →
     (ch_closed (stopCh (t_cm t)) = true ∧
        cleanupStaleConnections (t_clock t) (t_cm t) (Some due) (t_cm t) None) ∨
     (due ≤ t_clock t)%Z ∧ (∃ cm', cleanupStaleConnections (t_clock t) (t_cm t) (Some due) cm' (Some (due + cleanupInterval)%Z)) ∨
     timed_step slack t (mkTimed (t_cm t) due (Some due))).
Proof.
  intros Hi Hv Hsl Hr. assert (timed_ok slack t) as [Hok Hs].
  { eapply rtc_invariant; [exact Hr|apply timed_ok_init; [done|done|lia]|]. intros ???. by apply timed_ok_step. }
  split_and!.
  - intros due a ptr c E Ha Hc. destruct (Hs due E) as [Hn Hl]. specialize (Hl a ptr c Ha Hc). lia.
  - intros cm' sw' a ptr c Hst Ha Hc Ht. inversion Hst; subst; [|done]. by eapply sweep_keeps.
  - intros due E. destruct t as [cm now sw]; simpl in *; subst.
    destruct (ch_closed (stopCh cm)) eqn:Ec; [left; split; [done|by constructor]|right].
    destruct (decide (due ≤ now)%Z) as [Hle|Hlt]; [left; split; [done|]|right].
    + pose proof (removeStale_loop_spec (keys (agents cm)) now cm Hok) as Hw. unfold wp in Hw.
      destruct (removeStaleConnections _ _ _) as [[] cm'| |] eqn:Er; [|done|done].
      exists cm'. by eapply sweep_tick.
    + pose proof (ts_advance slack cm now (Some due) (due - now)) as Ha.
      replace (now + (due - now))%Z with due in Ha by lia. apply Ha; [lia|]. intros ? [= <-]. lia.
Qed.
End Code.
Arguments timed S : clear implicits.

(** An agent registered when the server starts that says nothing: still there when
    the fifth tick comes due, since at the fourth it had been silent for exactly the
    timeout, and dropped by it. *)
Module Silent.
Definition at_tick (n : Z) : timed (option string) :=
  mkTimed OnePort.cm1 (n * cleanupInterval) (Some (n * cleanupInterval)%Z).

Lemma kept_until_timeout (n : Z) :
  n ∈ [1; 2; 3; 4]%Z → removeStaleConnections ["a"] (n * cleanupInterval) OnePort.cm1 = Ret () OnePort.cm1.
Proof. rewrite !elem_of_cons, elem_of_nil. intros [->|[->|[->|[->|[]]]]]; vm_compute; reflexivity. Qed.

Lemma waits (now due : Z) cm :
  (now ≤ due)%Z → timed_step second (mkTimed cm now (Some due)) (mkTimed cm due (Some due)).
Proof.
  intros Hle. pose proof (ts_advance second cm now (Some due) (due - now)) as Ha.
  replace (now + (due - now))%Z with due in Ha by lia. apply Ha; [lia|].
  intros ? [= <-]. unfold second. lia.
Qed.

Lemma next_tick (n : Z) : n ∈ [1; 2; 3; 4]%Z → rtc (timed_step second) (at_tick n) (at_tick (n + 1)).
Proof.
  intros Hn. eapply rtc_l.
  - eapply ts_sweeper, (sweep_tick _ _ _ _ ["a"]); [done|reflexivity|by apply kept_until_timeout].
  - unfold at_tick. replace ((n + 1) * cleanupInterval)%Z with (n * cleanupInterval + cleanupInterval)%Z by lia.
    apply rtc_once, waits. unfold cleanupInterval, second. lia.
Qed.

Lemma silent_reachable : rtc (timed_step second) (timed_init (Some None) 0) (at_tick 5).
Proof.
  eapply rtc_l; [eapply ts_register, OnePort.cm1_run|].
  eapply rtc_l; [apply (waits 0 (1 * cleanupInterval)); done|].
  do 3 (etrans; [apply next_tick; set_solver|]). apply (next_tick 4). set_solver.
Qed.

Definition dropped : ConnectionManager (option string) :=
  mkCM ∅ {[0 := closed (new_conn "a" 7 0 8100)]} 1 (make_chan 0) (Some None).

Example fifth_tick_drops :
  removeStaleConnections ["a"] (5 * cleanupInterval) OnePort.cm1 = Ret () dropped.
Proof. vm_compute. reflexivity. Qed.
End Silent.

Lemma silent_agents_dropped_witness :
  (0 ≤ 5 * cleanupInterval - 0 ≤ staleConnectionTimeout + cleanupInterval + second)%Z.
Proof.
  destruct (silent_agents_dropped second (Some None) 0 (Silent.at_tick 5)) as (Hb & _).
  - exact I.
  - reflexivity.
  - split; [discriminate|reflexivity].
  - exact Silent.silent_reachable.
  - exact (Hb _ "a" 0 (new_conn "a" 7 0 8100) eq_refl eq_refl eq_refl).
Defined.
