(* ===== verification/GrpcServer.v ===== *)
(** * The gRPC server: matching responses to requests

    Models the request/response part of [src/internal/grpc/server/server.go]:
    [SendRequestToAgent] runs in the goroutine of an HTTP request, registers a
    one-slot channel under the message id, queues the message for the agent and
    waits; [HandleResponse] runs in the goroutine that receives from an agent's
    stream.  The two meet only in [pendingRequests], so the interesting
    behaviour is the interleaving: the atomic actions are monadic definitions,
    and [rstep] interleaves them for any number of requests and responses. *)
From stdpp Require Import base strings list gmap fin_maps relations.
From Stdlib Require Import ZArith Lia.
From S2P Require Import Prelude GoStd Proto ServerInterface ConnectionManager.

(** ** The code *)

Record Server (S : Type) : Type := mkServer {
  connManager : ConnectionManager S;
  pendingRequests : gmap string nat;           (** message id to channel address *)
  respChs : gmap nat (chan ProxyMessage);      (** the response channels, by address *)
  next_ch : nat;
}.
Arguments mkServer {S}.
Arguments connManager {S}.
Arguments pendingRequests {S}.
Arguments respChs {S}.
Arguments next_ch {S}.

(** The cases of the [select] that ends [SendRequestToAgent]. *)
Inductive wait_case : Type :=
  | WaitResponse
  | WaitTimeout
  | WaitContext (err : error).

Section Code.
Context {S : Type} `{AgentServerOps S}.
Notation Srv := (Server S).

Definition set_connManager (cm : ConnectionManager S) (s : Srv) : Srv :=
  mkServer cm (pendingRequests s) (respChs s) (next_ch s).
Definition set_pending (p : gmap string nat) (s : Srv) : Srv :=
  mkServer (connManager s) p (respChs s) (next_ch s).
Definition set_respChs (h : gmap nat (chan ProxyMessage)) (s : Srv) : Srv :=
  mkServer (connManager s) (pendingRequests s) h (next_ch s).

Definition NewServer : Srv := mkServer (NewConnectionManager None) ∅ ∅ 0.

Definition in_cm {A} : M (ConnectionManager S) A → M Srv A := zoom connManager set_connManager.

Definition Server_SetAgentServerManager (asm : S) : M Srv unit :=
  in_cm (SetAgentServerManager asm).

(** Run code on the channel at an address. *)
Definition on_chan {A} (ch : nat) (m : M (chan ProxyMessage) A) : M Srv A := λ s,
  match respChs s !! ch with
  | None => Panic "nil channel" s
  | Some c =>
      match m c with
      | Ret a c' => Ret a (set_respChs (<[ch := c']> (respChs s)) s)
      | Panic e c' => Panic e (set_respChs (<[ch := c']> (respChs s)) s)
      | Block c' => Block (set_respChs (<[ch := c']> (respChs s)) s)
      end
  end.

(** [respCh := make(chan *ProxyMessage, 1); s.pendingRequests[msg.Id] = respCh] *)
Definition register_pending (msg : ProxyMessage) : M Srv nat :=
  s ← get;
  _ ← put (mkServer (connManager s) (<[Id msg := next_ch s]> (pendingRequests s))
                    (<[next_ch s := make_chan 1]> (respChs s)) (Datatypes.S (next_ch s)));
  mret (next_ch s).

(** the deferred [delete(s.pendingRequests, msg.Id)] *)
Definition unregister_pending (msg : ProxyMessage) : M Srv unit :=
  modify (λ s, set_pending (delete (Id msg) (pendingRequests s)) s).

(** the final [select]; waiting for a response that is not there blocks *)
Definition wait_response (choice : wait_case) (ch : nat) : M Srv (result ProxyMessage) :=
  match choice with
  | WaitTimeout => mret (Err (Errorf "request timeout"))
  | WaitContext e => mret (Err e)
  | WaitResponse =>
      got ← on_chan ch ch_try_recv;
      match got with
      | Some response => mret (Ok response)
      | None => block
      end
  end.

(** [SendToAgent] with what the rest of the program does to the server between its
    lookup, which gives the lock back, and its [select]. *)
Definition SendToAgent_among (between : Srv → Srv) (send : select_case) (agentID : string)
    (msg : ProxyMessage) : M Srv (result unit) :=
  found ← in_cm (SendToAgent_lookup agentID);
  match found with
  | Err e => mret (Err e)
  | Ok ptr => _ ← modify between; in_cm (SendToAgent_select send agentID ptr msg)
  end.

(** [SendRequestToAgent], with [between] as above and [others] what the rest of the
    program does while this goroutine waits. *)
Definition SendRequestToAgent (send : select_case) (between : Srv → Srv) (others : M Srv unit)
    (wait : wait_case) (agentID : string) (msg : ProxyMessage) : M Srv (result ProxyMessage) :=
  respCh ← register_pending msg;
  deferred (unregister_pending msg)
    (try (SendToAgent_among between send agentID msg) (Wrapf "failed to send request to agent")
       (λ _, _ ← others; wait_response wait respCh)).

(** [HandleResponse]: the lookup under the read lock, then the non-blocking send. *)
Definition HandleResponse_lookup (msg : ProxyMessage) : M Srv (option nat) :=
  gets (λ s, pendingRequests s !! Id msg).

Definition HandleResponse_deliver (ch : nat) (msg : ProxyMessage) : M Srv unit :=
  _ ← on_chan ch (ch_try_send msg); mret ().

Definition HandleResponse (msg : ProxyMessage) : M Srv unit :=
  found ← HandleResponse_lookup msg;
  match found with
  | None => mret ()
  | Some ch => HandleResponse_deliver ch msg
  end.

(** ** Interleaving *)

Inductive request : Type :=
  | RStart (agentID : string) (msg : ProxyMessage)
  | RPending (agentID : string) (msg : ProxyMessage) (ch : nat)
  | RWait (msg : ProxyMessage) (ch : nat)
  | RReturn (msg : ProxyMessage) (ch : nat) (r : result ProxyMessage)  (** before the deferred delete *)
  | RDone (msg : ProxyMessage) (ch : nat) (r : result ProxyMessage).

Record sys : Type := mkSys {
  srv : Srv;
  requests : gmap nat request;
  delivering : gmap nat (nat * ProxyMessage);  (** receivers between lookup and send *)
  received : list ProxyMessage;                (** every message passed to [HandleResponse] *)
}.

Definition init : sys := mkSys NewServer ∅ ∅ [].

(** [fresh]: what [uuid.New().String()] may return for a new request. *)
Variable fresh : sys → string → Prop.

Inductive rstep : sys → sys → Prop :=
  | r_call s rs ds rc t a msg :
      rs !! t = None → fresh (mkSys s rs ds rc) (Id msg) →
      rstep (mkSys s rs ds rc) (mkSys s (<[t := RStart a msg]> rs) ds rc)
  | r_register s s' rs ds rc t a msg ch :
      rs !! t = Some (RStart a msg) → register_pending msg s = Ret ch s' →
      rstep (mkSys s rs ds rc) (mkSys s' (<[t := RPending a msg ch]> rs) ds rc)
  | r_sent s s' rs ds rc t a msg ch choice :
      rs !! t = Some (RPending a msg ch) → in_cm (SendToAgent choice a msg) s = Ret (Ok ()) s' →
      rstep (mkSys s rs ds rc) (mkSys s' (<[t := RWait msg ch]> rs) ds rc)
  | r_send_failed s s' rs ds rc t a msg ch choice e :
      rs !! t = Some (RPending a msg ch) → in_cm (SendToAgent choice a msg) s = Ret (Err e) s' →
      rstep (mkSys s rs ds rc)
            (mkSys s' (<[t := RReturn msg ch (Err (Wrapf "failed to send request to agent" e))]> rs) ds rc)
  | r_wait s s' rs ds rc t msg ch choice r :
      rs !! t = Some (RWait msg ch) → wait_response choice ch s = Ret r s' →
      rstep (mkSys s rs ds rc) (mkSys s' (<[t := RReturn msg ch r]> rs) ds rc)
  | r_return s s' rs ds rc t msg ch r :
      rs !! t = Some (RReturn msg ch r) → unregister_pending msg s = Ret () s' →
      rstep (mkSys s rs ds rc) (mkSys s' (<[t := RDone msg ch r]> rs) ds rc)
  | r_response_unknown s s' rs ds rc msg :
      HandleResponse_lookup msg s = Ret None s' →
      rstep (mkSys s rs ds rc) (mkSys s' rs ds (msg :: rc))
  | r_response_found s s' rs ds rc d msg ch :
      ds !! d = None → HandleResponse_lookup msg s = Ret (Some ch) s' →
      rstep (mkSys s rs ds rc) (mkSys s' rs (<[d := (ch, msg)]> ds) (msg :: rc))
  | r_deliver s s' rs ds rc d msg ch :
      ds !! d = Some (ch, msg) → HandleResponse_deliver ch msg s = Ret () s' →
      rstep (mkSys s rs ds rc) (mkSys s' rs (delete d ds) rc)
  | r_connections s rs ds rc cm' :
      rstep (mkSys s rs ds rc) (mkSys (set_connManager cm' s) rs ds rc).
End Code.

(** ** Invariants *)

Definition msg_of (r : request) : ProxyMessage :=
  match r with
  | RStart _ m | RPending _ m _ | RWait m _ | RReturn m _ _ | RDone m _ _ => m
  end.

Definition chan_of (r : request) : option nat :=
  match r with
  | RStart _ _ => None
  | RPending _ _ ch | RWait _ ch | RReturn _ ch _ | RDone _ ch _ => Some ch
  end.

(** Between the registration and the deferred delete. *)
Definition active (r : request) : bool :=
  match r with
  | RPending _ _ _ | RWait _ _ | RReturn _ _ _ => true
  | _ => false
  end.

Definition answer_of (r : request) : option ProxyMessage :=
  match r with
  | RReturn _ _ (Ok m) | RDone _ _ (Ok m) => Some m
  | _ => None
  end.

Section Proofs.
Context {S : Type} `{AgentServerOps S}.
Notation sys := (@sys S).

Definition owner (rs : gmap nat request) (ch : nat) (id : string) : Prop :=
  ∃ t r, rs !! t = Some r ∧ chan_of r = Some ch ∧ Id (msg_of r) = id.

(** A request moves on without changing its message or channel. *)
Definition advances (r r' : request) : Prop :=
  msg_of r' = msg_of r ∧ (chan_of r = None ∨ chan_of r' = chan_of r).

Lemma owner_insert rs t r r' ch id :
  rs !! t = Some r → advances r r' → owner rs ch id → owner (<[t := r']> rs) ch id.
Proof.
  intros Ht [Hm Hc] (t' & r0 & Ht' & Hc0 & Hid). destruct (decide (t = t')) as [<-|Hne].
  - exists t, r'. rewrite lookup_insert_eq. simplify_eq.
    destruct Hc as [Hc|Hc]; [congruence|]. by rewrite Hc, Hm.
  - exists t', r0. by rewrite lookup_insert_ne.
Qed.

Lemma owner_new rs t r ch id : rs !! t = None → owner rs ch id → owner (<[t := r]> rs) ch id.
Proof.
  intros Ht (t' & r0 & Ht' & ?). exists t', r0. rewrite lookup_insert_ne; [done|]. congruence.
Qed.

Record sys_ok (s : sys) : Prop := {
  so_chan : ∀ t r ch, requests s !! t = Some r → chan_of r = Some ch →
    ch < next_ch (srv s) ∧ ∃ c, respChs (srv s) !! ch = Some c ∧ ch_cap c = 1 ∧
      ch_closed c = false ∧ ∀ m, m ∈ ch_buf c → Id m = Id (msg_of r) ∧ m ∈ received s;
  so_inj : ∀ t1 t2 r1 r2 ch, requests s !! t1 = Some r1 → requests s !! t2 = Some r2 →
    chan_of r1 = Some ch → chan_of r2 = Some ch → t1 = t2;
  so_pending : ∀ id ch, pendingRequests (srv s) !! id = Some ch → owner (requests s) ch id;
  so_delivering : ∀ d ch m, delivering s !! d = Some (ch, m) →
    m ∈ received s ∧ owner (requests s) ch (Id m);
  so_answer : ∀ t r m, requests s !! t = Some r → answer_of r = Some m →
    Id m = Id (msg_of r) ∧ m ∈ received s;
}.

Lemma sys_ok_init : sys_ok init.
Proof. split; simpl; intros *; rewrite lookup_empty; done. Qed.

Lemma on_chan_Ret {A} ch (m : M (chan ProxyMessage) A) (s s' : Server S) a :
  on_chan ch m s = Ret a s' →
  ∃ c c', respChs s !! ch = Some c ∧ m c = Ret a c' ∧ s' = set_respChs (<[ch := c']> (respChs s)) s.
Proof.
  unfold on_chan. destruct (respChs s !! ch) as [c|]; [|done].
  destruct (m c) eqn:E; [|done..]. intros [= <- <-]. eauto.
Qed.

(** A request advances and nothing else changes but, possibly, the pending map
    losing entries. *)
Lemma sys_ok_advance s s' rs ds rc t r r' :
  sys_ok (mkSys s rs ds rc) → rs !! t = Some r → advances r r' → chan_of r' = chan_of r →
  respChs s' = respChs s → next_ch s' = next_ch s → pendingRequests s' ⊆ pendingRequests s →
  (∀ m, answer_of r' = Some m → Id m = Id (msg_of r) ∧ m ∈ rc) →
  sys_ok (mkSys s' (<[t := r']> rs) ds rc).
Proof.
  intros Hok Ht Hadv Hch Er En Hp Ha. split; simpl.
  - intros t' r0 ch [[<- <-]|[_ Ht']]%lookup_insert_Some Hc; rewrite Er, En.
    + destruct Hadv as [-> _]. rewrite Hch in Hc. by eapply (so_chan _ Hok).
    + by eapply (so_chan _ Hok).
  - intros t1 t2 r1 r2 ch H1 H2 Hc1 Hc2.
    assert (∀ t0 r0, <[t:=r']> rs !! t0 = Some r0 → chan_of r0 = Some ch →
      ∃ r00, rs !! t0 = Some r00 ∧ chan_of r00 = Some ch) as Hold.
    { intros t0 r0 [[<- <-]|[_ Ht']]%lookup_insert_Some Hc; [|eauto]. rewrite Hch in Hc. eauto. }
    destruct (Hold _ _ H1 Hc1) as (? & ? & ?). destruct (Hold _ _ H2 Hc2) as (? & ? & ?).
    by eapply (so_inj _ Hok).
  - intros id ch Hid. eapply owner_insert; [done|done|].
    eapply (so_pending _ Hok). by eapply lookup_weaken.
  - intros d ch m Hd. destruct (so_delivering _ Hok _ _ _ Hd). split; [done|].
    by eapply owner_insert.
  - intros t' r0 m [[<- <-]|[_ Ht']]%lookup_insert_Some Hm.
    + destruct Hadv as [-> _]. auto.
    + by eapply (so_answer _ Hok).
Qed.

(** One channel's buffer changes and the received log grows. *)
Lemma sys_ok_buffer s rs ds ds' rc rc' ch c c' :
  sys_ok (mkSys s rs ds rc) → respChs s !! ch = Some c →
  ch_cap c' = ch_cap c → ch_closed c' = ch_closed c → ds' ⊆ ds →
  (∀ m, m ∈ rc → m ∈ rc') →
  (∀ m, m ∈ ch_buf c' → m ∈ ch_buf c ∨ m ∈ rc' ∧ ∀ id, owner rs ch id → Id m = id) →
  sys_ok (mkSys (set_respChs (<[ch := c']> (respChs s)) s) rs ds' rc').
Proof.
  intros Hok Hc Ecap Ecl Hds Hrc Hbuf. split; simpl.
  - intros t r ch' Ht Hch. destruct (so_chan _ Hok _ _ _ Ht Hch) as (Hlt & c0 & Hc0 & ? & ? & Hm).
    split; [done|]. destruct (decide (ch = ch')) as [<-|].
    + exists c'. rewrite lookup_insert_eq. simpl in Hc0. simplify_eq.
      split_and!; try congruence. intros m [Hin|[Hin Hid]]%Hbuf.
      * destruct (Hm _ Hin). split; [done|]. by apply Hrc.
      * split; [|done]. apply Hid. by exists t, r.
    + exists c0. rewrite lookup_insert_ne by done. split_and!; try done.
      intros m Hin. destruct (Hm _ Hin). split; [done|]. by apply Hrc.
  - apply (so_inj _ Hok).
  - apply (so_pending _ Hok).
  - intros d ch' m Hd. destruct (so_delivering _ Hok d ch' m); [by eapply lookup_weaken|].
    split; [by apply Hrc|done].
  - intros t r m Ht Hm. destruct (so_answer _ Hok _ _ _ Ht Hm). split; [done|]. by apply Hrc.
Qed.

Lemma owner_unique (s : sys) ch id id' :
  sys_ok s → owner (requests s) ch id → owner (requests s) ch id' → id = id'.
Proof.
  intros Hok (t & r & Ht & Hc & <-) (t' & r' & Ht' & Hc' & <-).
  assert (t = t') as -> by by eapply (so_inj _ Hok). congruence.
Qed.

Lemma in_cm_Ret {A} (m : M (ConnectionManager S) A) s s' a :
  in_cm m s = Ret a s' →
  respChs s' = respChs s ∧ next_ch s' = next_ch s ∧ pendingRequests s' = pendingRequests s.
Proof. unfold in_cm, zoom. destruct (m (connManager s)); [|done..]. by intros [= <- <-]. Qed.

(** Steps that add a log entry or an in-flight delivery. *)
Lemma sys_ok_receive s rs ds ds' rc msg :
  sys_ok (mkSys s rs ds rc) →
  (∀ d ch m, ds' !! d = Some (ch, m) →
     ds !! d = Some (ch, m) ∨ m = msg ∧ pendingRequests s !! Id msg = Some ch) →
  sys_ok (mkSys s rs ds' (msg :: rc)).
Proof.
  intros Hok Hds. split; simpl.
  - intros t r ch Ht Hch. destruct (so_chan _ Hok _ _ _ Ht Hch) as (? & c & ? & ? & ? & Hm).
    split; [done|]. exists c. split_and!; try done. intros m Hin.
    destruct (Hm _ Hin). split; [done|by right].
  - apply (so_inj _ Hok).
  - apply (so_pending _ Hok).
  - intros d ch m [Hd|[-> Hp]]%Hds.
    + destruct (so_delivering _ Hok _ _ _ Hd). split; [by right|done].
    + split; [by left|]. by apply (so_pending _ Hok).
  - intros t r m Ht Hm. destruct (so_answer _ Hok _ _ _ Ht Hm). split; [done|by right].
Qed.

Lemma sys_ok_register s rs ds rc t a msg :
  sys_ok (mkSys s rs ds rc) → rs !! t = Some (RStart a msg) →
  sys_ok (mkSys (mkServer (connManager s) (<[Id msg := next_ch s]> (pendingRequests s))
                 (<[next_ch s := make_chan 1]> (respChs s)) (Datatypes.S (next_ch s)))
           (<[t := RPending a msg (next_ch s)]> rs) ds rc).
Proof.
  intros Hok Ht.
  assert (∀ t0 r0 ch, rs !! t0 = Some r0 → chan_of r0 = Some ch → ch < next_ch s) as Hlt.
  { intros t0 r0 ch Ht0 Hc0. by destruct (so_chan _ Hok _ _ _ Ht0 Hc0). }
  assert (∀ ch id, owner rs ch id → owner (<[t:=RPending a msg (next_ch s)]> rs) ch id) as Hown.
  { intros ch id. eapply owner_insert; [done|]. by split; [|left]. }
  split; simpl.
  - intros t' r ch [[<- <-]|[_ Ht']]%lookup_insert_Some Hc; simpl in *.
    + injection Hc as <-. split; [lia|]. exists (make_chan 1). rewrite lookup_insert_eq.
      split_and!; try done. by intros m ?%not_elem_of_nil.
    + destruct (so_chan _ Hok _ _ _ Ht' Hc) as (? & c & Hcc & ?). simpl in *. split; [lia|].
      exists c. rewrite lookup_insert_ne by lia. done.
  - intros t1 t2 r1 r2 ch [[<- <-]|[_ H1]]%lookup_insert_Some [[<- <-]|[_ H2]]%lookup_insert_Some
      Hc1 Hc2; simpl in *; [done|..|by eapply (so_inj _ Hok)]; simplify_eq.
    + specialize (Hlt _ _ _ H2 Hc2). lia.
    + specialize (Hlt _ _ _ H1 Hc1). lia.
  - intros id ch [[<- <-]|[_ Hid]]%lookup_insert_Some.
    + exists t. eexists. by rewrite lookup_insert_eq.
    + apply Hown. by apply (so_pending _ Hok).
  - intros d ch m Hd. destruct (so_delivering _ Hok _ _ _ Hd). auto.
  - intros t' r m [[<- <-]|[_ Ht']]%lookup_insert_Some Hm; [done|]. by eapply (so_answer _ Hok).
Qed.

(** A new request. *)
Lemma sys_ok_call s rs ds rc t a msg :
  sys_ok (mkSys s rs ds rc) → rs !! t = None → sys_ok (mkSys s (<[t := RStart a msg]> rs) ds rc).
Proof.
  intros [C I P D A] Ht. split; simpl in *.
  - intros t' r ch [[<- <-]|[_ Ht']]%lookup_insert_Some; [done|by eapply C].
  - intros t1 t2 r1 r2 ch [[<- <-]|[_ H1]]%lookup_insert_Some [[<- <-]|[_ H2]]%lookup_insert_Some;
      [done..|by eapply I].
  - intros id ch Hid. apply owner_new; [done|]. by apply P.
  - intros d ch m Hd. destruct (D _ _ _ Hd). split; [done|]. by apply owner_new.
  - intros t' r m [[<- <-]|[_ Ht']]%lookup_insert_Some; [done|by eapply A].
Qed.

(** The request table, and nothing else of the server, stays as it is. *)
Lemma sys_ok_frame s s' rs ds rc :
  sys_ok (mkSys s rs ds rc) → respChs s' = respChs s → next_ch s' = next_ch s →
  pendingRequests s' = pendingRequests s → sys_ok (mkSys s' rs ds rc).
Proof. intros [C I P D A] Er En Ep. by split; simpl in *; rewrite ?Er, ?En, ?Ep. Qed.

(** More messages were received. *)
Lemma sys_ok_more s rs ds rc rc' :
  sys_ok (mkSys s rs ds rc) → (∀ m, m ∈ rc → m ∈ rc') → sys_ok (mkSys s rs ds rc').
Proof.
  intros [C I P D A] Hrc. split; simpl in *; try done.
  - intros t r ch Ht Hch. destruct (C _ _ _ Ht Hch) as (? & c & ? & ? & ? & Hm).
    split; [done|]. exists c. split_and!; naive_solver.
  - naive_solver.
  - naive_solver.
Qed.

Lemma sys_ok_wait s s' rs ds rc t msg ch choice r :
  sys_ok (mkSys s rs ds rc) → rs !! t = Some (RWait msg ch) → wait_response choice ch s = Ret r s' →
  sys_ok (mkSys s' (<[t := RReturn msg ch r]> rs) ds rc).
Proof.
  intros Hok Ht E. destruct choice; [|injection E as <- <-; eapply sys_ok_advance; [exact Hok|exact Ht|..];
    try done; by split; [|right]..].
  unfold wait_response, mbind, M_bind in E.
  destruct (on_chan ch ch_try_recv s) as [[m|] s1| |] eqn:Eo; try done.
  injection E as <- <-. apply on_chan_Ret in Eo as (c & c' & Hc & Hr & ->).
  unfold ch_try_recv in Hr. destruct (ch_buf c) as [|m0 buf] eqn:Eb; [done|].
  injection Hr as <- <-.
  destruct (so_chan _ Hok t _ ch Ht eq_refl) as (_ & c0 & Hc0 & _ & _ & Hm). simpl in *.
  rewrite Hc in Hc0. injection Hc0 as <-.
  eapply sys_ok_advance; [eapply (sys_ok_buffer _ _ _ ds _ rc _ _
    (mkChan buf (ch_cap c) (ch_closed c)) Hok Hc)|exact Ht|..]; try done.
  - intros m Hin. left. rewrite Eb. by right.
  - by split; [|right].
  - intros m [= <-]. apply Hm. rewrite Eb. by left.
Qed.

Lemma sys_ok_return s s' rs ds rc t msg ch r :
  sys_ok (mkSys s rs ds rc) → rs !! t = Some (RReturn msg ch r) → unregister_pending msg s = Ret () s' →
  sys_ok (mkSys s' (<[t := RDone msg ch r]> rs) ds rc).
Proof.
  intros Hok Ht [= <-]. eapply sys_ok_advance; [exact Hok|exact Ht|..]; try done.
  - by split; [|right].
  - apply delete_subseteq.
  - intros m Hm. by apply (so_answer _ Hok _ _ _ Ht).
Qed.

(** A response reaches the channel that was registered for its id. *)
Lemma sys_ok_deliver s s' rs ds ds' rc msg ch :
  sys_ok (mkSys s rs ds rc) → ds' ⊆ ds → msg ∈ rc → owner rs ch (Id msg) →
  HandleResponse_deliver ch msg s = Ret () s' → sys_ok (mkSys s' rs ds' rc).
Proof.
  intros Hok Hds Hrc Hown E. unfold HandleResponse_deliver, mbind, M_bind in E.
  destruct (on_chan ch (ch_try_send msg) s) as [b s1| |] eqn:Eo; try done.
  injection E as <-. apply on_chan_Ret in Eo as (c & c' & Hc & Hr & ->).
  assert (c' = c ∨ c' = ch_push msg c) as Hc'.
  { unfold ch_try_send in Hr. repeat case_match; naive_solver. }
  eapply sys_ok_buffer; [exact Hok|exact Hc|..]; try done; try by destruct Hc' as [-> | ->].
  intros m Hm. destruct Hc' as [-> | ->]; [by left|]. simpl in Hm.
  apply elem_of_app in Hm as [Hm|Hm]; [by left|]. apply list_elem_of_singleton in Hm as ->.
  right. split; [done|]. intros id Hid. by eapply (owner_unique _ _ _ _ Hok).
Qed.

(** The goroutine moves between queueing its message, waiting and returning an
    error. *)
Lemma sys_ok_phase s s' rs ds rc t r r' :
  sys_ok (mkSys s rs ds rc) → rs !! t = Some r → msg_of r' = msg_of r → chan_of r' = chan_of r →
  answer_of r' = None → respChs s' = respChs s → next_ch s' = next_ch s →
  pendingRequests s' = pendingRequests s → sys_ok (mkSys s' (<[t := r']> rs) ds rc).
Proof.
  intros Hok Ht Em Ec Ea Er En Ep. eapply sys_ok_advance; [exact Hok|exact Ht|..]; try done.
  - by split; [|right].
  - by rewrite Ep.
  - by rewrite Ea.
Qed.

Lemma sys_ok_step fresh s s' : sys_ok s → rstep fresh s s' → sys_ok s'.
Proof.
  intros Hok Hs. destruct Hs as [s rs ds rc t a msg Ht _|s s' rs ds rc t a msg ch Ht E
    |s s' rs ds rc t a msg ch choice Ht E|s s' rs ds rc t a msg ch choice e Ht E
    |s s' rs ds rc t msg ch choice r Ht E|s s' rs ds rc t msg ch r Ht E
    |s s' rs ds rc msg E|s s' rs ds rc d msg ch Hd E|s s' rs ds rc d msg ch Hd E|s rs ds rc cm'].
  - by apply sys_ok_call.
  - injection E as <- <-. by eapply sys_ok_register.
  - destruct (in_cm_Ret _ _ _ _ E) as (Er & En & Ep). by eapply sys_ok_phase.
  - destruct (in_cm_Ret _ _ _ _ E) as (Er & En & Ep). by eapply sys_ok_phase.
  - by eapply sys_ok_wait.
  - by eapply sys_ok_return.
  - injection E as _ <-. eapply sys_ok_receive; [done|]. auto.
  - injection E as E <-. eapply sys_ok_receive; [done|].
    intros d' ch' m [[<- [= <- <-]]|[_ Hd']]%lookup_insert_Some; auto.
  - destruct (so_delivering _ Hok _ _ _ Hd) as [Hrc Hown].
    by eapply (sys_ok_deliver _ _ _ _ _ _ _ _ Hok (delete_subseteq _ _)).
  - by eapply sys_ok_frame.
Qed.

Lemma sys_ok_reachable fresh s : rtc (rstep fresh) init s → sys_ok s.
Proof.
  intros Hr. eapply rtc_invariant; [done|apply sys_ok_init|]. intros ???. by apply sys_ok_step.
Qed.

(** *** With unique message ids *)

(** [uuid.New()] does not return the id of any earlier request. *)
Definition unused (s : sys) (id : string) : Prop :=
  ∀ t r, requests s !! t = Some r → Id (msg_of r) ≠ id.

Record ids_ok (s : sys) : Prop := {
  io_inj : ∀ t1 t2 r1 r2, requests s !! t1 = Some r1 → requests s !! t2 = Some r2 →
    Id (msg_of r1) = Id (msg_of r2) → t1 = t2;
  io_active : ∀ t r, requests s !! t = Some r → active r = true →
    pendingRequests (srv s) !! Id (msg_of r) = chan_of r;
  io_pending : ∀ id ch, pendingRequests (srv s) !! id = Some ch →
    ∃ t r, requests s !! t = Some r ∧ active r = true ∧ Id (msg_of r) = id;
}.

Lemma ids_ok_init : ids_ok init.
Proof. split; simpl; intros *; rewrite lookup_empty; done. Qed.

(** A step of one request that keeps its message, and changes the pending map
    only at its own id. *)
Lemma ids_ok_update s s' rs ds ds' rc rc' t r r' :
  ids_ok (mkSys s rs ds rc) → rs !! t = Some r → msg_of r' = msg_of r →
  (∀ id, id ≠ Id (msg_of r) → pendingRequests s' !! id = pendingRequests s !! id) →
  (active r' = true → pendingRequests s' !! Id (msg_of r) = chan_of r') →
  (active r' = false → pendingRequests s' !! Id (msg_of r) = None) →
  ids_ok (mkSys s' (<[t := r']> rs) ds' rc').
Proof.
  intros Hok Ht Em Hother Hact Hinact.
  assert (∀ t0 r0, <[t:=r']> rs !! t0 = Some r0 →
    ∃ r00, rs !! t0 = Some r00 ∧ msg_of r00 = msg_of r0) as Hold.
  { intros t0 r0 [[<- <-]|[_ H0]]%lookup_insert_Some; eauto. }
  split; simpl.
  - intros t1 t2 r1 r2 H1 H2 Eid.
    destruct (Hold _ _ H1) as (r1' & H1' & E1), (Hold _ _ H2) as (r2' & H2' & E2).
    eapply (io_inj _ Hok); [exact H1'|exact H2'|]. by rewrite E1, E2.
  - intros t0 r0 [[<- <-]|[Hne H0]]%lookup_insert_Some Ha.
    + rewrite Em. by apply Hact.
    + rewrite Hother; [by apply (io_active _ Hok _ _ H0)|].
      intros Eid. apply Hne. symmetry. by apply (io_inj _ Hok _ _ _ _ H0 Ht).
  - intros id ch Hid. destruct (decide (id = Id (msg_of r))) as [->|Hne].
    + exists t, r'. rewrite lookup_insert_eq, Em. split_and!; try done.
      destruct (active r') eqn:Ea; [done|]. rewrite Hinact in Hid by done. done.
    + rewrite Hother in Hid by done.
      destruct (io_pending _ Hok _ _ Hid) as (t0 & r0 & H0 & Ha & <-). simpl in *.
      exists t0, r0. rewrite lookup_insert_ne; [done|]. intros <-. simplify_eq.
Qed.

Lemma wait_response_Ret choice ch (s s' : Server S) r :
  wait_response choice ch s = Ret r s' → pendingRequests s' = pendingRequests s.
Proof.
  destruct choice; [|by intros [= <- <-]..]. unfold wait_response, mbind, M_bind.
  destruct (on_chan ch ch_try_recv s) as [[m|] s1| |] eqn:Eo; try done.
  intros [= <- <-]. by apply on_chan_Ret in Eo as (? & ? & _ & _ & ->).
Qed.

Lemma wait_response_cm choice ch (s s' : Server S) r :
  wait_response choice ch s = Ret r s' → connManager s' = connManager s.
Proof.
  destruct choice; [|by intros [= <- <-]..]. unfold wait_response, mbind, M_bind.
  destruct (on_chan ch ch_try_recv s) as [[m|] s1| |] eqn:Eo; try done.
  intros [= <- <-]. by apply on_chan_Ret in Eo as (? & ? & _ & _ & ->).
Qed.

Lemma HandleResponse_deliver_Ret ch msg (s s' : Server S) u :
  HandleResponse_deliver ch msg s = Ret u s' → pendingRequests s' = pendingRequests s.
Proof.
  unfold HandleResponse_deliver, mbind, M_bind.
  destruct (on_chan ch (ch_try_send msg) s) as [b s1| |] eqn:Eo; try done.
  intros [= <- <-]. by apply on_chan_Ret in Eo as (? & ? & _ & _ & ->).
Qed.

(** A step of one request that leaves the pending map alone and does not change
    whether the request is active. *)
Lemma ids_ok_keep s s' rs ds rc t r r' :
  ids_ok (mkSys s rs ds rc) → rs !! t = Some r → msg_of r' = msg_of r → chan_of r' = chan_of r →
  active r = true → active r' = true → pendingRequests s' = pendingRequests s →
  ids_ok (mkSys s' (<[t := r']> rs) ds rc).
Proof.
  intros Hok Ht Em Ec Ha Ha' Ep. eapply ids_ok_update; [exact Hok|exact Ht|..]; try done.
  - intros id _. by rewrite Ep.
  - intros _. rewrite Ep, Ec. by apply (io_active _ Hok _ _ Ht).
  - by rewrite Ha'.
Qed.

(** The requests stay as they are and so does the pending map. *)
Lemma ids_ok_frame s s' rs ds ds' rc rc' :
  ids_ok (mkSys s rs ds rc) → pendingRequests s' = pendingRequests s →
  ids_ok (mkSys s' rs ds' rc').
Proof. intros [I A P] E. split; simpl in *; by rewrite ?E. Qed.

Lemma ids_ok_step s s' : ids_ok s → rstep unused s s' → ids_ok s'.
Proof.
  intros Hok Hs. destruct Hs as [s rs ds rc t a msg Ht Hf|s s' rs ds rc t a msg ch Ht E
    |s s' rs ds rc t a msg ch choice Ht E|s s' rs ds rc t a msg ch choice e Ht E
    |s s' rs ds rc t msg ch choice r Ht E|s s' rs ds rc t msg ch r Ht E
    |s s' rs ds rc msg E|s s' rs ds rc d msg ch Hd E|s s' rs ds rc d msg ch Hd E|s rs ds rc cm'].
  - split; simpl.
    + intros t1 t2 r1 r2 [[<- <-]|[_ H1]]%lookup_insert_Some [[<- <-]|[_ H2]]%lookup_insert_Some Eid;
        [done|by destruct (Hf _ _ H2)|by destruct (Hf _ _ H1)|by eapply (io_inj _ Hok)].
    + intros t0 r0 [[<- <-]|[_ H0]]%lookup_insert_Some; [done|]. by apply (io_active _ Hok _ _ H0).
    + intros id ch Hid. destruct (io_pending _ Hok _ _ Hid) as (t0 & r0 & H0 & ?).
      exists t0, r0. rewrite lookup_insert_ne; [done|]. simpl in *. congruence.
  - injection E as <- <-. eapply ids_ok_update; [exact Hok|exact Ht|..]; simpl; try done.
    + intros id Hne. by rewrite lookup_insert_ne.
    + by rewrite lookup_insert_eq.
  - destruct (in_cm_Ret _ _ _ _ E) as (_ & _ & Ep). by eapply ids_ok_keep.
  - destruct (in_cm_Ret _ _ _ _ E) as (_ & _ & Ep). by eapply ids_ok_keep.
  - apply wait_response_Ret in E. by eapply ids_ok_keep.
  - injection E as <-. eapply ids_ok_update; [exact Hok|exact Ht|..]; simpl; try done.
    + intros id Hne. by rewrite lookup_delete_ne.
    + by rewrite lookup_delete_eq.
  - injection E as _ <-. by eapply ids_ok_frame.
  - injection E as _ <-. by eapply ids_ok_frame.
  - apply HandleResponse_deliver_Ret in E. by eapply ids_ok_frame.
  - by eapply ids_ok_frame.
Qed.

Lemma ids_ok_reachable s : rtc (rstep unused) init s → ids_ok s.
Proof.
  intros Hr. eapply rtc_invariant; [done|apply ids_ok_init|]. intros ???. by apply ids_ok_step.
Qed.

(** ** Properties *)

(** C5: whatever the interleaving of requests, responses and changes of the
    connection map, a request that returns a response returns one that was
    received with that request's own message id: responses are never swapped
    between requests.  No assumption on ids is needed. *)
Theorem responses_match_requests fresh (s : sys) t msg ch m :
  rtc (rstep fresh) init s → requests s !! t = Some (RDone msg ch (Ok m)) →
  Id m = Id msg ∧ m ∈ received s.
Proof. intros Hr Ht. by apply (so_answer _ (sys_ok_reachable _ _ Hr) _ _ _ Ht). Qed.

(** C21: when message ids are unique, the pending map holds exactly the requests
    between their registration and their deferred delete, each under its own id
    with its own channel; in particular it is empty when no request is running. *)
Theorem pending_requests_exact (s : sys) :
  rtc (rstep unused) init s →
  (∀ id ch, pendingRequests (srv s) !! id = Some ch ↔
     ∃ t r, requests s !! t = Some r ∧ active r = true ∧ Id (msg_of r) = id ∧ chan_of r = Some ch) ∧
  ((∀ t r, requests s !! t = Some r → active r = false) → pendingRequests (srv s) = ∅).
Proof.
  intros Hr. pose proof (ids_ok_reachable _ Hr) as Hok. split.
  - intros id ch. split.
    + intros Hid. destruct (io_pending _ Hok _ _ Hid) as (t & r & Ht & Ha & <-).
      exists t, r. split_and!; try done. by rewrite <- (io_active _ Hok _ _ Ht Ha).
    + intros (t & r & Ht & Ha & <- & Hc). by rewrite (io_active _ Hok _ _ Ht Ha).
  - intros Hnone. apply map_eq. intros id. rewrite lookup_empty.
    destruct (pendingRequests (srv s) !! id) as [ch|] eqn:Hid; [|done].
    destruct (io_pending _ Hok _ _ Hid) as (t & r & Ht & Ha & _). by rewrite (Hnone _ _ Ht) in Ha.
Qed.

Lemma HandleResponse_deliver_runs (s : Server S) ch c msg :
  respChs s !! ch = Some c → ch_closed c = false →
  HandleResponse_deliver ch msg s =
    Ret () (set_respChs (<[ch := if ch_full c then c else ch_push msg c]> (respChs s)) s).
Proof.
  intros Hc Hcl. unfold HandleResponse_deliver, mbind, M_bind, on_chan, ch_try_send.
  rewrite Hc, Hcl. by destruct (ch_full c).
Qed.

(** In every reachable state [HandleResponse] returns, whatever the message
    (it neither blocks nor panics, also for an unknown id, a duplicate or a
    request that just timed out), and a receiver stopped between the lookup and
    the send can always finish. *)
Theorem HandleResponse_never_blocks fresh (s : sys) :
  rtc (rstep fresh) init s →
  (∀ m, ∃ s', HandleResponse m (srv s) = Ret () s') ∧
  (∀ d ch m, delivering s !! d = Some (ch, m) → ∃ s', HandleResponse_deliver ch m (srv s) = Ret () s').
Proof.
  intros Hr. pose proof (sys_ok_reachable _ _ Hr) as Hok.
  assert (∀ ch id m, owner (requests s) ch id →
    ∃ s', HandleResponse_deliver ch m (srv s) = Ret () s') as Hgo.
  { intros ch id m (t & r & Ht & Hc & _).
    destruct (so_chan _ Hok _ _ _ Ht Hc) as (_ & c & Hcc & _ & Hcl & _).
    eexists. by apply HandleResponse_deliver_runs. }
  split.
  - intros m. unfold HandleResponse, HandleResponse_lookup, mbind, M_bind, gets.
    destruct (pendingRequests (srv s) !! Id m) as [ch|] eqn:Hid; [|by eexists].
    eapply Hgo. by apply (so_pending _ Hok).
  - intros d ch m Hd. destruct (so_delivering _ Hok _ _ _ Hd) as [_ Hown]. by eapply Hgo.
Qed.

(** A response that arrives for a waiting request whose channel is still
    empty reaches it: after [HandleResponse m] the waiting [select] can take the
    response case, and returns [m]. *)
Theorem response_reaches_waiter (s : sys) t msg ch m :
  rtc (rstep unused) init s → requests s !! t = Some (RWait msg ch) → Id m = Id msg →
  (ch_buf <$> respChs (srv s) !! ch) = Some [] →
  ∃ s1 s2, HandleResponse m (srv s) = Ret () s1 ∧ wait_response WaitResponse ch s1 = Ret (Ok m) s2.
Proof.
  intros Hr Ht Eid Hbuf.
  pose proof (io_active _ (ids_ok_reachable _ Hr) _ _ Ht eq_refl) as Hp. simpl in Hp.
  assert (sys_ok s) as Hok.
  { eapply rtc_invariant; [exact Hr|apply sys_ok_init|]. intros ???. by apply sys_ok_step. }
  destruct (so_chan _ Hok _ _ _ Ht eq_refl) as (_ & c & Hc & Hcap & Hcl & _).
  rewrite Hc in Hbuf. injection Hbuf as Hbuf.
  eexists _, _. split.
  - unfold HandleResponse, HandleResponse_lookup, mbind at 1, M_bind, gets.
    rewrite Eid, Hp. by apply HandleResponse_deliver_runs.
  - unfold wait_response, mbind, M_bind, on_chan. simpl. rewrite lookup_insert_eq.
    unfold ch_full. rewrite Hcap, Hbuf. simpl. unfold ch_try_recv, ch_push. simpl.
    rewrite Hbuf. done.
Qed.

(** With nothing in between it is [SendToAgent]. *)
Lemma SendToAgent_alone send agentID msg (s : Server S) :
  SendToAgent_among id send agentID msg s = in_cm (SendToAgent send agentID msg) s.
Proof.
  unfold SendToAgent_among, SendToAgent, in_cm, SendToAgent_lookup, zoom, modify, mbind, M_bind, mret, M_ret, get.
  destruct (agents (connManager s) !! agentID); destruct s; done.
Qed.

(** The exchange that succeeds: the message is sent, and its response arrives
    during the wait. *)
Lemma SendRequestToAgent_exchange (s s2 : Server S) send agentID msg m :
  in_cm (SendToAgent send agentID msg)
    (mkServer (connManager s) (<[Id msg := next_ch s]> (pendingRequests s))
       (<[next_ch s := make_chan 1]> (respChs s)) (Datatypes.S (next_ch s))) = Ret (Ok ()) s2 →
  Id m = Id msg →
  ∃ s', SendRequestToAgent send id (HandleResponse m) WaitResponse agentID msg s = Ret (Ok m) s' ∧
    pendingRequests s' = delete (Id msg) (pendingRequests s) ∧ connManager s' = connManager s2.
Proof.
  intros E2 Eid. destruct (in_cm_Ret _ _ _ _ E2) as (Er & _ & Ep). simpl in *.
  unfold SendRequestToAgent, register_pending, get, put, mret, M_ret, mbind, M_bind.
  unfold deferred, try, mbind at 1 2, M_bind. rewrite SendToAgent_alone, E2.
  unfold HandleResponse, HandleResponse_lookup, mbind, M_bind, gets.
  rewrite Ep, Eid, lookup_insert_eq.
  rewrite (HandleResponse_deliver_runs _ _ (make_chan 1)) by (rewrite ?Er, ?lookup_insert_eq; done).
  simpl. unfold mbind, M_bind, on_chan. simpl. rewrite lookup_insert_eq. simpl.
  eexists. split; [done|]. simpl. by rewrite Ep, delete_insert_eq.
Qed.

(** [SendRequestToAgent], on each of its ways out: a send that fails, a
    timeout or a cancelled context is an error, the response that
    [HandleResponse] delivers during the wait is the result, and every way out
    removes the pending entry. *)
Theorem SendRequestToAgent_correct (s s1 s2 : Server S) send agentID msg m sent :
  register_pending msg s = Ret (next_ch s) s1 →
  in_cm (SendToAgent send agentID msg) s1 = Ret sent s2 → Id m = Id msg →
  (∀ e others wait, sent = Err e → ∃ s', SendRequestToAgent send id others wait agentID msg s
      = Ret (Err (Wrapf "failed to send request to agent" e)) s' ∧
    pendingRequests s' = delete (Id msg) (pendingRequests s)) ∧
  (sent = Ok () →
    (∃ s', SendRequestToAgent send id (HandleResponse m) WaitResponse agentID msg s = Ret (Ok m) s' ∧
       pendingRequests s' = delete (Id msg) (pendingRequests s)) ∧
    (∃ s', SendRequestToAgent send id (mret ()) WaitTimeout agentID msg s
         = Ret (Err (Errorf "request timeout")) s' ∧
       pendingRequests s' = delete (Id msg) (pendingRequests s)) ∧
    (∀ e, ∃ s', SendRequestToAgent send id (mret ()) (WaitContext e) agentID msg s = Ret (Err e) s' ∧
       pendingRequests s' = delete (Id msg) (pendingRequests s)) ∧
    (∃ s', SendRequestToAgent send id (mret ()) WaitResponse agentID msg s = Block s')).
Proof.
  intros E1 E2 Eid. destruct (in_cm_Ret _ _ _ _ E2) as (Er & _ & Ep).
  injection E1 as <-. simpl in *.
  assert (∀ others wait, SendRequestToAgent send id others wait agentID msg s =
    deferred (unregister_pending msg)
      (match sent with
       | Err e => mret (Err (Wrapf "failed to send request to agent" e))
       | Ok _ => _ ← others; wait_response wait (next_ch s)
       end) s2) as Erun.
  { intros. unfold SendRequestToAgent, register_pending, get, put, deferred, try, mret, M_ret, mbind, M_bind.
    rewrite SendToAgent_alone, E2. by destruct sent. }
  split; [intros e others wait ->|intros ->; split_and!; rewrite ?Erun].
  - rewrite Erun. eexists. split; [done|]. simpl. by rewrite Ep, delete_insert_eq.
  - rewrite <- Erun. destruct (SendRequestToAgent_exchange s s2 send agentID msg m E2 Eid) as (s' & ? & ? & _).
    by exists s'.
  - eexists. split; [done|]. simpl. by rewrite Ep, delete_insert_eq.
  - intros e. rewrite Erun. eexists. split; [done|]. simpl. by rewrite Ep, delete_insert_eq.
  - unfold deferred, mret, M_ret, mbind, M_bind. simpl. unfold mbind, M_bind, on_chan. rewrite Er, lookup_insert_eq.
    by eexists.
Qed.
End Proofs.

(** ** Witnesses: one request to agent "a" and its response *)
Module OneRequest.
Definition req : ProxyMessage := mkMsg "r1" MessageType_REQUEST "ping" ∅.
Definition resp : ProxyMessage := mkMsg "r1" MessageType_RESPONSE "pong" ∅.

Definition sent_cm : ConnectionManager (option string) :=
  match SendToAgent CaseSend "a" req OnePort.cm1 with Ret _ cm => cm | _ => OnePort.cm1 end.

Definition waiting : @sys (option string) :=
  mkSys (mkServer sent_cm {["r1" := 0]} {[0 := make_chan 1]} 1) {[0 := RWait req 0]} ∅ [].
Definition finding : @sys (option string) :=
  mkSys (mkServer sent_cm {["r1" := 0]} {[0 := make_chan 1]} 1) {[0 := RWait req 0]}
    {[0 := (0, resp)]} [resp].
Definition finished : @sys (option string) :=
  mkSys (mkServer sent_cm ∅ {[0 := make_chan 1]} 1) {[0 := RDone req 0 (Ok resp)]} ∅ [resp].

Lemma waiting_reachable : rtc (rstep unused) init waiting.
Proof.
  eapply rtc_l. { apply (r_connections _ _ _ _ _ OnePort.cm1). }
  eapply rtc_l. { eapply (r_call _ _ _ _ _ 0 "a" req); done. }
  eapply rtc_l. { eapply (r_register _ _ _ _ _ _ 0 "a" req 0); done. }
  eapply rtc_l. { by apply (r_sent _ _ (mkServer sent_cm {["r1" := 0]} {[0 := make_chan 1]} 1)
    _ _ _ 0 "a" req 0 CaseSend). }
  apply rtc_refl.
Qed.

Lemma finding_reachable : rtc (rstep unused) init finding.
Proof.
  eapply rtc_r; [apply waiting_reachable|]. by apply (r_response_found _ _ _ _ _ _ 0 resp 0).
Qed.

Lemma finished_reachable : rtc (rstep unused) init finished.
Proof.
  etrans; [apply finding_reachable|].
  eapply rtc_l. { eapply (r_deliver _ _ _ _ _ _ 0 resp 0); done. }
  eapply rtc_l. { eapply (r_wait _ _ _ _ _ _ 0 req 0 WaitResponse); done. }
  eapply rtc_l. { eapply (r_return _ _ _ _ _ _ 0 req 0); done. }
  apply rtc_refl.
Qed.
End OneRequest.

Lemma responses_match_requests_witness :
  Id OneRequest.resp = Id OneRequest.req ∧ OneRequest.resp ∈ received OneRequest.finished.
Proof.
  apply (responses_match_requests unused OneRequest.finished 0 OneRequest.req 0 OneRequest.resp).
  - exact OneRequest.finished_reachable.
  - reflexivity.
Defined.

Lemma pending_requests_exact_witness : pendingRequests (srv OneRequest.finished) = ∅.
Proof.
  apply (pending_requests_exact OneRequest.finished).
  - exact OneRequest.finished_reachable.
  - intros t r Ht. unfold OneRequest.finished, requests in Ht.
    apply lookup_singleton_Some in Ht as [_ <-]. reflexivity.
Defined.

Lemma HandleResponse_never_blocks_witness :
  ∃ s', HandleResponse_deliver 0 OneRequest.resp (srv OneRequest.finding) = Ret () s'.
Proof.
  apply (HandleResponse_never_blocks unused OneRequest.finding OneRequest.finding_reachable) with 0.
  reflexivity.
Defined.

Lemma response_reaches_waiter_witness :
  ∃ s1 s2, HandleResponse OneRequest.resp (srv OneRequest.waiting) = Ret () s1 ∧
    wait_response WaitResponse 0 s1 = Ret (Ok OneRequest.resp) s2.
Proof.
  apply (response_reaches_waiter OneRequest.waiting 0 OneRequest.req 0 OneRequest.resp).
  - exact OneRequest.waiting_reachable.
  - reflexivity.
  - reflexivity.
  - reflexivity.
Defined.

Lemma SendRequestToAgent_correct_witness :
  ∃ s', SendRequestToAgent CaseSend id (HandleResponse OneRequest.resp) WaitResponse "a" OneRequest.req
      (mkServer OnePort.cm1 ∅ ∅ 0) = Ret (Ok OneRequest.resp) s' ∧
    pendingRequests s' = delete "r1" ∅.
Proof.
  destruct (SendRequestToAgent_correct (mkServer OnePort.cm1 ∅ ∅ 0)
    (mkServer OnePort.cm1 {["r1" := 0]} {[0 := make_chan 1]} 1)
    (mkServer OneRequest.sent_cm {["r1" := 0]} {[0 := make_chan 1]} 1) CaseSend "a"
    OneRequest.req OneRequest.resp (Ok ())) as [_ Hok].
  - reflexivity.
  - vm_compute. reflexivity.
  - reflexivity.
  - destruct (Hok eq_refl) as [Hresp _]. exact Hresp.
Defined.
