(* ===== verification/StreamHandler.v ===== *)
(** * StreamHandler: one goroutine group per agent stream

    Models [src/internal/grpc/server/stream_handler.go].  [HandleStream] runs in
    the goroutine gRPC starts for a stream and forks [receiveLoop] and
    [sendLoop]; the three share the stream, a [done] channel and an error
    channel with two slots, and meet the other handlers, the HTTP goroutines and
    the sweeper in the connection manager.  The model is a transition system in
    which a step is what one goroutine does between two points where another can
    run: [local_step] is a step that does not change the server, [hstep] adds the
    handler steps that do and [wstep] the HTTP goroutines. *)
From stdpp Require Import base strings list gmap fin_maps relations.
From Stdlib Require Import ZArith Lia.
From S2P Require Import Prelude GoStd Proto ServerInterface ConnectionManager GrpcServer.

(** ** The code *)

(** What [processMessage] has left to do: the [switch], the [select] of
    [SendToAgent] after its lookup, the delivery of [HandleResponse] after its
    lookup. *)
Inductive proc : Type :=
  | PMessage (msg : ProxyMessage)
  | PPong (ptr : nat) (pong : ProxyMessage)
  | PDeliver (ch : nat) (msg : ProxyMessage).

Inductive main_phase : Type :=
  | MFirst                                          (** in the first [stream.Recv()] *)
  | MRegister (agentID : string) (first : ProxyMessage)
  | MSeen (first : ProxyMessage)                    (** before [UpdateLastSeen] *)
  | MProcess (p : proc)
  | MSelect
  | MDefer (r : option error)                       (** [done] closed, before [Deregister] *)
  | MEnd (r : option error).                        (** returned to gRPC *)

Inductive recv_phase : Type :=
  | RIdle
  | RCheck                                          (** at the top of the loop *)
  | RRecv                                           (** in [stream.Recv()] *)
  | RSeen (msg : ProxyMessage)
  | RProcess (p : proc)
  | RErr (e : error)                                (** before [errChan <- err] *)
  | REnd.

Inductive send_phase : Type :=
  | SIdle
  | SSelect
  | SSend (msg : ProxyMessage)                      (** in [stream.Send(msg)] *)
  | SErr (e : error)
  | SEnd.

Record handler : Type := mkHandler {
  h_conn : option (string * nat);                   (** [agentID] and [conn] *)
  h_main : main_phase;
  h_recv : recv_phase;
  h_send : send_phase;
  h_done : bool;                                    (** [done] is closed *)
  h_errChan : chan error;
  h_sent : list ProxyMessage;                       (** what [stream.Send] accepted *)
}.

Definition new_handler : handler := mkHandler None MFirst RIdle SIdle false (make_chan 2) [].

Definition set_main (m : main_phase) (h : handler) : handler :=
  mkHandler (h_conn h) m (h_recv h) (h_send h) (h_done h) (h_errChan h) (h_sent h).
Definition set_recv (r : recv_phase) (h : handler) : handler :=
  mkHandler (h_conn h) (h_main h) r (h_send h) (h_done h) (h_errChan h) (h_sent h).
Definition set_send (s : send_phase) (h : handler) : handler :=
  mkHandler (h_conn h) (h_main h) (h_recv h) s (h_done h) (h_errChan h) (h_sent h).
Definition set_errChan (c : chan error) (h : handler) : handler :=
  mkHandler (h_conn h) (h_main h) (h_recv h) (h_send h) (h_done h) c (h_sent h).

(** [close(done)] and the result of [HandleStream]. *)
Definition leave (r : option error) (h : handler) : handler :=
  mkHandler (h_conn h) (MDefer r) (h_recv h) (h_send h) true (h_errChan h) (h_sent h).

(** [conn, err := Register(...)] succeeded. *)
Definition enter (a : string) (ptr : nat) (first : ProxyMessage) (h : handler) : handler :=
  mkHandler (Some (a, ptr)) (MSeen first) (h_recv h) (h_send h) (h_done h) (h_errChan h) (h_sent h).

(** The two [go] statements. *)
Definition fork (h : handler) : handler :=
  mkHandler (h_conn h) MSelect RCheck SSelect (h_done h) (h_errChan h) (h_sent h).

Definition log_sent (msg : ProxyMessage) (h : handler) : handler :=
  mkHandler (h_conn h) (h_main h) (h_recv h) SSelect (h_done h) (h_errChan h) (h_sent h ++ [msg]).

Definition err_no_agent_id : error := Errorf "agent_id not found in first message metadata".

(** The check of the first message. *)
Definition first_message (msg : ProxyMessage) : main_phase :=
  let agentID := map_get (Metadata msg) "agent_id" in
  if decide (agentID = "") then MEnd (Some err_no_agent_id) else MRegister agentID msg.

(** [if err != nil && err != io.EOF { return err }; return nil] *)
Definition stream_result (e : error) : option error :=
  if decide (e = io_EOF) then None else Some e.

Definition pong_message (uuid : string) : ProxyMessage := mkMsg uuid MessageType_PONG "" ∅.

Section Code.
Context {S : Type} `{AgentServerOps S}.
Notation Srv := (Server S).

(** [processMessage], run without interference. *)
Definition processMessage (choice : select_case) (uuid agentID : string) (msg : ProxyMessage) :
    M Srv (result unit) :=
  match Type_ msg with
  | MessageType_PING =>
      sent ← in_cm (SendToAgent choice agentID (pong_message uuid));
      match sent with
      | Err e => mret (Err (Wrapf "failed to send PONG" e))
      | Ok _ => mret (Ok ())
      end
  | MessageType_RESPONSE => _ ← HandleResponse msg; mret (Ok ())
  | _ => mret (Ok ())
  end.

(** Steps of one handler's goroutines that only read the server; [input] is what
    [stream.Recv()] may return. *)
Inductive local_step (input : ProxyMessage → Prop) (s : Srv) : handler → handler → Prop :=
  (* HandleStream *)
  | l_first_err h e : h_main h = MFirst →
      local_step input s h (set_main (MEnd (Some (Wrapf "failed to receive first message" e))) h)
  | l_first h msg : h_main h = MFirst → input msg → local_step input s h (set_main (first_message msg) h)
  | l_main_err h e c : h_main h = MSelect → ch_try_recv (h_errChan h) = Ret (Some e) c →
      local_step input s h (leave (stream_result e) (set_errChan c h))
  | l_main_ctx h a ptr c : h_main h = MSelect → h_conn h = Some (a, ptr) →
      conns (connManager s) !! ptr = Some c → ctx_done c = true →
      local_step input s h (leave (Some context_Canceled) h)
  (* receiveLoop *)
  | l_recv_check h : h_recv h = RCheck →
      local_step input s h (set_recv (if h_done h then REnd else RRecv) h)
  | l_recv_msg h msg : h_recv h = RRecv → input msg → local_step input s h (set_recv (RSeen msg) h)
  | l_recv_err h e : h_recv h = RRecv → local_step input s h (set_recv (RErr e) h)
  | l_recv_fail h e c : h_recv h = RErr e → ch_send e (h_errChan h) = Ret () c →
      local_step input s h (set_recv REnd (set_errChan c h))
  (* sendLoop *)
  | l_send_done h : h_send h = SSelect → h_done h = true → local_step input s h (set_send SEnd h)
  | l_send_closed h a ptr c : h_send h = SSelect → h_conn h = Some (a, ptr) →
      conns (connManager s) !! ptr = Some c → ch_buf (SendCh c) = [] → ch_closed (SendCh c) = true →
      local_step input s h (set_send SEnd h)
  | l_send_ok h msg : h_send h = SSend msg → local_step input s h (log_sent msg h)
  | l_send_err h msg e : h_send h = SSend msg → local_step input s h (set_send (SErr e) h)
  | l_send_fail h e c : h_send h = SErr e → ch_send e (h_errChan h) = Ret () c →
      local_step input s h (set_send SEnd (set_errChan c h)).

(** A step of [processMessage]; the last argument is what it queues and where. *)
Inductive proc_step (agentID : string) (s : Srv) :
    proc → Srv → option proc → option (nat * ProxyMessage) → Prop :=
  | p_ping msg uuid ptr s' : Type_ msg = MessageType_PING →
      in_cm (SendToAgent_lookup agentID) s = Ret (Ok ptr) s' →
      proc_step agentID s (PMessage msg) s' (Some (PPong ptr (pong_message uuid))) None
  | p_ping_unknown msg e s' : Type_ msg = MessageType_PING →
      in_cm (SendToAgent_lookup agentID) s = Ret (Err e) s' →
      proc_step agentID s (PMessage msg) s' None None
  | p_pong ptr pong choice s' :
      in_cm (SendToAgent_select choice agentID ptr pong) s = Ret (Ok ()) s' →
      proc_step agentID s (PPong ptr pong) s' None (Some (ptr, pong))
  | p_pong_failed ptr pong choice e s' :
      in_cm (SendToAgent_select choice agentID ptr pong) s = Ret (Err e) s' →
      proc_step agentID s (PPong ptr pong) s' None None
  | p_response msg found s' : Type_ msg = MessageType_RESPONSE →
      HandleResponse_lookup msg s = Ret found s' →
      proc_step agentID s (PMessage msg) s' ((λ ch, PDeliver ch msg) <$> found) None
  | p_deliver ch msg s' :
      HandleResponse_deliver ch msg s = Ret () s' →
      proc_step agentID s (PDeliver ch msg) s' None None
  | p_other msg : Type_ msg ≠ MessageType_PING → Type_ msg ≠ MessageType_RESPONSE →
      proc_step agentID s (PMessage msg) s None None.

Record world : Type := mkWorld {
  w_srv : Srv;
  w_handlers : gmap nat handler;                    (** by stream *)
  w_sends : gmap nat (string * nat * ProxyMessage); (** HTTP goroutines between the lookup and the
                                                        [select] of [SendToAgent] *)
  w_queue : gmap nat (list ProxyMessage);           (** all that was ever queued, by connection *)
}.

Definition w_init (asm : option S) : world :=
  mkWorld (mkServer (NewConnectionManager asm) ∅ ∅ 0) ∅ ∅ ∅.

Definition enqueue (o : option (nat * ProxyMessage)) (q : gmap nat (list ProxyMessage)) :
    gmap nat (list ProxyMessage) :=
  match o with
  | None => q
  | Some (ptr, msg) => <[ptr := default [] (q !! ptr) ++ [msg]]> q
  end.

(** The goroutines of the handlers, and those that drop connections; [input i] is
    what stream [i] may receive. *)
Inductive hstep (input : nat → ProxyMessage → Prop) : world → world → Prop :=
  | w_accept s hs sn q i : hs !! i = None →
      hstep input (mkWorld s hs sn q) (mkWorld s (<[i := new_handler]> hs) sn q)
  | w_local s hs sn q i h h' : hs !! i = Some h → local_step (input i) s h h' →
      hstep input (mkWorld s hs sn q) (mkWorld s (<[i := h']> hs) sn q)
  | w_register s s' hs sn q i h a first now ptr :
      hs !! i = Some h → h_main h = MRegister a first →
      in_cm (Register a i now) s = Ret (Ok ptr) s' →
      hstep input (mkWorld s hs sn q) (mkWorld s' (<[i := enter a ptr first h]> hs) sn q)
  | w_register_failed s s' hs sn q i h a first now e :
      hs !! i = Some h → h_main h = MRegister a first →
      in_cm (Register a i now) s = Ret (Err e) s' →
      hstep input (mkWorld s hs sn q)
        (mkWorld s' (<[i := set_main (MEnd (Some (Wrapf "failed to register agent" e))) h]> hs) sn q)
  | w_main_seen s s' hs sn q i h a ptr first now :
      hs !! i = Some h → h_main h = MSeen first → h_conn h = Some (a, ptr) →
      in_cm (UpdateLastSeen a now) s = Ret () s' →
      hstep input (mkWorld s hs sn q) (mkWorld s' (<[i := set_main (MProcess (PMessage first)) h]> hs) sn q)
  | w_main_process s s' hs sn q i h a ptr p next out :
      hs !! i = Some h → h_main h = MProcess p → h_conn h = Some (a, ptr) →
      proc_step a s p s' next out →
      hstep input (mkWorld s hs sn q) (mkWorld s'
        (<[i := match next with Some p' => set_main (MProcess p') h | None => fork h end]> hs)
        sn (enqueue out q))
  | w_defer s s' hs sn q i h a ptr r :
      hs !! i = Some h → h_main h = MDefer r → h_conn h = Some (a, ptr) →
      in_cm (Deregister a) s = Ret () s' →
      hstep input (mkWorld s hs sn q) (mkWorld s' (<[i := set_main (MEnd r) h]> hs) sn q)
  | w_recv_seen s s' hs sn q i h a ptr msg now :
      hs !! i = Some h → h_recv h = RSeen msg → h_conn h = Some (a, ptr) →
      in_cm (UpdateLastSeen a now) s = Ret () s' →
      hstep input (mkWorld s hs sn q) (mkWorld s' (<[i := set_recv (RProcess (PMessage msg)) h]> hs) sn q)
  | w_recv_process s s' hs sn q i h a ptr p next out :
      hs !! i = Some h → h_recv h = RProcess p → h_conn h = Some (a, ptr) →
      proc_step a s p s' next out →
      hstep input (mkWorld s hs sn q) (mkWorld s'
        (<[i := set_recv (match next with Some p' => RProcess p' | None => RCheck end) h]> hs)
        sn (enqueue out q))
  | w_send_take s s' hs sn q i h a ptr msg :
      hs !! i = Some h → h_send h = SSelect → h_conn h = Some (a, ptr) →
      in_cm (on_conn ptr (zoom SendCh set_SendCh ch_try_recv)) s = Ret (Some msg) s' →
      hstep input (mkWorld s hs sn q) (mkWorld s' (<[i := set_send (SSend msg) h]> hs) sn q)
  | w_sweep s s' hs sn q order now : order ≡ₚ keys (agents (connManager s)) →
      in_cm (removeStaleConnections order now) s = Ret () s' →
      hstep input (mkWorld s hs sn q) (mkWorld s' hs sn q)
  | w_stop s s' hs sn q order : order ≡ₚ keys (agents (connManager s)) →
      in_cm (Stop order) s = Ret () s' →
      hstep input (mkWorld s hs sn q) (mkWorld s' hs sn q).

(** Everything that can happen around the streams: any message may arrive, and HTTP
    goroutines send. *)
Inductive wstep : world → world → Prop :=
  | w_handler w w' : hstep (λ _ _, True) w w' → wstep w w'
  | w_http_lookup s s' hs sn q t a msg ptr : sn !! t = None →
      in_cm (SendToAgent_lookup a) s = Ret (Ok ptr) s' →
      wstep (mkWorld s hs sn q) (mkWorld s' hs (<[t := (a, ptr, msg)]> sn) q)
  | w_http_send s s' hs sn q t a msg ptr choice :
      sn !! t = Some (a, ptr, msg) →
      in_cm (SendToAgent_select choice a ptr msg) s = Ret (Ok ()) s' →
      wstep (mkWorld s hs sn q) (mkWorld s' hs (delete t sn) (enqueue (Some (ptr, msg)) q))
  | w_http_failed s s' hs sn q t a msg ptr choice e :
      sn !! t = Some (a, ptr, msg) →
      in_cm (SendToAgent_select choice a ptr msg) s = Ret (Err e) s' →
      wstep (mkWorld s hs sn q) (mkWorld s' hs (delete t sn) q)
  | w_requests s s' hs sn q : connManager s' = connManager s →
      wstep (mkWorld s hs sn q) (mkWorld s' hs sn q).
End Code.

(** ** Invariants *)

(** Between the registration and the deferred [Deregister]. *)
Definition live (m : main_phase) : Prop :=
  match m with MSeen _ | MProcess _ | MSelect | MDefer _ => True | _ => False end.

(** Before the registration. *)
Definition early (m : main_phase) : Prop :=
  match m with MFirst | MRegister _ _ => True | _ => False end.

(** The loops have been forked. *)
Definition forked (m : main_phase) : Prop :=
  match m with MSelect | MDefer _ | MEnd _ => True | _ => False end.

(** The queue is what was sent, then the message in hand, then the buffer; once
    the loop has ended only the first part is sure. *)
Definition fifo (q sent : list ProxyMessage) (ph : send_phase) (buf : list ProxyMessage) : Prop :=
  match ph with
  | SIdle | SSelect => q = sent ++ buf
  | SSend m => q = sent ++ m :: buf
  | SErr _ | SEnd => sent `prefix_of` q
  end.

(** Sends on [errChan] a loop may still do. *)
Definition recv_credit (r : recv_phase) : nat := match r with REnd => 0 | _ => 1 end.
Definition send_credit (s : send_phase) : nat := match s with SEnd => 0 | _ => 1 end.

Section Proofs.
Context {S : Type} `{AgentServerSpec S}.
Notation world := (@world S).
Notation CM := (ConnectionManager S).

(** What the operations do to a connection they do not create: nothing that the
    handler of its stream depends on. *)
Definition kept (c c' : AgentConnection) : Prop :=
  ID c' = ID c ∧ Stream c' = Stream c ∧ ch_buf (SendCh c') = ch_buf (SendCh c).

Definition frame (cm cm' : CM) : Prop :=
  ∀ ptr c, conns cm !! ptr = Some c → ∃ c', conns cm' !! ptr = Some c' ∧ kept c c'.

Lemma kept_refl c : kept c c.
Proof. done. Qed.

Lemma frame_refl cm : frame cm cm.
Proof. intros ptr c Hc. by exists c. Qed.

Lemma frame_fmap cm cm' (f : nat → AgentConnection → AgentConnection) :
  (∀ ptr, conns cm' !! ptr = f ptr <$> conns cm !! ptr) → (∀ ptr c, kept c (f ptr c)) →
  frame cm cm'.
Proof. intros Hf Hk ptr c Hc. exists (f ptr c). by rewrite Hf, Hc. Qed.

Lemma frame_close_old a cm cm' : conns cm' = close_old a cm → frame cm cm'.
Proof.
  intros E. unfold close_old in E. intros ptr c Hc. rewrite E.
  destruct (agents cm !! a) as [p|]; [|by exists c].
  destruct (decide (p = ptr)) as [->|Hne].
  - exists (closed c). by rewrite lookup_alter_eq, Hc.
  - exists c. by rewrite lookup_alter_ne.
Qed.

Lemma Deregister_frame a cm cm' : cm_ok cm → Deregister a cm = Ret () cm' →
  cm_ok cm' ∧ frame cm cm' ∧ agents cm' = delete a (agents cm).
Proof.
  intros Hok E. destruct (wp_Ret _ _ _ _ _ (Deregister_spec a cm Hok) E) as (? & _ & ? & ? & _).
  split_and!; try done. by eapply frame_close_old.
Qed.

Lemma Register_frame a i now cm r cm' : cm_ok cm → Register a i now cm = Ret r cm' →
  cm_ok cm' ∧ frame cm cm' ∧
  match r with
  | Ok ptr => agents cm' = <[a := ptr]> (agents cm) ∧ conns cm !! ptr = None ∧
      ∃ c, conns cm' !! ptr = Some c ∧ ID c = a ∧ Stream c = i ∧ ch_buf (SendCh c) = []
  | Err _ => agents cm' = delete a (agents cm)
  end.
Proof.
  intros Hok E. destruct (wp_Ret _ _ _ _ _ (Register_spec a i now cm Hok) E) as (? & _ & Hr).
  split; [done|]. destruct r as [ptr|e].
  - destruct Hr as (-> & Ea & p & Ec & _).
    assert (conns cm !! next_conn cm = None) as Hfresh.
    { apply eq_None_not_Some. intros Hs%(co_fresh _ Hok). lia. }
    split; [|split; [done|split; [done|]]].
    + intros ptr c Hc. rewrite Ec.
      rewrite lookup_insert_ne by (intros <-; congruence).
      by apply (frame_close_old a cm (set_conns (close_old a cm) cm)).
    + rewrite Ec, lookup_insert_eq. by eexists.
  - destruct Hr as (_ & Ea & Ec & _). split; [|done]. by eapply frame_close_old.
Qed.

Lemma UpdateLastSeen_frame a now cm cm' : cm_ok cm → UpdateLastSeen a now cm = Ret () cm' →
  cm_ok cm' ∧ frame cm cm' ∧ agents cm' = agents cm.
Proof.
  intros Hok E. destruct (wp_Ret _ _ _ _ _ (UpdateLastSeen_spec a now cm Hok) E) as [? Hu].
  split; [done|]. destruct (agents cm !! a) as [p|]; subst; simpl; split; try done;
    [|apply frame_refl].
  intros ptr c Hc. simpl. destruct (decide (p = ptr)) as [->|Hne].
  - exists (set_LastSeen now c). by rewrite lookup_alter_eq, Hc.
  - exists c. by rewrite lookup_alter_ne.
Qed.

Lemma sweep_frame order now cm cm' :
  cm_ok cm → removeStaleConnections order now cm = Ret () cm' →
  cm_ok cm' ∧ frame cm cm' ∧ ∀ a ptr, agents cm' !! a = Some ptr → agents cm !! a = Some ptr.
Proof.
  intros Hok E. destruct (wp_Ret _ _ _ _ _ (removeStale_loop_spec order now cm Hok) E) as [? Hd].
  split_and!; [done| |].
  - eapply (frame_fmap _ _ (λ ptr c, if _ : bool then closed c else c)); [apply (dr_conns _ _ _ Hd)|].
    intros ptr c. by case_match.
  - intros a ptr. rewrite (dr_agents _ _ _ Hd). by case_match.
Qed.

Lemma Stop_frame order cm cm' :
  cm_ok cm → order ≡ₚ keys (agents cm) → Stop order cm = Ret () cm' →
  cm_ok cm' ∧ frame cm cm' ∧ agents cm' = ∅.
Proof.
  intros Hok Ho E. destruct (ch_closed (stopCh cm)) eqn:Hs.
  { unfold Stop, mbind, M_bind, zoom, ch_close in E. by rewrite Hs in E. }
  destruct (wp_Ret _ _ _ _ _ (Stop_spec order cm Hok Ho Hs) E) as (? & ? & _ & _ & _ & _ & Hc).
  split_and!; try done. eapply (frame_fmap _ _ (λ ptr c, if _ : bool then closed c else c)); [apply Hc|].
  intros ptr c. by case_match.
Qed.

Lemma in_cm_inv {A} (m : M CM A) (s s' : Server S) a :
  in_cm m s = Ret a s' → m (connManager s) = Ret a (connManager s').
Proof. unfold in_cm, zoom. destruct (m (connManager s)); [|done..]. by intros [= <- <-]. Qed.

Lemma lookup_Ret a (cm cm' : CM) r : SendToAgent_lookup a cm = Ret r cm' → cm' = cm.
Proof. by intros [= _ <-]. Qed.

(** *** One handler *)

Record handler_ok (cm : CM) (q : gmap nat (list ProxyMessage)) (i : nat) (h : handler) : Prop := {
  ho_live : live (h_main h) → is_Some (h_conn h);
  ho_idle : ¬ forked (h_main h) → h_send h = SIdle ∧ h_recv h = RIdle;
  ho_fifo : ∀ a ptr, h_conn h = Some (a, ptr) → ∃ c, conns cm !! ptr = Some c ∧ ID c = a ∧
    Stream c = i ∧ fifo (default [] (q !! ptr)) (h_sent h) (h_send h) (ch_buf (SendCh c));
  ho_fresh : h_conn h = None → h_sent h = [] ∧ h_send h = SIdle;
  ho_cap : ch_cap (h_errChan h) = 2 ∧ ch_closed (h_errChan h) = false;
  ho_credit : length (ch_buf (h_errChan h)) + recv_credit (h_recv h) + send_credit (h_send h) ≤ 2;
}.

Lemma handler_ok_new cm q i : handler_ok cm q i new_handler.
Proof. split; simpl; try done; lia. Qed.

(** The parts a step does not touch. *)
Lemma handler_ok_frame cm cm' q q' i h :
  handler_ok cm q i h →
  (∀ a ptr c, h_conn h = Some (a, ptr) → conns cm !! ptr = Some c →
     ∃ c', conns cm' !! ptr = Some c' ∧ kept c c') →
  (∀ a ptr, h_conn h = Some (a, ptr) → q' !! ptr = q !! ptr) →
  handler_ok cm' q' i h.
Proof.
  intros Hok Hf Hq. destruct Hok as [L I F N C K]. split; try done.
  intros a ptr Hp. destruct (F _ _ Hp) as (c & Hc & Hid & Hst & Hfi).
  destruct (Hf _ _ _ Hp Hc) as (c' & Hc' & E1 & E2 & E3). exists c'.
  rewrite (Hq _ _ Hp), E1, E2, E3. done.
Qed.

(** A step of the main goroutine that does not touch the loops. *)
Lemma handler_ok_main cm q i h m :
  handler_ok cm q i h → (live m → is_Some (h_conn h)) → (¬ forked m → ¬ forked (h_main h)) →
  handler_ok cm q i (set_main m h).
Proof. intros [L I F N C K] Hl Hf. split; simpl; auto. Qed.

Lemma handler_ok_recv cm q i h r :
  handler_ok cm q i h → h_recv h ≠ RIdle → recv_credit r ≤ recv_credit (h_recv h) →
  handler_ok cm q i (set_recv r h).
Proof.
  intros [L I F N C K] Hni Hr. split; simpl; auto; [|lia]. intros Hf. by destruct Hni; apply I.
Qed.

Lemma ch_send_Ret {A} (x : A) c c' : ch_send x c = Ret () c' → c' = ch_push x c.
Proof. unfold ch_send. repeat case_match; try done. by intros [= <-]. Qed.

(** A loop puts its error into the channel and ends. *)
Lemma handler_ok_fail cm q i h r ph e c :
  handler_ok cm q i h → ch_send e (h_errChan h) = Ret () c →
  recv_credit r + send_credit ph < recv_credit (h_recv h) + send_credit (h_send h) →
  ph = h_send h ∨ (ph = SEnd ∧ ∃ e', h_send h = SErr e') →
  (h_recv h = RIdle → h_send h ≠ SIdle) →
  handler_ok cm q i (set_recv r (set_send ph (set_errChan c h))).
Proof.
  intros [L I F N [C1 C2] K] ->%ch_send_Ret Hcr Hph Hni. split; simpl; auto.
  - intros Hf. destruct (I Hf). by destruct Hni.
  - intros a ptr Hp. destruct (F _ _ Hp) as (c & ? & ? & ? & Hfi). exists c. split_and!; try done.
    destruct Hph as [->|[-> [e' He]]]; [done|]. by rewrite He in Hfi.
  - intros Hn. destruct Hph as [->|[_ [e' He]]]; [auto|]. destruct (N Hn) as [_ Hs].
    rewrite Hs in He. done.
  - rewrite length_app. simpl. lia.
Qed.

Lemma set_recv_same h ph c : set_recv (h_recv h) (set_send ph (set_errChan c h)) = set_send ph (set_errChan c h).
Proof. done. Qed.
Lemma set_send_same h r c : set_recv r (set_send (h_send h) (set_errChan c h)) = set_recv r (set_errChan c h).
Proof. done. Qed.

(** A step of [sendLoop]. *)
Lemma handler_ok_send cm q i h ph sent :
  handler_ok cm q i h → h_send h ≠ SIdle → send_credit ph ≤ send_credit (h_send h) →
  (∀ que buf, fifo que (h_sent h) (h_send h) buf → fifo que sent ph buf) →
  handler_ok cm q i
    (mkHandler (h_conn h) (h_main h) (h_recv h) ph (h_done h) (h_errChan h) sent).
Proof.
  intros [L I F N C K] Hni Hcr Hfi. split; simpl; auto.
  - intros Hf. by destruct Hni; apply I.
  - intros a ptr Hp. destruct (F _ _ Hp) as (c & ? & ? & ? & ?). exists c. auto.
  - intros Hn. by destruct Hni; apply N.
  - lia.
Qed.

(** [HandleStream] takes an error from the channel or sees its context end. *)
Lemma handler_ok_leave cm q i h r c :
  handler_ok cm q i h → h_main h = MSelect →
  ch_cap c = 2 → ch_closed c = false → length (ch_buf c) ≤ length (ch_buf (h_errChan h)) →
  handler_ok cm q i (leave r (set_errChan c h)).
Proof.
  intros [L I F N C K] Hm Hcap Hcl Hlen. rewrite Hm in *. split; simpl; auto. lia.
Qed.

Lemma handler_ok_local inp s q i h h' :
  handler_ok (connManager s) q i h → local_step inp s h h' → handler_ok (connManager s) q i h'.
Proof.
  intros Hok Hs. destruct Hs as [h e Hm|h msg Hm _|h e c Hm Hr|h a ptr c Hm Hc Hcc Hd|h Hr|h msg Hr _
    |h e Hr|h e c Hr Hch|h Hse Hd|h a ptr c Hse Hc Hcc Hb Hcl|h msg Hse|h msg e Hse|h e c Hse Hch].
  - apply handler_ok_main; [done..|]. by rewrite Hm.
  - apply handler_ok_main; [done|..]; unfold first_message; simpl; case_decide; try done; by rewrite Hm.
  - unfold ch_try_recv in Hr. destruct (ch_buf (h_errChan h)) as [|e' buf] eqn:Eb; [done|].
    injection Hr as <- <-. destruct (ho_cap _ _ _ _ Hok).
    apply handler_ok_leave; simpl; try done. rewrite Eb. simpl. lia.
  - destruct (ho_cap _ _ _ _ Hok).
    apply (handler_ok_leave _ _ _ _ (Some context_Canceled) (h_errChan h)); done.
  - apply handler_ok_recv; rewrite ?Hr; [done..|]. by destruct (h_done h); simpl; lia.
  - apply handler_ok_recv; rewrite ?Hr; [done..|]. simpl; lia.
  - apply handler_ok_recv; rewrite ?Hr; [done..|]. simpl; lia.
  - rewrite <- set_send_same. eapply handler_ok_fail; [done|done| |by left|by rewrite Hr].
    rewrite Hr. simpl. lia.
  - apply handler_ok_send; [done|by rewrite Hse|simpl; lia|]. rewrite Hse. simpl.
    intros que buf ->. by eexists.
  - apply handler_ok_send; [done|by rewrite Hse|simpl; lia|]. rewrite Hse. simpl.
    intros que buf ->. by eexists.
  - apply handler_ok_send; [done|by rewrite Hse|rewrite Hse; simpl; lia|]. rewrite Hse. simpl.
    intros que buf ->. by rewrite <- app_assoc.
  - apply handler_ok_send; [done|by rewrite Hse|rewrite Hse; simpl; lia|]. rewrite Hse. simpl.
    intros que buf ->. by eexists.
  - rewrite <- set_recv_same. eapply handler_ok_fail; [done|done| |right; eauto|by rewrite Hse].
    rewrite Hse. simpl. lia.
Qed.

Lemma handler_ok_fork cm q i h p :
  handler_ok cm q i h → h_main h = MProcess p → handler_ok cm q i (fork h).
Proof.
  intros [L I F N C K] Hm. rewrite Hm in L, I. simpl in L. destruct I as [Is Ir]; [auto|].
  rewrite Is in F, K. rewrite Ir in K. split; simpl; try tauto; auto.
  intros Hn. rewrite Hn in L. by destruct (L Logic.I).
Qed.

Lemma handler_ok_enter cm q i h a first ptr c :
  handler_ok cm q i h → h_main h = MRegister a first → h_conn h = None →
  conns cm !! ptr = Some c → ID c = a → Stream c = i → ch_buf (SendCh c) = [] → q !! ptr = None →
  handler_ok cm q i (enter a ptr first h).
Proof.
  intros [L I F N C K] Hm Hn Hc Hid Hst Hb Hq. rewrite Hm in I. destruct (N Hn) as [Es Eph].
  split; simpl; try done; auto. intros a' ptr' [= <- <-]. exists c. by rewrite Hq, Es, Eph, Hb.
Qed.

Lemma handler_ok_enqueue cm q i h ptr msg c :
  handler_ok cm q i h → conns cm !! ptr = Some c →
  handler_ok (set_conns (<[ptr := queued msg c]> (conns cm)) cm) (enqueue (Some (ptr, msg)) q) i h.
Proof.
  intros [L I F N C K] Hc. split; auto. simpl.
  intros a ptr' Hp. destruct (F _ _ Hp) as (c' & Hc' & Hid & Hst & Hfi).
  destruct (decide (ptr = ptr')) as [<-|Hne].
  - rewrite !lookup_insert_eq. simplify_eq. exists (queued msg c). simpl. split_and!; try done.
    destruct (h_send h); simpl in *.
    + by rewrite Hfi, <- app_assoc.
    + by rewrite Hfi, <- app_assoc.
    + by rewrite Hfi, <- app_assoc.
    + by apply prefix_app_r.
    + by apply prefix_app_r.
  - exists c'. by rewrite !lookup_insert_ne.
Qed.

(** *** The world *)

Record world_ok (w : world) : Prop := {
  wo_cm : cm_ok (connManager (w_srv w));
  wo_handler : ∀ i h, w_handlers w !! i = Some h →
    handler_ok (connManager (w_srv w)) (w_queue w) i h;
  wo_early : ∀ i h, w_handlers w !! i = Some h → early (h_main h) → h_conn h = None;
  wo_reg : ∀ a ptr, agents (connManager (w_srv w)) !! a = Some ptr →
    ∃ i h, w_handlers w !! i = Some h ∧ h_conn h = Some (a, ptr) ∧ live (h_main h);
  wo_queue : ∀ ptr, is_Some (w_queue w !! ptr) → is_Some (conns (connManager (w_srv w)) !! ptr);
}.

(** [h] owns the registration of [a]. *)
Definition owns (h : handler) (a : string) (ptr : nat) : Prop :=
  h_conn h = Some (a, ptr) ∧ live (h_main h).

Lemma world_ok_update s s' hs sn sn' q i h h' :
  world_ok (mkWorld s hs sn q) → hs !! i = Some h →
  cm_ok (connManager s') → frame (connManager s) (connManager s') →
  handler_ok (connManager s') q i h' →
  (early (h_main h') → h_conn h' = None) →
  (∀ a ptr, agents (connManager s') !! a = Some ptr →
     owns h' a ptr ∨ agents (connManager s) !! a = Some ptr ∧ ¬ owns h a ptr) →
  world_ok (mkWorld s' (<[i := h']> hs) sn' q).
Proof.
  intros Hok Hi Hcm Hf Hh He Hag. split; simpl; [done|..].
  - intros j hj [[<- <-]|[_ Hj]]%lookup_insert_Some; [done|].
    eapply handler_ok_frame; [by apply (wo_handler _ Hok)| |done]. intros a ptr c _. apply Hf.
  - intros j hj [[<- <-]|[_ Hj]]%lookup_insert_Some Hm; [auto|]. by eapply (wo_early _ Hok).
  - intros a ptr [[Hc Hl]|[Ha Hno]]%Hag.
    + exists i, h'. by rewrite lookup_insert_eq.
    + destruct (wo_reg _ Hok _ _ Ha) as (j & hj & Hj & Hc & Hl). exists j, hj.
      rewrite lookup_insert_ne; [done|]. intros <-. simpl in Hj. rewrite Hi in Hj.
      injection Hj as <-. by destruct Hno.
  - intros ptr Hp. destruct (wo_queue _ Hok _ Hp) as [c Hc].
    destruct (Hf _ _ Hc) as (c' & Hc' & _). by exists c'.
Qed.

(** The common case: the handler keeps its connection and what it owns. *)
Lemma world_ok_same s s' hs sn sn' q i h h' :
  world_ok (mkWorld s hs sn q) → hs !! i = Some h →
  cm_ok (connManager s') → frame (connManager s) (connManager s') →
  handler_ok (connManager s) q i h' → h_conn h' = h_conn h →
  (live (h_main h) → live (h_main h')) → (early (h_main h') → early (h_main h)) →
  (∀ a ptr, agents (connManager s') !! a = Some ptr → agents (connManager s) !! a = Some ptr) →
  world_ok (mkWorld s' (<[i := h']> hs) sn' q).
Proof.
  intros Hok Hi Hcm Hf Hh Ec Hl He Hag. eapply world_ok_update; try done.
  - eapply handler_ok_frame; [done| |done]. intros a ptr c _. apply Hf.
  - intros Hm%He. rewrite Ec. by apply (wo_early _ Hok _ _ Hi).
  - intros a ptr Ha%Hag. destruct (decide (h_conn h = Some (a, ptr))) as [E|E].
    + destruct (wo_reg _ Hok _ _ Ha) as (j & hj & Hj & Hcj & Hlj).
      assert (j = i) as ->.
      { destruct (ho_fifo _ _ _ _ (wo_handler _ Hok _ _ Hj) _ _ Hcj) as (c & Hc & _ & <- & _).
        destruct (ho_fifo _ _ _ _ (wo_handler _ Hok _ _ Hi) _ _ E) as (c' & Hc' & _ & <- & _).
        congruence. }
      left. simpl in Hj. rewrite Hi in Hj. injection Hj as <-. split; [congruence|auto].
    + right. split; [done|]. by intros [? _].
Qed.

Lemma world_ok_server s s' hs sn sn' q :
  world_ok (mkWorld s hs sn q) → cm_ok (connManager s') → frame (connManager s) (connManager s') →
  (∀ a ptr, agents (connManager s') !! a = Some ptr → agents (connManager s) !! a = Some ptr) →
  world_ok (mkWorld s' hs sn' q).
Proof.
  intros Hok Hcm Hf Hag. destruct Hok as [C Ha E R Q]. split; simpl in *; try done; auto.
  - intros i h Hi. eapply handler_ok_frame; [by apply Ha| |done]. intros a ptr c _. apply Hf.
  - intros ptr [c Hc]%Q. destruct (Hf _ _ Hc) as (c' & Hc' & _). by exists c'.
Qed.

(** The connections do not change. *)
Lemma world_ok_still s s' hs sn sn' q :
  world_ok (mkWorld s hs sn q) → connManager s' = connManager s → world_ok (mkWorld s' hs sn' q).
Proof. intros [C Ha E R Q] Es. split; simpl in *; by rewrite ?Es. Qed.

Lemma world_ok_enqueue s s' hs sn sn' q ptr msg c :
  world_ok (mkWorld s hs sn q) → cm_ok (connManager s') → conns (connManager s) !! ptr = Some c →
  connManager s' = set_conns (<[ptr := queued msg c]> (conns (connManager s))) (connManager s) →
  world_ok (mkWorld s' hs sn' (enqueue (Some (ptr, msg)) q)).
Proof.
  intros Hok Hcm Hc Es. destruct Hok as [C Ha E R Q]. split; simpl in *; try done; rewrite Es.
  - intros i h Hi. apply handler_ok_enqueue; [|done]. auto.
  - done.
  - intros ptr' [l Hl]. simpl. destruct (decide (ptr = ptr')) as [<-|Hne].
    + rewrite lookup_insert_eq. by eexists.
    + rewrite lookup_insert_ne by done. rewrite lookup_insert_ne in Hl by done. apply Q. by eexists.
Qed.

(** What a step of [processMessage] does to the world around it. *)
Lemma world_ok_proc a s p s' next out hs sn q :
  world_ok (mkWorld s hs sn q) → proc_step a s p s' next out →
  world_ok (mkWorld s' hs sn (enqueue out q)).
Proof.
  intros Hok Hp.
  destruct Hp as [msg uuid ptr s' _ E|msg e s' _ E|ptr pong choice s' E|ptr pong choice e s' E
    |msg found s' _ E|ch msg s' E|msg _ _]; simpl.
  - apply in_cm_inv, lookup_Ret in E. by eapply world_ok_still.
  - apply in_cm_inv, lookup_Ret in E. by eapply world_ok_still.
  - apply in_cm_inv in E. destruct (SendToAgent_select_Ret _ _ _ _ _ _ _ (wo_cm _ Hok) E)
      as (Hcm & c & Hc & Es). by eapply world_ok_enqueue.
  - apply in_cm_inv in E. destruct (SendToAgent_select_Ret _ _ _ _ _ _ _ (wo_cm _ Hok) E) as [Hcm Es].
    by eapply world_ok_still.
  - injection E as _ <-. done.
  - assert (connManager s' = connManager s) as Es.
    { unfold HandleResponse_deliver, mbind, M_bind in E.
      destruct (on_chan ch (ch_try_send msg) s) as [b s1| |] eqn:Eo; try done.
      injection E as <-. by apply on_chan_Ret in Eo as (? & ? & _ & _ & ->). }
    by eapply world_ok_still.
  - done.
Qed.

(** A handler step with the server fixed. *)
Lemma world_ok_local s hs sn q i h h' :
  world_ok (mkWorld s hs sn q) → hs !! i = Some h →
  handler_ok (connManager s) q i h' → h_conn h' = h_conn h →
  (live (h_main h) → live (h_main h')) → (early (h_main h') → early (h_main h)) →
  world_ok (mkWorld s (<[i := h']> hs) sn q).
Proof.
  intros Hok Hi Hh Hc Hl He. eapply world_ok_same; try done; [apply Hok|apply frame_refl].
Qed.

(** [sendLoop] takes the head of its connection's buffer. *)
Lemma world_ok_take s s' hs sn q i h a ptr msg :
  world_ok (mkWorld s hs sn q) → hs !! i = Some h → h_send h = SSelect → h_conn h = Some (a, ptr) →
  in_cm (on_conn ptr (zoom SendCh set_SendCh ch_try_recv)) s = Ret (Some msg) s' →
  world_ok (mkWorld s' (<[i := set_send (SSend msg) h]> hs) sn q).
Proof.
  intros Hok Hi Hse Hconn E. apply in_cm_inv in E. unfold on_conn in E.
  pose proof (wo_handler _ Hok _ _ Hi) as Hh.
  destruct (ho_fifo _ _ _ _ Hh _ _ Hconn) as (c & Hc & Hid & Hst & Hfi). simpl in Hc, Hfi.
  rewrite Hc in E. unfold zoom, ch_try_recv in E.
  destruct (ch_buf (SendCh c)) as [|m buf] eqn:Eb; [done|]. injection E as <- Es.
  set (c' := set_SendCh _ c) in Es.
  assert (∀ j hj, hs !! j = Some hj → j ≠ i →
    handler_ok (connManager s') q j hj) as Hother.
  { intros j hj Hj Hne. pose proof (wo_handler _ Hok _ _ Hj) as Hhj.
    eapply handler_ok_frame; [exact Hhj| |done]. intros b ptr' d Hp Hd.
    destruct (ho_fifo _ _ _ _ Hhj _ _ Hp) as (d' & Hd' & _ & Hsj & _). simpl in Hd, Hd'.
    exists d. rewrite <- Es. simpl. rewrite lookup_insert_ne; [done|]. intros <-. congruence. }
  destruct Hok as [C Ha Ea R Q]. split; simpl in *.
  - rewrite <- Es. eapply (cm_ok_update _ c); try done. simpl.
    destruct (co_buf _ C _ _ Hc) as [_ Hl]. rewrite Eb in Hl. simpl in Hl. lia.
  - intros j hj [[<- <-]|[Hne Hj]]%lookup_insert_Some; [|by apply Hother].
    destruct Hh as [L I F N Cp K]. split; simpl; auto.
    + intros Hf. destruct (I Hf). congruence.
    + intros a' ptr' Hp. rewrite Hconn in Hp. injection Hp as <- <-. exists c'.
      rewrite <- Es. simpl. rewrite lookup_insert_eq. split_and!; try done.
      by rewrite Hse in Hfi.
    + congruence.
    + rewrite Hse in K. simpl in K. lia.
  - intros j hj [[<- <-]|[_ Hj]]%lookup_insert_Some; simpl; by eapply Ea.
  - intros b p. rewrite <- Es. simpl. intros Hb. destruct (R _ _ Hb) as (j & hj & Hj & Hcj & Hlj).
    destruct (decide (j = i)) as [->|Hne].
    + exists i. eexists. rewrite lookup_insert_eq. split; [done|]. simpl. by simplify_eq.
    + exists j, hj. by rewrite lookup_insert_ne.
  - intros p Hp. rewrite <- Es. simpl. destruct (decide (ptr = p)) as [<-|Hne].
    + rewrite lookup_insert_eq. by eexists.
    + rewrite lookup_insert_ne by done. by apply Q.
Qed.

Lemma local_step_conn inp (s : Server S) h h' : local_step inp s h h' →
  h_conn h' = h_conn h ∧ (live (h_main h) → live (h_main h')) ∧ (early (h_main h') → early (h_main h)).
Proof. destruct 1; simpl; repeat split; by repeat match goal with E : h_main _ = _ |- _ => rewrite E end. Qed.

(** The handler registers: the new registration is its own. *)
Lemma world_ok_register s s' hs sn q i h a first now ptr :
  world_ok (mkWorld s hs sn q) → hs !! i = Some h → h_main h = MRegister a first →
  in_cm (Register a i now) s = Ret (Ok ptr) s' →
  world_ok (mkWorld s' (<[i := enter a ptr first h]> hs) sn q).
Proof.
  intros Hok Hi Hm E. apply in_cm_inv in E.
  destruct (Register_frame _ _ _ _ _ _ (wo_cm _ Hok) E) as (Hcm & Hf & Eag & Hnone & c & Hc & ? & ? & ?).
  assert (h_conn h = None) as Hn by (apply (wo_early _ Hok _ _ Hi); by rewrite Hm).
  eapply world_ok_update; try done.
  - eapply handler_ok_enter; try done.
    + eapply handler_ok_frame; [by apply (wo_handler _ Hok)| |done]. intros ? ? ? _. apply Hf.
    + apply eq_None_not_Some. intros [c' Hc']%(wo_queue _ Hok). simpl in *. congruence.
  - intros b p. rewrite Eag. intros [[<- <-]|[Hne Hb]]%lookup_insert_Some; [by left|].
    right. split; [done|]. intros [? _]. congruence.
Qed.

Lemma world_ok_accept s hs sn q i :
  world_ok (mkWorld s hs sn q) → hs !! i = None → world_ok (mkWorld s (<[i := new_handler]> hs) sn q).
Proof.
  intros [C Ha Ea R Q] Hi. split; simpl in *; try done.
  - intros j h [[<- <-]|[_ Hj]]%lookup_insert_Some; [apply handler_ok_new|auto].
  - intros j h [[<- <-]|[_ Hj]]%lookup_insert_Some; [done|eauto].
  - intros a ptr (j & h & Hj & ?)%R. exists j, h.
    rewrite lookup_insert_ne; [done|]. intros <-. congruence.
Qed.

(** [UpdateLastSeen], and the handler goes on. *)
Lemma world_ok_seen s s' hs sn q i h h' a now :
  world_ok (mkWorld s hs sn q) → hs !! i = Some h → in_cm (UpdateLastSeen a now) s = Ret () s' →
  handler_ok (connManager s) q i h' → h_conn h' = h_conn h →
  (live (h_main h) → live (h_main h')) → (early (h_main h') → early (h_main h)) →
  world_ok (mkWorld s' (<[i := h']> hs) sn q).
Proof.
  intros Hok Hi E. apply in_cm_inv in E.
  destruct (UpdateLastSeen_frame _ _ _ _ (wo_cm _ Hok) E) as (? & ? & Eag).
  intros. eapply world_ok_same; simpl; try done. by rewrite Eag.
Qed.

Lemma world_ok_deregister s s' hs sn q i h a ptr r :
  world_ok (mkWorld s hs sn q) → hs !! i = Some h → h_main h = MDefer r → h_conn h = Some (a, ptr) →
  in_cm (Deregister a) s = Ret () s' → world_ok (mkWorld s' (<[i := set_main (MEnd r) h]> hs) sn q).
Proof.
  intros Hok Hi Hm Hc E. apply in_cm_inv in E.
  destruct (Deregister_frame _ _ _ (wo_cm _ Hok) E) as (? & Hf & Eag). eapply world_ok_update; try done.
  - eapply handler_ok_frame; [|intros ? ? ? _; apply Hf|done].
    apply handler_ok_main; [by apply (wo_handler _ Hok)|done|]. by rewrite Hm.
  - intros b p. rewrite Eag. intros [Hne Hb]%lookup_delete_Some. right. split; [done|].
    intros [? _]. congruence.
Qed.

Lemma world_ok_hstep inp w w' : world_ok w → hstep inp w w' → world_ok w'.
Proof.
  intros Hok Hs. destruct Hs as [s hs sn q i Hi|s hs sn q i h h' Hi Hl
    |s s' hs sn q i h a first now ptr Hi Hm E|s s' hs sn q i h a first now e Hi Hm E
    |s s' hs sn q i h a ptr first now Hi Hm Hc E|s s' hs sn q i h a ptr p next out Hi Hm Hc E
    |s s' hs sn q i h a ptr r Hi Hm Hc E|s s' hs sn q i h a ptr msg now Hi Hr Hc E
    |s s' hs sn q i h a ptr p next out Hi Hr Hc E|s s' hs sn q i h a ptr msg Hi Hse Hc E
    |s s' hs sn q order now Ho E|s s' hs sn q order Ho E].
  - by apply world_ok_accept.
  - destruct (local_step_conn _ _ _ _ Hl) as (? & ? & ?). eapply world_ok_local; try done.
    eapply handler_ok_local; [|done]. by apply (wo_handler _ Hok).
  - by eapply world_ok_register.
  - apply in_cm_inv in E. destruct (Register_frame _ _ _ _ _ _ (wo_cm _ Hok) E) as (? & ? & Eag).
    eapply world_ok_same; simpl; try done; [|by rewrite Hm|].
    + apply handler_ok_main; [by apply (wo_handler _ Hok)|done|]. by rewrite Hm.
    + intros b p. rewrite Eag. by intros [_ ?]%lookup_delete_Some.
  - eapply world_ok_seen; try done.
    apply handler_ok_main; [by apply (wo_handler _ Hok)|by rewrite Hc|]. by rewrite Hm.
  - pose proof (world_ok_proc _ _ _ _ _ _ _ _ _ Hok E) as Hok'.
    pose proof (wo_handler _ Hok' _ _ Hi) as Hh. eapply world_ok_local; try done; try by destruct next.
    destruct next; [|by eapply handler_ok_fork].
    apply handler_ok_main; [done|by rewrite Hc|by rewrite Hm].
  - by eapply world_ok_deregister.
  - eapply world_ok_seen; try done.
    apply handler_ok_recv; [by apply (wo_handler _ Hok)|by rewrite Hr|]. by rewrite Hr.
  - pose proof (world_ok_proc _ _ _ _ _ _ _ _ _ Hok E) as Hok'.
    pose proof (wo_handler _ Hok' _ _ Hi) as Hh. eapply world_ok_local; try done.
    apply handler_ok_recv; [done|by rewrite Hr|]. rewrite Hr. by destruct next.
  - by eapply world_ok_take.
  - apply in_cm_inv in E. destruct (sweep_frame _ _ _ _ (wo_cm _ Hok) E) as (? & ? & ?).
    by eapply world_ok_server.
  - apply in_cm_inv in E. destruct (Stop_frame _ _ _ (wo_cm _ Hok) Ho E) as (? & ? & Eag).
    eapply world_ok_server; try done. intros b p. by rewrite Eag, lookup_empty.
Qed.

Lemma world_ok_step w w' : world_ok w → wstep w w' → world_ok w'.
Proof.
  intros Hok Hs. destruct Hs as [w w' Hs|s s' hs sn q t a msg ptr Ht E
    |s s' hs sn q t a msg ptr choice Ht E|s s' hs sn q t a msg ptr choice e Ht E|s s' hs sn q E].
  - by eapply world_ok_hstep.
  - apply in_cm_inv, lookup_Ret in E. by eapply world_ok_still.
  - apply in_cm_inv in E. destruct (SendToAgent_select_Ret _ _ _ _ _ _ _ (wo_cm _ Hok) E)
      as (? & c & Hc & Es). by eapply world_ok_enqueue.
  - apply in_cm_inv in E. destruct (SendToAgent_select_Ret _ _ _ _ _ _ _ (wo_cm _ Hok) E) as [_ Es].
    by eapply world_ok_still.
  - by eapply world_ok_still.
Qed.

(** *** The steps, from outside

    Where the messages a handler works on come from: [P] holds of what its stream
    may receive, [Q] of the channels registered for a message id. *)
Section Provenance.
Context (Q : nat → string → Prop).

Definition proc_from (P : ProxyMessage → Prop) (p : proc) : Prop :=
  match p with
  | PMessage m => P m
  | PPong _ m => Type_ m = MessageType_PONG
  | PDeliver ch m => P m ∧ Q ch (Id m) ∧ Type_ m = MessageType_RESPONSE
  end.

(** [a] is the agent a first message names. *)
Definition names (P : ProxyMessage → Prop) (a : string) : Prop :=
  a ≠ "" ∧ ∃ m, P m ∧ map_get (Metadata m) "agent_id" = a.

Definition main_from (P : ProxyMessage → Prop) (ph : main_phase) : Prop :=
  match ph with
  | MRegister a m => P m ∧ names P a
  | MSeen m => P m
  | MProcess p => proc_from P p
  | _ => True
  end.

Definition recv_from (P : ProxyMessage → Prop) (ph : recv_phase) : Prop :=
  match ph with
  | RSeen m => P m
  | RProcess p => proc_from P p
  | _ => True
  end.

Record handler_from (P : ProxyMessage → Prop) (h : handler) : Prop := {
  hf_main : main_from P (h_main h);
  hf_recv : recv_from P (h_recv h);
  hf_conn : ∀ a ptr, h_conn h = Some (a, ptr) → names P a;
}.

Lemma handler_from_new P : handler_from P new_handler.
Proof. by split. Qed.

Lemma handler_from_local P (s : Server S) h h' :
  handler_from P h → local_step P s h h' → handler_from P h'.
Proof.
  intros [M R C] Hs. destruct Hs as [h e Hm|h msg Hm Hi|h e c Hm Hr|h a ptr c Hm Hc Hcc Hd|h Hr|h msg Hr Hi
    |h e Hr|h e c Hr Hch|h Hse Hd|h a ptr c Hse Hc Hcc Hb Hcl|h msg Hse|h msg e Hse|h e c Hse Hch];
    split; simpl; try assumption; try done.
  - unfold first_message. case_decide; [done|]. simpl. split; [done|]. split; [done|by exists msg].
  - by destruct (h_done h).
Qed.

Lemma proc_step_from P a (s : Server S) p s' next out :
  proc_from P p → (∀ id ch, pendingRequests s !! id = Some ch → Q ch id) →
  proc_step a s p s' next out →
  from_option (proc_from P) True next ∧ ∀ ptr m, out = Some (ptr, m) → Type_ m = MessageType_PONG.
Proof.
  intros Hp Hq Hs. destruct Hs as [msg uuid ptr s' _ E|msg e s' _ E|ptr pong choice s' E|ptr pong choice e s' E
    |msg found s' Hty E|ch msg s' E|msg _ _]; simpl; split; try done.
  - by intros ? ? [= <- <-].
  - injection E as E _. destruct found as [ch|]; [|done]. split; [done|]. by split; [apply Hq|].
Qed.

(** The handlers stay as the server's other parts change. *)
Definition handlers_from (input : nat → ProxyMessage → Prop) (hs : gmap nat handler) : Prop :=
  ∀ i h, hs !! i = Some h → handler_from (input i) h.

Lemma handlers_from_insert input hs i h :
  handlers_from input hs → handler_from (input i) h → handlers_from input (<[i := h]> hs).
Proof. intros Hhs Hh j h' [[<- <-]|[_ Hj]]%lookup_insert_Some; [done|by apply Hhs]. Qed.

Lemma hstep_from input (w w' : world) :
  handlers_from input (w_handlers w) →
  (∀ id ch, pendingRequests (w_srv w) !! id = Some ch → Q ch id) →
  hstep input w w' → handlers_from input (w_handlers w').
Proof.
  intros Hok Hq Hs. destruct Hs as [s hs sn q i Hi|s hs sn q i h h' Hi Hl
    |s s' hs sn q i h a first now ptr Hi Hm E|s s' hs sn q i h a first now e Hi Hm E
    |s s' hs sn q i h a ptr first now Hi Hm Hc E|s s' hs sn q i h a ptr p next out Hi Hm Hc E
    |s s' hs sn q i h a ptr r Hi Hm Hc E|s s' hs sn q i h a ptr msg now Hi Hr Hc E
    |s s' hs sn q i h a ptr p next out Hi Hr Hc E|s s' hs sn q i h a ptr msg Hi Hse Hc E
    |s s' hs sn q order now Ho E|s s' hs sn q order Ho E]; simpl in *; try done;
    (apply handlers_from_insert; [done|]); [apply handler_from_new|..];
    pose proof (Hok _ _ Hi) as Hh; pose proof Hh as [M R C]; rewrite ?Hm in M; rewrite ?Hr in R; simpl in *.
  - by eapply handler_from_local.
  - destruct M as [M Hn]. split; simpl; try done. by intros ? ? [= <- _].
  - by split.
  - by split.
  - destruct (proc_step_from _ _ _ _ _ _ _ M Hq E) as [Hn _]. by destruct next; split.
  - by split.
  - by split.
  - destruct (proc_step_from _ _ _ _ _ _ _ R Hq E) as [Hn _]. by destruct next; split.
  - by split.
Qed.
End Provenance.

Lemma handler_from_mono (Q Q' : nat → string → Prop) (P P' : ProxyMessage → Prop) h :
  handler_from Q P h → (∀ m, P m → P' m) → (∀ ch id, Q ch id → Q' ch id) → handler_from Q' P' h.
Proof.
  intros [M R C] HP HQ.
  assert (∀ p, proc_from Q P p → proc_from Q' P' p) as Hp by (intros []; simpl; naive_solver).
  assert (∀ a, names P a → names P' a) as Hn by (unfold names; naive_solver).
  split; [destruct (h_main h)|destruct (h_recv h)|]; simpl in *; naive_solver.
Qed.

(** Connections keep their agents. *)
Definition same_agents (cm cm' : CM) : Prop :=
  ∀ ptr c, conns cm !! ptr = Some c → ∃ c', conns cm' !! ptr = Some c' ∧ ID c' = ID c.

Lemma frame_agents cm cm' : frame cm cm' → same_agents cm cm'.
Proof. intros Hf ptr c Hc. destruct (Hf _ _ Hc) as (c' & ? & ? & _). by exists c'. Qed.

Lemma same_agents_eq cm cm' : cm' = cm → same_agents cm cm'.
Proof. intros -> ptr c Hc. by exists c. Qed.

Lemma same_agents_insert cm ptr c c' : conns cm !! ptr = Some c → ID c' = ID c →
  same_agents cm (set_conns (<[ptr := c']> (conns cm)) cm).
Proof.
  intros Hc E p d Hd. simpl. destruct (decide (ptr = p)) as [<-|Hne].
  - rewrite lookup_insert_eq. exists c'. simplify_eq. done.
  - exists d. by rewrite lookup_insert_ne.
Qed.

Lemma select_agents choice a ptr msg (s s' : Server S) r :
  cm_ok (connManager s) → in_cm (SendToAgent_select choice a ptr msg) s = Ret r s' →
  same_agents (connManager s) (connManager s').
Proof.
  intros Hok E%in_cm_inv. destruct (SendToAgent_select_Ret _ _ _ _ _ _ _ Hok E) as [_ Hr].
  destruct r; [|by apply same_agents_eq]. destruct Hr as (c & Hc & ->).
  by apply (same_agents_insert _ _ _ _ Hc).
Qed.

(** A send that panics changes nothing. *)
Lemma select_panic choice a ptr msg (s s' : Server S) e :
  in_cm (SendToAgent_select choice a ptr msg) s = Panic e s' → s' = s.
Proof.
  unfold in_cm, zoom, SendToAgent_select, on_conn. intros E.
  destruct (conns (connManager s) !! ptr) as [c|] eqn:Hc; [|by injection E as _ <-; destruct s].
  assert (set_connManager (set_conns (<[ptr:=c]> (conns (connManager s))) (connManager s)) s = s) as Eid.
  { rewrite insert_id by done. by destruct s as [[]]. }
  destruct choice; unfold mbind, M_bind, get, mret, M_ret, zoom, ch_send, block in E.
  - destruct (ch_closed (SendCh c)); [|by destruct (ch_full (SendCh c))]. injection E as _ <-.
    assert (set_SendCh (SendCh c) c = c) as -> by by destruct c. done.
  - done.
  - by destruct (ctx_done c).
Qed.

(** What a step of [processMessage] does to the request table. *)
Definition same_requests (s s' : Server S) : Prop :=
  respChs s' = respChs s ∧ next_ch s' = next_ch s ∧ pendingRequests s' = pendingRequests s.

Lemma proc_step_server a (s : Server S) p s' next out :
  cm_ok (connManager s) → proc_step a s p s' next out →
  same_agents (connManager s) (connManager s') ∧
  (same_requests s s' ∨ ∃ ch m, p = PDeliver ch m ∧ HandleResponse_deliver ch m s = Ret () s').
Proof.
  intros Hok Hs. destruct Hs as [msg uuid ptr s' _ E|msg e s' _ E|ptr pong choice s' E|ptr pong choice e s' E
    |msg found s' _ E|ch msg s' E|msg _ _].
  1,2: split; [apply same_agents_eq; by apply in_cm_inv, lookup_Ret in E|left; by eapply in_cm_Ret].
  1,2: split; [by eapply select_agents|left; by eapply in_cm_Ret].
  - injection E as _ <-. split; [by apply same_agents_eq|by left].
  - split; [|right; by exists ch, msg]. apply same_agents_eq.
    unfold HandleResponse_deliver, mbind, M_bind in E.
    destruct (on_chan ch (ch_try_send msg) s) as [b s1| |] eqn:Eo; try done.
    injection E as <-. by apply on_chan_Ret in Eo as (? & ? & _ & _ & ->).
  - split; [by apply same_agents_eq|by left].
Qed.

(** What a step of the handlers does to the rest of the world. *)
Record quiet_step (w w' : world) : Prop := {
  qs_sends : w_sends w' = w_sends w;
  qs_agents : same_agents (connManager (w_srv w)) (connManager (w_srv w'));
  qs_queue : ∃ out, w_queue w' = enqueue out (w_queue w) ∧
    ∀ ptr m, out = Some (ptr, m) → Type_ m = MessageType_PONG;
  qs_requests : same_requests (w_srv w) (w_srv w') ∨ ∃ i h ch m, w_handlers w !! i = Some h ∧
    (h_main h = MProcess (PDeliver ch m) ∨ h_recv h = RProcess (PDeliver ch m)) ∧
    HandleResponse_deliver ch m (w_srv w) = Ret () (w_srv w');
}.

Lemma quiet_step_cm (s s' : Server S) hs hs' sn q {A} (m : M CM A) r :
  in_cm m s = Ret r s' → same_agents (connManager s) (connManager s') →
  quiet_step (mkWorld s hs sn q) (mkWorld s' hs' sn q).
Proof.
  intros E Ha. split; simpl; [done|done|by exists None|left; by eapply in_cm_Ret].
Qed.

Lemma quiet_step_proc Q input a (s : Server S) p s' next out hs hs' sn q i h :
  cm_ok (connManager s) → (∀ id ch, pendingRequests s !! id = Some ch → Q ch id) →
  proc_from Q input p → proc_step a s p s' next out →
  hs !! i = Some h → h_main h = MProcess p ∨ h_recv h = RProcess p →
  quiet_step (mkWorld s hs sn q) (mkWorld s' hs' sn (enqueue out q)).
Proof.
  intros Hok Hq Hp E Hi Hh. destruct (proc_step_from _ _ _ _ _ _ _ _ Hp Hq E) as [_ Ho].
  destruct (proc_step_server _ _ _ _ _ _ Hok E) as [Ha Hr].
  split; simpl; [done|done|by exists out|].
  destruct Hr as [Hr|(ch & m & -> & Hr)]; [by left|right]. by exists i, h, ch, m.
Qed.

Lemma hstep_quiet Q input (w w' : world) :
  world_ok w → handlers_from Q input (w_handlers w) →
  (∀ id ch, pendingRequests (w_srv w) !! id = Some ch → Q ch id) → hstep input w w' → quiet_step w w'.
Proof.
  intros Hok Hh Hq Hs. pose proof (wo_cm _ Hok) as Hcm. destruct Hs as [s hs sn q i Hi|s hs sn q i h h' Hi Hl
    |s s' hs sn q i h a first now ptr Hi Hm E|s s' hs sn q i h a first now e Hi Hm E
    |s s' hs sn q i h a ptr first now Hi Hm Hc E|s s' hs sn q i h a ptr p next out Hi Hm Hc E
    |s s' hs sn q i h a ptr r Hi Hm Hc E|s s' hs sn q i h a ptr msg now Hi Hr Hc E
    |s s' hs sn q i h a ptr p next out Hi Hr Hc E|s s' hs sn q i h a ptr msg Hi Hse Hc E
    |s s' hs sn q order now Ho E|s s' hs sn q order Ho E]; simpl in *.
  1,2: split; simpl; [done|by apply same_agents_eq|by exists None|by left].
  4: { eapply quiet_step_proc; [done|done| |done|done|by left]. pose proof (hf_main _ _ _ (Hh _ _ Hi)) as M.
       by rewrite Hm in M. }
  6: { eapply quiet_step_proc; [done|done| |done|done|by right]. pose proof (hf_recv _ _ _ (Hh _ _ Hi)) as R.
       by rewrite Hr in R. }
  all: eapply quiet_step_cm; [exact E|]; apply in_cm_inv in E.
  - by destruct (Register_frame _ _ _ _ _ _ Hcm E) as (_ & ?%frame_agents & _).
  - by destruct (Register_frame _ _ _ _ _ _ Hcm E) as (_ & ?%frame_agents & _).
  - by destruct (UpdateLastSeen_frame _ _ _ _ Hcm E) as (_ & ?%frame_agents & _).
  - by destruct (Deregister_frame _ _ _ Hcm E) as (_ & ?%frame_agents & _).
  - by destruct (UpdateLastSeen_frame _ _ _ _ Hcm E) as (_ & ?%frame_agents & _).
  - unfold on_conn in E. destruct (conns (connManager s) !! ptr) as [c|] eqn:Hcc; [|done].
    unfold zoom in E. destruct (ch_try_recv (SendCh c)); [|done..]. injection E as _ <-.
    by apply (same_agents_insert _ _ _ _ Hcc).
  - by destruct (sweep_frame _ _ _ _ Hcm E) as (_ & ?%frame_agents & _).
  - by destruct (Stop_frame _ _ _ Hcm Ho E) as (_ & ?%frame_agents & _).
Qed.

(** What a stream has sent stays sent. *)
Lemma hstep_sent input (w w' : world) i h :
  hstep input w w' → w_handlers w !! i = Some h →
  ∃ h', w_handlers w' !! i = Some h' ∧ h_sent h `prefix_of` h_sent h'.
Proof.
  intros Hs Hi. assert (∀ j g g', w_handlers w !! j = Some g → h_sent g `prefix_of` h_sent g' →
    ∃ h', <[j := g']> (w_handlers w) !! i = Some h' ∧ h_sent h `prefix_of` h_sent h') as Hins.
  { intros j g g' Hj Hp. destruct (decide (j = i)) as [->|Hne].
    - exists g'. rewrite lookup_insert_eq. by simplify_eq.
    - exists h. by rewrite lookup_insert_ne. }
  destruct Hs as [s hs sn q j Hj|s hs sn q j g g' Hj Hl|s s' hs sn q j g a first now ptr Hj Hm E
    |s s' hs sn q j g a first now e Hj Hm E|s s' hs sn q j g a ptr first now Hj Hm Hc E
    |s s' hs sn q j g a ptr p next out Hj Hm Hc E|s s' hs sn q j g a ptr r Hj Hm Hc E
    |s s' hs sn q j g a ptr msg now Hj Hr Hc E|s s' hs sn q j g a ptr p next out Hj Hr Hc E
    |s s' hs sn q j g a ptr msg Hj Hse Hc E|s s' hs sn q order now Ho E|s s' hs sn q order Ho E];
    simpl in *; try (by exists h); try (by apply (Hins _ _ _ Hj)).
  - exists h. rewrite lookup_insert_ne; [done|]. congruence.
  - eapply Hins; [done|]. destruct Hl; simpl; try done. by eexists.
  - eapply Hins; [done|]. by destruct next.
Qed.

Lemma world_ok_init asm :
  from_option asm_inv True asm → from_option asm_view ∅ asm = ∅ → world_ok (w_init asm).
Proof.
  intros Hi Hv. split; simpl; [by apply cm_ok_new|..]; intros *; rewrite lookup_empty; [done..|].
  by intros [? ?].
Qed.

Section Reachable.
Context (asm : option S) (Hinv : from_option asm_inv True asm) (Hempty : from_option asm_view ∅ asm = ∅).

Lemma world_reachable_ok w : rtc wstep (w_init asm) w → world_ok w.
Proof.
  intros Hr. eapply rtc_invariant; [exact Hr|by apply world_ok_init|]. intros ???. by apply world_ok_step.
Qed.
End Reachable.

(** ** Properties *)

(** [processMessage] on each kind of message: a PING queues one PONG on the
    connection registered for the agent, and nothing else changes; a RESPONSE is
    handed to [HandleResponse]; any other message is ignored.  The only error is
    a PONG that cannot be sent. *)
Theorem processMessage_correct choice uuid a msg (s : Server S) :
  cm_ok (connManager s) →
  match Type_ msg with
  | MessageType_PING =>
      match processMessage choice uuid a msg s with
      | Ret (Ok _) s' => ∃ ptr c, agents (connManager s) !! a = Some ptr ∧
          conns (connManager s) !! ptr = Some c ∧
          connManager s' =
            set_conns (<[ptr := queued (pong_message uuid) c]> (conns (connManager s))) (connManager s) ∧
          pendingRequests s' = pendingRequests s ∧ respChs s' = respChs s
      | Ret (Err e) s' => s' = s ∧ ∃ e', e = Wrapf "failed to send PONG" e'
      | Panic _ _ => False
      | Block _ => True
      end
  | MessageType_RESPONSE =>
      processMessage choice uuid a msg s =
        match HandleResponse msg s with
        | Ret _ s' => Ret (Ok ()) s'
        | Panic m s' => Panic m s'
        | Block s' => Block s'
        end
  | _ => processMessage choice uuid a msg s = Ret (Ok ()) s
  end.
Proof.
  intros Hok. unfold processMessage. destruct (Type_ msg); try done.
  pose proof (SendToAgent_spec choice a (pong_message uuid) _ Hok) as Hs.
  unfold mbind, M_bind, in_cm, zoom.
  destruct (SendToAgent choice a (pong_message uuid) (connManager s)) as [[[]|e] cm'| |]; try done.
  - destruct Hs as (_ & ptr & c & ? & ? & _ & ->). simpl. by exists ptr, c.
  - destruct Hs as (_ & Hs). simpl. split; [|by eexists].
    destruct s. simpl in *. naive_solver.
Qed.

Context (asm : option S) (Hinv : from_option asm_inv True asm) (Hempty : from_option asm_view ∅ asm = ∅).

(** C10: the registrations never outlive their streams.  In every reachable state
    of the server, with any number of streams, reconnections, sweeps and
    requests, an agent in the connection map belongs to a stream whose
    [HandleStream] has not yet run its deferred [Deregister]; once all handlers
    have returned the map is empty. *)
Theorem registrations_have_live_streams w :
  rtc wstep (w_init asm) w →
  (∀ a ptr, agents (connManager (w_srv w)) !! a = Some ptr →
     ∃ i h c, w_handlers w !! i = Some h ∧ h_conn h = Some (a, ptr) ∧ live (h_main h) ∧
       conns (connManager (w_srv w)) !! ptr = Some c ∧ Stream c = i) ∧
  ((∀ i h, w_handlers w !! i = Some h → ¬ live (h_main h)) → agents (connManager (w_srv w)) = ∅).
Proof.
  intros Hr. pose proof (world_reachable_ok _ Hinv Hempty _ Hr) as Hok. split.
  - intros a ptr Ha. destruct (wo_reg _ Hok _ _ Ha) as (i & h & Hi & Hc & Hl).
    destruct (ho_fifo _ _ _ _ (wo_handler _ Hok _ _ Hi) _ _ Hc) as (c & ? & _ & ? & _).
    by exists i, h, c.
  - intros Hnone. apply map_eq. intros a. rewrite lookup_empty.
    destruct (agents _ !! a) as [ptr|] eqn:Ha; [|done].
    destruct (wo_reg _ Hok _ _ Ha) as (i & h & Hi & Hc & Hl). by destruct (Hnone _ _ Hi).
Qed.

(** C27: per-connection order.  What a stream has sent is a prefix, in order and
    without loss or duplication, of everything that was ever queued on its
    connection; and while its [sendLoop] runs, the rest is exactly the message in
    hand and the channel's buffer. *)
Theorem stream_sends_in_order w i h a ptr :
  rtc wstep (w_init asm) w → w_handlers w !! i = Some h → h_conn h = Some (a, ptr) →
  h_sent h `prefix_of` default [] (w_queue w !! ptr) ∧
  ∀ c, conns (connManager (w_srv w)) !! ptr = Some c →
    match h_send h with
    | SSelect => default [] (w_queue w !! ptr) = h_sent h ++ ch_buf (SendCh c)
    | SSend m => default [] (w_queue w !! ptr) = h_sent h ++ m :: ch_buf (SendCh c)
    | _ => True
    end.
Proof.
  intros Hr Hi Hc. pose proof (world_reachable_ok _ Hinv Hempty _ Hr) as Hok.
  destruct (ho_fifo _ _ _ _ (wo_handler _ Hok _ _ Hi) _ _ Hc) as (c & Hcc & _ & _ & Hf). split.
  - destruct (h_send h); simpl in Hf; try done; rewrite Hf; by eexists.
  - intros c' Hc'. rewrite Hcc in Hc'. injection Hc' as <-. by destruct (h_send h).
Qed.

(** No goroutine of a handler leaks on the error channel: whenever
    [receiveLoop] or [sendLoop] is about to report an error there is room for it,
    whether or not [HandleStream] is still there to read it. *)
Theorem errChan_never_blocks w i h e :
  rtc wstep (w_init asm) w → w_handlers w !! i = Some h →
  h_recv h = RErr e ∨ h_send h = SErr e →
  ∃ c, ch_send e (h_errChan h) = Ret () c.
Proof.
  intros Hr Hi He. pose proof (world_reachable_ok _ Hinv Hempty _ Hr) as Hok.
  destruct (wo_handler _ Hok _ _ Hi) as [_ _ _ _ [Hcap Hcl] Hk].
  unfold ch_send, ch_full. rewrite Hcl, bool_decide_eq_false_2; [by eexists|]. rewrite Hcap.
  destruct He as [He|He]; rewrite He in Hk; simpl in Hk; lia.
Qed.

(** The deferred [Deregister] names the agent and not the connection.  When
    an agent has reconnected (stream [j] is registered) before the handler of its
    old stream [i] returns, the old handler's return cancels and closes the NEW
    connection, unregisters the agent and stops its HTTP server, although
    stream [j] is healthy. *)
Theorem old_handler_drops_new_connection w i j h hj a ptr ptr' r c s' :
  rtc wstep (w_init asm) w →
  w_handlers w !! i = Some h → h_main h = MDefer r → h_conn h = Some (a, ptr) →
  w_handlers w !! j = Some hj → h_conn hj = Some (a, ptr') → h_main hj = MSelect → i ≠ j →
  agents (connManager (w_srv w)) !! a = Some ptr' →
  conns (connManager (w_srv w)) !! ptr' = Some c →
  in_cm (Deregister a) (w_srv w) = Ret () s' →
  open_conn c ∧ agents (connManager s') !! a = None ∧ served (connManager s') !! a = None ∧
  conns (connManager s') !! ptr' = Some (closed c).
Proof.
  intros Hr Hi Hm Hc Hj Hcj Hmj Hne Ha Hcc E.
  pose proof (world_reachable_ok _ Hinv Hempty _ Hr) as Hok. apply in_cm_inv in E.
  destruct (wp_Ret _ _ _ _ _ (Deregister_spec a _ (wo_cm _ Hok)) E) as (_ & Hman & Eag & Ec & _).
  destruct (co_agent _ (wo_cm _ Hok) _ _ Ha) as (c' & Hc' & _ & Hop).
  rewrite Hcc in Hc'. injection Hc' as <-. split_and!.
  - apply Hop.
  - rewrite Eag. apply lookup_delete_eq.
  - rewrite (managed_served _ _ _ (delete_empty _) Hman). apply lookup_delete_eq.
  - rewrite Ec. unfold close_old. by rewrite Ha, lookup_alter_eq, Hcc.
Qed.

(** [SendToAgent] uses the connection after it has given back the lock: when
    the agent is dropped between the lookup and the [select], and the runtime
    picks the send case, the send on the closed channel panics (gin recovers the
    panic of an HTTP goroutine and answers 500); the error path for a closed
    connection is also enabled. *)
Theorem send_to_dropped_agent_panics w t a ptr msg :
  rtc wstep (w_init asm) w → w_sends w !! t = Some (a, ptr, msg) →
  is_Some (conns (connManager (w_srv w)) !! ptr) →
  (∀ b, agents (connManager (w_srv w)) !! b ≠ Some ptr) →
  (∃ s', in_cm (SendToAgent_select CaseSend a ptr msg) (w_srv w)
         = Panic "send on closed channel" s') ∧
  (∃ e s', in_cm (SendToAgent_select CaseDone a ptr msg) (w_srv w) = Ret (Err e) s').
Proof.
  intros Hr Ht [c Hc] Hno. pose proof (world_reachable_ok _ Hinv Hempty _ Hr) as Hok.
  destruct (co_dead _ (wo_cm _ Hok) _ _ Hc (Hno _)) as [Hd Hcl].
  unfold in_cm, zoom, SendToAgent_select, on_conn. rewrite Hc.
  unfold mbind, M_bind, zoom, ch_send, get. rewrite Hcl, Hd. split; by repeat eexists.
Qed.

(** The same race in a receive loop ends the server: between the lookup and the
    [select] of the answer to a PING the agent's connection can be dropped, by the
    same agent connecting again; the send then panics in a goroutine that nothing
    recovers. *)
Theorem pong_crashes_server w i h a b ptr pong :
  rtc wstep (w_init asm) w → w_handlers w !! i = Some h → h_conn h = Some (a, ptr) →
  h_recv h = RProcess (PPong ptr pong) → agents (connManager (w_srv w)) !! a ≠ Some ptr →
  (∃ s', in_cm (SendToAgent_select CaseSend b ptr pong) (w_srv w) = Panic "send on closed channel" s') ∧
  ∀ s', in_cm (SendToAgent_select CaseSend b ptr pong) (w_srv w) ≠ Ret (Ok ()) s'.
Proof.
  intros Hr Hi Hc _ Hno. pose proof (world_reachable_ok _ Hinv Hempty _ Hr) as Hok.
  destruct (ho_fifo _ _ _ _ (wo_handler _ Hok _ _ Hi) _ _ Hc) as (c & Hcc & Hid & _).
  destruct (co_dead _ (wo_cm _ Hok) _ _ Hcc) as [Hd Hcl]; [by rewrite Hid|].
  unfold in_cm, zoom, SendToAgent_select, on_conn. rewrite Hcc.
  unfold mbind, M_bind, zoom, ch_send, get. rewrite Hcl. split; [by eexists|done].
Qed.
End Proofs.

(** ** Witnesses

    Agent "a" connects on stream 1 and its first PING is answered; it connects
    again on stream 2, which cancels the connection of stream 1. *)
Module Reconnect.
Definition hello : ProxyMessage := mkMsg "m1" MessageType_PING "" {["agent_id" := "a"]}.
Definition req : ProxyMessage := mkMsg "r1" MessageType_REQUEST "" ∅.
Definition fresh_asm : option (option string) := Some None.
Lemma fresh_inv : from_option asm_inv True fresh_asm.
Proof. exact I. Qed.
Lemma fresh_empty : from_option asm_view ∅ fresh_asm = ∅.
Proof. reflexivity. Qed.

Tactic Notation "step" uconstr(c) := eapply rtc_l; [eapply w_handler, c; runs|]; evaluate.
Tactic Notation "local" constr(i) uconstr(c) :=
  eapply rtc_l; [eapply w_handler, (w_local _ _ _ _ _ i); [reflexivity|eapply c; solve [runs|exact I]]|]; evaluate.
Tactic Notation "process" constr(i) uconstr(c) :=
  eapply rtc_l; [eapply w_handler, (w_main_process _ _ _ _ _ _ i); [runs..|eapply c; runs]|];
  evaluate.
Lemma arrived {A} (R : relation A) x y : x = y → rtc R x y.
Proof. by intros ->. Qed.
Ltac arrive := apply arrived; vm_compute; reflexivity.
Ltac connect i uuid :=
  step (w_accept _ _ _ _ _ i);
  local i (l_first _ _ _ hello);
  step (w_register _ _ _ _ _ _ i _ _ _ 0%Z);
  step (w_main_seen _ _ _ _ _ _ i _ _ _ _ 0%Z);
  process i (p_ping _ _ _ uuid);
  process i (p_pong _ _ _ _ CaseSend).

(** A connection with the given buffer, closed or not. *)
Definition conn (stream : nat) (buf : list ProxyMessage) (cl : bool) : AgentConnection :=
  mkConn "a" 8100 stream (mkChan buf 100 cl) 0 cl.
Definition pong (uuid : string) : ProxyMessage := pong_message uuid.
Definition server (registered : gmap string nat) (cs : gmap nat AgentConnection) (n : nat) :
    Server (option string) :=
  mkServer (mkCM registered cs n (make_chan 0) (Some (Some "a"))) ∅ ∅ 0.

(** Stream 1 runs, and an HTTP request has looked up its connection. *)
Definition w_one : @world (option string) :=
  mkWorld (server {["a" := 0]} {[0 := conn 1 [pong "p1"] false]} 1)
    {[1 := mkHandler (Some ("a", 0)) MSelect RCheck SSelect false (make_chan 2) []]}
    {[0 := ("a", 0, req)]} {[0 := [pong "p1"]]}.

Lemma one_reachable : rtc wstep (w_init fresh_asm) w_one.
Proof. connect 1 "p1". eapply rtc_l; [by eapply (w_http_lookup _ _ _ _ _ 0 "a" req)|]. arrive. Qed.

(** Stream 1 has answered the PING, and its receive loop has just failed. *)
Definition failing : handler :=
  mkHandler (Some ("a", 0)) MSelect (RErr io_EOF) SSelect false (make_chan 2) [pong "p1"].
Definition w_failing : @world (option string) :=
  mkWorld (server {["a" := 0]} {[0 := conn 1 [] false]} 1) {[1 := failing]} ∅ {[0 := [pong "p1"]]}.

Lemma failing_reachable : rtc wstep (w_init fresh_asm) w_failing.
Proof.
  connect 1 "p1".
  step (w_send_take _ _ _ _ _ _ 1). local 1 (l_send_ok).
  local 1 (l_recv_check). local 1 (l_recv_err _ _ _ io_EOF). arrive.
Qed.

(** Then stream 2 has registered and runs, and the handler of stream 1 has seen its context end. *)
Definition h1 : handler :=
  mkHandler (Some ("a", 0)) (MDefer (Some context_Canceled)) RCheck SSelect true (make_chan 2) [].
Definition h2 : handler :=
  mkHandler (Some ("a", 1)) MSelect RCheck SSelect false (make_chan 2) [].
Definition w_both : @world (option string) :=
  mkWorld (server {["a" := 1]} {[0 := conn 1 [pong "p1"] true; 1 := conn 2 [pong "p2"] false]} 2)
    {[1 := h1; 2 := h2]} {[0 := ("a", 0, req)]} {[0 := [pong "p1"]; 1 := [pong "p2"]]}.

Lemma both_reachable : rtc wstep (w_init fresh_asm) w_both.
Proof.
  etrans; [apply one_reachable|]. connect 2 "p2". local 1 (l_main_ctx). arrive.
Qed.

(** Stream 1 has looked up its connection to answer a PING when the agent connects
    on stream 2. *)
Definition ping : ProxyMessage := mkMsg "m2" MessageType_PING "" ∅.
Definition racing : handler :=
  mkHandler (Some ("a", 0)) MSelect (RProcess (PPong 0 (pong "p3"))) SSelect false (make_chan 2) [].
Definition w_race : @world (option string) :=
  mkWorld (server {["a" := 1]} {[0 := conn 1 [pong "p1"] true; 1 := conn 2 [] false]} 2)
    {[1 := racing; 2 := mkHandler (Some ("a", 1)) (MSeen hello) RIdle SIdle false (make_chan 2) []]}
    ∅ {[0 := [pong "p1"]]}.

Lemma race_reachable : rtc wstep (w_init fresh_asm) w_race.
Proof.
  connect 1 "p1". local 1 (l_recv_check). local 1 (l_recv_msg _ _ _ ping).
  step (w_recv_seen _ _ _ _ _ _ 1 _ _ _ _ 0%Z).
  eapply rtc_l; [eapply w_handler, (w_recv_process _ _ _ _ _ _ 1); [runs..|eapply (p_ping _ _ _ "p3"); runs]|].
  evaluate.
  step (w_accept _ _ _ _ _ 2). local 2 (l_first _ _ _ hello).
  step (w_register _ _ _ _ _ _ 2 _ _ _ 0%Z). arrive.
Qed.
End Reconnect.

Lemma processMessage_correct_witness :
  processMessage CaseSend "p" "a" (mkMsg "x" MessageType_REQUEST "" ∅) (mkServer OnePort.cm1 ∅ ∅ 0)
  = Ret (Ok ()) (mkServer OnePort.cm1 ∅ ∅ 0).
Proof.
  apply (processMessage_correct CaseSend "p" "a" (mkMsg "x" MessageType_REQUEST "" ∅)
    (mkServer OnePort.cm1 ∅ ∅ 0) OnePort.cm1_ok).
Defined.

Lemma registrations_have_live_streams_witness :
  ∃ i h c, w_handlers Reconnect.w_both !! i = Some h ∧ h_conn h = Some ("a", 1) ∧ live (h_main h) ∧
    conns (connManager (w_srv Reconnect.w_both)) !! 1 = Some c ∧ Stream c = i.
Proof.
  apply (registrations_have_live_streams Reconnect.fresh_asm Reconnect.fresh_inv
    Reconnect.fresh_empty Reconnect.w_both).
  - exact Reconnect.both_reachable.
  - reflexivity.
Defined.

Lemma stream_sends_in_order_witness :
  h_sent Reconnect.failing `prefix_of` default [] (w_queue Reconnect.w_failing !! 0).
Proof.
  apply (stream_sends_in_order Reconnect.fresh_asm Reconnect.fresh_inv
    Reconnect.fresh_empty Reconnect.w_failing 1 Reconnect.failing "a" 0).
  - exact Reconnect.failing_reachable.
  - reflexivity.
  - reflexivity.
Defined.

Lemma errChan_never_blocks_witness :
  ∃ c, ch_send io_EOF (h_errChan Reconnect.failing) = Ret () c.
Proof.
  apply (errChan_never_blocks Reconnect.fresh_asm Reconnect.fresh_inv
    Reconnect.fresh_empty Reconnect.w_failing 1 Reconnect.failing io_EOF).
  - exact Reconnect.failing_reachable.
  - reflexivity.
  - left. reflexivity.
Defined.

Lemma old_handler_drops_new_connection_witness :
  ∃ s', in_cm (Deregister "a") (w_srv Reconnect.w_both) = Ret () s' ∧
    conns (connManager s') !! 1 = Some (closed (Reconnect.conn 2 [Reconnect.pong "p2"] false)).
Proof.
  eexists. split; [reflexivity|].
  eapply (old_handler_drops_new_connection Reconnect.fresh_asm Reconnect.fresh_inv
    Reconnect.fresh_empty Reconnect.w_both 1 2
    Reconnect.h1 Reconnect.h2 "a" 0 1 (Some context_Canceled)).
  - exact Reconnect.both_reachable.
  - reflexivity.
  - reflexivity.
  - reflexivity.
  - reflexivity.
  - reflexivity.
  - reflexivity.
  - discriminate.
  - reflexivity.
  - reflexivity.
  - reflexivity.
Defined.

Lemma send_to_dropped_agent_panics_witness :
  ∃ s', in_cm (SendToAgent_select CaseSend "a" 0 Reconnect.req) (w_srv Reconnect.w_both)
        = Panic "send on closed channel" s'.
Proof.
  apply (send_to_dropped_agent_panics Reconnect.fresh_asm Reconnect.fresh_inv
    Reconnect.fresh_empty Reconnect.w_both 0 "a" 0 Reconnect.req).
  - exact Reconnect.both_reachable.
  - reflexivity.
  - eexists. reflexivity.
  - intros b Hb. cbn in Hb. apply lookup_singleton_Some in Hb as [_ Hb]. discriminate.
Defined.

Lemma pong_crashes_server_witness :
  ∃ s', in_cm (SendToAgent_select CaseSend "a" 0 (Reconnect.pong "p3")) (w_srv Reconnect.w_race)
        = Panic "send on closed channel" s'.
Proof.
  apply (pong_crashes_server Reconnect.fresh_asm Reconnect.fresh_inv
    Reconnect.fresh_empty Reconnect.w_race 1 Reconnect.racing "a" "a" 0 (Reconnect.pong "p3")).
  - exact Reconnect.race_reachable.
  - reflexivity.
  - reflexivity.
  - reflexivity.
  - discriminate.
Defined.
