(* ===== verification/Http.v ===== *)
(** * net/http headers

    The part of [net/http] the proxy's two ends share: header maps with
    canonical keys.  A header is a map from names to lists of values, as in Go;
    [Set] canonicalizes the name, reading [r.Header] as a plain map does not. *)
From stdpp Require Import base strings list gmap fin_maps.
From Stdlib Require Import ZArith Lia Ascii.
From S2P Require Import Prelude GoStd.

Abbreviation Header := (gmap string (list string)).

(** ** [textproto.CanonicalMIMEHeaderKey] *)

Definition in_range (lo hi : nat) (c : ascii) : bool :=
  bool_decide (lo ≤ nat_of_ascii c) && bool_decide (nat_of_ascii c ≤ hi).
Definition is_lower (c : ascii) : bool := in_range 97 122 c.
Definition is_upper (c : ascii) : bool := in_range 65 90 c.
Definition is_digit (c : ascii) : bool := in_range 48 57 c.

(** RFC 7230 token characters. *)
Definition validHeaderFieldByte (c : ascii) : bool :=
  is_lower c || is_upper c || is_digit c ||
  bool_decide (c ∈ ["!"; "#"; "$"; "%"; "&"; "'"; "*"; "+"; "-"; "."; "^"; "_"; "`"; "|"; "~"]%char).

Definition to_upper (c : ascii) : ascii :=
  if is_lower c then ascii_of_nat (nat_of_ascii c - 32) else c.
Definition to_lower (c : ascii) : ascii :=
  if is_upper c then ascii_of_nat (nat_of_ascii c + 32) else c.

Fixpoint string_forallb (f : ascii → bool) (s : string) : bool :=
  match s with
  | EmptyString => true
  | String c s' => f c && string_forallb f s'
  end.

Fixpoint canonical_bytes (upper : bool) (s : string) : string :=
  match s with
  | EmptyString => EmptyString
  | String c s' =>
      String (if upper then to_upper c else to_lower c)
             (canonical_bytes (bool_decide (c = "-"%char)) s')
  end.

Definition CanonicalMIMEHeaderKey (s : string) : string :=
  if string_forallb validHeaderFieldByte s then canonical_bytes true s else s.

(** ** Header maps *)

(** [h.Set(k, v)] *)
Definition Header_Set (k v : string) (h : Header) : Header :=
  <[CanonicalMIMEHeaderKey k := [v]]> h.

(** [h.Get(k)] *)
Definition Header_Get (k : string) (h : Header) : string :=
  default "" (h !! CanonicalMIMEHeaderKey k ≫= head).

(** [for k, vs := range h { if len(vs) > 0 { m[k] = vs[0] } }] into a fresh map *)
Definition first_values (h : Header) : gmap string string := omap head h.

(** What [net/http] guarantees of the headers it parses. *)
Definition canonical_header (h : Header) : Prop :=
  ∀ k, is_Some (h !! k) → CanonicalMIMEHeaderKey k = k.

Lemma first_values_lookup h k : first_values h !! k = h !! k ≫= head.
Proof. apply lookup_omap. Qed.

(** ** A range over a map that sets headers

    [for key, value := range m { ... h.Set(name(key), value) ... }], visiting the
    keys in the given order; [name] is [None] where the body skips the key. *)
Definition set_all (name : string → string → option string) (m : gmap string string)
    (order : list string) (h : Header) : Header :=
  foldl (λ h key,
    match m !! key with
    | Some v => match name key v with Some n => Header_Set n v h | None => h end
    | None => h
    end) h order.

(** When the body sends different keys to different headers, the order does not
    matter and each header gets the value of its key. *)
Section SetAll.
Context (name : string → string → option string) (m : gmap string string).

Definition target (n key v : string) : Prop :=
  m !! key = Some v ∧ ∃ n', name key v = Some n' ∧ CanonicalMIMEHeaderKey n' = n.

Lemma set_all_other order h n :
  (∀ key v, key ∈ order → ¬ target n key v) → set_all name m order h !! n = h !! n.
Proof.
  revert h. induction order as [|key order IH]; intros h Hno; [done|]. simpl.
  rewrite IH by (intros k v Hk; apply Hno; by right).
  destruct (m !! key) as [v|] eqn:Hk; [|done]. destruct (name key v) as [n'|] eqn:Hn; [|done].
  unfold Header_Set. rewrite lookup_insert_ne; [done|]. intros E.
  apply (Hno key v); [by left|]. split; [done|]. by exists n'.
Qed.

Lemma set_all_hit order h n key v :
  key ∈ order → target n key v → (∀ key' v', target n key' v' → key' = key) →
  set_all name m order h !! n = Some [v].
Proof.
  revert h. induction order as [|k order IH]; intros h Hin Ht Huniq; [by apply not_elem_of_nil in Hin|].
  simpl. destruct (decide (key ∈ order)) as [Hk|Hk]; [by apply IH|].
  apply elem_of_cons in Hin as [->|Hin]; [|done].
  rewrite set_all_other.
  - destruct Ht as (Hm & n' & Hn & <-). rewrite Hm, Hn. unfold Header_Set. apply lookup_insert_eq.
  - intros key' v' Hin' Ht'%Huniq. by subst.
Qed.
End SetAll.

(** A permutation of the keys visits every key. *)
Lemma order_visits {A} (m : gmap string A) order key v :
  order ≡ₚ keys m → m !! key = Some v → key ∈ order.
Proof. intros -> Hk. apply elem_of_keys. by exists v. Qed.
