(* ===== verification/RequestHandler.v ===== *)
(** * RequestHandler: the agent calls the local service

    Models [src/internal/grpc/client/request_handler.go], with what is sent to the
    local service: each call of [httpClient.Do] is recorded.  The HTTP client (with
    the redirects it follows) and URL parsing are an environment: any functions. *)
From stdpp Require Import base strings list gmap fin_maps.
From Stdlib Require Import ZArith Lia Ascii.
From S2P Require Import Prelude GoStd Proto Http.

(** ** The code *)

(** An [*http.Request] the agent sends. *)
Record Outgoing : Type := mkOutgoing {
  o_Method : string;
  o_URL : string;
  o_Header : Header;
  o_Body : bytes;
}.

(** An [*http.Response], with the result of reading its body. *)
Record Response : Type := mkResponse {
  StatusCode : Z;
  resp_Header : Header;
  resp_Body : result bytes;
}.

Record HttpEnv : Type := mkHttpEnv {
  newRequestErr : string → string → option error;  (** [http.NewRequest(method, url, _)] fails *)
  clientDo : Outgoing → result Response;           (** [httpClient.Do] *)
}.

Record RequestHandler : Type := mkRH { localURL : string; http_env : HttpEnv }.

Definition NewRequestHandler (localURL : string) (e : HttpEnv) : RequestHandler := mkRH localURL e.

(** [url := rh.localURL + path; if query != "" { url += "?" + query }] *)
Definition target_url (rh : RequestHandler) (msg : ProxyMessage) : string :=
  let path := map_get (Metadata msg) "path" in
  let query := map_get (Metadata msg) "query" in
  let url := localURL rh +:+ path in
  if decide (query = "") then url else url +:+ "?" +:+ query.

(** The body of the loop over the metadata: which header a key sets. *)
Definition request_header_name (key value : string) : option string :=
  if HasPrefix key "header_" then Some (TrimPrefix key "header_") else None.

Definition request_headers (msg : ProxyMessage) (order : list string) : Header :=
  let h := set_all request_header_name (Metadata msg) order ∅ in
  match Metadata msg !! "content_type" with
  | Some contentType =>
      if decide (contentType = "") then h else Header_Set "Content-Type" contentType h
  | None => h
  end.

Definition outgoing (rh : RequestHandler) (msg : ProxyMessage) (order : list string) : Outgoing :=
  mkOutgoing (map_get (Metadata msg) "method") (target_url rh msg)
             (request_headers msg order) (Payload msg).

(** [for key, v := range h { metadata["header_"+key] = v }]: the map it adds *)
Definition header_keys (h : gmap string string) : gmap string string :=
  kmap (String.append "header_") h.

(** [responseMsg]: the status line, then the first value of every header, whose
    keys are written over the initial map. *)
Definition response_message (id : string) (resp : Response) (body : bytes) : ProxyMessage :=
  mkMsg id MessageType_RESPONSE body
    (header_keys (first_values (resp_Header resp)) ∪
     {["status_code" := Itoa (StatusCode resp)]}).

(** [rh.httpClient.Do(req)]: the request that is sent, and what comes of it. *)
Definition httpClient_Do (rh : RequestHandler) (req : Outgoing) : list Outgoing * result Response :=
  ([req], clientDo (http_env rh) req).

(** [HandleRequest], with the requests it sends to the local service.  [order]: the
    order in which the metadata map is visited. *)
Definition HandleRequest_do (rh : RequestHandler) (order : list string) (msg : ProxyMessage) :
    list Outgoing * result ProxyMessage :=
  match newRequestErr (http_env rh) (map_get (Metadata msg) "method") (target_url rh msg) with
  | Some e => ([], Err (Wrapf "failed to create request" e))
  | None =>
      let '(sent, r) := httpClient_Do rh (outgoing rh msg order) in
      (sent,
       match r with
       | Err e => Err (Wrapf "failed to execute request" e)
       | Ok resp =>
           match resp_Body resp with
           | Err e => Err (Wrapf "failed to read response body" e)
           | Ok body => Ok (response_message (Id msg) resp body)
           end
       end)
  end.

(** What it returns. *)
Definition HandleRequest (rh : RequestHandler) (order : list string) (msg : ProxyMessage) :
    result ProxyMessage := (HandleRequest_do rh order msg).2.

(** ** Facts *)

(** It sends the one request it has made, or none, when it could make none. *)
Lemma HandleRequest_sends rh order msg :
  (HandleRequest_do rh order msg).1 = [] ∨
  (HandleRequest_do rh order msg).1 = [outgoing rh msg order].
Proof. unfold HandleRequest_do. destruct (newRequestErr _ _ _); [by left|by right]. Qed.

(** Metadata keys and header keys never meet. *)
Lemma header_key_not s k : HasPrefix s "header_" = false → ("header_" +:+ k)%string ≠ s.
Proof. intros Hp <-. by rewrite HasPrefix_app in Hp. Qed.

Section Lookups.
Context (h : gmap string string).

Lemma kmap_header_None s : HasPrefix s "header_" = false → header_keys h !! s = None.
Proof.
  intros Hp. apply lookup_kmap_None; [apply _|]. intros k ->. by rewrite HasPrefix_app in Hp.
Qed.

Lemma kmap_header_Some k : header_keys h !! ("header_" +:+ k)%string = h !! k.
Proof. apply lookup_kmap, _. Qed.

(** Under a map of headers lies a map of plain keys. *)
Lemma meta_plain s base :
  HasPrefix s "header_" = false → (header_keys h ∪ base) !! s = base !! s.
Proof. intros Hp. by rewrite lookup_union_r by by apply kmap_header_None. Qed.

Lemma meta_header k (base : gmap string string) :
  (∀ s, is_Some (base !! s) → HasPrefix s "header_" = false) →
  (header_keys h ∪ base) !! ("header_" +:+ k)%string = h !! k.
Proof.
  intros Hb. rewrite lookup_union_l; [apply kmap_header_Some|].
  apply eq_None_not_Some. intros Hs%Hb. by rewrite HasPrefix_app in Hs.
Qed.
End Lookups.

(** The headers a message sets, when each of its header keys is canonical. *)
Lemma request_headers_lookup (msg : ProxyMessage) order (h : gmap string string) n :
  order ≡ₚ keys (Metadata msg) →
  (∀ k, Metadata msg !! ("header_" +:+ k)%string = h !! k) →
  (∀ k, is_Some (h !! k) → CanonicalMIMEHeaderKey k = k) →
  set_all request_header_name (Metadata msg) order ∅ !! n = (λ v, [v]) <$> h !! n.
Proof.
  intros Ho Hh Hcan.
  assert (∀ key v, target request_header_name (Metadata msg) n key v →
    key = ("header_" +:+ n)%string ∧ h !! n = Some v) as Htgt.
  { intros key v (Hm & n' & Hn & Hc). unfold request_header_name in Hn.
    destruct (HasPrefix key "header_") eqn:Hp; [|done]. injection Hn as Hn.
    apply HasPrefix_inv in Hp. rewrite Hn in Hp. subst key. rewrite Hh in Hm.
    assert (n' = n) as <-; [|done]. rewrite <- Hc. symmetry. apply Hcan. by exists v. }
  destruct (h !! n) as [v|] eqn:E; simpl.
  - assert (Metadata msg !! ("header_" +:+ n)%string = Some v) as Hm by by rewrite Hh.
    eapply set_all_hit.
    + by eapply order_visits.
    + split; [exact Hm|]. exists n. unfold request_header_name. rewrite HasPrefix_app, TrimPrefix_app.
      split; [done|]. apply Hcan. by exists v.
    + intros key' v' Ht. by destruct (Htgt _ _ Ht).
  - rewrite set_all_other; [done|]. intros key v _ Ht. destruct (Htgt _ _ Ht). congruence.
Qed.
