(* ===== verification/GrpcClient.v ===== *)
(** * The agent's gRPC client

    Models [src/internal/grpc/client/client.go]: the reconnection loop, the three
    goroutines [handleStream] forks for each connection, and the goroutine each
    request runs in.  [connectionLoop] and the goroutines of the current and of
    earlier connections interleave in [cstep]; what the network does is chosen by
    the environment. *)
From stdpp Require Import base strings list gmap fin_maps relations.
From Stdlib Require Import ZArith Lia.
From S2P Require Import Prelude GoStd Proto Http RequestHandler ConnectionManager.

(** ** The code *)

Definition client_sendChannelBuffer : nat := 100.
Definition pingInterval : Z := 30 * second.
Definition initialDelay : Z := 1 * second.
Definition maxDelay : Z := 30 * second.
Definition backoffFactor : Z := 2.

Record Client : Type := mkClient {
  c_agentID : string;
  c_tls : bool;                                (** [tlsConfig != nil && tlsConfig.Enabled] *)
  c_conn : option nat;
  c_stream : option nat;                       (** the stream of a connection, by its identity *)
  c_sendCh : chan ProxyMessage;
  c_stopCh : chan unit;
  c_doneCh : chan unit;
  c_ctx_done : bool;
  reconnectDelay : Z;
  maxReconnectDelay : Z;
  c_open : gset nat;                           (** the [grpc.ClientConn]s not yet closed *)
  c_next : nat;
  c_wire : list (nat * ProxyMessage);          (** what was sent, and on which stream *)
  c_calls : list (ProxyMessage * Outgoing);    (** what the local service was sent, and for which request *)
}.

Definition NewClient (agentID : string) (tls : bool) : Client :=
  mkClient agentID tls None None (make_chan client_sendChannelBuffer) (make_chan 0) (make_chan 0)
           false initialDelay maxDelay ∅ 0 [] [].

Definition set_c_stream (conn stream : option nat) (c : Client) : Client :=
  mkClient (c_agentID c) (c_tls c) conn stream (c_sendCh c) (c_stopCh c) (c_doneCh c) (c_ctx_done c)
           (reconnectDelay c) (maxReconnectDelay c) (c_open c) (c_next c) (c_wire c) (c_calls c).
Definition set_c_sendCh (ch : chan ProxyMessage) (c : Client) : Client :=
  mkClient (c_agentID c) (c_tls c) (c_conn c) (c_stream c) ch (c_stopCh c) (c_doneCh c) (c_ctx_done c)
           (reconnectDelay c) (maxReconnectDelay c) (c_open c) (c_next c) (c_wire c) (c_calls c).
Definition set_c_stopCh (ch : chan unit) (c : Client) : Client :=
  mkClient (c_agentID c) (c_tls c) (c_conn c) (c_stream c) (c_sendCh c) ch (c_doneCh c) (c_ctx_done c)
           (reconnectDelay c) (maxReconnectDelay c) (c_open c) (c_next c) (c_wire c) (c_calls c).
Definition set_c_doneCh (ch : chan unit) (c : Client) : Client :=
  mkClient (c_agentID c) (c_tls c) (c_conn c) (c_stream c) (c_sendCh c) (c_stopCh c) ch (c_ctx_done c)
           (reconnectDelay c) (maxReconnectDelay c) (c_open c) (c_next c) (c_wire c) (c_calls c).
Definition set_c_ctx_done (c : Client) : Client :=
  mkClient (c_agentID c) (c_tls c) (c_conn c) (c_stream c) (c_sendCh c) (c_stopCh c) (c_doneCh c) true
           (reconnectDelay c) (maxReconnectDelay c) (c_open c) (c_next c) (c_wire c) (c_calls c).
Definition set_reconnectDelay (d : Z) (c : Client) : Client :=
  mkClient (c_agentID c) (c_tls c) (c_conn c) (c_stream c) (c_sendCh c) (c_stopCh c) (c_doneCh c)
           (c_ctx_done c) d (maxReconnectDelay c) (c_open c) (c_next c) (c_wire c) (c_calls c).
Definition set_c_open (o : gset nat) (n : nat) (c : Client) : Client :=
  mkClient (c_agentID c) (c_tls c) (c_conn c) (c_stream c) (c_sendCh c) (c_stopCh c) (c_doneCh c)
           (c_ctx_done c) (reconnectDelay c) (maxReconnectDelay c) o n (c_wire c) (c_calls c).
Definition log_wire (s : nat) (m : ProxyMessage) (c : Client) : Client :=
  mkClient (c_agentID c) (c_tls c) (c_conn c) (c_stream c) (c_sendCh c) (c_stopCh c) (c_doneCh c)
           (c_ctx_done c) (reconnectDelay c) (maxReconnectDelay c) (c_open c) (c_next c)
           (c_wire c ++ [(s, m)]) (c_calls c).
Definition log_calls (msg : ProxyMessage) (sent : list Outgoing) (c : Client) : Client :=
  mkClient (c_agentID c) (c_tls c) (c_conn c) (c_stream c) (c_sendCh c) (c_stopCh c) (c_doneCh c)
           (c_ctx_done c) (reconnectDelay c) (maxReconnectDelay c) (c_open c) (c_next c) (c_wire c)
           (c_calls c ++ (pair msg <$> sent)).

(** [Stop] up to its wait for [doneCh]: [close(c.stopCh); c.cancel()] *)
Definition Client_Stop : M Client unit :=
  _ ← zoom c_stopCh set_c_stopCh ch_close;
  modify set_c_ctx_done.

Definition err_send_full : error := Errorf "send channel full".

Definition Client_Send (msg : ProxyMessage) : M Client (option error) :=
  sent ← zoom c_sendCh set_c_sendCh (ch_try_send msg);
  mret (if sent : bool then None else Some err_send_full).

(** What the environment makes of one [connect]. *)
Record connect_env : Type := mkConnectEnv {
  ce_creds : option error;      (** [LoadClientCredentials] *)
  ce_dial : option error;       (** [grpc.NewClient] *)
  ce_stream : option error;     (** [client.Stream] *)
  ce_send : option error;       (** [stream.Send(firstMsg)] *)
}.

Definition client_first_message (uuid agentID : string) : ProxyMessage :=
  mkMsg uuid MessageType_PING "" {["agent_id" := agentID]}.

Definition dial : M Client nat :=
  c ← get;
  _ ← put (set_c_open ({[c_next c]} ∪ c_open c) (S (c_next c)) c);
  mret (c_next c).

(** [conn.Close()] *)
Definition close_client_conn (conn : nat) : M Client unit :=
  modify (λ c, set_c_open (c_open c ∖ {[conn]}) (c_next c) c).

Definition connect (env : connect_env) (uuid : string) : M Client (option error) :=
  c ← get;
  match (if c_tls c then ce_creds env else None) with
  | Some e => mret (Some (Wrapf "failed to load TLS credentials" e))
  | None =>
      match ce_dial env with
      | Some e => mret (Some (Wrapf "failed to dial server" e))
      | None =>
          conn ← dial;
          match ce_stream env with
          | Some e => _ ← close_client_conn conn; mret (Some (Wrapf "failed to create stream" e))
          | None =>
              match ce_send env with
              | Some e =>
                  _ ← close_client_conn conn; mret (Some (Wrapf "failed to send first message" e))
              | None =>
                  _ ← modify (log_wire conn (client_first_message uuid (c_agentID c)));
                  _ ← modify (set_c_stream (Some conn) (Some conn));
                  mret None
              end
          end
      end
  end.

Definition disconnect : M Client unit :=
  c ← get;
  _ ← match c_conn c with Some conn => close_client_conn conn | None => mret () end;
  modify (set_c_stream None None).

Definition increaseReconnectDelay : M Client unit :=
  _ ← modify (λ c, set_reconnectDelay (int64 (reconnectDelay c * backoffFactor)) c);
  modify (λ c, if (reconnectDelay c >? maxReconnectDelay c)%Z
               then set_reconnectDelay (maxReconnectDelay c) c else c).

(** [handleRequest]: the response that is sent back. *)
Definition error_response (id : string) (e : error) : ProxyMessage :=
  mkMsg id MessageType_RESPONSE (Error e) {["status_code" := "502"; "error" := Error e]}.

Definition answer (handle : ProxyMessage → result ProxyMessage) (msg : ProxyMessage) : ProxyMessage :=
  match handle msg with
  | Ok response => response
  | Err e => error_response (Id msg) e
  end.

(** [handle] is [HandleRequest]: what it sends to the local service, and what it
    returns. *)
Definition handleRequest (handle : ProxyMessage → list Outgoing * result ProxyMessage)
    (msg : ProxyMessage) : M Client unit :=
  _ ← modify (log_calls msg (handle msg).1);
  _ ← Client_Send (answer (λ m, (handle m).2) msg); mret ().

(** ** The goroutines *)

Inductive cphase : Type :=
  | CTop                          (** the [select] at the top of [connectionLoop] *)
  | CRetry                        (** waiting after a failed [connect] *)
  | CStream (g : nat)             (** in [handleStream], waiting for [errChan] *)
  | CAfter                        (** before [disconnect] *)
  | CSleep                        (** in [time.Sleep] *)
  | CEnd.                         (** returned, [doneCh] closed *)

#[export] Instance cphase_eq_dec : EqDecision cphase.
Proof. solve_decision. Defined.

Inductive crecv : Type := GRCheck | GRRecv | GRErr (e : error) | GREnd.
Inductive csend : Type :=
  | GSSelect
  | GSTake (msg : ProxyMessage)                    (** before reading [c.stream] *)
  | GSSend (s : nat) (msg : ProxyMessage)          (** in [stream.Send(msg)] *)
  | GSErr (e : error)
  | GSEnd.
Inductive cping : Type := GPWait | GPErr (e : error) | GPEnd.

(** The goroutines of one [handleStream]. *)
Record gen : Type := mkGen {
  g_done : bool;
  g_errChan : chan error;
  g_recv : crecv;
  g_send : csend;
  g_ping : cping;
}.

Definition new_gen : gen := mkGen false (make_chan 3) GRCheck GSSelect GPWait.
Definition set_g_done (g : gen) : gen := mkGen true (g_errChan g) (g_recv g) (g_send g) (g_ping g).
Definition set_g_err (c : chan error) (g : gen) : gen := mkGen (g_done g) c (g_recv g) (g_send g) (g_ping g).
Definition set_g_recv (r : crecv) (g : gen) : gen := mkGen (g_done g) (g_errChan g) r (g_send g) (g_ping g).
Definition set_g_send (s : csend) (g : gen) : gen := mkGen (g_done g) (g_errChan g) (g_recv g) s (g_ping g).
Definition set_g_ping (p : cping) (g : gen) : gen := mkGen (g_done g) (g_errChan g) (g_recv g) (g_send g) p.

Record client_world : Type := mkCW {
  cw_client : Client;
  cw_phase : cphase;
  cw_gens : gmap nat gen;
  cw_reqs : gmap nat ProxyMessage;     (** running [handleRequest] goroutines *)
  cw_waits : nat;                      (** waits since the last successful [connect] *)
}.

Definition cw_init (agentID : string) (tls : bool) : client_world :=
  mkCW (NewClient agentID tls) CTop ∅ ∅ 0.

Definition err_nil_stream : error := Errorf "stream is nil".
Definition ping_message (uuid : string) : ProxyMessage := mkMsg uuid MessageType_PING "" ∅.

(** [connectionLoop]. *)
Inductive loop_step : client_world → client_world → Prop :=
  | c_stop_at_top c c1 c2 gs rq n :
      ch_closed (c_stopCh c) = true → disconnect c = Ret () c1 →
      zoom c_doneCh set_c_doneCh ch_close c1 = Ret () c2 →
      loop_step (mkCW c CTop gs rq n) (mkCW c2 CEnd gs rq n)
  | c_connect_failed c c' gs rq n env uuid e :
      ch_closed (c_stopCh c) = false → connect env uuid c = Ret (Some e) c' →
      loop_step (mkCW c CTop gs rq n) (mkCW c' CRetry gs rq n)
  | c_connected c c' gs rq n env uuid g :
      ch_closed (c_stopCh c) = false → connect env uuid c = Ret None c' → gs !! g = None →
      loop_step (mkCW c CTop gs rq n)
        (mkCW (set_reconnectDelay initialDelay c') (CStream g) (<[g := new_gen]> gs) rq 0)
  | c_retry_timer c c' gs rq n :
      increaseReconnectDelay c = Ret () c' →
      loop_step (mkCW c CRetry gs rq n) (mkCW c' CTop gs rq (S n))
  | c_retry_stop c c' gs rq n :
      ch_closed (c_stopCh c) = true → zoom c_doneCh set_c_doneCh ch_close c = Ret () c' →
      loop_step (mkCW c CRetry gs rq n) (mkCW c' CEnd gs rq n)
  | c_stream_error c gs rq n g ge e ch :
      gs !! g = Some ge → ch_try_recv (g_errChan ge) = Ret (Some e) ch →
      loop_step (mkCW c (CStream g) gs rq n)
        (mkCW c CAfter (<[g := set_g_done (set_g_err ch ge)]> gs) rq n)
  | c_after_stop c c1 c2 gs rq n :
      ch_closed (c_stopCh c) = true → disconnect c = Ret () c1 →
      zoom c_doneCh set_c_doneCh ch_close c1 = Ret () c2 →
      loop_step (mkCW c CAfter gs rq n) (mkCW c2 CEnd gs rq n)
  | c_after c c1 gs rq n :
      ch_closed (c_stopCh c) = false → disconnect c = Ret () c1 →
      loop_step (mkCW c CAfter gs rq n) (mkCW c1 CSleep gs rq n)
  | c_slept c c' gs rq n :
      increaseReconnectDelay c = Ret () c' →
      loop_step (mkCW c CSleep gs rq n) (mkCW c' CTop gs rq (S n)).

(** The goroutines of one generation that do not change the client. *)
Inductive gen_step (c : Client) : gen → gen → Prop :=
  | g_recv_done g : g_recv g = GRCheck → g_done g = true → gen_step c g (set_g_recv GREnd g)
  | g_recv_nil g : g_recv g = GRCheck → g_done g = false → c_stream c = None →
      gen_step c g (set_g_recv (GRErr err_nil_stream) g)
  | g_recv_go g s : g_recv g = GRCheck → g_done g = false → c_stream c = Some s →
      gen_step c g (set_g_recv GRRecv g)
  | g_recv_err g e : g_recv g = GRRecv → gen_step c g (set_g_recv (GRErr e) g)
  | g_recv_other g msg : g_recv g = GRRecv → Type_ msg ≠ MessageType_REQUEST →
      gen_step c g (set_g_recv GRCheck g)
  | g_recv_report g e ch : g_recv g = GRErr e → ch_send e (g_errChan g) = Ret () ch →
      gen_step c g (set_g_recv GREnd (set_g_err ch g))
  | g_send_done g : g_send g = GSSelect → g_done g = true → gen_step c g (set_g_send GSEnd g)
  | g_send_nil g msg : g_send g = GSTake msg → c_stream c = None →
      gen_step c g (set_g_send (GSErr err_nil_stream) g)
  | g_send_go g msg s : g_send g = GSTake msg → c_stream c = Some s →
      gen_step c g (set_g_send (GSSend s msg) g)
  | g_send_err g s msg e : g_send g = GSSend s msg → gen_step c g (set_g_send (GSErr e) g)
  | g_send_report g e ch : g_send g = GSErr e → ch_send e (g_errChan g) = Ret () ch →
      gen_step c g (set_g_send GSEnd (set_g_err ch g))
  | g_ping_done g : g_ping g = GPWait → g_done g = true → gen_step c g (set_g_ping GPEnd g)
  | g_ping_report g e ch : g_ping g = GPErr e → ch_send e (g_errChan g) = Ret () ch →
      gen_step c g (set_g_ping GPEnd (set_g_err ch g)).

Inductive cstep (handle : ProxyMessage → list Outgoing * result ProxyMessage) :
    client_world → client_world → Prop :=
  | c_loop w w' : loop_step w w' → cstep handle w w'
  | c_stop c c' ph gs rq n : Client_Stop c = Ret () c' →
      cstep handle (mkCW c ph gs rq n) (mkCW c' ph gs rq n)
  | c_gen c ph gs rq n i g g' : gs !! i = Some g → gen_step c g g' →
      cstep handle (mkCW c ph gs rq n) (mkCW c ph (<[i := g']> gs) rq n)
  | c_recv_request c ph gs rq n i g t msg :
      gs !! i = Some g → g_recv g = GRRecv → Type_ msg = MessageType_REQUEST → rq !! t = None →
      cstep handle (mkCW c ph gs rq n)
        (mkCW c ph (<[i := set_g_recv GRCheck g]> gs) (<[t := msg]> rq) n)
  | c_send_take c c' ph gs rq n i g msg :
      gs !! i = Some g → g_send g = GSSelect →
      zoom c_sendCh set_c_sendCh ch_try_recv c = Ret (Some msg) c' →
      cstep handle (mkCW c ph gs rq n)
        (mkCW c' ph (<[i := set_g_send (GSTake msg) g]> gs) rq n)
  | c_sent c ph gs rq n i g s msg :
      gs !! i = Some g → g_send g = GSSend s msg →
      cstep handle (mkCW c ph gs rq n)
        (mkCW (log_wire s msg c) ph (<[i := set_g_send GSSelect g]> gs) rq n)
  | c_ping c c' ph gs rq n i g uuid r :
      gs !! i = Some g → g_ping g = GPWait → Client_Send (ping_message uuid) c = Ret r c' →
      cstep handle (mkCW c ph gs rq n)
        (mkCW c' ph (<[i := set_g_ping (match r with None => GPWait | Some e => GPErr e end) g]> gs) rq n)
  | c_handle c c' ph gs rq n t msg :
      rq !! t = Some msg → handleRequest handle msg c = Ret () c' →
      cstep handle (mkCW c ph gs rq n) (mkCW c' ph gs (delete t rq) n).

(** ** Invariants *)

(** The delay after [n] waits: doubling, capped. *)
Definition backoff (n : nat) : Z := Z.min (2 ^ Z.of_nat n * initialDelay) maxDelay.

Lemma backoff_range n : (initialDelay ≤ backoff n ≤ maxDelay)%Z.
Proof.
  assert (0 < 2 ^ Z.of_nat n)%Z by (apply Z.pow_pos_nonneg; lia).
  unfold backoff, initialDelay, maxDelay, second. lia.
Qed.

Lemma backoff_S n :
  backoff (S n) = (let d := int64 (backoff n * backoffFactor) in if d >? maxDelay then maxDelay else d)%Z.
Proof.
  pose proof (backoff_range n) as Hr. cbv zeta. unfold int64, backoffFactor. rewrite wrap_id; [|lia|].
  2:{ unfold initialDelay, maxDelay, second in Hr. simpl. lia. }
  unfold backoff. rewrite Nat2Z.inj_succ, Z.pow_succ_r by lia.
  assert (0 < 2 ^ Z.of_nat n)%Z by (apply Z.pow_pos_nonneg; lia).
  destruct (Z.gtb_spec (Z.min (2 ^ Z.of_nat n * initialDelay) maxDelay * 2) maxDelay);
    unfold initialDelay, maxDelay, second in *; lia.
Qed.

Definition recv_left (r : crecv) : nat := match r with GREnd => 0 | _ => 1 end.
Definition send_left (s : csend) : nat := match s with GSEnd => 0 | _ => 1 end.
Definition ping_left (p : cping) : nat := match p with GPEnd => 0 | _ => 1 end.

Record gen_ok (g : gen) : Prop := {
  ge_cap : ch_cap (g_errChan g) = 3;
  ge_closed : ch_closed (g_errChan g) = false;
  ge_left :
    let n := length (ch_buf (g_errChan g)) + recv_left (g_recv g) + send_left (g_send g) + ping_left (g_ping g) in
    if g_done g then n ≤ 3 else n = 3;     (** no goroutine ends unheard before [done] *)
}.

(** The connection the loop has open in a phase. *)
Definition phase_conn (ph : cphase) (c : Client) : Prop :=
  match ph with
  | CStream _ | CAfter => ∃ k, c_conn c = Some k ∧ c_stream c = Some k ∧ c_open c = {[k]}
  | _ => c_conn c = None ∧ c_stream c = None ∧ c_open c = ∅
  end.

Record cw_ok (w : client_world) : Prop := {
  cw_conn : phase_conn (cw_phase w) (cw_client w);
  cw_done : ch_closed (c_doneCh (cw_client w)) = bool_decide (cw_phase w = CEnd);
  cw_delay : reconnectDelay (cw_client w) = backoff (cw_waits w) ∧
             maxReconnectDelay (cw_client w) = maxDelay;
  cw_sendCh : ch_closed (c_sendCh (cw_client w)) = false ∧
    ch_cap (c_sendCh (cw_client w)) = client_sendChannelBuffer ∧
    length (ch_buf (c_sendCh (cw_client w))) ≤ client_sendChannelBuffer;
  cw_gen : ∀ i g, cw_gens w !! i = Some g → gen_ok g;
  cw_current : ∀ i g, cw_gens w !! i = Some g → g_done g = false ↔ cw_phase w = CStream i;
  cw_live : ∀ i, cw_phase w = CStream i → is_Some (cw_gens w !! i);
}.

(** The fields [connect] and [disconnect] leave alone. *)
Definition same_loop (c c' : Client) : Prop :=
  c_sendCh c' = c_sendCh c ∧ c_stopCh c' = c_stopCh c ∧ c_doneCh c' = c_doneCh c ∧
  reconnectDelay c' = reconnectDelay c ∧ maxReconnectDelay c' = maxReconnectDelay c.

Lemma connect_spec env uuid c :
  phase_conn CTop c →
  wp (connect env uuid) c (λ r c', same_loop c c' ∧
    match r with
    | Some _ => phase_conn CRetry c' ∧ c_wire c' = c_wire c
    | None => phase_conn CAfter c' ∧ ∃ k, c_stream c' = Some k ∧
        c_wire c' = c_wire c ++ [(k, client_first_message uuid (c_agentID c))]
    end).
Proof.
  intros (Hc & Hs & Ho). unfold connect, dial, close_client_conn. wp_steps.
  destruct (if c_tls c then ce_creds env else None); wp_steps; [done|].
  destruct (ce_dial env); wp_steps; [done|].
  destruct (ce_stream env); wp_steps.
  { unfold phase_conn. simpl. rewrite Ho. repeat split; try done. set_solver. }
  destruct (ce_send env); wp_steps; unfold phase_conn; simpl; rewrite Ho.
  { repeat split; try done. set_solver. }
  split; [done|]. split; [|by eexists]. eexists. split_and!; [done|done|set_solver].
Qed.

Lemma disconnect_spec ph c :
  phase_conn ph c → wp disconnect c (λ _ c', same_loop c c' ∧ phase_conn CTop c').
Proof.
  intros Hp. unfold disconnect, close_client_conn. wp_steps.
  assert ((∃ k, c_conn c = Some k ∧ c_open c = {[k]}) ∨ c_conn c = None ∧ c_open c = ∅)
    as [(k & -> & Eo)|[-> Eo]] by (destruct ph; naive_solver); wp_steps; simpl.
  - repeat split; try done. simpl. rewrite Eo. set_solver.
  - done.
Qed.

Lemma increase_spec n c :
  reconnectDelay c = backoff n → maxReconnectDelay c = maxDelay →
  wp increaseReconnectDelay c (λ _ c', c' = set_reconnectDelay (backoff (S n)) c).
Proof.
  intros Hd Hm. unfold increaseReconnectDelay. wp_steps. simpl. rewrite Hd, Hm, backoff_S.
  cbv zeta. by destruct (_ >? _)%Z.
Qed.

Lemma close_done_spec c :
  ch_closed (c_doneCh c) = false →
  wp (zoom c_doneCh set_c_doneCh ch_close) c (λ _ c',
    ∃ ch, c' = set_c_doneCh ch c ∧ ch_closed ch = true).
Proof. intros Hc. wp_steps. apply wp_ch_close; [done|]. eexists. done. Qed.

Lemma Client_Send_spec msg c :
  ch_closed (c_sendCh c) = false →
  wp (Client_Send msg) c (λ r c',
    if ch_full (c_sendCh c) then r = Some err_send_full ∧ c' = c
    else r = None ∧ c' = set_c_sendCh (ch_push msg (c_sendCh c)) c).
Proof.
  intros Hc. unfold Client_Send, wp, mbind, M_bind, zoom, ch_try_send. rewrite Hc.
  destruct (ch_full (c_sendCh c)); simpl; split; try done. by destruct c.
Qed.

(** *** One generation *)

Lemma gen_ok_new : gen_ok new_gen.
Proof. split; simpl; done. Qed.

(** A goroutine ends without a report only after [done]. *)
Definition may_move (g : gen) (new old : nat) : Prop := if g_done g then new ≤ old else new = old.

Lemma gen_ok_recv g r : gen_ok g → may_move g (recv_left r) (recv_left (g_recv g)) → gen_ok (set_g_recv r g).
Proof. unfold may_move. intros [C D L] Hr. split; simpl; try done. simpl in L. destruct (g_done g); lia. Qed.
Lemma gen_ok_send g s : gen_ok g → may_move g (send_left s) (send_left (g_send g)) → gen_ok (set_g_send s g).
Proof. unfold may_move. intros [C D L] Hr. split; simpl; try done. simpl in L. destruct (g_done g); lia. Qed.
Lemma gen_ok_ping g p : gen_ok g → may_move g (ping_left p) (ping_left (g_ping g)) → gen_ok (set_g_ping p g).
Proof. unfold may_move. intros [C D L] Hr. split; simpl; try done. simpl in L. destruct (g_done g); lia. Qed.

(** A report takes a goroutine's place in the channel. *)
Lemma gen_ok_report g e r s p :
  gen_ok g →
  recv_left r + send_left s + ping_left p + 1 = recv_left (g_recv g) + send_left (g_send g) + ping_left (g_ping g) →
  gen_ok (mkGen (g_done g) (ch_push e (g_errChan g)) r s p).
Proof.
  intros [C D L] Hn. split; simpl; try done. rewrite length_app. simpl in *. destruct (g_done g); lia.
Qed.

Lemma ch_send_inv {A} (x : A) c c' : ch_send x c = Ret () c' → c' = ch_push x c.
Proof. unfold ch_send. repeat case_match; try done. by intros [= <-]. Qed.

Lemma gen_step_ok c g g' : gen_ok g → gen_step c g g' → gen_ok g' ∧ g_done g' = g_done g.
Proof.
  intros Hok Hs. destruct Hs as [g Er Ed|g Er Ed Es|g s Er Ed Es|g e Er|g msg Er Ht|g e ch Er Hch
    |g Es Ed|g msg Es En|g msg s Es En|g s msg e Es|g e ch Es Hch|g Ep Ed|g e ch Ep Hch];
    (split; [|done]).
  all: try (apply ch_send_inv in Hch as ->; refine (gen_ok_report g e _ _ _ Hok _); rewrite ?Er, ?Es, ?Ep; simpl; lia).
  1-5: apply gen_ok_recv; [done|]; unfold may_move; rewrite Er, ?Ed; simpl; try case_match; lia.
  1-4: apply gen_ok_send; [done|]; unfold may_move; rewrite Es, ?Ed; simpl; try case_match; lia.
  apply gen_ok_ping; [done|]. unfold may_move. rewrite Ep, Ed. simpl. lia.
Qed.

(** *** The loop *)

(** The loop moves between phases that have no running [handleStream]. *)
Lemma cw_ok_phase c c' ph ph' gs rq n n' :
  cw_ok (mkCW c ph gs rq n) →
  (∀ i, ph ≠ CStream i) → (∀ i, ph' ≠ CStream i) →
  phase_conn ph' c' → c_sendCh c' = c_sendCh c →
  ch_closed (c_doneCh c') = bool_decide (ph' = CEnd) →
  reconnectDelay c' = backoff n' → maxReconnectDelay c' = maxDelay →
  cw_ok (mkCW c' ph' gs rq n').
Proof.
  intros [C D De Se G Cu L] Hph Hph' Hc Hs Hd Hb Hm. simpl in *. split; simpl; rewrite ?Hs; try done.
  - intros i g Hi. rewrite (Cu _ _ Hi). split; intros E; [by destruct (Hph i)|by destruct (Hph' i)].
  - intros i E. by destruct (Hph' i).
Qed.

Lemma loop_step_ok w w' : cw_ok w → loop_step w w' → cw_ok w'.
Proof.
  intros Hok Hs. destruct (cw_delay _ Hok) as [Hb Hm].
  destruct Hs as [c c1 c2 gs rq n Hst E1 E2|c c' gs rq n env uuid e Hst E|c c' gs rq n env uuid g Hst E Hg
    |c c' gs rq n E|c c' gs rq n Hst E|c gs rq n g ge e ch Hg Hch|c c1 c2 gs rq n Hst E1 E2
    |c c1 gs rq n Hst E|c c' gs rq n E]; pose proof (cw_conn _ Hok) as Hc;
    pose proof (cw_done _ Hok) as Hd; simpl in Hc, Hd, Hb, Hm.
  - destruct (wp_Ret _ _ _ _ _ (disconnect_spec CTop c Hc) E1) as [(Q1 & _ & Q3 & Q4 & Q5) Hc1].
    rewrite <- Q3 in Hd. destruct (wp_Ret _ _ _ _ _ (close_done_spec c1 Hd) E2) as (ch & -> & Hcl).
    eapply cw_ok_phase; simpl; try done; congruence.
  - destruct (wp_Ret _ _ _ _ _ (connect_spec env uuid c Hc) E) as [(Q1 & _ & Q3 & Q4 & Q5) [Hc1 _]].
    eapply cw_ok_phase; simpl; try done; congruence.
  - destruct (wp_Ret _ _ _ _ _ (connect_spec env uuid c Hc) E) as [(Q1 & _ & Q3 & Q4 & Q5) [Hc1 _]].
    destruct Hok as [_ _ _ Se G Cu L]. simpl in *. split; simpl; rewrite ?Q1; try done.
    + by rewrite Q3.
    + by rewrite Q5.
    + intros i g' [[<- <-]|[_ Hi]]%lookup_insert_Some; [apply gen_ok_new|eauto].
    + intros i g' [[<- <-]|[Hne Hi]]%lookup_insert_Some; [done|]. rewrite (Cu _ _ Hi).
      split; [done|]. by intros [= ->].
    + intros i [= <-]. rewrite lookup_insert_eq. by eexists.
  - rewrite (wp_Ret _ _ _ _ _ (increase_spec n c Hb Hm) E). eapply cw_ok_phase; simpl; try done.
  - destruct (wp_Ret _ _ _ _ _ (close_done_spec c Hd) E) as (ch & -> & Hcl).
    eapply cw_ok_phase; simpl; try done.
  - unfold ch_try_recv in Hch. destruct (ch_buf (g_errChan ge)) as [|e' buf] eqn:Eb; [done|].
    injection Hch as <- <-. destruct Hok as [_ _ _ Se G Cu L]. simpl in *. split; simpl; try done.
    + intros i g' [[<- <-]|[_ Hi]]%lookup_insert_Some; [|eauto].
      destruct (G _ _ Hg) as [? ? Hl]. split; simpl; try done. rewrite Eb in Hl. simpl in Hl.
      destruct (g_done ge); lia.
    + intros i g' [[<- <-]|[Hne Hi]]%lookup_insert_Some; [done|]. rewrite (Cu _ _ Hi).
      split; [|done]. intros [= ->]. done.
  - destruct (wp_Ret _ _ _ _ _ (disconnect_spec CAfter c Hc) E1) as [(Q1 & _ & Q3 & Q4 & Q5) Hc1].
    rewrite <- Q3 in Hd. destruct (wp_Ret _ _ _ _ _ (close_done_spec c1 Hd) E2) as (ch & -> & Hcl).
    eapply cw_ok_phase; simpl; try done; congruence.
  - destruct (wp_Ret _ _ _ _ _ (disconnect_spec CAfter c Hc) E) as [(Q1 & _ & Q3 & Q4 & Q5) Hc1].
    eapply cw_ok_phase; simpl; try done; congruence.
  - rewrite (wp_Ret _ _ _ _ _ (increase_spec n c Hb Hm) E). eapply cw_ok_phase; simpl; try done.
Qed.

(** A goroutine step: the loop's part of the client stays, one generation moves. *)
Lemma cw_ok_gen c c' ph gs rq rq' n i g g' :
  cw_ok (mkCW c ph gs rq n) → gs !! i = Some g → gen_ok g' → g_done g' = g_done g →
  phase_conn ph c' → c_doneCh c' = c_doneCh c → reconnectDelay c' = reconnectDelay c →
  maxReconnectDelay c' = maxReconnectDelay c →
  ch_closed (c_sendCh c') = false → ch_cap (c_sendCh c') = client_sendChannelBuffer →
  length (ch_buf (c_sendCh c')) ≤ client_sendChannelBuffer →
  cw_ok (mkCW c' ph (<[i := g']> gs) rq' n).
Proof.
  intros [C D De Se G Cu L] Hi Hg Hgd Hc Hd Hr Hm S1 S2 S3. simpl in *.
  split; simpl; rewrite ?Hd, ?Hr, ?Hm; try done.
  - intros j g0 [[<- <-]|[_ Hj]]%lookup_insert_Some; [done|eauto].
  - intros j g0 [[<- <-]|[_ Hj]]%lookup_insert_Some; [rewrite Hgd|]; eauto.
  - intros j E. destruct (decide (i = j)) as [<-|Hne].
    + rewrite lookup_insert_eq. by eexists.
    + rewrite lookup_insert_ne by done. by apply L.
Qed.

(** The send channel changes within its bounds. *)
Lemma cw_ok_sendCh c ph gs rq rq' n ch :
  cw_ok (mkCW c ph gs rq n) → ch_closed ch = false → ch_cap ch = client_sendChannelBuffer →
  length (ch_buf ch) ≤ client_sendChannelBuffer →
  cw_ok (mkCW (set_c_sendCh ch c) ph gs rq' n).
Proof. intros [C D De Se G Cu L] S1 S2 S3. by split. Qed.

Lemma cw_ok_log c ph gs rq n s m : cw_ok (mkCW c ph gs rq n) → cw_ok (mkCW (log_wire s m c) ph gs rq n).
Proof. intros [C D De Se G Cu L]. by split. Qed.

Lemma cw_ok_set_gen c ph gs rq rq' n i g g' :
  cw_ok (mkCW c ph gs rq n) → gs !! i = Some g → gen_ok g' → g_done g' = g_done g →
  cw_ok (mkCW c ph (<[i := g']> gs) rq' n).
Proof.
  intros Hok Hi Hg Hd. destruct (cw_sendCh _ Hok) as (? & ? & ?).
  eapply cw_ok_gen; try done. apply (cw_conn _ Hok).
Qed.

Lemma Client_Send_ok msg c ph gs rq rq' n r c' :
  cw_ok (mkCW c ph gs rq n) → Client_Send msg c = Ret r c' → cw_ok (mkCW c' ph gs rq' n).
Proof.
  intros Hok E. destruct (cw_sendCh _ Hok) as (Hc & Hcap & Hlen). simpl in *.
  pose proof (wp_Ret _ _ _ _ _ (Client_Send_spec msg c Hc) E) as Hs.
  unfold ch_full in Hs. case_bool_decide as Hf; destruct Hs as [-> ->].
  - destruct Hok as [C D De Se G Cu L]. by split.
  - eapply cw_ok_sendCh; try done. simpl. rewrite length_app. simpl. rewrite Hcap in Hf. lia.
Qed.

(** [handleRequest] makes its calls and sends its answer. *)
Lemma handleRequest_inv handle msg c c' :
  handleRequest handle msg c = Ret () c' →
  ∃ r, Client_Send (answer (λ m, (handle m).2) msg) (log_calls msg (handle msg).1 c) = Ret r c'.
Proof.
  unfold handleRequest, mbind, M_bind, modify. simpl.
  destruct (Client_Send _ _) as [r c1| |]; [|done..]. intros [= <-]. by eexists.
Qed.

Lemma cw_ok_calls c ph gs rq n msg l :
  cw_ok (mkCW c ph gs rq n) → cw_ok (mkCW (log_calls msg l c) ph gs rq n).
Proof. intros [C D De Se G Cu L]. by split. Qed.

Lemma cstep_ok handle w w' : cw_ok w → cstep handle w w' → cw_ok w'.
Proof.
  intros Hok Hs. destruct Hs as [w w' Hl|c c' ph gs rq n E|c ph gs rq n i g g' Hi Hg
    |c ph gs rq n i g t msg Hi Hr Ht Hn|c c' ph gs rq n i g msg Hi Hse E|c ph gs rq n i g s msg Hi Hse
    |c c' ph gs rq n i g uuid r Hi Hp E|c c' ph gs rq n t msg Ht E].
  - by eapply loop_step_ok.
  - unfold Client_Stop, mbind, M_bind, zoom, ch_close in E.
    destruct (ch_closed (c_stopCh c)); [done|]. injection E as <-.
    destruct Hok as [C D De Se G Cu L]. by split.
  - destruct (gen_step_ok _ _ _ (cw_gen _ Hok _ _ Hi) Hg). by eapply cw_ok_set_gen.
  - eapply cw_ok_set_gen; try done. apply gen_ok_recv; [by apply (cw_gen _ Hok _ _ Hi)|].
    unfold may_move. rewrite Hr. by destruct (g_done g).
  - destruct (cw_sendCh _ Hok) as (Hc & Hcap & Hlen). simpl in *.
    unfold zoom, ch_try_recv in E. destruct (ch_buf (c_sendCh c)) as [|m buf] eqn:Eb; [done|].
    injection E as <- <-. simpl in Hlen. eapply (cw_ok_set_gen _ _ _ rq); [|done| |done].
    + eapply cw_ok_sendCh; try done. simpl. lia.
    + apply gen_ok_send; [by apply (cw_gen _ Hok _ _ Hi)|]. unfold may_move. rewrite Hse. by destruct (g_done g).
  - eapply (cw_ok_set_gen _ _ _ rq); [by apply cw_ok_log|done| |done].
    apply gen_ok_send; [by apply (cw_gen _ Hok _ _ Hi)|]. unfold may_move. rewrite Hse. by destruct (g_done g).
  - eapply (cw_ok_set_gen _ _ _ rq); [by eapply Client_Send_ok|done| |done].
    apply gen_ok_ping; [by apply (cw_gen _ Hok _ _ Hi)|]. unfold may_move. rewrite Hp.
    by destruct r, (g_done g).
  - destruct (handleRequest_inv _ _ _ _ E) as [r Es]. eapply Client_Send_ok; [|exact Es].
    by apply cw_ok_calls.
Qed.

Lemma cw_ok_init a tls : cw_ok (cw_init a tls).
Proof. split; simpl; try done; repeat split; simpl; try lia. Qed.

Lemma client_reachable_ok handle a tls w : rtc (cstep handle) (cw_init a tls) w → cw_ok w.
Proof.
  intros Hr. eapply rtc_invariant; [exact Hr|apply cw_ok_init|]. intros ???. by apply cstep_ok.
Qed.

(** *** The end of the loop *)

(** The steps of the client's own goroutines: all but [Stop]. *)
Definition own_step handle (w w' : client_world) : Prop :=
  cstep handle w w' ∧ c_stopCh (cw_client w') = c_stopCh (cw_client w).

Lemma own_step_ok handle w w' : cw_ok w → own_step handle w w' → cw_ok w'.
Proof. intros Hok [Hs _]. by eapply cstep_ok. Qed.

(** The steps of one generation are steps of the client. *)
Lemma own_gens handle c ph gs rq n i g g' :
  rtc (gen_step c) g g' → gs !! i = Some g →
  ∃ gs', rtc (own_step handle) (mkCW c ph gs rq n) (mkCW c ph gs' rq n) ∧ gs' !! i = Some g'.
Proof.
  intros Hr. revert gs. induction Hr as [g|g g1 g' Hs _ IH]; intros gs Hi; [exists gs; by split; [apply rtc_refl|]|].
  destruct (IH (<[i := g1]> gs) (lookup_insert_eq _ _ _)) as (gs' & Hr & Hi'). exists gs'. split; [|done].
  eapply rtc_l; [|exact Hr]. split; [by eapply c_gen|done].
Qed.

(** A receive loop whose stream fails reports its error. *)
Lemma recv_reports c g k :
  gen_ok g → g_done g = false → c_stream c = Some k → ch_buf (g_errChan g) = [] →
  ∃ g', rtc (gen_step c) g g' ∧ ch_buf (g_errChan g') ≠ [].
Proof.
  intros [C D L] Hd Hk B. rewrite Hd, B in L. simpl in L.
  assert (∀ e g, g_recv g = GRErr e → g_errChan g = make_chan 3 →
    gen_step c g (set_g_recv GREnd (set_g_err (ch_push e (g_errChan g)) g))) as Hreport.
  { intros e g0 E Ec. eapply g_recv_report; [exact E|]. by rewrite Ec. }
  assert (g_errChan g = make_chan 3) as Ec by (destruct (g_errChan g); simpl in *; by subst).
  destruct (g_recv g) as [| |e|] eqn:Er.
  - eexists. split; [|by instantiate (1 := set_g_recv GREnd (set_g_err (ch_push io_EOF (g_errChan g)) g)); simpl; rewrite B].
    eapply rtc_l; [by apply (g_recv_go c g k)|]. eapply rtc_l; [by apply (g_recv_err c _ io_EOF)|].
    apply rtc_once. by apply (Hreport io_EOF (set_g_recv (GRErr io_EOF) g)).
  - eexists. split; [|by instantiate (1 := set_g_recv GREnd (set_g_err (ch_push io_EOF (g_errChan g)) g)); simpl; rewrite B].
    eapply rtc_l; [by apply (g_recv_err c _ io_EOF)|].
    apply rtc_once. by apply (Hreport io_EOF (set_g_recv (GRErr io_EOF) g)).
  - eexists. split; [by apply rtc_once, (Hreport e)|]. simpl. by rewrite B.
  - exfalso. destruct (g_send g), (g_ping g); simpl in L; lia.
Qed.

(** So the loop that waits for an error gets one. *)
Lemma stream_fails handle c i gs rq n :
  cw_ok (mkCW c (CStream i) gs rq n) →
  ∃ gs' g, rtc (own_step handle) (mkCW c (CStream i) gs rq n) (mkCW c (CStream i) gs' rq n) ∧
    gs' !! i = Some g ∧ ch_buf (g_errChan g) ≠ [].
Proof.
  intros Hok. destruct (cw_live _ Hok i eq_refl) as [g Hi]. destruct (cw_conn _ Hok) as (k & _ & Hk & _). simpl in Hi, Hk.
  pose proof (proj2 (cw_current _ Hok i g Hi) eq_refl) as Hd.
  destruct (ch_buf (g_errChan g)) as [|e buf] eqn:Eb; [|exists gs, g; split; [apply rtc_refl|by rewrite Eb]].
  destruct (recv_reports c g k (cw_gen _ Hok _ _ Hi) Hd Hk Eb) as (g' & Hr & Hne).
  destruct (own_gens handle c (CStream i) gs rq n i g g' Hr Hi) as (gs' & Hr' & Hi'). eauto.
Qed.

Lemma own_loop handle w w' :
  loop_step w w' → c_stopCh (cw_client w') = c_stopCh (cw_client w) → own_step handle w w'.
Proof. intros Hl Hs. split; [by apply c_loop|done]. Qed.

(** The two places where the loop looks at [stopCh] and disconnects. *)
Lemma loop_leaves handle c ph gs rq n :
  ph = CTop ∨ ph = CAfter → cw_ok (mkCW c ph gs rq n) → ch_closed (c_stopCh c) = true →
  ∃ w', rtc (own_step handle) (mkCW c ph gs rq n) w' ∧ cw_phase w' = CEnd.
Proof.
  intros Hph Hok Hst. pose proof (disconnect_spec ph c (cw_conn _ Hok)) as ([] & c1 & E1 & (_ & Q & Q' & _) & _)%wp_run.
  pose proof (cw_done _ Hok) as Hd. simpl in Hd. rewrite <- Q', bool_decide_eq_false_2 in Hd by naive_solver.
  pose proof (close_done_spec c1 Hd) as ([] & c2 & E2 & ch & -> & _)%wp_run.
  eexists. split; [|by instantiate (1 := mkCW (set_c_doneCh ch c1) CEnd gs rq n)].
  eapply rtc_once, own_loop; [|done]. destruct Hph as [-> | ->]; [by eapply c_stop_at_top|by eapply c_after_stop].
Qed.

(** From wherever it is, a loop that has been told to stop can end. *)
Lemma client_ends handle w :
  cw_ok w → ch_closed (c_stopCh (cw_client w)) = true →
  ∃ w', rtc (own_step handle) w w' ∧ cw_phase w' = CEnd.
Proof.
  intros Hok Hst. destruct w as [c ph gs rq n]. destruct (cw_delay _ Hok) as [Hb Hm]. simpl in *. destruct ph.
  - apply loop_leaves; auto.
  - pose proof (close_done_spec c (cw_done _ Hok)) as ([] & c2 & E2 & ch & -> & _)%wp_run.
    eexists. split; [eapply rtc_once, own_loop; [by eapply c_retry_stop|done]|done].
  - destruct (stream_fails handle c g gs rq n Hok) as (gs' & ge & Hr & Hi & Hne).
    destruct (ch_buf (g_errChan ge)) as [|e buf] eqn:Eb; [done|].
    set (w1 := mkCW c CAfter (<[g := set_g_done (set_g_err (mkChan buf (ch_cap (g_errChan ge)) (ch_closed (g_errChan ge))) ge)]> gs') rq n).
    assert (rtc (own_step handle) (mkCW c (CStream g) gs rq n) w1) as Hr1.
    { eapply rtc_r; [exact Hr|]. apply own_loop; [|done]. eapply c_stream_error; [exact Hi|]. unfold ch_try_recv. by rewrite Eb. }
    destruct (loop_leaves handle c CAfter _ rq n (or_intror eq_refl)
      (rtc_invariant _ cw_ok _ _ Hr1 Hok (own_step_ok handle)) Hst) as (w' & Hr2 & Hp).
    exists w'. split; [by etrans|done].
  - apply loop_leaves; auto.
  - pose proof (increase_spec n c Hb Hm) as ([] & c1 & E1 & ->)%wp_run.
    assert (own_step handle (mkCW c CSleep gs rq n) (mkCW (set_reconnectDelay (backoff (S n)) c) CTop gs rq (S n))) as H1
      by (apply own_loop; [by eapply c_slept|done]).
    destruct (loop_leaves handle _ CTop _ _ _ (or_introl eq_refl) (own_step_ok _ _ _ Hok H1) Hst) as (w' & Hr & Hp). exists w'. split; [by eapply rtc_l|done].
  - eexists. split; [apply rtc_refl|done].
Qed.

(** What the agent sends back carries the id of the request, and is a RESPONSE that
    names no agent. *)
Lemma answer_shape rh order msg :
  let m := answer (HandleRequest rh order) msg in
  Id m = Id msg ∧ Type_ m = MessageType_RESPONSE ∧ map_get (Metadata m) "agent_id" = "".
Proof.
  unfold answer, HandleRequest, HandleRequest_do, httpClient_Do, map_get.
  destruct (newRequestErr _ _ _); [done|]. simpl. destruct (clientDo _ _) as [resp|]; [|done].
  destruct (resp_Body resp); [|done]. simpl. by rewrite meta_plain.
Qed.

(** *** The steps, from outside *)

(** The messages a generation has in hand. *)
Definition in_hand (g : gen) : option ProxyMessage :=
  match g_send g with GSTake m | GSSend _ m => Some m | _ => None end.

(** Where a message the client sends, or has sent, may be. *)
Definition holds (w : client_world) (m : ProxyMessage) : Prop :=
  m ∈ ch_buf (c_sendCh (cw_client w)) ∨
  (∃ i g, cw_gens w !! i = Some g ∧ in_hand g = Some m) ∨
  (∃ s, (s, m) ∈ c_wire (cw_client w)).

(** The client still has what it had to send and has sent nothing more, to nobody. *)
Definition quiet (c c' : Client) : Prop :=
  c_agentID c' = c_agentID c ∧ ch_buf (c_sendCh c') = ch_buf (c_sendCh c) ∧ c_wire c' = c_wire c ∧
  c_calls c' = c_calls c.

Lemma connect_out env uuid c r c' :
  connect env uuid c = Ret r c' →
  c_agentID c' = c_agentID c ∧ ch_buf (c_sendCh c') = ch_buf (c_sendCh c) ∧ c_calls c' = c_calls c ∧
  ∃ l, c_wire c' = c_wire c ++ l ∧
    ∀ s m, (s, m) ∈ l → m = client_first_message uuid (c_agentID c).
Proof.
  unfold connect, dial, close_client_conn, get, put, modify, mbind, M_bind, mret, M_ret. intros E.
  destruct (if c_tls c then ce_creds env else None) as [e|].
  { injection E as <- <-. split_and!; try done. exists []. rewrite app_nil_r. split; [done|]. by intros ?? ?%not_elem_of_nil. }
  repeat case_match; injection E as <- <-; simpl; split_and!; try done;
    [exists []; rewrite app_nil_r; split; [done|]; by intros ?? ?%not_elem_of_nil..|].
  eexists. split; [done|]. intros s m Hm%list_elem_of_singleton. by injection Hm as _ ->.
Qed.

Lemma disconnect_out c c' : disconnect c = Ret () c' → quiet c c'.
Proof.
  unfold disconnect, close_client_conn, get, modify, mbind, M_bind, mret, M_ret.
  intros E. destruct (c_conn c); by injection E as <-.
Qed.

Lemma increase_out c c' : increaseReconnectDelay c = Ret () c' → quiet c c'.
Proof.
  unfold increaseReconnectDelay, modify, mbind, M_bind. intros [= <-]. unfold quiet. by case_match.
Qed.

Lemma close_done_out c c' : zoom c_doneCh set_c_doneCh ch_close c = Ret () c' → quiet c c'.
Proof. unfold zoom. destruct (ch_close (c_doneCh c)); intros E; by simplify_eq. Qed.

Lemma quiet_trans c1 c2 c3 : quiet c1 c2 → quiet c2 c3 → quiet c1 c3.
Proof. unfold quiet. intuition congruence. Qed.

(** The step is the one in which the goroutine of request [msg] ends: it has sent to
    the local service what [HandleRequest] sends. *)
Definition handled (handle : ProxyMessage → list Outgoing * result ProxyMessage) (w w' : client_world)
    (msg : ProxyMessage) : Prop :=
  ∃ t, cw_reqs w !! t = Some msg ∧ cw_reqs w' = delete t (cw_reqs w) ∧
    c_calls (cw_client w') = c_calls (cw_client w) ++ (pair msg <$> (handle msg).1).

(** What a step may add to what the client holds. *)
Definition produced handle (w w' : client_world) (m : ProxyMessage) : Prop :=
  (∃ uuid, m = ping_message uuid) ∨ (∃ uuid, m = client_first_message uuid (c_agentID (cw_client w))) ∨
  (∃ msg, handled handle w w' msg ∧ m = answer (λ m, (handle m).2) msg).

Definition outputs handle (w w' : client_world) : Prop :=
  c_agentID (cw_client w') = c_agentID (cw_client w) ∧
  (∃ l, c_wire (cw_client w') = c_wire (cw_client w) ++ l) ∧
  (∀ m, holds w' m → holds w m ∨ produced handle w w' m) ∧
  (c_calls (cw_client w') = c_calls (cw_client w) ∨ ∃ msg, handled handle w w' msg).

(** A step that touches the generations only, in a way that takes nothing up. *)
Lemma outputs_quiet handle c c' ph ph' gs gs' rq rq' n n' :
  quiet c c' →
  (∀ i g m, gs' !! i = Some g → in_hand g = Some m →
     (∃ j g', gs !! j = Some g' ∧ in_hand g' = Some m) ∨ m ∈ ch_buf (c_sendCh c)) →
  outputs handle (mkCW c ph gs rq n) (mkCW c' ph' gs' rq' n').
Proof.
  intros (Ea & Eb & Ew & Ec) Hg. split; [done|]. split; [exists []; by rewrite app_nil_r|].
  split; [|by left]. intros m [Hm|[(i & g & Hi & Hm)|[s Hm]]]; left; simpl in *.
  - left. simpl. by rewrite <- Eb.
  - destruct (Hg _ _ _ Hi Hm) as [?|?]; [right; left|left]; done.
  - right; right. exists s. simpl. by rewrite <- Ew.
Qed.

(** The generation [i] moves, with nothing new in hand. *)
Lemma hand_insert (gs : gmap nat gen) i g g' j h m :
  gs !! i = Some g → <[i := g']> gs !! j = Some h → in_hand h = Some m →
  (in_hand g' = Some m → in_hand g = Some m) → ∃ k x, gs !! k = Some x ∧ in_hand x = Some m.
Proof.
  intros Hi [[<- <-]|[_ Hj]]%lookup_insert_Some Hm Hg; [exists i, g; auto|by exists j, h].
Qed.

Lemma gen_step_hand c g g' m : gen_step c g g' → in_hand g' = Some m → in_hand g = Some m.
Proof.
  destruct 1; unfold in_hand; simpl; try done;
    repeat match goal with E : g_send _ = _ |- _ => rewrite E end; done.
Qed.

Lemma outputs_connect handle env uuid r c c' ph ph' gs gs' rq n n' d :
  connect env uuid c = Ret r c' →
  (∀ i g m, gs' !! i = Some g → in_hand g = Some m → ∃ j g', gs !! j = Some g' ∧ in_hand g' = Some m) →
  outputs handle (mkCW c ph gs rq n) (mkCW (if d : bool then set_reconnectDelay initialDelay c' else c') ph' gs' rq n').
Proof.
  intros E Hg. destruct (connect_out _ _ _ _ _ E) as (Ea & Eb & Ec & l & Ew & Hl).
  split; [by destruct d|]. split; [exists l; by destruct d|]. split; [|left; by destruct d].
  intros m [Hm|[(i & g & Hi & Hm)|[s Hm]]]; simpl in *.
  - left; left. simpl. rewrite <- Eb. by destruct d.
  - left; right; left. eauto.
  - assert ((s, m) ∈ c_wire c') as Hm' by by destruct d. rewrite Ew in Hm'.
    apply elem_of_app in Hm' as [Hm'|Hm']; [left; right; right; by exists s|].
    right; right; left. exists uuid. by eapply Hl.
Qed.

Lemma loop_step_outputs handle w w' : loop_step w w' → outputs handle w w'.
Proof.
  intros Hs. destruct Hs as [c c1 c2 gs rq n _ E1%disconnect_out E2%close_done_out
    |c c' gs rq n env uuid e _ E|c c' gs rq n env uuid g _ E Hg|c c' gs rq n E%increase_out
    |c c' gs rq n _ E%close_done_out|c gs rq n g ge e ch Hg Hch|c c1 c2 gs rq n _ E1%disconnect_out E2%close_done_out
    |c c1 gs rq n _ E%disconnect_out|c c' gs rq n E%increase_out].
  - apply outputs_quiet; [by eapply quiet_trans|]. intros. left. eauto.
  - eapply (outputs_connect _ env uuid _ _ _ _ _ _ _ _ _ _ false); [exact E|eauto].
  - eapply (outputs_connect _ env uuid _ _ _ _ _ _ _ _ _ _ true); [exact E|]. intros j h m [[<- <-]|[_ Hj]]%lookup_insert_Some Hm;
      [done|eauto].
  - apply outputs_quiet; [done|]. intros. left. eauto.
  - apply outputs_quiet; [done|]. intros. left. eauto.
  - apply outputs_quiet; [done|]. intros j h m Hj Hm. left.
    by eapply (hand_insert gs); [eassumption|exact Hj|exact Hm|].
  - apply outputs_quiet; [by eapply quiet_trans|]. intros. left. eauto.
  - apply outputs_quiet; [done|]. intros. left. eauto.
  - apply outputs_quiet; [done|]. intros. left. eauto.
Qed.

Lemma Client_Send_adds msg c r c' :
  Client_Send msg c = Ret r c' →
  c_agentID c' = c_agentID c ∧ c_wire c' = c_wire c ∧ c_calls c' = c_calls c ∧
  ∀ m, m ∈ ch_buf (c_sendCh c') → m ∈ ch_buf (c_sendCh c) ∨ m = msg.
Proof.
  unfold Client_Send, mbind, M_bind, zoom, ch_try_send. intros E.
  destruct (ch_closed (c_sendCh c)); [done|]. destruct (ch_full (c_sendCh c)); injection E as <- <-.
  - split_and!; try done. intros m. by left.
  - split_and!; try done. intros m. simpl. rewrite elem_of_app, list_elem_of_singleton. done.
Qed.

Lemma Client_Send_out handle msg c c' ph gs gs' rq n r :
  Client_Send msg c = Ret r c' → (∃ uuid, msg = ping_message uuid) →
  (∀ i g m, gs' !! i = Some g → in_hand g = Some m → ∃ j g', gs !! j = Some g' ∧ in_hand g' = Some m) →
  outputs handle (mkCW c ph gs rq n) (mkCW c' ph gs' rq n).
Proof.
  intros E Hp Hg. destruct (Client_Send_adds _ _ _ _ E) as (Ea & Ew & Ec & Hb).
  split; [done|]. split; [exists []; by rewrite app_nil_r|]. split; [|by left].
  intros m [Hm|[(i & g & Hi & Hm)|[s Hm]]]; simpl in *.
  - apply Hb in Hm as [Hm|Hm]; [by left; left|right; left]. by subst.
  - left; right; left. eauto.
  - left; right; right. exists s. simpl. by rewrite <- Ew.
Qed.

Lemma handleRequest_out handle c c' ph gs rq n t msg :
  rq !! t = Some msg → handleRequest handle msg c = Ret () c' →
  outputs handle (mkCW c ph gs rq n) (mkCW c' ph gs (delete t rq) n).
Proof.
  intros Ht E. destruct (handleRequest_inv _ _ _ _ E) as [r Es].
  destruct (Client_Send_adds _ _ _ _ Es) as (Ea & Ew & Ec & Hb).
  assert (handled handle (mkCW c ph gs rq n) (mkCW c' ph gs (delete t rq) n) msg) as Hh by by exists t.
  split; [done|]. split; [exists []; by rewrite app_nil_r|]. split; [|right; by exists msg].
  intros m [Hm|[(i & g & Hi & Hm)|[s Hm]]]; simpl in *.
  - apply Hb in Hm as [Hm|Hm]; [by left; left|right; right; right]. by exists msg.
  - left; right; left. eauto.
  - left; right; right. exists s. simpl. by rewrite <- Ew.
Qed.

(** A step sends nothing but pings, first messages and answers to requests. *)
Lemma cstep_outputs handle w w' : cstep handle w w' → outputs handle w w'.
Proof.
  intros Hs. destruct Hs as [w w' Hl|c c' ph gs rq n E|c ph gs rq n i g g' Hi Hg
    |c ph gs rq n i g t msg Hi Hr Ht Hn|c c' ph gs rq n i g msg Hi Hse E|c ph gs rq n i g s msg Hi Hse
    |c c' ph gs rq n i g uuid r Hi Hp E|c c' ph gs rq n t msg Ht E].
  - by apply loop_step_outputs.
  - apply outputs_quiet; [|intros; left; eauto]. unfold Client_Stop, mbind, M_bind, zoom, ch_close in E.
    destruct (ch_closed (c_stopCh c)); [done|]. by injection E as <-.
  - apply outputs_quiet; [done|]. intros j h m Hj Hm. left.
    eapply hand_insert; [exact Hi|exact Hj|exact Hm|]. by eapply gen_step_hand.
  - apply outputs_quiet; [done|]. intros j h m Hj Hm. left.
    by eapply (hand_insert gs); [eassumption|exact Hj|exact Hm|].
  - unfold zoom, ch_try_recv in E. destruct (ch_buf (c_sendCh c)) as [|m0 buf] eqn:Eb; [done|].
    injection E as <- <-. split; [done|]. split; [exists []; by rewrite app_nil_r|]. split; [|by left].
    intros m [Hm|[(j & h & Hj & Hm)|[s Hm]]]; left; simpl in *.
    + left. simpl. rewrite Eb. by right.
    + apply lookup_insert_Some in Hj as [[<- <-]|[_ Hj]]; [|right; left; by exists j, h].
      injection Hm as <-. left. simpl. rewrite Eb. by left.
    + right; right. by exists s.
  - split; [done|]. split; [by eexists|]. split; [|by left].
    intros m [Hm|[(j & h & Hj & Hm)|[s' Hm]]]; left; simpl in *; [by left|..].
    + right; left. by eapply (hand_insert gs); [eassumption|exact Hj|exact Hm|].
    + apply elem_of_app in Hm as [Hm|Hm%list_elem_of_singleton]; [right; right; by exists s'|].
      injection Hm as -> ->. right; left. exists i, g. split; [done|]. unfold in_hand. by rewrite Hse.
  - eapply Client_Send_out; [done|by eexists|]. intros j h m Hj Hm.
    by eapply (hand_insert gs); [eassumption|exact Hj|exact Hm|].
  - by eapply handleRequest_out.
Qed.

(** ** Properties *)

(** C24: connections.  Whatever the network does and however often the client
    reconnects, at most one [grpc.ClientConn] is open, it is the one the client
    uses, and none is left open while the loop waits to reconnect or after it has
    ended (the failure paths of [connect] included); [doneCh] is closed exactly
    when the loop has ended. *)
Theorem client_connections handle a tls w :
  rtc (cstep handle) (cw_init a tls) w →
  (∀ k, k ∈ c_open (cw_client w) → c_conn (cw_client w) = Some k ∧ c_stream (cw_client w) = Some k) ∧
  (match cw_phase w with CStream _ | CAfter => True | _ => c_open (cw_client w) = ∅ end) ∧
  (ch_closed (c_doneCh (cw_client w)) = true ↔ cw_phase w = CEnd).
Proof.
  intros Hr. destruct (client_reachable_ok _ _ _ _ Hr) as [C D _ _ _ _ _]. split_and!.
  - intros k Hk. destruct (cw_phase w); simpl in C; destruct_and?; try (exfalso; set_solver);
      destruct C as (k' & Ec & Es & Eo); rewrite Eo in Hk; apply elem_of_singleton in Hk as ->; done.
  - destruct (cw_phase w); simpl in C; tauto.
  - rewrite D. apply bool_decide_eq_true.
Qed.

(** C26: reconnection delay.  In every reachable state the delay is one second
    doubled once per wait since the last successful connect and capped at thirty
    seconds; so every wait lies between one and thirty seconds. *)
Theorem client_backoff handle a tls w :
  rtc (cstep handle) (cw_init a tls) w →
  reconnectDelay (cw_client w) = Z.min (2 ^ Z.of_nat (cw_waits w) * initialDelay) maxDelay ∧
  (initialDelay ≤ reconnectDelay (cw_client w) ≤ maxDelay)%Z.
Proof.
  intros Hr. destruct (cw_delay _ (client_reachable_ok _ _ _ _ Hr)) as [E _].
  rewrite E. split; [done|apply backoff_range].
Qed.

(** No goroutine of the client blocks for ever on a channel the client owns:
    the three loops of every connection, also of one that has been abandoned, can
    always report their error, and a request's answer can always be offered to
    the send channel. *)
Theorem client_goroutines_never_block handle a tls w :
  rtc (cstep handle) (cw_init a tls) w →
  (∀ i g e, cw_gens w !! i = Some g → g_recv g = GRErr e ∨ g_send g = GSErr e ∨ g_ping g = GPErr e →
     ∃ ch, ch_send e (g_errChan g) = Ret () ch) ∧
  (∀ t msg, cw_reqs w !! t = Some msg → ∃ c', handleRequest handle msg (cw_client w) = Ret () c').
Proof.
  intros Hr. pose proof (client_reachable_ok _ _ _ _ Hr) as Hok. split.
  - intros i g e Hi He. destruct (cw_gen _ Hok _ _ Hi) as [C D L].
    unfold ch_send, ch_full. rewrite D, bool_decide_eq_false_2; [by eexists|]. rewrite C.
    destruct He as [He|[He|He]]; rewrite He in L; simpl in L; destruct (g_done g); lia.
  - intros t msg _. destruct (cw_sendCh _ Hok) as (Hc & _ & _).
    unfold handleRequest, Client_Send, mbind, M_bind, zoom, ch_try_send, modify. simpl. rewrite Hc.
    destruct (ch_full _); by eexists.
Qed.

(** Every request is answered with its own id: [handleRequest] makes the calls
    [HandleRequest] makes, and queues exactly one RESPONSE carrying the request's id
    (the local service's response, or a 502 with the error as its body), unless the
    send channel already holds a hundred messages, in which case nothing is queued. *)
Theorem handleRequest_answers rh order msg c :
  ch_closed (c_sendCh c) = false → ch_cap (c_sendCh c) = client_sendChannelBuffer →
  ∃ c' resp, handleRequest (HandleRequest_do rh order) msg c = Ret () c' ∧
    Id resp = Id msg ∧ Type_ resp = MessageType_RESPONSE ∧
    (∀ e, HandleRequest rh order msg = Err e →
       Payload resp = Error e ∧ map_get (Metadata resp) "status_code" = "502") ∧
    (∀ r, HandleRequest rh order msg = Ok r → resp = r) ∧
    c_calls c' = c_calls c ++ (pair msg <$> (HandleRequest_do rh order msg).1) ∧
    ch_buf (c_sendCh c') = ch_buf (c_sendCh c) ++
      (if decide (length (ch_buf (c_sendCh c)) < client_sendChannelBuffer) then [resp] else []).
Proof.
  intros Hc Hcap. set (c1 := log_calls msg (HandleRequest_do rh order msg).1 c).
  pose proof (Client_Send_spec (answer (HandleRequest rh order) msg) c1 Hc) as (r & c' & E & Hs)%wp_run.
  exists c', (answer (HandleRequest rh order) msg).
  split; [unfold handleRequest, mbind, M_bind, modify; fold c1; unfold HandleRequest in E; by rewrite E|].
  destruct (answer_shape rh order msg) as (? & ? & _). split_and!; [done..| | | |].
  - intros e Ee. unfold answer. rewrite Ee. done.
  - intros r' Er. unfold answer. by rewrite Er.
  - by destruct (ch_full (c_sendCh c1)), Hs as [_ ->].
  - unfold ch_full in Hs. simpl in Hs. rewrite Hcap in Hs.
    case_bool_decide as Hf; destruct Hs as [_ ->]; simpl; case_decide; simpl; try lia.
    + by rewrite app_nil_r.
    + done.
Qed.

(** The rank of a phase once [Stop] has been called. *)
Definition stop_rank (ph : cphase) : nat :=
  match ph with
  | CEnd => 0
  | CTop | CAfter => 1
  | CRetry | CSleep | CStream _ => 2
  end.

(** C25: [Stop] ends the loop: once [stopCh] is closed, in every reachable state
    each step of [connectionLoop] brings it strictly closer to its end (at most
    two more steps, and no new connection), and a step is possible in every phase
    but [handleStream], which waits for one of its goroutines to fail. *)
Theorem client_stops handle a tls w :
  rtc (cstep handle) (cw_init a tls) w → ch_closed (c_stopCh (cw_client w)) = true →
  (∀ w', loop_step w w' → stop_rank (cw_phase w') < stop_rank (cw_phase w) ∧
     ch_closed (c_stopCh (cw_client w')) = true ∧
     c_open (cw_client w') ⊆ c_open (cw_client w)) ∧
  (match cw_phase w with
   | CEnd => True
   | CStream i => ∀ g e, cw_gens w !! i = Some g → e ∈ ch_buf (g_errChan g) → ∃ w', loop_step w w'
   | _ => ∃ w', loop_step w w'
   end).
Proof.
  intros Hr Hst. pose proof (client_reachable_ok _ _ _ _ Hr) as Hok. split.
  - intros w' Hs. destruct (cw_delay _ Hok) as [Hb Hm]. pose proof (cw_conn _ Hok) as Hcn.
    destruct Hs as [c c1 c2 gs rq n _ E1 E2|c c' gs rq n env uuid e Hf E|c c' gs rq n env uuid g Hf E Hg
      |c c' gs rq n E|c c' gs rq n _ E|c gs rq n g ge e ch Hg Hch|c c1 c2 gs rq n _ E1 E2
      |c c1 gs rq n Hf E|c c' gs rq n E]; simpl in *; try congruence.
    + destruct (wp_Ret _ _ _ _ _ (disconnect_spec CTop c Hcn) E1) as [(_ & Q & _) (_ & _ & Ho)].
      unfold zoom in E2. destruct (ch_close (c_doneCh c1)); simplify_eq. simpl. rewrite Q, Ho.
      split_and!; [lia|done|set_solver].
    + rewrite (wp_Ret _ _ _ _ _ (increase_spec n c Hb Hm) E). simpl. split_and!; [lia|done|done].
    + unfold zoom in E. destruct (ch_close (c_doneCh c)); simplify_eq. simpl. split_and!; [lia|done|done].
    + split_and!; [lia|done|done].
    + destruct (wp_Ret _ _ _ _ _ (disconnect_spec CAfter c Hcn) E1) as [(_ & Q & _) (_ & _ & Ho)].
      unfold zoom in E2. destruct (ch_close (c_doneCh c1)); simplify_eq. simpl. rewrite Q, Ho.
      split_and!; [lia|done|set_solver].
    + rewrite (wp_Ret _ _ _ _ _ (increase_spec n c Hb Hm) E). simpl. split_and!; [lia|done|done].
  - pose proof (cw_conn _ Hok) as Hcn. pose proof (cw_done _ Hok) as Hd.
    destruct (cw_delay _ Hok) as [Hb Hm]. destruct w as [c ph gs rq n]; simpl in *.
    destruct ph; simpl in Hd.
    + pose proof (disconnect_spec CTop c Hcn) as (u & c1 & E1 & (_ & _ & Q & _) & _)%wp_run. destruct u.
      rewrite <- Q in Hd. pose proof (close_done_spec c1 Hd) as (u & c2 & E2 & _)%wp_run. destruct u.
      eexists. by eapply c_stop_at_top.
    + pose proof (increase_spec n c Hb Hm) as (u & c1 & E1 & _)%wp_run. destruct u.
      eexists. by eapply c_retry_timer.
    + intros ge e Hg Hin. destruct (ch_buf (g_errChan ge)) as [|e' buf] eqn:Eb; [by apply not_elem_of_nil in Hin|].
      eexists. eapply c_stream_error; [done|]. unfold ch_try_recv. by rewrite Eb.
    + pose proof (disconnect_spec CAfter c Hcn) as (u & c1 & E1 & (_ & _ & Q & _) & _)%wp_run. destruct u.
      rewrite <- Q in Hd. pose proof (close_done_spec c1 Hd) as (u & c2 & E2 & _)%wp_run. destruct u.
      eexists. by eapply c_after_stop.
    + pose proof (increase_spec n c Hb Hm) as (u & c1 & E1 & _)%wp_run. destruct u.
      eexists. by eapply c_slept.
    + done.
Qed.

(** ** Witnesses *)
Module OneClient.
Definition handle (m : ProxyMessage) : list Outgoing * result ProxyMessage := ([], Err (Errorf "down")).
Definition good : connect_env := mkConnectEnv None None None None.
Definition bad : connect_env := mkConnectEnv None (Some (Errorf "refused")) None None.
Definition run {A} (m : M Client A) (c : Client) : Client :=
  match m c with Ret _ c' | Panic _ c' | Block c' => c' end.

(** One failed attempt and one wait. *)
Definition waited : client_world :=
  mkCW (run increaseReconnectDelay (NewClient "a" false)) CTop ∅ ∅ 1.

Lemma waited_reachable : rtc (cstep handle) (cw_init "a" false) waited.
Proof.
  eapply rtc_l. { apply c_loop. by eapply (c_connect_failed _ _ _ _ _ bad "u"). }
  eapply rtc_l. { apply c_loop. by eapply c_retry_timer. }
  apply rtc_refl.
Qed.

(** Connected; the receive loop has failed; [Stop] has been called. *)
Definition connected : Client := set_reconnectDelay initialDelay (run (connect good "u") (NewClient "a" false)).
Definition failing_gen : gen := set_g_recv (GRErr io_EOF) new_gen.
Definition stopping : client_world :=
  mkCW (run Client_Stop connected) (CStream 0) {[0 := failing_gen]} ∅ 0.

Lemma stopping_reachable : rtc (cstep handle) (cw_init "a" false) stopping.
Proof.
  eapply rtc_l. { apply c_loop. by eapply (c_connected _ _ _ _ _ good "u" 0). }
  eapply rtc_l. { eapply (c_gen _ _ _ _ _ _ 0); [done|]. by eapply g_recv_go. }
  eapply rtc_l. { eapply (c_gen _ _ _ _ _ _ 0); [done|]. by eapply (g_recv_err _ _ io_EOF). }
  eapply rtc_l. { by eapply c_stop. }
  apply rtc_refl.
Qed.

(** The same after the error was taken and the loop has disconnected. *)
Definition ended : client_world :=
  mkCW (run (zoom c_doneCh set_c_doneCh ch_close) (run disconnect (run Client_Stop connected))) CEnd
    {[0 := set_g_done (set_g_recv GREnd failing_gen)]} ∅ 0.

Lemma ended_reachable : rtc (cstep handle) (cw_init "a" false) ended.
Proof.
  etrans; [apply stopping_reachable|].
  eapply rtc_l. { eapply (c_gen _ _ _ _ _ _ 0); [done|]. by eapply g_recv_report. }
  eapply rtc_l. { apply c_loop. by eapply c_stream_error. }
  eapply rtc_l. { apply c_loop. by eapply c_after_stop. }
  apply rtc_refl.
Qed.
End OneClient.

Lemma client_connections_witness : c_open (cw_client OneClient.ended) = ∅.
Proof.
  destruct (client_connections OneClient.handle "a" false OneClient.ended OneClient.ended_reachable)
    as (_ & Ho & _). exact Ho.
Defined.

Lemma client_backoff_witness :
  reconnectDelay (cw_client OneClient.waited) = (2 * second)%Z ∧
  (initialDelay ≤ reconnectDelay (cw_client OneClient.waited) ≤ maxDelay)%Z.
Proof.
  split; [reflexivity|].
  apply (client_backoff OneClient.handle "a" false OneClient.waited OneClient.waited_reachable).
Defined.

Lemma client_goroutines_never_block_witness :
  ∃ ch, ch_send io_EOF (g_errChan OneClient.failing_gen) = Ret () ch.
Proof.
  destruct (client_goroutines_never_block OneClient.handle "a" false OneClient.stopping
    OneClient.stopping_reachable) as [Hg _].
  apply (Hg 0 OneClient.failing_gen io_EOF).
  - reflexivity.
  - left. reflexivity.
Defined.

Lemma handleRequest_answers_witness :
  ∃ c' resp, handleRequest (HandleRequest_do (mkRH "http://x" (mkHttpEnv (λ _ _, None) (λ _, Err io_EOF))) [])
      (mkMsg "1" MessageType_REQUEST "" ∅) (NewClient "a" false) = Ret () c' ∧
    Id resp = "1" ∧ ch_buf (c_sendCh c') = [resp].
Proof.
  destruct (handleRequest_answers (mkRH "http://x" (mkHttpEnv (λ _ _, None) (λ _, Err io_EOF))) []
    (mkMsg "1" MessageType_REQUEST "" ∅) (NewClient "a" false)) as (c' & resp & H1 & H2 & _ & _ & _ & _ & H3).
  - reflexivity.
  - reflexivity.
  - exists c', resp. split; [exact H1|]. split; [exact H2|exact H3].
Defined.

Lemma client_stops_witness :
  ch_closed (c_stopCh (cw_client OneClient.stopping)) = true ∧
  (∀ w', loop_step OneClient.stopping w' →
    stop_rank (cw_phase w') < stop_rank (cw_phase OneClient.stopping)).
Proof.
  split; [reflexivity|]. intros w' Hs.
  apply (client_stops OneClient.handle "a" false OneClient.stopping OneClient.stopping_reachable).
  - reflexivity.
  - exact Hs.
Defined.
