(* ===== verification/ProxyHandler.v ===== *)
(** * ProxyHandler: an HTTP request travels to the agent and back

    Models [src/internal/api/http/handler/proxy.go] and states what the whole
    path preserves: the handler turns the HTTP request into a message, the
    agent's [RequestHandler] turns the message into a request to the local
    service, and the response comes back the same way.  [c.ContentType()] is
    gin's, and a parameter. *)
From stdpp Require Import base strings list gmap fin_maps.
From Stdlib Require Import ZArith Lia Ascii.
From S2P Require Import Prelude GoStd Proto Http RequestHandler GrpcClient.
From S2P Require Import ServerInterface ConnectionManager GrpcServer Logging.

(** ** The code *)

(** [c.Request], with the result of reading its body. *)
Record Request : Type := mkRequest {
  r_Method : string;
  r_Path : string;              (** [URL.Path], decoded *)
  r_RawQuery : string;
  r_Header : Header;
  r_Body : result bytes;
}.

(** What the handler writes: [c.JSON] with an ["error"] field, or the response. *)
Inductive reply_body : Type :=
  | JSONError (msg : string)
  | RawBody (b : bytes).

Record Reply : Type := mkReply {
  rep_Status : Z;
  rep_Header : Header;
  rep_Body : reply_body;
}.

Definition json_error (status : Z) (msg : string) : Reply := mkReply status ∅ (JSONError msg).

Definition StatusOK : Z := 200.
Definition StatusNotFound : Z := 404.
Definition StatusInternalServerError : Z := 500.
Definition StatusGatewayTimeout : Z := 504.

Section Code.
Context {S : Type} `{AgentServerOps S} (ContentType : Header → string).
Notation Srv := (Server S).

(** [requestMsg] *)
Definition request_metadata (r : Request) (targetPath : string) : gmap string string :=
  {["method" := r_Method r; "path" := targetPath; "query" := r_RawQuery r;
    "content_type" := ContentType (r_Header r)]}.

Definition request_message (uuid : string) (r : Request) (targetPath : string) (body : bytes) :
    ProxyMessage :=
  mkMsg uuid MessageType_REQUEST body
    (header_keys (first_values (r_Header r)) ∪ request_metadata r targetPath).

(** [statusCode] *)
Definition reply_status (response : ProxyMessage) : Z :=
  match Metadata response !! "status_code" with
  | Some statusStr =>
      match Atoi statusStr with
      | (code, None) => code
      | (_, Some _) => StatusOK
      end
  | None => StatusOK
  end.

(** The body of the loop over the response's metadata: which header a key sets. *)
Definition response_header_name (key value : string) : option string :=
  if bool_decide (key ≠ "status_code") && bool_decide (0 < String.length value)
  then Some (if bool_decide (7 < String.length key) && HasPrefix key "header_"
             then drop_string 7 key else key)
  else None.

(** [order]: the order in which the response's metadata is visited. *)
Definition reply_of (response : ProxyMessage) (order : list string) : Reply :=
  mkReply (reply_status response)
          (set_all response_header_name (Metadata response) order ∅)
          (RawBody (Payload response)).

(** [between], [others]: what the rest of the program does while the goroutine is
    inside [SendToAgent], and while it waits for the response. *)
Definition forwardRequest (uuid : string) (send : select_case) (between : ProxyMessage → Srv → Srv)
    (others : ProxyMessage → M Srv unit) (wait : wait_case) (order : ProxyMessage → list string) (agentID targetPath : string)
    (r : Request) : M Srv Reply :=
  found ← in_cm (GetConnection agentID);
  match found with
  | None => mret (json_error StatusNotFound "agent not found")
  | Some conn =>
      match r_Body r with
      | Err _ => mret (json_error StatusInternalServerError "failed to read request body")
      | Ok body =>
          let requestMsg := request_message uuid r targetPath body in
          response ← SendRequestToAgent send (between requestMsg) (others requestMsg) wait (ID conn) requestMsg;
          match response with
          | Err e => mret (json_error StatusGatewayTimeout (Error e))
          | Ok resp => mret (reply_of resp (order resp))
          end
      end
  end.

Definition ProxyRequestDirect (uuid : string) (send : select_case) (between : ProxyMessage → Srv → Srv)
    (others : ProxyMessage → M Srv unit) (wait : wait_case) (order : ProxyMessage → list string)
    (agentID : string) (r : Request) : M Srv Reply :=
  forwardRequest uuid send between others wait order agentID (r_Path r) r.

(** What the request logger reads of a request from [ip]. *)
Definition logged_request (ip : string) (r : Request) : LoggedRequest :=
  mkLogged (r_Method r) (r_Path r) (r_RawQuery r) ip.

(** The engine of an agent's own server: it has no routes, so every request goes to
    the [NoRoute] handler, inside the request logger and gin's recovery.  The rest of
    the program only changes the server's state here: gin's [recover] is for the panics
    of the handler's own goroutine, and a panic elsewhere ends the process. *)
Definition createAgentEngine (ip latency uuid : string) (send : select_case)
    (between others : ProxyMessage → Srv → Srv) (wait : wait_case) (order : ProxyMessage → list string)
    (agentID : string) (r : Request) : M (Srv * Logger) Reply :=
  RequestLogger rep_Status (logged_request ip r) latency
    (recovered (λ _, mkReply StatusInternalServerError ∅ (RawBody ""))
       (ProxyRequestDirect uuid send between (λ m, modify (others m)) wait order agentID r)).
End Code.

(** ** Facts *)

Section Facts.
Context (ContentType : Header → string).

Lemma request_metadata_plain r path s :
  is_Some (request_metadata ContentType r path !! s) → HasPrefix s "header_" = false.
Proof.
  unfold request_metadata. intros [v Hv].
  apply lookup_insert_Some in Hv as [[<- _]|[_ Hv]]; [done|].
  apply lookup_insert_Some in Hv as [[<- _]|[_ Hv]]; [done|].
  apply lookup_insert_Some in Hv as [[<- _]|[_ Hv]]; [done|].
  by apply lookup_singleton_Some in Hv as [<- _].
Qed.

Lemma request_message_plain uuid r path body s :
  HasPrefix s "header_" = false →
  Metadata (request_message ContentType uuid r path body) !! s = request_metadata ContentType r path !! s.
Proof. intros Hs. by apply meta_plain. Qed.

Lemma request_message_header uuid r path body k :
  Metadata (request_message ContentType uuid r path body) !! ("header_" +:+ k)%string
  = first_values (r_Header r) !! k.
Proof. apply meta_header. intros s. apply request_metadata_plain. Qed.

Lemma first_values_canonical h k :
  canonical_header h → is_Some (first_values h !! k) → CanonicalMIMEHeaderKey k = k.
Proof.
  intros Hc. rewrite first_values_lookup. intros [v Hv]. apply Hc.
  destruct (h !! k); [by eexists|done].
Qed.
End Facts.

Lemma drop_header k : drop_string 7 ("header_" +:+ k)%string = k.
Proof. apply (drop_string_app "header_"). Qed.

Lemma response_message_meta id resp body :
  Metadata (response_message id resp body) !! "status_code" = Some (Itoa (StatusCode resp)) ∧
  (∀ k, Metadata (response_message id resp body) !! ("header_" +:+ k)%string
        = first_values (resp_Header resp) !! k) ∧
  (∀ key v, Metadata (response_message id resp body) !! key = Some v →
     key = "status_code" ∨ ∃ k, key = ("header_" +:+ k)%string).
Proof.
  split_and!.
  - unfold response_message. simpl. by rewrite meta_plain.
  - intros k. apply meta_header. intros s. by intros [v [<- _]%lookup_singleton_Some].
  - intros key v. simpl. intros [Hk|Hk]%lookup_union_Some_raw.
    + right. unfold header_keys in Hk. apply lookup_kmap_Some in Hk as (k & -> & _); [eauto|apply _].
    + left. destruct Hk as [_ Hk]. by apply lookup_singleton_Some in Hk as [<- _].
Qed.

(** The name the reply gives to a header of the local service. *)
Lemma response_header_name_header k v :
  k ≠ "" → response_header_name ("header_" +:+ k)%string v = if decide (v = "") then None else Some k.
Proof.
  intros Hk. unfold response_header_name.
  assert (7 < String.length ("header_" +:+ k)) as Hlen.
  { rewrite string_length_app. destruct k; [done|]. simpl. lia. }
  rewrite (bool_decide_eq_true_2 (_ ≠ "status_code")) by (intros E; by injection E).
  rewrite (bool_decide_eq_true_2 _ Hlen), HasPrefix_app, drop_header.
  destruct (decide (v = "")) as [->|Hv]; [done|]. rewrite bool_decide_eq_true_2; [done|].
  destruct v; [done|]. simpl. lia.
Qed.

(** The headers of a reply are the first values of the local service's headers,
    the empty ones left out. *)
Lemma reply_headers resp id body order n :
  canonical_header (resp_Header resp) → resp_Header resp !! "" = None →
  order ≡ₚ keys (Metadata (response_message id resp body)) →
  rep_Header (reply_of (response_message id resp body) order) !! n =
    match resp_Header resp !! n ≫= head with
    | Some v => if decide (v = "") then None else Some [v]
    | None => None
    end.
Proof.
  intros Hcan Hne Ho. destruct (response_message_meta id resp body) as (_ & Hh & Hkeys).
  set (msg := response_message id resp body) in *.
  assert (∀ key v, target response_header_name (Metadata msg) n key v →
    key = ("header_" +:+ n)%string ∧ first_values (resp_Header resp) !! n = Some v ∧ v ≠ "") as Htgt.
  { intros key v (Hm & n' & Hn & Hc). destruct (Hkeys _ _ Hm) as [->|[k ->]]; [done|].
    rewrite Hh in Hm. assert (k ≠ "") as Hk.
    { intros ->. rewrite first_values_lookup, Hne in Hm. done. }
    rewrite response_header_name_header in Hn by done. case_decide; [done|]. injection Hn as <-.
    rewrite (first_values_canonical (resp_Header resp)) in Hc by (done || by eexists).
    by subst n. }
  rewrite <- first_values_lookup. simpl.
  destruct (first_values (resp_Header resp) !! n) as [v|] eqn:E.
  - assert (n ≠ "") as Hn by (intros ->; rewrite first_values_lookup, Hne in E; done).
    case_decide as Hv.
    + rewrite set_all_other; [done|]. intros key v' _ Ht. destruct (Htgt _ _ Ht) as (_ & ? & ?). congruence.
    + eapply (set_all_hit _ _ _ _ _ ("header_" +:+ n)%string).
      * eapply order_visits; [done|]. by rewrite Hh.
      * split; [by rewrite Hh|]. exists n. rewrite response_header_name_header by done.
        rewrite decide_False by done. split; [done|]. eapply first_values_canonical; [done|by eexists].
      * intros key' v' Ht. by destruct (Htgt _ _ Ht).
  - rewrite set_all_other; [done|]. intros key v _ Ht. destruct (Htgt _ _ Ht) as (_ & ? & _). congruence.
Qed.

(** ** Properties *)

(** C28: the request reaches the local service as the client made it: the method,
    the body, the decoded path and the query are those of the HTTP request, and
    every header arrives with its first value (values after the first are
    dropped), except that [Content-Type] is gin's [c.ContentType()] when that is
    not empty.  The order in which the agent visits the metadata does not
    matter, and no header can overwrite the method, path or query. *)
Theorem request_forwarded ContentType rh uuid r path body order :
  canonical_header (r_Header r) →
  order ≡ₚ keys (Metadata (request_message ContentType uuid r path body)) →
  let o := outgoing rh (request_message ContentType uuid r path body) order in
  o_Method o = r_Method r ∧ o_Body o = body ∧
  o_URL o = (localURL rh +:+ path +:+ (if decide (r_RawQuery r = "") then "" else "?" +:+ r_RawQuery r))%string ∧
  ∀ n, o_Header o !! n =
    if decide (n = "Content-Type" ∧ ContentType (r_Header r) ≠ "")
    then Some [ContentType (r_Header r)]
    else (λ v, [v]) <$> (r_Header r !! n ≫= head).
Proof.
  intros Hcan Ho. cbv zeta. set (msg := request_message ContentType uuid r path body) in *.
  assert (∀ s, HasPrefix s "header_" = false →
    Metadata msg !! s = request_metadata ContentType r path !! s) as Hp by apply request_message_plain.
  assert (∀ s v, HasPrefix s "header_" = false → request_metadata ContentType r path !! s = Some v →
    map_get (Metadata msg) s = v) as Hg.
  { intros s v Hs Hv. unfold map_get. by rewrite Hp, Hv. }
  split_and!.
  - by apply Hg.
  - done.
  - unfold outgoing, target_url. cbn [o_URL]. cbv zeta.
    rewrite (Hg "path" path), (Hg "query" (r_RawQuery r)) by done.
    case_decide; simpl; [by rewrite string_app_nil_r|].
    by rewrite !string_app_assoc.
  - intros n. unfold outgoing, request_headers. cbn [o_Header]. cbv zeta.
    rewrite (Hp "content_type") by done. change (request_metadata _ _ _ !! "content_type")
      with (Some (ContentType (r_Header r))). cbv beta iota.
    assert (set_all request_header_name (Metadata msg) order ∅ !! n
            = (λ v, [v]) <$> (r_Header r !! n ≫= head)) as Hset.
    { rewrite <- first_values_lookup. apply request_headers_lookup; [done| |].
      - apply request_message_header.
      - intros k. by apply first_values_canonical. }
    destruct (decide (ContentType (r_Header r) = "")) as [E|E].
    + rewrite decide_False by naive_solver. done.
    + unfold Header_Set. change (CanonicalMIMEHeaderKey "Content-Type") with "Content-Type".
      destruct (decide (n = "Content-Type")) as [->|Hn].
      * rewrite lookup_insert_eq, decide_True by done. done.
      * rewrite lookup_insert_ne, decide_False by naive_solver. done.
Qed.

(** C29: the local service's response reaches the HTTP client: its status, its body
    and the first, non-empty, value of every header, and no other header. *)
Theorem response_forwarded id resp body order :
  canonical_header (resp_Header resp) → resp_Header resp !! "" = None →
  (min_int64 ≤ StatusCode resp ≤ max_int64)%Z →
  order ≡ₚ keys (Metadata (response_message id resp body)) →
  let rep := reply_of (response_message id resp body) order in
  rep_Status rep = StatusCode resp ∧ rep_Body rep = RawBody body ∧
  ∀ n, rep_Header rep !! n =
    match resp_Header resp !! n ≫= head with
    | Some v => if decide (v = "") then None else Some [v]
    | None => None
    end.
Proof.
  intros Hcan Hne Hst Ho. cbv zeta. destruct (response_message_meta id resp body) as (Hs & _).
  split_and!.
  - simpl. unfold reply_status. rewrite Hs. by rewrite Itoa_Atoi.
  - done.
  - intros n. by apply reply_headers.
Qed.

Section EndToEnd.
Context {S : Type} `{AgentServerSpec S} (ContentType : Header → string).

Lemma GetConnection_run a (s : Server S) :
  in_cm (GetConnection a) s =
    Ret match agents (connManager s) !! a with
        | Some ptr => conns (connManager s) !! ptr
        | None => None
        end s.
Proof. unfold in_cm, zoom, GetConnection, gets. destruct s. simpl. by case_match. Qed.

Lemma SendToAgent_sends a ptr c msg (cm : ConnectionManager S) :
  cm_ok cm → agents cm !! a = Some ptr → conns cm !! ptr = Some c →
  length (ch_buf (SendCh c)) < sendChannelBuffer →
  SendToAgent CaseSend a msg cm = Ret (Ok ()) (set_conns (<[ptr := queued msg c]> (conns cm)) cm).
Proof.
  intros Hok Ha Hc Hlen. destruct (co_agent _ Hok _ _ Ha) as (c' & Hc' & _ & _ & Hcl).
  rewrite Hc in Hc'. injection Hc' as <-. destruct (co_buf _ Hok _ _ Hc) as [Hcap _].
  unfold SendToAgent, SendToAgent_lookup, SendToAgent_select, mbind, M_bind, get, mret, M_ret.
  rewrite Ha. unfold on_conn. rewrite Hc. unfold zoom, ch_send, ch_full.
  rewrite Hcl, Hcap, bool_decide_eq_false_2 by lia. done.
Qed.

(** What the agent does with the messages it is sent, as far as one request is
    concerned: it answers it. *)
Definition agent_answers (rh : RequestHandler) (order : ProxyMessage → list string)
    (msg : ProxyMessage) : M (Server S) unit :=
  HandleResponse (answer (HandleRequest rh (order msg)) msg).

Lemma unregister_always {A} (m : M (Server S) A) msg (s s' : Server S) :
  (∃ a, deferred (unregister_pending msg) m s = Ret a s') ∨
  (∃ e, deferred (unregister_pending msg) m s = Panic e s') → pendingRequests s' !! Id msg = None.
Proof.
  unfold deferred, unregister_pending, modify, mbind, M_bind, mret, M_ret, panic.
  destruct (m s) as [a s1|e s1|s1]; intros [[x E]|[x E]]; simplify_eq; simpl; apply lookup_delete_eq.
Qed.

(** Where a goroutine of a request can be stuck: in the [select] of [SendToAgent] on a
    case that is not ready, or in the last [select] with no response there. *)
Definition stuck_at (send : select_case) (wait : wait_case) (agentID : string) (msg : ProxyMessage) : Prop :=
  (send ≠ CaseTimeout ∧ ∃ ptr (s1 s2 : Server S), in_cm (SendToAgent_select send agentID ptr msg) s1 = Block s2) ∨
  (wait = WaitResponse ∧ ∃ ch (s1 s2 : Server S), wait_response WaitResponse ch s1 = Block s2).

(** A request that is answered leaves the pending table, also by a panic. *)
Lemma forward_cleans_up uuid send between others wait order agentID r (s : Server S) :
  cm_ok (connManager s) → pendingRequests s !! uuid = None →
  match ProxyRequestDirect ContentType uuid send between (λ m, modify (others m)) wait order agentID r s with
  | Ret _ s' | Panic _ s' => pendingRequests s' !! uuid = None
  | Block _ => ∃ body, r_Body r = Ok body ∧
      stuck_at send wait agentID (request_message ContentType uuid r (r_Path r) body)
  end.
Proof.
  intros Hok Hu. unfold ProxyRequestDirect, forwardRequest, mbind, M_bind. rewrite GetConnection_run.
  destruct (agents (connManager s) !! agentID) as [ptr|] eqn:Ha; [|done].
  destruct (co_agent _ Hok _ _ Ha) as (c & Hc & Hid & _). rewrite Hc, Hid. destruct (r_Body r) as [body|]; [|done].
  set (msg := request_message _ _ _ _ _).
  unfold SendRequestToAgent, register_pending, get, put, mret, M_ret, mbind, M_bind.
  destruct (deferred (unregister_pending msg) _ _) as [[resp|e] s'|e s'|s'] eqn:E;
    [eapply (unregister_always _ msg); first [left; by eexists|right; by eexists]..|].
  exists body. split; [done|]. unfold deferred, try, mbind, M_bind in E.
  destruct (SendToAgent_among _ _ _ _ _) as [[u|e] s1|e s1|s1] eqn:E1.
  - unfold modify in E. simpl in E.
    destruct (wait_response wait (next_ch s) (others msg s1)) as [x s2|x s2|s2] eqn:E2; [done..|].
    right. destruct wait; [split; [done|by eauto]|done..].
  - done.
  - done.
  - left. unfold SendToAgent_among, SendToAgent_lookup, in_cm, zoom, mbind, M_bind, get, mret, M_ret in E1. simpl in E1.
    rewrite Ha in E1. unfold modify in E1. simpl in E1. split.
    + intros ->. unfold SendToAgent_select, on_conn, mret, M_ret in E1. by repeat case_match.
    + eexists ptr, _, s1. exact E1.
Qed.


(** C2: end to end, through the gRPC server and the agent.  For a registered agent
    with room in its send channel, [ProxyRequestDirect] queues the request on the
    agent's connection, and when the agent answers it the HTTP client gets what
    the local service said; if the agent cannot reach the service, the client
    gets a 502 with the reason.  The pending entry is gone afterwards. *)
Theorem proxy_end_to_end rh order1 order2 uuid agentID r body ptr c (s : Server S) :
  cm_ok (connManager s) → agents (connManager s) !! agentID = Some ptr →
  conns (connManager s) !! ptr = Some c → length (ch_buf (SendCh c)) < sendChannelBuffer →
  r_Body r = Ok body →
  let msg := request_message ContentType uuid r (r_Path r) body in
  let result := HandleRequest rh (order1 msg) msg in
  ∃ rep s', ProxyRequestDirect ContentType uuid CaseSend (λ _, id) (agent_answers rh order1) WaitResponse order2
      agentID r s = Ret rep s' ∧
    conns (connManager s') !! ptr = Some (queued msg c) ∧
    pendingRequests s' = delete uuid (pendingRequests s) ∧
    (∀ resp, result = Ok resp → rep = reply_of resp (order2 resp)) ∧
    (∀ e, result = Err e → rep_Status rep = 502%Z ∧ rep_Body rep = RawBody (Error e)).
Proof.
  intros Hok Ha Hc Hlen Hb. cbv zeta. set (msg := request_message ContentType uuid r (r_Path r) body).
  destruct (co_agent _ Hok _ _ Ha) as (c' & Hc' & Hid & _). rewrite Hc in Hc'. injection Hc' as <-.
  set (ans := answer (HandleRequest rh (order1 msg)) msg).
  assert (Id ans = Id msg) as Eid by apply answer_shape.
  set (s1 := mkServer (connManager s) (<[Id msg := next_ch s]> (pendingRequests s))
       (<[next_ch s := make_chan 1]> (respChs s)) (Datatypes.S (next_ch s))).
  destruct (SendRequestToAgent_exchange s
    (set_connManager (set_conns (<[ptr := queued msg c]> (conns (connManager s))) (connManager s)) s1)
    CaseSend agentID msg ans) as (s' & Erun & Ep & Ecm).
  { fold s1. unfold in_cm, zoom.
    by rewrite (SendToAgent_sends agentID ptr c msg (connManager s1) Hok Ha Hc Hlen). }
  { done. }
  exists (reply_of ans (order2 ans)), s'. split.
  - unfold ProxyRequestDirect, forwardRequest, in_cm, GetConnection, gets, mbind, M_bind, zoom.
    rewrite Ha. simpl. rewrite Hc, Hb. fold msg. rewrite Hid.
    assert (set_connManager (connManager s) s = s) as -> by by destruct s.
    unfold agent_answers. fold ans. cbv beta. by rewrite Erun.
  - rewrite Ecm. simpl. rewrite lookup_insert_eq. split_and!; try done.
    + intros resp Er. unfold ans, answer. by rewrite Er.
    + intros e Ee. unfold ans, answer. rewrite Ee. done.
Qed.

(** The handler's own answers: an agent that is not connected is a 404, an
    unreadable body a 500, and every failure to get a response (the agent gone or
    its channel full, a timeout, a cancelled request) a 504 that leaves no
    pending entry. *)
Theorem proxy_errors uuid send wait order agentID r (s : Server S) :
  cm_ok (connManager s) →
  match agents (connManager s) !! agentID with
  | None => ProxyRequestDirect ContentType uuid send (λ _, id) (λ _, mret ()) wait order agentID r s
            = Ret (json_error StatusNotFound "agent not found") s
  | Some ptr =>
      match r_Body r with
      | Err _ => ProxyRequestDirect ContentType uuid send (λ _, id) (λ _, mret ()) wait order agentID r s
                 = Ret (json_error StatusInternalServerError "failed to read request body") s
      | Ok body =>
          match ProxyRequestDirect ContentType uuid send (λ _, id) (λ _, mret ()) wait order agentID r s with
          | Ret rep s' => rep_Status rep = StatusGatewayTimeout ∧
              pendingRequests s' = delete uuid (pendingRequests s) ∧
              agents (connManager s') = agents (connManager s)
          | Panic _ _ => False
          | Block _ => send ≠ CaseTimeout
          end
      end
  end.
Proof.
  intros Hok. unfold ProxyRequestDirect, forwardRequest.
  destruct (agents (connManager s) !! agentID) as [ptr|] eqn:Ha.
  2:{ unfold mbind, M_bind. by rewrite GetConnection_run, Ha. }
  destruct (co_agent _ Hok _ _ Ha) as (c & Hc & Hid & _).
  assert (in_cm (GetConnection agentID) s = Ret (Some c) s) as Eg by by rewrite GetConnection_run, Ha, Hc.
  destruct (r_Body r) as [body|e]; [|unfold mbind, M_bind; by rewrite Eg].
  unfold mbind, M_bind. rewrite Eg, Hid.
  set (msg := request_message _ _ _ _ _).
  unfold SendRequestToAgent, register_pending, deferred, try, get, put, mret, M_ret, mbind, M_bind, in_cm, zoom.
  simpl. rewrite SendToAgent_alone. unfold in_cm, zoom. simpl.
  pose proof (SendToAgent_spec send agentID msg (connManager s) Hok) as Hs.
  destruct (SendToAgent send agentID msg (connManager s)) as [[[]|e] cm'| |] eqn:Esend; simpl.
  - destruct Hs as (_ & ptr' & c' & _ & _ & _ & ->).
    destruct wait as [| |e]; simpl.
    + unfold mbind, M_bind, on_chan. simpl. rewrite lookup_insert_eq. simpl.
      intros ->. unfold SendToAgent, SendToAgent_lookup, SendToAgent_select, mbind, M_bind, get, mret, M_ret in Esend.
      rewrite Ha in Esend. unfold on_conn in Esend. by rewrite Hc in Esend.
    + by rewrite delete_insert_eq.
    + by rewrite delete_insert_eq.
  - rewrite delete_insert_eq. split; [done|]. split; [done|]. destruct Hs as [_ Hs]. naive_solver.
  - done.
  - intros ->. unfold SendToAgent, SendToAgent_lookup, SendToAgent_select, mbind, M_bind, get, mret, M_ret in Esend.
    rewrite Ha in Esend. unfold on_conn in Esend. by rewrite Hc in Esend.
Qed.
End EndToEnd.

(** The agent rebuilds the URL from the DECODED path: a request whose path
    contains an encoded question mark is sent to the same URL as the request in
    which what follows is the query, so the local service cannot tell
    [/a%3Fq] from [/a?q]. *)
Theorem encoded_path_is_not_preserved ContentType rh uuid m h path q body order1 order2 :
  let plain := mkRequest m path q h (Ok body) in
  let encoded := mkRequest m (path +:+ "?" +:+ q)%string "" h (Ok body) in
  q ≠ "" →
  o_URL (outgoing rh (request_message ContentType uuid encoded (r_Path encoded) body) order1) =
  o_URL (outgoing rh (request_message ContentType uuid plain (r_Path plain) body) order2).
Proof.
  cbv zeta. intros Hq. unfold outgoing, target_url, map_get. simpl.
  rewrite !meta_plain by done. simpl. rewrite (decide_True (P := "" = "")) by done.
  rewrite decide_False by done.
  change (localURL rh +:+ (path +:+ "?" +:+ q) = (localURL rh +:+ path) +:+ "?" +:+ q).
  by rewrite !string_app_assoc.
Qed.

(** ** Witnesses: GET /x?k=v with one header *)
Module OneCall.
Definition ct (h : Header) : string := "text/plain".
Definition hdr : Header := {["Accept" := ["a"; "b"]; "X-Empty" := []]}.
Definition r : Request := mkRequest "GET" "/x" "k=v" hdr (Ok "body").
Definition resp : Response := mkResponse 201 {["Server" := ["s"]]} (Ok "done").
Definition rh : RequestHandler := mkRH "http://local" (mkHttpEnv (λ _ _, None) (λ _, Ok resp)).
Definition order (m : ProxyMessage) : list string := keys (Metadata m).
Definition msg : ProxyMessage := request_message ct "u" r "/x" "body".

Lemma hdr_canonical : canonical_header hdr.
Proof.
  intros k [v Hv]. unfold hdr in Hv. apply lookup_insert_Some in Hv as [[<- _]|[_ Hv]]; [reflexivity|].
  apply lookup_singleton_Some in Hv as [<- _]. reflexivity.
Qed.
Lemma resp_canonical : canonical_header (resp_Header resp).
Proof. intros k [v Hv]. unfold resp in Hv. simpl in Hv. apply lookup_singleton_Some in Hv as [<- _]. reflexivity. Qed.
End OneCall.

Lemma request_forwarded_witness :
  o_URL (outgoing OneCall.rh OneCall.msg (OneCall.order OneCall.msg)) = "http://local/x?k=v" ∧
  o_Header (outgoing OneCall.rh OneCall.msg (OneCall.order OneCall.msg)) !! "Accept" = Some ["a"].
Proof.
  destruct (request_forwarded OneCall.ct OneCall.rh "u" OneCall.r "/x" "body" (OneCall.order OneCall.msg))
    as (_ & _ & Hurl & Hh).
  - exact OneCall.hdr_canonical.
  - reflexivity.
  - split; [exact Hurl|]. exact (Hh "Accept").
Defined.

Lemma response_forwarded_witness :
  rep_Status (reply_of (response_message "u" OneCall.resp "done")
    (OneCall.order (response_message "u" OneCall.resp "done"))) = 201%Z.
Proof.
  apply (response_forwarded "u" OneCall.resp "done"
    (OneCall.order (response_message "u" OneCall.resp "done"))).
  - exact OneCall.resp_canonical.
  - reflexivity.
  - vm_compute. split; discriminate.
  - reflexivity.
Defined.

Lemma proxy_end_to_end_witness :
  ∃ rep s', ProxyRequestDirect OneCall.ct "u" CaseSend (λ _, id) (agent_answers OneCall.rh OneCall.order)
      WaitResponse OneCall.order "a" OneCall.r (mkServer OnePort.cm1 ∅ ∅ 0) = Ret rep s' ∧
    pendingRequests s' = delete "u" ∅.
Proof.
  destruct (proxy_end_to_end OneCall.ct OneCall.rh OneCall.order OneCall.order "u" "a" OneCall.r "body"
    0 (new_conn "a" 7 0 8100) (mkServer OnePort.cm1 ∅ ∅ 0)) as (rep & s' & Hrun & _ & Hp & _).
  - exact OnePort.cm1_ok.
  - reflexivity.
  - reflexivity.
  - vm_compute. lia.
  - reflexivity.
  - exists rep, s'. split; [exact Hrun|exact Hp].
Defined.

Lemma proxy_errors_witness :
  ProxyRequestDirect OneCall.ct "u" CaseSend (λ _, id) (λ _, mret ()) WaitTimeout OneCall.order "zz" OneCall.r
    (mkServer OnePort.cm1 ∅ ∅ 0)
  = Ret (json_error StatusNotFound "agent not found") (mkServer OnePort.cm1 ∅ ∅ 0).
Proof.
  exact (proxy_errors OneCall.ct "u" CaseSend WaitTimeout OneCall.order "zz" OneCall.r
    (mkServer OnePort.cm1 ∅ ∅ 0) OnePort.cm1_ok).
Defined.

Lemma encoded_path_is_not_preserved_witness :
  o_URL (outgoing OneCall.rh (request_message OneCall.ct "u" (mkRequest "GET" "/a?q" "" ∅ (Ok "")) "/a?q" "") []) =
  o_URL (outgoing OneCall.rh (request_message OneCall.ct "u" (mkRequest "GET" "/a" "q" ∅ (Ok "")) "/a" "") []).
Proof.
  apply (encoded_path_is_not_preserved OneCall.ct OneCall.rh "u" "GET" ∅ "/a" "q" "" [] []).
  discriminate.
Defined.

(** The agent is dropped between the lookup and the send: the send panics, and the
    client gets a 500. *)
Definition deregistered (s : Server (option string)) : Server (option string) :=
  match in_cm (Deregister "a") s with Ret _ s' | Panic _ s' | Block s' => s' end.

