(* ===== verification/Forwarding.v ===== *)
(** * The whole proxy: server, streams and agents together

    Composes [SendRequestToAgent] (GrpcServer.v), the stream handlers
    (StreamHandler.v) and any number of agent processes (GrpcClient.v), over a
    network that may delay and lose what is sent, and relates the whole to a remote
    call: [spec_step] is what an HTTP client may rely on, [net_step] what the three
    programs do, and the refinement theorem says that nothing else happens, however
    requests, reconnections, sweeps and failures interleave.

    A message in flight is not a part of the state of its own: what a stream of the
    server may receive is what the client at its other end has sent ([c_wire]), and
    what an agent receives is the next message its stream's handler has sent
    ([h_sent]).  A call of a local service is counted where the client makes it: in
    the step of [handleRequest] (GrpcClient.v), by what [HandleRequest_do]
    (RequestHandler.v) sends ([c_calls]). *)
From stdpp Require Import base strings list gmap fin_maps relations.
From Stdlib Require Import ZArith Lia.
From S2P Require Import Prelude GoStd Proto Http RequestHandler GrpcClient.
From S2P Require Import ServerInterface ConnectionManager GrpcServer StreamHandler.

(** ** The composition *)

(** A request that has reached an agent, in a goroutine of its own: which agent process
    it reached, as which message of which stream. *)
Record delivery : Type := mkDelivery {
  dl_agent : nat;
  dl_stream : nat;
  dl_pos : nat;
  dl_msg : ProxyMessage;
}.

Section Code.
Context {S : Type} `{AgentServerOps S}.
(** The agent processes: their configured names, TLS and local URLs.  What the
    local service of process [k] does with the call for a message, and the order in
    which the message's metadata is visited, are functions of the message: no
    message is handled twice ([one_call_per_request] below), so they stand for any
    service. *)
Context (ids : nat → string) (tls : nat → bool) (urls : nat → string).
Context (serve : nat → ProxyMessage → HttpEnv) (order : nat → ProxyMessage → list string).

Definition agent_handle (k : nat) (msg : ProxyMessage) : list Outgoing * result ProxyMessage :=
  HandleRequest_do (mkRH (urls k) (serve k msg)) (order k msg) msg.

(** What agent process [k] sends to its local service for a request: a call, or none
    when it can make none of the request; and what it answers. *)
Definition local_requests (k : nat) (msg : ProxyMessage) : list Outgoing := (agent_handle k msg).1.
Definition agent_reply (k : nat) (msg : ProxyMessage) : ProxyMessage :=
  answer (λ m, (agent_handle k m).2) msg.

Record net : Type := mkNet {
  n_world : @world S;
  n_requests : gmap nat request;
  n_asked : gmap nat (string * ProxyMessage);      (** what each HTTP goroutine was called with *)
  n_agents : gmap nat client_world;
  n_links : gmap nat (nat * nat);                  (** server stream to agent process and its stream *)
  n_got : gmap nat nat;                            (** how far the agent has read a server stream *)
  n_delivered : list delivery;                     (** which requests have reached an agent *)
}.

Definition net_init (asm : option S) : net := mkNet (w_init asm) ∅ ∅ ∅ ∅ ∅ [].

(** What a stream of the server may receive. *)
Definition input (ln : gmap nat (nat * nat)) (ag : gmap nat client_world) (i : nat) (m : ProxyMessage) :
    Prop :=
  ∃ k s cw, ln !! i = Some (k, s) ∧ ag !! k = Some cw ∧ (s, m) ∈ c_wire (cw_client cw).

Inductive net_step : net → net → Prop :=
  (* SendRequestToAgent, in the goroutine of an HTTP request *)
  | f_call w rq ak ag ln gt cl t a msg :
      rq !! t = None → Type_ msg = MessageType_REQUEST →
      (∀ t' x, ak !! t' = Some x → Id x.2 ≠ Id msg) →
      net_step (mkNet w rq ak ag ln gt cl)
               (mkNet w (<[t := RStart a msg]> rq) (<[t := (a, msg)]> ak) ag ln gt cl)
  | f_register s s' hs sn q rq ak ag ln gt cl t a msg ch :
      rq !! t = Some (RStart a msg) → register_pending msg s = Ret ch s' →
      net_step (mkNet (mkWorld s hs sn q) rq ak ag ln gt cl)
               (mkNet (mkWorld s' hs sn q) (<[t := RPending a msg ch]> rq) ak ag ln gt cl)
  | f_lookup s s' hs sn q rq ak ag ln gt cl t a msg ch ptr :
      rq !! t = Some (RPending a msg ch) → sn !! t = None →
      in_cm (SendToAgent_lookup a) s = Ret (Ok ptr) s' →
      net_step (mkNet (mkWorld s hs sn q) rq ak ag ln gt cl)
               (mkNet (mkWorld s' hs (<[t := (a, ptr, msg)]> sn) q) rq ak ag ln gt cl)
  | f_lookup_failed s s' hs sn q rq ak ag ln gt cl t a msg ch e :
      rq !! t = Some (RPending a msg ch) → sn !! t = None →
      in_cm (SendToAgent_lookup a) s = Ret (Err e) s' →
      net_step (mkNet (mkWorld s hs sn q) rq ak ag ln gt cl)
        (mkNet (mkWorld s' hs sn q)
           (<[t := RReturn msg ch (Err (Wrapf "failed to send request to agent" e))]> rq) ak ag ln gt cl)
  | f_send s s' hs sn q rq ak ag ln gt cl t a msg ch ptr choice :
      rq !! t = Some (RPending a msg ch) → sn !! t = Some (a, ptr, msg) →
      in_cm (SendToAgent_select choice a ptr msg) s = Ret (Ok ()) s' →
      net_step (mkNet (mkWorld s hs sn q) rq ak ag ln gt cl)
        (mkNet (mkWorld s' hs (delete t sn) (enqueue (Some (ptr, msg)) q))
           (<[t := RWait msg ch]> rq) ak ag ln gt cl)
  | f_send_failed s s' hs sn q rq ak ag ln gt cl t a msg ch ptr choice e :
      rq !! t = Some (RPending a msg ch) → sn !! t = Some (a, ptr, msg) →
      in_cm (SendToAgent_select choice a ptr msg) s = Ret (Err e) s' →
      net_step (mkNet (mkWorld s hs sn q) rq ak ag ln gt cl)
        (mkNet (mkWorld s' hs (delete t sn) q)
           (<[t := RReturn msg ch (Err (Wrapf "failed to send request to agent" e))]> rq) ak ag ln gt cl)
  (* the connection was dropped since the lookup: gin recovers the panic, after the
     deferred delete *)
  | f_send_panic s s' hs sn q rq ak ag ln gt cl t a msg ch ptr choice e :
      rq !! t = Some (RPending a msg ch) → sn !! t = Some (a, ptr, msg) →
      in_cm (SendToAgent_select choice a ptr msg) s = Panic e s' →
      net_step (mkNet (mkWorld s hs sn q) rq ak ag ln gt cl)
        (mkNet (mkWorld s' hs (delete t sn) q) (<[t := RReturn msg ch (Err (Errorf e))]> rq) ak ag ln gt cl)
  | f_wait s s' hs sn q rq ak ag ln gt cl t msg ch choice r :
      rq !! t = Some (RWait msg ch) → wait_response choice ch s = Ret r s' →
      net_step (mkNet (mkWorld s hs sn q) rq ak ag ln gt cl)
               (mkNet (mkWorld s' hs sn q) (<[t := RReturn msg ch r]> rq) ak ag ln gt cl)
  | f_return s s' hs sn q rq ak ag ln gt cl t msg ch r :
      rq !! t = Some (RReturn msg ch r) → unregister_pending msg s = Ret () s' →
      net_step (mkNet (mkWorld s hs sn q) rq ak ag ln gt cl)
               (mkNet (mkWorld s' hs sn q) (<[t := RDone msg ch r]> rq) ak ag ln gt cl)
  (* the stream handlers, the sweeper, Stop *)
  | f_server w w' rq ak ag ln gt cl :
      hstep (input ln ag) w w' →
      net_step (mkNet w rq ak ag ln gt cl) (mkNet w' rq ak ag ln gt cl)
  (* the agents *)
  | f_start w rq ak ag ln gt cl k :
      ag !! k = None →
      net_step (mkNet w rq ak ag ln gt cl) (mkNet w rq ak (<[k := cw_init (ids k) (tls k)]> ag) ln gt cl)
  | f_agent w rq ak ag ln gt cl k cw cw' :
      ag !! k = Some cw → cstep (agent_handle k) cw cw' → cw_reqs cw' ⊆ cw_reqs cw →
      net_step (mkNet w rq ak ag ln gt cl) (mkNet w rq ak (<[k := cw']> ag) ln gt cl)
  (* the network: a stream is accepted from a client, a message arrives at an
     agent that starts a goroutine for it, a message is lost or is none *)
  | f_link w rq ak ag ln gt cl i k s :
      ln !! i = None → (∀ i', ln !! i' ≠ Some (k, s)) →
      net_step (mkNet w rq ak ag ln gt cl) (mkNet w rq ak ag (<[i := (k, s)]> ln) gt cl)
  | f_request w rq ak ag ln gt cl i k s h p cw cw' u msg :
      ln !! i = Some (k, s) → w_handlers w !! i = Some h →
      default 0 (gt !! i) = p → h_sent h !! p = Some msg → Type_ msg = MessageType_REQUEST →
      ag !! k = Some cw → cstep (agent_handle k) cw cw' → cw_reqs cw !! u = None →
      cw_reqs cw' = <[u := msg]> (cw_reqs cw) →
      net_step (mkNet w rq ak ag ln gt cl)
        (mkNet w rq ak (<[k := cw']> ag) ln (<[i := Datatypes.S p]> gt) (mkDelivery k i p msg :: cl))
  | f_skip w rq ak ag ln gt cl i :
      net_step (mkNet w rq ak ag ln gt cl)
               (mkNet w rq ak ag ln (<[i := Datatypes.S (default 0 (gt !! i))]> gt) cl).

(** ** The specification: a remote call *)

(** An HTTP goroutine's exchange: with whom, what, the calls of local services that
    agent processes have made for it, and what the goroutine returns, if it has. *)
Record exchange : Type := mkEx {
  x_agentID : string;
  x_msg : ProxyMessage;
  x_calls : gmap nat (list Outgoing);
  x_result : option (result ProxyMessage);
}.

(** The calls [l], made by process [k] and no other. *)
Definition made_by (k : nat) (l : list Outgoing) : gmap nat (list Outgoing) :=
  match l with [] => ∅ | _ => {[k := l]} end.

(** An exchange begins with a new id; one call may be made for it, when there was none,
    by a process with the right name, whether or not somebody still waits; it ends
    once, with that process's answer when it has made the call (or could make none of
    the request), or with an error at any time. *)
Inductive spec_step : gmap nat exchange → gmap nat exchange → Prop :=
  | x_ask X t a msg :
      X !! t = None → (∀ t' x, X !! t' = Some x → Id (x_msg x) ≠ Id msg) →
      spec_step X (<[t := mkEx a msg ∅ None]> X)
  | x_call X t msg k o r :
      X !! t = Some (mkEx (ids k) msg ∅ r) → local_requests k msg = [o] →
      spec_step X (<[t := mkEx (ids k) msg {[k := [o]]} r]> X)
  | x_reply X t msg k :
      X !! t = Some (mkEx (ids k) msg (made_by k (local_requests k msg)) None) →
      spec_step X (<[t := mkEx (ids k) msg (made_by k (local_requests k msg))
                            (Some (Ok (agent_reply k msg)))]> X)
  | x_fail X t a msg c e :
      X !! t = Some (mkEx a msg c None) → spec_step X (<[t := mkEx a msg c (Some (Err e))]> X).

(** What an HTTP goroutine has to return. *)
Definition outcome_of (r : request) : option (result ProxyMessage) :=
  match r with
  | RReturn _ _ x | RDone _ _ x => Some x
  | _ => None
  end.

(** The calls of its local service that a client has made for the requests with an
    id, in order; those that the agent processes have made, by process. *)
Definition calls_of (cw : client_world) (id : string) : list Outgoing :=
  (filter (λ p, Id p.1 = id) (c_calls (cw_client cw))).*2.

Definition calls_for (ag : gmap nat client_world) (id : string) : gmap nat (list Outgoing) :=
  omap (λ cw, match calls_of cw id with [] => None | l => Some l end) ag.

(** The exchanges of a state. *)
Definition exchanges (n : net) : gmap nat exchange :=
  map_imap (λ t x, Some (mkEx x.1 x.2 (calls_for (n_agents n) (Id x.2)) (n_requests n !! t ≫= outcome_of)))
           (n_asked n).
End Code.

(** ** Invariants *)

Section Proofs.
Context {S : Type} `{AgentServerSpec S}.
Context (ids : nat → string) (tls : nat → bool) (urls : nat → string).
Context (serve : nat → ProxyMessage → HttpEnv) (order : nat → ProxyMessage → list string).
Notation net := (@net S).
Notation CM := (ConnectionManager S).
Notation net_step := (net_step ids tls urls serve order).
Notation spec_step := (spec_step ids urls serve order).
Notation agent_handle := (agent_handle urls serve order).
Notation agent_reply := (agent_reply urls serve order).
Notation local_requests := (local_requests urls serve order).

(** *** The requests *)

(** The agent a goroutine that has not queued its message will send it to. *)
Definition agent_is (r : request) (a : string) : Prop :=
  match r with RStart b _ | RPending b _ _ => b = a | _ => True end.

(** The goroutine may have queued its message. *)
Definition past (r : request) : Prop :=
  match r with RStart _ _ | RPending _ _ _ => False | _ => True end.

Record book_ok (rq : gmap nat request) (ak : gmap nat (string * ProxyMessage))
    (sn : gmap nat (string * nat * ProxyMessage)) : Prop := {
  bk_asked : ∀ t r, rq !! t = Some r → ∃ a, ak !! t = Some (a, msg_of r) ∧ agent_is r a;
  bk_dom : ∀ t x, ak !! t = Some x → is_Some (rq !! t);
  bk_inj : ∀ t1 t2 x1 x2, ak !! t1 = Some x1 → ak !! t2 = Some x2 → Id x1.2 = Id x2.2 → t1 = t2;
  bk_type : ∀ t x, ak !! t = Some x → Type_ x.2 = MessageType_REQUEST;
  bk_send : ∀ t a ptr m, sn !! t = Some (a, ptr, m) → ∃ ch, rq !! t = Some (RPending a m ch);
}.

Lemma book_ok_call rq ak sn t a msg :
  book_ok rq ak sn → rq !! t = None → Type_ msg = MessageType_REQUEST →
  (∀ t' x, ak !! t' = Some x → Id x.2 ≠ Id msg) →
  book_ok (<[t := RStart a msg]> rq) (<[t := (a, msg)]> ak) sn.
Proof.
  intros [A D I T Se] Ht Hty Hf. split.
  - intros t' r [[<- <-]|[Hne Hr]]%lookup_insert_Some; [exists a; by rewrite lookup_insert_eq|].
    rewrite lookup_insert_ne by done. auto.
  - intros t' x [[<- <-]|[Hne Hx]]%lookup_insert_Some; [by rewrite lookup_insert_eq; eexists|].
    rewrite lookup_insert_ne by done. by eapply D.
  - intros t1 t2 x1 x2 [[<- <-]|[_ H1]]%lookup_insert_Some [[<- <-]|[_ H2]]%lookup_insert_Some E;
      [done|by destruct (Hf _ _ H2)|by destruct (Hf _ _ H1)|by eapply I].
  - intros t' x [[<- <-]|[_ Hx]]%lookup_insert_Some; [done|by eapply T].
  - intros t' b ptr m Hs. destruct (Se _ _ _ _ Hs) as [ch Hch]. exists ch.
    rewrite lookup_insert_ne; [done|]. intros <-. congruence.
Qed.

(** A goroutine goes on; afterwards it is at the [select] only if [sn'] says so. *)
Lemma book_ok_advance rq ak sn sn' t r r' :
  book_ok rq ak sn → rq !! t = Some r → msg_of r' = msg_of r → (∀ a, agent_is r a → agent_is r' a) →
  (∀ t', t' ≠ t → sn' !! t' = sn !! t') →
  (∀ a ptr m, sn' !! t = Some (a, ptr, m) → ∃ ch, r' = RPending a m ch) →
  book_ok (<[t := r']> rq) ak sn'.
Proof.
  intros [A D I T Se] Ht Em Ha Hsn Hse. split; try done.
  - intros t' r0 [[<- <-]|[_ Hr]]%lookup_insert_Some; [|auto].
    destruct (A _ _ Ht) as (a & ? & ?). exists a. rewrite Em. auto.
  - intros t' x [r0 Hx]%D. destruct (decide (t = t')) as [<-|Hne]; [by rewrite lookup_insert_eq; eexists|].
    rewrite lookup_insert_ne by done. by eexists.
  - intros t' a ptr m Hs. destruct (decide (t = t')) as [<-|Hne].
    + destruct (Hse _ _ _ Hs) as [ch ->]. exists ch. by rewrite lookup_insert_eq.
    + rewrite Hsn in Hs by done. rewrite lookup_insert_ne by done. by eapply Se.
Qed.

(** *** The queues *)

Definition queued_at (q : gmap nat (list ProxyMessage)) (ptr p : nat) (m : ProxyMessage) : Prop :=
  default [] (q !! ptr) !! p = Some m.

Definition conn_of (cm : CM) (ptr : nat) (a : string) : Prop :=
  ∃ c, conns cm !! ptr = Some c ∧ ID c = a.

Record queue_ok (rq : gmap nat request) (ak : gmap nat (string * ProxyMessage))
    (sn : gmap nat (string * nat * ProxyMessage)) (q : gmap nat (list ProxyMessage)) (cm : CM) : Prop := {
  qk_from : ∀ ptr p m, queued_at q ptr p m → Type_ m = MessageType_PONG ∨
    ∃ t a r, ak !! t = Some (a, m) ∧ rq !! t = Some r ∧ past r ∧ conn_of cm ptr a;
  qk_once : ∀ ptr1 p1 ptr2 p2 m, queued_at q ptr1 p1 m → queued_at q ptr2 p2 m →
    Type_ m = MessageType_REQUEST → ptr1 = ptr2 ∧ p1 = p2;
  qk_send : ∀ t a ptr m, sn !! t = Some (a, ptr, m) → conn_of cm ptr a;
}.

Lemma conn_of_agents cm cm' ptr a : same_agents cm cm' → conn_of cm ptr a → conn_of cm' ptr a.
Proof. intros Hs (c & Hc & <-). destruct (Hs _ _ Hc) as (c' & ? & ?). by exists c'. Qed.

(** The queues stay; the goroutines go on, the connections keep their agents. *)
Lemma queue_ok_mono rq rq' ak ak' sn sn' q cm cm' :
  queue_ok rq ak sn q cm → same_agents cm cm' → ak ⊆ ak' →
  (∀ t r, rq !! t = Some r → past r → ∃ r', rq' !! t = Some r' ∧ past r') →
  (∀ t a ptr m, sn' !! t = Some (a, ptr, m) → sn !! t = Some (a, ptr, m) ∨ conn_of cm' ptr a) →
  queue_ok rq' ak' sn' q cm'.
Proof.
  intros [F O Se] Hs Hak Hr Hsn. split; [|done|].
  - intros ptr p m [?|(t & a & r & Ha & Ht & Hp & Hc)]%F; [by left|right].
    destruct (Hr _ _ Ht Hp) as (r' & ? & ?). exists t, a, r'. split_and!; try done.
    + by eapply lookup_weaken.
    + by eapply conn_of_agents.
  - intros t a ptr m [?|?]%Hsn; [|done]. eapply conn_of_agents; [done|]. by eapply Se.
Qed.

(** A goroutine leaves the [select] without having queued its message. *)
Lemma queue_ok_return rq ak sn q cm cm' t msg ch res :
  queue_ok rq ak sn q cm → same_agents cm cm' →
  queue_ok (<[t := RReturn msg ch res]> rq) ak (delete t sn) q cm'.
Proof.
  intros Hq Hs. eapply queue_ok_mono; [exact Hq|done|done| |].
  - intros t' r Hr Hp. destruct (decide (t = t')) as [<-|Hne]; [by rewrite lookup_insert_eq; eexists|].
    exists r. by rewrite lookup_insert_ne.
  - intros t' a' ptr' m' [_ ?]%lookup_delete_Some. by left.
Qed.

Lemma queued_at_enqueue q ptr msg ptr' p m :
  queued_at (enqueue (Some (ptr, msg)) q) ptr' p m ↔
  queued_at q ptr' p m ∨ ptr' = ptr ∧ p = length (default [] (q !! ptr)) ∧ m = msg.
Proof.
  unfold queued_at, enqueue. destruct (decide (ptr = ptr')) as [<-|Hne].
  - rewrite lookup_insert_eq. simpl. rewrite lookup_app_Some, list_lookup_singleton_Some. split.
    + intros [?|(? & ? & ?)]; [by left|right]. split_and!; [done|lia|done].
    + intros [?|(_ & -> & ->)]; [by left|right]. split_and!; [lia|lia|done].
  - rewrite lookup_insert_ne by done. naive_solver.
Qed.

Lemma queue_ok_pong rq ak sn q cm ptr m :
  queue_ok rq ak sn q cm → Type_ m = MessageType_PONG →
  queue_ok rq ak sn (enqueue (Some (ptr, m)) q) cm.
Proof.
  intros [F O Se] Hm. split; [| |done].
  - intros ptr' p m' [?|(-> & -> & ->)]%queued_at_enqueue; [by eapply F|by left].
  - intros ptr1 p1 ptr2 p2 m' [H1|(-> & -> & ->)]%queued_at_enqueue
      [H2|(-> & -> & E)]%queued_at_enqueue Ht; try congruence. by eapply O.
Qed.

(** The message of a goroutine at the [select] is in no queue. *)
Lemma queue_ok_send rq ak sn q cm t a ptr msg ch ch' :
  book_ok rq ak sn → queue_ok rq ak sn q cm → rq !! t = Some (RPending a msg ch) →
  sn !! t = Some (a, ptr, msg) →
  queue_ok (<[t := RWait msg ch']> rq) ak (delete t sn) (enqueue (Some (ptr, msg)) q) cm.
Proof.
  intros Hb [F O Se] Ht Hs. destruct (bk_asked _ _ _ Hb _ _ Ht) as (a' & Ha & Ea). simpl in Ea. subst a'.
  assert (∀ ptr' p, ¬ queued_at q ptr' p msg) as Hno.
  { intros ptr' p [E|(t' & a' & r & Ha' & Hr & Hp & _)]%F.
    - pose proof (bk_type _ _ _ Hb _ _ Ha) as Hty. simpl in Hty. congruence.
    - assert (t' = t) as -> by by eapply (bk_inj _ _ _ Hb _ _ _ _ Ha' Ha).
      rewrite Ht in Hr. by injection Hr as <-. }
  split.
  - intros ptr' p m [Hq|(-> & -> & ->)]%queued_at_enqueue.
    + destruct (F _ _ _ Hq) as [?|(t' & a' & r & ? & Hr & Hp & ?)]; [by left|right].
      exists t', a', r. rewrite lookup_insert_ne; [done|]. intros <-. rewrite Ht in Hr. by injection Hr as <-.
    + right. exists t, a. eexists. rewrite lookup_insert_eq. split_and!; try done. by eapply Se.
  - intros ptr1 p1 ptr2 p2 m [H1|(-> & -> & ->)]%queued_at_enqueue
      [H2|(-> & -> & E)]%queued_at_enqueue Hty;
      [by eapply O|subst; by destruct (Hno _ _ H1)|by destruct (Hno _ _ H2)|by subst].
  - intros t' a' ptr' m [_ Hs']%lookup_delete_Some. by eapply Se.
Qed.

(** *** The agents *)

Definition has_delivery (cl : list delivery) (k : nat) (m : ProxyMessage) : Prop :=
  ∃ c, c ∈ cl ∧ dl_agent c = k ∧ dl_msg c = m.

(** Process [k] is done with request [msg]: the calls are made, the goroutine is gone. *)
Definition answered (cl : list delivery) (k : nat) (cw : client_world) (msg : ProxyMessage) : Prop :=
  has_delivery cl k msg ∧ calls_of cw (Id msg) = local_requests k msg ∧
  ∀ u m, cw_reqs cw !! u = Some m → Id m ≠ Id msg.

(** What it may send. *)
Definition made (cl : list delivery) (k : nat) (cw : client_world) (m : ProxyMessage) : Prop :=
  (Type_ m = MessageType_PING ∧
   (map_get (Metadata m) "agent_id" = "" ∨ map_get (Metadata m) "agent_id" = ids k)) ∨
  ∃ msg, answered cl k cw msg ∧ m = agent_reply k msg.

Record agent_ok (cl : list delivery) (k : nat) (cw : client_world) : Prop := {
  ak_id : c_agentID (cw_client cw) = ids k;
  ak_holds : ∀ m, holds cw m → made cl k cw m;
  ak_reqs : ∀ u m, cw_reqs cw !! u = Some m → has_delivery cl k m;
  ak_inj : ∀ u v m m', cw_reqs cw !! u = Some m → cw_reqs cw !! v = Some m' → Id m = Id m' → u = v;
  ak_calls : ∀ p, p ∈ c_calls (cw_client cw) → has_delivery cl k p.1;
  ak_once : ∀ msg, has_delivery cl k msg → calls_of cw (Id msg) = [] ∨ answered cl k cw msg;
}.

Lemma reply_shape k msg :
  Id (agent_reply k msg) = Id msg ∧ Type_ (agent_reply k msg) = MessageType_RESPONSE ∧
  map_get (Metadata (agent_reply k msg)) "agent_id" = "".
Proof. unfold agent_reply, agent_handle. apply (answer_shape (mkRH (urls k) (serve k msg))). Qed.

Lemma local_requests_one k msg :
  local_requests k msg = [] ∨
  local_requests k msg = [outgoing (mkRH (urls k) (serve k msg)) msg (order k msg)].
Proof. apply HandleRequest_sends. Qed.

Lemma has_delivery_mono cl cl' k m : cl ⊆ cl' → has_delivery cl k m → has_delivery cl' k m.
Proof. intros Hs (c & Hc & ?). exists c. split; [by apply Hs|done]. Qed.

(** Deliveries to other processes do not matter. *)
Lemma agent_ok_mono cl cl' k cw :
  (∀ m, has_delivery cl k m ↔ has_delivery cl' k m) → agent_ok cl k cw → agent_ok cl' k cw.
Proof.
  intros Hs [I Ho R J C O].
  assert (∀ m, answered cl k cw m → answered cl' k cw m) as Ha.
  { intros m (? & ? & ?). split; [by apply Hs|done]. }
  split; [done| | |done| |].
  - intros m [?|(msg & ? & ->)]%Ho; [by left|right; eauto].
  - intros u m Hm. apply Hs. eauto.
  - intros p Hp. apply Hs. auto.
  - intros m [?|?]%Hs%O; eauto.
Qed.

Lemma agent_ok_init cl k :
  (∀ m, ¬ has_delivery cl k m) → agent_ok cl k (cw_init (ids k) (tls k)).
Proof.
  intros Hn. split; [done|..].
  - intros m [Hm|[(i & g & Hi & _)|[s Hm]]]; simpl in *; [by apply not_elem_of_nil in Hm| |by apply not_elem_of_nil in Hm].
    by rewrite lookup_empty in Hi.
  - intros u m. simpl. by rewrite lookup_empty.
  - intros u v m m'. simpl. by rewrite lookup_empty.
  - by intros p Hp%not_elem_of_nil.
  - intros m []%Hn.
Qed.

Lemma calls_of_same cw cw' id :
  c_calls (cw_client cw') = c_calls (cw_client cw) → calls_of cw' id = calls_of cw id.
Proof. unfold calls_of. by intros ->. Qed.

(** The calls of a request that is handled come after those made before. *)
Lemma calls_of_handled k cw cw' msg id :
  handled (agent_handle k) cw cw' msg →
  calls_of cw' id = calls_of cw id ++ (if decide (Id msg = id) then local_requests k msg else []).
Proof.
  intros (t & _ & _ & E). unfold calls_of. rewrite E, filter_app, fmap_app. f_equal.
  fold (local_requests k msg). induction (local_requests k msg) as [|o l IH]; [by case_decide|].
  rewrite fmap_cons. destruct (decide (Id msg = id)) as [E'|Hne].
  - rewrite filter_cons_True, fmap_cons, IH by done. done.
  - by rewrite filter_cons_False.
Qed.

(** What stays done with: a step handles a request whose goroutine runs. *)
Lemma answered_step cl k cw cw' msg :
  answered cl k cw msg → outputs (agent_handle k) cw cw' →
  (∀ u m, cw_reqs cw' !! u = Some m → Id m = Id msg → ∃ v m', cw_reqs cw !! v = Some m' ∧ Id m' = Id msg) →
  answered cl k cw' msg.
Proof.
  intros (Hd & Hc & Hr) (_ & _ & _ & Ho) Hr'. split; [done|]. split.
  - destruct Ho as [E|[m Hh]]; [by rewrite (calls_of_same _ _ _ E)|].
    rewrite (calls_of_handled _ _ _ _ _ Hh), decide_False, app_nil_r; [done|].
    destruct Hh as (t & Ht & _). by eapply Hr.
  - intros u m Hu E. destruct (Hr' _ _ Hu E) as (v & m' & Hv & E'). by eapply Hr.
Qed.

Lemma handled_answered cl k cw cw' msg :
  agent_ok cl k cw → handled (agent_handle k) cw cw' msg →
  calls_of cw (Id msg) = [] ∧ answered cl k cw' msg.
Proof.
  intros [I Ho R J C O] Hh. destruct (Hh) as (t & Ht & Er & _).
  assert (calls_of cw (Id msg) = []) as E.
  { destruct (O _ (R _ _ Ht)) as [E|(_ & _ & Hn)]; [done|]. by destruct (Hn _ _ Ht). }
  split; [done|]. split; [by eapply R|]. split.
  - by rewrite (calls_of_handled _ _ _ _ _ Hh), E, decide_True.
  - intros u m. rewrite Er. intros [Hne Hu]%lookup_delete_Some Ei. by destruct Hne, (J _ _ _ _ Ht Hu).
Qed.

(** A step in which a client takes up no request. *)
Lemma agent_ok_moves cl k cw cw' :
  agent_ok cl k cw → (∀ m m', has_delivery cl k m → has_delivery cl k m' → Id m = Id m' → m = m') →
  outputs (agent_handle k) cw cw' → cw_reqs cw' ⊆ cw_reqs cw → agent_ok cl k cw'.
Proof.
  intros Hok Hu Hout Hsub. pose proof Hout as (Ei & _ & Hh & Hc).
  assert (∀ m, answered cl k cw m → answered cl k cw' m) as Ha.
  { intros m Hm. eapply answered_step; [done..|]. intros u m' Hm' E. exists u, m'.
    split; [by eapply lookup_weaken|done]. }
  pose proof (handled_answered cl k cw cw') as Hans.
  split.
  - rewrite Ei. apply (ak_id _ _ _ Hok).
  - intros m [Hm|[[uuid ->]|[[uuid ->]|(msg & Hm & ->)]]]%Hh.
    + destruct (ak_holds _ _ _ Hok _ Hm) as [?|(msg & ? & ->)]; [by left|right; eauto].
    + left. split; [done|by left].
    + left. split; [done|]. right. by rewrite (ak_id _ _ _ Hok).
    + right. exists msg. by destruct (Hans _ Hok Hm).
  - intros u m Hm. eapply (ak_reqs _ _ _ Hok), lookup_weaken; done.
  - intros u v m m' Hm Hm'. eapply (ak_inj _ _ _ Hok); by eapply lookup_weaken.
  - intros p Hp. destruct Hc as [E|(msg & t & Ht & _ & E)]; rewrite E in Hp; [by apply (ak_calls _ _ _ Hok)|].
    apply elem_of_app in Hp as [Hp|(o & -> & _)%list_elem_of_fmap]; [by apply (ak_calls _ _ _ Hok)|].
    by eapply (ak_reqs _ _ _ Hok).
  - intros msg Hd. destruct (ak_once _ _ _ Hok _ Hd) as [E|?]; [|by auto].
    destruct Hc as [Ec|[m Hm]]; [left; by rewrite (calls_of_same _ _ _ Ec)|].
    destruct (decide (Id m = Id msg)) as [Em|Hne].
    + right. destruct (Hans _ Hok Hm) as [_ Hm']. destruct (Hm') as [Hd' _]. by rewrite <- (Hu _ _ Hd' Hd Em).
    + left. by rewrite (calls_of_handled _ _ _ _ _ Hm), E, decide_False.
Qed.

(** A step in which a client takes up a request that it had not got before. *)
Lemma agent_ok_takes cl cl' k cw cw' u msg :
  agent_ok cl k cw → outputs (agent_handle k) cw cw' → cw_reqs cw !! u = None →
  cw_reqs cw' = <[u := msg]> (cw_reqs cw) → (∀ m, has_delivery cl k m → Id m ≠ Id msg) →
  (∀ m, has_delivery cl' k m ↔ has_delivery cl k m ∨ m = msg) →
  c_calls (cw_client cw') = c_calls (cw_client cw) ∧ agent_ok cl' k cw'.
Proof.
  intros Hok Hout Hu Er Hf Hcl. pose proof Hout as (Ei & _ & Hh & Hc).
  assert (∀ m, ¬ handled (agent_handle k) cw cw' m) as Hno.
  { intros m (t & _ & E & _). rewrite Er in E.
    assert (delete t (cw_reqs cw) !! u = Some msg) as El by by rewrite <- E, lookup_insert_eq.
    apply lookup_delete_Some in El as [_ El]. congruence. }
  assert (∀ m, answered cl k cw m → answered cl' k cw' m) as Ha.
  { intros m Hm. pose proof Hm as (Hd & _). destruct (answered_step cl k cw cw' m Hm Hout) as (_ & ? & ?).
    - intros v m' Hm' E. exists v, m'. rewrite Er in Hm'.
      apply lookup_insert_Some in Hm' as [[_ <-]|[_ ?]]; [|done]. by destruct (Hf _ Hd).
    - split; [apply Hcl; by left|done]. }
  destruct Hc as [Ec|[m Hm]]; [|by destruct (Hno m)]. split; [done|]. split.
  - rewrite Ei. apply (ak_id _ _ _ Hok).
  - intros m [Hm|[[uuid ->]|[[uuid ->]|(m' & Hm & ->)]]]%Hh.
    + destruct (ak_holds _ _ _ Hok _ Hm) as [?|(m' & ? & ->)]; [by left|right; eauto].
    + left. split; [done|by left].
    + left. split; [done|]. right. by rewrite (ak_id _ _ _ Hok).
    + by destruct (Hno m').
  - rewrite Er. intros v m [[_ <-]|[_ Hm]]%lookup_insert_Some; apply Hcl; [by right|left].
    by eapply (ak_reqs _ _ _ Hok).
  - rewrite Er. intros v v' m m' [[<- <-]|[_ Hm]]%lookup_insert_Some [[<- <-]|[_ Hm']]%lookup_insert_Some E.
    + done.
    + by destruct (Hf _ (ak_reqs _ _ _ Hok _ _ Hm')).
    + by destruct (Hf _ (ak_reqs _ _ _ Hok _ _ Hm)).
    + by eapply (ak_inj _ _ _ Hok).
  - rewrite Ec. intros p Hp. apply Hcl. left. by apply (ak_calls _ _ _ Hok).
  - intros m [Hd| ->]%Hcl.
    + destruct (ak_once _ _ _ Hok _ Hd) as [E|?]; [left; by rewrite (calls_of_same _ _ _ Ec)|auto].
    + left. rewrite (calls_of_same _ _ _ Ec). unfold calls_of.
      destruct (filter _ _) as [|p l] eqn:El; [done|exfalso].
      assert (p ∈ filter (λ p, Id p.1 = Id msg) (c_calls (cw_client cw))) as Hp by (rewrite El; by left).
      apply list_elem_of_filter in Hp as [E Hp]. by destruct (Hf _ (ak_calls _ _ _ Hok _ Hp)).
Qed.

(** What the server reads from a stream the agent at its other end has made. *)
Lemma input_made cl ln ag i m :
  (∀ k cw, ag !! k = Some cw → agent_ok cl k cw) → input ln ag i m →
  ∃ k s cw, ln !! i = Some (k, s) ∧ made cl k cw m.
Proof.
  intros Hag (k & s & cw & Hl & Hk & Hm). exists k, s, cw. split; [done|].
  eapply ak_holds; [by apply Hag|]. right; right. by exists s.
Qed.

Lemma names_link cl ln ag i a :
  (∀ k cw, ag !! k = Some cw → agent_ok cl k cw) → names (input ln ag i) a →
  ∃ k s, ln !! i = Some (k, s) ∧ ids k = a.
Proof.
  intros Hag (Ha & m & Hm & Em). destruct (input_made _ _ _ _ _ Hag Hm) as (k & s & cw & Hl & Hmade).
  exists k, s. split; [done|]. destruct Hmade as [[_ [E|E]]|(msg & _ & ->)]; [congruence..|].
  destruct (reply_shape k msg) as (_ & _ & E). congruence.
Qed.

(** The wires only grow. *)
Lemma input_insert ln ag i m k cw cw' :
  ag !! k = Some cw → (∃ l, c_wire (cw_client cw') = c_wire (cw_client cw) ++ l) →
  input ln ag i m → input ln (<[k := cw']> ag) i m.
Proof.
  intros Hk [l Hl] (k' & s & cw0 & Hi & Hk' & Hm). exists k', s.
  destruct (decide (k = k')) as [<-|Hne].
  - exists cw'. rewrite lookup_insert_eq, Hl. split_and!; try done.
    simplify_eq. apply elem_of_app. by left.
  - exists cw0. by rewrite lookup_insert_ne.
Qed.

(** Every response that clients have sent. *)
Definition on_wire (ag : gmap nat client_world) : list ProxyMessage :=
  filter (λ m, Type_ m = MessageType_RESPONSE)
    ((map_to_list ag).*2 ≫= λ cw, (c_wire (cw_client cw)).*2).

Lemma elem_of_on_wire ag m :
  m ∈ on_wire ag ↔ Type_ m = MessageType_RESPONSE ∧
    ∃ k cw s, ag !! k = Some cw ∧ (s, m) ∈ c_wire (cw_client cw).
Proof.
  unfold on_wire. rewrite list_elem_of_filter, list_elem_of_bind. f_equiv. split.
  - intros (cw & Hm & ([k cw'] & -> & Hk)%list_elem_of_fmap).
    apply list_elem_of_fmap in Hm as ([s m'] & -> & Hm). exists k, cw', s.
    by apply elem_of_map_to_list in Hk.
  - intros (k & cw & s & Hk & Hm). exists cw. split; apply list_elem_of_fmap.
    + by exists (s, m).
    + exists (k, cw). split; [done|]. by apply elem_of_map_to_list.
Qed.

Lemma on_wire_insert ag k cw cw' m :
  ag !! k = Some cw → (∃ l, c_wire (cw_client cw') = c_wire (cw_client cw) ++ l) →
  m ∈ on_wire ag → m ∈ on_wire (<[k := cw']> ag).
Proof.
  intros Hk [l Hl]. rewrite !elem_of_on_wire. intros (Hty & k' & cw0 & s & Hk' & Hm). split; [done|]. exists k'.
  destruct (decide (k = k')) as [<-|Hne].
  - exists cw', s. rewrite lookup_insert_eq, Hl. split; [done|]. simplify_eq. apply elem_of_app. by left.
  - exists cw0, s. by rewrite lookup_insert_ne.
Qed.

(** *** The deliveries *)

Record deliveries_ok (ak : gmap nat (string * ProxyMessage)) (hs : gmap nat handler) (gt : gmap nat nat)
    (cl : list delivery) : Prop := {
  de_asked : ∀ c, c ∈ cl → ∃ t, ak !! t = Some (ids (dl_agent c), dl_msg c);
  de_pos : ∀ c, c ∈ cl → ∃ h, hs !! dl_stream c = Some h ∧ h_sent h !! dl_pos c = Some (dl_msg c) ∧
    dl_pos c < default 0 (gt !! dl_stream c);
  de_nodup : NoDup ((λ c, (dl_stream c, dl_pos c)) <$> cl);
}.

Lemma deliveries_ok_mono ak ak' hs hs' gt gt' cl :
  deliveries_ok ak hs gt cl → ak ⊆ ak' →
  (∀ i h, hs !! i = Some h → ∃ h', hs' !! i = Some h' ∧ h_sent h `prefix_of` h_sent h') →
  (∀ i, default 0 (gt !! i) ≤ default 0 (gt' !! i)) → deliveries_ok ak' hs' gt' cl.
Proof.
  intros [A P N] Hak Hhs Hgt. split; [| |done].
  - intros c [t Ht]%A. exists t. by eapply lookup_weaken.
  - intros c (h & Hh & Hm & Hlt)%P. destruct (Hhs _ _ Hh) as (h' & ? & Hp). exists h'.
    split_and!; [done|by eapply prefix_lookup_Some|]. specialize (Hgt (dl_stream c)). lia.
Qed.

Lemma deliveries_ok_new ak hs gt cl k i h t msg :
  deliveries_ok ak hs gt cl → hs !! i = Some h → h_sent h !! default 0 (gt !! i) = Some msg →
  ak !! t = Some (ids k, msg) →
  deliveries_ok ak hs (<[i := Datatypes.S (default 0 (gt !! i))]> gt) (mkDelivery k i (default 0 (gt !! i)) msg :: cl).
Proof.
  intros [A P N] Hi Hm Ha. split.
  - intros c [->|Hc]%elem_of_cons; [by exists t|auto].
  - intros c [->|Hc]%elem_of_cons; simpl.
    + exists h. rewrite lookup_insert_eq. split_and!; [done..|]. simpl. lia.
    + destruct (P _ Hc) as (h' & ? & ? & ?). exists h'. split_and!; try done.
      destruct (decide (i = dl_stream c)) as [->|Hne]; [rewrite lookup_insert_eq; simpl; lia|].
      by rewrite lookup_insert_ne.
  - simpl. apply NoDup_cons. split; [|done]. intros (c & E & Hc)%list_elem_of_fmap.
    destruct (P _ Hc) as (_ & _ & _ & Hlt). injection E as -> E. lia.
Qed.

(** *** All together *)

Record net_ok (n : net) : Prop := {
  no_world : world_ok (n_world n);
  no_sys : sys_ok (mkSys (w_srv (n_world n)) (n_requests n) ∅ (on_wire (n_agents n)));
  no_book : book_ok (n_requests n) (n_asked n) (w_sends (n_world n));
  no_queue : queue_ok (n_requests n) (n_asked n) (w_sends (n_world n)) (w_queue (n_world n))
               (connManager (w_srv (n_world n)));
  no_from : handlers_from (owner (n_requests n)) (input (n_links n) (n_agents n)) (w_handlers (n_world n));
  no_agents : ∀ k cw, n_agents n !! k = Some cw → agent_ok (n_delivered n) k cw;
  no_delivered : deliveries_ok (n_asked n) (w_handlers (n_world n)) (n_got n) (n_delivered n);
  no_where : ∀ c, c ∈ n_delivered n → is_Some (n_agents n !! dl_agent c);
}.

Lemma net_ok_init asm :
  from_option asm_inv True asm → from_option asm_view ∅ asm = ∅ → net_ok (net_init asm).
Proof.
  intros Hi Hv. split; simpl.
  - by apply world_ok_init.
  - split; simpl; intros *; by rewrite lookup_empty.
  - split; intros *; by rewrite lookup_empty.
  - split; unfold queued_at; intros *; by rewrite lookup_empty.
  - intros i h. by rewrite lookup_empty.
  - intros k cw. by rewrite lookup_empty.
  - split; [by intros c ?%not_elem_of_nil..|]. constructor.
  - by intros c ?%not_elem_of_nil.
Qed.

Lemma handlers_from_mono (Q Q' : nat → string → Prop) inp inp' hs :
  handlers_from Q inp hs → (∀ i m, inp i m → inp' i m) → (∀ ch id, Q ch id → Q' ch id) →
  handlers_from Q' inp' hs.
Proof. intros Hh Hi HQ i h Hhi. eapply handler_from_mono; [by apply Hh| |done]. apply Hi. Qed.

(** A step of one HTTP goroutine. *)
Lemma net_ok_http s s' hs sn sn' q q' rq ak ag ln gt cl t r r' :
  net_ok (mkNet (mkWorld s hs sn q) rq ak ag ln gt cl) → rq !! t = Some r →
  advances r r' → (∀ a, agent_is r a → agent_is r' a) →
  (∀ t', t' ≠ t → sn' !! t' = sn !! t') →
  (∀ a ptr m, sn' !! t = Some (a, ptr, m) → ∃ ch, r' = RPending a m ch) →
  world_ok (mkWorld s' hs sn' q') →
  sys_ok (mkSys s' (<[t := r']> rq) ∅ (on_wire ag)) →
  queue_ok (<[t := r']> rq) ak sn' q' (connManager s') →
  net_ok (mkNet (mkWorld s' hs sn' q') (<[t := r']> rq) ak ag ln gt cl).
Proof.
  intros [W Y B Q F A C L] Ht Hadv Ha Hsn Hse Hw Hy Hq. split; simpl in *; try done.
  - eapply book_ok_advance; try done. apply Hadv.
  - eapply handlers_from_mono; [done|done|]. intros ch id. by eapply owner_insert.
Qed.

(** It touches no queue. *)
Lemma net_ok_advance s s' hs sn q rq ak ag ln gt cl t r r' :
  net_ok (mkNet (mkWorld s hs sn q) rq ak ag ln gt cl) → rq !! t = Some r → sn !! t = None →
  advances r r' → (∀ a, agent_is r a → agent_is r' a) → (past r → past r') →
  connManager s' = connManager s → sys_ok (mkSys s' (<[t := r']> rq) ∅ (on_wire ag)) →
  net_ok (mkNet (mkWorld s' hs sn q) (<[t := r']> rq) ak ag ln gt cl).
Proof.
  intros Hok Ht Hs Hadv Ha Hp Ecm Hy. eapply net_ok_http; [exact Hok|exact Ht|done..| | |done|].
  - by rewrite Hs.
  - by eapply world_ok_still; [apply (no_world _ Hok)|].
  - rewrite Ecm. eapply queue_ok_mono; [apply (no_queue _ Hok)|by apply same_agents_eq|done| |auto].
    intros t' r0 Ht' Hp'. destruct (decide (t = t')) as [<-|Hne].
    + exists r'. rewrite lookup_insert_eq. simpl in *. split; [done|]. apply Hp. by simplify_eq.
    + exists r0. by rewrite lookup_insert_ne.
Qed.

Lemma no_send_past n t r :
  net_ok n → n_requests n !! t = Some r → (∀ a m ch, r ≠ RPending a m ch) → w_sends (n_world n) !! t = None.
Proof.
  intros Hok Ht Hr. apply eq_None_not_Some. intros [[[a ptr] m] Hs].
  destruct (bk_send _ _ _ (no_book _ Hok) _ _ _ _ Hs) as [ch Hch]. rewrite Ht in Hch. injection Hch as ->.
  by eapply Hr.
Qed.

Lemma net_ok_call w rq ak ag ln gt cl t a msg :
  net_ok (mkNet w rq ak ag ln gt cl) → rq !! t = None → Type_ msg = MessageType_REQUEST →
  (∀ t' x, ak !! t' = Some x → Id x.2 ≠ Id msg) →
  net_ok (mkNet w (<[t := RStart a msg]> rq) (<[t := (a, msg)]> ak) ag ln gt cl).
Proof.
  intros [W Y B Q F A C L] Ht Hty Hf.
  assert (ak !! t = None) as Hak.
  { apply eq_None_not_Some. intros [x Hx]. destruct (bk_dom _ _ _ B _ _ Hx). simpl in *. congruence. }
  split; simpl in *; try done.
  - by apply sys_ok_call.
  - by apply book_ok_call.
  - eapply queue_ok_mono; [done|by apply same_agents_eq|by apply insert_subseteq| |auto].
    intros t' r Hr Hp. exists r. rewrite lookup_insert_ne; [done|]. intros <-. congruence.
  - eapply handlers_from_mono; [done|done|]. intros ch id. by apply owner_new.
  - eapply deliveries_ok_mono; [done|by apply insert_subseteq|eauto|done].
Qed.

Lemma net_ok_lookup s s' hs sn q rq ak ag ln gt cl t a msg ch ptr :
  net_ok (mkNet (mkWorld s hs sn q) rq ak ag ln gt cl) → rq !! t = Some (RPending a msg ch) →
  sn !! t = None → in_cm (SendToAgent_lookup a) s = Ret (Ok ptr) s' →
  net_ok (mkNet (mkWorld s' hs (<[t := (a, ptr, msg)]> sn) q) rq ak ag ln gt cl).
Proof.
  intros Hok Ht Hs E. rewrite <- (insert_id rq t _ Ht).
  destruct (in_cm_Ret _ _ _ _ E) as (Er & En & Ep).
  pose proof (in_cm_inv _ _ _ _ E) as E'. pose proof (lookup_Ret _ _ _ _ E') as Ecm.
  eapply net_ok_http; [done|done|by split; [|right]|done| | | | |].
  - intros t' Hne. by rewrite lookup_insert_ne.
  - intros a' ptr' m'. rewrite lookup_insert_eq. intros [= <- <- <-]. by eexists.
  - eapply world_ok_step; [apply (no_world _ Hok)|]. by eapply w_http_lookup.
  - rewrite insert_id by done. by eapply sys_ok_frame; [apply (no_sys _ Hok)|..].
  - rewrite insert_id by done. rewrite Ecm.
    eapply queue_ok_mono; [apply (no_queue _ Hok)|by apply same_agents_eq|done|eauto|].
    intros t' a' ptr' m' [[<- [= <- <- <-]]|[_ Hs']]%lookup_insert_Some; [right|by left].
    unfold SendToAgent_lookup, mbind, M_bind, get in E'.
    destruct (agents (connManager s) !! a) as [p|] eqn:Hag; [|done]. injection E' as <- _.
    destruct (co_agent _ (wo_cm _ (no_world _ Hok)) _ _ Hag) as (c & Hc & Hid & _). by exists c.
Qed.

Lemma net_ok_select s s' hs sn q rq ak ag ln gt cl t a msg ch ptr choice res :
  net_ok (mkNet (mkWorld s hs sn q) rq ak ag ln gt cl) → rq !! t = Some (RPending a msg ch) →
  sn !! t = Some (a, ptr, msg) → in_cm (SendToAgent_select choice a ptr msg) s = Ret res s' →
  net_ok (mkNet (mkWorld s' hs (delete t sn) match res with Ok _ => enqueue (Some (ptr, msg)) q | Err _ => q end)
    (<[t := match res with
            | Ok _ => RWait msg ch
            | Err e => RReturn msg ch (Err (Wrapf "failed to send request to agent" e))
            end]> rq) ak ag ln gt cl).
Proof.
  intros Hok Ht Hs E. destruct (in_cm_Ret _ _ _ _ E) as (Er & En & Ep).
  pose proof (select_agents _ _ _ _ _ _ _ (wo_cm _ (no_world _ Hok)) E) as Hag.
  eapply net_ok_http; [exact Hok|exact Ht|..].
  - by destruct res; split; [|right| |right].
  - by destruct res.
  - intros t' Hne. by rewrite lookup_delete_ne.
  - intros a' ptr' m'. by rewrite lookup_delete_eq.
  - eapply world_ok_step; [apply (no_world _ Hok)|]. simpl.
    destruct res as [[]|e]; [by eapply w_http_send|by eapply w_http_failed].
  - eapply sys_ok_phase; [apply (no_sys _ Hok)|exact Ht|..]; try done; by destruct res.
  - destruct res as [[]|e].
    + eapply queue_ok_mono; [eapply queue_ok_send; [apply (no_book _ Hok)|apply (no_queue _ Hok)|done..]|done|done|eauto|auto].
    + by eapply queue_ok_return; [apply (no_queue _ Hok)|].
Qed.

Lemma net_ok_panic s s' hs sn q rq ak ag ln gt cl t a msg ch ptr choice e :
  net_ok (mkNet (mkWorld s hs sn q) rq ak ag ln gt cl) → rq !! t = Some (RPending a msg ch) →
  sn !! t = Some (a, ptr, msg) → in_cm (SendToAgent_select choice a ptr msg) s = Panic e s' →
  net_ok (mkNet (mkWorld s' hs (delete t sn) q) (<[t := RReturn msg ch (Err (Errorf e))]> rq) ak ag ln gt cl).
Proof.
  intros Hok Ht Hs ->%select_panic. eapply net_ok_http; [exact Hok|exact Ht|..].
  - by split; [|right].
  - done.
  - intros t' Hne. by rewrite lookup_delete_ne.
  - intros a' ptr' m'. by rewrite lookup_delete_eq.
  - by eapply world_ok_still; [apply (no_world _ Hok)|].
  - by eapply sys_ok_phase; [apply (no_sys _ Hok)|exact Ht|..].
  - by eapply queue_ok_return; [apply (no_queue _ Hok)|apply same_agents_eq].
Qed.

Lemma net_ok_server w w' rq ak ag ln gt cl :
  net_ok (mkNet w rq ak ag ln gt cl) → hstep (input ln ag) w w' → net_ok (mkNet w' rq ak ag ln gt cl).
Proof.
  intros [W Y B Q F A C L] Hs. simpl in *.
  pose proof (hstep_quiet _ _ _ _ W F (so_pending _ Y) Hs) as [Esn Hag [out [Eq Hpong]] Hreq].
  split; simpl; try done.
  - by eapply world_ok_hstep.
  - destruct Hreq as [(Er & En & Ep)|(i & h & ch & m & Hi & Hm & E)]; [by eapply sys_ok_frame|].
    assert (input ln ag i m ∧ owner rq ch (Id m) ∧ Type_ m = MessageType_RESPONSE) as (Hin & Hown & Hty).
    { destruct (F _ _ Hi) as [M R _]. destruct Hm as [Hm|Hm]; [rewrite Hm in M; apply M|rewrite Hm in R; apply R]. }
    eapply sys_ok_deliver; [exact Y|done| |exact Hown|exact E].
    apply elem_of_on_wire. split; [done|]. destruct Hin as (k & st & cw & _ & Hk & Hw). by exists k, cw, st.
  - by rewrite Esn.
  - rewrite Esn, Eq. eapply (queue_ok_mono rq _ ak _ (w_sends w)); [|exact Hag|done|eauto|auto].
    destruct out as [[ptr m]|]; [|done]. apply queue_ok_pong; [done|by eapply Hpong].
  - eapply hstep_from; [exact F|apply (so_pending _ Y)|done].
  - eapply deliveries_ok_mono; [done|done| |done]. intros i h. by eapply hstep_sent.
Qed.

(** *** A message is delivered once *)

(** A position of a stream is a position of the queue of its connection. *)
Lemma sent_queued w i h p msg :
  world_ok w → w_handlers w !! i = Some h → h_sent h !! p = Some msg →
  ∃ a ptr c, h_conn h = Some (a, ptr) ∧ conns (connManager (w_srv w)) !! ptr = Some c ∧ ID c = a ∧
    Stream c = i ∧ queued_at (w_queue w) ptr p msg.
Proof.
  intros W Hi Hp. pose proof (wo_handler _ W _ _ Hi) as Hh. destruct (h_conn h) as [[a ptr]|] eqn:Hcn.
  2:{ destruct (ho_fresh _ _ _ _ Hh Hcn) as [E _]. by rewrite E, lookup_nil in Hp. }
  destruct (ho_fifo _ _ _ _ Hh _ _ Hcn) as (c & Hc & Hid & Hst & Hf). exists a, ptr, c.
  split_and!; try done. eapply prefix_lookup_Some; [exact Hp|].
  destruct (h_send h); simpl in Hf; try done; rewrite Hf; by eexists.
Qed.

Lemma delivery_queued n c :
  net_ok n → c ∈ n_delivered n →
  ∃ ptr k, conns (connManager (w_srv (n_world n))) !! ptr = Some k ∧ Stream k = dl_stream c ∧
    queued_at (w_queue (n_world n)) ptr (dl_pos c) (dl_msg c).
Proof.
  intros Hok Hc. destruct (de_pos _ _ _ _ (no_delivered _ Hok) _ Hc) as (h & Hi & Hp & _).
  destruct (sent_queued _ _ _ _ _ (no_world _ Hok) Hi Hp) as (a & ptr & k & ? & ? & ? & ? & ?). eauto.
Qed.

Lemma delivery_type n c : net_ok n → c ∈ n_delivered n → Type_ (dl_msg c) = MessageType_REQUEST.
Proof.
  intros Hok Hc. destruct (de_asked _ _ _ _ (no_delivered _ Hok) _ Hc) as [t Ht].
  exact (bk_type _ _ _ (no_book _ Hok) _ _ Ht).
Qed.

(** Two requests with one id are one request, delivered once. *)
Lemma delivery_msg n c1 c2 :
  net_ok n → c1 ∈ n_delivered n → c2 ∈ n_delivered n → Id (dl_msg c1) = Id (dl_msg c2) →
  dl_msg c1 = dl_msg c2.
Proof.
  intros Hok Hc1 Hc2 E. destruct (de_asked _ _ _ _ (no_delivered _ Hok) _ Hc1) as [t1 H1].
  destruct (de_asked _ _ _ _ (no_delivered _ Hok) _ Hc2) as [t2 H2].
  pose proof (bk_inj _ _ _ (no_book _ Hok) _ _ _ _ H1 H2 E) as ->. congruence.
Qed.

Lemma deliveries_unique n c1 c2 :
  net_ok n → c1 ∈ n_delivered n → c2 ∈ n_delivered n → Id (dl_msg c1) = Id (dl_msg c2) → c1 = c2.
Proof.
  intros Hok Hc1 Hc2 Ei. pose proof (delivery_msg _ _ _ Hok Hc1 Hc2 Ei) as E.
  destruct (delivery_queued _ _ Hok Hc1) as (ptr1 & k1 & Hk1 & Hs1 & Hq1).
  destruct (delivery_queued _ _ Hok Hc2) as (ptr2 & k2 & Hk2 & Hs2 & Hq2). rewrite <- E in Hq2.
  destruct (qk_once _ _ _ _ _ (no_queue _ Hok) _ _ _ _ _ Hq1 Hq2 (delivery_type _ _ Hok Hc1)) as [<- Ep].
  eapply (NoDup_fmap_eq (λ c, (dl_stream c, dl_pos c))); [apply (de_nodup _ _ _ _ (no_delivered _ Hok))|done..|].
  simpl in *. congruence.
Qed.

Lemma delivered_where n k k' m m' :
  net_ok n → has_delivery (n_delivered n) k m → has_delivery (n_delivered n) k' m' → Id m = Id m' →
  k = k' ∧ m = m'.
Proof.
  intros Hok (c & Hc & <- & <-) (c' & Hc' & <- & <-) E.
  by rewrite (deliveries_unique _ _ _ Hok Hc Hc' E).
Qed.

Lemma delivered_asked n k m :
  net_ok n → has_delivery (n_delivered n) k m → ∃ t, n_asked n !! t = Some (ids k, m).
Proof. intros Hok (c & Hc & <- & <-). by apply (de_asked _ _ _ _ (no_delivered _ Hok)). Qed.

(** The message an agent reads from its stream was queued by a request to it. *)
Lemma sent_to_agent w rq ak ag ln gt cl i h k s p msg :
  net_ok (mkNet w rq ak ag ln gt cl) → w_handlers w !! i = Some h → ln !! i = Some (k, s) →
  h_sent h !! p = Some msg → Type_ msg = MessageType_REQUEST →
  ∃ t r, ak !! t = Some (ids k, msg) ∧ rq !! t = Some r ∧ past r.
Proof.
  intros [W Y B Q F A C L] Hi Hl Hp Hty. simpl in *.
  destruct (sent_queued _ _ _ _ _ W Hi Hp) as (a & ptr & c & Hcn & Hcc & Hid & _ & Hq).
  destruct (names_link _ _ _ _ _ A (hf_conn _ _ _ (F _ _ Hi) _ _ Hcn)) as (k' & s' & Hl' & <-).
  rewrite Hl in Hl'. injection Hl' as <- <-.
  destruct (qk_from _ _ _ _ _ Q _ _ _ Hq) as [E|(t & a & r & Ha & Hr & Hpast & c' & Hc' & <-)]; [congruence|].
  exists t, r. split_and!; try done. rewrite Hcc in Hc'. injection Hc' as <-. by rewrite <- Hid.
Qed.

(** It has reached no agent before. *)
Lemma delivery_fresh w rq ak ag ln gt cl i h k s msg :
  net_ok (mkNet w rq ak ag ln gt cl) → w_handlers w !! i = Some h → ln !! i = Some (k, s) →
  h_sent h !! default 0 (gt !! i) = Some msg → Type_ msg = MessageType_REQUEST →
  ∀ k' m, has_delivery cl k' m → Id m ≠ Id msg.
Proof.
  intros Hok Hi Hl Hp Hty k' m (c & Hc & <- & <-) E.
  destruct (sent_to_agent _ _ _ _ _ _ _ _ _ _ _ _ _ Hok Hi Hl Hp Hty) as (t & r & Ha & _).
  destruct (de_asked _ _ _ _ (no_delivered _ Hok) _ Hc) as [t' Ha']. simpl in Ha'.
  pose proof (bk_inj _ _ _ (no_book _ Hok) _ _ _ _ Ha' Ha E) as ->. rewrite Ha in Ha'. injection Ha' as _ Em.
  destruct (sent_queued _ _ _ _ _ (no_world _ Hok) Hi Hp) as (a & ptr & x & _ & Hx & _ & Hst & Hq).
  destruct (delivery_queued _ _ Hok Hc) as (ptr' & x' & Hx' & Hst' & Hq'). rewrite <- Em in Hq'. simpl in *.
  destruct (qk_once _ _ _ _ _ (no_queue _ Hok) _ _ _ _ _ Hq Hq' Hty) as [<- Ep].
  destruct (de_pos _ _ _ _ (no_delivered _ Hok) _ Hc) as (h' & _ & _ & Hlt). simpl in *.
  assert (dl_stream c = i) as Es by congruence. rewrite Es in Hlt. lia.
Qed.

(** A step of one agent process that takes up no request. *)
Lemma net_ok_agent w rq ak ag ln gt cl k cw cw' :
  net_ok (mkNet w rq ak ag ln gt cl) → ag !! k = Some cw → cstep (agent_handle k) cw cw' →
  cw_reqs cw' ⊆ cw_reqs cw → net_ok (mkNet w rq ak (<[k := cw']> ag) ln gt cl).
Proof.
  intros Hok Hk Hs%cstep_outputs Hr. pose proof Hs as (_ & Hw & _). pose proof Hok as [W Y B Q F A C L].
  split; simpl in *; try done.
  - eapply sys_ok_more; [done|]. intros m. by eapply on_wire_insert.
  - eapply handlers_from_mono; [done| |done]. intros i m. by eapply input_insert.
  - intros k' cw0 [[<- <-]|[_ Hk']]%lookup_insert_Some; [|by apply A].
    eapply agent_ok_moves; [by apply A| |done..]. intros m m' Hm Hm' E.
    by destruct (delivered_where _ _ _ _ _ Hok Hm Hm' E).
  - intros c [cw0 Hc]%L. destruct (decide (k = dl_agent c)) as [<-|Hne]; [by rewrite lookup_insert_eq; eexists|].
    rewrite lookup_insert_ne by done. by eexists.
Qed.

(** A step in which it takes up the request that has reached it. *)
Lemma net_ok_request w rq ak ag ln gt cl i k s h cw cw' u msg :
  net_ok (mkNet w rq ak ag ln gt cl) → ln !! i = Some (k, s) → w_handlers w !! i = Some h →
  h_sent h !! default 0 (gt !! i) = Some msg → Type_ msg = MessageType_REQUEST →
  ag !! k = Some cw → cstep (agent_handle k) cw cw' → cw_reqs cw !! u = None →
  cw_reqs cw' = <[u := msg]> (cw_reqs cw) →
  c_calls (cw_client cw') = c_calls (cw_client cw) ∧
  net_ok (mkNet w rq ak (<[k := cw']> ag) ln (<[i := Datatypes.S (default 0 (gt !! i))]> gt)
    (mkDelivery k i (default 0 (gt !! i)) msg :: cl)).
Proof.
  intros Hok Hl Hi Hm Hty Hk Hs%cstep_outputs Hu Hr.
  destruct (sent_to_agent _ _ _ _ _ _ _ _ _ _ _ _ _ Hok Hi Hl Hm Hty) as (t & r & Ha & _).
  pose proof (delivery_fresh _ _ _ _ _ _ _ _ _ _ _ _ Hok Hi Hl Hm Hty) as Hf.
  pose proof Hs as (_ & Hw & _). pose proof Hok as [W Y B Q F A C L]. simpl in *.
  destruct (agent_ok_takes cl (mkDelivery k i (default 0 (gt !! i)) msg :: cl) k cw cw' u msg
    (A _ _ Hk) Hs Hu Hr (Hf k)) as [Ec Hok'].
  { intros m. split.
    - intros (c & [->|Hc]%elem_of_cons & <- & <-); [by right|left; by exists c].
    - intros [Hd| ->]; [eapply has_delivery_mono; [|exact Hd]; by intros ??; right|]. eexists. by split; [left|]. }
  split; [done|]. split; simpl; try done.
  - eapply sys_ok_more; [done|]. intros m. by eapply on_wire_insert.
  - eapply handlers_from_mono; [done| |done]. intros j m. by eapply input_insert.
  - intros k' cw0 [[<- <-]|[Hne Hk']]%lookup_insert_Some; [done|].
    eapply agent_ok_mono; [|by apply A]. intros m. split.
    + apply has_delivery_mono. by intros ??; right.
    + intros (c & [->|Hc]%elem_of_cons & E & <-); [done|by exists c].
  - by eapply deliveries_ok_new.
  - intros c [->|Hc]%elem_of_cons; simpl; [by rewrite lookup_insert_eq; eexists|].
    destruct (L _ Hc) as [cw0 Hc0]. destruct (decide (k = dl_agent c)) as [<-|Hne]; [by rewrite lookup_insert_eq; eexists|].
    rewrite lookup_insert_ne by done. by eexists.
Qed.

Lemma net_ok_link w rq ak ag ln gt cl i x :
  net_ok (mkNet w rq ak ag ln gt cl) → ln !! i = None → net_ok (mkNet w rq ak ag (<[i := x]> ln) gt cl).
Proof.
  intros [W Y B Q F A C L] Hi. split; simpl in *; try done. eapply handlers_from_mono; [done| |done].
  intros j m (k & s & cw & Hj & ?). exists k, s, cw. rewrite lookup_insert_ne; [done|]. intros <-. congruence.
Qed.

Lemma net_ok_start w rq ak ag ln gt cl k :
  net_ok (mkNet w rq ak ag ln gt cl) → ag !! k = None →
  net_ok (mkNet w rq ak (<[k := cw_init (ids k) (tls k)]> ag) ln gt cl).
Proof.
  intros [W Y B Q F A C L] Hk. split; simpl in *; try done.
  - eapply sys_ok_more; [done|]. intros m. rewrite !elem_of_on_wire. intros (Hty & k' & cw & s & Hk' & Hm).
    split; [done|]. exists k', cw, s. rewrite lookup_insert_ne; [done|]. intros <-. congruence.
  - eapply handlers_from_mono; [done| |done]. intros j m (k' & s & cw & Hj & Hk' & Hm). exists k', s, cw.
    rewrite lookup_insert_ne; [done|]. intros <-. congruence.
  - intros k' cw [[<- <-]|[_ Hk']]%lookup_insert_Some; [|by apply A]. apply agent_ok_init.
    intros m (c & Hc & <- & _). destruct (L _ Hc). congruence.
  - intros c [cw0 Hc]%L. rewrite lookup_insert_ne; [by eexists|]. intros ->. congruence.
Qed.

Lemma net_ok_skip w rq ak ag ln gt cl i :
  net_ok (mkNet w rq ak ag ln gt cl) →
  net_ok (mkNet w rq ak ag ln (<[i := Datatypes.S (default 0 (gt !! i))]> gt) cl).
Proof.
  intros [W Y B Q F A C L]. split; simpl in *; try done. eapply deliveries_ok_mono; [done|done|eauto|].
  intros j. destruct (decide (i = j)) as [<-|Hne]; [rewrite lookup_insert_eq; simpl; lia|].
  by rewrite lookup_insert_ne.
Qed.

Lemma net_ok_step n n' : net_ok n → net_step n n' → net_ok n'.
Proof.
  intros Hok Hs. destruct Hs as [w rq ak ag ln gt cl t a msg Ht Hty Hf
    |s s' hs sn q rq ak ag ln gt cl t a msg ch Ht E|s s' hs sn q rq ak ag ln gt cl t a msg ch ptr Ht Hsn E
    |s s' hs sn q rq ak ag ln gt cl t a msg ch e Ht Hsn E
    |s s' hs sn q rq ak ag ln gt cl t a msg ch ptr choice Ht Hsn E
    |s s' hs sn q rq ak ag ln gt cl t a msg ch ptr choice e Ht Hsn E
    |s s' hs sn q rq ak ag ln gt cl t a msg ch ptr choice e Ht Hsn E
    |s s' hs sn q rq ak ag ln gt cl t msg ch choice r Ht E|s s' hs sn q rq ak ag ln gt cl t msg ch r Ht E
    |w w' rq ak ag ln gt cl Hs|w rq ak ag ln gt cl k Hk|w rq ak ag ln gt cl k cw cw' Hk Hc Hr
    |w rq ak ag ln gt cl i k s Hi Hl|w rq ak ag ln gt cl i k s h p cw cw' u msg Hl Hi Hp Hm Hty Hk Hc Hu Hr
    |w rq ak ag ln gt cl i].
  - by apply net_ok_call.
  - injection E as <- <-. eapply net_ok_advance; [exact Hok|exact Ht| | |done..|].
    + by eapply (no_send_past _ _ _ Hok Ht).
    + by split; [|left].
    + by eapply sys_ok_register; [apply (no_sys _ Hok)|].
  - by eapply net_ok_lookup.
  - destruct (in_cm_Ret _ _ _ _ E) as (Er & En & Ep).
    eapply net_ok_advance; [exact Hok|exact Ht|exact Hsn| |done|done| |].
    + by split; [|right].
    + by apply in_cm_inv, lookup_Ret in E.
    + by eapply sys_ok_phase; [apply (no_sys _ Hok)|exact Ht|..].
  - exact (net_ok_select _ _ _ _ _ _ _ _ _ _ _ _ _ _ _ _ _ (Ok ()) Hok Ht Hsn E).
  - exact (net_ok_select _ _ _ _ _ _ _ _ _ _ _ _ _ _ _ _ _ (Err e) Hok Ht Hsn E).
  - by eapply net_ok_panic.
  - eapply net_ok_advance; [exact Hok|exact Ht| |by split; [|right]|done|done| |].
    + by eapply (no_send_past _ _ _ Hok Ht).
    + by eapply wait_response_cm.
    + by eapply sys_ok_wait; [apply (no_sys _ Hok)|..].
  - eapply net_ok_advance; [exact Hok|exact Ht| |by split; [|right]|done|done| |].
    + by eapply (no_send_past _ _ _ Hok Ht).
    + by injection E as <-.
    + by eapply sys_ok_return; [apply (no_sys _ Hok)|..].
  - by eapply net_ok_server.
  - by apply net_ok_start.
  - exact (net_ok_agent _ _ _ _ _ _ _ _ _ _ Hok Hk Hc Hr).
  - by apply net_ok_link.
  - subst p. exact (proj2 (net_ok_request _ _ _ _ _ _ _ _ _ _ _ _ _ _ _ Hok Hl Hi Hm Hty Hk Hc Hu Hr)).
  - by apply net_ok_skip.
Qed.

Lemma net_reachable_ok asm n :
  from_option asm_inv True asm → from_option asm_view ∅ asm = ∅ → rtc net_step (net_init asm) n → net_ok n.
Proof.
  intros Hi Hv Hr. eapply rtc_invariant; [exact Hr|by apply net_ok_init|]. intros ???. by apply net_ok_step.
Qed.

(** *** The calls *)

Lemma lookup_calls_for ag id k l :
  calls_for ag id !! k = Some l ↔ l ≠ [] ∧ ∃ cw, ag !! k = Some cw ∧ calls_of cw id = l.
Proof.
  unfold calls_for. rewrite lookup_omap. split.
  - destruct (ag !! k) as [cw|]; [|done]. simpl. destruct (calls_of cw id) as [|o l'] eqn:E; [done|].
    intros [= <-]. by eauto.
  - intros (Hl & cw & -> & <-). simpl. by destruct (calls_of cw id).
Qed.

(** Whoever has made a call for an id has got the request with that id. *)
Lemma calls_delivered n k l id :
  net_ok n → calls_for (n_agents n) id !! k = Some l →
  ∃ cw msg, n_agents n !! k = Some cw ∧ calls_of cw id = l ∧ l ≠ [] ∧
    has_delivery (n_delivered n) k msg ∧ Id msg = id.
Proof.
  intros Hok (Hl & cw & Hk & E)%lookup_calls_for. exists cw.
  assert (∃ p, p ∈ filter (λ p, Id p.1 = id) (c_calls (cw_client cw))) as [p [Hp Hin]%list_elem_of_filter].
  { unfold calls_of in E. destruct (filter _ _) as [|p ps]; [by subst|]. exists p. by left. }
  exists p.1. split_and!; try done. by apply (ak_calls _ _ _ (no_agents _ Hok _ _ Hk)).
Qed.

(** When the request has reached process [k], no other has made a call for it. *)
Lemma calls_for_delivered n k cw msg :
  net_ok n → n_agents n !! k = Some cw → has_delivery (n_delivered n) k msg →
  calls_for (n_agents n) (Id msg) = made_by k (calls_of cw (Id msg)).
Proof.
  intros Hok Hk Hd. apply map_eq. intros k'. destruct (decide (k = k')) as [<-|Hne].
  - apply option_eq. intros l. rewrite lookup_calls_for. destruct (calls_of cw (Id msg)) as [|o l'] eqn:E; simpl.
    + rewrite lookup_empty. split; [|done]. intros (Hl & cw' & Hk' & El). congruence.
    + rewrite lookup_singleton_eq. split.
      * intros (_ & cw' & Hk' & El). congruence.
      * intros [= <-]. split; [done|]. by exists cw.
  - transitivity (@None (list Outgoing)).
    + destruct (calls_for _ _ !! k') as [l|] eqn:E; [exfalso|done].
      destruct (calls_delivered _ _ _ _ Hok E) as (cw' & m & _ & _ & _ & Hd' & Em).
      by destruct Hne, (delivered_where _ _ _ _ _ Hok Hd Hd').
    + destruct (calls_of cw (Id msg)); simpl; [by rewrite lookup_empty|by rewrite lookup_singleton_ne].
Qed.

Lemma calls_for_answered n k cw msg :
  net_ok n → n_agents n !! k = Some cw → answered (n_delivered n) k cw msg →
  calls_for (n_agents n) (Id msg) = made_by k (local_requests k msg).
Proof. intros Hok Hk (Hd & E & _). rewrite <- E. by apply calls_for_delivered. Qed.

(** For an id there is no call, or the one call that the process which got the request
    was to make. *)
Lemma calls_for_cases n id :
  net_ok n → calls_for (n_agents n) id = ∅ ∨
  ∃ k cw msg, n_agents n !! k = Some cw ∧ answered (n_delivered n) k cw msg ∧ Id msg = id ∧
    let o := outgoing (mkRH (urls k) (serve k msg)) msg (order k msg) in
    local_requests k msg = [o] ∧ calls_for (n_agents n) id = {[k := [o]]}.
Proof.
  intros Hok. destruct (decide (calls_for (n_agents n) id = ∅)) as [|Hne]; [by left|right].
  destruct (map_choose _ Hne) as (k & l & Hl).
  destruct (calls_delivered _ _ _ _ Hok Hl) as (cw & msg & Hk & El & Hnil & Hd & <-).
  destruct (ak_once _ _ _ (no_agents _ Hok _ _ Hk) _ Hd) as [E|Ha]; [congruence|].
  exists k, cw, msg. split_and!; [done..|]. cbv zeta. pose proof Ha as (_ & E & _).
  destruct (local_requests_one k msg) as [E'|E']; [congruence|]. split; [done|].
  rewrite (calls_for_answered _ _ _ _ Hok Hk Ha), E'. done.
Qed.

(** A client that makes no call. *)
Lemma calls_for_still ag k cw cw' id :
  ag !! k = Some cw → calls_of cw' id = calls_of cw id → calls_for (<[k := cw']> ag) id = calls_for ag id.
Proof.
  intros Hk E. unfold calls_for. apply map_eq. intros k'. rewrite !lookup_omap.
  destruct (decide (k = k')) as [<-|Hne]; [by rewrite lookup_insert_eq, Hk; simpl; rewrite E|].
  by rewrite lookup_insert_ne.
Qed.

Lemma calls_for_start ag k a b id :
  ag !! k = None → calls_for (<[k := cw_init a b]> ag) id = calls_for ag id.
Proof.
  intros Hk. unfold calls_for. apply map_eq. intros k'. rewrite !lookup_omap.
  destruct (decide (k = k')) as [<-|Hne]; [by rewrite lookup_insert_eq, Hk|]. by rewrite lookup_insert_ne.
Qed.

(** The response a goroutine returns is the answer of the agent it asked. *)
Lemma answer_is_reply n t r m :
  net_ok n → n_requests n !! t = Some r → answer_of r = Some m →
  ∃ k, n_asked n !! t = Some (ids k, msg_of r) ∧
    calls_for (n_agents n) (Id (msg_of r)) = made_by k (local_requests k (msg_of r)) ∧
    m = agent_reply k (msg_of r).
Proof.
  intros Hok Ht Hm. destruct (so_answer _ (no_sys _ Hok) _ _ _ Ht Hm) as [Eid (Hty & k & cw & s & Hk & Hw)%elem_of_on_wire].
  destruct (ak_holds _ _ _ (no_agents _ Hok _ _ Hk) m) as [[Hp _]|(msg & Ha & ->)].
  { right; right. by exists s. }
  { congruence. }
  pose proof Ha as (Hd & _). destruct (reply_shape k msg) as [Ei _].
  destruct (delivered_asked _ _ _ Hok Hd) as [t' Ht'].
  destruct (bk_asked _ _ _ (no_book _ Hok) _ _ Ht) as (a & Hask & _).
  assert (t' = t) as ->.
  { eapply (bk_inj _ _ _ (no_book _ Hok) _ _ _ _ Ht' Hask). simpl in *. congruence. }
  rewrite Ht' in Hask. injection Hask as <- E. rewrite <- E in *. exists k.
  split_and!; [done|by eapply calls_for_answered|done].
Qed.

(** *** The refinement *)

Definition exchange_of (ag : gmap nat client_world) (rq : gmap nat request) (t : nat)
    (x : string * ProxyMessage) : exchange :=
  mkEx x.1 x.2 (calls_for ag (Id x.2)) (rq !! t ≫= outcome_of).

Lemma lookup_exchanges (n : net) t :
  exchanges n !! t = exchange_of (n_agents n) (n_requests n) t <$> n_asked n !! t.
Proof. unfold exchanges. rewrite map_lookup_imap. by destruct (n_asked n !! t). Qed.

(** The goroutine [t] has moved, no agent has. *)
Lemma exchanges_advance (n n' : net) t r r' a :
  n_asked n' = n_asked n → n_agents n' = n_agents n → n_requests n' = <[t := r']> (n_requests n) →
  n_requests n !! t = Some r → n_asked n !! t = Some (a, msg_of r) →
  exchanges n' =
    <[t := mkEx a (msg_of r) (calls_for (n_agents n) (Id (msg_of r))) (outcome_of r')]> (exchanges n).
Proof.
  intros Ea Ec Er Ht Ha. apply map_eq. intros t'. rewrite lookup_exchanges, Ea, Ec, Er.
  destruct (decide (t = t')) as [<-|Hne].
  - rewrite lookup_insert_eq, Ha. simpl. unfold exchange_of. by rewrite lookup_insert_eq.
  - rewrite lookup_insert_ne, lookup_exchanges by done. destruct (n_asked n !! t'); [|done]. simpl.
    unfold exchange_of. by rewrite lookup_insert_ne.
Qed.

(** Nothing an exchange shows has changed. *)
Lemma exchanges_same (n n' : net) :
  n_asked n' = n_asked n → (∀ id, calls_for (n_agents n') id = calls_for (n_agents n) id) →
  (∀ t, n_requests n' !! t ≫= outcome_of = n_requests n !! t ≫= outcome_of) → exchanges n' = exchanges n.
Proof.
  intros Ea Ec Er. apply map_eq. intros t. rewrite !lookup_exchanges, Ea.
  destruct (n_asked n !! t) as [x|]; [|done]. simpl. unfold exchange_of. by rewrite Ec, Er.
Qed.

Lemma exchanges_still (n n' : net) t r r' :
  n_asked n' = n_asked n → n_agents n' = n_agents n → n_requests n' = <[t := r']> (n_requests n) →
  n_requests n !! t = Some r → outcome_of r' = outcome_of r → exchanges n' = exchanges n.
Proof.
  intros Ea Ec Er Ht Eo. apply exchanges_same; [done|by intros id; rewrite Ec|]. intros t'. rewrite Er.
  destruct (decide (t = t')) as [<-|Hne]; [by rewrite lookup_insert_eq, Ht|by rewrite lookup_insert_ne].
Qed.

(** A goroutine that had no result has one: the answer of the agent process that was
    asked, or an error. *)
Lemma result_refines n n' t r r' res :
  net_ok n → net_ok n' → n_asked n' = n_asked n → n_agents n' = n_agents n →
  n_requests n' = <[t := r']> (n_requests n) → n_requests n !! t = Some r → msg_of r' = msg_of r →
  outcome_of r = None → outcome_of r' = Some res → spec_step (exchanges n) (exchanges n').
Proof.
  intros Hok Hok' Ea Ec Er Ht Em Eo Eo'.
  destruct (bk_asked _ _ _ (no_book _ Hok) _ _ Ht) as (a & Ha & _).
  rewrite (exchanges_advance n n' t r r' a) by done. rewrite Eo'.
  assert (exchanges n !! t = Some (mkEx a (msg_of r) (calls_for (n_agents n) (Id (msg_of r))) None)) as Hx.
  { rewrite lookup_exchanges, Ha. simpl. unfold exchange_of. rewrite Ht. simpl. by rewrite Eo. }
  destruct res as [m|e]; [|by apply x_fail].
  assert (n_requests n' !! t = Some r') as Ht' by by rewrite Er, lookup_insert_eq.
  destruct (answer_is_reply n' t r' m Hok' Ht') as (k & Ha' & Hc & ->).
  { destruct r'; simpl in *; by simplify_eq. }
  rewrite Em in *. rewrite Ea, Ha in Ha'. injection Ha' as ->. rewrite Ec in Hc. rewrite Hc in *.
  by apply x_reply.
Qed.

Lemma call_refines w rq ak ag ln gt cl t a msg :
  net_ok (mkNet w rq ak ag ln gt cl) → rq !! t = None → (∀ t' x, ak !! t' = Some x → Id x.2 ≠ Id msg) →
  spec_step (exchanges (mkNet w rq ak ag ln gt cl))
    (exchanges (mkNet w (<[t := RStart a msg]> rq) (<[t := (a, msg)]> ak) ag ln gt cl)).
Proof.
  intros Hok Ht Hf. set (n := mkNet w rq ak ag ln gt cl).
  assert (ak !! t = None) as Hak.
  { apply eq_None_not_Some. intros [x Hx]. destruct (bk_dom _ _ _ (no_book _ Hok) _ _ Hx). simpl in *. congruence. }
  assert (calls_for ag (Id msg) = ∅) as Hc.
  { apply map_empty. intros k. apply eq_None_not_Some. intros [l Hl].
    destruct (calls_delivered n _ _ _ Hok Hl) as (cw & m & _ & _ & _ & Hd & Em).
    destruct (delivered_asked _ _ _ Hok Hd) as [t' Ht']. by destruct (Hf _ _ Ht'). }
  enough (exchanges (mkNet w (<[t := RStart a msg]> rq) (<[t := (a, msg)]> ak) ag ln gt cl) =
    <[t := mkEx a msg ∅ None]> (exchanges n)) as ->.
  - apply x_ask; [by rewrite lookup_exchanges; simpl; rewrite Hak|]. intros t' x. rewrite lookup_exchanges. simpl.
    destruct (ak !! t') as [y|] eqn:Hy; [|done]. intros [= <-]. simpl. by eapply Hf.
  - apply map_eq. intros t'. rewrite lookup_exchanges. simpl. destruct (decide (t = t')) as [<-|Hne].
    + rewrite !lookup_insert_eq. simpl. unfold exchange_of. simpl. by rewrite lookup_insert_eq, Hc.
    + rewrite !lookup_insert_ne, lookup_exchanges by done. simpl. destruct (ak !! t'); [|done]. simpl.
      unfold exchange_of. by rewrite lookup_insert_ne.
Qed.

(** A goroutine of process [k] handles its request: the exchange gets its call. *)
Lemma handled_refines w rq ak ag ln gt cl k cw cw' msg :
  let n := mkNet w rq ak ag ln gt cl in let n' := mkNet w rq ak (<[k := cw']> ag) ln gt cl in
  net_ok n → net_ok n' → ag !! k = Some cw → handled (agent_handle k) cw cw' msg →
  exchanges n = exchanges n' ∨ spec_step (exchanges n) (exchanges n').
Proof.
  intros n n' Hok Hok' Hk Hh. pose proof (no_agents _ Hok _ _ Hk) as Ak.
  destruct (handled_answered _ _ _ _ _ Ak Hh) as [E0 Ha]. pose proof Ha as (Hd & _).
  pose proof (calls_for_delivered n k cw msg Hok Hk Hd) as C0. rewrite E0 in C0. simpl in C0.
  pose proof (calls_for_answered n' k cw' msg Hok' (lookup_insert_eq _ _ _) Ha) as C1. simpl in C1.
  destruct (delivered_asked _ _ _ Hok Hd) as [t Ht]. simpl in Ht.
  assert (exchanges n' =
    <[t := mkEx (ids k) msg (made_by k (local_requests k msg)) (rq !! t ≫= outcome_of)]> (exchanges n)) as ->.
  { apply map_eq. intros t'. rewrite lookup_exchanges. simpl. destruct (decide (t = t')) as [<-|Hne].
    - rewrite lookup_insert_eq, Ht. simpl. unfold exchange_of. simpl. by rewrite C1.
    - rewrite lookup_insert_ne, lookup_exchanges by done. simpl. destruct (ak !! t') as [x|] eqn:Hx; [|done].
      simpl. unfold exchange_of. do 2 f_equal. apply (calls_for_still _ _ _ _ _ Hk).
      rewrite (calls_of_handled _ _ _ _ _ Hh), decide_False, app_nil_r; [done|]. intros Ei.
      by destruct Hne, (bk_inj _ _ _ (no_book _ Hok) _ _ _ _ Ht Hx Ei). }
  assert (exchanges n !! t = Some (mkEx (ids k) msg ∅ (rq !! t ≫= outcome_of))) as Hx.
  { rewrite lookup_exchanges. simpl. rewrite Ht. simpl. unfold exchange_of. simpl. by rewrite C0. }
  destruct (local_requests_one k msg) as [E|E]; rewrite E; simpl.
  - left. by rewrite insert_id.
  - right. by apply x_call.
Qed.

Lemma net_step_refines n n' :
  net_ok n → net_step n n' → exchanges n = exchanges n' ∨ spec_step (exchanges n) (exchanges n').
Proof.
  intros Hok Hs. pose proof (net_ok_step _ _ Hok Hs) as Hok'.
  destruct Hs as [w rq ak ag ln gt cl t a msg Ht Hty Hf
    |s s' hs sn q rq ak ag ln gt cl t a msg ch Ht E|s s' hs sn q rq ak ag ln gt cl t a msg ch ptr Ht Hsn E
    |s s' hs sn q rq ak ag ln gt cl t a msg ch e Ht Hsn E
    |s s' hs sn q rq ak ag ln gt cl t a msg ch ptr choice Ht Hsn E
    |s s' hs sn q rq ak ag ln gt cl t a msg ch ptr choice e Ht Hsn E
    |s s' hs sn q rq ak ag ln gt cl t a msg ch ptr choice e Ht Hsn E
    |s s' hs sn q rq ak ag ln gt cl t msg ch choice r Ht E|s s' hs sn q rq ak ag ln gt cl t msg ch r Ht E
    |w w' rq ak ag ln gt cl Hs|w rq ak ag ln gt cl k Hk|w rq ak ag ln gt cl k cw cw' Hk Hc Hr
    |w rq ak ag ln gt cl i k s Hi Hl|w rq ak ag ln gt cl i k s h p cw cw' u msg Hl Hi Hp Hm Hty Hk Hc Hu Hr
    |w rq ak ag ln gt cl i]; try by left.
  - right. by apply call_refines.
  - left. symmetry. by eapply exchanges_still.
  - right. by eapply result_refines.
  - left. symmetry. by eapply exchanges_still.
  - right. by eapply result_refines.
  - right. by eapply result_refines.
  - right. by eapply result_refines.
  - left. symmetry. by eapply exchanges_still.
  - left. symmetry. apply exchanges_same; [done| |done]. intros id. by apply calls_for_start.
  - destruct (cstep_outputs _ _ _ Hc) as (_ & _ & _ & [Ec|[msg Hh]]); [left|by eapply handled_refines].
    symmetry. apply exchanges_same; [done| |done]. intros id. by apply (calls_for_still _ _ cw), calls_of_same.
  - left. subst p. destruct (net_ok_request _ _ _ _ _ _ _ _ _ _ _ _ _ _ _ Hok Hl Hi Hm Hty Hk Hc Hu Hr) as [Ec _].
    symmetry. apply exchanges_same; [done| |done]. intros id. by apply (calls_for_still _ _ cw), calls_of_same.
Qed.

(** *** What an exchange keeps *)

(** [x'] is [x] later: what was called and what was returned stay. *)
Definition later (x x' : exchange) : Prop :=
  x_agentID x' = x_agentID x ∧ x_msg x' = x_msg x ∧ x_calls x ⊆ x_calls x' ∧
  ∀ r, x_result x = Some r → x_result x' = Some r.

Lemma spec_step_later X X' t x : spec_step X X' → X !! t = Some x → ∃ x', X' !! t = Some x' ∧ later x x'.
Proof.
  assert (∀ y, later y y) as Hrefl by by intros y.
  intros Hs Hx. destruct Hs as [X u a msg Hu _|X u msg k o r Hu _|X u msg k Hu|X u a msg c e Hu];
    (destruct (decide (u = t)) as [->|Hne]; [|exists x; rewrite lookup_insert_ne; auto]); [congruence|..];
    rewrite Hx in Hu; injection Hu as ->; rewrite lookup_insert_eq; eexists; (split; [done|]); try done.
  split_and!; try done. apply map_empty_subseteq.
Qed.

Lemma exchanges_later n n' t x :
  net_ok n → rtc net_step n n' → exchanges n !! t = Some x →
  ∃ x', exchanges n' !! t = Some x' ∧ later x x'.
Proof.
  intros Hok Hr. revert x Hok. induction Hr as [n|n n1 n2 Hs _ IH]; intros x Hok Hx; [by exists x|].
  assert (∃ x1, exchanges n1 !! t = Some x1 ∧ later x x1) as (x1 & Hx1 & Ea & Em & Ec & Er).
  { destruct (net_step_refines _ _ Hok Hs) as [<-|H1]; [by exists x|by eapply spec_step_later]. }
  destruct (IH x1 (net_ok_step _ _ Hok Hs) Hx1) as (x2 & Hx2 & Ea' & Em' & Ec' & Er'). exists x2.
  split; [done|]. split_and!; [congruence|congruence|by etrans|auto].
Qed.

Lemma exchange_calls n t x :
  net_ok n → exchanges n !! t = Some x →
  x_calls x = ∅ ∨ ∃ k o, ids k = x_agentID x ∧ local_requests k (x_msg x) = [o] ∧ x_calls x = {[k := [o]]}.
Proof.
  intros Hok. rewrite lookup_exchanges. destruct (n_asked n !! t) as [[a msg]|] eqn:Ht; [|done].
  intros [= <-]. simpl. destruct (calls_for_cases n (Id msg) Hok) as [E|(k & cw & m & _ & (Hd & _) & Em & El & E)];
    [by left|right]. destruct (delivered_asked _ _ _ Hok Hd) as [t' Ht'].
  pose proof (bk_inj _ _ _ (no_book _ Hok) _ _ _ _ Ht' Ht Em) as ->. rewrite Ht in Ht'. injection Ht' as -> ->.
  exists k. eexists. split_and!; [done|exact El|exact E].
Qed.

Lemma exchange_result n t x m :
  net_ok n → exchanges n !! t = Some x → x_result x = Some (Ok m) →
  ∃ k, ids k = x_agentID x ∧ x_calls x = made_by k (local_requests k (x_msg x)) ∧ m = agent_reply k (x_msg x).
Proof.
  intros Hok. rewrite lookup_exchanges. destruct (n_asked n !! t) as [[a msg]|] eqn:Ht; [|done].
  intros [= <-]. simpl. destruct (n_requests n !! t) as [r|] eqn:Hr; [|done]. simpl. intros Ho.
  destruct (bk_asked _ _ _ (no_book _ Hok) _ _ Hr) as (a' & Ha & _). rewrite Ht in Ha. injection Ha as <- ->.
  destruct (answer_is_reply n t r m Hok Hr) as (k & Hk & Hc & ->).
  { destruct r; simpl in *; by simplify_eq. }
  rewrite Ht in Hk. injection Hk as ->. by exists k.
Qed.

(** ** Properties *)

(** C1: forwarding is a remote call.  From a server without connections, whatever the
    interleaving of HTTP requests, stream handlers, sweeps, shutdown, reconnecting
    and restarted agents, and whatever the network delays or loses, the exchanges of
    the HTTP goroutines are those of a remote call, step by step: every step of the
    proxy is a step of the specification or changes no exchange.  For a request the
    agent processes together call their local services at most once, by a process with
    the name the request was meant for and with what [HandleRequest] makes of it, and
    what was called stays called; a goroutine returns at most once, and a response it
    returns is that process's answer to its own request, made when the call was. *)
Theorem proxy_refines_remote_call asm n :
  from_option asm_inv True asm → from_option asm_view ∅ asm = ∅ →
  rtc net_step (net_init asm) n →
  rtc spec_step ∅ (exchanges n) ∧
  (∀ n', net_step n n' → exchanges n = exchanges n' ∨ spec_step (exchanges n) (exchanges n')) ∧
  ∀ t x, exchanges n !! t = Some x →
    (x_calls x = ∅ ∨
     ∃ k o, ids k = x_agentID x ∧ local_requests k (x_msg x) = [o] ∧ x_calls x = {[k := [o]]}) ∧
    (∀ m, x_result x = Some (Ok m) →
       ∃ k, ids k = x_agentID x ∧ x_calls x = made_by k (local_requests k (x_msg x)) ∧
         m = agent_reply k (x_msg x)) ∧
    (∀ n', rtc net_step n n' → ∃ x', exchanges n' !! t = Some x' ∧ later x x').
Proof.
  intros Hi Hv Hr. pose proof (net_reachable_ok _ _ Hi Hv Hr) as Hok. split_and!.
  - assert (exchanges (net_init asm) = ∅) as <-.
    { apply map_eq. intros t. by rewrite lookup_exchanges, !lookup_empty. }
    eapply (rtc_simulation net_step spec_step net_ok exchanges); [exact Hr|by apply net_ok_init|].
    intros n1 n2 Hok1 Hs. split; [by eapply net_ok_step|by apply net_step_refines].
  - intros n' Hs. by apply net_step_refines.
  - intros t x Hx. split_and!; [by eapply exchange_calls| |].
    + intros m. by eapply exchange_result.
    + intros n' Hr'. by eapply exchanges_later.
Qed.

(** C6: no HTTP request makes the agents call their local services twice.  For the id
    of a request, the calls that all agent processes together have made number at most
    one; the one call is what [HandleRequest] makes of the message, by a process of the
    agent the request was meant for, after the goroutine of the request had put the
    message on that agent's connection. *)
Theorem one_call_per_request asm n id :
  from_option asm_inv True asm → from_option asm_view ∅ asm = ∅ →
  rtc net_step (net_init asm) n →
  calls_for (n_agents n) id = ∅ ∨
  ∃ k t r msg, calls_for (n_agents n) id =
      {[k := [outgoing (mkRH (urls k) (serve k msg)) msg (order k msg)]]} ∧
    Id msg = id ∧ n_asked n !! t = Some (ids k, msg) ∧ n_requests n !! t = Some r ∧ past r.
Proof.
  intros Hi Hv Hr. pose proof (net_reachable_ok _ _ Hi Hv Hr) as Hok.
  destruct (calls_for_cases n id Hok) as [|(k & cw & msg & _ & (Hd & _) & Em & _ & E)]; [by left|right].
  destruct Hd as (c & Hc & Ek & Ec). destruct (de_asked _ _ _ _ (no_delivered _ Hok) _ Hc) as [t Ht].
  destruct (delivery_queued _ _ Hok Hc) as (ptr & x & _ & _ & Hq).
  destruct (qk_from _ _ _ _ _ (no_queue _ Hok) _ _ _ Hq) as [Ety|(t' & a & r & Ha & Hrq & Hp & _)].
  { pose proof (delivery_type _ _ Hok Hc). congruence. }
  assert (t' = t) as -> by by eapply (bk_inj _ _ _ (no_book _ Hok) _ _ _ _ Ha Ht).
  rewrite Ek, Ec in Ht. exists k, t, r, msg. done.
Qed.
End Proofs.

(** ** Witnesses: one request to one agent *)

Module OneExchange.
Definition ids (k : nat) : string := "a".
Definition tls (k : nat) : bool := false.
Definition urls (k : nat) : string := "http://local".
Definition serve (k : nat) (m : ProxyMessage) : HttpEnv :=
  mkHttpEnv (λ _ _, None) (λ _, Ok (mkResponse 200 ∅ (Ok (Payload m)))).
Definition order (k : nat) (m : ProxyMessage) : list string := [].
Definition msg : ProxyMessage := mkMsg "r1" MessageType_REQUEST "hello" ∅.
Definition hello : ProxyMessage := client_first_message "u" "a".
Definition reply : ProxyMessage := agent_reply urls serve order 0 msg.
Definition call : Outgoing := outgoing (mkRH (urls 0) (serve 0 msg)) msg (order 0 msg).
Notation step := (net_step (S := option string) ids tls urls serve order).

Ltac side :=
  lazymatch goal with
  | |- input _ _ _ _ => exists 0, 0; eexists; split; [reflexivity|split; [reflexivity|]]; simpl; set_solver
  | |- cw_reqs _ ⊆ _ => first [apply delete_subseteq | reflexivity]
  | |- _ => first [runs | done]
  end.
Tactic Notation "run" uconstr(c) := eapply rtc_l; [eapply c; side|]; evaluate.
Tactic Notation "server" uconstr(c) := eapply rtc_l; [eapply f_server, c; side|]; evaluate.
Tactic Notation "local" uconstr(c) :=
  eapply rtc_l; [eapply f_server, (w_local _ _ _ _ _ 0); [reflexivity|eapply c; side]|]; evaluate.
Tactic Notation "process" uconstr(d) uconstr(c) :=
  eapply rtc_l; [eapply f_server, d; [runs..|eapply c; side]|]; evaluate.
Tactic Notation "agent" uconstr(c) :=
  eapply rtc_l; [eapply (f_agent _ _ _ _ _ _ _ _ _ _ _ _ 0); [reflexivity|eapply c; side|side]|]; evaluate.
Tactic Notation "gen" uconstr(c) :=
  eapply rtc_l; [eapply (f_agent _ _ _ _ _ _ _ _ _ _ _ _ 0);
    [reflexivity|eapply (c_gen _ _ _ _ _ _ 0); [reflexivity|eapply c; side]|side]|]; evaluate.

Lemma reachable : ∃ n, rtc step (net_init Reconnect.fresh_asm) n ∧
  n_asked n = {[7 := ("a", msg)]} ∧ calls_for (n_agents n) "r1" = {[0 := [call]]} ∧
  n_requests n = {[7 := RDone msg 0 (Ok reply)]}.
Proof.
  eexists. split.
  - run (f_start _ _ _ _ _ _ _ _ _ _ _ _ 0).
    eapply rtc_l; [eapply (f_agent _ _ _ _ _ _ _ _ _ _ _ _ 0);
      [reflexivity|apply c_loop; by eapply (c_connected _ _ _ _ _ OneClient.good "u" 0)|done]|];
      evaluate.
    run (f_link _ _ _ _ _ _ _ _ _ _ _ _ 0 0 0).
    server (w_accept _ _ _ _ _ 0).
    local (l_first _ _ _ hello).
    server (w_register _ _ _ _ _ _ 0 _ _ _ 0%Z).
    server (w_main_seen _ _ _ _ _ _ 0 _ _ _ _ 0%Z).
    process (w_main_process _ _ _ _ _ _ 0) (p_ping _ _ _ "p").
    process (w_main_process _ _ _ _ _ _ 0) (p_pong _ _ _ _ CaseSend).
    server (w_send_take _ _ _ _ _ _ 0).
    local (l_send_ok).
    run (f_skip _ _ _ _ _ _ _ _ _ _ _ _ 0).
    run (f_call _ _ _ _ _ _ _ _ _ _ _ _ 7 "a" msg).
    run (f_register _ _ _ _ _ _ _ _ _ _ _ _ _ _ _ _ 7).
    run (f_lookup _ _ _ _ _ _ _ _ _ _ _ _ _ _ _ _ 7).
    run (f_send _ _ _ _ _ _ _ _ _ _ _ _ _ _ _ _ 7 _ _ _ _ CaseSend).
    server (w_send_take _ _ _ _ _ _ 0).
    local (l_send_ok).
    gen (g_recv_go).
    eapply rtc_l; [eapply (f_request _ _ _ _ _ _ _ _ _ _ _ _ 0 0 0 _ 1 _ _ 0);
      [reflexivity..|eapply (c_recv_request _ _ _ _ _ _ 0 _ 0 msg); reflexivity|reflexivity|reflexivity]|];
      evaluate.
    agent (c_handle _ _ _ _ _ _ _ 0).
    agent (c_send_take _ _ _ _ _ _ _ 0).
    gen (g_send_go).
    agent (c_sent _ _ _ _ _ _ 0).
    local (l_recv_check).
    local (l_recv_msg _ _ _ reply).
    server (w_recv_seen _ _ _ _ _ _ 0 _ _ _ _ 0%Z).
    process (w_recv_process _ _ _ _ _ _ 0) (p_response).
    process (w_recv_process _ _ _ _ _ _ 0) (p_deliver).
    run (f_wait _ _ _ _ _ _ _ _ _ _ _ _ _ _ _ _ 7 _ _ WaitResponse).
    run (f_return _ _ _ _ _ _ _ _ _ _ _ _ _ _ _ _ 7).
    apply rtc_refl.
  - split_and!; reflexivity.
Qed.
End OneExchange.

Lemma proxy_refines_remote_call_witness :
  ∃ n, n_requests n !! 7 = Some (RDone OneExchange.msg 0 (Ok OneExchange.reply)) ∧
    rtc (spec_step OneExchange.ids OneExchange.urls OneExchange.serve OneExchange.order) ∅
      (exchanges (S := option string) n) ∧
    exchanges n !! 7 =
      Some (mkEx "a" OneExchange.msg {[0 := [OneExchange.call]]} (Some (Ok OneExchange.reply))) ∧
    ∀ n', rtc OneExchange.step n n' → ∃ x, exchanges n' !! 7 = Some x ∧ x_result x = Some (Ok OneExchange.reply).
Proof.
  destruct OneExchange.reachable as (n & Hr & Ha & Hc & Hq). exists n. split; [by rewrite Hq|].
  assert (exchanges n !! 7 =
    Some (mkEx "a" OneExchange.msg {[0 := [OneExchange.call]]} (Some (Ok OneExchange.reply)))) as Hx.
  { rewrite lookup_exchanges, Ha, Hq, <- Hc. reflexivity. }
  destruct (proxy_refines_remote_call OneExchange.ids OneExchange.tls OneExchange.urls OneExchange.serve
      OneExchange.order Reconnect.fresh_asm n) as (Hs & _ & Hl).
  - exact Reconnect.fresh_inv.
  - exact Reconnect.fresh_empty.
  - exact Hr.
  - split; [exact Hs|]. split; [exact Hx|]. intros n' Hn'. destruct (Hl 7 _ Hx) as (_ & _ & Hlater).
    destruct (Hlater n' Hn') as (x' & Hx' & _ & _ & _ & Hres). exists x'. split; [exact Hx'|].
    apply Hres. reflexivity.
Defined.

Lemma one_call_per_request_witness :
  ∃ n, calls_for (n_agents (S := option string) n) "r1" = {[0 := [OneExchange.call]]} ∧
    ∃ t r, n_asked n !! t = Some ("a", OneExchange.msg) ∧ n_requests n !! t = Some r ∧ past r.
Proof.
  destruct OneExchange.reachable as (n & Hr & Ha & Hc & Hq). exists n. split; [exact Hc|].
  destruct (one_call_per_request OneExchange.ids OneExchange.tls OneExchange.urls OneExchange.serve
    OneExchange.order Reconnect.fresh_asm n "r1") as [E|(k & t & r & m & _ & _ & Ht & Hrq & Hp)].
  - exact Reconnect.fresh_inv.
  - exact Reconnect.fresh_empty.
  - exact Hr.
  - rewrite Hc in E. by destruct (insert_non_empty ∅ 0 [OneExchange.call]).
  - exists t, r. split; [|split; [exact Hrq|exact Hp]]. rewrite Ha in *.
    apply lookup_singleton_Some in Ht as [<- E]. rewrite lookup_singleton_eq. reflexivity.
Defined.
