(* ===== verification/Deadlines.v ===== *)
(** * How long a proxied request takes

    The whole proxy of Forwarding.v with a clock: the five-second timer of
    [SendToAgent] ([src/internal/grpc/server/connection_manager.go]) and the
    thirty-second timer of [SendRequestToAgent] ([server.go]) bound how long the
    goroutine of an HTTP request stays at each point of the code, whatever agents,
    streams, sweeps and other requests do; and [cm.mu], which [SendToAgent] takes to
    read and [Register], [Deregister], [removeStaleConnections] and [Stop] keep while
    they stop the HTTP servers of agents, up to five seconds each
    ([StopAgentServer], [src/internal/api/http/agent_server_manager.go]).  [slack]
    bounds how late the runtime lets a goroutine go on that can.

    The clock of a request starts when [SendRequestToAgent] is called: the body has
    been read by then, for which the code sets no limit of time. *)
From stdpp Require Import base strings list gmap fin_maps relations.
From Stdlib Require Import ZArith Lia.
From S2P Require Import Prelude GoStd Proto Http RequestHandler GrpcClient.
From S2P Require Import ServerInterface ConnectionManager GrpcServer StreamHandler Forwarding.

(** ** The clock *)

Definition sendTimeout : Z := 5 * second.
Definition requestTimeout : Z := 30 * second.
Definition serverShutdownTimeout : Z := 5 * second.

(** Where a goroutine is in [SendRequestToAgent]: before it registers its channel, in
    [SendToAgent] before the lookup and at its [select], at the [select] for the
    response, at the deferred delete, returned. *)
Inductive point : Type := AtStart | AtLookup | AtSend | AtWait | AtReturn | AtDone.

#[export] Instance point_eq_dec : EqDecision point.
Proof. solve_decision. Defined.

(** How long it can stay there: at a [select], until its [time.After]. *)
Definition stay (p : point) : option Z :=
  match p with
  | AtStart | AtLookup | AtReturn => Some 0%Z
  | AtSend => Some sendTimeout
  | AtWait => Some requestTimeout
  | AtDone => None
  end.

Section Code.
Context {S : Type} `{AgentServerOps S}.
Context (ids : nat → string) (tls : nat → bool) (urls : nat → string).
Context (serve : nat → ProxyMessage → HttpEnv) (order : nat → ProxyMessage → list string).
Notation net := (@net S).

Definition point_at (r : request) (sending : bool) : point :=
  match r with
  | RStart _ _ => AtStart
  | RPending _ _ _ => if sending then AtSend else AtLookup
  | RWait _ _ => AtWait
  | RReturn _ _ _ => AtReturn
  | RDone _ _ _ => AtDone
  end.

Definition sending (w : @world S) (t : nat) : bool := bool_decide (is_Some (w_sends w !! t)).

Definition point_of (n : net) (t : nat) : option point :=
  (λ r, point_at r (sending (n_world n) t)) <$> n_requests n !! t.

(** The proxy, the time, when each HTTP goroutine began and when it came to the point
    where it is; when the lock of the connections is given back, or was last; and how
    many agents, at most, have been registered when it was taken. *)
Record clocked : Type := mkClocked {
  k_net : net;
  k_clock : Z;
  k_begun : nat → Z;
  k_since : nat → Z;
  k_until : Z;
  k_most : nat;
}.

Definition clocked_init (asm : option S) (now : Z) : clocked :=
  mkClocked (net_init asm) now (λ _, now) (λ _, now) now 0.

Definition registered (n : net) : gmap string nat := agents (connManager (w_srv (n_world n))).

(** How long [cm.mu] is kept, when [m] agents are registered: each is stopped at most
    once. *)
Definition hold (slack : Z) (m : nat) : Z := serverShutdownTimeout * Z.of_nat m + slack.

(** When a goroutine that came to [p] at [since] has to go on: before the lookup it may
    have to wait for the lock. *)
Definition deadline (until since : Z) (p : point) : option Z :=
  (λ d, (if decide (p = AtLookup) then Z.max since until else since) + d)%Z <$> stay p.

Definition restamp (n n' : net) (now : Z) (since : nat → Z) (t : nat) : Z :=
  if decide (point_of n t = point_of n' t) then since t else now.

Definition begin_stamp (n : net) (now : Z) (begun : nat → Z) (t : nat) : Z :=
  match point_of n t with Some _ => begun t | None => now end.

(** Nobody gets past the lookup. *)
Definition no_lookup (n n' : net) : Prop :=
  ∀ t, point_of n t = Some AtLookup → point_of n' t = Some AtLookup.

Inductive clocked_step (slack : Z) : clocked → clocked → Prop :=
  (* a step of the proxy takes no time; the registered agents change under the lock, and
     nobody reads them while it is kept *)
  | k_act n n' now bg sc un mo :
      net_step ids tls urls serve order n n' →
      registered n' = registered n ∨ (now ≤ un)%Z →
      (un ≤ now)%Z ∨ no_lookup n n' →
      clocked_step slack (mkClocked n now bg sc un mo)
        (mkClocked n' now (begin_stamp n now bg) (restamp n n' now sc) un mo)
  (* the lock is taken, for a time; an [RWMutex] lets those pass first that were waiting
     to read when it was given back *)
  | k_lock n now bg sc un mo e :
      (un ≤ now)%Z → (∀ t, point_of n t = Some AtLookup → un ≤ sc t)%Z →
      (0 ≤ e ≤ hold slack (size (registered n)))%Z →
      clocked_step slack (mkClocked n now bg sc un mo)
        (mkClocked n now bg sc (now + e)%Z (mo `max` size (registered n)))
  (* time passes while no goroutine is overdue *)
  | k_tick n now bg sc un mo e :
      (0 ≤ e)%Z →
      (∀ t p d, point_of n t = Some p → deadline un (sc t) p = Some d → now + e ≤ d + slack)%Z →
      clocked_step slack (mkClocked n now bg sc un mo) (mkClocked n (now + e)%Z bg sc un mo).
End Code.

(** ** Facts *)

Definition rank (p : point) : nat :=
  match p with
  | AtStart => 0 | AtLookup => 1 | AtSend => 2 | AtWait => 3 | AtReturn => 4 | AtDone => 5
  end.

(** When a goroutine has come to a point at the latest, after it began, and how long it
    stays there at most. *)
Definition arrival (slack : Z) (m : nat) (p : point) : Z :=
  match p with
  | AtStart => 0
  | AtLookup => slack
  | AtSend => hold slack m + 3 * slack
  | AtWait => hold slack m + sendTimeout + 4 * slack
  | AtReturn => hold slack m + sendTimeout + requestTimeout + 5 * slack
  | AtDone => hold slack m + sendTimeout + requestTimeout + 6 * slack
  end.

Definition leaving (slack : Z) (m : nat) (p : point) : Z :=
  match stay p with
  | Some d => d + slack + if decide (p = AtLookup) then hold slack m + slack else 0
  | None => 0
  end.

Lemma hold_mono slack m m' : m ≤ m' → (hold slack m ≤ hold slack m')%Z.
Proof. unfold hold, serverShutdownTimeout, second. lia. Qed.

Lemma hold_nonneg slack m : (0 ≤ slack)%Z → (slack ≤ hold slack m)%Z.
Proof. unfold hold, serverShutdownTimeout, second. lia. Qed.

Lemma arrival_mono slack m m' p : m ≤ m' → (arrival slack m p ≤ arrival slack m' p)%Z.
Proof. intros Hm%(hold_mono slack). destruct p; simpl; lia. Qed.

Lemma arrival_later slack m p p' :
  (0 ≤ slack)%Z → rank p < rank p' → (arrival slack m p + leaving slack m p ≤ arrival slack m p')%Z.
Proof.
  intros Hs Hr. pose proof (hold_nonneg slack m Hs).
  destruct p, p'; simpl in *; unfold leaving; simpl; unfold sendTimeout, requestTimeout, second; lia.
Qed.

Lemma stay_ends p : stay p = None → p = AtDone.
Proof. by destruct p. Qed.

Section Proofs.
Context {S : Type} `{AgentServerSpec S}.
Context (ids : nat → string) (tls : nat → bool) (urls : nat → string).
Context (serve : nat → ProxyMessage → HttpEnv) (order : nat → ProxyMessage → list string).
Notation net := (@net S).
Notation net_step := (net_step ids tls urls serve order).
Notation net_ok := (net_ok ids urls serve order).

(** What one step does to one goroutine. *)
Definition moves (n n' : net) (t : nat) : Prop :=
  match point_of n t, point_of n' t with
  | None, q => q = None ∨ q = Some AtStart
  | Some p, Some p' => p' = p ∨ rank p < rank p'
  | Some _, None => False
  end.

Lemma moves_same (n n' : net) t : point_of n' t = point_of n t → moves n n' t.
Proof. unfold moves. intros ->. destruct (point_of n t); auto. Qed.

(** A goroutine that goes on, while the others stay. *)
Lemma moves_one w w' rq ak ag ln gt cl t0 r r' t :
  rq !! t0 = Some r → (∀ t', t' ≠ t0 → w_sends w' !! t' = w_sends w !! t') →
  rank (point_at r (sending w t0)) < rank (point_at r' (sending w' t0)) →
  moves (mkNet w rq ak ag ln gt cl) (mkNet w' (<[t0 := r']> rq) ak ag ln gt cl) t.
Proof.
  intros Hr Hs Hlt. destruct (decide (t = t0)) as [->|Hne].
  - unfold moves, point_of. simpl. rewrite Hr, lookup_insert_eq. by right.
  - apply moves_same. unfold point_of, sending. simpl. by rewrite lookup_insert_ne, Hs.
Qed.

#[local] Ltac by_rank := cbn [point_at]; repeat destruct (sending _ _); simpl; lia.

Lemma net_step_moves n n' t : net_ok n → net_step n n' → moves n n' t.
Proof.
  intros Hok Hs. destruct Hs as [w rq ak ag ln gt cl t0 a msg Ht Hty Hf
    |s s' hs sn q rq ak ag ln gt cl t0 a msg ch Ht E|s s' hs sn q rq ak ag ln gt cl t0 a msg ch ptr Ht Hsn E
    |s s' hs sn q rq ak ag ln gt cl t0 a msg ch e Ht Hsn E
    |s s' hs sn q rq ak ag ln gt cl t0 a msg ch ptr choice Ht Hsn E
    |s s' hs sn q rq ak ag ln gt cl t0 a msg ch ptr choice e Ht Hsn E
    |s s' hs sn q rq ak ag ln gt cl t0 a msg ch ptr choice e Ht Hsn E
    |s s' hs sn q rq ak ag ln gt cl t0 msg ch choice r Ht E|s s' hs sn q rq ak ag ln gt cl t0 msg ch r Ht E
    |w w' rq ak ag ln gt cl Hs|w rq ak ag ln gt cl k Hk|w rq ak ag ln gt cl k cw cw' Hk Hc Hr
    |w rq ak ag ln gt cl i k s Hi Hl|w rq ak ag ln gt cl i k s h p cw cw' u msg Hl Hi Hp Hm Hty Hk Hc Hu Hr
    |w rq ak ag ln gt cl i]; try (by apply moves_same).
  - unfold moves, point_of. simpl. destruct (decide (t = t0)) as [->|Hne].
    + rewrite Ht, lookup_insert_eq. by right.
    + rewrite lookup_insert_ne by done. destruct (rq !! t); simpl; auto.
  - eapply moves_one; [exact Ht|done|]. by_rank.
  - rewrite <- (insert_id rq t0 _ Ht) at 2. eapply moves_one; [exact Ht| |].
    + intros t' Hne. simpl. by rewrite lookup_insert_ne.
    + unfold sending. simpl. rewrite Hsn, lookup_insert_eq. simpl. lia.
  - eapply moves_one; [exact Ht|done|]. by_rank.
  - eapply moves_one; [exact Ht|intros t' Hne; simpl; by rewrite lookup_delete_ne|]. by_rank.
  - eapply moves_one; [exact Ht|intros t' Hne; simpl; by rewrite lookup_delete_ne|]. by_rank.
  - eapply moves_one; [exact Ht|intros t' Hne; simpl; by rewrite lookup_delete_ne|]. by_rank.
  - eapply moves_one; [exact Ht|done|]. simpl. lia.
  - eapply moves_one; [exact Ht|done|]. simpl. lia.
  - apply moves_same. unfold point_of, sending. simpl. destruct Hok as [W Y B Q F A C]. simpl in *.
    destruct (hstep_quiet _ _ _ _ W F (so_pending _ Y) Hs) as [Esn _ _ _]. by rewrite Esn.
Qed.

(** A step of the goroutine [t] alone. *)
Definition own_go (n n' : net) (t : nat) (p p' : point) : Prop :=
  net_step n n' ∧ registered n' = registered n ∧ rank p < rank p' ∧
  point_of n' t = Some p' ∧ ∀ t', t' ≠ t → point_of n' t' = point_of n t'.

(** Whatever the others do, it can go on, at a [select] when its timer fires. *)
Lemma goroutine_goes_on n t p :
  net_ok n → point_of n t = Some p → p ≠ AtDone → ∃ n' p', own_go n n' t p p'.
Proof.
  intros Hok Ep Hp. destruct n as [[s hs sn q] rq ak ag ln gt cl]. unfold point_of in Ep. simpl in Ep.
  destruct (rq !! t) as [r|] eqn:Ht; [|done]. injection Ep as <-.
  assert (∀ s' sn' r', rank (point_at r (sending (mkWorld s hs sn q) t)) < rank (point_at r' (sending (mkWorld s' hs sn' q) t)) →
    agents (connManager s') = agents (connManager s) → (∀ t', t' ≠ t → sn' !! t' = sn !! t') →
    net_step (mkNet (mkWorld s hs sn q) rq ak ag ln gt cl) (mkNet (mkWorld s' hs sn' q) (<[t := r']> rq) ak ag ln gt cl) →
    ∃ n' p', own_go (mkNet (mkWorld s hs sn q) rq ak ag ln gt cl) n' t
      (point_at r (sending (mkWorld s hs sn q) t)) p') as Hgo.
  { intros s' sn' r' Hlt Ecm Hsn Hs. exists (mkNet (mkWorld s' hs sn' q) (<[t := r']> rq) ak ag ln gt cl). eexists.
    split; [exact Hs|]. split; [exact Ecm|]. split; [exact Hlt|]. split.
    - unfold point_of. simpl. by rewrite lookup_insert_eq.
    - intros t' Hne. unfold point_of, sending. simpl. by rewrite lookup_insert_ne, Hsn. }
  destruct r as [a msg|a msg ch|msg ch|msg ch r|msg ch r]; [| | | |by destruct Hp].
  - eapply (Hgo _ sn); cycle 3; [by eapply f_register|by_rank|done..].
  - destruct (sn !! t) as [[[b ptr] m]|] eqn:Hs.
    + destruct (bk_send _ _ _ (no_book _ _ _ _ _ Hok) _ _ _ _ Hs) as [ch' Hch]. simpl in Hch.
      rewrite Ht in Hch. injection Hch as <- <- <-.
      destruct (qk_send _ _ _ _ _ (no_queue _ _ _ _ _ Hok) _ _ _ _ Hs) as (c & Hc & _). simpl in Hc.
      eapply (Hgo _ (delete t sn)); cycle 3.
      * eapply (f_send_failed _ _ _ _ _ _ _ _ _ _ _ _ _ _ _ _ _ _ _ _ _ CaseTimeout); [exact Ht|exact Hs|].
        unfold in_cm, zoom, SendToAgent_select, on_conn. rewrite Hc. reflexivity.
      * unfold sending. simpl. rewrite Hs. simpl. lia.
      * done.
      * intros t' Hne. by rewrite lookup_delete_ne.
    + destruct (agents (connManager s) !! a) as [ptr|] eqn:Ha.
      * assert (in_cm (SendToAgent_lookup a) s = Ret (Ok ptr) s) as El.
        { unfold in_cm, zoom, SendToAgent_lookup, mbind, M_bind, get. rewrite Ha. by destruct s. }
        exists (mkNet (mkWorld s hs (<[t := (a, ptr, msg)]> sn) q) rq ak ag ln gt cl), AtSend.
        split; [by eapply f_lookup|]. split; [done|]. unfold point_of, sending. simpl.
        rewrite Ht, Hs, lookup_insert_eq. simpl. split; [lia|]. split; [done|].
        intros t' Hne. by rewrite lookup_insert_ne.
      * assert (in_cm (SendToAgent_lookup a) s = Ret (Err (Errorf ("agent not found: " +:+ a))) s) as El.
        { unfold in_cm, zoom, SendToAgent_lookup, mbind, M_bind, get. rewrite Ha. by destruct s. }
        eapply (Hgo s sn); [|done|done|by eapply f_lookup_failed]. by_rank.
  - eapply (Hgo _ sn); cycle 3;
      [by eapply (f_wait _ _ _ _ _ _ _ _ _ _ _ _ _ _ _ _ _ _ _ WaitTimeout)|simpl; lia|done..].
  - eapply (Hgo _ sn); cycle 3; [by eapply f_return|simpl; lia|done..].
Qed.

(** ** The invariant *)

Record clocked_ok (slack : Z) (k : clocked (S := S)) : Prop := {
  ck_net : net_ok (k_net k);
  ck_until : (k_until k ≤ k_clock k + hold slack (k_most k))%Z;
  ck_times : ∀ t p, point_of (k_net k) t = Some p →
    (k_begun k t ≤ k_since k t ≤ k_clock k)%Z ∧
    (k_since k t ≤ k_begun k t + arrival slack (k_most k) p)%Z ∧
    (∀ d, deadline (k_until k) (k_since k t) p = Some d → k_clock k ≤ d + slack)%Z ∧
    (p = AtLookup → k_until k ≤ k_since k t + hold slack (k_most k) + slack)%Z;
}.

Notation clocked_step := (clocked_step ids tls urls serve order).

(** A goroutine that has not returned is where it is for so long at most. *)
Lemma leaves_in_time slack k t p :
  (0 ≤ slack)%Z → clocked_ok slack k → point_of (k_net k) t = Some p → p ≠ AtDone →
  (k_clock k ≤ k_since k t + leaving slack (k_most k) p)%Z.
Proof.
  intros Hsl Hok Ep Hp. destruct (ck_times _ _ Hok _ _ Ep) as (_ & _ & Hd & Hu).
  destruct (stay p) as [d|] eqn:Es; [|by apply stay_ends in Es].
  unfold deadline in Hd. rewrite Es in Hd. specialize (Hd _ eq_refl). unfold leaving. rewrite Es.
  pose proof (hold_nonneg slack (k_most k) Hsl). destruct (decide (p = AtLookup)) as [Hl|_]; [|lia].
  specialize (Hu Hl). lia.
Qed.

(** A goroutine has come to a point now. *)
Lemma arrives_now slack un m now p :
  (0 ≤ slack)%Z → (un ≤ now + hold slack m)%Z →
  (∀ d, deadline un now p = Some d → now ≤ d + slack)%Z ∧
  (p = AtLookup → un ≤ now + hold slack m + slack)%Z.
Proof.
  intros Hsl Hu. split; [|lia]. unfold deadline.
  intros d Hd. destruct p; simpl in Hd; simplify_eq; unfold sendTimeout, requestTimeout, second; lia.
Qed.

Lemma clocked_ok_act slack n n' now bg sc un mo :
  (0 ≤ slack)%Z → clocked_ok slack (mkClocked n now bg sc un mo) → net_step n n' →
  clocked_ok slack (mkClocked n' now (begin_stamp n now bg) (restamp n n' now sc) un mo).
Proof.
  intros Hsl Hok Hs. pose proof Hok as [Hn Hu Ht]. simpl in *.
  split; simpl; [eapply net_ok_step; [exact Hn|exact Hs]|done|]. intros t p' Ep'.
  pose proof (net_step_moves _ _ t Hn Hs) as Hm. unfold moves in Hm. rewrite Ep' in Hm.
  destruct (arrives_now slack un mo now p' Hsl Hu) as [Hd' Hl'].
  unfold restamp, begin_stamp. rewrite Ep'. destruct (point_of n t) as [p|] eqn:Ep.
  - destruct (Ht _ _ Ep) as (Hb & Ha & Hd & Hl). destruct Hm as [->|Hlt]; [by rewrite decide_True by done|].
    assert (p ≠ AtDone) as Hne by (intros ->; destruct p'; simpl in Hlt; lia).
    rewrite decide_False by (intros [= ->]; lia).
    pose proof (leaves_in_time _ _ t p Hsl Hok Ep Hne). pose proof (arrival_later slack mo _ _ Hsl Hlt).
    simpl in *. split_and!; [lia..|done|done].
  - rewrite decide_False by done. destruct Hm as [|[= ->]]; [done|]. simpl.
    split_and!; [lia..|done|done].
Qed.

(** Taking the lock: a reader that was late for it already has had its turn. *)
Lemma clocked_ok_lock slack n now bg sc un mo e :
  (0 ≤ slack)%Z → clocked_ok slack (mkClocked n now bg sc un mo) → (un ≤ now)%Z →
  (∀ t, point_of n t = Some AtLookup → un ≤ sc t)%Z → (0 ≤ e ≤ hold slack (size (registered n)))%Z →
  clocked_ok slack (mkClocked n now bg sc (now + e) (mo `max` size (registered n))).
Proof.
  intros Hsl [Hn Hu Ht] Hfree Hw He. simpl in *.
  pose proof (hold_mono slack (size (registered n)) (mo `max` size (registered n)) ltac:(lia)) as Hh.
  split; simpl; [done|lia|]. intros t p Ep. destruct (Ht _ _ Ep) as (Hb & Ha & Hd & Hl).
  pose proof (arrival_mono slack mo (mo `max` size (registered n)) p ltac:(lia)).
  split_and!; [lia..| |].
  - unfold deadline in *. intros d Hs. destruct (stay p) as [d0|]; simplify_eq/=. specialize (Hd _ eq_refl).
    destruct (decide (p = AtLookup)); lia.
  - intros ->. specialize (Hw _ Ep). unfold deadline in Hd. simpl in Hd. specialize (Hd _ eq_refl). lia.
Qed.

Lemma clocked_ok_step slack k k' : (0 ≤ slack)%Z → clocked_ok slack k → clocked_step slack k k' → clocked_ok slack k'.
Proof.
  intros Hsl Hok Hs. destruct Hs as [n n' now bg sc un mo Hs _ _|n now bg sc un mo e Hf Hw He|n now bg sc un mo e He Hd].
  - by apply clocked_ok_act.
  - by eapply clocked_ok_lock.
  - destruct Hok as [Hn Hu Ht]. split; simpl in *; [done|lia|]. intros t p Ep.
    destruct (Ht _ _ Ep) as (Hb & Ha & _ & Hl). split_and!; [lia..| |done]. intros d Hst. by eapply Hd.
Qed.

Lemma clocked_reachable_ok slack asm start k :
  from_option asm_inv True asm → from_option asm_view ∅ asm = ∅ → (0 ≤ slack)%Z →
  rtc (clocked_step slack) (clocked_init asm start) k → clocked_ok slack k.
Proof.
  intros Hi Hv Hsl Hr. eapply rtc_invariant; [exact Hr| |intros ???; by apply clocked_ok_step].
  pose proof (hold_nonneg slack 0 Hsl).
  split; simpl; [by apply net_ok_init|lia|]. intros t p. unfold point_of. simpl. by rewrite lookup_empty.
Qed.

(** ** Time passes *)

Lemma clocked_go slack n n' t p p' now bg sc un mo :
  own_go n n' t p p' → point_of n t = Some p → p ≠ AtLookup ∨ (un ≤ now)%Z →
  clocked_step slack (mkClocked n now bg sc un mo)
    (mkClocked n' now (begin_stamp n now bg) (restamp n n' now sc) un mo).
Proof.
  intros (Hs & Hr & _ & _ & Ho) Ep Hfree. constructor; [done|by left|].
  destruct Hfree as [Hp|]; [right|by left]. intros t' Et. rewrite Ho; [done|]. intros ->. congruence.
Qed.

(** The goroutine [t] has returned, or it waits for the lock. *)
Definition settled (k : clocked (S := S)) (t : nat) : Prop :=
  match point_of (k_net k) t with
  | None | Some AtDone => True
  | Some AtLookup => (k_clock k < k_until k)%Z
  | Some _ => False
  end.

Definition same_time (k k' : clocked (S := S)) : Prop := k_clock k' = k_clock k ∧ k_until k' = k_until k.

Lemma settle_one slack k t :
  net_ok (k_net k) →
  ∃ k', rtc (clocked_step slack) k k' ∧ net_ok (k_net k') ∧ same_time k k' ∧ settled k' t ∧
    ∀ t', t' ≠ t → point_of (k_net k') t' = point_of (k_net k) t'.
Proof.
  assert (∀ m k, net_ok (k_net k) → (∀ p, point_of (k_net k) t = Some p → 5 - rank p ≤ m) →
    ∃ k', rtc (clocked_step slack) k k' ∧ net_ok (k_net k') ∧ same_time k k' ∧ settled k' t ∧
      ∀ t', t' ≠ t → point_of (k_net k') t' = point_of (k_net k) t') as Hind.
  2:{ intros Hok. apply (Hind 5); [done|]. intros. lia. }
  clear k. intros m. induction m as [|m IH]; intros [n now bg sc un mo] Hok Hm; simpl in *.
  all: destruct (point_of n t) as [p|] eqn:Ep;
    [|eexists; split; [apply rtc_refl|]; split_and!; [done..|by unfold settled; simpl; rewrite Ep|done]].
  - specialize (Hm _ eq_refl). assert (p = AtDone) as -> by (destruct p; simpl in Hm; lia || done).
    eexists; split; [apply rtc_refl|]; split_and!; [done..|by unfold settled; simpl; rewrite Ep|done].
  - assert (settled (mkClocked n now bg sc un mo) t ∨ p ≠ AtDone ∧ (p ≠ AtLookup ∨ (un ≤ now)%Z)) as [Hd|[Hd Hf]].
    { unfold settled. simpl. rewrite Ep. destruct (Z.le_gt_cases un now); destruct p; auto. }
    { eexists; split; [apply rtc_refl|]; split_and!; done. }
    destruct (goroutine_goes_on _ _ _ Hok Ep Hd) as (n' & p' & Hgo). pose proof Hgo as (Hs & _ & Hlt & Ep' & Ho).
    destruct (IH (mkClocked n' now (begin_stamp n now bg) (restamp n n' now sc) un mo)) as (k' & Hr & Hok' & Hst & Hset & Hoth).
    + simpl. eapply net_ok_step; [exact Hok|exact Hs].
    + simpl. rewrite Ep'. intros q [= <-]. specialize (Hm _ eq_refl). lia.
    + exists k'. split; [eapply rtc_l; [by eapply clocked_go|exact Hr]|]. split_and!; try done.
      intros t' Hne. rewrite Hoth by done. by apply Ho.
Qed.

Lemma settle_all slack k :
  net_ok (k_net k) → ∃ k', rtc (clocked_step slack) k k' ∧ same_time k k' ∧ ∀ t, settled k' t.
Proof.
  intros Hok.
  assert (∀ l : list nat, ∃ k', rtc (clocked_step slack) k k' ∧ net_ok (k_net k') ∧ same_time k k' ∧
    (∀ t, t ∈ l → settled k' t) ∧ ∀ t, t ∉ l → point_of (k_net k') t = point_of (k_net k) t) as Hl.
  { intros l. induction l as [|t l (k1 & Hr1 & Hok1 & [Hc1 Hu1] & Hs1 & Ho1)].
    - exists k. split; [apply rtc_refl|]. split_and!; try done. by intros t ?%not_elem_of_nil.
    - destruct (settle_one slack k1 t Hok1) as (k2 & Hr2 & Hok2 & [Hc2 Hu2] & Hs2 & Ho2).
      exists k2. split; [by etrans|]. split; [done|]. split; [split; congruence|]. split.
      + intros t' [->|Ht']%elem_of_cons; [done|]. destruct (decide (t' = t)) as [->|Hne]; [done|].
        specialize (Hs1 _ Ht'). unfold settled in *. by rewrite Ho2, Hc2, Hu2.
      + intros t' [Hne Hn]%not_elem_of_cons. rewrite Ho2 by done. by apply Ho1. }
  destruct (Hl (map_to_list (n_requests (k_net k))).*1) as (k' & Hr & _ & Hst & Hs & Ho).
  exists k'. split; [done|]. split; [done|]. intros t.
  destruct (decide (t ∈ (map_to_list (n_requests (k_net k))).*1)) as [|Hn]; [auto|].
  unfold settled. rewrite Ho by done. unfold point_of.
  destruct (n_requests (k_net k) !! t) as [r|] eqn:Er; [|done]. exfalso. apply Hn, list_elem_of_fmap.
  exists (t, r). split; [done|]. by apply elem_of_map_to_list.
Qed.

(** With everybody settled it is the lock alone that time may have to wait for. *)
Lemma settled_ticks slack k e :
  (0 ≤ slack)%Z → (∀ t, settled k t) → (0 ≤ e)%Z → (k_clock k < k_until k → k_clock k + e ≤ k_until k)%Z →
  ∃ k', clocked_step slack k k' ∧ k_clock k' = (k_clock k + e)%Z ∧ k_until k' = k_until k ∧ k_net k' = k_net k.
Proof.
  intros Hsl Hs He Hu. destruct k as [n now bg sc un mo]. simpl in *.
  exists (mkClocked n (now + e) bg sc un mo). split; [|done]. constructor; [done|]. intros t p d Ep Hd.
  specialize (Hs t). unfold settled in Hs. simpl in Hs. rewrite Ep in Hs. unfold deadline in Hd.
  destruct p; simpl in Hd; simplify_eq; lia.
Qed.

Lemma time_passes slack k T :
  (0 ≤ slack)%Z → clocked_ok slack k → ∃ k', rtc (clocked_step slack) k k' ∧ (T ≤ k_clock k')%Z.
Proof.
  intros Hsl Hok.
  assert (∀ k, net_ok (k_net k) → (k_until k ≤ k_clock k)%Z →
    ∃ k', rtc (clocked_step slack) k k' ∧ (T ≤ k_clock k')%Z) as Hfree.
  { clear k Hok. intros k Hn Hf. destruct (settle_all slack k Hn) as (k1 & Hr1 & [Hc1 Hu1] & Hs1).
    destruct (settled_ticks slack k1 (Z.max 0 (T - k_clock k1)) Hsl Hs1) as (k2 & Hs2 & Hc2 & _); [lia|lia|].
    exists k2. split; [by eapply rtc_r|]. lia. }
  destruct (Z.le_gt_cases (k_until k) (k_clock k)) as [Hf|Hf]; [apply Hfree; [apply (ck_net _ _ Hok)|done]|].
  destruct (settle_all slack k (ck_net _ _ Hok)) as (k1 & Hr1 & [Hc1 Hu1] & Hs1).
  destruct (settled_ticks slack k1 (k_until k1 - k_clock k1) Hsl Hs1) as (k2 & Hs2 & Hc2 & Hu2 & En); [lia|lia|].
  assert (clocked_ok slack k2) as Hok2.
  { eapply rtc_invariant; [eapply rtc_r; [exact Hr1|exact Hs2]|exact Hok|]. intros ???. by apply clocked_ok_step. }
  destruct (Hfree k2 (ck_net _ _ Hok2)) as (k3 & Hr3 & H3); [lia|].
  exists k3. split; [|done]. etrans; [exact Hr1|]. by eapply rtc_l.
Qed.

(** ** Property *)

(** C3: every proxied request ends, in time: whatever agents, streams, sweeps and other
    requests do, the goroutine of an HTTP request has returned from
    [SendRequestToAgent], with a response or an error, at the latest 35 seconds after
    the call, five more for each agent that was registered when the lock of the
    connections was taken (at most [k_most]: who holds the lock may be stopping the
    HTTP servers of all of them, and the request waits for it before the lookup), and
    seven times the delay with which the runtime lets a goroutine go on.  Nothing stops
    the clock: until it has returned the goroutine can go on by a step of its own,
    unless it waits for the lock, which is given back in time; and from every reachable
    state any later time can be reached. *)
Theorem requests_end_in_time slack asm start k :
  from_option asm_inv True asm → from_option asm_view ∅ asm = ∅ → (0 ≤ slack)%Z →
  rtc (clocked_step slack) (clocked_init asm start) k →
  (∀ t p, point_of (k_net k) t = Some p →
    ((k_begun k t + 35 * second + 5 * second * Z.of_nat (k_most k) + 7 * slack < k_clock k)%Z →
       ∃ msg ch r, n_requests (k_net k) !! t = Some (RDone msg ch r)) ∧
    (p ≠ AtDone → p ≠ AtLookup ∨ (k_until k ≤ k_clock k)%Z →
       ∃ k' p', clocked_step slack k k' ∧ k_clock k' = k_clock k ∧
         point_of (k_net k') t = Some p' ∧ rank p < rank p')) ∧
  (k_until k ≤ k_clock k + 5 * second * Z.of_nat (k_most k) + slack)%Z ∧
  ∀ T, ∃ k', rtc (clocked_step slack) k k' ∧ (T ≤ k_clock k')%Z.
Proof.
  intros Hi Hv Hsl Hr. pose proof (clocked_reachable_ok _ _ _ _ Hi Hv Hsl Hr) as Hok. split_and!.
  - intros t p Ep. split.
    + intros Hlate. destruct (ck_times _ _ Hok _ _ Ep) as (Hb & Ha & _).
      assert (p = AtDone) as ->.
      { destruct (decide (p = AtDone)) as [|Hp]; [done|exfalso].
        assert (rank p < rank AtDone) as Hlt by (destruct p; simpl in *; [lia..|done]).
        pose proof (arrival_later slack (k_most k) _ _ Hsl Hlt) as Hl.
        pose proof (leaves_in_time _ _ _ _ Hsl Hok Ep Hp). simpl in Hl.
        unfold hold, serverShutdownTimeout, sendTimeout, requestTimeout, second in *. lia. }
      unfold point_of in Ep. destruct (n_requests (k_net k) !! t) as [r|] eqn:Er; [|done].
      injection Ep as Ep. destruct r; simpl in Ep; try done; [by destruct (sending _ _)|by eexists _, _, _].
    + intros Hp Hfree. pose proof (ck_net _ _ Hok) as Hn. destruct k as [n now bg sc un mo]. simpl in *.
      destruct (goroutine_goes_on _ _ _ Hn Ep Hp) as (n' & p' & Hgo). pose proof Hgo as (_ & _ & Hlt & Ep' & _).
      exists (mkClocked n' now (begin_stamp n now bg) (restamp n n' now sc) un mo), p'.
      split_and!; [by eapply clocked_go|done..].
  - pose proof (ck_until _ _ Hok) as Hu. unfold hold, serverShutdownTimeout in Hu. lia.
  - intros T. by apply time_passes.
Qed.
End Proofs.

(** ** A request to an agent that is not connected *)

Module Unanswered.
Notation step := (clocked_step (S := option string) OneExchange.ids OneExchange.tls OneExchange.urls
  OneExchange.serve OneExchange.order second).
Definition msg : ProxyMessage := OneExchange.msg.
Definition res : result ProxyMessage :=
  Err (Wrapf "failed to send request to agent" (Errorf "agent not found: a")).

(** It begins at 0, finds the lock taken, for a second, fails at the lookup, and a
    minute passes. *)
Lemma unanswered_reachable : ∃ k, rtc step (clocked_init Reconnect.fresh_asm 0) k ∧
  k_clock k = (61 * second)%Z ∧ k_begun k 7 = 0%Z ∧ k_most k = 0 ∧
  n_requests (k_net k) = {[7 := RDone msg 0 res]}.
Proof.
  eexists. split.
  - eapply rtc_l; [apply k_act; [apply (f_call _ _ _ _ _ _ _ _ _ _ _ _ 7 "a" msg); [done|done|]|by left|left; lia]|].
    { intros t' x Hx. by rewrite lookup_empty in Hx. }
    eapply rtc_l; [apply k_act; [eapply (f_register _ _ _ _ _ _ _ _ _ _ _ _ _ _ _ _ 7); runs|by left|left; lia]|].
    eapply rtc_l; [apply (k_lock _ _ _ _ _ _ _ _ _ _ _ _ second)|].
    { lia. }
    { intros t _. unfold restamp, clocked_init. repeat case_decide; lia. }
    { vm_compute. by split. }
    eapply rtc_l; [apply (k_tick _ _ _ _ _ _ _ _ _ _ _ _ second); [unfold second; lia|]|].
    { intros t p d _. unfold deadline, restamp. intros Hd. destruct p; simpl in Hd; simplify_eq;
        repeat case_decide; unfold sendTimeout, requestTimeout, second in *; lia. }
    eapply rtc_l; [apply k_act; [eapply (f_lookup_failed _ _ _ _ _ _ _ _ _ _ _ _ _ _ _ _ 7); runs|by left|left; unfold second; lia]|].
    eapply rtc_l; [apply k_act; [eapply (f_return _ _ _ _ _ _ _ _ _ _ _ _ _ _ _ _ 7); runs|by left|left; unfold second; lia]|].
    eapply rtc_once, (k_tick _ _ _ _ _ _ _ _ _ _ _ _ (60 * second)); [unfold second; lia|].
    intros t p d Ep Hd. exfalso. destruct (decide (t = 7)) as [->|Hne].
    + vm_compute in Ep. by injection Ep as <-.
    + unfold point_of in Ep. simpl in Ep. by rewrite !lookup_insert_ne, lookup_empty in Ep by done.
  - split_and!; vm_compute; reflexivity.
Qed.
End Unanswered.

Lemma requests_end_in_time_witness :
  ∃ k : clocked (S := option string), k_clock k = (61 * second)%Z ∧
    (∃ msg ch r, n_requests (k_net k) !! 7 = Some (RDone msg ch r)) ∧
    ∃ k', rtc Unanswered.step k k' ∧ (120 * second ≤ k_clock k')%Z.
Proof.
  destruct Unanswered.unanswered_reachable as (k & Hr & Hc & Hb & Hm & Hq). exists k. split; [exact Hc|].
  assert (point_of (k_net k) 7 = Some AtDone) as Ep.
  { unfold point_of. rewrite Hq. reflexivity. }
  destruct (requests_end_in_time OneExchange.ids OneExchange.tls OneExchange.urls OneExchange.serve
    OneExchange.order second Reconnect.fresh_asm 0 k) as (Hend & _ & Ht).
  - exact Reconnect.fresh_inv.
  - exact Reconnect.fresh_empty.
  - unfold second. lia.
  - exact Hr.
  - split; [|exact (Ht _)]. destruct (Hend 7 AtDone Ep) as [Hdone _]. apply Hdone.
    rewrite Hc, Hb, Hm. unfold second. lia.
Defined.
