(* ===== verification/KeyStore.v ===== *)
(** * KeyStore: one-time provisioning keys

    Models [src/internal/provision/key_store.go].  Times are nanoseconds; the
    clock reading of a call and the random bytes it draws are arguments.  An
    entry is immutable but for [Used], which only [MarkUsed] sets, under the
    lock; callers keep only the [AgentID] of the pointer [Validate] returns, so
    entries are values here. *)
From stdpp Require Import base strings list gmap fin_maps.
From Stdlib Require Import ZArith Lia Ascii.
From S2P Require Import Prelude GoStd.

(** ** The code *)

Definition ErrKeyNotFound : error := Sentinel "provision key not found".
Definition ErrKeyExpired : error := Sentinel "provision key has expired".
Definition ErrKeyAlreadyUsed : error := Sentinel "provision key has already been used".

Record ProvisionKey : Type := mkKey {
  Key : string;
  AgentID : string;
  CreatedAt : Z;
  ExpiresAt : Z;
  Used : bool;
}.

Record KeyStore : Type := mkKS {
  ks_keys : gmap string ProvisionKey;
  ttl : Z;
}.

Definition set_keys (m : gmap string ProvisionKey) (ks : KeyStore) : KeyStore := mkKS m (ttl ks).

Definition NewKeyStore (ttl : Z) : KeyStore := mkKS ∅ ttl.

Definition key_of (b : bytes) : string := "sk_" +:+ hex_EncodeToString b.

(** [random] is what [rand.Read] produced. *)
Definition Create (agentID : string) (random : result bytes) (now : Z) :
    M KeyStore (result ProvisionKey) :=
  match random with
  | Err e => mret (Err (Wrapf "failed to generate random key" e))
  | Ok b =>
      let key := key_of b in
      ks ← get;
      let pk := mkKey key agentID now (now + ttl ks) false in
      _ ← modify (λ ks, set_keys (<[key := pk]> (ks_keys ks)) ks);
      mret (Ok pk)
  end.

Definition Validate (key : string) (now : Z) : M KeyStore (result ProvisionKey) :=
  ks ← get;
  mret match ks_keys ks !! key with
       | None => Err ErrKeyNotFound
       | Some pk =>
           if Used pk then Err ErrKeyAlreadyUsed
           else if (now >? ExpiresAt pk)%Z then Err ErrKeyExpired
           else Ok pk
       end.

Definition use (pk : ProvisionKey) : ProvisionKey :=
  mkKey (Key pk) (AgentID pk) (CreatedAt pk) (ExpiresAt pk) true.

Definition MarkUsed (key : string) : M KeyStore unit :=
  ks ← get;
  match ks_keys ks !! key with
  | Some pk => modify (λ ks, set_keys (<[key := use pk]> (ks_keys ks)) ks)
  | None => mret ()
  end.

(** A loop over the map that deletes the entries that satisfy [drop]; [order] is
    the order in which the map is visited.  The result is how many were deleted. *)
Fixpoint delete_where (drop : ProvisionKey → bool) (order : list string) : M KeyStore nat :=
  match order with
  | [] => mret 0
  | key :: order' =>
      ks ← get;
      here ← match ks_keys ks !! key with
             | Some pk =>
                 if drop pk
                 then _ ← modify (λ ks, set_keys (delete key (ks_keys ks)) ks); mret 1
                 else mret 0
             | None => mret 0
             end;
      rest ← delete_where drop order';
      mret (here + rest)
  end.

Definition Revoke (order : list string) (agentID : string) : M KeyStore bool :=
  removed ← delete_where (λ pk, bool_decide (AgentID pk = agentID)) order;
  mret (bool_decide (removed ≠ 0)).

Definition stale_key (now : Z) (pk : ProvisionKey) : bool := Used pk || (now >? ExpiresAt pk)%Z.

Definition cleanup (order : list string) (now : Z) : M KeyStore nat :=
  delete_where (stale_key now) order.

(** The ticks of the ticker: the order in which each clean-up visits the map, and
    its clock reading. *)
Definition StartCleanup (interval : Z) (ticks : list (list string * Z)) : M KeyStore unit :=
  if (interval <=? 0)%Z then panic "non-positive interval for NewTicker"
  else for_each ticks (λ tick, _ ← cleanup tick.1 tick.2; mret ()).

(** [List]: the listed entries carry no key. *)
Definition List_ (order : list string) (now : Z) : M KeyStore (list ProvisionKey) :=
  gets (λ ks, omap (λ key,
    pk ← ks_keys ks !! key;
    if stale_key now pk then None
    else Some (mkKey "" (AgentID pk) (CreatedAt pk) (ExpiresAt pk) false)) order).

(** ** Facts *)

Lemma wp_delete_where drop order ks :
  wp (delete_where drop order) ks (λ n ks',
    ks' = set_keys (filter (λ kv, ¬ (kv.1 ∈ order ∧ drop kv.2 = true)) (ks_keys ks)) ks ∧
    (n = 0 ↔ ∀ key pk, key ∈ order → ks_keys ks !! key = Some pk → drop pk = false)).
Proof.
  revert ks. induction order as [|key order IH]; intros ks; cbn [delete_where].
  { wp_steps. split.
    - rewrite map_filter_id; [by destruct ks|]. intros k pk _ [Hin _]. by apply not_elem_of_nil in Hin.
    - split; [|done]. intros _ k pk Hin. by apply not_elem_of_nil in Hin. }
  wp_steps.
  assert (∀ ks1 (here : nat), ks1 = set_keys
      (filter (λ kv, ¬ (kv.1 = key ∧ drop kv.2 = true)) (ks_keys ks)) ks →
    (here = 0 ↔ ∀ pk, ks_keys ks !! key = Some pk → drop pk = false) →
    wp (delete_where drop order) ks1 (λ n ks',
      ks' = set_keys (filter (λ kv, ¬ (kv.1 ∈ key :: order ∧ drop kv.2 = true)) (ks_keys ks)) ks ∧
      (here + n = 0 ↔ ∀ k pk, k ∈ key :: order → ks_keys ks !! k = Some pk → drop pk = false))) as Hrest.
  { intros ks1 here -> Hh. eapply wp_mono; [apply IH|]. intros n ks' [-> Hn]. simpl. split.
    - unfold set_keys. simpl. f_equal. apply map_eq. intros k. apply option_eq. intros pk.
      rewrite !map_lookup_filter_Some. simpl. rewrite elem_of_cons. naive_solver.
    - split.
      + intros Hz k pk [->|Hin]%elem_of_cons Hk; [apply Hh; [lia|done]|].
        destruct (decide (k = key)) as [->|Hne]; [apply Hh; [lia|done]|].
        apply (proj1 Hn) with k; [lia|done|]. simpl. apply map_lookup_filter_Some. naive_solver.
      + intros Hall. assert (here = 0) as -> by (apply Hh; intros pk; apply Hall; by left).
        apply Hn. intros k pk Hin [Hk _]%map_lookup_filter_Some. apply (Hall k); [by right|done]. }
  assert (ks_keys ks !! key = None ∨ (∃ pk, ks_keys ks !! key = Some pk ∧ drop pk = false) →
    ks = set_keys (filter (λ kv, ¬ (kv.1 = key ∧ drop kv.2 = true)) (ks_keys ks)) ks) as Hsame.
  { intros Hd. rewrite map_filter_id; [by destruct ks|]. intros k pk Hk [E Hdrop].
    simpl in E, Hdrop. subst k. destruct Hd as [Hd|(pk' & Hd & Hf)]; congruence. }
  assert (∀ ks1 here, wp (delete_where drop order) ks1 (λ n ks',
      ks' = set_keys (filter (λ kv, ¬ (kv.1 ∈ key :: order ∧ drop kv.2 = true)) (ks_keys ks)) ks ∧
      (here + n = 0 ↔ ∀ k pk, k ∈ key :: order → ks_keys ks !! k = Some pk → drop pk = false)) →
    wp (rest ← delete_where drop order; mret (here + rest)) ks1 (λ n ks',
      ks' = set_keys (filter (λ kv, ¬ (kv.1 ∈ key :: order ∧ drop kv.2 = true)) (ks_keys ks)) ks ∧
      (n = 0 ↔ ∀ k pk, k ∈ key :: order → ks_keys ks !! k = Some pk → drop pk = false))) as Hret.
  { intros ks1 here Hw. apply wp_bind. eapply wp_mono; [exact Hw|]. intros n ks' HQ. by apply wp_ret. }
  destruct (ks_keys ks !! key) as [pk|] eqn:Hk; [destruct (drop pk) eqn:Hd|].
  - do 3 wp_step. cbn beta. apply Hret, Hrest.
    + unfold set_keys. f_equal. apply map_eq. intros k. apply option_eq. intros pk'.
      rewrite lookup_delete_Some, map_lookup_filter_Some. simpl. naive_solver.
    + split; [done|]. intros Hall. rewrite (Hall _ eq_refl) in Hd. done.
  - wp_step. cbn beta. apply Hret, Hrest; [apply Hsame; eauto|]. naive_solver.
  - wp_step. cbn beta. apply Hret, Hrest; [apply Hsame; eauto|]. naive_solver.
Qed.

(** With every key visited, [delete_where] is a filter. *)
Lemma wp_delete_all drop order ks :
  order ≡ₚ keys (ks_keys ks) →
  wp (delete_where drop order) ks (λ n ks',
    ks' = set_keys (filter (λ kv, drop kv.2 = false) (ks_keys ks)) ks ∧
    (n = 0 ↔ ∀ key pk, ks_keys ks !! key = Some pk → drop pk = false)).
Proof.
  intros Ho. assert (∀ key pk, ks_keys ks !! key = Some pk → key ∈ order) as Hin.
  { intros key pk Hk. rewrite Ho. apply elem_of_keys. by eexists. }
  eapply wp_mono; [apply wp_delete_where|]. intros n ks' [-> Hn]. split.
  - f_equal. apply map_filter_ext. intros key pk Hk. simpl. split.
    + intros Hno. destruct (drop pk) eqn:Hd; [|done]. exfalso. apply Hno. eauto.
    + intros Hd [_ Hd']. congruence.
  - rewrite Hn. split; intros Hall key pk; [intros Hk; eapply Hall; eauto|]. intros _. apply Hall.
Qed.

(** ** Histories

    The calls made so far, the last one first.  [ks_run ttl h ks]: the calls of
    [h] have led from a new store to [ks]. *)
Inductive ks_event : Type :=
  | ECreate (agentID : string) (random : bytes) (now : Z)
  | EMarkUsed (key : string)
  | ERevoke (agentID : string)
  | ECleanup (now : Z).

Inductive ks_run (ttl0 : Z) : list ks_event → KeyStore → Prop :=
  | run_new : ks_run ttl0 [] (NewKeyStore ttl0)
  | run_create h ks a b now pk ks' : ks_run ttl0 h ks →
      Create a (Ok b) now ks = Ret (Ok pk) ks' → ks_run ttl0 (ECreate a b now :: h) ks'
  | run_used h ks key ks' : ks_run ttl0 h ks →
      MarkUsed key ks = Ret () ks' → ks_run ttl0 (EMarkUsed key :: h) ks'
  | run_revoke h ks order a r ks' : ks_run ttl0 h ks → order ≡ₚ keys (ks_keys ks) →
      Revoke order a ks = Ret r ks' → ks_run ttl0 (ERevoke a :: h) ks'
  | run_cleanup h ks order now n ks' : ks_run ttl0 h ks → order ≡ₚ keys (ks_keys ks) →
      cleanup order now ks = Ret n ks' → ks_run ttl0 (ECleanup now :: h) ks'.

(** What a history makes of a key. *)
Fixpoint entry_after (ttl0 : Z) (key : string) (h : list ks_event) : option ProvisionKey :=
  match h with
  | [] => None
  | ECreate a b now :: h' =>
      if decide (key_of b = key) then Some (mkKey key a now (now + ttl0) false)
      else entry_after ttl0 key h'
  | EMarkUsed k :: h' =>
      if decide (k = key) then use <$> entry_after ttl0 key h' else entry_after ttl0 key h'
  | ERevoke a :: h' =>
      pk ← entry_after ttl0 key h'; if decide (AgentID pk = a) then None else Some pk
  | ECleanup now :: h' =>
      pk ← entry_after ttl0 key h'; if stale_key now pk then None else Some pk
  end.

Lemma ks_run_entry ttl0 h ks :
  ks_run ttl0 h ks → ttl ks = ttl0 ∧ ∀ key, ks_keys ks !! key = entry_after ttl0 key h.
Proof.
  induction 1 as [|h ks a b now pk ks' _ [Et IH] E|h ks k ks' _ [Et IH] E
    |h ks order a r ks' _ [Et IH] Ho E|h ks order now n ks' _ [Et IH] Ho E].
  - split; [done|]. intros key. apply lookup_empty.
  - injection E as <- <-. simpl. split; [done|]. intros key. rewrite Et, lookup_insert.
    case_decide as Hk; [by rewrite Hk|done].
  - unfold MarkUsed, mbind, M_bind, get in E. simpl.
    destruct (ks_keys ks !! k) as [pk|] eqn:Hk; injection E as <-.
    + split; [done|]. intros key. simpl. rewrite lookup_insert. rewrite <- IH.
      case_decide as Hkk; [|done]. subst. by rewrite Hk.
    + split; [done|]. intros key. rewrite <- IH. case_decide as Hkk; [|done]. subst. by rewrite Hk.
  - unfold Revoke, mbind, M_bind in E.
    pose proof (wp_delete_all (λ pk, bool_decide (AgentID pk = a)) order ks Ho) as Hw.
    unfold wp in Hw. destruct (delete_where _ order ks) as [n ks1| |]; [|done..].
    destruct Hw as [-> _]. injection E as _ <-. split; [done|]. intros key. simpl.
    rewrite map_lookup_filter, <- IH. destruct (ks_keys ks !! key) as [pk|]; [|done]. simpl.
    destruct (decide (AgentID pk = a)); case_guard as Hg; simpl in *; try done;
      rewrite bool_decide_eq_false in Hg; done.
  - pose proof (wp_Ret _ _ _ _ _ (wp_delete_all (stale_key now) order ks Ho) E) as [-> _].
    split; [done|]. intros key. simpl. rewrite map_lookup_filter, <- IH.
    destruct (ks_keys ks !! key) as [pk|]; [|done]. simpl.
    case_guard as Hg; simpl in *; destruct (stale_key now pk); done.
Qed.

(** Nothing in [h] takes a key of agent [a] that expires at [e] out of service. *)
Definition spares (key a : string) (e : Z) (ev : ks_event) : Prop :=
  match ev with
  | ECreate _ b _ => key_of b ≠ key
  | EMarkUsed k => k ≠ key
  | ERevoke a' => a' ≠ a
  | ECleanup now => (now ≤ e)%Z
  end.

Lemma entry_after_unused ttl0 key h pk :
  entry_after ttl0 key h = Some pk ∧ Used pk = false ↔
  ∃ h2 b t h1, h = h2 ++ ECreate (AgentID pk) b t :: h1 ∧ key_of b = key ∧
    pk = mkKey key (AgentID pk) t (t + ttl0) false ∧ Forall (spares key (AgentID pk) (t + ttl0)) h2.
Proof.
  split.
  - revert pk. induction h as [|ev h IH]; intros pk [He Hu]; [done|].
    destruct ev as [a b t|k|a|now]; simpl in He.
    + case_decide as Hb.
      * injection He as <-. exists [], b, t, h. simpl. done.
      * destruct (IH pk) as (h2 & b' & t' & h1 & -> & ? & ? & ?); [done|].
        exists (ECreate a b t :: h2), b', t', h1. split_and!; try done. by constructor.
    + case_decide as Hk.
      * destruct (entry_after ttl0 key h); [|done]. by injection He as <-.
      * destruct (IH pk) as (h2 & b' & t' & h1 & -> & ? & ? & ?); [done|].
        exists (EMarkUsed k :: h2), b', t', h1. split_and!; try done. by constructor.
    + destruct (entry_after ttl0 key h) as [pk0|]; [|done]. simpl in He. case_decide as Ha; [done|].
      injection He as ->. destruct (IH pk) as (h2 & b' & t' & h1 & -> & ? & ? & ?); [done|].
      exists (ERevoke a :: h2), b', t', h1. split_and!; try done. constructor; [|done]. simpl. congruence.
    + destruct (entry_after ttl0 key h) as [pk0|]; [|done]. simpl in He.
      destruct (stale_key now pk0) eqn:Hst; [done|].
      injection He as ->. destruct (IH pk) as (h2 & b' & t' & h1 & -> & ? & Epk & ?); [done|].
      exists (ECleanup now :: h2), b', t', h1. split_and!; try done. constructor; [|done]. simpl.
      unfold stale_key in Hst. rewrite Epk in Hst. simpl in Hst. lia.
  - intros (h2 & b & t & h1 & -> & Hb & Epk & Hsp). rewrite Epk. simpl. split; [|done].
    set (a := AgentID pk) in *. clearbody a. clear Epk. induction Hsp as [|ev h2 Hev Hsp IH]; simpl.
    + by rewrite decide_True.
    + rewrite IH. destruct ev as [a' b' t'|k|a'|now]; simpl in Hev |- *.
      * by rewrite decide_False.
      * by rewrite decide_False.
      * by rewrite decide_False.
      * unfold stale_key. simpl. destruct (Z.gtb_spec now (t + ttl0)); [lia|done].
Qed.

(** ** Properties *)

(** C19: exactly the right keys are accepted.  Whatever calls were made,
    [Validate] accepts a key, for agent [a], if and only if some [Create] for [a]
    produced it no longer than the TTL ago and since then it was neither marked
    used, nor revoked through its agent, nor replaced, nor expired at a cleanup.
    In particular a used, revoked or expired key is never accepted, and cleanup
    never removes a key that is still good. *)
Theorem Validate_accepts_exactly ttl0 h ks key now pk :
  ks_run ttl0 h ks →
  Validate key now ks = Ret (Ok pk) ks ↔
  ∃ h2 b t h1, h = h2 ++ ECreate (AgentID pk) b t :: h1 ∧ key_of b = key ∧
    pk = mkKey key (AgentID pk) t (t + ttl0) false ∧ (now ≤ t + ttl0)%Z ∧
    Forall (spares key (AgentID pk) (t + ttl0)) h2.
Proof.
  intros Hr. destruct (ks_run_entry _ _ _ Hr) as [_ He].
  assert (Validate key now ks = Ret (Ok pk) ks ↔
    (ks_keys ks !! key = Some pk ∧ Used pk = false) ∧ (now ≤ ExpiresAt pk)%Z) as ->.
  { unfold Validate, mbind, M_bind, get, mret, M_ret.
    destruct (ks_keys ks !! key) as [pk0|]; [|split; [done|by intros [[? _] _]]].
    destruct (Used pk0) eqn:Hu; [split; [done|intros [[[= ->] Hu'] _]; congruence]|].
    destruct (Z.gtb_spec now (ExpiresAt pk0)); split.
    - done.
    - intros [[[= ->] _] ?]. lia.
    - intros [= ->]. split; [done|lia].
    - intros [[[= ->] _] _]. done. }
  rewrite He, entry_after_unused. split.
  - intros [(h2 & b & t & h1 & ? & ? & Epk & ?) Hnow]. exists h2, b, t, h1. rewrite Epk in Hnow. done.
  - intros (h2 & b & t & h1 & ? & ? & Epk & Hnow & ?). split; [by exists h2, b, t, h1|]. by rewrite Epk.
Qed.

(** The calls on their own: [Create] makes a key that is valid until its TTL
    has passed, different random bytes make different keys, [MarkUsed] turns it
    into an already-used one, [Revoke] reports whether the agent had any key and
    leaves none, and [List] never shows a key. *)
Theorem key_calls_correct ks a b b' now order :
  order ≡ₚ keys (ks_keys ks) →
  (∃ pk ks', Create a (Ok b) now ks = Ret (Ok pk) ks' ∧ Key pk = key_of b ∧ AgentID pk = a ∧
     (∀ now', (now' ≤ now + ttl ks)%Z → Validate (key_of b) now' ks' = Ret (Ok pk) ks') ∧
     (∀ now', (now + ttl ks < now')%Z → Validate (key_of b) now' ks' = Ret (Err ErrKeyExpired) ks') ∧
     wp (MarkUsed (key_of b)) ks' (λ _ ks2, ∀ now',
       Validate (key_of b) now' ks2 = Ret (Err ErrKeyAlreadyUsed) ks2) ∧
     (b' ≠ b → ks_keys ks' !! key_of b' = ks_keys ks !! key_of b')) ∧
  wp (Revoke order a) ks (λ r ks',
    (r = true ↔ ∃ key pk, ks_keys ks !! key = Some pk ∧ AgentID pk = a) ∧
    ∀ key pk, ks_keys ks' !! key = Some pk ↔ ks_keys ks !! key = Some pk ∧ AgentID pk ≠ a) ∧
  wp (List_ order now) ks (λ l ks', ks' = ks ∧ Forall (λ pk, Key pk = "") l).
Proof.
  intros Ho. split_and!.
  - set (pk := mkKey (key_of b) a now (now + ttl ks) false).
    exists pk, (set_keys (<[key_of b := pk]> (ks_keys ks)) ks). split; [reflexivity|].
    split_and!; try done.
    + intros now' Hn. unfold Validate, mbind, M_bind, get, mret, M_ret. simpl.
      rewrite lookup_insert_eq. simpl. destruct (Z.gtb_spec now' (now + ttl ks)); [lia|done].
    + intros now' Hn. unfold Validate, mbind, M_bind, get, mret, M_ret. simpl.
      rewrite lookup_insert_eq. simpl. destruct (Z.gtb_spec now' (now + ttl ks)); [done|lia].
    + unfold MarkUsed. wp_steps. simpl. rewrite lookup_insert_eq. wp_steps. intros now'.
      unfold Validate, mbind, M_bind, get, mret, M_ret. simpl. by rewrite lookup_insert_eq.
    + intros Hb. simpl. rewrite lookup_insert_ne; [done|]. unfold key_of. intros E.
      by apply (inj _), (inj _) in E.
  - unfold Revoke. wp_steps. eapply wp_mono; [by apply wp_delete_all|]. intros n ks' [-> Hn]. wp_steps.
    split.
    + rewrite bool_decide_eq_true. split.
      * intros Hz. destruct (decide (map_Forall (λ _ pk, AgentID pk ≠ a) (ks_keys ks))) as [Hall|Hno].
        -- destruct Hz. apply Hn. intros key pk Hk. apply bool_decide_eq_false. by apply (Hall key).
        -- apply map_not_Forall in Hno as (key & pk & Hk & Ha); [|solve_decision].
           exists key, pk. split; [done|]. by destruct (decide (AgentID pk = a)).
      * intros (key & pk & Hk & <-) Hz. apply (proj1 Hn) with key pk in Hz; [|done].
        by apply bool_decide_eq_false in Hz.
    + intros key pk. simpl. rewrite map_lookup_filter_Some. simpl. by rewrite bool_decide_eq_false.
  - unfold List_. wp_steps. split; [done|]. apply Forall_forall. intros pk Hin.
    apply list_elem_of_omap in Hin as (key & _ & Hk).
    destruct (ks_keys ks !! key); simpl in Hk; [|done]. destruct (stale_key now _); [done|].
    by injection Hk as <-.
Qed.

(** ** Witnesses *)
Module OneKey.
Definition b : bytes := "0123456789abcdef0123456789abcdef".
Definition ks1 : KeyStore :=
  mkKS {[key_of b := mkKey (key_of b) "agent" 100 160 false]} 60.
Lemma run1 : ks_run 60 [ECreate "agent" b 100] ks1.
Proof.
  apply (run_create _ _ _ _ _ _ (mkKey (key_of b) "agent" 100 160 false) _ (run_new 60)).
  reflexivity.
Qed.
End OneKey.

Lemma Validate_accepts_exactly_witness :
  Validate (key_of OneKey.b) 150 OneKey.ks1
  = Ret (Ok (mkKey (key_of OneKey.b) "agent" 100 160 false)) OneKey.ks1.
Proof.
  apply (Validate_accepts_exactly 60 [ECreate "agent" OneKey.b 100] OneKey.ks1 _ _ _ OneKey.run1).
  exists [], OneKey.b, 100%Z, []. repeat split; try reflexivity; [discriminate|constructor].
Defined.

Lemma key_calls_correct_witness :
  wp (Revoke [key_of OneKey.b] "agent") OneKey.ks1 (λ r _, r = true).
Proof.
  destruct (key_calls_correct OneKey.ks1 "agent" OneKey.b "" 0 [key_of OneKey.b]) as (_ & Hrev & _).
  - reflexivity.
  - eapply wp_mono; [exact Hrev|]. intros r ks' [Hr _]. apply Hr.
    exists (key_of OneKey.b), (mkKey (key_of OneKey.b) "agent" 100 160 false). split; reflexivity.
Defined.
