(* ===== verification/FileSystem.v ===== *)
(** * path/filepath and the file system

    The parts of [path/filepath] and [os] the certificate service uses, for
    slash-separated paths: [Clean], [Join], [Dir], [Base], and a file system of
    files and directories by path.  File contents are a type parameter. *)
From stdpp Require Import base strings list gmap fin_maps.
From Stdlib Require Import ZArith Lia Ascii.
From S2P Require Import Prelude GoStd.

(** ** Paths *)

Definition slash : ascii := "/"%char.

(** [strings.Split(s, "/")] *)
Fixpoint split_slash (s : string) : list string :=
  match s with
  | EmptyString => [""]
  | String c s' =>
      if decide (c = slash) then "" :: split_slash s'
      else match split_slash s' with
           | [] => [String c ""]
           | e :: es => String c e :: es
           end
  end.

(** [strings.Join(l, "/")] *)
Fixpoint join_slash (l : list string) : string :=
  match l with
  | [] => ""
  | [e] => e
  | e :: l' => e +:+ String slash (join_slash l')
  end.

(** One element of [Clean]'s loop; the output is kept last element first. *)
Definition clean_step (rooted : bool) (out : list string) (e : string) : list string :=
  if decide (e = "" ∨ e = ".") then out
  else if decide (e = "..") then
    match out with
    | [] => if rooted then [] else [".."]
    | o :: out' => if decide (o = "..") then ".." :: out else out'
    end
  else e :: out.

Definition clean_elems (rooted : bool) (s : string) : list string :=
  foldl (clean_step rooted) [] (split_slash s).

Definition is_rooted (s : string) : bool := HasPrefix s "/".

Definition render (rooted : bool) (out : list string) : string :=
  if rooted then String slash (join_slash (rev out))
  else match out with [] => "." | _ => join_slash (rev out) end.

Definition Clean (s : string) : string :=
  if decide (s = "") then "." else render (is_rooted s) (clean_elems (is_rooted s) s).

(** [filepath.Join(a, b)] *)
Definition Join (a b : string) : string :=
  if decide (a = "") then (if decide (b = "") then "" else Clean b)
  else Clean (a +:+ String slash b).

(** [filepath.Dir] and [filepath.Base] *)
Definition Dir (p : string) : string :=
  match rev (split_slash p) with
  | [] | [_] => "."
  | _ :: init => Clean (join_slash (rev ("" :: init)))
  end.

Definition Base (p : string) : string :=
  match clean_elems (is_rooted p) p with
  | [] => if is_rooted p then "/" else "."
  | e :: _ => e
  end.

(** ** Facts about paths *)

Definition no_slash (s : string) : Prop := split_slash s = [s].
Definition normal (e : string) : Prop := no_slash e ∧ e ≠ "" ∧ e ≠ "." ∧ e ≠ "..".

Lemma split_slash_nonempty s : split_slash s ≠ [].
Proof. destruct s as [|c s]; simpl; [done|]. case_decide; [done|]. by destruct (split_slash s). Qed.

Lemma split_slash_app a b :
  split_slash (a +:+ String slash b) = split_slash a ++ split_slash b.
Proof.
  induction a as [|c a IH]; [done|]. rewrite string_app_cons. cbn [split_slash].
  case_decide; [by rewrite IH|]. rewrite IH.
  destruct (split_slash a) eqn:E; [by apply split_slash_nonempty in E|]. done.
Qed.

Lemma no_slash_cons c s : no_slash (String c s) → c ≠ slash ∧ no_slash s.
Proof.
  unfold no_slash. cbn [split_slash]. case_decide as Hc.
  - intros [=]. 
  - destruct (split_slash s) eqn:E; [by apply split_slash_nonempty in E|]. intros [= E1 E2]. by subst.
Qed.

Lemma split_elems_no_slash s : Forall no_slash (split_slash s).
Proof.
  induction s as [|c s IH]; cbn [split_slash]; [by constructor|].
  case_decide as Hc; [by constructor|].
  destruct (split_slash s) as [|e es] eqn:E; [by apply split_slash_nonempty in E|].
  apply Forall_cons in IH as [He Hes]. constructor; [|done].
  unfold no_slash in *. cbn [split_slash]. by rewrite decide_False, He.
Qed.

Lemma split_join l : l ≠ [] → Forall no_slash l → split_slash (join_slash l) = l.
Proof.
  induction l as [|e l IH]; [done|]. intros _ Hf. apply Forall_cons in Hf as [He Hf].
  destruct l as [|e' l]; [done|]. change (join_slash (e :: e' :: l))
    with (e +:+ String slash (join_slash (e' :: l))).
  rewrite split_slash_app, He, IH by done. done.
Qed.

Lemma elem_of_list_rev {A} (x : A) l : x ∈ rev l → x ∈ l.
Proof. rewrite !list_elem_of_In. apply in_rev. Qed.

(** A stack [Clean] can produce. *)
Definition clean_stack (rooted : bool) (s : list string) : Prop :=
  ∃ n k, s = n ++ repeat ".." k ∧ Forall normal n ∧ (rooted = true → k = 0).

Lemma clean_step_stack rooted s e :
  no_slash e → clean_stack rooted s → clean_stack rooted (clean_step rooted s e).
Proof.
  intros Hns (n & k & -> & Hn & Hk). unfold clean_step. case_decide as H1; [by exists n, k|].
  case_decide as H2.
  - destruct n as [|o n].
    + simpl. destruct k as [|k]; simpl.
      * destruct rooted; [by exists [], 0|]. by exists [], 1.
      * exists [], (S (S k)). destruct rooted; [|done]. by specialize (Hk eq_refl).
    + simpl. apply Forall_cons in Hn as [Ho Hn]. rewrite decide_False by apply Ho. by exists n, k.
  - exists (e :: n), k. split_and!; [done| |done]. constructor; [|done].
    unfold normal. naive_solver.
Qed.

Lemma clean_fold_stack rooted l s :
  Forall no_slash l → clean_stack rooted s → clean_stack rooted (foldl (clean_step rooted) s l).
Proof.
  revert s. induction l as [|e l IH]; intros s Hl Hs; [done|]. apply Forall_cons in Hl as [He Hl].
  apply IH; [done|]. by apply clean_step_stack.
Qed.

Lemma clean_elems_stack rooted s : clean_stack rooted (clean_elems rooted s).
Proof.
  apply clean_fold_stack; [apply split_elems_no_slash|]. by exists [], 0.
Qed.

Lemma clean_step_normal rooted s e : normal e → clean_step rooted s e = e :: s.
Proof. intros (_ & H1 & H2 & H3). unfold clean_step. rewrite !decide_False by naive_solver. done. Qed.

(** Cleaning a clean path changes nothing. *)
Lemma clean_refold rooted s :
  clean_stack rooted s → foldl (clean_step rooted) [] (rev s) = s.
Proof.
  intros (n & k & -> & Hn & Hk). rewrite rev_app_distr, foldl_app.
  assert (foldl (clean_step rooted) [] (rev (repeat ".." k)) = repeat ".." k) as ->.
  { rewrite rev_repeat. destruct rooted; [by rewrite (Hk eq_refl)|]. clear Hk.
    assert (∀ j m, foldl (clean_step false) (repeat ".." j) (repeat ".." m) = repeat ".." (m + j)) as Hj.
    { intros j m. revert j. induction m as [|m IH]; intros j; [done|]. cbn [repeat foldl].
      replace (clean_step false (repeat ".." j) "..") with (repeat ".." (S j)) by by destruct j.
      rewrite IH. f_equal. lia. }
    pose proof (Hj 0 k) as E. by rewrite Nat.add_0_r in E. }
  generalize (repeat ".." k). intros t. clear Hk. induction n as [|e n IH]; [done|].
  apply Forall_cons in Hn as [He Hn]. simpl. rewrite foldl_app. simpl.
  rewrite IH by done. by apply clean_step_normal.
Qed.

Lemma clean_stack_no_slash rooted s : clean_stack rooted s → Forall no_slash s.
Proof.
  intros (n & k & -> & Hn & _). apply Forall_app. split.
  - eapply Forall_impl; [done|]. by intros e [? _].
  - clear. induction k; simpl; constructor; done.
Qed.

(** *** Joining a plain name to a directory *)

(** The part of [Join a e] in front of the name. *)
Definition join_base (a : string) : string :=
  let r := is_rooted a in
  let out := if decide (a = "") then [] else clean_elems r a in
  (if r then "/" else "") +:+ match out with [] => "" | _ => join_slash (rev out) +:+ "/" end.

Lemma join_slash_snoc l e : l ≠ [] → join_slash (l ++ [e]) = join_slash l +:+ String slash e.
Proof.
  induction l as [|x l IH]; [done|]. intros _. destruct l as [|y l]; [done|].
  change ((x :: y :: l) ++ [e]) with (x :: ((y :: l) ++ [e])).
  change (join_slash (x :: ((y :: l) ++ [e]))) with (x +:+ String slash (join_slash ((y :: l) ++ [e]))).
  rewrite IH by done. change (join_slash (x :: y :: l)) with (x +:+ String slash (join_slash (y :: l))).
  by rewrite <- !string_app_cons, string_app_assoc.
Qed.

Lemma is_rooted_app a b : a ≠ "" → is_rooted (a +:+ b) = is_rooted a.
Proof. destruct a as [|c a]; [done|]. intros _. rewrite string_app_cons. unfold is_rooted, HasPrefix. simpl.
  case_match; [|done]. by destruct (a +:+ b), a.
Qed.

Lemma render_cons r out e :
  render r (e :: out) = (if r then "/" else "") +:+
    match out with [] => "" | _ => join_slash (rev out) +:+ "/" end +:+ e.
Proof.
  unfold render. cbn [rev]. destruct out as [|o out].
  - by destruct r.
  - rewrite join_slash_snoc by (simpl; intros E; by apply app_eq_nil in E as [_ ?]).
    change (String slash e) with ("/" +:+ e). destruct r; by rewrite <- ?string_app_assoc.
Qed.

Lemma Join_elems a e : normal e →
  Join a e = render (is_rooted a)
    (e :: (if decide (a = "") then [] else clean_elems (is_rooted a) a)).
Proof.
  intros He. pose proof He as (Hns & Hne & _). unfold Join. case_decide as Ha.
  - subst a. rewrite decide_False by done. unfold Clean. rewrite decide_False by done.
    assert (is_rooted e = false) as ->.
    { destruct e as [|c e]; [done|]. apply no_slash_cons in Hns as [Hc _].
      unfold is_rooted, HasPrefix. simpl. case_match; [|done]. by subst. }
    unfold clean_elems. rewrite Hns. simpl. by rewrite clean_step_normal.
  - unfold Clean. rewrite decide_False.
    2:{ destruct a; [done|]. by rewrite string_app_cons. }
    rewrite is_rooted_app by done. unfold clean_elems. rewrite split_slash_app, foldl_app, Hns. simpl.
    by rewrite clean_step_normal.
Qed.

(** [Join a e] is the name behind a prefix that depends on the directory only. *)
Lemma Join_normal a e : normal e → Join a e = join_base a +:+ e.
Proof.
  intros He. rewrite Join_elems, render_cons by done. unfold join_base. by rewrite string_app_assoc.
Qed.

(** Rendering a stack and reading it back. *)
Lemma render_inv r e out : clean_stack r (e :: out) →
  render r (e :: out) ≠ "" ∧ is_rooted (render r (e :: out)) = r ∧
  clean_elems r (render r (e :: out)) = e :: out.
Proof.
  intros Hst. assert (rev (e :: out) ≠ []) as Hne.
  { simpl. intros E. by apply app_eq_nil in E as [_ ?]. }
  assert (Forall no_slash (rev (e :: out))) as Hns by (apply Forall_rev; by eapply clean_stack_no_slash).
  unfold render. destruct r.
  - split; [done|]. split; [by destruct (join_slash _)|]. unfold clean_elems.
    change (String slash (join_slash (rev (e :: out)))) with ("" +:+ String slash (join_slash (rev (e :: out)))).
    rewrite split_slash_app, split_join by done. by apply clean_refold.
  - assert (∀ x l, x ≠ "" → no_slash x →
      join_slash (x :: l) ≠ "" ∧ is_rooted (join_slash (x :: l)) = false) as Hx.
    { intros x l Hx Hxs. destruct x as [|c x]; [done|]. apply no_slash_cons in Hxs as [Hc _].
      assert (∃ t, join_slash (String c x :: l) = String c t) as [t ->].
      { destruct l; [by eexists|]. simpl. rewrite string_app_cons. by eexists. }
      split; [done|]. unfold is_rooted, HasPrefix. simpl. case_match; [|done]. by subst. }
    assert (∀ x, x ∈ rev (e :: out) → x ≠ "") as Hnn.
    { destruct Hst as (n & k & -> & Hn & _). intros x Hin%elem_of_list_rev.
      apply elem_of_app in Hin as [Hin|Hin].
      - eapply Forall_forall in Hn; [|done]. apply Hn.
      - apply list_elem_of_In, repeat_spec in Hin. by subst. }
    destruct (rev (e :: out)) as [|x l] eqn:Er; [done|].
    destruct (Hx x l) as [? ?]; [apply Hnn; by left|by apply Forall_cons in Hns as [? _]|].
    split; [done|]. split; [done|]. unfold clean_elems. rewrite split_join by done.
    rewrite <- Er. by apply clean_refold.
Qed.

Lemma Join_stack a e : normal e →
  clean_stack (is_rooted a) (e :: (if decide (a = "") then [] else clean_elems (is_rooted a) a)).
Proof.
  intros He. rewrite <- (clean_step_normal (is_rooted a)) by done. apply clean_step_stack; [apply He|].
  case_decide; [by exists [], 0|apply clean_elems_stack].
Qed.

(** A joined path is clean. *)
Lemma Clean_Join a e : normal e → Clean (Join a e) = Join a e.
Proof.
  intros He. rewrite Join_elems by done. destruct (render_inv _ _ _ (Join_stack a e He)) as (Hp & Hr & Hc).
  unfold Clean. by rewrite decide_False, Hr, Hc.
Qed.

(** Joining to a path that [Join] made appends to it. *)
Lemma Join_Join a e1 e2 : normal e1 → normal e2 →
  Join (Join a e1) e2 = Join a e1 +:+ String slash e2.
Proof.
  intros H1 H2. rewrite (Join_elems a) by done.
  destruct (render_inv _ _ _ (Join_stack a e1 H1)) as (Hp & Hr & Hc).
  rewrite Join_elems by done. rewrite (decide_False (P := render _ _ = "")) by done.
  rewrite Hr, Hc, render_cons. unfold render. change (String slash e2) with ("/" +:+ e2).
  destruct (is_rooted a); rewrite ?string_app_assoc; done.
Qed.

(** ** Files

    Paths are resolved with [Clean]; there are no symbolic links.  [faults] is
    what the operating system refuses: an operation it refuses changes nothing. *)

Record Faults : Type := mkFaults {
  fault_read : string → option error;
  fault_write : string → option error;
  fault_mkdir : string → option error;
  fault_remove : string → option error;
}.

Definition no_faults : Faults := mkFaults (λ _, None) (λ _, None) (λ _, None) (λ _, None).

Record FS (C : Type) : Type := mkFS {
  fs_files : gmap string C;
  fs_dirs : gset string;
  fs_faults : Faults;
}.
Arguments mkFS {C}.
Arguments fs_files {C}.
Arguments fs_dirs {C}.
Arguments fs_faults {C}.

Definition ErrNotExist : error := Sentinel "file does not exist".
Definition ErrIsDir : error := Sentinel "is a directory".

(** A directory and those it lies in. *)
Fixpoint ancestors (fuel : nat) (p : string) : gset string :=
  {[p]} ∪ match fuel with
          | O => ∅
          | S fuel' => if decide (Dir p = p) then ∅ else ancestors fuel' (Dir p)
          end.

(** The path is [p] or lies below it. *)
Definition below (p q : string) : bool := bool_decide (q = p) || HasPrefix q (p +:+ "/").

Section Files.
Context {C : Type}.
Notation FS := (FS C).

Definition path_exists (p : string) (fs : FS) : bool :=
  bool_decide (is_Some (fs_files fs !! p)) || bool_decide (p ∈ fs_dirs fs) ||
  bool_decide (p = "." ∨ p = "/").

Definition os_ReadFile (path : string) : M FS (result C) := λ fs,
  match fault_read (fs_faults fs) (Clean path) with
  | Some e => Ret (Err e) fs
  | None => Ret match fs_files fs !! Clean path with Some c => Ok c | None => Err ErrNotExist end fs
  end.

Definition os_WriteFile (path : string) (c : C) : M FS (option error) := λ fs,
  match fault_write (fs_faults fs) (Clean path) with
  | Some e => Ret (Some e) fs
  | None =>
      if bool_decide (Clean path ∈ fs_dirs fs) then Ret (Some ErrIsDir) fs
      else if path_exists (Dir path) fs
      then Ret None (mkFS (<[Clean path := c]> (fs_files fs)) (fs_dirs fs) (fs_faults fs))
      else Ret (Some ErrNotExist) fs
  end.

Definition os_MkdirAll (path : string) : M FS (option error) := λ fs,
  match fault_mkdir (fs_faults fs) (Clean path) with
  | Some e => Ret (Some e) fs
  | None => Ret None (mkFS (fs_files fs)
      (ancestors (String.length path) (Clean path) ∪ fs_dirs fs) (fs_faults fs))
  end.

Definition os_RemoveAll (path : string) : M FS (option error) := λ fs,
  match fault_remove (fs_faults fs) (Clean path) with
  | Some e => Ret (Some e) fs
  | None => Ret None (mkFS (filter (λ kv, below (Clean path) kv.1 = false) (fs_files fs))
      (filter (λ d, below (Clean path) d = false) (fs_dirs fs)) (fs_faults fs))
  end.

(** The names of the directories directly in [path]. *)
Definition os_subdirs (path : string) (fs : FS) : list string :=
  Base <$> filter (λ d, d ≠ Clean path ∧ Dir d = Clean path) (elements (fs_dirs fs)).

Lemma os_ReadFile_same path fs fs' r : os_ReadFile path fs = Ret r fs' → fs' = fs.
Proof. unfold os_ReadFile. case_match; by intros [= _ <-]. Qed.

Lemma os_WriteFile_Ret path c fs fs' r :
  os_WriteFile path c fs = Ret r fs' →
  fs_dirs fs' = fs_dirs fs ∧ fs_faults fs' = fs_faults fs ∧
  fs_files fs' = match r with None => <[Clean path := c]> (fs_files fs) | Some _ => fs_files fs end.
Proof.
  unfold os_WriteFile. destruct (fault_write _ _); [by intros [= <- <-]|].
  destruct (bool_decide _); [by intros [= <- <-]|]. by destruct (path_exists _ _); intros [= <- <-].
Qed.

Lemma os_MkdirAll_Ret path fs fs' r :
  os_MkdirAll path fs = Ret r fs' → fs_files fs' = fs_files fs ∧ fs_faults fs' = fs_faults fs ∧
    (r = None → path_exists (Clean path) fs' = true) ∧ (∀ p, path_exists p fs = true → path_exists p fs' = true).
Proof.
  unfold os_MkdirAll. case_match; intros E; injection E as <- <-; simpl; [done|]. split_and!; try done.
  - intros _. unfold path_exists. simpl. rewrite (bool_decide_eq_true_2 (Clean path ∈ _)); [by rewrite orb_true_r|].
    apply elem_of_union_l. destruct (String.length path); simpl; set_solver.
  - intros p. unfold path_exists. simpl. rewrite !orb_true_iff, !bool_decide_eq_true. set_solver.
Qed.
End Files.

(** *** Rules for symbolic execution *)
Section FilesWp.
Context {C : Type}.
Notation FS := (FS C).

Lemma wp_ReadFile path (fs : FS) (Q : result C → FS → Prop) :
  (∀ r, (∀ c, r = Ok c → fs_files fs !! Clean path = Some c) → Q r fs) →
  wp (os_ReadFile path) fs Q.
Proof.
  intros HQ. unfold wp, os_ReadFile. destruct (fault_read _ _); [by apply HQ|].
  apply HQ. intros c. case_match; [|done]. by intros [= <-].
Qed.

Lemma wp_WriteFile path c (fs : FS) (Q : option error → FS → Prop) :
  (∀ e, Q (Some e) fs) →
  Q None (mkFS (<[Clean path := c]> (fs_files fs)) (fs_dirs fs) (fs_faults fs)) →
  wp (os_WriteFile path c) fs Q.
Proof.
  intros HE HQ. unfold wp, os_WriteFile. destruct (fault_write _ _); [auto|].
  destruct (bool_decide _); [auto|]. destruct (path_exists _ _); auto.
Qed.

Lemma wp_MkdirAll path (fs : FS) (Q : option error → FS → Prop) :
  (∀ e, Q (Some e) fs) →
  (∀ fs', fs_files fs' = fs_files fs → fs_dirs fs ⊆ fs_dirs fs' → Q None fs') →
  wp (os_MkdirAll path) fs Q.
Proof.
  intros HE HQ. unfold wp, os_MkdirAll. destruct (fault_mkdir _ _); [auto|]. apply HQ; simpl; [done|set_solver].
Qed.

Lemma wp_RemoveAll path (fs : FS) (Q : option error → FS → Prop) :
  (∀ e, Q (Some e) fs) →
  (∀ fs', (∀ p, fs_files fs' !! p = if below (Clean path) p then None else fs_files fs !! p) →
     (∀ p, p ∈ fs_dirs fs' ↔ p ∈ fs_dirs fs ∧ below (Clean path) p = false) → Q None fs') →
  wp (os_RemoveAll path) fs Q.
Proof.
  intros HE HQ. unfold wp, os_RemoveAll. destruct (fault_remove _ _); [auto|]. apply HQ; simpl.
  - intros p. rewrite map_lookup_filter. destruct (fs_files fs !! p); [|by case_match]. simpl.
    case_guard as Hg; destruct (below _ p); done.
  - intros p. rewrite elem_of_filter. tauto.
Qed.
End FilesWp.
