(* ===== verification/CertService.v ===== *)
(** * The certificate service

    Models [src/internal/cert/generate.go], [service.go] and [utils.go] over the
    file system of [FileSystem].  RSA keys are identities, an x509 certificate is
    a record that names the key that signed it, and a file holds what decoding
    its PEM block yields.  The random values a call draws and the clock are
    arguments. *)
From stdpp Require Import base strings list gmap fin_maps.
From Stdlib Require Import ZArith Lia Ascii.
From S2P Require Import Prelude GoStd Http FileSystem.

(** ** x509 *)

Inductive ExtKeyUsage : Type := ServerAuth | ClientAuth.
Inductive KeyUsage : Type := DigitalSignature | KeyEncipherment | CertSign.

(** What a template fixes. *)
Record Template : Type := mkTemplate {
  SerialNumber : Z;
  Organization : list string;
  CommonName : string;
  NotBefore : Z;
  NotAfter : Z;
  t_KeyUsage : list KeyUsage;
  t_ExtKeyUsage : list ExtKeyUsage;
  IsCA : bool;
  MaxPathLenZero : bool;
  DNSNames : list string;
  IPAddresses : list string;
}.

Record Certificate : Type := mkCertificate {
  body : Template;
  PublicKey : nat;                          (** the key pair it certifies *)
  Issuer : list string * string;            (** the signer's subject *)
  SignedBy : nat;                           (** the key pair that signed it *)
}.

Definition Subject (t : Template) : list string * string := (Organization t, CommonName t).

(** [x509.CreateCertificate] with the parsing of its result; no parent is
    self-signed.  The signing key must be the parent's. *)
Definition CreateCertificate (template : Template) (parent : option Certificate) (pub priv : nat) :
    result Certificate :=
  match parent with
  | None => Ok (mkCertificate template pub (Subject template) priv)
  | Some p =>
      if decide (PublicKey p = priv) then Ok (mkCertificate template pub (Subject (body p)) priv)
      else Err (Errorf "x509: provided PrivateKey doesn't match parent's PublicKey")
  end.

(** [ca] issued [c]. *)
Definition issued_by (ca c : Certificate) : Prop :=
  SignedBy c = PublicKey ca ∧ Issuer c = Subject (body ca).

(** What a PEM file decodes to. *)
Inductive pem_file : Type :=
  | CertFile (c : Certificate)
  | KeyFile (rsa : bool) (key : nat)
  | OtherFile (b : bytes).

Abbreviation CertFS := (FS pem_file).

(** What a generation draws from [rand.Reader]. *)
Record Random : Type := mkRandom { rnd_key : result nat; rnd_serial : result Z }.

(** ** utils.go *)

Definition alnum (c : ascii) : bool := is_lower c || is_upper c || is_digit c.

(** [^[a-zA-Z0-9][a-zA-Z0-9_-]*$] *)
Definition validAgentIDRegex (s : string) : bool :=
  match s with
  | EmptyString => false
  | String c s' =>
      alnum c && string_forallb (λ c, alnum c || bool_decide (c = "_"%char) || bool_decide (c = "-"%char)) s'
  end.

Definition ValidateAgentID (agentID : string) : option error :=
  if decide (agentID = "") then Some (Errorf "agent ID cannot be empty")
  else if decide (64 < String.length agentID) then Some (Errorf "agent ID too long (max 64 characters)")
  else if validAgentIDRegex agentID then None
  else Some (Errorf "agent ID contains invalid characters (allowed: alphanumeric, underscore, hyphen)").

(** [strings.Split(s, ",")] *)
Fixpoint split_comma (s : string) : list string :=
  match s with
  | EmptyString => [""]
  | String c s' =>
      if decide (c = ","%char) then "" :: split_comma s'
      else match split_comma s' with
           | [] => [String c ""]
           | e :: es => String c e :: es
           end
  end.

(** [strings.TrimSpace], for ASCII text. *)
Definition is_space (c : ascii) : bool :=
  bool_decide (nat_of_ascii c ∈ [9; 10; 11; 12; 13; 32]).

Fixpoint trim_left (s : string) : string :=
  match s with
  | String c s' => if is_space c then trim_left s' else s
  | EmptyString => EmptyString
  end.

Fixpoint trim_right (s : string) : string :=
  match s with
  | EmptyString => EmptyString
  | String c s' =>
      let t := trim_right s' in
      if is_space c && bool_decide (t = "") then "" else String c t
  end.

Definition TrimSpace (s : string) : string := trim_right (trim_left s).

Definition ParseCommaSeparated (input : string) : list string :=
  if decide (input = "") then []
  else filter (λ t, t ≠ "") (TrimSpace <$> split_comma input).

(** The two branches of [loadCA] on a file's content. *)
Definition parse_cert (f : pem_file) : result Certificate :=
  match f with
  | OtherFile _ => Err (Errorf "failed to decode CA certificate PEM")
  | KeyFile _ _ => Err (Wrapf "failed to parse CA certificate" (Errorf "x509: malformed certificate"))
  | CertFile c => Ok c
  end.

Definition parse_key (f : pem_file) : result nat :=
  match f with
  | OtherFile _ => Err (Errorf "failed to decode CA key PEM")
  | CertFile _ => Err (Wrapf "failed to parse CA key" (Errorf "x509: failed to parse private key"))
  | KeyFile false _ => Err (Errorf "CA key is not an RSA private key")
  | KeyFile true k => Ok k
  end.

Definition loadCA (certPath keyPath : string) : M CertFS (result (Certificate * nat)) :=
  try (os_ReadFile certPath) (Wrapf "failed to read CA certificate") (λ certBytes,
  try (mret (parse_cert certBytes)) id (λ caCert,
  try (os_ReadFile keyPath) (Wrapf "failed to read CA key") (λ keyBytes,
  try (mret (parse_key keyBytes)) id (λ caKey,
  mret (Ok (caCert, caKey)))))).

Definition writeCertToFile (c : Certificate) (path : string) : M CertFS (option error) :=
  e ← os_WriteFile path (CertFile c);
  mret (Wrapf "failed to write certificate file" <$> e).

Definition writeKeyToFile (key : nat) (path : string) : M CertFS (option error) :=
  e ← os_WriteFile path (KeyFile true key);
  mret (Wrapf "failed to write key file" <$> e).

Definition fileExists (path : string) : M CertFS bool := gets (path_exists (Clean path)).

(** ** generate.go *)

Definition hour : Z := 3600 * 1000000000.

Definition server_template (serial now : Z) (domainNames ipAddresses : list string) : Template :=
  mkTemplate serial ["Silo Proxy"] (match domainNames with d :: _ => d | [] => "localhost" end)
    now (now + 365 * 24 * hour) [DigitalSignature; KeyEncipherment] [ServerAuth] false false
    domainNames ipAddresses.

Definition ca_template (serial now : Z) : Template :=
  mkTemplate serial ["Silo Proxy CA"] "Silo Proxy Root CA" now (now + 10 * 365 * 24 * hour)
    [CertSign; DigitalSignature] [ServerAuth; ClientAuth] true true [] [].

Definition agent_template (serial now : Z) (agentID : string) : Template :=
  mkTemplate serial ["Silo Proxy"] agentID now (now + 365 * 24 * hour)
    [DigitalSignature; KeyEncipherment] [ClientAuth] false false [] [].

(** The part the three generators share: key, serial number, certificate. *)
Definition generate {S} (what : string) (rnd : Random) (template : Z → Template)
    (parent : nat → option Certificate * nat) : M S (result (Certificate * nat)) :=
  try (mret (rnd_key rnd)) (Wrapf ("failed to generate " +:+ what +:+ " key")) (λ key,
  try (mret (rnd_serial rnd)) (Wrapf "failed to generate serial number") (λ serial,
  let (signer, signKey) := parent key in
  try (mret (CreateCertificate (template serial) signer key signKey))
      (Wrapf ("failed to create " +:+ what +:+ " certificate")) (λ c,
  mret (Ok (c, key))))).

Definition GenerateServerCert {S} (rnd : Random) (now : Z) (caCert : Certificate) (caKey : nat)
    (domainNames ipAddresses : list string) : M S (result (Certificate * nat)) :=
  generate "server" rnd (λ serial, server_template serial now domainNames ipAddresses)
           (λ _, (Some caCert, caKey)).

Definition GenerateCA {S} (rnd : Random) (now : Z) : M S (result (Certificate * nat)) :=
  generate "CA" rnd (λ serial, ca_template serial now) (λ key, (None, key)).

(** ** service.go *)

Record Service : Type := mkService {
  CaCertPath : string;
  CaKeyPath : string;
  ServerCertPath : string;
  ServerKeyPath : string;
  AgentCertDir : string;
  DomainNames : list string;
  IPAddresses_ : list string;
}.

Definition ensureDirectory (filePath : string) : M CertFS (option error) :=
  let dir := Dir filePath in
  e ← os_MkdirAll dir;
  mret (Wrapf ("failed to create directory " +:+ dir) <$> e).

Definition GetCACert (s : Service) : M CertFS (result pem_file) :=
  try (os_ReadFile (CaCertPath s)) (Wrapf "failed to read CA certificate") (λ b, mret (Ok b)).

Definition GetAgentCertDir (s : Service) (agentID : string) : string := Join (AgentCertDir s) agentID.
Definition GetAgentCertPath (s : Service) (agentID : string) : string :=
  Join (GetAgentCertDir s agentID) (agentID +:+ "-cert.pem").
Definition GetAgentKeyPath (s : Service) (agentID : string) : string :=
  Join (GetAgentCertDir s agentID) (agentID +:+ "-key.pem").

Definition AgentCertExists (s : Service) (agentID : string) : M CertFS bool :=
  c ← fileExists (GetAgentCertPath s agentID);
  k ← fileExists (GetAgentKeyPath s agentID);
  mret (c && k).

Definition GetAgentCert (s : Service) (agentID : string) : M CertFS (result (pem_file * pem_file)) :=
  try (os_ReadFile (GetAgentCertPath s agentID)) (Wrapf "failed to read agent certificate") (λ c,
  try (os_ReadFile (GetAgentKeyPath s agentID)) (Wrapf "failed to read agent key") (λ k,
  mret (Ok (c, k)))).

Definition DeleteAgentCert (s : Service) (agentID : string) : M CertFS (result unit) :=
  let certDir := GetAgentCertDir s agentID in
  exists_ ← fileExists certDir;
  if (exists_ : bool) then
    check (os_RemoveAll certDir) (Wrapf "failed to delete agent certificate directory") (mret (Ok ()))
  else mret (Err (Errorf "agent certificate directory does not exist")).

(** [entries]: the directories [os.ReadDir] returns, in its order. *)
Definition ListAgentCerts (s : Service) (entries : list string) : M CertFS (result (list string)) :=
  exists_ ← fileExists (AgentCertDir s);
  if (exists_ : bool) then gets (λ fs, Ok (filter (λ agentID,
      match AgentCertExists s agentID fs with Ret b _ => b = true | _ => False end) entries))
  else mret (Ok []).

(** [GenerateAgentCert] in its parts: the certificate is made, then written, then
    the key is written. *)
Definition GenerateAgentCert_make (s : Service) (rnd : Random) (now : Z) (agentID : string) :
    M CertFS (result (Certificate * nat)) :=
  try (loadCA (CaCertPath s) (CaKeyPath s)) (Wrapf "failed to load CA") (λ '(caCert, caKey),
  generate "agent" rnd (λ serial, agent_template serial now agentID) (λ _, (Some caCert, caKey))).

Definition GenerateAgentCert_write (s : Service) (agentID : string) (c : Certificate) (key : nat) :
    M CertFS (result (Certificate * nat)) :=
  check (ensureDirectory (GetAgentCertPath s agentID)) (Wrapf "failed to create agent cert directory")
  (check (writeCertToFile c (GetAgentCertPath s agentID)) (Wrapf "failed to write agent certificate")
  (check (writeKeyToFile key (GetAgentKeyPath s agentID)) (Wrapf "failed to write agent key")
  (mret (Ok (c, key))))).

Definition GenerateAgentCert (s : Service) (rnd : Random) (now : Z) (agentID : string) :
    M CertFS (result (Certificate * nat)) :=
  try (GenerateAgentCert_make s rnd now agentID) id (λ '(c, key),
  GenerateAgentCert_write s agentID c key).

(** [None]: the certificate exists already ([created] is false). *)
Definition GenerateAgentCertIfNotExists (s : Service) (rnd : Random) (now : Z) (agentID : string) :
    M CertFS (result (option (Certificate * nat))) :=
  exists_ ← AgentCertExists s agentID;
  if (exists_ : bool) then mret (Ok None)
  else try (GenerateAgentCert s rnd now agentID) id (λ ck, mret (Ok (Some ck))).

(** Write a certificate and its key, each after its directory. *)
Definition save_pair (what : string) (c : Certificate) (key : nat) (certPath keyPath : string)
    (k : M CertFS (result unit)) : M CertFS (result unit) :=
  check (ensureDirectory certPath) id
  (check (writeCertToFile c certPath) (Wrapf ("failed to write " +:+ what +:+ " certificate"))
  (check (ensureDirectory keyPath) id
  (check (writeKeyToFile key keyPath) (Wrapf ("failed to write " +:+ what +:+ " key")) k))).

Definition ensure_ca (s : Service) (rnd : Random) (now : Z) : M CertFS (result (Certificate * nat)) :=
  caCertExists ← fileExists (CaCertPath s);
  caKeyExists ← fileExists (CaKeyPath s);
  if (negb caCertExists || negb caKeyExists : bool) then
    try (GenerateCA rnd now) (Wrapf "failed to generate CA certificate") (λ '(caCert, caKey),
    try (save_pair "CA" caCert caKey (CaCertPath s) (CaKeyPath s) (mret (Ok ()))) id (λ _,
    mret (Ok (caCert, caKey))))
  else try (loadCA (CaCertPath s) (CaKeyPath s)) (Wrapf "failed to load existing CA certificate")
           (λ ck, mret (Ok ck)).

Definition ensureCertificates (s : Service) (rndCA rndServer : Random) (now : Z) : M CertFS (result unit) :=
  try (ensure_ca s rndCA now) id (λ '(caCert, caKey),
  serverCertExists ← fileExists (ServerCertPath s);
  serverKeyExists ← fileExists (ServerKeyPath s);
  if (negb serverCertExists || negb serverKeyExists : bool) then
    try (GenerateServerCert rndServer now caCert caKey (DomainNames s) (IPAddresses_ s))
        (Wrapf "failed to generate server certificate") (λ '(c, key),
    save_pair "server" c key (ServerCertPath s) (ServerKeyPath s) (mret (Ok ())))
  else mret (Ok ())).

(** [New]; [ParseIP] is [net.ParseIP] with its result printed. *)
Definition New (ParseIP : string → option string) (rndCA rndServer : Random) (now : Z)
    (caCertPath caKeyPath serverCertPath serverKeyPath agentCertDir domainNamesConfig
     IPAddressesConfig : string) : M CertFS (result Service) :=
  let s := mkService caCertPath caKeyPath serverCertPath serverKeyPath agentCertDir
             (ParseCommaSeparated domainNamesConfig)
             (omap ParseIP (ParseCommaSeparated IPAddressesConfig)) in
  try (ensureCertificates s rndCA rndServer now) (Wrapf "failed to ensure certificates") (λ _,
  mret (Ok s)).

(** ** Agent ids and their files *)

Lemma forallb_impl (f g : ascii → bool) s :
  (∀ c, f c = true → g c = true) → string_forallb f s = true → string_forallb g s = true.
Proof.
  intros Hi. induction s as [|c s IH]; simpl; [done|]. rewrite !andb_true_iff. intros [? ?]. auto.
Qed.

Lemma forallb_app f a b : string_forallb f (a +:+ b) = string_forallb f a && string_forallb f b.
Proof. induction a as [|c a IH]; [done|]. rewrite string_app_cons. simpl. by rewrite IH, andb_assoc. Qed.

Definition not_slash (c : ascii) : bool := bool_decide (c ≠ slash).

Lemma no_slash_forallb s : string_forallb not_slash s = true → no_slash s.
Proof.
  induction s as [|c s IH]; simpl; [done|]. rewrite andb_true_iff. intros [Hc%bool_decide_eq_true Hs].
  unfold no_slash in *. cbn [split_slash]. by rewrite decide_False, IH.
Qed.

Lemma alnum_not c : alnum c = true → c ≠ slash ∧ c ≠ "."%char.
Proof. intros H. split; intros ->; done. Qed.

Lemma ValidateAgentID_None id : ValidateAgentID id = None →
  string_forallb not_slash id = true ∧ ∃ c s, id = String c s ∧ c ≠ "."%char.
Proof.
  unfold ValidateAgentID. case_decide; [done|]. case_decide; [done|].
  destruct (validAgentIDRegex id) eqn:E; [|done]. intros _.
  destruct id as [|c s]; [done|]. cbn [validAgentIDRegex] in E. apply andb_true_iff in E as [Ec Es].
  destruct (alnum_not c Ec) as [H1 H2]. split; [|by exists c, s].
  cbn [string_forallb]. unfold not_slash at 1. rewrite bool_decide_eq_true_2 by done. simpl.
  eapply forallb_impl; [|exact Es]. intros x Hx. apply bool_decide_eq_true_2. intros ->. done.
Qed.

(** A valid id, alone or with a suffix, is one path element. *)
Lemma valid_normal id suffix : ValidateAgentID id = None → string_forallb not_slash suffix = true →
  normal (id +:+ suffix).
Proof.
  intros (Hs & c & s & -> & Hc)%ValidateAgentID_None Hsuf. unfold normal. split_and!.
  - apply no_slash_forallb. by rewrite forallb_app, Hs, Hsuf.
  - done.
  - rewrite string_app_cons. congruence.
  - rewrite string_app_cons. congruence.
Qed.

Lemma valid_normal_id id : ValidateAgentID id = None → normal id.
Proof. intros H. rewrite <- (string_app_nil_r id). by apply valid_normal. Qed.

Section Paths.
Context (s : Service).

Lemma GetAgentCertDir_eq id : ValidateAgentID id = None →
  GetAgentCertDir s id = join_base (AgentCertDir s) +:+ id.
Proof. intros H. by apply Join_normal, valid_normal_id. Qed.

Lemma agent_path_eq id suffix : ValidateAgentID id = None → string_forallb not_slash suffix = true →
  Join (GetAgentCertDir s id) (id +:+ suffix) = GetAgentCertDir s id +:+ "/" +:+ id +:+ suffix.
Proof.
  intros H Hs. unfold GetAgentCertDir. rewrite Join_Join; [done|by apply valid_normal_id|by apply valid_normal].
Qed.

Lemma Clean_agent_path id suffix : ValidateAgentID id = None → string_forallb not_slash suffix = true →
  Clean (Join (GetAgentCertDir s id) (id +:+ suffix)) = Join (GetAgentCertDir s id) (id +:+ suffix).
Proof. intros H Hs. by apply Clean_Join, valid_normal. Qed.

Lemma Clean_agent_dir id : ValidateAgentID id = None → Clean (GetAgentCertDir s id) = GetAgentCertDir s id.
Proof. intros H. by apply Clean_Join, valid_normal_id. Qed.

(** What lies below an agent's directory is that agent's. *)
Lemma below_agent_dir a b suffix :
  ValidateAgentID a = None → ValidateAgentID b = None → string_forallb not_slash suffix = true →
  below (GetAgentCertDir s a) (Join (GetAgentCertDir s b) (b +:+ suffix)) = bool_decide (a = b).
Proof.
  intros Ha Hb Hs. rewrite agent_path_eq, !GetAgentCertDir_eq by done. unfold below.
  set (base := join_base (AgentCertDir s)). rewrite <- !string_app_assoc.
  destruct (valid_normal_id _ Ha) as [Na _]. destruct (valid_normal_id _ Hb) as [Nb _].
  assert (∀ x t, base +:+ b +:+ "/" +:+ x = base +:+ a +:+ "/" +:+ t → a = b) as Hinj.
  { intros x t E%(inj _). apply (f_equal split_slash) in E.
    change (b +:+ "/" +:+ x) with (b +:+ String slash x) in E.
    change (a +:+ "/" +:+ t) with (a +:+ String slash t) in E.
    rewrite !split_slash_app, Na, Nb in E. by injection E. }
  rewrite bool_decide_eq_false_2.
  2:{ intros E%(inj _). apply (f_equal split_slash) in E.
      change (b +:+ "/" +:+ b +:+ suffix) with (b +:+ String slash (b +:+ suffix)) in E.
      rewrite split_slash_app, Na, Nb in E.
      injection E as E1 E2. by apply split_slash_nonempty in E2. }
  simpl. destruct (HasPrefix _ _) eqn:Hp.
  - apply HasPrefix_inv in Hp. rewrite <- !string_app_assoc in Hp. apply Hinj in Hp.
    by rewrite bool_decide_eq_true_2.
  - symmetry. apply bool_decide_eq_false. intros ->. rewrite !string_app_assoc in Hp.
    rewrite <- (string_app_assoc ((base +:+ b) +:+ "/")) in Hp. by rewrite HasPrefix_app in Hp.
Qed.

Lemma suffix_ne id x y :
  ValidateAgentID id = None → string_forallb not_slash x = true → string_forallb not_slash y = true →
  x ≠ y → Join (GetAgentCertDir s id) (id +:+ x) ≠ Join (GetAgentCertDir s id) (id +:+ y).
Proof. intros H Hx Hy Hne. rewrite !agent_path_eq by done. by intros E%(inj _)%(inj _)%(inj _). Qed.
End Paths.

(** A file of another agent, under whichever suffix, has another path. *)
Lemma agent_path_ne s a b x y :
  ValidateAgentID a = None → ValidateAgentID b = None → a ≠ b →
  string_forallb not_slash x = true → string_forallb not_slash y = true →
  Join (GetAgentCertDir s a) (a +:+ x) ≠ Join (GetAgentCertDir s b) (b +:+ y).
Proof.
  intros Ha Hb Hne Hx Hy E. pose proof (below_agent_dir s a a x Ha Ha Hx) as H1.
  rewrite E, (below_agent_dir s a b y Ha Hb Hy) in H1.
  rewrite bool_decide_eq_false_2, bool_decide_eq_true_2 in H1 by done. done.
Qed.

(** ** The operations *)

Lemma loadCA_spec certPath keyPath fs :
  wp (loadCA certPath keyPath) fs (λ r fs', fs' = fs ∧
    ∀ ca k, r = Ok (ca, k) → fs_files fs !! Clean certPath = Some (CertFile ca) ∧
      fs_files fs !! Clean keyPath = Some (KeyFile true k)).
Proof.
  unfold loadCA. wp_steps. apply wp_ReadFile. intros [f|e] Hf; [|done]. wp_steps.
  destruct f as [ca|? ?|?]; simpl; try done. wp_steps. apply wp_ReadFile. intros [g|e] Hg; [|done].
  wp_steps. destruct g as [?|[|] k|?]; simpl; try done. wp_steps. split; [done|].
  intros ? ? [= <- <-]. auto.
Qed.

(** What the three generators guarantee of the certificate they return. *)
Lemma generate_spec {S} what rnd template parent (st : S) :
  wp (generate what rnd template parent) st (λ r st', st' = st ∧
    match r with
    | Ok (c, k) => rnd_key rnd = Ok k ∧ PublicKey c = k ∧ (∃ n, body c = template n) ∧
        match parent k with
        | (None, sk) => Issuer c = Subject (body c) ∧ SignedBy c = sk
        | (Some ca, sk) => issued_by ca c ∧ PublicKey ca = sk
        end
    | Err _ => True
    end).
Proof.
  unfold generate. wp_steps. destruct (rnd_key rnd) as [k|e]; wp_steps; [|done].
  destruct (rnd_serial rnd) as [n|e]; wp_steps; [|done].
  destruct (parent k) as [[ca|] sk] eqn:Ep; simpl; wp_steps.
  - case_decide as Hk; wp_steps; [|done].
    split; [done|]. split; [done|]. split; [done|]. split; [by exists n|].
    rewrite Ep. split; [|done]. by split.
  - split; [done|]. split; [done|]. split; [done|]. split; [by exists n|]. by rewrite Ep.
Qed.

Lemma wp_ensureDirectory path fs (Q : option error → CertFS → Prop) :
  (∀ e, Q (Some e) fs) →
  (∀ fs', fs_files fs' = fs_files fs → fs_dirs fs ⊆ fs_dirs fs' → Q None fs') →
  wp (ensureDirectory path) fs Q.
Proof.
  intros HE HQ. unfold ensureDirectory. wp_steps. apply wp_MkdirAll.
  - intros e. wp_steps. apply HE.
  - intros fs' ? ?. wp_steps. by apply HQ.
Qed.

Lemma wp_writeCert c path fs (Q : option error → CertFS → Prop) :
  (∀ e, Q (Some e) fs) →
  Q None (mkFS (<[Clean path := CertFile c]> (fs_files fs)) (fs_dirs fs) (fs_faults fs)) →
  wp (writeCertToFile c path) fs Q.
Proof. intros HE HQ. unfold writeCertToFile. wp_steps. apply wp_WriteFile; [intros e|]; wp_steps; [apply HE|done]. Qed.

Lemma wp_writeKey k path fs (Q : option error → CertFS → Prop) :
  (∀ e, Q (Some e) fs) →
  Q None (mkFS (<[Clean path := KeyFile true k]> (fs_files fs)) (fs_dirs fs) (fs_faults fs)) →
  wp (writeKeyToFile k path) fs Q.
Proof. intros HE HQ. unfold writeKeyToFile. wp_steps. apply wp_WriteFile; [intros e|]; wp_steps; [apply HE|done]. Qed.

Section Agents.
Context (s : Service).

Definition cert_on_disk (id : string) (fs : CertFS) : bool :=
  path_exists (Clean (GetAgentCertPath s id)) fs && path_exists (Clean (GetAgentKeyPath s id)) fs.

Lemma AgentCertExists_run id fs : AgentCertExists s id fs = Ret (cert_on_disk id fs) fs.
Proof. done. Qed.

Lemma Clean_cert id : ValidateAgentID id = None → Clean (GetAgentCertPath s id) = GetAgentCertPath s id.
Proof. intros H. by apply Clean_agent_path. Qed.
Lemma Clean_key id : ValidateAgentID id = None → Clean (GetAgentKeyPath s id) = GetAgentKeyPath s id.
Proof. intros H. by apply Clean_agent_path. Qed.

(** All files but the agent's two stay. *)
Definition only_agent (id : string) (fs fs' : CertFS) : Prop :=
  fs_dirs fs ⊆ fs_dirs fs' ∧
  ∀ p, p ≠ GetAgentCertPath s id → p ≠ GetAgentKeyPath s id → fs_files fs' !! p = fs_files fs !! p.

(** The agent's two files hold the pair. *)
Definition has_pair (id : string) (c : Certificate) (k : nat) (fs : CertFS) : Prop :=
  fs_files fs !! GetAgentCertPath s id = Some (CertFile c) ∧
  fs_files fs !! GetAgentKeyPath s id = Some (KeyFile true k).

Lemma GenerateAgentCert_write_spec id c k fs :
  ValidateAgentID id = None →
  wp (GenerateAgentCert_write s id c k) fs (λ r fs', only_agent id fs fs' ∧
    (∀ ck, r = Ok ck → ck = (c, k) ∧ has_pair id c k fs') ∧
    (∀ p, is_Some (fs_files fs !! p) → is_Some (fs_files fs' !! p))).
Proof.
  intros Hid. unfold GenerateAgentCert_write.
  assert (GetAgentCertPath s id ≠ GetAgentKeyPath s id) as Hne by by apply suffix_ne.
  wp_steps. apply wp_ensureDirectory; [done|]. intros fs1 Ef Ed. wp_steps.
  apply wp_writeCert.
  { intros e. split; [split; [done|intros; by rewrite Ef]|]. split; [done|intros p; by rewrite Ef]. }
  wp_steps. rewrite Clean_cert by done.
  apply wp_writeKey; simpl.
  - intros e. split; [|split; [done|]].
    + split; [done|]. intros p H1 H2. simpl. by rewrite lookup_insert_ne, Ef.
    + intros p Hp. simpl. rewrite lookup_insert_is_Some', Ef. auto.
  - wp_steps. rewrite Clean_key by done. split; [|split].
    + split; [done|]. intros p H1 H2. simpl. by rewrite !lookup_insert_ne, Ef.
    + intros ck [= <-]. split; [done|]. split; simpl; [by rewrite lookup_insert_ne, lookup_insert_eq|].
      by rewrite lookup_insert_eq.
    + intros p Hp. simpl. rewrite !lookup_insert_is_Some', Ef. auto.
Qed.

(** The certificate of an agent, issued by the CA on disk. *)
Definition agent_cert (id : string) (now : Z) (c : Certificate) (k : nat) (fs : CertFS) : Prop :=
  PublicKey c = k ∧ CommonName (body c) = id ∧ t_ExtKeyUsage (body c) = [ClientAuth] ∧
  IsCA (body c) = false ∧ NotBefore (body c) = now ∧ NotAfter (body c) = (now + 365 * 24 * hour)%Z ∧
  ∃ ca, fs_files fs !! Clean (CaCertPath s) = Some (CertFile ca) ∧
    fs_files fs !! Clean (CaKeyPath s) = Some (KeyFile true (PublicKey ca)) ∧ issued_by ca c.

Lemma GenerateAgentCert_make_spec rnd now id fs :
  wp (GenerateAgentCert_make s rnd now id) fs (λ r fs', fs' = fs ∧
    ∀ c k, r = Ok (c, k) → rnd_key rnd = Ok k ∧ agent_cert id now c k fs).
Proof.
  unfold GenerateAgentCert_make. wp_steps. eapply wp_mono; [apply loadCA_spec|].
  intros [[ca sk]|e] fs' [-> Hca]; [|done]. destruct (Hca _ _ eq_refl) as [Hc Hk].
  eapply wp_mono; [apply generate_spec|]. intros r fs' [-> Hr]. split; [done|].
  intros c k ->. destruct Hr as (Hkey & Epk & [n Eb] & Hi & Esk). split; [done|]. subst sk.
  unfold agent_cert. rewrite Eb. split_and!; try done. by exists ca.
Qed.

Lemma GenerateAgentCert_spec rnd now id fs :
  ValidateAgentID id = None →
  wp (GenerateAgentCert s rnd now id) fs (λ r fs', only_agent id fs fs' ∧
    (∀ c k, r = Ok (c, k) → has_pair id c k fs' ∧ agent_cert id now c k fs) ∧
    (∀ p, is_Some (fs_files fs !! p) → is_Some (fs_files fs' !! p))).
Proof.
  intros Hid. unfold GenerateAgentCert. wp_steps.
  eapply wp_mono; [apply GenerateAgentCert_make_spec|]. intros [[c k]|e] fs1 [-> Hc]; [|done].
  destruct (Hc _ _ eq_refl) as [_ Hac].
  eapply wp_mono; [by apply GenerateAgentCert_write_spec|]. intros r fs' (H1 & H2 & H3).
  split_and!; try done. intros c' k' E. destruct (H2 _ E) as [[= -> ->] ?]. done.
Qed.

Lemma has_pair_exists id c k fs :
  ValidateAgentID id = None → has_pair id c k fs → AgentCertExists s id fs = Ret true fs.
Proof.
  intros Hid [Hc Hk]. rewrite AgentCertExists_run. unfold cert_on_disk. rewrite Clean_cert, Clean_key by done.
  unfold path_exists. by rewrite Hc, Hk, !(bool_decide_eq_true_2 (is_Some _)) by by eexists.
Qed.

(** Files and directories only ever appear. *)
Definition grows (fs fs' : CertFS) : Prop :=
  fs_dirs fs ⊆ fs_dirs fs' ∧ ∀ p, is_Some (fs_files fs !! p) → is_Some (fs_files fs' !! p).

Lemma grows_refl fs : grows fs fs.
Proof. by split. Qed.

Lemma grows_exists p fs fs' : grows fs fs' → path_exists p fs = true → path_exists p fs' = true.
Proof.
  intros [Hd Hf]. unfold path_exists. rewrite !orb_true_iff, !bool_decide_eq_true. set_solver.
Qed.

(** One provisioning of an agent. *)
Lemma GenerateAgentCertIfNotExists_spec rnd now id fs :
  ValidateAgentID id = None →
  wp (GenerateAgentCertIfNotExists s rnd now id) fs (λ r fs',
    grows fs fs' ∧ only_agent id fs fs' ∧
    match r with
    | Ok None => AgentCertExists s id fs = Ret true fs ∧ fs' = fs
    | Ok (Some (c, k)) => AgentCertExists s id fs = Ret false fs ∧
        AgentCertExists s id fs' = Ret true fs' ∧ has_pair id c k fs' ∧ agent_cert id now c k fs
    | Err _ => AgentCertExists s id fs = Ret false fs
    end).
Proof.
  intros Hid. unfold GenerateAgentCertIfNotExists. wp_steps. unfold wp at 1.
  rewrite AgentCertExists_run. destruct (cert_on_disk id fs); [done|]. wp_steps.
  eapply wp_mono; [by apply GenerateAgentCert_spec|]. intros [[c k]|e] fs' (Ho & Hok & Hg).
  - wp_steps. destruct (Hok _ _ eq_refl) as [Hp Hc]. split; [split; [apply Ho|done]|]. split; [done|].
    split; [done|]. split; [by eapply has_pair_exists|done].
  - split; [split; [apply Ho|done]|]. done.
Qed.
End Agents.

(** ** The CA and the server certificate *)

Section Ensure.
Context (s : Service).

(** The files of a key pair certified by [ca], [None] for self-signed. *)
Definition pair_at (certPath keyPath : string) (c : Certificate) (k : nat) (fs : CertFS) : Prop :=
  fs_files fs !! Clean certPath = Some (CertFile c) ∧ fs_files fs !! Clean keyPath = Some (KeyFile true k).

Lemma save_pair_spec what c k certPath keyPath fs :
  Clean certPath ≠ Clean keyPath →
  wp (save_pair what c k certPath keyPath (mret (Ok ()))) fs (λ r fs',
    (∀ p, p ≠ Clean certPath → p ≠ Clean keyPath → fs_files fs' !! p = fs_files fs !! p) ∧
    (r = Ok () → pair_at certPath keyPath c k fs')).
Proof.
  intros Hne. unfold save_pair. wp_steps. apply wp_ensureDirectory; [done|]. intros fs1 E1 _. wp_steps.
  apply wp_writeCert; [intros e; by split; [intros; by rewrite E1|]|]. wp_steps.
  apply wp_ensureDirectory.
  { intros e. split; [|done]. intros p H1 H2. simpl. by rewrite lookup_insert_ne, E1. }
  intros fs2 E2 _. wp_steps. simpl in E2. apply wp_writeKey.
  - intros e. split; [|done]. intros p H1 H2. by rewrite E2, lookup_insert_ne, E1.
  - wp_steps. split.
    + intros p H1 H2. simpl. by rewrite lookup_insert_ne, E2, lookup_insert_ne, E1.
    + intros _. split; simpl; [by rewrite lookup_insert_ne, E2, lookup_insert_eq|]. by rewrite lookup_insert_eq.
Qed.

Definition present (certPath keyPath : string) (fs : CertFS) : bool :=
  path_exists (Clean certPath) fs && path_exists (Clean keyPath) fs.

(** What exists and is no directory existed before, where the file is the same. *)
Lemma path_exists_file p (fs fs' : CertFS) :
  fs_files fs !! p = fs_files fs' !! p → p ∉ fs_dirs fs → path_exists p fs = true → path_exists p fs' = true.
Proof.
  unfold path_exists. intros -> Hd. rewrite (bool_decide_eq_false_2 (p ∈ fs_dirs fs)), orb_false_r by done.
  rewrite !orb_true_iff. tauto.
Qed.

Lemma ensure_ca_spec rnd now fs :
  Clean (CaCertPath s) ≠ Clean (CaKeyPath s) →
  wp (ensure_ca s rnd now) fs (λ r fs',
    (∀ p, p ≠ Clean (CaCertPath s) → p ≠ Clean (CaKeyPath s) → fs_files fs' !! p = fs_files fs !! p) ∧
    ∀ ca k, r = Ok (ca, k) → pair_at (CaCertPath s) (CaKeyPath s) ca k fs' ∧
      if present (CaCertPath s) (CaKeyPath s) fs then fs' = fs
      else IsCA (body ca) = true ∧ issued_by ca ca ∧ PublicKey ca = k ∧ rnd_key rnd = Ok k ∧
           ∃ n, body ca = ca_template n now).
Proof.
  intros Hne. unfold ensure_ca, fileExists, present. wp_steps.
  destruct (path_exists (Clean (CaCertPath s)) fs); simpl;
    [destruct (path_exists (Clean (CaKeyPath s)) fs)|]; simpl.
  - wp_steps. eapply wp_mono; [apply loadCA_spec|]. intros [[ca k]|e] fs' [-> Hca]; wp_steps; [|done].
    split; [done|]. intros ? ? [= <- <-]. split; [|done]. by apply Hca.
  - wp_steps. unfold GenerateCA. eapply wp_mono; [apply generate_spec|].
    intros [[ca k]|e] fs' [-> Hca]; [|done]. wp_steps. eapply wp_mono; [by apply save_pair_spec|].
    intros [[]|e] fs' [Ho Hp]; [|done]. wp_steps. split; [done|]. intros ? ? [= <- <-].
    split; [by apply Hp|]. destruct Hca as (Hk & Epk & [n Eb] & Hi & Hs). rewrite Eb.
    split_and!; try done; [split; [congruence|done]|by exists n].
  - wp_steps. unfold GenerateCA. eapply wp_mono; [apply generate_spec|].
    intros [[ca k]|e] fs' [-> Hca]; [|done]. wp_steps. eapply wp_mono; [by apply save_pair_spec|].
    intros [[]|e] fs' [Ho Hp]; [|done]. wp_steps. split; [done|]. intros ? ? [= <- <-].
    split; [by apply Hp|]. destruct Hca as (Hk & Epk & [n Eb] & Hi & Hs). rewrite Eb.
    split_and!; try done; [split; [congruence|done]|by exists n].
Qed.

Definition distinct_paths : Prop :=
  NoDup [Clean (CaCertPath s); Clean (CaKeyPath s); Clean (ServerCertPath s); Clean (ServerKeyPath s)].

Lemma ensureCertificates_spec rnd1 rnd2 now fs :
  distinct_paths →
  wp (ensureCertificates s rnd1 rnd2 now) fs (λ r fs', r = Ok () →
    ∃ ca k, pair_at (CaCertPath s) (CaKeyPath s) ca k fs' ∧
      (if present (CaCertPath s) (CaKeyPath s) fs then pair_at (CaCertPath s) (CaKeyPath s) ca k fs
       else IsCA (body ca) = true ∧ issued_by ca ca ∧ PublicKey ca = k ∧ rnd_key rnd1 = Ok k ∧
            ∃ n, body ca = ca_template n now) ∧
      ∃ fs1, (∀ p, p ≠ Clean (CaCertPath s) → p ≠ Clean (CaKeyPath s) → fs_files fs1 !! p = fs_files fs !! p) ∧
        (present (CaCertPath s) (CaKeyPath s) fs = true → fs1 = fs) ∧
        if present (ServerCertPath s) (ServerKeyPath s) fs1 then fs' = fs1
        else ∃ c sk, pair_at (ServerCertPath s) (ServerKeyPath s) c sk fs' ∧ PublicKey c = sk ∧
          issued_by ca c ∧ ∃ n, body c = server_template n now (DomainNames s) (IPAddresses_ s)).
Proof.
  unfold distinct_paths. rewrite !NoDup_cons, !not_elem_of_cons. intros Hd. destruct_and?.
  unfold ensureCertificates. wp_steps. eapply wp_mono; [by apply ensure_ca_spec|].
  intros [[ca k]|e] fs1 [Ho Hca]; [|done]. destruct (Hca _ _ eq_refl) as [Hp Hpres]. wp_steps.
  unfold fileExists. wp_steps.
  assert (if present (CaCertPath s) (CaKeyPath s) fs then pair_at (CaCertPath s) (CaKeyPath s) ca k fs
       else IsCA (body ca) = true ∧ issued_by ca ca ∧ PublicKey ca = k ∧ rnd_key rnd1 = Ok k ∧
            ∃ n, body ca = ca_template n now) as Hca'.
  { destruct (present (CaCertPath s) (CaKeyPath s) fs); by subst. }
  assert (present (CaCertPath s) (CaKeyPath s) fs = true → fs1 = fs) as Hsame.
  { intros E. by rewrite E in Hpres. }
  destruct (present (ServerCertPath s) (ServerKeyPath s) fs1) eqn:Es;
    unfold present in Es; rewrite <- negb_andb, Es; simpl.
  - wp_steps. intros _. exists ca, k. split; [done|]. split; [done|]. exists fs1.
    split; [done|]. split; [done|]. unfold present. by rewrite Es.
  - wp_steps. unfold GenerateServerCert. eapply wp_mono; [apply generate_spec|].
    intros [[c sk]|e] fs2 [-> Hc]; [|done]. eapply wp_mono; [apply save_pair_spec; naive_solver|].
    intros r fs' [Hos Hps] ->. destruct Hc as (_ & Epk & [n Eb] & Hi & _).
    exists ca, k. split; [|split; [done|]].
    + destruct Hp as [P1 P2]. split; rewrite Hos; done || naive_solver.
    + exists fs1. split; [done|]. split; [done|]. unfold present. rewrite Es. exists c, sk.
      split_and!; try done; [by apply Hps..|by exists n].
Qed.
End Ensure.

(** ** Properties *)

(** What deleting an agent's certificate does to the disk. *)
Lemma DeleteAgentCert_spec s a fs :
  ValidateAgentID a = None →
  wp (DeleteAgentCert s a) fs (λ r fs',
    (r = Ok () → ∀ p, below (GetAgentCertDir s a) p = true → fs_files fs' !! p = None ∧ p ∉ fs_dirs fs') ∧
    ∀ p, below (GetAgentCertDir s a) p = false →
      fs_files fs' !! p = fs_files fs !! p ∧ (p ∈ fs_dirs fs' ↔ p ∈ fs_dirs fs)).
Proof.
  intros Ha. unfold DeleteAgentCert, fileExists. wp_steps. destruct (path_exists _ fs); wp_steps; [|done].
  apply wp_RemoveAll; [done|]. intros fs' Hf Hd. wp_steps. rewrite Clean_agent_dir in Hf, Hd by done. split.
  - intros _ p Hp. rewrite Hf, Hp. split; [done|]. intros [_ Hq]%Hd. congruence.
  - intros p Hp. rewrite Hf, Hp. split; [done|]. rewrite Hd. tauto.
Qed.

(** The files of an agent are in its own directory only. *)
Lemma below_agent_files s a b :
  ValidateAgentID a = None → ValidateAgentID b = None →
  below (GetAgentCertDir s a) (GetAgentCertPath s b) = bool_decide (a = b) ∧
  below (GetAgentCertDir s a) (GetAgentKeyPath s b) = bool_decide (a = b).
Proof. intros Ha Hb. by split; apply below_agent_dir. Qed.

Lemma no_files_no_cert s a fs :
  ValidateAgentID a = None → fs_files fs !! GetAgentCertPath s a = None →
  GetAgentCertPath s a ∉ fs_dirs fs → cert_on_disk s a fs = false.
Proof.
  intros Ha E1 E2. unfold cert_on_disk. rewrite Clean_cert by done.
  assert (path_exists (GetAgentCertPath s a) fs = false) as ->; [|done].
  unfold path_exists. rewrite E1, !(bool_decide_eq_false_2 _); [done|..|done|by intros [? ?]].
  assert (∃ t, GetAgentCertPath s a = (t +:+ "-cert.pem")%string) as [t ->].
  { eexists. unfold GetAgentCertPath. rewrite agent_path_eq, !string_app_assoc by done. done. }
  intros [E|E]; apply (f_equal String.length) in E; rewrite string_length_app in E; simpl in E; lia.
Qed.

(** Deleting one agent's certificate leaves another's existence as it was. *)
Lemma DeleteAgentCert_exists s a b fs :
  ValidateAgentID a = None → ValidateAgentID b = None →
  wp (DeleteAgentCert s a) fs (λ r fs',
    (a ≠ b → cert_on_disk s b fs' = cert_on_disk s b fs) ∧ (r = Ok () → cert_on_disk s a fs' = false)).
Proof.
  intros Ha Hb. eapply wp_mono; [by apply DeleteAgentCert_spec|]. intros r fs' [Hgone Hstay]. split.
  - intros Hne. destruct (below_agent_files s a b Ha Hb) as [B1 B2].
    rewrite !bool_decide_eq_false_2 in B1, B2 by done.
    destruct (Hstay _ B1) as [F1 D1], (Hstay _ B2) as [F2 D2].
    unfold cert_on_disk, path_exists. rewrite Clean_cert, Clean_key, F1, F2 by done.
    by rewrite (bool_decide_ext _ _ D1), (bool_decide_ext _ _ D2).
  - intros Er. destruct (below_agent_files s a a Ha Ha) as [B1 _]. rewrite bool_decide_eq_true_2 in B1 by done.
    destruct (Hgone Er _ B1) as [? ?]. by apply no_files_no_cert.
Qed.

(** C36: agent ids and paths.  The files of a valid agent id lie in a directory of
    its own, directly inside the configured one whatever that is ([..], relative
    or absolute), so no id escapes it; the two files differ; and deleting an
    agent's certificate, when it succeeds, leaves neither the certificate nor
    the key on disk, nor anything else in the agent's directory, and whatever
    the outcome every other agent's files are as they were. *)
Theorem agent_files_confined s a b fs :
  ValidateAgentID a = None → ValidateAgentID b = None → a ≠ b →
  GetAgentCertDir s a = (join_base (AgentCertDir s) +:+ a)%string ∧
  GetAgentCertPath s a = (GetAgentCertDir s a +:+ "/" +:+ a +:+ "-cert.pem")%string ∧
  GetAgentKeyPath s a = (GetAgentCertDir s a +:+ "/" +:+ a +:+ "-key.pem")%string ∧
  GetAgentCertPath s a ≠ GetAgentKeyPath s a ∧
  wp (DeleteAgentCert s a) fs (λ r fs',
    (r = Ok () →
       fs_files fs' !! GetAgentCertPath s a = None ∧ fs_files fs' !! GetAgentKeyPath s a = None ∧
       (∀ p, below (GetAgentCertDir s a) p = true → fs_files fs' !! p = None ∧ p ∉ fs_dirs fs') ∧
       AgentCertExists s a fs' = Ret false fs') ∧
    fs_files fs' !! GetAgentCertPath s b = fs_files fs !! GetAgentCertPath s b ∧
    fs_files fs' !! GetAgentKeyPath s b = fs_files fs !! GetAgentKeyPath s b).
Proof.
  intros Ha Hb Hne. split_and!.
  - by apply GetAgentCertDir_eq.
  - by apply agent_path_eq.
  - by apply agent_path_eq.
  - by apply suffix_ne.
  - destruct (below_agent_files s a a Ha Ha) as [A1 A2]. rewrite !bool_decide_eq_true_2 in A1, A2 by done.
    destruct (below_agent_files s a b Ha Hb) as [B1 B2]. rewrite !bool_decide_eq_false_2 in B1, B2 by done.
    eapply wp_mono; [by apply DeleteAgentCert_spec|]. intros r fs' [Hgone Hstay]. split_and!.
    + intros Er. specialize (Hgone Er). split_and!; [by apply Hgone..|].
      rewrite AgentCertExists_run, no_files_no_cert; [done..| |]; by apply Hgone.
    + by apply Hstay.
    + by apply Hstay.
Qed.

(** [GenerateAgentCert], on success, returns a client certificate for the
    agent's name and the fresh key, valid for a year and issued by the CA on
    disk, and has stored exactly that pair; on every outcome the files of others
    are untouched. *)
Theorem GenerateAgentCert_correct s rnd now id fs :
  ValidateAgentID id = None →
  wp (GenerateAgentCert s rnd now id) fs (λ r fs',
    (∀ p, p ≠ GetAgentCertPath s id → p ≠ GetAgentKeyPath s id → fs_files fs' !! p = fs_files fs !! p) ∧
    ∀ c k, r = Ok (c, k) → has_pair s id c k fs' ∧ agent_cert s id now c k fs).
Proof.
  intros Hid. eapply wp_mono; [by apply GenerateAgentCert_spec|]. intros r fs' ([_ Ho] & Hok & _). done.
Qed.

(** A sequence of provisionings, each of any agent. *)
Definition request : Type := string * Random * Z.

Fixpoint provision_all (s : Service) (reqs : list request) :
    M CertFS (list (string * result (option (Certificate * nat)))) :=
  match reqs with
  | [] => mret []
  | (id, rnd, now) :: reqs' =>
      r ← GenerateAgentCertIfNotExists s rnd now id;
      rs ← provision_all s reqs';
      mret ((id, r) :: rs)
  end.

(** The certificates issued to an agent. *)
Definition issued (id : string) (rs : list (string * result (option (Certificate * nat)))) :
    list (Certificate * nat) :=
  omap (λ '(id', r), if decide (id' = id) then match r with Ok (Some ck) => Some ck | _ => None end else None) rs.

Lemma provision_all_spec s reqs fs :
  Forall (λ '(id, _, _), ValidateAgentID id = None) reqs →
  wp (provision_all s reqs) fs (λ rs fs', grows fs fs' ∧
    ∀ id, ValidateAgentID id = None →
      length (issued id rs) ≤ (if cert_on_disk s id fs then 0 else 1)).
Proof.
  revert fs. induction reqs as [|[[a rnd] now] reqs IH]; intros fs Hv; simpl.
  { wp_steps. split; [done|]. intros id _. simpl. lia. }
  apply Forall_cons in Hv as [Ha Hv]. wp_steps.
  eapply wp_mono; [by apply GenerateAgentCertIfNotExists_spec|]. intros r fs1 (Hg & _ & Hr). wp_steps.
  eapply wp_mono; [by apply IH|]. intros rs fs' [Hg' Hrs]. wp_steps. split.
  { split; [etrans; [apply Hg|apply Hg']|]. intros p Hp. apply Hg', Hg, Hp. }
  intros id Hid. specialize (Hrs id Hid).
  assert (cert_on_disk s id fs = true → cert_on_disk s id fs1 = true) as Hmono.
  { unfold cert_on_disk. rewrite !andb_true_iff. intros [E1 E2].
    by rewrite !(grows_exists _ _ _ Hg). }
  rewrite !AgentCertExists_run in Hr. simpl. destruct (decide (a = id)) as [->|Hne].
  - destruct r as [[[c k]|]|e]; simpl.
    + destruct Hr as (H0 & H1 & _). injection H0 as ->. injection H1 as H1. rewrite H1 in Hrs. simpl. lia.
    + destruct Hr as [H0 ->]. done.
    + injection Hr as E. rewrite E in *. by destruct (cert_on_disk s id fs1); lia.
  - destruct (cert_on_disk s id fs); [by rewrite Hmono in Hrs|].
    by destruct (cert_on_disk s id fs1); lia.
Qed.

(** An agent is issued at most one certificate: in any sequence of
    [GenerateAgentCertIfNotExists] calls (they hold [agentCertMu] throughout, so
    concurrent ones are such a sequence) at most one call per agent returns a
    certificate, and none if the agent had one before. *)
Theorem issued_at_most_once s reqs fs id :
  Forall (λ '(id, _, _), ValidateAgentID id = None) reqs → ValidateAgentID id = None →
  wp (provision_all s reqs) fs (λ rs _,
    length (issued id rs) ≤ 1 ∧ (AgentCertExists s id fs = Ret true fs → issued id rs = [])).
Proof.
  intros Hv Hid. eapply wp_mono; [by apply provision_all_spec|]. intros rs fs' [_ Hrs].
  specialize (Hrs id Hid). rewrite AgentCertExists_run.
  destruct (cert_on_disk s id fs); (split; [lia|]); [|done]. intros _. apply nil_length_inv. lia.
Qed.

(** The server certificate made by this start: its key on disk beside it, the
    configured names and addresses, a year from [now], issued by [ca]. *)
Definition server_cert_made (s : Service) (now : Z) (ca : Certificate) (fs : CertFS) : Prop :=
  ∃ c sk n, pair_at (ServerCertPath s) (ServerKeyPath s) c sk fs ∧ PublicKey c = sk ∧ issued_by ca c ∧
    body c = server_template n now (DomainNames s) (IPAddresses_ s).

(** C37: [ensureCertificates], when it succeeds, leaves a CA certificate with its
    key.  A CA it had to make is a self-signed CA with the fresh key, good for ten
    years; a CA that was there is kept as it was.  A server certificate or key
    that was missing, whether the CA was there or is made in the same call, is
    replaced by a pair that match, with the configured names and addresses, for
    server authentication, good for a year and issued by that CA; the only exception is
    a CA made in a directory that takes the place of the missing file.  A
    server pair that was there is kept; and when everything is there nothing
    changes. *)
Theorem ensureCertificates_correct s rnd1 rnd2 now fs :
  distinct_paths s →
  wp (ensureCertificates s rnd1 rnd2 now) fs (λ r fs', r = Ok () →
    ∃ ca k, pair_at (CaCertPath s) (CaKeyPath s) ca k fs' ∧
      (present (CaCertPath s) (CaKeyPath s) fs = false →
         issued_by ca ca ∧ PublicKey ca = k ∧ rnd_key rnd1 = Ok k ∧ ∃ n, body ca = ca_template n now) ∧
      (present (CaCertPath s) (CaKeyPath s) fs = true → pair_at (CaCertPath s) (CaKeyPath s) ca k fs) ∧
      (present (ServerCertPath s) (ServerKeyPath s) fs = false →
         present (CaCertPath s) (CaKeyPath s) fs = true ∨
           (Clean (ServerCertPath s) ∉ fs_dirs fs' ∧ Clean (ServerKeyPath s) ∉ fs_dirs fs') →
         server_cert_made s now ca fs') ∧
      (∀ sc sk, pair_at (ServerCertPath s) (ServerKeyPath s) sc sk fs →
         pair_at (ServerCertPath s) (ServerKeyPath s) sc sk fs') ∧
      (present (CaCertPath s) (CaKeyPath s) fs = true →
         present (ServerCertPath s) (ServerKeyPath s) fs = true → fs' = fs)).
Proof.
  intros Hd. eapply wp_mono; [by apply ensureCertificates_spec|]. intros r fs' Hr Er.
  destruct (Hr Er) as (ca & k & Hp & Hca & fs1 & Ho & Hsame & Hsrv). exists ca, k. split; [done|].
  unfold distinct_paths in Hd. rewrite !NoDup_cons, !not_elem_of_cons in Hd. destruct_and?.
  assert (fs_files fs1 !! Clean (ServerCertPath s) = fs_files fs !! Clean (ServerCertPath s)) as Ec
    by (apply Ho; naive_solver).
  assert (fs_files fs1 !! Clean (ServerKeyPath s) = fs_files fs !! Clean (ServerKeyPath s)) as Ek
    by (apply Ho; naive_solver).
  split_and!.
  - intros E. rewrite E in Hca. by destruct_and?.
  - intros E. by rewrite E in Hca.
  - intros E Hcase. destruct (present (ServerCertPath s) (ServerKeyPath s) fs1) eqn:E1.
    + subst fs'. destruct Hcase as [Hcase|[Hc Hk]]; [rewrite (Hsame Hcase) in E1; congruence|].
      unfold present in E, E1. apply andb_true_iff in E1 as [E1 E2].
      by rewrite (path_exists_file _ fs1 fs), (path_exists_file _ fs1 fs) in E.
    + destruct Hsrv as (c & sk & ? & ? & ? & n & Eb). by exists c, sk, n.
  - intros sc sk [Hc Hk].
    assert (present (ServerCertPath s) (ServerKeyPath s) fs1 = true) as Es.
    { unfold present, path_exists. by rewrite Ec, Ek, Hc, Hk, !(bool_decide_eq_true_2 (is_Some _)) by by eexists. }
    rewrite Es in Hsrv. subst fs'. split; congruence.
  - intros E1 E2. specialize (Hsame E1) as ->. by rewrite E2 in Hsrv.
Qed.

(** When the CA's key file is missing, [ensureCertificates] makes a NEW CA but
    keeps an existing server certificate, which the old CA signed: it succeeds,
    and the server certificate does not verify against the CA that is handed to
    agents. *)
Theorem lost_ca_key_breaks_server_cert s rnd1 rnd2 now fs c sk old k :
  distinct_paths s →
  fs_files fs !! Clean (CaKeyPath s) = None → Clean (CaKeyPath s) ∉ fs_dirs fs →
  Clean (CaKeyPath s) ≠ "." → Clean (CaKeyPath s) ≠ "/" →
  pair_at (ServerCertPath s) (ServerKeyPath s) c sk fs → issued_by old c →
  rnd_key rnd1 = Ok k → k ≠ PublicKey old →
  wp (ensureCertificates s rnd1 rnd2 now) fs (λ r fs', r = Ok () →
    ∃ ca, fs_files fs' !! Clean (CaCertPath s) = Some (CertFile ca) ∧
      fs_files fs' !! Clean (ServerCertPath s) = Some (CertFile c) ∧ ¬ issued_by ca c).
Proof.
  intros Hd Hnone Hdir H1 H2 [Hc Hk] Hi Hrk Hne.
  eapply wp_mono; [by apply ensureCertificates_spec|]. intros r fs' Hr Er.
  destruct (Hr Er) as (ca & k' & Hp & Hca & fs1 & Ho & _ & Hsrv).
  assert (present (CaCertPath s) (CaKeyPath s) fs = false) as Ep.
  { unfold present. assert (path_exists (Clean (CaKeyPath s)) fs = false) as ->; [|apply andb_false_r].
    unfold path_exists. rewrite Hnone.
    rewrite (bool_decide_eq_false_2 (is_Some None)) by by intros [? ?].
    rewrite (bool_decide_eq_false_2 (_ ∈ _)) by done.
    by rewrite (bool_decide_eq_false_2 (_ ∨ _)) by by intros [?|?]. }
  rewrite Ep in Hca. destruct Hca as (_ & _ & Epk & Ek & _). rewrite Hrk in Ek. injection Ek as <-.
  unfold distinct_paths in Hd. rewrite !NoDup_cons, !not_elem_of_cons in Hd. destruct_and?.
  assert (fs_files fs1 !! Clean (ServerCertPath s) = Some (CertFile c)) as Hc1 by (rewrite Ho; done || naive_solver).
  assert (fs_files fs1 !! Clean (ServerKeyPath s) = Some (KeyFile true sk)) as Hk1 by (rewrite Ho; done || naive_solver).
  assert (present (ServerCertPath s) (ServerKeyPath s) fs1 = true) as Es.
  { unfold present, path_exists. by rewrite Hc1, Hk1, !(bool_decide_eq_true_2 (is_Some _)) by by eexists. }
  rewrite Es in Hsrv. subst fs'. exists ca. split; [apply Hp|]. split; [done|].
  intros [Hs _]. destruct Hi as [Hs' _]. congruence.
Qed.

(** ** Witnesses *)
Module Certs.
Definition s : Service :=
  mkService "certs/ca-cert.pem" "certs/ca-key.pem" "certs/server-cert.pem" "certs/server-key.pem"
    "./certs/../agents" ["proxy.example"] [].
Definition rnd (k : nat) : Random := mkRandom (Ok k) (Ok 7%Z).
Definition ca : Certificate :=
  mkCertificate (ca_template 1 0) 1 (["Silo Proxy CA"], "Silo Proxy Root CA") 1.
Definition server_cert : Certificate :=
  mkCertificate (server_template 2 0 ["proxy.example"] []) 2 (["Silo Proxy CA"], "Silo Proxy Root CA") 1.
Definition fs_empty : CertFS := mkFS ∅ ∅ no_faults.
Definition fs_ca : CertFS :=
  mkFS {["certs/ca-cert.pem" := CertFile ca; "certs/ca-key.pem" := KeyFile true 1]} {["certs"]} no_faults.
Definition fs_lost : CertFS :=
  mkFS {["certs/ca-cert.pem" := CertFile ca; "certs/server-cert.pem" := CertFile server_cert;
         "certs/server-key.pem" := KeyFile true 2]} {["certs"]} no_faults.
Definition after {A} (m : M CertFS A) (fs : CertFS) : CertFS :=
  match m fs with Ret _ fs' | Panic _ fs' | Block fs' => fs' end.

Lemma paths_distinct : distinct_paths s.
Proof. unfold distinct_paths. apply (bool_decide_unpack _). vm_compute. exact I. Qed.

Lemma ensured : ensureCertificates s (rnd 8) (rnd 9) 5 fs_empty
  = Ret (Ok ()) (after (ensureCertificates s (rnd 8) (rnd 9) 5) fs_empty).
Proof. vm_compute. reflexivity. Qed.
Lemma recovered : ensureCertificates s (rnd 8) (rnd 9) 5 fs_lost
  = Ret (Ok ()) (after (ensureCertificates s (rnd 8) (rnd 9) 5) fs_lost).
Proof. vm_compute. reflexivity. Qed.
End Certs.

Lemma agent_files_confined_witness :
  GetAgentCertPath Certs.s "a" = "agents/a/a-cert.pem" ∧
  wp (DeleteAgentCert Certs.s "a") Certs.fs_ca (λ r fs',
    r = Ok () → fs_files fs' !! "agents/a/a-cert.pem" = None ∧ fs_files fs' !! "agents/a/a-key.pem" = None).
Proof.
  destruct (agent_files_confined Certs.s "a" "b" Certs.fs_ca) as (_ & H1 & _ & _ & H2).
  - reflexivity.
  - reflexivity.
  - discriminate.
  - split; [vm_compute; reflexivity|]. eapply wp_mono; [exact H2|]. intros r fs' [H _] E.
    destruct (H E) as (H3 & H4 & _). split; [exact H3|exact H4].
Defined.

Lemma GenerateAgentCert_correct_witness :
  wp (GenerateAgentCert Certs.s (Certs.rnd 3) 5 "a") Certs.fs_ca (λ r fs',
    ∀ c k, r = Ok (c, k) → has_pair Certs.s "a" c k fs').
Proof.
  eapply wp_mono; [apply (GenerateAgentCert_correct Certs.s (Certs.rnd 3) 5 "a" Certs.fs_ca); reflexivity|].
  intros r fs' [_ H] c k E. apply (H c k E).
Defined.

Lemma issued_at_most_once_witness :
  wp (provision_all Certs.s [("a", Certs.rnd 3, 5%Z); ("a", Certs.rnd 4, 6%Z)]) Certs.fs_ca (λ rs _,
    length (issued "a" rs) ≤ 1).
Proof.
  eapply wp_mono.
  - apply (issued_at_most_once Certs.s [("a", Certs.rnd 3, 5%Z); ("a", Certs.rnd 4, 6%Z)] Certs.fs_ca "a").
    + repeat constructor.
    + reflexivity.
  - intros rs fs' [H _]. exact H.
Defined.

(** A first start: the CA and the server certificate are made in the same call. *)
Lemma ensureCertificates_correct_witness :
  ∃ ca, server_cert_made Certs.s 5 ca
    (Certs.after (ensureCertificates Certs.s (Certs.rnd 8) (Certs.rnd 9) 5) Certs.fs_empty).
Proof.
  destruct (wp_Ret _ _ _ _ _
    (ensureCertificates_correct Certs.s (Certs.rnd 8) (Certs.rnd 9) 5 Certs.fs_empty Certs.paths_distinct)
    Certs.ensured eq_refl) as (ca & k & _ & _ & _ & H & _).
  exists ca. apply H.
  - vm_compute. reflexivity.
  - right. split; apply (bool_decide_unpack _); vm_compute; exact I.
Defined.

Lemma lost_ca_key_breaks_server_cert_witness :
  ∃ ca, fs_files (Certs.after (ensureCertificates Certs.s (Certs.rnd 8) (Certs.rnd 9) 5) Certs.fs_lost)
      !! "certs/ca-cert.pem" = Some (CertFile ca) ∧ ¬ issued_by ca Certs.server_cert.
Proof.
  assert (wp (ensureCertificates Certs.s (Certs.rnd 8) (Certs.rnd 9) 5) Certs.fs_lost (λ r fs', r = Ok () →
    ∃ ca, fs_files fs' !! Clean "certs/ca-cert.pem" = Some (CertFile ca) ∧
      fs_files fs' !! Clean "certs/server-cert.pem" = Some (CertFile Certs.server_cert) ∧
      ¬ issued_by ca Certs.server_cert)) as H.
  { apply (lost_ca_key_breaks_server_cert Certs.s (Certs.rnd 8) (Certs.rnd 9) 5 Certs.fs_lost
      Certs.server_cert 2 Certs.ca 8).
    - exact Certs.paths_distinct.
    - vm_compute. reflexivity.
    - apply (bool_decide_unpack _). vm_compute. exact I.
    - vm_compute. discriminate.
    - vm_compute. discriminate.
    - split; vm_compute; reflexivity.
    - split; reflexivity.
    - reflexivity.
    - discriminate. }
  destruct (wp_Ret _ _ _ _ _ H Certs.recovered eq_refl) as (ca & H1 & _ & H2).
  exists ca. split; [exact H1|exact H2].
Defined.
