(* ===== verification/CertHandler.v ===== *)
(** * The certificate endpoints

    Models [src/internal/api/http/handler/cert.go] on the certificate service.
    The route parameter is an argument; a zip archive is the map from entry names
    to contents that the code builds (writing it to memory does not fail, and PEM
    encoding a parsed certificate does not either). *)
From stdpp Require Import base strings list gmap fin_maps.
From Stdlib Require Import ZArith Lia Ascii.
From S2P Require Import Prelude GoStd Http FileSystem CertService.

(** ** The code *)

Inductive cert_body : Type :=
  | CertError (msg : string)
  | CertZip (filename : string) (files : gmap string pem_file)
  | CertDeleted (paths : list string).

Record CertReply : Type := mkCertReply { cr_Status : Z; cr_Body : cert_body }.

Definition StatusCreated : Z := 201.
Definition StatusBadRequest : Z := 400.
Definition StatusConflict : Z := 409.

Definition cert_error (status : Z) (msg : string) : CertReply := mkCertReply status (CertError msg).

(** [createCertZipFromBytes]: the map literal, its keys evaluated in order. *)
Definition createCertZipFromBytes (agentID : string) (certPEM keyPEM caCertBytes : pem_file) :
    gmap string pem_file :=
  <["ca-cert.pem" := caCertBytes]>
    (<[(agentID +:+ "-key.pem")%string := keyPEM]> {[(agentID +:+ "-cert.pem")%string := certPEM]}).

Definition createCertZip (agentID : string) (agentCert : Certificate) (agentKey : nat)
    (caCertBytes : pem_file) : gmap string pem_file :=
  createCertZipFromBytes agentID (CertFile agentCert) (KeyFile true agentKey) caCertBytes.

(** The checks every handler starts with. *)
Definition with_agent (svc : option Service) (param : string) (k : Service → M CertFS CertReply) :
    M CertFS CertReply :=
  match svc with
  | None => mret (cert_error StatusBadRequest "TLS is not enabled on this server")
  | Some s =>
      match ValidateAgentID param with
      | Some e => mret (cert_error StatusBadRequest (Error e))
      | None => k s
      end
  end.

Definition create_finish (s : Service) (agentID : string) (c : Certificate) (key : nat) : M CertFS CertReply :=
  ca ← GetCACert s;
  mret match ca with
       | Err _ => cert_error 500 "Failed to read CA certificate"
       | Ok b => mkCertReply StatusCreated
                   (CertZip (agentID +:+ "-certs.zip")%string (createCertZip agentID c key b))
       end.

Definition CreateAgentCertificate (svc : option Service) (rnd : Random) (now : Z) (agentID : string) :
    M CertFS CertReply :=
  with_agent svc agentID (λ s,
    exists_ ← AgentCertExists s agentID;
    if (exists_ : bool) then mret (cert_error StatusConflict "Certificate already exists for this agent")
    else
      made ← GenerateAgentCert s rnd now agentID;
      match made with
      | Err _ => mret (cert_error 500 "Failed to generate agent certificate")
      | Ok (c, key) => create_finish s agentID c key
      end).

Definition GetAgentCertificate (svc : option Service) (agentID : string) : M CertFS CertReply :=
  with_agent svc agentID (λ s,
    exists_ ← AgentCertExists s agentID;
    if (exists_ : bool) then
      read ← GetAgentCert s agentID;
      match read with
      | Err _ => mret (cert_error 500 "Failed to read agent certificate")
      | Ok (c, key) =>
          ca ← GetCACert s;
          mret match ca with
               | Err _ => cert_error 500 "Failed to read CA certificate"
               | Ok b => mkCertReply 200 (CertZip (agentID +:+ "-certs.zip")%string
                                            (createCertZipFromBytes agentID c key b))
               end
      end
    else mret (cert_error 404 "Certificate not found for this agent")).

Definition DeleteAgentCertificate (svc : option Service) (agentID : string) : M CertFS CertReply :=
  with_agent svc agentID (λ s,
    exists_ ← AgentCertExists s agentID;
    if (exists_ : bool) then
      deleted ← DeleteAgentCert s agentID;
      match deleted with
      | Err _ => mret (cert_error 500 "Failed to delete agent certificate")
      | Ok _ => mret (mkCertReply 200 (CertDeleted [GetAgentCertDir s agentID]))
      end
    else mret (cert_error 404 "Certificate not found for this agent")).

(** [CreateAgentCertificate] takes no lock: two requests for one agent that have
    both passed the existence check, interleaved so that the second writes both
    its files between the two writes of the first. *)
Definition interleaved_creation (s : Service) (rndA rndB : Random) (now : Z) (agentID : string) :
    M CertFS (result ((Certificate * nat) * (Certificate * nat))) :=
  try (GenerateAgentCert_make s rndA now agentID) id (λ a,
  try (GenerateAgentCert_make s rndB now agentID) id (λ b,
  check (ensureDirectory (GetAgentCertPath s agentID)) id
  (check (writeCertToFile a.1 (GetAgentCertPath s agentID)) id
  (try (GenerateAgentCert_write s agentID b.1 b.2) id (λ _,
  check (writeKeyToFile a.2 (GetAgentKeyPath s agentID)) id
  (mret (Ok (a, b)))))))).

(** ** Facts *)

Lemma wp_GetCACert s fs (Q : result pem_file → CertFS → Prop) :
  (∀ r, (∀ c, r = Ok c → fs_files fs !! Clean (CaCertPath s) = Some c) → Q r fs) → wp (GetCACert s) fs Q.
Proof.
  intros HQ. unfold GetCACert. wp_steps. apply wp_ReadFile. intros [c|e] Hc.
  - wp_steps. by apply HQ.
  - by apply HQ.
Qed.

Lemma zip_lookup id c k ca :
  id ≠ "ca" →
  createCertZipFromBytes id c k ca !! (id +:+ "-cert.pem")%string = Some c ∧
  createCertZipFromBytes id c k ca !! (id +:+ "-key.pem")%string = Some k ∧
  createCertZipFromBytes id c k ca !! "ca-cert.pem" = Some ca.
Proof.
  intros Hid. unfold createCertZipFromBytes.
  assert ((id +:+ "-cert.pem")%string ≠ "ca-cert.pem") as H1.
  { intros E. apply Hid. change "ca-cert.pem" with ("ca" +:+ "-cert.pem") in E. by apply string_app_inj_l in E. }
  assert ((id +:+ "-key.pem")%string ≠ "ca-cert.pem") as H2.
  { intros E. apply (f_equal String.length) in E as El. rewrite string_length_app in El. simpl in El.
    destruct id as [|x1 [|x2 [|x3 [|]]]]; simpl in El; try lia. rewrite !string_app_cons in E. by injection E. }
  assert ((id +:+ "-key.pem")%string ≠ (id +:+ "-cert.pem")%string) as H3 by by intros E%(inj _).
  split_and!.
  - by rewrite !lookup_insert_ne, lookup_singleton_eq.
  - by rewrite lookup_insert_ne, lookup_insert_eq.
  - by rewrite lookup_insert_eq.
Qed.

(** ** Properties *)

(** A created certificate can be fetched: when [CreateAgentCertificate]
    answers 201, the archive holds the agent's new certificate and key and the
    CA certificate (for an agent not called [ca]), the next fetch answers 200 with
    the same archive unless a file cannot be read, and another creation answers
    409 and changes nothing. *)
Theorem create_then_get s rnd now id fs :
  ValidateAgentID id = None → id ≠ "ca" →
  Clean (CaCertPath s) ≠ GetAgentCertPath s id → Clean (CaCertPath s) ≠ GetAgentKeyPath s id →
  wp (CreateAgentCertificate (Some s) rnd now id) fs (λ r fs', cr_Status r = StatusCreated →
    ∃ name files c k, cr_Body r = CertZip name files ∧ agent_cert s id now c k fs ∧
      files !! (id +:+ "-cert.pem")%string = Some (CertFile c) ∧
      files !! (id +:+ "-key.pem")%string = Some (KeyFile true k) ∧
      files !! "ca-cert.pem" = fs_files fs !! Clean (CaCertPath s) ∧
      wp (GetAgentCertificate (Some s) id) fs' (λ r' _, cr_Status r' = 500%Z ∨
        r' = mkCertReply 200 (CertZip name files)) ∧
      ∀ rnd' now', CreateAgentCertificate (Some s) rnd' now' id fs' =
        Ret (cert_error StatusConflict "Certificate already exists for this agent") fs').
Proof.
  intros Hid Hca N1 N2. unfold CreateAgentCertificate at 1, with_agent. rewrite Hid. wp_steps.
  unfold wp at 1. rewrite AgentCertExists_run. destruct (cert_on_disk s id fs) eqn:Ex; [done|].
  wp_steps. eapply wp_mono; [by apply GenerateAgentCert_spec|].
  intros [[c k]|e] fs' ((_ & Ho) & Hok & _); [|by wp_steps].
  destruct (Hok _ _ eq_refl) as [Hpair Hcert]. pose proof Hpair as [Hpc Hpk].
  unfold create_finish. wp_steps. apply wp_GetCACert. intros [b|e] Hb; wp_steps; [|done]. intros _.
  specialize (Hb _ eq_refl). destruct (zip_lookup id (CertFile c) (KeyFile true k) b Hca) as (Z1 & Z2 & Z3).
  assert (cert_on_disk s id fs' = true) as Ex'.
  { pose proof (has_pair_exists s id c k fs' Hid Hpair) as E. rewrite AgentCertExists_run in E. by injection E. }
  eexists _, _, c, k. split; [done|]. split; [done|]. split; [exact Z1|]. split; [exact Z2|].
  split; [|split].
  - unfold createCertZip. rewrite Z3. by rewrite <- Ho, Hb.
  - unfold GetAgentCertificate, with_agent. rewrite Hid. wp_steps. unfold wp at 1.
    rewrite AgentCertExists_run, Ex'. wp_steps. unfold GetAgentCert. wp_steps. apply wp_ReadFile.
    intros [rc|e] Hrc; wp_steps; [|by left]. specialize (Hrc _ eq_refl).
    rewrite Clean_cert, Hpc in Hrc by done. injection Hrc as <-.
    apply wp_ReadFile. intros [rk|e] Hrk; wp_steps; [|by left]. specialize (Hrk _ eq_refl).
    rewrite Clean_key, Hpk in Hrk by done. injection Hrk as <-.
    apply wp_GetCACert. intros [b'|e] Hb'; wp_steps; [|by left]. right.
    specialize (Hb' _ eq_refl). rewrite Hb in Hb'. by injection Hb' as <-.
  - intros rnd' now'. unfold CreateAgentCertificate, with_agent, mbind, M_bind. rewrite Hid.
    by rewrite AgentCertExists_run, Ex'.
Qed.

(** The archive of an agent called [ca] (a valid id) does not contain the
    agent's certificate: the names collide in the map and the CA certificate
    wins, so the archive has two entries instead of three. *)
Theorem zip_of_agent_ca c k ca :
  ValidateAgentID "ca" = None ∧
  createCertZip "ca" c k ca !! "ca-cert.pem" = Some ca ∧
  size (createCertZip "ca" c k ca) = 2 ∧
  (ca ≠ CertFile c → ∀ name, createCertZip "ca" c k ca !! name ≠ Some (CertFile c)).
Proof.
  split_and!; try done. intros Hne name. unfold createCertZip, createCertZipFromBytes.
  rewrite lookup_insert_Some, lookup_insert_Some. intros [[_ E]|[Hn [[_ E]|[_ E]]]]; [done..|].
  by apply lookup_singleton_Some in E as [<- _].
Qed.

(** Two unlocked creations can leave a certificate and a key that do not
    belong together: in the interleaving above, when all writes succeed, the
    certificate on disk is the second request's and the key the first one's. *)
Theorem concurrent_creation_mixes_pairs s rndA rndB now id fs ka kb :
  ValidateAgentID id = None → rnd_key rndA = Ok ka → rnd_key rndB = Ok kb → ka ≠ kb →
  wp (interleaved_creation s rndA rndB now id) fs (λ r fs', ∀ a b, r = Ok (a, b) →
    ∃ c k, has_pair s id c k fs' ∧ c = b.1 ∧ k = a.2 ∧ PublicKey c ≠ k).
Proof.
  intros Hid HA HB Hne. unfold interleaved_creation. wp_steps.
  eapply wp_mono; [apply GenerateAgentCert_make_spec|]. intros [[ca a2]|e] fs1 [-> Ha]; [|done].
  destruct (Ha _ _ eq_refl) as [Ka _]. wp_steps.
  eapply wp_mono; [apply GenerateAgentCert_make_spec|]. intros [[cb b2]|e] fs1 [-> Hb]; [|done].
  destruct (Hb _ _ eq_refl) as [Kb (Pb & _)]. wp_steps.
  apply wp_ensureDirectory; [done|]. intros fs1 _ _. wp_steps.
  apply wp_writeCert; [done|]. wp_steps. eapply wp_mono; [by apply GenerateAgentCert_write_spec|].
  intros [ck|e] fs2 (_ & Hw & _); [|done]. destruct (Hw _ eq_refl) as [_ [Hc Hk]]. wp_steps.
  apply wp_writeKey; [done|]. wp_steps. intros a b [= <- <-]. exists cb, a2. simpl.
  rewrite Clean_key by done. split_and!; try done.
  - split; simpl; [|by rewrite lookup_insert_eq]. rewrite lookup_insert_ne; [done|].
    intros E. by apply (suffix_ne s id "-cert.pem" "-key.pem").
  - congruence.
Qed.

(** ** Witnesses *)
Lemma create_then_get_witness :
  wp (CreateAgentCertificate (Some Certs.s) (Certs.rnd 3) 5 "a") Certs.fs_ca (λ r fs',
    cr_Status r = StatusCreated → ∀ rnd' now', CreateAgentCertificate (Some Certs.s) rnd' now' "a" fs' =
      Ret (cert_error StatusConflict "Certificate already exists for this agent") fs').
Proof.
  eapply wp_mono; [apply (create_then_get Certs.s (Certs.rnd 3) 5 "a" Certs.fs_ca)|].
  - reflexivity.
  - discriminate.
  - vm_compute. discriminate.
  - vm_compute. discriminate.
  - intros r fs' H Hr. destruct (H Hr) as (? & ? & ? & ? & _ & _ & _ & _ & _ & _ & H'). exact H'.
Defined.

Lemma concurrent_creation_mixes_pairs_witness :
  match interleaved_creation Certs.s (Certs.rnd 3) (Certs.rnd 4) 5 "a" Certs.fs_ca with
  | Ret (Ok (a, b)) fs' => ∃ c k, has_pair Certs.s "a" c k fs' ∧ PublicKey c ≠ k
  | _ => False
  end.
Proof.
  pose proof (concurrent_creation_mixes_pairs Certs.s (Certs.rnd 3) (Certs.rnd 4) 5 "a" Certs.fs_ca 3 4
    eq_refl eq_refl eq_refl (λ E, match E with end)) as H.
  unfold wp in H. destruct (interleaved_creation _ _ _ _ _ _) as [[[a b]|e] fs'| |] eqn:E.
  - destruct (H a b eq_refl) as (c & k & Hp & _ & _ & Hne). exists c, k. split; [exact Hp|exact Hne].
  - vm_compute in E. discriminate.
  - exact H.
  - exact H.
Defined.
