(* ===== verification/ProvisionHandler.v ===== *)
(** * The provisioning endpoints

    Models [src/internal/api/http/handler/provision.go]: an administrator makes a
    one-time key for an agent, and whoever presents the key gets the agent's
    certificate.  The state is the key store and the file system; the result of
    binding the request body and the route parameter are arguments. *)
From stdpp Require Import base strings list gmap fin_maps.
From Stdlib Require Import ZArith Lia Ascii.
From S2P Require Import Prelude GoStd KeyStore FileSystem CertService.

(** ** The code *)

Record Provisioning : Type := mkProvisioning {
  keyStore : KeyStore;
  disk : CertFS;
}.

Definition set_keyStore (ks : KeyStore) (p : Provisioning) : Provisioning := mkProvisioning ks (disk p).
Definition set_disk (fs : CertFS) (p : Provisioning) : Provisioning := mkProvisioning (keyStore p) fs.
Definition in_keys {A} : M KeyStore A → M Provisioning A := zoom keyStore set_keyStore.
Definition on_disk {A} : M CertFS A → M Provisioning A := zoom disk set_disk.

Record ProvisionResponse : Type := mkProvisionResponse {
  pr_AgentID : string;
  CertPEM : pem_file;
  KeyPEM : pem_file;
  CACertPEM : pem_file;
}.

Record ProvisionKeyInfo : Type := mkKeyInfo {
  ki_AgentID : string;
  ki_CreatedAt : Z;
  ki_ExpiresAt : Z;
}.

Inductive provision_body : Type :=
  | PError (msg : string)
  | PKey (key agentID : string) (expiresAt : Z)
  | PKeys (keys : list ProvisionKeyInfo) (count : nat)
  | PMessage (msg : string)
  | PCertificate (r : ProvisionResponse).

Record ProvisionReply : Type := mkPReply { pr_Status : Z; pr_Body : provision_body }.

Definition p_error (status : Z) (msg : string) : ProvisionReply := mkPReply status (PError msg).

Definition CreateProvisionKey (req : result string) (random : result bytes) (now : Z) :
    M Provisioning ProvisionReply :=
  match req with
  | Err e => mret (p_error 400 (Error e))
  | Ok agentID =>
      match ValidateAgentID agentID with
      | Some e => mret (p_error 400 (Error e))
      | None =>
          made ← in_keys (Create agentID random now);
          match made with
          | Err _ => mret (p_error 500 "Failed to create provision key")
          | Ok pk => mret (mkPReply 201 (PKey (Key pk) (AgentID pk) (ExpiresAt pk)))
          end
      end
  end.

Definition ListProvisionKeys (order : list string) (now : Z) : M Provisioning ProvisionReply :=
  ks ← in_keys (List_ order now);
  let infos := (λ k, mkKeyInfo (AgentID k) (CreatedAt k) (ExpiresAt k)) <$> ks in
  mret (mkPReply 200 (PKeys infos (length infos))).

Definition RevokeProvisionKey (order : list string) (agentID : string) : M Provisioning ProvisionReply :=
  removed ← in_keys (Revoke order agentID);
  if (removed : bool) then mret (mkPReply 200 (PMessage "Provision keys revoked"))
  else mret (p_error 404 "No provision keys found for this agent").

Definition Provision (svc : option Service) (req : result string) (rnd : Random) (now : Z) :
    M Provisioning ProvisionReply :=
  match svc with
  | None => mret (p_error 400 "TLS is not enabled on this server")
  | Some s =>
      match req with
      | Err e => mret (p_error 400 (Error e))
      | Ok key =>
          valid ← in_keys (Validate key now);
          match valid with
          | Err e => mret (p_error 401 (Error e))
          | Ok pk =>
              let agentID := AgentID pk in
              made ← on_disk (GenerateAgentCertIfNotExists s rnd now agentID);
              match made with
              | Err _ => mret (p_error 500 "Failed to generate agent certificate")
              | Ok None => mret (p_error 409 "Certificate already exists for this agent")
              | Ok (Some (agentCert, agentKey)) =>
                  ca ← on_disk (GetCACert s);
                  match ca with
                  | Err _ => mret (p_error 500 "Failed to read CA certificate")
                  | Ok caCertBytes =>
                      _ ← in_keys (MarkUsed key);
                      mret (mkPReply 200 (PCertificate (mkProvisionResponse agentID
                        (CertFile agentCert) (KeyFile true agentKey) caCertBytes)))
                  end
              end
          end
      end
  end.

(** ** Properties *)

Lemma Validate_run key now ks :
  ∃ r, Validate key now ks = Ret r ks ∧
    (∀ pk, r = Ok pk → ks_keys ks !! key = Some pk ∧ Used pk = false).
Proof.
  unfold Validate, mbind, M_bind, get, mret, M_ret. eexists. split; [done|]. intros pk.
  destruct (ks_keys ks !! key) as [pk0|]; [|done]. destruct (Used pk0) eqn:Hu; [done|].
  destruct (now >? ExpiresAt pk0)%Z; [done|]. by intros [= <-].
Qed.

Lemma wp_in_Validate key now p (Q : result ProvisionKey → Provisioning → Prop) :
  (∀ r, Validate key now (keyStore p) = Ret r (keyStore p) →
     (∀ pk, r = Ok pk → ks_keys (keyStore p) !! key = Some pk ∧ Used pk = false) → Q r p) →
  wp (in_keys (Validate key now)) p Q.
Proof.
  intros HQ. destruct (Validate_run key now (keyStore p)) as (r & E & Hr). unfold in_keys, wp, zoom.
  rewrite E. destruct p. by apply HQ.
Qed.

(** The agent ids in the store are valid: [CreateProvisionKey] checked them. *)
Definition keys_valid (ks : KeyStore) : Prop :=
  ∀ key pk, ks_keys ks !! key = Some pk → ValidateAgentID (AgentID pk) = None.

(** What [Provision] does, on every way out. *)
Definition provisioned (s : Service) (key : string) (now : Z) (p p' : Provisioning) (r : ProvisionReply) : Prop :=
  match pr_Status r with
  | 200%Z => ∃ pk c k ca, Validate key now (keyStore p) = Ret (Ok pk) (keyStore p) ∧
      r = mkPReply 200 (PCertificate (mkProvisionResponse (AgentID pk) (CertFile c) (KeyFile true k) ca)) ∧
      cert_on_disk s (AgentID pk) (disk p) = false ∧
      agent_cert s (AgentID pk) now c k (disk p) ∧ has_pair s (AgentID pk) c k (disk p') ∧
      fs_files (disk p') !! Clean (CaCertPath s) = Some ca ∧ only_agent s (AgentID pk) (disk p) (disk p') ∧
      keyStore p' = set_keys (<[key := use pk]> (ks_keys (keyStore p))) (keyStore p)
  | 401%Z => p' = p ∧ ∃ e, Validate key now (keyStore p) = Ret (Err e) (keyStore p) ∧ r = p_error 401 (Error e)
  | 409%Z => p' = p ∧ ∃ pk, Validate key now (keyStore p) = Ret (Ok pk) (keyStore p) ∧
      cert_on_disk s (AgentID pk) (disk p) = true
  | _ => keyStore p' = keyStore p
  end.

Lemma Provision_spec s key rnd now p :
  keys_valid (keyStore p) →
  wp (Provision (Some s) (Ok key) rnd now) p (λ r p',
    provisioned s key now p p' r ∧ grows (disk p) (disk p') ∧
    (∀ e, Validate key now (keyStore p) = Ret (Err e) (keyStore p) → pr_Status r = 401%Z) ∧
    (∀ pk, Validate key now (keyStore p) = Ret (Ok pk) (keyStore p) →
       cert_on_disk s (AgentID pk) (disk p) = true → pr_Status r = 409%Z)).
Proof.
  intros Hv. unfold Provision. wp_step. apply wp_in_Validate. intros [pk|e] E Hk.
  2:{ wp_steps. unfold provisioned. simpl. split; [split; [done|]; by exists e|].
      split; [apply grows_refl|]. split; [done|]. intros pk. rewrite E. congruence. }
  destruct (Hk _ eq_refl) as [Hl Hu]. pose proof (Hv _ _ Hl) as Hid. unfold on_disk. wp_steps.
  eapply wp_mono; [by apply GenerateAgentCertIfNotExists_spec|].
  assert (∀ r : ProvisionReply, ∀ e, Validate key now (keyStore p) = Ret (Err e) (keyStore p) →
    pr_Status r = 401%Z) as Hno by by intros r e; rewrite E.
  intros [[[c k]|]|e] fs' (Hg & Ho & Hr); simpl; rewrite !AgentCertExists_run in Hr.
  - destruct Hr as (H0 & _ & Hp & Hc). injection H0 as H0. wp_steps. simpl. unfold GetCACert. wp_steps.
    apply wp_ReadFile. intros [ca|e] Hca; wp_steps.
    + unfold in_keys. wp_steps. unfold MarkUsed. wp_steps. simpl. rewrite Hl. wp_steps.
      split; [|split; [done|split; [apply Hno|]]].
      * unfold provisioned. simpl. exists pk, c, k, ca. by specialize (Hca _ eq_refl).
      * intros pk'. rewrite E. intros [= <-]. congruence.
    + split; [done|]. split; [done|]. split; [apply Hno|]. intros pk'. rewrite E. intros [= <-]. congruence.
  - destruct Hr as [H0 ->]. injection H0 as H0. wp_steps. destruct p as [ks fs]. simpl in *.
    split; [|split; [apply grows_refl|split; [|done]]]; [|by intros e; rewrite E].
    unfold provisioned. simpl. split; [done|]. by exists pk.
  - injection Hr as H0. wp_steps. split; [done|]. split; [done|]. split; [apply Hno|].
    intros pk'. rewrite E. intros [= <-]. congruence.
Qed.

(** Provisioning is single use.  A successful [Provision] hands out the
    certificate and key of the key's agent, as issued by the CA and stored on
    disk; after it the same key is refused as already used, at any time, and any
    other key of the same agent is refused with a conflict; in either case
    nothing changes. *)
Theorem provision_single_use s key rnd now p :
  keys_valid (keyStore p) →
  wp (Provision (Some s) (Ok key) rnd now) p (λ r p', pr_Status r = 200%Z →
    (∃ pk c k ca, Validate key now (keyStore p) = Ret (Ok pk) (keyStore p) ∧
       pr_Body r = PCertificate (mkProvisionResponse (AgentID pk) (CertFile c) (KeyFile true k) ca) ∧
       agent_cert s (AgentID pk) now c k (disk p) ∧ has_pair s (AgentID pk) c k (disk p') ∧
       ∀ key2 rnd2 now2 pk2, key2 ≠ key → ks_keys (keyStore p) !! key2 = Some pk2 →
         AgentID pk2 = AgentID pk → Used pk2 = false → (now2 ≤ ExpiresAt pk2)%Z →
         wp (Provision (Some s) (Ok key2) rnd2 now2) p' (λ r2 p2, pr_Status r2 = 409%Z ∧ p2 = p')) ∧
    ∀ rnd2 now2, Provision (Some s) (Ok key) rnd2 now2 p' = Ret (p_error 401 (Error ErrKeyAlreadyUsed)) p').
Proof.
  intros Hv. eapply wp_mono; [by apply Provision_spec|]. intros r p' (Hp & Hg & _) Hs.
  unfold provisioned in Hp. rewrite Hs in Hp.
  destruct Hp as (pk & c & k & ca & E & -> & _ & Hc & Hpair & _ & _ & Eks).
  assert (ks_keys (keyStore p) !! key = Some pk) as Hl.
  { destruct (Validate_run key now (keyStore p)) as (r & E' & Hr). rewrite E in E'. injection E' as <-.
    by destruct (Hr _ eq_refl). }
  split.
  - exists pk, c, k, ca. split; [done|]. split; [done|]. split; [done|]. split; [done|].
    intros key2 rnd2 now2 pk2 Hne Hl2 Ha2 Hu2 Hn2.
    assert (keys_valid (keyStore p')) as Hv'.
    { intros key' pk'. rewrite Eks. simpl. intros [[<- <-]|[_ Hk']]%lookup_insert_Some; [exact (Hv key pk Hl)|by eapply Hv]. }
    assert (Validate key2 now2 (keyStore p') = Ret (Ok pk2) (keyStore p')) as E2.
    { unfold Validate, mbind, M_bind, get, mret, M_ret. rewrite Eks. simpl.
      rewrite lookup_insert_ne, Hl2, Hu2 by done. destruct (Z.gtb_spec now2 (ExpiresAt pk2)); [lia|done]. }
    assert (cert_on_disk s (AgentID pk2) (disk p') = true) as Hd.
    { rewrite Ha2. pose proof (has_pair_exists s _ _ _ _ (Hv _ _ Hl) Hpair) as Ex.
      rewrite AgentCertExists_run in Ex. by injection Ex. }
    eapply wp_mono; [by apply Provision_spec|]. intros r2 p2 (Hp2 & _ & _ & H409).
    specialize (H409 _ E2 Hd). unfold provisioned in Hp2. rewrite H409 in Hp2. split; [done|]. apply Hp2.
  - intros rnd2 now2.
    assert (Validate key now2 (keyStore p') = Ret (Err ErrKeyAlreadyUsed) (keyStore p')) as E2.
    { unfold Validate, mbind, M_bind, get, mret, M_ret. rewrite Eks. simpl. by rewrite lookup_insert_eq. }
    unfold Provision, in_keys, mbind, M_bind, zoom. rewrite E2. by destruct p'.
Qed.

(** ** Witnesses *)
Module OneProvision.
Definition p : Provisioning := mkProvisioning OneKey.ks1 Certs.fs_ca.
Definition key : string := key_of OneKey.b.
Definition pk : ProvisionKey := mkKey key "agent" 100 160 false.

Lemma valid : keys_valid (keyStore p).
Proof.
  intros k pk' Hk. unfold p, keyStore, OneKey.ks1, ks_keys in Hk.
  apply lookup_singleton_Some in Hk as [_ <-]. reflexivity.
Qed.
End OneProvision.

Lemma provision_single_use_witness :
  match Provision (Some Certs.s) (Ok OneProvision.key) (Certs.rnd 3) 150 OneProvision.p with
  | Ret r p' => pr_Status r = 200%Z ∧ ∀ rnd2 now2,
      Provision (Some Certs.s) (Ok OneProvision.key) rnd2 now2 p'
      = Ret (p_error 401 (Error ErrKeyAlreadyUsed)) p'
  | _ => False
  end.
Proof.
  pose proof (provision_single_use Certs.s OneProvision.key (Certs.rnd 3) 150 OneProvision.p
    OneProvision.valid) as H.
  assert (match Provision (Some Certs.s) (Ok OneProvision.key) (Certs.rnd 3) 150 OneProvision.p with
          | Ret r _ => pr_Status r = 200%Z
          | _ => False
          end) as Hs by (vm_compute; reflexivity).
  unfold wp in H. destruct (Provision _ _ _ _ _) as [r p'| |]; [|exact H|exact H].
  split; [exact Hs|]. apply (H Hs).
Defined.
