(* ===== verification/SqlTypes.v ===== *)
(** * The role type of the users table

    Models the [sql.Scanner] and [driver.Valuer] methods of
    [src/internal/db/sqlc/models.go]: how a role is read from and written to a
    nullable column. *)
From stdpp Require Import base strings list gmap fin_maps.
From S2P Require Import Prelude GoStd.

(** ** The code *)

(** A Go [string] of its own type (its two constants are in Users.v). *)
Abbreviation UserRole := string.

(** What a database driver hands to [Scan], and what [Value] gives it: nil, bytes, a
    string, or a value of another type, of which only the name is looked at. *)
Inductive driver_Value : Type :=
  | DNil
  | DBytes (b : bytes)
  | DString (s : string)
  | DOther (type : string).

(** [%T] *)
Definition type_name (v : driver_Value) : string :=
  match v with
  | DNil => "<nil>"
  | DBytes _ => "[]uint8"
  | DString _ => "string"
  | DOther t => t
  end.

Definition UserRole_Scan (src : driver_Value) : M UserRole (option error) :=
  match src with
  | DBytes s => _ ← put s; mret None
  | DString s => _ ← put s; mret None
  | _ => mret (Some (Errorf ("unsupported scan type for UserRole: " +:+ type_name src)))
  end.

Record NullUserRole : Type := mkNullRole { nr_UserRole : UserRole; nr_Valid : bool }.

Definition set_role (r : UserRole) (ns : NullUserRole) : NullUserRole := mkNullRole r (nr_Valid ns).

Definition NullUserRole_Scan (value : driver_Value) : M NullUserRole (option error) :=
  match value with
  | DNil => _ ← put (mkNullRole "" false); mret None
  | _ =>
      _ ← modify (λ ns, mkNullRole (nr_UserRole ns) true);
      zoom nr_UserRole set_role (UserRole_Scan value)
  end.

Definition NullUserRole_Value (ns : NullUserRole) : result driver_Value :=
  if nr_Valid ns then Ok (DString (nr_UserRole ns)) else Ok DNil.

(** ** Properties *)

(** A role written to a nullable column is read back as it was (a role that is not
    valid as NULL, without its text), whatever the variable held before; what is
    read as text or bytes is written as that text; a value of any other type is an
    error that leaves the variable marked valid with its old role. *)
Theorem role_roundtrip (ns old : NullUserRole) (v : driver_Value) :
  (∀ w, NullUserRole_Value ns = Ok w →
     NullUserRole_Scan w old = Ret None (if nr_Valid ns then ns else mkNullRole "" false)) ∧
  match NullUserRole_Scan v old with
  | Ret None ns' => NullUserRole_Value ns' =
      Ok match v with DBytes s | DString s => DString s | _ => DNil end
  | Ret (Some e) ns' => (∃ t, v = DOther t) ∧ ns' = mkNullRole (nr_UserRole old) true
  | _ => False
  end.
Proof.
  split; [|destruct v; simpl; eauto].
  intros w. unfold NullUserRole_Value. destruct ns as [r []]; by intros [= <-].
Qed.

Lemma role_roundtrip_witness :
  NullUserRole_Scan (DString "Admin") (mkNullRole "User" false) = Ret None (mkNullRole "Admin" true).
Proof.
  destruct (role_roundtrip (mkNullRole "Admin" true) (mkNullRole "User" false) DNil) as [H _].
  apply H. reflexivity.
Defined.
