(* ===== verification/Users.v ===== *)
(** * The users table and the user endpoints

    Models [src/internal/users/service.go] and [password.go], the queries of
    [src/internal/db/sqlc/users.sql.go] on the table that
    [src/internal/db/migrations/0001_create_users.sql] creates, and
    [src/internal/api/http/handler/user.go].  The table is the list of its rows in
    insertion order.  What PostgreSQL chooses is an argument of each query: the
    generated id, the clock, the order of rows [ORDER BY created_at DESC] leaves
    open, and faults.  [bcrypt] and [uuid.Parse] are parameters. *)
From stdpp Require Import base strings list gmap fin_maps sorting.
From Stdlib Require Import ZArith Lia Ascii.
From S2P Require Import Prelude GoStd.

(** ** The table and its queries *)

Definition UserRoleAdmin : string := "Admin".
Definition UserRoleUser : string := "User".

Record User : Type := mkUser {
  ID : bytes;                 (** the 16 bytes of the uuid *)
  Username : string;
  PasswordHash : string;
  Role : string;
  CreatedAt : Z;
  UpdatedAt : Z;
}.

#[export] Instance User_eq_dec : EqDecision User.
Proof. solve_decision. Defined.

Abbreviation Table := (list User).

(** How a query can go wrong beside its own conditions: the statement never runs
    or the database refuses it (a value its column cannot hold), or it took effect
    and the acknowledgement is lost. *)
Inductive db_fault : Type :=
  | NoFault
  | Refused (e : error)
  | LostReply (e : error).

(** [*pgconn.PgError] with a SQLSTATE code, and [errors.As] with [pgErr.Code]. *)
Definition PgError (code : string) : error := Sentinel ("SQLSTATE " +:+ code).
Definition is_pg_code (code : string) (err : error) : bool := errors_Is err (PgError code).
Definition ErrNoRows : error := Sentinel "no rows in result set".

Definition query {A} (f : db_fault) (m : M Table (result A)) : M Table (result A) :=
  match f with
  | NoFault => m
  | Refused e => mret (Err e)
  | LostReply e => _ ← m; mret (Err e)
  end.

(** [INSERT ... RETURNING]: [id] and [now] are the column defaults
    [gen_random_uuid()] and [NOW()].  The primary key and the [UNIQUE] username
    make a second row with either an error. *)
Definition CreateUser (f : db_fault) (id : bytes) (now : Z) (username hash role : string) :
    M Table (result User) :=
  query f (
    t ← get;
    if bool_decide (id ∈ ID <$> t) || bool_decide (username ∈ Username <$> t)
    then mret (Err (PgError "23505"))
    else
      let u := mkUser id username hash role now now in
      _ ← put (t ++ [u]);
      mret (Ok u)).

Definition DeleteUser_query (f : db_fault) (id : bytes) : M Table (result unit) :=
  query f (_ ← modify (filter (λ u, ID u ≠ id)); mret (Ok ())).

Definition GetUser (f : db_fault) (id : bytes) : M Table (result User) :=
  query f (gets (λ t, match filter (λ u, ID u = id) t with
                      | u :: _ => Ok u
                      | [] => Err ErrNoRows
                      end)).

Definition GetUserByUsername (f : db_fault) (username : string) : M Table (result User) :=
  query f (gets (λ t, match filter (λ u, Username u = username) t with
                      | u :: _ => Ok u
                      | [] => Err ErrNoRows
                      end)).

(** [ORDER BY created_at DESC LIMIT $1 OFFSET $2], both [int32]; [order] is the
    table in the order the database sorts it. *)
Definition ListUsersPaginated (f : db_fault) (order : Table) (limit offset : Z) :
    M Table (result (list User)) :=
  query f (mret (
    if (limit <? 0)%Z then Err (PgError "2201W")
    else if (offset <? 0)%Z then Err (PgError "2201X")
    else Ok (take (Z.to_nat limit) (drop (Z.to_nat offset) order)))).

Definition CountUsers (f : db_fault) : M Table (result Z) :=
  query f (gets (λ t, Ok (Z.of_nat (length t)))).

(** What [ORDER BY created_at DESC] allows. *)
Definition newest_first (u v : User) : Prop := (CreatedAt v ≤ CreatedAt u)%Z.
Definition ordered (order t : Table) : Prop := order ≡ₚ t ∧ StronglySorted newest_first order.

(** ** password.go *)

Record Bcrypt : Type := mkBcrypt {
  GenerateFromPassword : string → bytes → result string;     (** password, random salt *)
  CompareHashAndPassword : string → string → option error;
}.

(** What the code relies on: a hash verifies its own password, a password of more
    than 72 bytes is refused, and the errors are the library's own. *)
Class BcryptLaws (bc : Bcrypt) : Prop := {
  bcrypt_verifies : ∀ p salt h,
    GenerateFromPassword bc p salt = Ok h → CompareHashAndPassword bc h p = None;
  bcrypt_too_long : ∀ p salt,
    72 < String.length p → ∃ e, GenerateFromPassword bc p salt = Err e;
  bcrypt_errors : ∀ p salt e, GenerateFromPassword bc p salt = Err e → ∃ m, e = Errorf m;
}.

Definition HashPassword (bc : Bcrypt) (password : string) (salt : bytes) : result string :=
  match GenerateFromPassword bc password salt with
  | Err e => Err (Wrapf "failed to hash password" e)
  | Ok hash => Ok hash
  end.

Definition CheckPassword (bc : Bcrypt) (password hash : string) : bool :=
  match CompareHashAndPassword bc hash password with None => true | Some _ => false end.

(** ** service.go *)

Definition ErrUserNotFound : error := Sentinel "user not found".

(** [fmt.Sprintf("%08x-%04x-%04x-%04x-%012x", id[0:4], ..., id[10:16])] *)
Definition slice (lo hi : nat) (b : bytes) : bytes := String.substring lo (hi - lo) b.
Definition uuidToString (id : bytes) : string :=
  hex_EncodeToString (slice 0 4 id) +:+ "-" +:+ hex_EncodeToString (slice 4 6 id) +:+ "-" +:+
  hex_EncodeToString (slice 6 8 id) +:+ "-" +:+ hex_EncodeToString (slice 8 10 id) +:+ "-" +:+
  hex_EncodeToString (slice 10 16 id).

Definition uuid_parser : Type := string → result bytes.

(** [uuid.Parse] reads back the standard form. *)
Class UuidLaws (uuid_Parse : uuid_parser) : Prop := {
  uuid_parses : ∀ id, String.length id = 16 → uuid_Parse (uuidToString id) = Ok id;
}.

Definition DeleteUser (uuid_Parse : uuid_parser) (f : db_fault) (userID : string) :
    M Table (result unit) :=
  match uuid_Parse userID with
  | Err _ => mret (Err ErrUserNotFound)
  | Ok parsed => try (DeleteUser_query f parsed) (Wrapf "delete user") (λ _, mret (Ok ()))
  end.

Record UserInfo : Type := mkUserInfo {
  ui_ID : string;
  ui_Username : string;
  ui_Role : string;
  ui_CreatedAt : Z;
}.

Definition user_info (u : User) : UserInfo :=
  mkUserInfo (uuidToString (ID u)) (Username u) (Role u) (CreatedAt u).

Definition ListUsers (f1 f2 : db_fault) (order : Table) (limit offset : Z) :
    M Table (result (list UserInfo * Z)) :=
  try (ListUsersPaginated f1 order (int32 limit) (int32 offset)) (Wrapf "list users") (λ dbUsers,
  try (CountUsers f2) (Wrapf "count users") (λ total,
  mret (Ok (user_info <$> dbUsers, total)))).

(** ** handler/user.go *)

Inductive user_body : Type :=
  | UError (msg : string)
  | UNothing
  | UList (users : list UserInfo) (total page pageSize : Z).

Record UserReply : Type := mkUReply { u_Status : Z; u_Body : user_body }.

Definition u_error (status : Z) (msg : string) : UserReply := mkUReply status (UError msg).

(** [c.Get] of a gin context: values of any type. *)
Inductive any : Type := AnyString (s : string) | AnyOther.
Abbreviation Keys := (gmap string any).

(** [userID.(string)] panics on a missing or other value. *)
Definition DeleteUser_handler (uuid_Parse : uuid_parser) (f : db_fault) (ctx : Keys) :
    M Table UserReply :=
  match ctx !! "user_id" with
  | Some (AnyString userID) =>
      r ← DeleteUser uuid_Parse f userID;
      mret match r with
           | Ok _ => mkUReply 204 UNothing
           | Err e => if errors_Is e ErrUserNotFound then u_error 404 "user not found"
                      else u_error 500 "internal error"
           end
  | _ => panic "interface conversion: interface {} is not string"
  end.

(** [c.DefaultQuery] *)
Definition DefaultQuery (q : gmap string string) (key def : string) : string := default def (q !! key).

Definition page_of (q : gmap string string) : Z :=
  let page := (Atoi (DefaultQuery q "page" "1")).1 in
  if (page <? 1)%Z then 1%Z else page.

Definition page_size_of (q : gmap string string) : Z :=
  let pageSize := (Atoi (DefaultQuery q "page_size" "20")).1 in
  if (pageSize <? 1)%Z || (pageSize >? 100)%Z then 20%Z else pageSize.

Definition ListUsers_handler (f1 f2 : db_fault) (order : Table) (q : gmap string string) :
    M Table UserReply :=
  let page := page_of q in
  let pageSize := page_size_of q in
  let offset := int64 ((page - 1) * pageSize) in
  r ← ListUsers f1 f2 order pageSize offset;
  mret match r with
       | Err _ => u_error 500 "internal error"
       | Ok (userList, total) => mkUReply 200 (UList userList total page pageSize)
       end.

(** ** The invariant *)

(** The two unique columns. *)
Record users_ok (t : Table) : Prop := {
  uo_ids : NoDup (ID <$> t);
  uo_names : NoDup (Username <$> t);
}.

(** Everything the program can do to the table. *)
Inductive db_call : Type :=
  | DbCreate (f : db_fault) (id : bytes) (now : Z) (username hash role : string)
  | DbDelete (f : db_fault) (id : bytes).

Definition db_run (c : db_call) (t : Table) : Table :=
  match c with
  | DbCreate f id now username hash role =>
      match CreateUser f id now username hash role t with Ret _ t' => t' | _ => t end
  | DbDelete f id => match DeleteUser_query f id t with Ret _ t' => t' | _ => t end
  end.

(** ** Facts *)

Lemma users_ok_nil : users_ok [].
Proof. split; constructor. Qed.

Lemma users_ok_filter P `{!∀ u, Decision (P u)} t : users_ok t → users_ok (filter P t).
Proof.
  intros [Hi Hn]. split; [apply (sublist_NoDup _ _ Hi)|apply (sublist_NoDup _ _ Hn)];
    apply fmap_sublist, sublist_filter.
Qed.

Lemma users_ok_add t u :
  users_ok t → ID u ∉ ID <$> t → Username u ∉ Username <$> t → users_ok (t ++ [u]).
Proof.
  intros [Hi Hn] Hu1 Hu2. split; rewrite fmap_app, NoDup_app; split_and!; try done;
    try apply NoDup_singleton; intros x Hx ->%list_elem_of_singleton; done.
Qed.

Lemma user_by_name t u v : users_ok t → u ∈ t → v ∈ t → Username u = Username v → u = v.
Proof.
  intros [_ Hn] [i Hi]%list_elem_of_lookup [j Hj]%list_elem_of_lookup E.
  assert (i = j) as ->; [|congruence].
  apply (NoDup_lookup _ i j (Username u) Hn); rewrite list_lookup_fmap, ?Hi, ?Hj; simpl; congruence.
Qed.

Lemma user_by_id t u v : users_ok t → u ∈ t → v ∈ t → ID u = ID v → u = v.
Proof.
  intros [Hn _] [i Hi]%list_elem_of_lookup [j Hj]%list_elem_of_lookup E.
  assert (i = j) as ->; [|congruence].
  apply (NoDup_lookup _ i j (ID u) Hn); rewrite list_lookup_fmap, ?Hi, ?Hj; simpl; congruence.
Qed.

Lemma delete_absent id (t : Table) : id ∉ ID <$> t → filter (λ u, ID u ≠ id) t = t.
Proof.
  induction t as [|u t IH]; [done|]. rewrite fmap_cons, not_elem_of_cons. intros [Hu Ht].
  rewrite filter_cons_True by done. by rewrite IH.
Qed.

(** A query that returns has run, but for a fault. *)
Lemma wp_query {A} f (m : M Table (result A)) t (Q : result A → Table → Prop) :
  (∀ e, Q (Err e) t) → wp m t (λ r t', Q r t' ∧ ∀ e, Q (Err e) t') → wp (query f m) t Q.
Proof.
  intros HE Hm. destruct f as [|e|e]; simpl.
  - eapply wp_mono; [exact Hm|]. by intros r t' [? _].
  - by apply wp_ret.
  - wp_steps. eapply wp_mono; [exact Hm|]. intros r t' [_ H]. by apply wp_ret.
Qed.

Lemma CreateUser_spec f id now username hash role t :
  users_ok t →
  wp (CreateUser f id now username hash role) t (λ r t',
    users_ok t' ∧
    (t' = t ∨ t' = t ++ [mkUser id username hash role now now] ∧ username ∉ Username <$> t) ∧
    (f = NoFault → match r with
       | Ok u => u = mkUser id username hash role now now ∧ t' = t ++ [u] ∧ username ∉ Username <$> t
       | Err e => e = PgError "23505" ∧ t' = t ∧ (id ∈ ID <$> t ∨ username ∈ Username <$> t)
       end)).
Proof.
  intros Hok. unfold CreateUser. destruct f as [|e|e]; unfold query; wp_steps; [|by split_and?; [|left|]|].
  all: destruct (bool_decide (id ∈ ID <$> t) || bool_decide (username ∈ Username <$> t)) eqn:E; wp_steps.
  all: rewrite ?orb_true_iff, ?orb_false_iff, ?bool_decide_eq_true, ?bool_decide_eq_false in E.
  all: split_and?; try done; auto; try (apply users_ok_add; naive_solver); try naive_solver.
Qed.

Lemma DeleteUser_query_spec f id t :
  users_ok t →
  wp (DeleteUser_query f id) t (λ r t', users_ok t' ∧
    (t' = t ∨ t' = filter (λ u, ID u ≠ id) t) ∧
    (f = NoFault → r = Ok () ∧ t' = filter (λ u, ID u ≠ id) t)).
Proof.
  intros Hok. pose proof (users_ok_filter (λ u, ID u ≠ id) t Hok).
  unfold DeleteUser_query. destruct f; unfold query; wp_steps; split_and?; auto; by intros.
Qed.

Lemma db_run_ok c t : users_ok t → users_ok (db_run c t).
Proof.
  intros Hok. destruct c as [f id now un h ro|f id]; simpl.
  - destruct (proj1 (wp_run _ _ _) (CreateUser_spec f id now un h ro t Hok)) as (r & t' & -> & H & _). done.
  - destruct (proj1 (wp_run _ _ _) (DeleteUser_query_spec f id t Hok)) as (r & t' & -> & H & _). done.
Qed.

Lemma db_runs_ok cs t : users_ok t → users_ok (foldl (λ t c, db_run c t) t cs).
Proof. revert t. induction cs as [|c cs IH]; intros t Hok; [done|]. simpl. by apply IH, db_run_ok. Qed.

(** The rows with one name. *)
Lemma GetUserByUsername_run username t :
  users_ok t →
  GetUserByUsername NoFault username t =
    Ret (match filter (λ u, Username u = username) t with u :: _ => Ok u | [] => Err ErrNoRows end) t ∧
  (∀ u, u ∈ t → Username u = username → filter (λ u, Username u = username) t = [u]).
Proof.
  intros Hok. split; [done|]. intros u Hu Hn.
  assert (u ∈ filter (λ u, Username u = username) t) as Hin by (by apply list_elem_of_filter).
  destruct (filter (λ u, Username u = username) t) as [|v [|v' l]] eqn:E.
  - by apply not_elem_of_nil in Hin.
  - by apply list_elem_of_singleton in Hin as ->.
  - exfalso. pose proof (users_ok_filter (λ u, Username u = username) t Hok) as [_ Hnd].
    rewrite E in Hnd. cbn in Hnd. apply NoDup_cons in Hnd as [Hnot _]. apply Hnot.
    assert (v ∈ filter (λ u, Username u = username) t) as [Hv _]%list_elem_of_filter by (rewrite E; by left).
    assert (v' ∈ filter (λ u, Username u = username) t) as [Hv' _]%list_elem_of_filter
      by (rewrite E; right; by left).
    rewrite Hv, Hv'. by left.
Qed.

(** *** Pages *)

(** [?page=k&page_size=s] *)
Definition page_query (k s : Z) : gmap string string := {["page" := Itoa k; "page_size" := Itoa s]}.

(** The users a reply lists. *)
Definition listed (r : outcome Table UserReply) : list UserInfo :=
  match r with Ret (mkUReply _ (UList us _ _ _)) _ => us | _ => [] end.

Lemma page_query_spec k s :
  (1 ≤ k ≤ max_int64)%Z → (1 ≤ s ≤ 100)%Z →
  page_of (page_query k s) = k ∧ page_size_of (page_query k s) = s.
Proof.
  intros Hk Hs. unfold page_of, page_size_of, DefaultQuery, page_query.
  rewrite lookup_insert_eq, lookup_insert_ne, lookup_singleton_eq by done. simpl.
  unfold max_int64, min_int64 in *.
  rewrite !Itoa_Atoi by (unfold min_int64, max_int64; lia). simpl.
  split; repeat case_match; lia.
Qed.

(** Page [k] starts at the [int32] of its offset. *)
Lemma ListUsers_handler_page order t k s :
  (1 ≤ k ≤ max_int64)%Z → (1 ≤ s ≤ 100)%Z → ((k - 1) * s < 2 ^ 63)%Z →
  ListUsers_handler NoFault NoFault order (page_query k s) t =
    Ret (let offset := int32 ((k - 1) * s) in
         if (offset <? 0)%Z then u_error 500 "internal error"
         else mkUReply 200 (UList (user_info <$> take (Z.to_nat s) (drop (Z.to_nat offset) order))
                                  (Z.of_nat (length t)) k s)) t.
Proof.
  intros Hk Hs Ho. unfold ListUsers_handler.
  destruct (page_query_spec k s Hk Hs) as [-> ->].
  assert (int64 ((k - 1) * s) = (k - 1) * s)%Z as ->.
  { apply wrap_id; [lia|]. simpl. nia. }
  unfold ListUsers, ListUsersPaginated, CountUsers, query, try, mbind, M_bind, mret, M_ret, gets.
  assert (int32 s = s) as -> by (apply wrap_id; simpl; lia).
  rewrite (proj2 (Z.ltb_ge s 0)) by lia. cbv zeta. by destruct (int32 ((k - 1) * s) <? 0)%Z.
Qed.

(** Rows with distinct creation times have one order. *)
Lemma ordered_unique t order1 order2 :
  NoDup (CreatedAt <$> t) → ordered order1 t → ordered order2 t → order1 = order2.
Proof.
  intros Hnd [P1 S1] [P2 S2]. apply (StronglySorted_unique_strong newest_first); try done.
  - intros u v Hu Hv H1 H2. unfold newest_first in *.
    rewrite P1 in Hu. rewrite P2 in Hv.
    apply list_elem_of_lookup in Hu as [i Hi]. apply list_elem_of_lookup in Hv as [j Hj].
    assert (i = j) as ->; [|congruence].
    apply (NoDup_lookup _ i j (CreatedAt u) Hnd); rewrite list_lookup_fmap, ?Hi, ?Hj; simpl; f_equal; lia.
  - by rewrite P1, P2.
Qed.

Lemma concat_pages {A B} (f : A → B) (l : list A) (s n : nat) :
  concat ((λ k, f <$> take s (drop (k * s) l)) <$> seq 0 n) = f <$> take (n * s) l.
Proof.
  induction n as [|n IH]; [done|].
  rewrite seq_S, fmap_app, concat_app, IH. cbn. rewrite app_nil_r, <- fmap_app.
  replace (s + n * s) with (n * s + s) by lia. by rewrite take_take_drop.
Qed.

(** ** Properties *)


(** The row offset of a page is cut to 32 bits: from row 2^31 on, a page is a
    500 or shows the rows from [(page - 1) * page_size mod 2^32] on, so that a page
    far beyond the end lists users again. *)
Theorem list_users_offset_wraps order t k s :
  (1 ≤ k ≤ max_int64)%Z → (1 ≤ s ≤ 100)%Z → ((k - 1) * s < 2 ^ 63)%Z →
  let r := ListUsers_handler NoFault NoFault order (page_query k s) t in
  let row := ((k - 1) * s mod 2 ^ 32)%Z in
  ((2 ^ 31 ≤ row)%Z → r = Ret (u_error 500 "internal error") t) ∧
  ((row < 2 ^ 31)%Z → listed r = user_info <$> take (Z.to_nat s) (drop (Z.to_nat row) order)).
Proof.
  intros Hk Hs Ho. cbv zeta. rewrite ListUsers_handler_page by done. cbv zeta.
  pose proof (Z.mod_pos_bound ((k - 1) * s) (2 ^ 32) ltac:(lia)) as Hb.
  assert (int32 ((k - 1) * s) = if (2 ^ 31 <=? (k - 1) * s mod 2 ^ 32)%Z
          then (k - 1) * s mod 2 ^ 32 - 2 ^ 32 else (k - 1) * s mod 2 ^ 32)%Z as ->.
  { unfold int32, wrap. change (32 - 1)%Z with 31%Z. rewrite <- Z.add_mod_idemp_l by lia.
    set (m := ((k - 1) * s mod 2 ^ 32)%Z) in *. destruct (2 ^ 31 <=? m)%Z eqn:E.
    - apply Z.leb_le in E. replace (m + 2 ^ 31)%Z with ((m - 2 ^ 31) + 1 * 2 ^ 32)%Z by lia.
      rewrite Z.mod_add, Z.mod_small by lia. lia.
    - apply Z.leb_gt in E. rewrite Z.mod_small by lia. lia. }
  split; intros Hr.
  - rewrite (proj2 (Z.leb_le _ _) Hr), (proj2 (Z.ltb_lt _ _)) by lia. done.
  - rewrite (proj2 (Z.leb_gt _ _) Hr), (proj2 (Z.ltb_ge _ _)) by lia. done.
Qed.

(** ** A concrete table *)

Module Toy.

(** [uuid.Parse] on the standard form: without its dashes the text is hexadecimal. *)
Definition unhex_digit (c : ascii) : nat :=
  let n := nat_of_ascii c in if decide (n < 58) then n - 48 else n - 87.
Fixpoint unhex (s : string) : string :=
  match s with
  | String a (String b s') => String (ascii_of_nat (16 * unhex_digit a + unhex_digit b)) (unhex s')
  | _ => EmptyString
  end.
Fixpoint no_dash (s : string) : string :=
  match s with
  | EmptyString => EmptyString
  | String c s' => if decide (c = "-"%char) then no_dash s' else String c (no_dash s')
  end.
Definition uuid_Parse : uuid_parser := λ s,
  if decide (String.length s = 36) then Ok (unhex (no_dash s)) else Err (Errorf "invalid UUID length").

Lemma unhex_hex_digit n : n < 16 → unhex_digit (hex_digit n) = n.
Proof.
  intros Hn. unfold unhex_digit, hex_digit. rewrite nat_ascii_embedding by (case_decide; lia).
  repeat case_decide; lia.
Qed.

Lemma unhex_hex b : unhex (hex_EncodeToString b) = b.
Proof.
  induction b as [|c b IH]; [done|]. cbn [hex_EncodeToString unhex]. rewrite IH. f_equal.
  pose proof (nat_ascii_bounded c).
  rewrite !unhex_hex_digit; [|apply Nat.mod_upper_bound; lia|apply Nat.Div0.div_lt_upper_bound; simpl; lia].
  rewrite <- Nat.div_mod_eq. apply ascii_nat_embedding.
Qed.

Lemma no_dash_hex b : no_dash (hex_EncodeToString b) = hex_EncodeToString b.
Proof.
  assert (∀ n, n < 16 → hex_digit n ≠ "-"%char) as Hd.
  { intros n Hn E. apply (f_equal nat_of_ascii) in E. unfold hex_digit in E.
    rewrite nat_ascii_embedding in E by (case_decide; lia).
    change (nat_of_ascii "-"%char) with 45 in E. case_decide; lia. }
  induction b as [|c b IH]; [done|]. cbn [hex_EncodeToString no_dash].
  pose proof (nat_ascii_bounded c). rewrite !decide_False, IH; [done|apply Hd..].
  - apply Nat.mod_upper_bound. lia.
  - apply Nat.Div0.div_lt_upper_bound. simpl. lia.
Qed.

Lemma no_dash_app a b : no_dash (a +:+ b) = no_dash a +:+ no_dash b.
Proof.
  induction a as [|c a IH]; [done|]. rewrite string_app_cons. cbn [no_dash].
  destruct (decide (c = "-"%char)); rewrite IH; [done|by rewrite string_app_cons].
Qed.

Lemma hex_app a b : hex_EncodeToString (a +:+ b) = hex_EncodeToString a +:+ hex_EncodeToString b.
Proof.
  induction a as [|c a IH]; [done|]. rewrite string_app_cons. cbn [hex_EncodeToString].
  by rewrite IH, !string_app_cons.
Qed.

Lemma slices id : String.length id = 16 →
  slice 0 4 id +:+ slice 4 6 id +:+ slice 6 8 id +:+ slice 8 10 id +:+ slice 10 16 id = id ∧
  String.length (uuidToString id) = 36.
Proof.
  intros H. do 16 (destruct id as [|? id]; [done|]). destruct id; [|done]. by split.
Qed.

Lemma no_dash_uuid id : no_dash (uuidToString id) =
  hex_EncodeToString (slice 0 4 id +:+ slice 4 6 id +:+ slice 6 8 id +:+ slice 8 10 id +:+ slice 10 16 id).
Proof. unfold uuidToString. by rewrite !no_dash_app, !no_dash_hex, !hex_app. Qed.

#[global] Instance uuid_laws : UuidLaws uuid_Parse.
Proof.
  split. intros id Hid. destruct (slices id Hid) as [Hs Hl]. unfold uuid_Parse.
  by rewrite decide_True, no_dash_uuid, Hs, unhex_hex.
Qed.

(** A password is its own hash. *)
Definition bcrypt : Bcrypt := mkBcrypt
  (λ p _, if decide (String.length p ≤ 72) then Ok p else Err (Errorf "bcrypt: password length exceeds 72 bytes"))
  (λ h p, if decide (h = p) then None else Some (Errorf "crypto/bcrypt: hashedPassword is not the hash of the given password")).

#[global] Instance bcrypt_laws : BcryptLaws bcrypt.
Proof.
  split; unfold bcrypt; simpl; intros.
  - case_decide; [|done]. simplify_eq. by rewrite decide_True.
  - rewrite decide_False by lia. by eexists.
  - case_decide; [done|]. simplify_eq. by eexists.
Qed.

Definition id1 : bytes := "0123456789abcdef".
Definition id2 : bytes := "fedcba9876543210".
Definition id3 : bytes := "AAAABBBBCCCCDDDD".
Definition ann : User := mkUser id1 "ann" "secret-ann" UserRoleAdmin 10 10.
Definition bob : User := mkUser id2 "bob" "secret-bob" UserRoleUser 20 20.
Definition cat : User := mkUser id3 "cat" "secret-cat" UserRoleUser 30 30.
Definition three : Table := [ann; bob; cat].

Lemma three_ok : users_ok three.
Proof. split; apply (bool_decide_unpack _); by vm_compute. Qed.

Lemma three_ordered : ordered [cat; bob; ann] three.
Proof.
  split; [apply (bool_decide_unpack _); by vm_compute|].
  repeat constructor; unfold newest_first; simpl; lia.
Qed.
End Toy.


Lemma list_users_offset_wraps_witness :
  listed (ListUsers_handler NoFault NoFault [Toy.cat; Toy.bob; Toy.ann] (page_query 4294967297 1) Toy.three)
  = [user_info Toy.cat].
Proof.
  assert (1 ≤ 4294967297 ≤ max_int64)%Z as H1 by (unfold max_int64; lia).
  assert (1 ≤ 1 ≤ 100)%Z as H2 by lia.
  assert ((4294967297 - 1) * 1 < 2 ^ 63)%Z as H3 by lia.
  apply (list_users_offset_wraps [Toy.cat; Toy.bob; Toy.ann] Toy.three 4294967297 1 H1 H2 H3).
  reflexivity.
Defined.
