(* ===== verification/Auth.v ===== *)
(** * Accounts and tokens

    Models [src/internal/auth/jwt.go], [service.go] and
    [src/internal/api/http/handler/auth.go] on the users table.  The JWT library
    is a parameter with the behaviour its documentation states; times are
    nanoseconds. *)
From stdpp Require Import base strings list gmap fin_maps.
From Stdlib Require Import ZArith Lia Ascii.
From S2P Require Import Prelude GoStd Http Users.

(** ** jwt.go *)

(** [jwt.SigningMethod], by the Go type the code asserts. *)
Inductive SigningMethod : Type :=
  | SigningMethodHMAC (alg : string)
  | OtherMethod (alg : string).

Definition SigningMethodHS256 : SigningMethod := SigningMethodHMAC "HS256".
Definition alg_of (m : SigningMethod) : string :=
  match m with SigningMethodHMAC a | OtherMethod a => a end.

Record Claims : Type := mkClaims {
  UserID : string;
  c_Username : string;
  c_Role : string;
  ExpiresAt : option Z;
  c_NotBefore : option Z;
  IssuedAt : option Z;
}.

(** The times [golang-jwt] checks in the registered claims of a token. *)
Definition claims_valid (now : Z) (c : Claims) : bool :=
  from_option (λ e, now <? e)%Z true (ExpiresAt c) && from_option (λ n, n <=? now)%Z true (c_NotBefore c).

(** The part of [golang-jwt] the code calls; the last three fields are what its
    documentation speaks of. *)
Record JWT : Type := mkJWT {
  NewNumericDate : Z → Z;
  SignedString : SigningMethod → Claims → string → result string;
  ParseWithClaims : (SigningMethod → result string) → Z → string → result (Claims * bool);
  decode : string → option (SigningMethod * Claims);
  verify : SigningMethod → string → string → bool;      (** method, key, token *)
  sha256 : bytes → bytes;
}.

Definition second : Z := 1000000000.

(** The key of an HMAC of SHA-256 (RFC 2104, [crypto/hmac]): hashed if it is longer than a
    block, then filled up with zeros. *)
Fixpoint zeros (n : nat) : bytes := match n with O => "" | S n => String Ascii.zero (zeros n) end.

Definition hmac_key (jwt : JWT) (k : bytes) : bytes :=
  let k0 := if String.length k <=? 64 then k else sha256 jwt k in
  k0 +:+ zeros (64 - String.length k0).

(** (Strings are UTF-8, as JSON and the database have them.)  A date is cut to the
    second; a token carries the method and the claims it was
    signed with and verifies under the key it was signed with; one signed with HMAC
    under no other key (the assumption on which the use of a MAC rests); and a
    token is accepted when the key chosen for its method verifies it and its times are
    right. *)
Class JWTLaws (jwt : JWT) : Prop := {
  jwt_precision : ∀ t, NewNumericDate jwt t = (t - t mod second)%Z;
  jwt_signs : ∀ m c k t, SignedString jwt m c k = Ok t →
    decode jwt t = Some (m, c) ∧ verify jwt m k t = true;
  jwt_binds : ∀ c k t k', SignedString jwt SigningMethodHS256 c k = Ok t →
    verify jwt SigningMethodHS256 k' t = true → hmac_key jwt k' = hmac_key jwt k;
  jwt_parses : ∀ keyfunc now t c v, ParseWithClaims jwt keyfunc now t = Ok (c, v) ↔
    v = true ∧ ∃ m k, decode jwt t = Some (m, c) ∧ keyfunc m = Ok k ∧ verify jwt m k t = true ∧
      claims_valid now c = true;
}.

Record Config : Type := mkConfig { Secret : string; ExpirationMinutes : Z }.

Definition minute : Z := 60 * second.
Definition expiration (c : Config) : Z := int64 (ExpirationMinutes c * minute).

Section Tokens.
Context (jwt : JWT).

Definition token_claims (cfg : Config) (now : Z) (userID username role : string) : Claims :=
  mkClaims userID username role (Some (NewNumericDate jwt (now + expiration cfg)))
           None (Some (NewNumericDate jwt now)).

Definition GenerateToken (cfg : Config) (now : Z) (userID username role : string) : result string :=
  match SignedString jwt SigningMethodHS256 (token_claims cfg now userID username role) (Secret cfg) with
  | Err e => Err (Wrapf "failed to sign token" e)
  | Ok signed => Ok signed
  end.

(** The callback that chooses the key. *)
Definition keyfunc (secret : string) (m : SigningMethod) : result string :=
  match m with
  | SigningMethodHMAC _ => Ok secret
  | OtherMethod alg => Err (Errorf ("unexpected signing method: " +:+ alg))
  end.

Definition ValidateToken (secret : string) (now : Z) (tokenString : string) : result Claims :=
  match ParseWithClaims jwt (keyfunc secret) now tokenString with
  | Err e => Err (Wrapf "invalid token" e)
  | Ok (claims, valid) => if (valid : bool) then Ok claims else Err (Errorf "invalid token claims")
  end.
End Tokens.

(** ** service.go *)

Definition ErrUsernameExists : error := Sentinel "username already exists".
Definition ErrInvalidCredentials : error := Sentinel "invalid credentials".

Record RegisterResult : Type := mkRegisterResult { rr_ID : string; rr_Username : string; rr_Role : string }.

Section Service.
Context (bc : Bcrypt) (jwt : JWT) (config : Config).

(** [salt] is bcrypt's; [id] and [now] are the database's. *)
Definition Register (salt : bytes) (f : db_fault) (id : bytes) (now : Z) (username password : string) :
    M Table (result RegisterResult) :=
  match HashPassword bc password salt with
  | Err e => mret (Err (Wrapf "hash password" e))
  | Ok hash =>
      created ← CreateUser f id now username hash UserRoleUser;
      mret match created with
           | Err e => if is_pg_code "23505" e then Err ErrUsernameExists else Err (Wrapf "create user" e)
           | Ok user => Ok (mkRegisterResult (uuidToString (ID user)) (Username user) (Role user))
           end
  end.

Definition Login (f : db_fault) (now : Z) (username password : string) : M Table (result string) :=
  found ← GetUserByUsername f username;
  mret match found with
       | Err e => if errors_Is e ErrNoRows then Err ErrInvalidCredentials else Err (Wrapf "query user" e)
       | Ok user =>
           if CheckPassword bc password (PasswordHash user) then
             match GenerateToken jwt config now (uuidToString (ID user)) (Username user) (Role user) with
             | Err e => Err (Wrapf "generate token" e)
             | Ok token => Ok token
             end
           else Err ErrInvalidCredentials
       end.

(** ** handler/auth.go *)

Inductive auth_body : Type :=
  | AError (msg : string)
  | ARegistered (r : RegisterResult)
  | AToken (token : string).

Record AuthReply : Type := mkAReply { a_Status : Z; a_Body : auth_body }.

Definition a_error (status : Z) (msg : string) : AuthReply := mkAReply status (AError msg).

(** [req] is the result of [c.ShouldBindJSON], as a username and a password. *)
Definition Register_handler (req : result (string * string)) (salt : bytes) (f : db_fault) (id : bytes)
    (now : Z) : M Table AuthReply :=
  match req with
  | Err e => mret (a_error 400 (Error e))
  | Ok (username, password) =>
      r ← Register salt f id now username password;
      mret match r with
           | Err e => if errors_Is e ErrUsernameExists then a_error 409 "username already exists"
                      else a_error 500 "failed to create user"
           | Ok result => mkAReply 201 (ARegistered result)
           end
  end.

Definition Login_handler (req : result (string * string)) (f : db_fault) (now : Z) : M Table AuthReply :=
  match req with
  | Err e => mret (a_error 400 (Error e))
  | Ok (username, password) =>
      r ← Login f now username password;
      mret match r with
           | Err e => if errors_Is e ErrInvalidCredentials then a_error 401 "invalid credentials"
                      else a_error 500 "internal error"
           | Ok token => mkAReply 200 (AToken token)
           end
  end.
End Service.


(** ** Facts *)

Section Facts.
Context (bc : Bcrypt) (jwt : JWT) `{!BcryptLaws bc, !JWTLaws jwt}.
Implicit Types cfg : Config.

Lemma ValidateToken_spec secret now t c :
  ValidateToken jwt secret now t = Ok c ↔
  ∃ a, decode jwt t = Some (SigningMethodHMAC a, c) ∧ verify jwt (SigningMethodHMAC a) secret t = true ∧
    claims_valid now c = true.
Proof.
  unfold ValidateToken. split.
  - destruct (ParseWithClaims _ _ _ _) as [[c' v]|e] eqn:E; [|done].
    apply jwt_parses in E as (-> & m & k & Hd & Hk & Hv & Hx). intros [= ->].
    destruct m as [a|a]; simpl in Hk; [|done]. injection Hk as ->. by exists a.
  - intros (a & Hd & Hv & Hx).
    assert (ParseWithClaims jwt (keyfunc secret) now t = Ok (c, true)) as ->; [|done].
    apply jwt_parses. split; [done|]. by exists (SigningMethodHMAC a), secret.
Qed.

Lemma jwt_precision_bounds t : (t - second < NewNumericDate jwt t ≤ t)%Z.
Proof.
  rewrite jwt_precision. pose proof (Z.mod_pos_bound t second ltac:(unfold second; lia)). lia.
Qed.

Lemma zeros_inj a b n m :
  string_forallb (λ c, bool_decide (c ≠ Ascii.zero)) a = true →
  string_forallb (λ c, bool_decide (c ≠ Ascii.zero)) b = true →
  a +:+ zeros n = b +:+ zeros m → a = b.
Proof.
  revert b n m. induction a as [|c a IH]; intros [|d b] n m; simpl; rewrite ?andb_true_iff, ?bool_decide_eq_true.
  - done.
  - intros _ [Hd _] E. destruct n; [done|]. injection E as E _. by destruct Hd.
  - intros [Hc _] _ E. destruct m; [done|]. injection E as E _. by destruct Hc.
  - intros [_ Ha] [_ Hb] E. rewrite !string_app_cons in E. injection E as -> E. f_equal. by eapply IH.
Qed.

(** Different keys of at most a block without zero bytes are different as HMAC keys. *)
Lemma hmac_key_inj a b :
  String.length a ≤ 64 → String.length b ≤ 64 →
  string_forallb (λ c, bool_decide (c ≠ Ascii.zero)) a = true →
  string_forallb (λ c, bool_decide (c ≠ Ascii.zero)) b = true →
  hmac_key jwt a = hmac_key jwt b → a = b.
Proof.
  unfold hmac_key. intros Ha%Nat.leb_le Hb%Nat.leb_le. rewrite Ha, Hb. by apply zeros_inj.
Qed.

Lemma GenerateToken_spec cfg now id un role t :
  GenerateToken jwt cfg now id un role = Ok t →
  ∀ now' c, ValidateToken jwt (Secret cfg) now' t = Ok c ↔
    c = token_claims jwt cfg now id un role ∧ (now' < NewNumericDate jwt (now + expiration cfg))%Z.
Proof.
  unfold GenerateToken. destruct (SignedString _ _ _ _) as [t'|e] eqn:E; [|done]. intros [= ->].
  apply jwt_signs in E as [Hd Hv]. intros now' c. rewrite ValidateToken_spec. split.
  - intros (a & Hd' & _ & Hx). rewrite Hd in Hd'. injection Hd' as _ <-. split; [done|].
    unfold claims_valid in Hx. simpl in Hx. rewrite andb_true_r in Hx. by apply Z.ltb_lt.
  - intros [-> Hx]. exists "HS256". split_and!; [done..|]. unfold claims_valid. simpl.
    rewrite andb_true_r. by apply Z.ltb_lt.
Qed.

(** Under another HMAC key a token made here is never accepted. *)
Lemma GenerateToken_other_key cfg now id un role t secret now' c :
  GenerateToken jwt cfg now id un role = Ok t → ValidateToken jwt secret now' t = Ok c →
  hmac_key jwt secret = hmac_key jwt (Secret cfg).
Proof.
  unfold GenerateToken. destruct (SignedString _ _ _ _) as [t'|e] eqn:E; [|done]. intros [= ->].
  intros (a & Hd & Hv & _)%ValidateToken_spec. pose proof (jwt_signs _ _ _ _ E) as [Hd' _].
  rewrite Hd' in Hd. injection Hd as <-. by eapply jwt_binds.
Qed.

Lemma Register_user_spec salt f id now un pw t :
  users_ok t →
  wp (Register bc salt f id now un pw) t (λ r t', users_ok t' ∧
    (t' = t ∨ ∃ h, GenerateFromPassword bc pw salt = Ok h ∧ un ∉ Username <$> t ∧
       t' = t ++ [mkUser id un h UserRoleUser now now]) ∧
    (f = NoFault → match r with
     | Ok rr => ∃ h, rr = mkRegisterResult (uuidToString id) un UserRoleUser ∧
         GenerateFromPassword bc pw salt = Ok h ∧ un ∉ Username <$> t ∧
         t' = t ++ [mkUser id un h UserRoleUser now now]
     | Err e => t' = t ∧ ((∃ h, GenerateFromPassword bc pw salt = Ok h ∧ e = ErrUsernameExists ∧
                             (id ∈ ID <$> t ∨ un ∈ Username <$> t)) ∨
         ∃ e', GenerateFromPassword bc pw salt = Err e' ∧
               e = Wrapf "hash password" (Wrapf "failed to hash password" e'))
     end)).
Proof.
  intros Hok. unfold Register, HashPassword.
  destruct (GenerateFromPassword bc pw salt) as [h|e] eqn:Hg.
  2: { wp_steps. split_and?; auto. intros _. split; [done|]. right. by exists e. }
  wp_steps. eapply wp_mono; [by apply CreateUser_spec|].
  intros r t' (Hok' & Ht & Hr). wp_steps. split; [done|]. split.
  - destruct Ht as [->|[-> Hn]]; [by left|right; by exists h].
  - intros Hf. specialize (Hr Hf). destruct r as [u|e].
    + destruct Hr as (-> & -> & Hn). by exists h.
    + destruct Hr as (-> & -> & Hdup). split; [done|]. left. by exists h.
Qed.

Lemma Login_run cfg now un pw t :
  users_ok t →
  ∃ r, Login bc jwt cfg NoFault now un pw t = Ret r t ∧
    ((¬ ∃ u, u ∈ t ∧ Username u = un) → r = Err ErrInvalidCredentials) ∧
    (∀ u, u ∈ t → Username u = un →
       if CheckPassword bc pw (PasswordHash u)
       then match GenerateToken jwt cfg now (uuidToString (ID u)) un (Role u) with
            | Ok token => r = Ok token
            | Err e => r = Err (Wrapf "generate token" e)
            end
       else r = Err ErrInvalidCredentials).
Proof.
  intros Hok. destruct (GetUserByUsername_run un t Hok) as [E Hu].
  unfold Login, mbind, M_bind, mret, M_ret. rewrite E. eexists. split; [done|]. split.
  - intros Hno. destruct (filter _ t) as [|u l] eqn:Ef; [done|]. exfalso. apply Hno. exists u.
    assert (u ∈ filter (λ u, Username u = un) t) as [? ?]%list_elem_of_filter by (rewrite Ef; by left).
    done.
  - intros u Hin Hn. rewrite (Hu u Hin Hn). destruct (CheckPassword _ _ _); [|done].
    rewrite Hn. by destruct (GenerateToken _ _ _ _ _ _).
Qed.
End Facts.

(** ** Properties *)

(** C30: the life of a token.  A token made for a user is accepted under the
    configured secret with exactly the claims it was made with (the user's id, name
    and role, the time it was made and its expiration, both cut to the second), at any
    time before that expiration and at no time after; it is never accepted under a
    secret that is another HMAC key, as any other secret without zero bytes and of
    at most 64 bytes is; and what is accepted under a secret, whoever made it, names an
    HMAC method, verifies under that secret and is within its times. *)
Theorem token_lifetime jwt `{!JWTLaws jwt} cfg now id username role token :
  GenerateToken jwt cfg now id username role = Ok token →
  (∀ now' c, ValidateToken jwt (Secret cfg) now' token = Ok c ↔
     let expires := (now + expiration cfg - (now + expiration cfg) mod second)%Z in
     c = mkClaims id username role (Some expires) None (Some (now - now mod second)%Z) ∧ (now' < expires)%Z) ∧
  (∀ secret now' c, ValidateToken jwt secret now' token = Ok c →
     hmac_key jwt secret = hmac_key jwt (Secret cfg) ∧
     (String.length secret ≤ 64 → String.length (Secret cfg) ≤ 64 →
      string_forallb (λ c, bool_decide (c ≠ Ascii.zero)) secret = true →
      string_forallb (λ c, bool_decide (c ≠ Ascii.zero)) (Secret cfg) = true → secret = Secret cfg)) ∧
  (∀ secret now' t c, ValidateToken jwt secret now' t = Ok c ↔
     ∃ a, decode jwt t = Some (SigningMethodHMAC a, c) ∧ verify jwt (SigningMethodHMAC a) secret t = true ∧
       claims_valid now' c = true).
Proof.
  intros E. split_and!.
  - intros now' c. rewrite (GenerateToken_spec jwt cfg now id username role token E). unfold token_claims.
    by rewrite !jwt_precision.
  - intros secret now' c Hv. pose proof (GenerateToken_other_key _ _ _ _ _ _ _ _ _ _ E Hv) as Hk.
    split; [done|]. intros. by eapply hmac_key_inj.
  - intros secret now' t c. by apply ValidateToken_spec.
Qed.

(** Registration, on each of its ways out: the only row ever added has the
    role [User] and a name nobody had; the answer is 201 with that row, 409 when
    the name is taken, and 500 with nothing stored for a password bcrypt refuses,
    such as any of more than 72 bytes. *)
Theorem Register_handler_correct bc `{!BcryptLaws bc} username password salt id now t :
  users_ok t → id ∉ ID <$> t →
  ∃ r t', Register_handler bc (Ok (username, password)) salt NoFault id now t = Ret r t' ∧ users_ok t' ∧
    match GenerateFromPassword bc password salt with
    | Err _ => t' = t ∧ r = a_error 500 "failed to create user"
    | Ok hash =>
        if bool_decide (username ∈ Username <$> t)
        then t' = t ∧ r = a_error 409 "username already exists"
        else t' = t ++ [mkUser id username hash UserRoleUser now now] ∧
             r = mkAReply 201 (ARegistered (mkRegisterResult (uuidToString id) username UserRoleUser))
    end ∧
    (72 < String.length password → t' = t ∧ r = a_error 500 "failed to create user").
Proof.
  intros Hok Hid. apply wp_run. unfold Register_handler. wp_step.
  eapply wp_mono; [by apply Register_user_spec|]. intros r t' (Hok' & _ & Hr). wp_steps.
  specialize (Hr eq_refl). split; [done|].
  assert (∀ hash, GenerateFromPassword bc password salt = Ok hash → 72 < String.length password → False) as Hl.
  { intros hash Hg Hlen. destruct (bcrypt_too_long password salt Hlen). congruence. }
  destruct r as [rr|e].
  - destruct Hr as (h & -> & Hg & Hn & ->). rewrite Hg, bool_decide_eq_false_2 by done.
    split; [done|]. intros Hlen. by destruct (Hl _ Hg).
  - destruct Hr as [-> [(h & Hg & -> & Hdup)|(e' & Hg & ->)]]; rewrite Hg.
    + rewrite bool_decide_eq_true_2 by naive_solver. split; [done|]. intros Hlen. by destruct (Hl _ Hg).
    + destruct (bcrypt_errors _ _ _ Hg) as [m ->]. done.
Qed.

(** ** A concrete token *)

Module ToyJWT.
Section Claims.
Context (c0 : Claims) (key : string).

(** A library that can make and read one token. *)
Definition lib : JWT :=
  let decode t := if decide (t = "token") then Some (SigningMethodHS256, c0) else None in
  let verify m k t := bool_decide (alg_of m = "HS256") && bool_decide (k = key) && bool_decide (t = "token") in
  mkJWT (λ t, t - t mod second)%Z
    (λ m c k, match m with
              | SigningMethodHMAC "HS256" =>
                  if bool_decide (UserID c = UserID c0) && bool_decide (c_Username c = c_Username c0)
                     && bool_decide (c_Role c = c_Role c0) && bool_decide (ExpiresAt c = ExpiresAt c0)
                     && bool_decide (c_NotBefore c = c_NotBefore c0)
                     && bool_decide (IssuedAt c = IssuedAt c0) && bool_decide (k = key)
                  then Ok "token" else Err (Errorf "unsupported claims")
              | _ => Err (Errorf "unsupported method")
              end)
    (λ keyfunc now t,
       match decode t with
       | None => Err (Errorf "token is malformed")
       | Some (m, c) =>
           match keyfunc m with
           | Err e => Err (Wrapf "token is unverifiable" e)
           | Ok k =>
               if verify m k t then
                 if claims_valid now c then Ok (c, true) else Err (Errorf "token has invalid claims")
               else Err (Errorf "signature is invalid")
           end
       end)
    decode verify (λ k, k).

#[export] Instance lib_laws : JWTLaws lib.
Proof.
  split; simpl.
  - done.
  - intros m c k t H. destruct m as [a|]; [|done]. unfold SigningMethodHS256.
    destruct (decide (a = "HS256")) as [->|Hne].
    + destruct (_ && _) eqn:E; [|done]. injection H as <-.
      rewrite !andb_true_iff, !bool_decide_eq_true in E. destruct c, c0; simpl in *.
      destruct E as ((((((-> & ->) & ->) & ->) & ->) & ->) & ->). split; [done|].
      by rewrite !bool_decide_eq_true_2.
    + exfalso. do 6 (destruct a as [|[[] [] [] [] [] [] [] []] a]; try done).
  - intros c k t k' H. destruct (_ && _) eqn:E; [|done]. injection H as <-.
    rewrite !andb_true_iff, !bool_decide_eq_true in E. destruct E as [_ ->].
    rewrite !andb_true_iff, !bool_decide_eq_true. by intros [-> _].
  - intros keyfunc now t c v. case_decide as Ht.
    + destruct (keyfunc SigningMethodHS256) as [k|e] eqn:Ek; simpl.
      2: { split; [done|]. intros (_ & m & k & [= <- <-] & Hk & _). congruence. }
      destruct (bool_decide (k = key) && bool_decide (t = "token")) eqn:Ev; simpl.
      2: { split; [done|]. intros (_ & m & k' & [= <- <-] & Hk & Hv & _).
           rewrite Hk in Ek. injection Ek as ->. simpl in Hv. congruence. }
      destruct (claims_valid now c0) eqn:Ec; split.
      * intros [= <- <-]. split; [done|]. exists SigningMethodHS256, k. by split_and!.
      * by intros (-> & m & k' & [= <- <-] & _).
      * done.
      * intros (-> & m & k' & [= <- <-] & _ & _ & Hx). congruence.
    + split; [done|]. by intros (_ & m & k & ? & _).
Qed.
End Claims.

Definition config : Config := mkConfig "signing key" 60.
(** Claims for bob, made in second 100. *)
Definition bobs : Claims :=
  mkClaims (uuidToString Toy.id2) "bob" UserRoleUser (Some ((100 + 3600) * second))%Z None (Some (100 * second)%Z).
Definition jwt : JWT := lib bobs "signing key".
#[global] Instance jwt_laws : JWTLaws jwt := lib_laws bobs "signing key".
End ToyJWT.

Lemma token_lifetime_witness :
  ValidateToken ToyJWT.jwt "signing key" (3699 * second + 999999999) "token" = Ok ToyJWT.bobs ∧
  (∀ c, ValidateToken ToyJWT.jwt "signing key" (3700 * second) "token" ≠ Ok c) ∧
  (∀ c, ValidateToken ToyJWT.jwt "another key" (200 * second) "token" ≠ Ok c).
Proof.
  assert (GenerateToken ToyJWT.jwt ToyJWT.config (100 * second) (uuidToString Toy.id2) "bob" UserRoleUser
          = Ok "token") as E by (vm_compute; reflexivity).
  destruct (token_lifetime ToyJWT.jwt ToyJWT.config _ _ _ _ _ E) as (H1 & H2 & _). split; [|split].
  - apply H1. vm_compute. split; reflexivity.
  - intros c Hc. destruct (proj1 (H1 _ _) Hc) as [_ H]. vm_compute in H. discriminate H.
  - intros c Hc. destruct (H2 _ _ _ Hc) as [H _]. vm_compute in H. discriminate H.
Defined.

Lemma Register_handler_correct_witness :
  ∃ r t', Register_handler Toy.bcrypt (Ok ("dan", "password")) "" NoFault "................" 40 Toy.three
            = Ret r t' ∧ users_ok t' ∧ length t' = 4.
Proof.
  destruct (Register_handler_correct Toy.bcrypt "dan" "password" "" "................" 40 Toy.three
              Toy.three_ok) as (r & t' & E & Hok & H & _).
  - apply (bool_decide_unpack _). by vm_compute.
  - exists r, t'. split; [exact E|]. split; [exact Hok|]. destruct H as [-> _]. reflexivity.
Defined.
