(* ===== verification/Middleware.v ===== *)
(** * The middleware

    Models [src/internal/api/http/middleware/auth.go].  A gin middleware here
    either calls [c.Next()] as the last thing it does, with the keys it has set, or
    answers and aborts the chain. *)
From stdpp Require Import base strings list gmap fin_maps.
From Stdlib Require Import ZArith Lia Ascii.
From S2P Require Import Prelude GoStd Http Users Auth.

(** ** The code *)

(** What a middleware does with the request. *)
Inductive flow : Type :=
  | Next (ctx : Keys)
  | Abort (status : Z) (msg : string).

Definition JWTAuth (jwt : JWT) (secret : string) (now : Z) (h : Header) (ctx : Keys) : flow :=
  let header := Header_Get "Authorization" h in
  if bool_decide (header = "") || negb (HasPrefix header "Bearer ")
  then Abort 401 "missing or invalid authorization header"
  else match ValidateToken jwt secret now (TrimPrefix header "Bearer ") with
       | Err _ => Abort 401 "invalid token"
       | Ok claims =>
           Next (<["role" := AnyString (c_Role claims)]>
                  (<["username" := AnyString (c_Username claims)]>
                    (<["user_id" := AnyString (UserID claims)]> ctx)))
       end.

Definition RequireRole (roles : list string) (ctx : Keys) : flow :=
  match ctx !! "role" with
  | Some (AnyString userRole) =>
      if bool_decide (userRole ∈ roles) then Next ctx else Abort 403 "forbidden"
  | _ => Abort 403 "forbidden"
  end.

Definition APIKeyAuth (apiKey : string) (h : Header) (ctx : Keys) : flow :=
  if bool_decide (apiKey = "") then Abort 503 "Admin API is not configured"
  else
    let providedKey := Header_Get "X-API-Key" h in
    if bool_decide (providedKey = "") then Abort 401 "Missing API key"
    else if bool_decide (providedKey ≠ apiKey) then Abort 401 "Invalid API key"
    else Next ctx.

(** The middleware a chain holds; the request logger (Logging.v) only
    logs and calls [c.Next()]. *)
Inductive middleware : Type :=
  | RequestLogger
  | MJWTAuth (secret : string)
  | MRequireRole (roles : list string)
  | MAPIKeyAuth (apiKey : string).

Definition run_middleware (jwt : JWT) (now : Z) (h : Header) (m : middleware) (ctx : Keys) : flow :=
  match m with
  | RequestLogger => Next ctx
  | MJWTAuth secret => JWTAuth jwt secret now h ctx
  | MRequireRole roles => RequireRole roles ctx
  | MAPIKeyAuth key => APIKeyAuth key h ctx
  end.

Fixpoint run_chain (jwt : JWT) (now : Z) (h : Header) (ms : list middleware) (ctx : Keys) : flow :=
  match ms with
  | [] => Next ctx
  | m :: ms' =>
      match run_middleware jwt now h m ctx with
      | Next ctx' => run_chain jwt now h ms' ctx'
      | Abort status msg => Abort status msg
      end
  end.

(** ** Facts *)

(** The request carries a bearer token that is accepted with these claims. *)
Definition presents (jwt : JWT) (secret : string) (now : Z) (h : Header) (c : Claims) : Prop :=
  ∃ token, Header_Get "Authorization" h = "Bearer " +:+ token ∧ ValidateToken jwt secret now token = Ok c.

Definition claim_keys (c : Claims) (ctx : Keys) : Keys :=
  <["role" := AnyString (c_Role c)]>
    (<["username" := AnyString (c_Username c)]> (<["user_id" := AnyString (UserID c)]> ctx)).

Lemma JWTAuth_spec jwt secret now h ctx :
  match JWTAuth jwt secret now h ctx with
  | Next ctx' => ∃ c, presents jwt secret now h c ∧ ctx' = claim_keys c ctx
  | Abort status _ => status = 401%Z ∧ ¬ ∃ c, presents jwt secret now h c
  end.
Proof.
  unfold JWTAuth. destruct (bool_decide (Header_Get "Authorization" h = "")) eqn:E0; simpl.
  { apply bool_decide_eq_true in E0. split; [done|]. intros (c & token & E & _). by rewrite E0 in E. }
  destruct (HasPrefix (Header_Get "Authorization" h) "Bearer ") eqn:Ep; simpl.
  2: { split; [done|]. intros (c & token & E & _). by rewrite E, HasPrefix_app in Ep. }
  destruct (ValidateToken _ _ _ _) as [c|e] eqn:Ev.
  - exists c. split; [|done]. eexists. split; [|exact Ev]. by apply HasPrefix_inv.
  - split; [done|]. intros (c & token & E & Hv). rewrite E, TrimPrefix_app in Ev. congruence.
Qed.

Lemma JWTAuth_accepts jwt secret now h ctx c :
  presents jwt secret now h c → JWTAuth jwt secret now h ctx = Next (claim_keys c ctx).
Proof.
  intros Hp. pose proof (JWTAuth_spec jwt secret now h ctx) as Hs.
  destruct (JWTAuth _ _ _ _ _) as [ctx'|st msg]; [|by destruct Hs as [_ []]; exists c].
  destruct Hs as (c' & (t' & E' & V') & ->). destruct Hp as (t & E & V). rewrite E in E'.
  apply (inj _) in E' as ->. rewrite V in V'. by injection V' as ->.
Qed.

Lemma APIKeyAuth_spec apiKey h ctx :
  match APIKeyAuth apiKey h ctx with
  | Next ctx' => ctx' = ctx ∧ apiKey ≠ "" ∧ Header_Get "X-API-Key" h = apiKey
  | Abort status _ => status = (if decide (apiKey = "") then 503 else 401)%Z ∧
      (apiKey = "" ∨ Header_Get "X-API-Key" h ≠ apiKey)
  end.
Proof.
  unfold APIKeyAuth. destruct (decide (apiKey = "")) as [->|Ha]; [by rewrite bool_decide_eq_true_2; auto|].
  rewrite bool_decide_eq_false_2 by done. repeat case_bool_decide; naive_solver.
Qed.
