(* ===== verification/Router.v ===== *)
(** * The HTTP API

    Models [src/internal/api/http/router.go]: the table of routes with the
    middleware in front of each, and the application behind it, which composes the
    users table, the certificate and provisioning endpoints and the gRPC server;
    with the handlers of [src/internal/api/http/handler/admin.go] and [health.go].
    How gin finds the route of a request is a parameter. *)
From stdpp Require Import base strings list gmap fin_maps.
From Stdlib Require Import ZArith Lia Ascii.
From S2P Require Import Prelude GoStd Http ServerInterface ConnectionManager GrpcServer.
From S2P Require Import KeyStore FileSystem CertService CertHandler ProvisionHandler.
From S2P Require Import Users Auth Middleware.

(** ** Routes *)

Inductive endpoint : Type :=
  | Health_Check
  | Auth_Register
  | Auth_Login
  | User_DeleteUser
  | User_ListUsers
  | Admin_ListAgents
  | Cert_CreateAgentCertificate
  | Cert_GetAgentCertificate
  | Cert_DeleteAgentCertificate
  | Provision_CreateProvisionKey
  | Provision_ListProvisionKeys
  | Provision_RevokeProvisionKey
  | Provision_Provision.

Record Route : Type := mkRoute {
  rt_Method : string;
  rt_Path : string;
  rt_Chain : list middleware;
  rt_Endpoint : endpoint;
}.

(** [grpc] and [keys]: whether [srvs.GrpcServer] and [srvs.KeyStore] are set.  A
    group's routes get the middleware of the groups around them, outermost first. *)
Definition SetupRoute (grpc keys : bool) (adminAPIKey jwtSecret : string) : list Route :=
  let engine := [RequestLogger] in
  let usersGroup := engine ++ [MJWTAuth jwtSecret] in
  let certRoutes := engine ++ [MAPIKeyAuth adminAPIKey] in
  let provisionAdmin := engine ++ [MAPIKeyAuth adminAPIKey] in
  [mkRoute "GET" "/health" engine Health_Check;
   mkRoute "POST" "/auth/register" engine Auth_Register;
   mkRoute "POST" "/auth/login" engine Auth_Login;
   mkRoute "DELETE" "/users/me" usersGroup User_DeleteUser;
   mkRoute "GET" "/users" (usersGroup ++ [MRequireRole ["Admin"]]) User_ListUsers] ++
  (if grpc then [mkRoute "GET" "/agents" engine Admin_ListAgents] else []) ++
  [mkRoute "POST" "/agents/:id/certificate" certRoutes Cert_CreateAgentCertificate;
   mkRoute "GET" "/agents/:id/certificate" certRoutes Cert_GetAgentCertificate;
   mkRoute "DELETE" "/agents/:id/certificate" certRoutes Cert_DeleteAgentCertificate] ++
  (if keys then
     [mkRoute "POST" "/api/v1/provision-keys" provisionAdmin Provision_CreateProvisionKey;
      mkRoute "GET" "/api/v1/provision-keys" provisionAdmin Provision_ListProvisionKeys;
      mkRoute "DELETE" "/api/v1/provision-keys/:id" provisionAdmin Provision_RevokeProvisionKey;
      mkRoute "POST" "/api/v1/provision" engine Provision_Provision]
   else []).

(** The engine of the agent's own HTTP server, in [src/cmd/silo-proxy-agent/main.go]. *)
Definition agent_routes : list Route :=
  let engine := [RequestLogger] in
  [mkRoute "GET" "/health" engine Health_Check].

(** The route gin chooses for a method and a path, with the value of [:id]. *)
Definition matcher : Type := list Route → string → string → option (Route * string).

Definition static_path (p : string) : bool :=
  string_forallb (λ c, bool_decide (c ≠ ":"%char) && bool_decide (c ≠ "*"%char)) p.

(** Only registered routes are chosen, for their own method; a path without
    parameters that one route registered is that route's. *)
Class GinLaws (gin : matcher) : Prop := {
  gin_registered : ∀ rs m p rt id, gin rs m p = Some (rt, id) → rt ∈ rs ∧ rt_Method rt = m;
  gin_static : ∀ rs rt, rt ∈ rs → static_path (rt_Path rt) = true →
    (∀ rt', rt' ∈ rs → rt_Method rt' = rt_Method rt → rt_Path rt' = rt_Path rt → rt' = rt) →
    gin rs (rt_Method rt) (rt_Path rt) = Some (rt, "");
}.

(** ** Requests and what a call draws from the outside *)

Record HttpRequest : Type := mkHttp {
  q_Method : string;
  q_Path : string;
  q_Header : Header;
  q_Query : gmap string string;
  q_Account : result (string * string);   (** the body bound as a username and a password *)
  q_AgentID : result string;              (** ... as [CreateProvisionKeyRequest] *)
  q_Key : result string;                  (** ... as [ProvisionRequest] *)
}.

Record World : Type := mkWorld {
  w_now : Z;
  w_rnd : Random;
  w_random : result bytes;
  w_salt : bytes;
  w_id : bytes;
  w_fault1 : db_fault;
  w_fault2 : db_fault;
  w_rows : Table;              (** the users in the order the database lists them *)
  w_keys : list string;        (** the iteration orders of the key and agent maps *)
  w_agents : list string;
}.

Record AgentInfo : Type := mkAgentInfo { ai_AgentID : string; ai_Port : Z; ai_LastSeen : Z }.

Inductive Response : Type :=
  | RNotFound
  | RAborted (status : Z) (msg : string)
  | RHealth
  | RAuth (r : AuthReply)
  | RUser (r : UserReply)
  | RAgents (agents : list AgentInfo)
  | RCert (r : CertReply)
  | RProvision (r : ProvisionReply).

Definition Status (r : Response) : Z :=
  match r with
  | RNotFound => 404
  | RAborted s _ => s
  | RHealth | RAgents _ => 200
  | RAuth r => a_Status r
  | RUser r => u_Status r
  | RCert r => cr_Status r
  | RProvision r => pr_Status r
  end.

(** ** The application *)

Section App.
Context {S : Type} `{AgentServerOps S}.

Record App : Type := mkApp {
  app_users : Table;
  app_prov : Provisioning;          (** the key store and the certificate files *)
  app_grpc : GrpcServer.Server S;
}.

Definition in_users {A} : M Table A → M App A :=
  zoom app_users (λ t a, mkApp t (app_prov a) (app_grpc a)).
Definition in_prov {A} : M Provisioning A → M App A :=
  zoom app_prov (λ p a, mkApp (app_users a) p (app_grpc a)).
Definition in_grpc {A} : M (GrpcServer.Server S) A → M App A :=
  zoom app_grpc (λ g a, mkApp (app_users a) (app_prov a) g).

(** The loop of [ListAgents]. *)
Fixpoint list_agents (agentIDs : list string) : M (ConnectionManager S) (list AgentInfo) :=
  match agentIDs with
  | [] => mret []
  | agentID :: rest =>
      conn ← GetConnection agentID;
      infos ← list_agents rest;
      mret (match conn with
            | Some c => [mkAgentInfo (ConnectionManager.ID c) (ConnectionManager.Port c) (LastSeen c)]
            | None => []
            end ++ infos)
  end.

Definition ListAgents (order : list string) : M (ConnectionManager S) (list AgentInfo) :=
  agentIDs ← ListConnections order;
  list_agents agentIDs.

Context (bc : Bcrypt) (jwt : JWT) (uuid_Parse : uuid_parser) (config : Config) (svc : option Service).

(** The handler of a route, with the keys its middleware set and the [:id]. *)
Definition run_endpoint (w : World) (q : HttpRequest) (id : string) (ctx : Keys) (e : endpoint) :
    M App Response :=
  match e with
  | Health_Check => mret RHealth
  | Auth_Register =>
      r ← in_users (Register_handler bc (q_Account q) (w_salt w) (w_fault1 w) (w_id w) (w_now w));
      mret (RAuth r)
  | Auth_Login =>
      r ← in_users (Login_handler bc jwt config (q_Account q) (w_fault1 w) (w_now w)); mret (RAuth r)
  | User_DeleteUser =>
      r ← in_users (DeleteUser_handler uuid_Parse (w_fault1 w) ctx); mret (RUser r)
  | User_ListUsers =>
      r ← in_users (ListUsers_handler (w_fault1 w) (w_fault2 w) (w_rows w) (q_Query q)); mret (RUser r)
  | Admin_ListAgents =>
      r ← in_grpc (in_cm (ListAgents (w_agents w))); mret (RAgents r)
  | Cert_CreateAgentCertificate =>
      r ← in_prov (on_disk (CreateAgentCertificate svc (w_rnd w) (w_now w) id)); mret (RCert r)
  | Cert_GetAgentCertificate =>
      r ← in_prov (on_disk (GetAgentCertificate svc id)); mret (RCert r)
  | Cert_DeleteAgentCertificate =>
      r ← in_prov (on_disk (DeleteAgentCertificate svc id)); mret (RCert r)
  | Provision_CreateProvisionKey =>
      r ← in_prov (CreateProvisionKey (q_AgentID q) (w_random w) (w_now w)); mret (RProvision r)
  | Provision_ListProvisionKeys =>
      r ← in_prov (ListProvisionKeys (w_keys w) (w_now w)); mret (RProvision r)
  | Provision_RevokeProvisionKey =>
      r ← in_prov (RevokeProvisionKey (w_keys w) id); mret (RProvision r)
  | Provision_Provision =>
      r ← in_prov (Provision svc (q_Key q) (w_rnd w) (w_now w)); mret (RProvision r)
  end.

(** Serve one request: find the route, run its middleware, then its handler.  A
    request without a route is answered by gin alone ([RNotFound]; gin redirects
    one that differs from a route by a trailing slash). *)
Definition serve (gin : matcher) (routes : list Route) (w : World) (q : HttpRequest) : M App Response :=
  match gin routes (q_Method q) (q_Path q) with
  | None => mret RNotFound
  | Some (rt, id) =>
      match run_chain jwt (w_now w) (q_Header q) (rt_Chain rt) ∅ with
      | Abort status msg => mret (RAborted status msg)
      | Next ctx => run_endpoint w q id ctx (rt_Endpoint rt)
      end
  end.
End App.
Arguments App S : clear implicits.

(** ** What each endpoint asks for *)

Inductive guard : Type :=
  | Open
  | NeedsKey
  | NeedsToken (roles : option (list string)).

Definition guard_of (e : endpoint) : guard :=
  match e with
  | Health_Check | Auth_Register | Auth_Login | Admin_ListAgents | Provision_Provision => Open
  | User_DeleteUser => NeedsToken None
  | User_ListUsers => NeedsToken (Some ["Admin"])
  | _ => NeedsKey
  end.

(** The role a guard asks for, if any. *)
Definition role_allowed (roles : option (list string)) (c : Claims) : bool :=
  match roles with Some l => bool_decide (c_Role c ∈ l) | None => true end.

(** The request carries the configured key. *)
Definition has_key (adminAPIKey : string) (h : Header) : Prop :=
  adminAPIKey ≠ "" ∧ Header_Get "X-API-Key" h = adminAPIKey.

Section Proofs.
Context {S : Type} `{AgentServerOps S}.
Context (bc : Bcrypt) (jwt : JWT) (uuid_Parse : uuid_parser) (config : Config) (svc : option Service).
Context (gin : matcher) `{!BcryptLaws bc, !JWTLaws jwt, !UuidLaws uuid_Parse, !GinLaws gin}.
Implicit Types (a : App S) (w : World) (q : HttpRequest).

Notation run := (run_endpoint bc jwt uuid_Parse config svc).
Notation serve_ := (serve bc jwt uuid_Parse config svc gin).

(** The middleware in front of a route. *)
Lemma route_chain grpc keys adminAPIKey secret rt :
  rt ∈ SetupRoute grpc keys adminAPIKey secret →
  rt_Chain rt = RequestLogger ::
    match guard_of (rt_Endpoint rt) with
    | Open => []
    | NeedsKey => [MAPIKeyAuth adminAPIKey]
    | NeedsToken None => [MJWTAuth secret]
    | NeedsToken (Some roles) => [MJWTAuth secret; MRequireRole roles]
    end.
Proof.
  unfold SetupRoute. rewrite !elem_of_app. destruct grpc, keys;
    rewrite ?elem_of_cons, ?elem_of_nil; intros Hin; by repeat destruct Hin as [->|Hin] || destruct Hin as [Hin|Hin].
Qed.

Lemma run_chain_key now h key :
  match run_chain jwt now h [RequestLogger; MAPIKeyAuth key] ∅ with
  | Next ctx => ctx = ∅ ∧ has_key key h
  | Abort status _ => status = (if decide (key = "") then 503 else 401)%Z ∧ ¬ has_key key h
  end.
Proof.
  simpl. pose proof (APIKeyAuth_spec key h ∅). unfold has_key. destruct (APIKeyAuth _ _ _); naive_solver.
Qed.

Lemma run_chain_token now h secret :
  match run_chain jwt now h [RequestLogger; MJWTAuth secret] ∅ with
  | Next ctx => ∃ c, presents jwt secret now h c ∧ ctx = claim_keys c ∅
  | Abort status _ => status = 401%Z ∧ ¬ ∃ c, presents jwt secret now h c
  end.
Proof. simpl. pose proof (JWTAuth_spec jwt secret now h ∅). by destruct (JWTAuth _ _ _ _ _). Qed.

Lemma run_chain_role now h secret roles :
  match run_chain jwt now h [RequestLogger; MJWTAuth secret; MRequireRole roles] ∅ with
  | Next ctx => ∃ c, presents jwt secret now h c ∧ c_Role c ∈ roles ∧ ctx = claim_keys c ∅
  | Abort status _ =>
      status = 401%Z ∧ (¬ ∃ c, presents jwt secret now h c) ∨
      status = 403%Z ∧ ∃ c, presents jwt secret now h c ∧ c_Role c ∉ roles
  end.
Proof.
  cbn [run_chain run_middleware]. pose proof (JWTAuth_spec jwt secret now h ∅) as Hs.
  destruct (JWTAuth _ _ _ _ _) as [ctx|st msg]; [|by left].
  destruct Hs as (c & Hc & ->). unfold RequireRole, claim_keys. rewrite lookup_insert_eq.
  case_bool_decide; [by exists c|]. right. split; [done|]. by exists c.
Qed.
Lemma presents_unique secret now h c c' :
  presents jwt secret now h c → presents jwt secret now h c' → c = c'.
Proof.
  intros (t & E & V) (t' & E' & V'). rewrite E in E'. apply (inj _) in E' as ->. congruence.
Qed.

(** A request that no route matches, or that its route's middleware stops. *)
Lemma serve_inv routes w q a r a' :
  serve_ routes w q a = Ret r a' →
  a' = a ∧ (r = RNotFound ∨ ∃ st msg, r = RAborted st msg) ∨
  ∃ rt id ctx, rt ∈ routes ∧ run_chain jwt (w_now w) (q_Header q) (rt_Chain rt) ∅ = Next ctx ∧
    run w q id ctx (rt_Endpoint rt) a = Ret r a'.
Proof.
  unfold serve. destruct (gin routes (q_Method q) (q_Path q)) as [[rt id]|] eqn:Eg.
  2: { intros [= <- <-]. left. auto. }
  apply gin_registered in Eg as [Hin _].
  destruct (run_chain _ _ _ _ _) as [ctx|st msg] eqn:Ec.
  - intros E. right. by exists rt, id, ctx.
  - intros [= <- <-]. left. split; [done|]. right. by exists st, msg.
Qed.

Lemma in_users_Ret {A} (m : M Table A) (k : A → Response) a r a' :
  (x ← in_users m; mret (k x)) a = Ret r a' →
  ∃ x, m (app_users a) = Ret x (app_users a') ∧ r = k x ∧
       app_prov a' = app_prov a ∧ app_grpc a' = app_grpc a.
Proof.
  unfold mbind, M_bind, in_users, zoom, mret, M_ret. destruct (m (app_users a)) as [x t| |]; [|done..].
  intros [= <- <-]. by exists x.
Qed.

Lemma in_prov_Ret {A} (m : M Provisioning A) (k : A → Response) a r a' :
  (x ← in_prov m; mret (k x)) a = Ret r a' →
  ∃ x, m (app_prov a) = Ret x (app_prov a') ∧ r = k x ∧
       app_users a' = app_users a ∧ app_grpc a' = app_grpc a.
Proof.
  unfold mbind, M_bind, in_prov, zoom, mret, M_ret. destruct (m (app_prov a)) as [x t| |]; [|done..].
  intros [= <- <-]. by exists x.
Qed.

(** Listing the agents reads only. *)
Lemma list_agents_run ids (cm : ConnectionManager S) :
  list_agents ids cm = Ret (omap (λ id, c ← agents cm !! id ≫= λ ptr, conns cm !! ptr;
      Some (mkAgentInfo (ConnectionManager.ID c) (ConnectionManager.Port c) (LastSeen c))) ids) cm.
Proof.
  induction ids as [|id ids IH]; [done|]. cbn [list_agents omap list_omap].
  unfold mbind at 1 2, M_bind, GetConnection, gets. rewrite IH. unfold mret, M_ret.
  destruct (agents cm !! id) as [ptr|]; simpl; [|done]. by destruct (conns cm !! ptr).
Qed.
Lemma ListAgents_run order (cm : ConnectionManager S) : ∃ l, ListAgents order cm = Ret l cm.
Proof. eexists. unfold ListAgents, ListConnections, mbind, M_bind, gets. apply list_agents_run. Qed.
End Proofs.

(** ** Properties *)

(** C13: every route is guarded as [guard_of] says.  The certificate and key
    administration routes run their handler exactly for requests that carry the
    configured API key, and answer 401 (503 when none is configured) to all others;
    the user routes run theirs exactly for an accepted bearer token, with its
    claims and, for the list, the Admin role; a refused request changes nothing. *)
Theorem guarded_routes {S} `{AgentServerOps S} bc jwt `{!JWTLaws jwt} uuid_Parse config svc
    gin `{!GinLaws gin} grpc keys adminAPIKey secret rt id w q (a : App S) :
  let routes := SetupRoute grpc keys adminAPIKey secret in
  gin routes (q_Method q) (q_Path q) = Some (rt, id) →
  let result := serve bc jwt uuid_Parse config svc gin routes w q a in
  let handled ctx := result = run_endpoint bc jwt uuid_Parse config svc w q id ctx (rt_Endpoint rt) a in
  let refused status := ∃ msg, result = Ret (RAborted status msg) a in
  let shows := presents jwt secret (w_now w) (q_Header q) in
  match guard_of (rt_Endpoint rt) with
  | Open => handled ∅
  | NeedsKey =>
      (has_key adminAPIKey (q_Header q) → handled ∅) ∧
      (¬ has_key adminAPIKey (q_Header q) → refused (if decide (adminAPIKey = "") then 503 else 401)%Z)
  | NeedsToken roles =>
      (∀ c, shows c → if role_allowed roles c
                      then handled (claim_keys c ∅) else refused 403%Z) ∧
      ((¬ ∃ c, shows c) → refused 401%Z)
  end.
Proof.
  intros routes Eg result handled refused shows. subst handled refused shows.
  pose proof (gin_registered _ _ _ _ _ Eg) as [Hin _]. pose proof (route_chain _ _ _ _ _ Hin) as Hc.
  assert (result = match run_chain jwt (w_now w) (q_Header q) (rt_Chain rt) ∅ with
    | Abort status msg => Ret (RAborted status msg) a
    | Next ctx => run_endpoint bc jwt uuid_Parse config svc w q id ctx (rt_Endpoint rt) a end) as ->.
  { unfold result, serve. rewrite Eg. by destruct (run_chain _ _ _ _ _). }
  rewrite Hc. destruct (guard_of (rt_Endpoint rt)) as [| |[roles|]]; [done|..].
  - pose proof (run_chain_key jwt (w_now w) (q_Header q) adminAPIKey) as Hk.
    destruct (run_chain _ _ _ _ _); [naive_solver|]. destruct Hk as [-> Hk]. split; [done|]. by eexists.
  - pose proof (run_chain_role jwt (w_now w) (q_Header q) secret roles) as Hk.
    destruct (run_chain _ _ _ _ _) as [ctx|st msg]; simpl.
    + destruct Hk as (c & Hp & Hr & ->). split; [|intros []; by exists c].
      intros c' Hp'. rewrite (presents_unique jwt _ _ _ _ _ Hp' Hp). by rewrite bool_decide_eq_true_2.
    + destruct Hk as [[-> Hno]|[-> (c & Hp & Hr)]].
      * split; [intros c Hp; by destruct Hno; exists c|by eexists].
      * split; [|intros []; by exists c].
        intros c' Hp'. rewrite (presents_unique jwt _ _ _ _ _ Hp' Hp), bool_decide_eq_false_2 by done. by eexists.
  - pose proof (run_chain_token jwt (w_now w) (q_Header q) secret) as Hk.
    destruct (run_chain _ _ _ _ _) as [ctx|st msg]; simpl.
    + destruct Hk as (c & Hp & ->). split; [|intros []; by exists c].
      intros c' Hp'. by rewrite (presents_unique jwt _ _ _ _ _ Hp' Hp).
    + destruct Hk as [-> Hno]. split; [intros c Hp; by destruct Hno; exists c|by eexists].
Qed.

(** C23: what a request without credentials can do.  With neither the API key nor an
    accepted token, whatever the route, the connected agents stay as they are; the
    users table changes at most by one new row, which has the role [User]; and the
    key store and the certificate files change only for a request that presents a
    provisioning key the store accepts. *)
Theorem anonymous_requests {S} `{AgentServerOps S} bc `{!BcryptLaws bc} jwt `{!JWTLaws jwt} uuid_Parse
    config svc gin `{!GinLaws gin} grpc keys adminAPIKey secret w q (a : App S) r a' :
  users_ok (app_users a) → keys_valid (keyStore (app_prov a)) →
  ¬ has_key adminAPIKey (q_Header q) → (¬ ∃ c, presents jwt secret (w_now w) (q_Header q) c) →
  serve bc jwt uuid_Parse config svc gin (SetupRoute grpc keys adminAPIKey secret) w q a = Ret r a' →
  app_grpc a' = app_grpc a ∧
  (app_users a' = app_users a ∨ ∃ u, app_users a' = app_users a ++ [u] ∧ Users.Role u = UserRoleUser) ∧
  (app_prov a' = app_prov a ∨
   ∃ key pk, q_Key q = Ok key ∧
     Validate key (w_now w) (keyStore (app_prov a)) = Ret (Ok pk) (keyStore (app_prov a))).
Proof.
  intros Hu Hk Hnk Hnt Hs. destruct (serve_inv _ _ _ _ _ _ _ _ _ _ _ _ Hs) as [[-> _]|(rt & id & ctx & Hin & Hc & Hr)].
  { split_and?; auto. }
  rewrite (route_chain _ _ _ _ _ Hin) in Hc. destruct (rt_Endpoint rt); simpl guard_of in *; cbv iota in Hc.
  all: try (pose proof (run_chain_key jwt (w_now w) (q_Header q) adminAPIKey) as Hx; rewrite Hc in Hx; naive_solver).
  all: try (pose proof (run_chain_token jwt (w_now w) (q_Header q) secret) as Hx; rewrite Hc in Hx; naive_solver).
  all: try (pose proof (run_chain_role jwt (w_now w) (q_Header q) secret ["Admin"]) as Hx; rewrite Hc in Hx; naive_solver).
  all: cbn [run_endpoint] in Hr.
  - injection Hr as <- <-. split_and?; auto.
  - apply in_users_Ret in Hr as (x & E & -> & Ep & Eg). rewrite Ep, Eg. split_and?; auto.
    unfold Register_handler in E. destruct (q_Account q) as [[un pw]|e]; [|injection E as _ <-; by left].
    pose proof (Register_user_spec bc (w_salt w) (w_fault1 w) (w_id w) (w_now w) un pw _ Hu) as Hsp.
    unfold mbind, M_bind, wp in *. destruct (Register _ _ _ _ _ _ _ _) as [x' t'| |]; [|done..].
    injection E as _ <-. destruct Hsp as (_ & [->|(h & _ & _ & ->)] & _); [by left|]. right. by eexists.
  - apply in_users_Ret in Hr as (x & E & -> & Ep & Eg). rewrite Ep, Eg. split_and?; auto. left.
    unfold Login_handler in E. destruct (q_Account q) as [[un pw]|e]; [|by injection E as _ <-].
    unfold Login, GetUserByUsername, query, mbind, M_bind, gets, mret, M_ret in E.
    destruct (w_fault1 w); by injection E as _ <-.
  - destruct (ListAgents_run (w_agents w) (connManager (app_grpc a))) as [l El].
    unfold mbind, M_bind, in_grpc, in_cm, zoom in Hr. rewrite El in Hr. injection Hr as <- <-. simpl. split_and?; auto.
    by destruct a as [? ? []].
  - apply in_prov_Ret in Hr as (x & E & -> & Eu & Eg). rewrite Eu, Eg. split_and?; auto.
    destruct svc as [s|]; [|injection E as _ <-; by left].
    destruct (q_Key q) as [key|e] eqn:Eq; [|injection E as _ <-; by left].
    destruct (Validate_run key (w_now w) (keyStore (app_prov a))) as (v & Ev & _).
    destruct v as [pk|e]; [right; by exists key, pk|]. left.
    pose proof (wp_Ret _ _ _ _ _ (Provision_spec s key (w_rnd w) (w_now w) _ Hk) E) as (Hp & _ & H401 & _).
    specialize (H401 e Ev). unfold provisioned in Hp. rewrite H401 in Hp. by destruct Hp as [-> _].
Qed.

(** The agent's HTTP server answers the health check and nothing else, and changes
    nothing. *)
Theorem agent_serves_health {S} `{AgentServerOps S} bc jwt uuid_Parse config svc
    gin `{!GinLaws gin} w q (a : App S) :
  ∃ r, serve bc jwt uuid_Parse config svc gin agent_routes w q a = Ret r a ∧
    (r = RHealth ∧ q_Method q = "GET" ∨ r = RNotFound) ∧
    (q_Method q = "GET" → q_Path q = "/health" → r = RHealth).
Proof.
  unfold serve. destruct (gin agent_routes (q_Method q) (q_Path q)) as [[rt id]|] eqn:Eg.
  - apply gin_registered in Eg as [->%list_elem_of_singleton Em]. exists RHealth. simpl in Em.
    split; [done|]. split; [by left|done].
  - exists RNotFound. split; [done|]. split; [by right|]. intros Em Ep. exfalso.
    pose proof (gin_static agent_routes (mkRoute "GET" "/health" [RequestLogger] Health_Check)) as Hs.
    rewrite Em, Ep in Eg. simpl in Hs. rewrite Eg in Hs. discriminate Hs; [set_solver|done|].
    by intros rt' ->%list_elem_of_singleton.
Qed.

(** *** The life of an account *)

Section Account.
Context {S : Type} `{AgentServerOps S}.
Context (bc : Bcrypt) (jwt : JWT) (uuid_Parse : uuid_parser) (config : Config) (svc : option Service).
Context (gin : matcher) `{!BcryptLaws bc, !JWTLaws jwt, !UuidLaws uuid_Parse, !GinLaws gin}.
Context (grpc keys : bool) (adminAPIKey secret : string).
Implicit Types (a : App S) (w : World) (q : HttpRequest).

Notation routes := (SetupRoute grpc keys adminAPIKey secret).
Notation serve_ := (serve bc jwt uuid_Parse config svc gin routes).

Lemma routes_distinct : NoDup ((λ rt, (rt_Method rt, rt_Path rt)) <$> routes).
Proof. destruct grpc, keys; apply (bool_decide_unpack _); by vm_compute. Qed.

Lemma route_unique rt rt' :
  rt ∈ routes → rt' ∈ routes → rt_Method rt' = rt_Method rt → rt_Path rt' = rt_Path rt → rt' = rt.
Proof.
  intros [i Hi]%list_elem_of_lookup [j Hj]%list_elem_of_lookup Em Ep.
  assert (i = j) as ->; [|congruence].
  apply (NoDup_lookup _ i j (rt_Method rt, rt_Path rt) routes_distinct);
    rewrite list_lookup_fmap, ?Hi, ?Hj; simpl; congruence.
Qed.

(** A path without parameters reaches its route. *)
Lemma serve_static rt w q a :
  rt ∈ routes → static_path (rt_Path rt) = true → q_Method q = rt_Method rt → q_Path q = rt_Path rt →
  serve_ w q a = match run_chain jwt (w_now w) (q_Header q) (rt_Chain rt) ∅ with
    | Abort status msg => Ret (RAborted status msg) a
    | Next ctx => run_endpoint bc jwt uuid_Parse config svc w q "" ctx (rt_Endpoint rt) a
    end.
Proof.
  intros Hin Hst Em Ep. unfold serve. rewrite Em, Ep, gin_static; [by destruct (run_chain _ _ _ _ _)|done..|].
  intros rt' Hin'. by apply route_unique.
Qed.

Lemma serve_register w q a :
  q_Method q = "POST" → q_Path q = "/auth/register" →
  serve_ w q a = run_endpoint bc jwt uuid_Parse config svc w q "" ∅ Auth_Register a.
Proof.
  intros. apply (serve_static (mkRoute "POST" "/auth/register" [RequestLogger] Auth_Register)); try done.
  unfold SetupRoute. set_solver.
Qed.

Lemma serve_login w q a :
  q_Method q = "POST" → q_Path q = "/auth/login" →
  serve_ w q a = run_endpoint bc jwt uuid_Parse config svc w q "" ∅ Auth_Login a.
Proof.
  intros. apply (serve_static (mkRoute "POST" "/auth/login" [RequestLogger] Auth_Login)); try done.
  unfold SetupRoute. set_solver.
Qed.

Lemma serve_delete w q a c :
  q_Method q = "DELETE" → q_Path q = "/users/me" → presents jwt secret (w_now w) (q_Header q) c →
  serve_ w q a = run_endpoint bc jwt uuid_Parse config svc w q "" (claim_keys c ∅) User_DeleteUser a.
Proof.
  intros Em Ep Hc.
  rewrite (serve_static (mkRoute "DELETE" "/users/me" [RequestLogger; MJWTAuth secret] User_DeleteUser));
    [|unfold SetupRoute; set_solver|done..].
  cbn [rt_Chain run_chain run_middleware]. by rewrite (JWTAuth_accepts _ _ _ _ _ _ Hc).
Qed.

(** Deleting the account a token names. *)
Lemma delete_me_run w q a c id :
  UserID c = uuidToString id → String.length id = 16 → w_fault1 w = NoFault →
  run_endpoint bc jwt uuid_Parse config svc w q "" (claim_keys c ∅) User_DeleteUser a =
    Ret (RUser (mkUReply 204 UNothing))
        (mkApp (filter (λ u, Users.ID u ≠ id) (app_users a)) (app_prov a) (app_grpc a)).
Proof.
  intros Ec Hid Hf. cbn [run_endpoint]. unfold DeleteUser_handler, claim_keys.
  rewrite lookup_insert_ne, lookup_insert_ne, lookup_insert_eq by done. rewrite Ec, Hf.
  unfold DeleteUser. rewrite uuid_parses by done.
  unfold try, DeleteUser_query, query, mbind, M_bind, in_users, zoom, modify, mret, M_ret. done.
Qed.

Lemma login_run w q a un pw r :
  q_Account q = Ok (un, pw) → w_fault1 w = NoFault →
  Login bc jwt config NoFault (w_now w) un pw (app_users a) = Ret r (app_users a) →
  run_endpoint bc jwt uuid_Parse config svc w q "" ∅ Auth_Login a =
    Ret (RAuth (match r with
      | Err e => if errors_Is e ErrInvalidCredentials then a_error 401 "invalid credentials"
                 else a_error 500 "internal error"
      | Ok token => mkAReply 200 (AToken token) end)) a.
Proof.
  intros Eq Ef El. cbn [run_endpoint]. unfold Login_handler. rewrite Eq, Ef.
  unfold mbind, M_bind, in_users, zoom. rewrite El. unfold mret, M_ret. by destruct a.
Qed.
End Account.

(** C31: an account's life.  A user who registers with a new name and then logs in
    with the password gets a token; while it is valid, [DELETE /users/me] with it
    answers 204 and puts the application back into the state before registration,
    so that logging in is refused; and the token goes on being accepted. *)
Theorem account_lifecycle {S} `{AgentServerOps S} bc `{!BcryptLaws bc} jwt `{!JWTLaws jwt}
    uuid_Parse `{!UuidLaws uuid_Parse} config svc gin `{!GinLaws gin} grpc keys adminAPIKey
    w1 w2 w3 q1 q2 q3 (a : App S) username password hash token :
  users_ok (app_users a) → username ∉ Username <$> app_users a → w_id w1 ∉ Users.ID <$> app_users a →
  String.length (w_id w1) = 16 → w_fault1 w1 = NoFault → w_fault1 w2 = NoFault → w_fault1 w3 = NoFault →
  GenerateFromPassword bc password (w_salt w1) = Ok hash →
  GenerateToken jwt config (w_now w2) (uuidToString (w_id w1)) username UserRoleUser = Ok token →
  (w_now w3 ≤ w_now w2 + expiration config - Auth.second)%Z →
  q_Method q1 = "POST" → q_Path q1 = "/auth/register" → q_Account q1 = Ok (username, password) →
  q_Method q2 = "POST" → q_Path q2 = "/auth/login" → q_Account q2 = Ok (username, password) →
  q_Method q3 = "DELETE" → q_Path q3 = "/users/me" →
  Header_Get "Authorization" (q_Header q3) = "Bearer " +:+ token →
  let serve_ := serve bc jwt uuid_Parse config svc gin
                  (SetupRoute grpc keys adminAPIKey (Secret config)) in
  ∃ a1,
    serve_ w1 q1 a = Ret (RAuth (mkAReply 201 (ARegistered
      (mkRegisterResult (uuidToString (w_id w1)) username UserRoleUser)))) a1 ∧
    serve_ w2 q2 a1 = Ret (RAuth (mkAReply 200 (AToken token))) a1 ∧
    serve_ w3 q3 a1 = Ret (RUser (mkUReply 204 UNothing)) a ∧
    serve_ w2 q2 a = Ret (RAuth (a_error 401 "invalid credentials")) a ∧
    serve_ w3 q3 a = Ret (RUser (mkUReply 204 UNothing)) a.
Proof.
  intros Hok Hun Hid H16 Hf1 Hf2 Hf3 Hg Ht Hexp M1 P1 A1 M2 P2 A2 M3 P3 Hh serve_.
  set (u := mkUser (w_id w1) username hash UserRoleUser (w_now w1) (w_now w1)).
  set (t := app_users a) in *.
  assert (users_ok (t ++ [u])) as Hok1 by (by apply users_ok_add).
  assert (filter (λ v, Users.ID v ≠ w_id w1) t = t) as Hft by (by apply delete_absent).
  pose proof (GenerateToken_spec jwt config _ _ _ _ _ Ht) as Hv.
  pose proof (jwt_precision_bounds jwt (w_now w2 + expiration config)) as Hp.
  set (c := token_claims jwt config (w_now w2) (uuidToString (w_id w1)) username UserRoleUser) in *.
  assert (presents jwt (Secret config) (w_now w3) (q_Header q3) c) as Hshow.
  { exists token. split; [done|]. apply Hv. split; [done|]. lia. }
  exists (mkApp (t ++ [u]) (app_prov a) (app_grpc a)). unfold serve_. split_and!.
  - rewrite serve_register by done. cbn [run_endpoint].
    unfold Register_handler, Register, HashPassword, CreateUser, query. rewrite A1, Hg, Hf1.
    unfold mbind, M_bind, in_users, zoom, get, put, mret, M_ret. fold t.
    rewrite (bool_decide_eq_false_2 _ Hid), (bool_decide_eq_false_2 _ Hun). done.
  - rewrite serve_login by done.
    destruct (Login_run bc jwt config (w_now w2) username password (t ++ [u]) Hok1) as (r & El & _ & Hr).
    specialize (Hr u ltac:(set_solver) eq_refl). unfold CheckPassword in Hr. cbn [PasswordHash Users.Role Users.ID u] in Hr.
    rewrite (bcrypt_verifies _ _ _ Hg), Ht in Hr. subst r.
    exact (login_run bc jwt uuid_Parse config svc w2 q2 (mkApp (t ++ [u]) (app_prov a) (app_grpc a)) _ _ _ A2 Hf2 El).
  - erewrite serve_delete by done. erewrite delete_me_run by done. cbn [app_users app_prov app_grpc].
    rewrite filter_app, Hft. rewrite filter_cons_False by (cbn; naive_solver). rewrite filter_nil, app_nil_r.
    by destruct a.
  - rewrite serve_login by done.
    destruct (Login_run bc jwt config (w_now w2) username password t Hok) as (r & El & Hr & _).
    rewrite Hr in El.
    + exact (login_run bc jwt uuid_Parse config svc w2 q2 a _ _ _ A2 Hf2 El).
    + intros (v & Hv' & En). apply Hun. rewrite <- En. by apply list_elem_of_fmap_2.
  - erewrite serve_delete by done. erewrite delete_me_run by done. fold t. rewrite Hft. by destruct a.
Qed.

(** ** A concrete application *)

Module OneApp.
(** Routes by exact path, then by segments with [:id] for any segment. *)
Fixpoint segments (ps qs : list string) (id : string) : option string :=
  match ps, qs with
  | [], [] => Some id
  | p :: ps', q :: qs' =>
      if HasPrefix p ":" then segments ps' qs' q
      else if decide (p = q) then segments ps' qs' id else None
  | _, _ => None
  end.

Definition gin : matcher := λ rs m p,
  match filter (λ rt, rt_Method rt = m ∧ rt_Path rt = p) rs with
  | rt :: _ => Some (rt, "")
  | [] => head (omap (λ rt, if decide (rt_Method rt = m)
                            then (λ id, (rt, id)) <$> segments (split_slash (rt_Path rt)) (split_slash p) ""
                            else None) rs)
  end.

#[global] Instance gin_laws : GinLaws gin.
Proof.
  split; unfold gin.
  - intros rs m p rt id. destruct (filter _ rs) as [|rt' l] eqn:E.
    + intros [l E']%head_Some.
      assert ((rt, id) ∈ omap (λ rt, if decide (rt_Method rt = m)
        then (λ id, (rt, id)) <$> segments (split_slash (rt_Path rt)) (split_slash p) "" else None) rs)
        as (rt' & Hin & Hrt)%list_elem_of_omap by (rewrite E'; by left).
      destruct (decide (rt_Method rt' = m)); [|done].
      apply fmap_Some in Hrt as (id' & _ & [= -> ->]). done.
    + intros [= -> _].
      assert (rt ∈ filter (λ rt, rt_Method rt = m ∧ rt_Path rt = p) rs) as [[? _] ?]%list_elem_of_filter
        by (rewrite E; by left). done.
  - intros rs rt Hin _ Hu.
    assert (rt ∈ filter (λ rt', rt_Method rt' = rt_Method rt ∧ rt_Path rt' = rt_Path rt) rs) as Hf
      by (by apply list_elem_of_filter).
    destruct (filter _ rs) as [|rt' l] eqn:E; [by apply not_elem_of_nil in Hf|].
    assert (rt' ∈ filter (λ rt', rt_Method rt' = rt_Method rt ∧ rt_Path rt' = rt_Path rt) rs)
      as [[Em Ep] Hin']%list_elem_of_filter by (rewrite E; by left).
    by rewrite (Hu rt' Hin' Em Ep).
Qed.

Definition app : App (option string) := mkApp Toy.three OneProvision.p NewServer.
Definition world (now : Z) : World :=
  mkWorld now (Certs.rnd 3) (Ok "") "" "................" NoFault NoFault Toy.three [] [].
Definition request (m p : string) (h : Header) : HttpRequest :=
  mkHttp m p h ∅ (Ok ("dan", "password")) (Ok "agent") (Ok "sk_none").

(** The claims of dan's token, made in second 100. *)
Definition dans : Claims :=
  mkClaims (uuidToString "................") "dan" UserRoleUser (Some ((100 + 3600) * Auth.second))%Z
           None (Some (100 * Auth.second)%Z).
Definition jwt : JWT := ToyJWT.lib dans "signing key".
#[global] Instance jwt_laws : JWTLaws jwt := ToyJWT.lib_laws dans "signing key".
Definition login : HttpRequest := request "POST" "/auth/login" ∅.
Definition leave : HttpRequest := request "DELETE" "/users/me" {["Authorization" := ["Bearer token"]]}.
End OneApp.

Lemma guarded_routes_witness :
  ∃ msg, serve Toy.bcrypt ToyJWT.jwt Toy.uuid_Parse ToyJWT.config (Some Certs.s) OneApp.gin
           (SetupRoute true true "sesame" "signing key") (OneApp.world 1)
           (OneApp.request "POST" "/agents/agent/certificate" {["X-Api-Key" := ["guess"]]}) OneApp.app
         = Ret (RAborted 401 msg) OneApp.app.
Proof.
  assert (OneApp.gin (SetupRoute true true "sesame" "signing key") "POST" "/agents/agent/certificate"
    = Some (mkRoute "POST" "/agents/:id/certificate" [RequestLogger; MAPIKeyAuth "sesame"]
              Cert_CreateAgentCertificate, "agent")) as E by (vm_compute; reflexivity).
  apply (guarded_routes Toy.bcrypt ToyJWT.jwt Toy.uuid_Parse ToyJWT.config (Some Certs.s) OneApp.gin
    true true "sesame" "signing key" _ _ (OneApp.world 1)
    (OneApp.request "POST" "/agents/agent/certificate" {["X-Api-Key" := ["guess"]]}) OneApp.app E).
  intros [_ H]. vm_compute in H. discriminate H.
Defined.

Lemma anonymous_requests_witness :
  match serve Toy.bcrypt ToyJWT.jwt Toy.uuid_Parse ToyJWT.config (Some Certs.s) OneApp.gin
          (SetupRoute true true "sesame" "signing key") (OneApp.world 1)
          (OneApp.request "POST" "/auth/register" ∅) OneApp.app with
  | Ret r a' => Status r = 201%Z ∧ app_grpc a' = app_grpc OneApp.app
  | _ => False
  end.
Proof.
  assert (match serve Toy.bcrypt ToyJWT.jwt Toy.uuid_Parse ToyJWT.config (Some Certs.s) OneApp.gin
          (SetupRoute true true "sesame" "signing key") (OneApp.world 1)
          (OneApp.request "POST" "/auth/register" ∅) OneApp.app with
          | Ret r _ => Status r = 201%Z | _ => False end) as Hs by (vm_compute; reflexivity).
  destruct (serve _ _ _ _ _ _ _ _ _ _) as [r a'| |] eqn:E; [|exact Hs|exact Hs].
  split; [exact Hs|].
  apply (anonymous_requests Toy.bcrypt ToyJWT.jwt Toy.uuid_Parse ToyJWT.config (Some Certs.s) OneApp.gin
    true true "sesame" "signing key" (OneApp.world 1) (OneApp.request "POST" "/auth/register" ∅)
    OneApp.app r a' Toy.three_ok OneProvision.valid).
  - intros [_ H]. vm_compute in H. discriminate H.
  - intros (c & token & H & _). vm_compute in H. discriminate H.
  - exact E.
Defined.

Lemma account_lifecycle_witness :
  ∃ a1, serve Toy.bcrypt OneApp.jwt Toy.uuid_Parse ToyJWT.config (Some Certs.s) OneApp.gin
          (SetupRoute true true "sesame" "signing key") (OneApp.world (200 * Auth.second)) OneApp.leave a1
        = Ret (RUser (mkUReply 204 UNothing)) OneApp.app.
Proof.
  destruct (account_lifecycle Toy.bcrypt OneApp.jwt Toy.uuid_Parse ToyJWT.config (Some Certs.s) OneApp.gin
    true true "sesame" (OneApp.world 1) (OneApp.world (100 * Auth.second)) (OneApp.world (200 * Auth.second))
    (OneApp.request "POST" "/auth/register" ∅) OneApp.login OneApp.leave OneApp.app
    "dan" "password" "password" "token") as (a1 & _ & _ & H & _).
  - exact Toy.three_ok.
  - apply (bool_decide_unpack _). vm_compute. exact I.
  - apply (bool_decide_unpack _). vm_compute. exact I.
  - reflexivity.
  - reflexivity.
  - reflexivity.
  - reflexivity.
  - reflexivity.
  - vm_compute. reflexivity.
  - vm_compute. discriminate.
  - reflexivity.
  - reflexivity.
  - reflexivity.
  - reflexivity.
  - reflexivity.
  - reflexivity.
  - reflexivity.
  - reflexivity.
  - vm_compute. reflexivity.
  - exists a1. exact H.
Defined.
