(* ===== verification/Dto.v ===== *)
(** * Request bodies

    Models the request types of [src/internal/api/http/dto/]: the members a JSON body
    must have and the rules of their [binding] tags.  Reading the JSON and applying a
    rule are gin's and its validator's, a parameter with the behaviour they document
    for the bodies the endpoints are meant for, objects of text. *)
From stdpp Require Import base strings list gmap fin_maps.
From Stdlib Require Import ZArith Lia Ascii.
From S2P Require Import Prelude GoStd Http.

(** ** The code *)

Inductive rule : Type := Required | Min (n : nat) | Max (n : nat).

(** A member of a request type: its [json] name and its [binding] rules. *)
Record field : Type := mkField { f_json : string; f_binding : list rule }.

Definition RegisterRequest : list field :=
  [mkField "username" [Required; Min 3; Max 255]; mkField "password" [Required; Min 8]].
Definition LoginRequest : list field :=
  [mkField "username" [Required]; mkField "password" [Required]].
Definition CreateProvisionKeyRequest : list field := [mkField "agent_id" [Required]].
Definition ProvisionRequest : list field := [mkField "key" [Required]].

(** A JSON object with text members; [None] is the JSON [null]. *)
Abbreviation Body := (option (gmap string string)).

(** [c.ShouldBindJSON] into a request type: the values of its members, in order. *)
Definition binder : Type := list field → Body → result (list string).

Definition is_ascii (s : string) : bool := string_forallb (λ c, bool_decide (nat_of_ascii c < 128)) s.

(** The validator counts characters; the bytes of ASCII text. *)
Definition rule_ok (v : string) (r : rule) : bool :=
  match r with
  | Required => bool_decide (v ≠ "")
  | Min n => bool_decide (n ≤ String.length v)
  | Max n => bool_decide (String.length v ≤ n)
  end.

(** The value a body gives a member: the zero value when it has none. *)
Definition value_of (body : gmap string string) (f : field) : string := default "" (body !! f_json f).

Definition valid (fields : list field) (body : gmap string string) : bool :=
  forallb (λ f, forallb (rule_ok (value_of body f)) (f_binding f)) fields.

Class BinderLaws (b : binder) : Prop := {
  binds : ∀ fields body,
    Forall (λ f, is_ascii (value_of body f) = true) fields →
    if valid fields body then b fields (Some body) = Ok (value_of body <$> fields)
    else ∃ e, b fields (Some body) = Err e;
}.

(** The two shapes a handler reads. *)
Definition bind_pair (b : binder) (fields : list field) (body : Body) : result (string * string) :=
  match b fields body with
  | Ok [x; y] => Ok (x, y)
  | Ok _ => Err (Errorf "unexpected number of members")
  | Err e => Err e
  end.

Definition bind_one (b : binder) (fields : list field) (body : Body) : result string :=
  match b fields body with
  | Ok [x] => Ok x
  | Ok _ => Err (Errorf "unexpected number of members")
  | Err e => Err e
  end.

(** [json.Marshal] of a [RegisterRequest] or a [LoginRequest]. *)
Definition credentials (username password : string) : Body :=
  Some {["username" := username; "password" := password]}.

(** ** Facts *)

Section Facts.
Context (b : binder) `{!BinderLaws b}.

Lemma credentials_bound fields username password :
  f_json <$> fields = ["username"; "password"] → is_ascii username = true → is_ascii password = true →
  if valid fields {["username" := username; "password" := password]}
  then bind_pair b fields (credentials username password) = Ok (username, password)
  else ∃ e, bind_pair b fields (credentials username password) = Err e.
Proof.
  intros Hf Hu Hp. unfold bind_pair, credentials.
  destruct fields as [|[n1 r1] [|[n2 r2] [|]]]; try discriminate Hf. injection Hf as -> ->.
  set (body := {["username" := username; "password" := password]}).
  assert (value_of body (mkField "username" r1) = username) as E1 by reflexivity.
  assert (value_of body (mkField "password" r2) = password) as E2 by reflexivity.
  pose proof (binds [mkField "username" r1; mkField "password" r2] body) as Hb.
  destruct (valid _ body).
  - rewrite Hb; [cbn [fmap list_fmap]; by rewrite E1, E2|]. repeat constructor; by rewrite ?E1, ?E2.
  - destruct Hb as [e ->]; [|by exists e]. repeat constructor; by rewrite ?E1, ?E2.
Qed.
End Facts.

(** The validator on ASCII text. *)
Module ToyBinder.
Definition bind : binder := λ fields body,
  match body with
  | Some obj => if valid fields obj then Ok (value_of obj <$> fields) else Err (Errorf "Field validation failed")
  | None => Err (Errorf "EOF")
  end.

#[global] Instance laws : BinderLaws bind.
Proof. split. intros fields body _. unfold bind. destruct (valid fields body); [done|by eexists]. Qed.
End ToyBinder.
