(* ===== verification/Database.v ===== *)
(** * Setting up the database

    Models [RunMigrations] and [ensureSchemaExists] of
    [src/internal/db/migration.go] and [InitDB] of [src/internal/db/db.go]: which
    statements reach the database, in which order, and with which settings the
    pool opens its connections.  The drivers, [goose] and [Identifier.Sanitize]
    (which quotes a name) are parameters: the first answer each call with an error
    or none. *)
From stdpp Require Import base strings list sets.
From Stdlib Require Import ZArith Lia.
From S2P Require Import Prelude GoStd.

(** ** The code *)

(** What the database, the drivers and [goose] answer. *)
Record DbEnv : Type := mkDbEnv {
  Sanitize : string → string;
  sql_Open : string → option error;
  db_Ping : option error;
  db_Exec : string → option error;
  SetDialect : string → option error;
  goose_Up : option error;
  ParseConfig : string → option error;
  NewWithConfig : option error;
  pool_Ping : option error;
}.

(** What was sent to the database to set it up. *)
Inductive setup : Type :=
  | Ran (sql : string)
  | Migrated (dir : string).

Abbreviation Log := (list setup).

Definition log (a : setup) : M Log unit := modify (λ l, l ++ [a]).

(** [db.Exec]: a statement that failed had no effect. *)
Definition exec (e : DbEnv) (sql : string) : M Log (option error) :=
  match db_Exec e sql with
  | Some err => mret (Some err)
  | None => _ ← log (Ran sql); mret None
  end.

(** [if err := m; err != nil { return err }; k] *)
Definition unless_err {S} (m k : M S (option error)) : M S (option error) :=
  r ← m;
  match r with Some err => mret (Some err) | None => k end.

Definition create_schema (e : DbEnv) (schema : string) : string :=
  "CREATE SCHEMA IF NOT EXISTS " +:+ Sanitize e schema.
Definition set_search_path (e : DbEnv) (schema : string) : string :=
  "SET search_path TO " +:+ Sanitize e schema.

Definition ensureSchemaExists (e : DbEnv) (schema : string) : M Log (option error) :=
  unless_err (exec e (create_schema e schema))
    (unless_err (exec e (set_search_path e schema)) (mret None)).

Definition up (e : DbEnv) (dir : string) : M Log (option error) :=
  match goose_Up e with
  | Some err => mret (Some err)
  | None => _ ← log (Migrated dir); mret None
  end.

Definition default_schema (schema : string) : string :=
  if decide (schema = "") then "public" else schema.

Definition RunMigrations (e : DbEnv) (dbURL schema : string) : M Log (option error) :=
  let schema := default_schema schema in
  unless_err (mret (sql_Open e dbURL))
  (unless_err (mret (Wrapf "unable to connect to database" <$> db_Ping e))
  (unless_err (ensureSchemaExists e schema)
  (unless_err (mret (SetDialect e "postgres"))
  (unless_err (up e "migrations") (mret None))))).

(** The settings of the pool: [search_path] among the runtime parameters, and the
    statement the [AfterConnect] hook runs on each new connection. *)
Record Pool : Type := mkPool {
  MaxConns : Z;
  MinConns : Z;
  search_path : option string;
  AfterConnect : option string;
}.

Definition InitDB (e : DbEnv) (url schema : string) : result Pool :=
  match ParseConfig e url with
  | Some err => Err (Wrapf "unable to parse database config" err)
  | None =>
      let cfg :=
        if decide (schema ≠ "")
        then mkPool 10 2 (Some schema) (Some (set_search_path e schema))
        else mkPool 10 2 None None in
      match NewWithConfig e with
      | Some err => Err (Wrapf "unable to create connection pool" err)
      | None =>
          match pool_Ping e with
          | Some err => Err (Wrapf "unable to ping database" err)
          | None => Ok cfg
          end
      end
  end.

(** ** Facts *)

(** What a complete set-up sends. *)
Definition set_up (e : DbEnv) (schema : string) : Log :=
  [Ran (create_schema e (default_schema schema)); Ran (set_search_path e (default_schema schema));
   Migrated "migrations"].

(** The migrations run after the schema was made and selected, and no error is
    dropped: on one, what was sent is only the first part of the set-up. *)
Lemma RunMigrations_spec e url schema l :
  wp (RunMigrations e url schema) l (λ r l',
    match r with
    | None => l' = l ++ set_up e schema
    | Some _ => ∃ sent rest, l' = l ++ sent ∧ set_up e schema = sent ++ rest ∧ rest ≠ []
    end).
Proof.
  unfold RunMigrations, ensureSchemaExists, unless_err, exec, up, log, set_up.
  repeat first [progress wp_steps | case_match]; try (exists [], [Ran (create_schema e (default_schema schema));
    Ran (set_search_path e (default_schema schema)); Migrated "migrations"]; by rewrite app_nil_r).
  all: rewrite <-?(assoc_L (++)); try done.
  1: by exists [Ran (create_schema e (default_schema schema))]; eexists.
  all: by exists [Ran (create_schema e (default_schema schema)); Ran (set_search_path e (default_schema schema))]; eexists.
Qed.

(** A pool of a configured schema selects, on each of its connections, the schema
    the migrations ran in, with the same statement. *)
Lemma InitDB_schema e url schema pool l l' :
  schema ≠ "" → InitDB e url schema = Ok pool → RunMigrations e url schema l = Ret None l' →
  search_path pool = Some schema ∧
  ∃ sql, AfterConnect pool = Some sql ∧ Ran sql ∈ l'.
Proof.
  intros Hs E Em. pose proof (wp_Ret _ _ _ _ _ (RunMigrations_spec e url schema l) Em) as ->.
  unfold InitDB in E. rewrite decide_True in E by done. repeat case_match; try done.
  injection E as <-. split; [done|]. eexists. split; [done|].
  apply elem_of_app. right. unfold set_up, default_schema. rewrite decide_False by done.
  set_solver.
Qed.

(** Without a configured schema the migrations run in [public], but the pool keeps
    the search path the server gives it. *)
Lemma InitDB_no_schema e url pool l l' :
  InitDB e url "" = Ok pool → RunMigrations e url "" l = Ret None l' →
  Ran (set_search_path e "public") ∈ l' ∧ search_path pool = None ∧ AfterConnect pool = None.
Proof.
  intros E Em. pose proof (wp_Ret _ _ _ _ _ (RunMigrations_spec e url "" l) Em) as ->.
  unfold InitDB in E. repeat case_match; try done. injection E as <-.
  split; [|done]. apply elem_of_app. right. unfold set_up, default_schema. set_solver.
Qed.
