(* ===== verification/Tls.v ===== *)
(** * TLS credentials

    Models [src/internal/grpc/tls/credentials.go] on the certificates and files of
    [CertService], with the parts of [crypto/tls] and [crypto/x509] it relies on:
    loading a key pair, certificate pools, and the checks each side of a handshake
    makes of the other's certificate. *)
From stdpp Require Import base strings list gmap fin_maps.
From Stdlib Require Import ZArith Lia Ascii.
From S2P Require Import Prelude GoStd FileSystem CertService.

(** ** crypto/tls and crypto/x509 *)

Inductive ClientAuthType : Type := NoClientCert | RequestClientCert | RequireAndVerifyClientCert.

#[export] Instance ClientAuthType_eq_dec : EqDecision ClientAuthType.
Proof. solve_decision. Defined.
#[export] Instance ExtKeyUsage_eq_dec : EqDecision ExtKeyUsage.
Proof. solve_decision. Defined.
#[export] Instance KeyUsage_eq_dec : EqDecision KeyUsage.
Proof. solve_decision. Defined.

(** [tls.X509KeyPair] on the contents of the two files. *)
Definition X509KeyPair (certPEM keyPEM : pem_file) : result (Certificate * nat) :=
  match certPEM with
  | CertFile c =>
      match keyPEM with
      | KeyFile _ k =>
          if decide (PublicKey c = k) then Ok (c, k)
          else Err (Errorf "tls: private key does not match public key")
      | _ => Err (Errorf "tls: failed to find any PEM data in key input")
      end
  | _ => Err (Errorf "tls: failed to find any PEM data in certificate input")
  end.

Definition LoadX509KeyPair (certFile keyFile : string) : M CertFS (result (Certificate * nat)) :=
  try (os_ReadFile certFile) id (λ certPEM,
  try (os_ReadFile keyFile) id (λ keyPEM,
  mret (X509KeyPair certPEM keyPEM))).

(** [pool.AppendCertsFromPEM]: [None] when no certificate was found. *)
Definition AppendCertsFromPEM (pool : list Certificate) (f : pem_file) : option (list Certificate) :=
  match f with CertFile c => Some (pool ++ [c]) | _ => None end.

Definition valid_at (now : Z) (c : Certificate) : bool :=
  (NotBefore (body c) <=? now)%Z && (now <=? NotAfter (body c))%Z.

(** [c.Verify] with the pool as roots and a key usage: a chain of the certificate
    and one root that signed it. *)
Definition signs (usage : ExtKeyUsage) (now : Z) (c ca : Certificate) : bool :=
  bool_decide (SignedBy c = PublicKey ca) && bool_decide (Issuer c = Subject (body ca)) &&
  IsCA (body ca) && bool_decide (CertSign ∈ t_KeyUsage (body ca)) &&
  bool_decide (usage ∈ t_ExtKeyUsage (body ca)) && valid_at now ca.

Definition Verify (roots : list Certificate) (usage : ExtKeyUsage) (now : Z) (c : Certificate) : bool :=
  valid_at now c && bool_decide (usage ∈ t_ExtKeyUsage (body c)) && existsb (signs usage now c) roots.

(** [c.VerifyHostname], without wildcards. *)
Definition VerifyHostname (name : string) (c : Certificate) : bool :=
  bool_decide (name ∈ DNSNames (body c)) || bool_decide (name ∈ IPAddresses (body c)).

(** ** credentials.go *)

(** The [tls.Config] the credentials carry. *)
Record TLSCredentials : Type := mkCreds {
  tc_Certificate : Certificate * nat;
  tc_ClientAuth : ClientAuthType;
  tc_ClientCAs : option (list Certificate);
  tc_RootCAs : option (list Certificate);
  tc_ServerName : string;
}.

Definition load_pool (caFile : string) : M CertFS (result (list Certificate)) :=
  try (os_ReadFile caFile) (Wrapf "failed to read CA certificate") (λ ca,
  mret match AppendCertsFromPEM [] ca with
       | None => Err (Errorf "failed to append CA certificate")
       | Some caPool => Ok caPool
       end).

Definition LoadServerCredentials (certFile keyFile caFile : string) (clientAuth : ClientAuthType) :
    M CertFS (result TLSCredentials) :=
  try (LoadX509KeyPair certFile keyFile) (Wrapf "failed to load server certificate") (λ cert,
  if decide (clientAuth ≠ NoClientCert) then
    try (load_pool caFile) id (λ caPool,
    mret (Ok (mkCreds cert clientAuth (Some caPool) None "")))
  else mret (Ok (mkCreds cert clientAuth None None ""))).

Definition LoadClientCredentials (certFile keyFile caFile serverNameOverride : string) :
    M CertFS (result TLSCredentials) :=
  try (LoadX509KeyPair certFile keyFile) (Wrapf "failed to load client certificate") (λ cert,
  try (load_pool caFile) id (λ caPool,
  mret (Ok (mkCreds cert NoClientCert None (Some caPool)
              (if decide (serverNameOverride ≠ "") then serverNameOverride else ""))))).

Definition ParseClientAuthType (authType : string) : ClientAuthType * option error :=
  if decide (authType = "none") then (NoClientCert, None)
  else if decide (authType = "request") then (RequestClientCert, None)
  else if decide (authType = "require") then (RequireAndVerifyClientCert, None)
  else (NoClientCert, Some (Errorf ("invalid client auth type: " +:+ authType +:+
                                    " (valid: none, request, require)"))).

(** ** A handshake *)

(** What the server asks of the certificate the client shows, if any. *)
Definition server_accepts (sc : TLSCredentials) (now : Z) (client : option Certificate) : bool :=
  match tc_ClientAuth sc with
  | NoClientCert | RequestClientCert => true
  | RequireAndVerifyClientCert =>
      match client, tc_ClientCAs sc with
      | Some c, Some roots => Verify roots ClientAuth now c
      | _, _ => false
      end
  end.

(** What the client, which dialled [host], asks of the server's. *)
Definition client_accepts (cc : TLSCredentials) (host : string) (now : Z) (server : Certificate) : bool :=
  match tc_RootCAs cc with
  | None => false
  | Some roots =>
      Verify roots ServerAuth now server &&
      VerifyHostname (if decide (tc_ServerName cc = "") then host else tc_ServerName cc) server
  end.

Definition handshake (sc cc : TLSCredentials) (host : string) (now : Z) : bool :=
  client_accepts cc host now (tc_Certificate sc).1 && server_accepts sc now (Some (tc_Certificate cc).1).

(** ** Facts *)

(** Nothing keeps the process from reading its files. *)
Definition readable (fs : CertFS) : Prop := ∀ p, fault_read (fs_faults fs) p = None.

Lemma ReadFile_run path c fs :
  readable fs → fs_files fs !! Clean path = Some c → os_ReadFile path fs = Ret (Ok c) fs.
Proof. intros Hr Hc. unfold os_ReadFile. by rewrite Hr, Hc. Qed.

Lemma LoadX509KeyPair_run certFile keyFile c fs :
  readable fs → fs_files fs !! Clean certFile = Some (CertFile c) →
  fs_files fs !! Clean keyFile = Some (KeyFile true (PublicKey c)) →
  LoadX509KeyPair certFile keyFile fs = Ret (Ok (c, PublicKey c)) fs.
Proof.
  intros Hr Hc Hk. unfold LoadX509KeyPair, try, mbind, M_bind.
  rewrite (ReadFile_run _ _ _ Hr Hc), (ReadFile_run _ _ _ Hr Hk). unfold mret, M_ret, X509KeyPair.
  by rewrite decide_True.
Qed.

Lemma load_pool_run caFile ca fs :
  readable fs → fs_files fs !! Clean caFile = Some (CertFile ca) →
  load_pool caFile fs = Ret (Ok [ca]) fs.
Proof. intros Hr Hc. unfold load_pool, try, mbind, M_bind. by rewrite (ReadFile_run _ _ _ Hr Hc). Qed.

Lemma LoadServerCredentials_run certFile keyFile caFile auth c ca fs :
  readable fs → fs_files fs !! Clean certFile = Some (CertFile c) →
  fs_files fs !! Clean keyFile = Some (KeyFile true (PublicKey c)) →
  fs_files fs !! Clean caFile = Some (CertFile ca) →
  LoadServerCredentials certFile keyFile caFile auth fs =
    Ret (Ok (mkCreds (c, PublicKey c) auth (if decide (auth = NoClientCert) then None else Some [ca]) None "")) fs.
Proof.
  intros Hr Hc Hk Hca. unfold LoadServerCredentials, try, mbind, M_bind.
  rewrite (LoadX509KeyPair_run _ _ _ _ Hr Hc Hk).
  destruct (decide (auth = NoClientCert)) as [->|Hne]; [by rewrite decide_False by naive_solver|].
  rewrite decide_True by done. by rewrite (load_pool_run _ _ _ Hr Hca).
Qed.

Lemma LoadClientCredentials_run certFile keyFile caFile c ca fs :
  readable fs → fs_files fs !! Clean certFile = Some (CertFile c) →
  fs_files fs !! Clean keyFile = Some (KeyFile true (PublicKey c)) →
  fs_files fs !! Clean caFile = Some (CertFile ca) →
  LoadClientCredentials certFile keyFile caFile "" fs =
    Ret (Ok (mkCreds (c, PublicKey c) NoClientCert None (Some [ca]) "")) fs.
Proof.
  intros Hr Hc Hk Hca. unfold LoadClientCredentials, try, mbind, M_bind.
  by rewrite (LoadX509KeyPair_run _ _ _ _ Hr Hc Hk), (load_pool_run _ _ _ Hr Hca).
Qed.

(** Loading reads only. *)
Lemma LoadX509KeyPair_same certFile keyFile fs :
  ∃ r, LoadX509KeyPair certFile keyFile fs = Ret r fs.
Proof.
  unfold LoadX509KeyPair, try, mbind, M_bind, os_ReadFile.
  repeat (case_match; simplify_eq; try (by eexists)).
Qed.

Lemma load_pool_same caFile fs : ∃ r, load_pool caFile fs = Ret r fs.
Proof.
  unfold load_pool, try, mbind, M_bind, os_ReadFile. repeat (case_match; simplify_eq; try (by eexists)).
Qed.

Lemma LoadServerCredentials_same certFile keyFile caFile auth fs :
  ∃ r, LoadServerCredentials certFile keyFile caFile auth fs = Ret r fs ∧
    ∀ creds, r = Ok creds → tc_ClientAuth creds = auth.
Proof.
  unfold LoadServerCredentials, try, mbind, M_bind.
  destruct (LoadX509KeyPair_same certFile keyFile fs) as [[ck|e] ->]; [|by eexists].
  case_decide; [|eexists; split; [done|]; by intros ? [= <-]].
  destruct (load_pool_same caFile fs) as [[pool|e] ->]; eexists; (split; [done|]); [by intros ? [= <-]|done].
Qed.

Lemma Verify_single ca usage now c :
  valid_at now c = true → usage ∈ t_ExtKeyUsage (body c) → issued_by ca c →
  IsCA (body ca) = true → CertSign ∈ t_KeyUsage (body ca) → usage ∈ t_ExtKeyUsage (body ca) →
  valid_at now ca = true → Verify [ca] usage now c = true.
Proof.
  intros H1 H2 [H3 H4] H5 H6 H7 H8. unfold Verify, signs. simpl.
  by rewrite H1, H5, H8, !bool_decide_eq_true_2.
Qed.

(** A client certificate no certificate of the pool signed is refused when
    verification is required. *)
Lemma server_requires sc now client :
  tc_ClientAuth sc = RequireAndVerifyClientCert → server_accepts sc now client = true →
  ∃ c roots ca, client = Some c ∧ tc_ClientCAs sc = Some roots ∧ ca ∈ roots ∧ issued_by ca c ∧
    valid_at now c = true ∧ ClientAuth ∈ t_ExtKeyUsage (body c).
Proof.
  unfold server_accepts. intros ->. destruct client as [c|]; [|done].
  destruct (tc_ClientCAs sc) as [roots|]; [|done]. unfold Verify.
  rewrite !andb_true_iff, bool_decide_eq_true, existsb_exists.
  intros [[Hv Hu] (ca & Hin & Hs)]. unfold signs in Hs.
  rewrite !andb_true_iff, !bool_decide_eq_true in Hs. destruct_and?.
  exists c, roots, ca. split_and!; try done. by apply list_elem_of_In.
Qed.
