(* ===== verification/ServerStart.v ===== *)
(** * Starting and stopping the gRPC server

    Models [Start], [Stop] and [StopWithTimeout] of
    [src/internal/grpc/server/server.go].  The outcome of [net.Listen] and of
    [grpcServer.Serve], and whether [GracefulStop] beats the deadline, are
    arguments; a method called on a nil [*grpc.Server] dereferences it. *)
From stdpp Require Import base strings list gmap fin_maps.
From Stdlib Require Import ZArith Lia Ascii.
From S2P Require Import Prelude GoStd FileSystem CertService Tls.
From S2P Require Import ServerInterface ConnectionManager GrpcServer.

(** ** The code *)

Record TLSConfig : Type := mkTLSConfig {
  Enabled : bool;
  CertFile_ : string;
  KeyFile_ : string;
  CAFile : string;
  ClientAuth_ : string;
}.

Section Code.
Context {S : Type} `{AgentServerOps S}.

(** How a [*grpc.Server] was stopped: [GracefulStop] has returned, which waits for the
    streams to end, or [Stop] has closed them. *)
Inductive grpc_stopped : Type := Gracefully | Forced.

(** The fields of [Server] the two methods use. *)
Record Lifecycle : Type := mkLife {
  lc_port : Z;
  lc_tlsConfig : option TLSConfig;
  lc_listener : bool;
  lc_grpcServer : option (option TLSCredentials);    (** the credentials it was made with *)
  lc_stopped : option grpc_stopped;
  lc_server : Server S;
  lc_disk : CertFS;
}.

Definition set_listener (l : Lifecycle) : Lifecycle :=
  mkLife (lc_port l) (lc_tlsConfig l) true (lc_grpcServer l) (lc_stopped l) (lc_server l) (lc_disk l).
Definition set_grpcServer (g : option TLSCredentials) (l : Lifecycle) : Lifecycle :=
  mkLife (lc_port l) (lc_tlsConfig l) (lc_listener l) (Some g) (lc_stopped l) (lc_server l) (lc_disk l).
Definition set_server (s : Server S) (l : Lifecycle) : Lifecycle :=
  mkLife (lc_port l) (lc_tlsConfig l) (lc_listener l) (lc_grpcServer l) (lc_stopped l) s (lc_disk l).
Definition set_lc_disk (d : CertFS) (l : Lifecycle) : Lifecycle :=
  mkLife (lc_port l) (lc_tlsConfig l) (lc_listener l) (lc_grpcServer l) (lc_stopped l) (lc_server l) d.
Definition set_stopped (g : grpc_stopped) (l : Lifecycle) : Lifecycle :=
  mkLife (lc_port l) (lc_tlsConfig l) (lc_listener l) (lc_grpcServer l) (Some g) (lc_server l) (lc_disk l).

Definition NewServer_life (port : Z) (tlsConfig : option TLSConfig) (disk : CertFS) : Lifecycle :=
  mkLife port tlsConfig false None None NewServer disk.

(** Lines 72-93: the server options. *)
Definition server_options : M Lifecycle (result (option TLSCredentials)) :=
  l ← get;
  match lc_tlsConfig l with
  | Some c =>
      if Enabled c then
        let (clientAuth, err) := ParseClientAuthType (ClientAuth_ c) in
        match err with
        | Some e => mret (Err (Wrapf "invalid client auth type" e))
        | None =>
            try (zoom lc_disk set_lc_disk
                   (LoadServerCredentials (CertFile_ c) (KeyFile_ c) (CAFile c) clientAuth))
                (Wrapf "failed to load TLS credentials") (λ creds, mret (Ok (Some creds)))
        end
      else mret (Ok None)
  | None => mret (Ok None)
  end.

Definition Start (listen served : option error) : M Lifecycle (option error) :=
  l ← get;
  match listen with
  | Some e => mret (Some (Wrapf ("failed to listen on port " +:+ Itoa (lc_port l)) e))
  | None =>
      _ ← modify set_listener;
      opts ← server_options;
      match opts with
      | Err e => mret (Some e)
      | Ok creds =>
          _ ← modify (set_grpcServer creds);
          mret (Wrapf "failed to serve gRPC" <$> served)
      end
  end.

(** [graceful]: [GracefulStop] returns before the context is done; if not,
    [grpcServer.Stop] is called.  [order] is the map order of the connections. *)
Definition Server_Stop (graceful : bool) (order : list string) : M Lifecycle (option error) :=
  l ← get;
  match lc_grpcServer l with
  | None => panic "invalid memory address or nil pointer dereference"
  | Some _ =>
      _ ← modify (set_stopped (if graceful then Gracefully else Forced));
      _ ← zoom lc_server set_server (in_cm (Stop order)); mret None
  end.
End Code.
Arguments Lifecycle S : clear implicits.

(** ** Properties *)

Lemma Stop_unstarted {S} `{AgentServerOps S} (l : Lifecycle S) graceful order :
  lc_grpcServer l = None → ∃ msg, Server_Stop graceful order l = Panic msg l.
Proof. intros E. eexists. unfold Server_Stop, mbind, M_bind, get. by rewrite E. Qed.

(** Starting.  With TLS enabled the server is only ever started with the
    credentials its files hold and the client authentication its configuration
    names, never without; without TLS it is started plain.  A failed start reports
    why, and [Stop] (which [main] then calls) panics when the server was never
    made, without closing any agent connection. *)
Theorem Start_correct {S} `{AgentServerOps S} port tls disk listen served r (l : Lifecycle S) :
  Start listen served (NewServer_life port tls disk) = Ret r l →
  lc_disk l = disk ∧ lc_server l = NewServer ∧
  match lc_grpcServer l with
  | Some None => tls = None ∨ ∃ c, tls = Some c ∧ Enabled c = false
  | Some (Some creds) => ∃ c auth, tls = Some c ∧ Enabled c = true ∧
      ParseClientAuthType (ClientAuth_ c) = (auth, None) ∧ tc_ClientAuth creds = auth ∧
      LoadServerCredentials (CertFile_ c) (KeyFile_ c) (CAFile c) auth disk = Ret (Ok creds) disk
  | None => r ≠ None ∧ ∀ graceful order, ∃ msg, Server_Stop graceful order l = Panic msg l
  end.
Proof.
  unfold Start, NewServer_life, mbind, M_bind, get, modify, mret, M_ret. cbn [lc_port].
  destruct listen as [e|]; [intros [= <- <-]; simpl; split_and!; try done; intros; by apply Stop_unstarted|].
  unfold server_options, mbind, M_bind, get, mret, M_ret. cbn [lc_tlsConfig set_listener].
  destruct tls as [c|]; [|by intros [= <- <-]; simpl; split_and!; try done; left].
  destruct (Enabled c) eqn:Een; [|intros [= <- <-]; simpl; split_and!; try done; right; by exists c].
  destruct (ParseClientAuthType (ClientAuth_ c)) as [auth [e|]] eqn:Ep.
  { intros [= <- <-]. simpl; split_and!; try done. intros. by apply Stop_unstarted. }
  destruct (LoadServerCredentials_same (CertFile_ c) (KeyFile_ c) (CAFile c) auth disk) as (v & Ev & Hauth).
  unfold try, mbind, M_bind, zoom. cbn [lc_disk set_listener]. rewrite Ev. destruct v as [creds|e].
  - intros [= <- <-]. simpl; split_and!; try done. exists c, auth. simpl; split_and!; try done. by apply Hauth.
  - intros [= <- <-]. simpl; split_and!; try done. intros. by apply Stop_unstarted.
Qed.

(** A server whose configuration names no client authentication it knows. *)
Definition misconfigured : Lifecycle (option string) :=
  NewServer_life 9090 (Some (mkTLSConfig true "certs/server-cert.pem" "certs/server-key.pem"
    "certs/ca-cert.pem" "on")) Certs.fs_lost.

Lemma Start_correct_witness :
  match Start None None misconfigured with
  | Ret r l => lc_listener l = true ∧ r ≠ None ∧ ∃ msg, Server_Stop true [] l = Panic msg l
  | _ => False
  end.
Proof.
  assert (match Start None None misconfigured with
          | Ret _ l => lc_listener l = true ∧ lc_grpcServer l = None | _ => False end) as Hs
    by (split; reflexivity).
  destruct (Start None None misconfigured) as [r l| |] eqn:E; [|exact Hs|exact Hs].
  destruct Hs as [Hl Hg]. split; [exact Hl|].
  destruct (Start_correct _ _ _ _ _ _ _ E) as (_ & _ & H). rewrite Hg in H.
  destruct H as [Hr H]. split; [exact Hr|]. apply H.
Defined.
