(* ===== verification/AgentProvision.v ===== *)
(** * The agent's provision command, and what it makes possible

    Models [runProvision] of [src/cmd/silo-proxy-agent/provision.go], from the
    parsed flags on, and states what the whole provisioning is for: after it, the
    agent's and the server's files make a mutual TLS handshake succeed.  The POST
    and the decoding of the JSON body are arguments. *)
From stdpp Require Import base strings list gmap fin_maps.
From Stdlib Require Import ZArith Lia Ascii.
From S2P Require Import Prelude GoStd Http KeyStore FileSystem CertService ProvisionHandler Tls.

(** ** The code *)

(** [filepath.Join(a, b, c)]: empty elements are left out. *)
Definition Join3 (a b c : string) : string :=
  match filter (λ e, e ≠ "") [a; b; c] with
  | [] => ""
  | l => Clean (join_slash l)
  end.

(** The response to the POST: its status, what [io.ReadAll] reads, and what
    [json.Unmarshal] makes of that. *)
Record PostResponse : Type := mkPost {
  po_StatusCode : Z;
  po_Body : result string;
  po_Decoded : result ProvisionResponse;
}.

(** What the command prints: whom the server named and where the files are. *)
Record SavedPaths : Type := mkPaths {
  sp_AgentID : string;
  sp_Cert : string;
  sp_Key : string;
  sp_CA : string;
}.

Definition saved_paths (certDir agentID : string) : SavedPaths :=
  let agentCertDir := Join3 certDir "agents" agentID in
  let caCertDir := Join certDir "ca" in
  mkPaths agentID (Join agentCertDir (agentID +:+ "-cert.pem")) (Join agentCertDir (agentID +:+ "-key.pem"))
          (Join caCertDir "ca-cert.pem").

(** Lines 72-97: make the directories and write the files. *)
Definition save_provision (certDir : string) (r : ProvisionResponse) : M CertFS (result SavedPaths) :=
  let agentCertDir := Join3 certDir "agents" (pr_AgentID r) in
  let caCertDir := Join certDir "ca" in
  let paths := saved_paths certDir (pr_AgentID r) in
  check (os_MkdirAll agentCertDir) (Wrapf ("failed to create directory " +:+ agentCertDir))
  (check (os_MkdirAll caCertDir) (Wrapf ("failed to create directory " +:+ caCertDir))
  (check (os_WriteFile (sp_Cert paths) (CertPEM r)) (Wrapf "failed to write cert")
  (check (os_WriteFile (sp_Key paths) (KeyPEM r)) (Wrapf "failed to write key")
  (check (os_WriteFile (sp_CA paths) (CACertPEM r)) (Wrapf "failed to write CA cert")
  (mret (Ok paths)))))).

(** The lines of standard output after that, with the settings for the agent's
    configuration file. *)
Definition quoted (s : string) : string :=
  let q := String (ascii_of_nat 34) EmptyString in q +:+ s +:+ q.

Definition provision_lines (p : SavedPaths) : list string :=
  ["Provisioning successful!";
   "  Agent ID: " +:+ sp_AgentID p;
   "  Cert:     " +:+ sp_Cert p;
   "  Key:      " +:+ sp_Key p;
   "  CA Cert:  " +:+ sp_CA p;
   "";
   "Add the following to your agent application.yaml:";
   "";
   "grpc:";
   "  agent_id: " +:+ quoted (sp_AgentID p);
   "  tls:";
   "    enabled: true";
   "    cert_file: " +:+ sp_Cert p;
   "    key_file: " +:+ sp_Key p;
   "    ca_file: " +:+ sp_CA p].

Definition runProvision (post : string → string → result PostResponse)
    (server key certDir : string) : M CertFS (result SavedPaths) :=
  if decide (server = "") then mret (Err (Errorf "--server is required"))
  else if decide (key = "") then mret (Err (Errorf "--key is required"))
  else
    match post (server +:+ "/api/v1/provision") key with
    | Err e => mret (Err (Wrapf "failed to connect to server" e))
    | Ok resp =>
        match po_Body resp with
        | Err e => mret (Err (Wrapf "failed to read response" e))
        | Ok body =>
            if decide (po_StatusCode resp ≠ 200%Z) then
              mret (Err (Errorf ("provisioning failed (HTTP " +:+ Itoa (po_StatusCode resp) +:+ "): " +:+ body)))
            else
              match po_Decoded resp with
              | Err e => mret (Err (Wrapf "failed to parse response" e))
              | Ok provResp => save_provision certDir provResp
              end
        end
    end.

(** ** Facts *)

Lemma Join3_Join a b c : normal b → normal c → Join3 a b c = Join (Join a b) c.
Proof.
  intros Hb Hc. pose proof Hb as (Hbs & Hbn & _). pose proof Hc as (Hcs & Hcn & _).
  assert (Join (Join a b) c = render (is_rooted a)
    (c :: b :: (if decide (a = "") then [] else clean_elems (is_rooted a) a))) as ->.
  { rewrite (Join_elems a b) by done.
    destruct (render_inv _ _ _ (Join_stack a b Hb)) as (Hp & Hr & He).
    rewrite Join_elems, Hr, He by done. by rewrite decide_False. }
  unfold Join3. destruct (decide (a = "")) as [->|Ha].
  - rewrite filter_cons_False by naive_solver. rewrite !filter_cons_True by done. rewrite filter_nil.
    change (join_slash [b; c]) with (b +:+ String slash c).
    assert (Clean (b +:+ String slash c) = Join b c) as ->.
    { unfold Join. by rewrite decide_False. }
    rewrite Join_elems, decide_False by done.
    assert (is_rooted b = false) as ->.
    { destruct b as [|x b]; [done|]. apply no_slash_cons in Hbs as [Hx _].
      unfold is_rooted, HasPrefix. simpl. case_match; [|done]. by subst. }
    unfold clean_elems. rewrite Hbs. simpl. by rewrite clean_step_normal.
  - rewrite !filter_cons_True by done. rewrite filter_nil.
    change (join_slash [a; b; c]) with (a +:+ String slash (b +:+ String slash c)).
    unfold Clean. rewrite decide_False.
    2:{ destruct a; [done|]. by rewrite string_app_cons. }
    rewrite is_rooted_app by done. unfold clean_elems. rewrite !split_slash_app, !foldl_app, Hbs, Hcs. simpl.
    by rewrite !clean_step_normal.
Qed.

(** The agent's side keeps its files as a server with this directory would. *)
Definition agent_side (certDir : string) : Service :=
  mkService (Join (Join certDir "ca") "ca-cert.pem") "" "" "" (Join certDir "agents") [] [].

Lemma saved_paths_eq certDir id :
  ValidateAgentID id = None →
  saved_paths certDir id = mkPaths id (GetAgentCertPath (agent_side certDir) id)
    (GetAgentKeyPath (agent_side certDir) id) (CaCertPath (agent_side certDir)).
Proof.
  intros Hid. unfold saved_paths, GetAgentCertPath, GetAgentKeyPath, GetAgentCertDir. simpl.
  rewrite Join3_Join; [done| |by apply valid_normal_id].
  split_and!; try done.
Qed.

(** The CA file is apart from every agent's files. *)
Lemma ca_path_ne certDir id suffix :
  ValidateAgentID id = None → string_forallb not_slash suffix = true → 
  Join (GetAgentCertDir (agent_side certDir) id) (id +:+ suffix) ≠ Join (Join certDir "ca") "ca-cert.pem".
Proof.
  intros Hid Hs E.
  assert (normal "ca" ∧ normal "agents" ∧ normal "ca-cert.pem") as (N1 & N2 & N3) by (split_and!; done).
  rewrite agent_path_eq in E by done. unfold GetAgentCertDir in E. simpl in E.
  rewrite (Join_Join certDir "agents" id), (Join_Join certDir "ca"), !(Join_normal certDir) in E
    by (done || by apply valid_normal_id).
  rewrite <- !string_app_assoc in E. apply (inj _) in E. discriminate E.
Qed.

Lemma save_provision_spec certDir r fs :
  ValidateAgentID (pr_AgentID r) = None →
  let s := agent_side certDir in
  let id := pr_AgentID r in
  wp (save_provision certDir r) fs (λ v fs',
    (∀ p, p ≠ GetAgentCertPath s id → p ≠ GetAgentKeyPath s id → p ≠ CaCertPath s →
       fs_files fs' !! p = fs_files fs !! p) ∧
    ∀ paths, v = Ok paths → paths = mkPaths id (GetAgentCertPath s id) (GetAgentKeyPath s id) (CaCertPath s) ∧
      fs_files fs' !! Clean (sp_Cert paths) = Some (CertPEM r) ∧
      fs_files fs' !! Clean (sp_Key paths) = Some (KeyPEM r) ∧
      fs_files fs' !! Clean (sp_CA paths) = Some (CACertPEM r)).
Proof.
  intros Hid s id.
  assert (normal "ca-cert.pem") as Nca by (split_and!; done).
  assert (GetAgentCertPath s id ≠ GetAgentKeyPath s id) as Hne by by apply suffix_ne.
  assert (GetAgentCertPath s id ≠ CaCertPath s) as Hne1 by by apply ca_path_ne.
  assert (GetAgentKeyPath s id ≠ CaCertPath s) as Hne2 by by apply ca_path_ne.
  assert (Clean (CaCertPath s) = CaCertPath s) as Cca by by apply Clean_Join.
  pose proof (Clean_cert s id Hid) as Cc. pose proof (Clean_key s id Hid) as Ck.
  unfold save_provision. fold id. rewrite saved_paths_eq by done. fold s. cbn [sp_Cert sp_Key sp_CA].
  wp_steps. apply wp_MkdirAll; [done|]. intros fs1 E1 _. wp_steps.
  apply wp_MkdirAll; [by split; [intros; by rewrite E1|]|]. intros fs2 E2 _. rewrite E1 in E2. wp_steps.
  apply wp_WriteFile; [by split; [intros; by rewrite E2|]|]. rewrite Cc, E2. wp_steps.
  apply wp_WriteFile; [split; [|done]; intros; simpl; by rewrite lookup_insert_ne|]. rewrite Ck. wp_steps.
  apply wp_WriteFile; [split; [|done]; intros; simpl; by rewrite !lookup_insert_ne|]. rewrite Cca. wp_steps.
  cbn [fs_files]. split; [intros; by rewrite !lookup_insert_ne|]. intros paths E. injection E as <-. split; [done|].
  cbn [sp_Cert sp_Key sp_CA]. change (Join (Join certDir "ca") "ca-cert.pem") with (CaCertPath s).
  rewrite Cc, Ck, Cca, lookup_insert_eq.
  rewrite (lookup_insert_ne _ (CaCertPath s)), (lookup_insert_ne _ (CaCertPath s)) by done.
  rewrite lookup_insert_ne, !lookup_insert_eq by done. done.
Qed.

(** Saving what was provisioned, when the POST succeeded. *)
Lemma runProvision_Ok post server key certDir fs paths fs' :
  runProvision post server key certDir fs = Ret (Ok paths) fs' →
  ∃ resp body r, post (server +:+ "/api/v1/provision") key = Ok resp ∧ po_Body resp = Ok body ∧
    po_StatusCode resp = 200%Z ∧ po_Decoded resp = Ok r ∧ save_provision certDir r fs = Ret (Ok paths) fs'.
Proof.
  unfold runProvision. case_decide; [done|]. case_decide; [done|].
  destruct (post _ _) as [resp|]; [|done]. destruct (po_Body resp) as [body|] eqn:Eb; [|done].
  case_decide as Hs; [done|]. destruct (po_Decoded resp) as [r|] eqn:Ed; [|done].
  intros E. exists resp, body, r. by split_and!.
Qed.

(** What the server's files hold after a first start. *)
Record pki_ok (s : Service) (now : Z) (ca srv : Certificate) (fs : CertFS) : Prop := {
  pk_ca : fs_files fs !! Clean (CaCertPath s) = Some (CertFile ca);
  pk_srv : fs_files fs !! Clean (ServerCertPath s) = Some (CertFile srv);
  pk_key : fs_files fs !! Clean (ServerKeyPath s) = Some (KeyFile true (PublicKey srv));
  pk_issued : issued_by ca srv;
  pk_template : ∃ n, body ca = ca_template n now;
  pk_server : ∃ n, body srv = server_template n now (DomainNames s) (IPAddresses_ s);
}.

Lemma first_start s rnd1 rnd2 now fs fs' :
  distinct_paths s → present (CaCertPath s) (CaKeyPath s) fs = false →
  fs_files fs !! Clean (ServerCertPath s) = None →
  ensureCertificates s rnd1 rnd2 now fs = Ret (Ok ()) fs' →
  is_Some (fs_files fs' !! Clean (ServerCertPath s)) →
  ∃ ca srv, pki_ok s now ca srv fs'.
Proof.
  intros Hd Hno Hsrv E Hsome.
  destruct (wp_Ret _ _ _ _ _ (ensureCertificates_spec s rnd1 rnd2 now fs Hd) E eq_refl)
    as (ca & k & [Hca _] & Hnew & fs1 & Ho & _ & Hs).
  rewrite Hno in Hnew. destruct Hnew as (_ & _ & _ & _ & Ht).
  unfold distinct_paths in Hd. rewrite !NoDup_cons, !not_elem_of_cons in Hd.
  destruct (present (ServerCertPath s) (ServerKeyPath s) fs1).
  - subst fs1. rewrite Ho, Hsrv in Hsome by naive_solver. by destruct Hsome.
  - destruct Hs as (c & sk & [Hc Hk] & <- & Hi & Hb). by exists ca, c.
Qed.

Lemma valid_between now from len c :
  NotBefore (body c) = from → NotAfter (body c) = (from + len)%Z → (from ≤ now ≤ from + len)%Z →
  valid_at now c = true.
Proof. unfold valid_at. intros -> -> H. apply andb_true_iff. split; apply Z.leb_le; lia. Qed.

(** ** Properties *)

(** C12: provisioning works, end to end.  After a first start of the server, an agent
    that presents a key the server accepts and saves what it is answered can, with
    the paths the command printed, complete a mutual TLS handshake with the server,
    which asks for verified client certificates, under any configured name and
    for a year from the first start; and the server sees the agent's id. *)
Theorem provisioned_agent_connects s rnd1 rnd2 now0 fs0 fs1 ks key rnd now1 resp p2
    post server certDir answer afs paths afs' host now :
  distinct_paths s → present (CaCertPath s) (CaKeyPath s) fs0 = false →
  fs_files fs0 !! Clean (ServerCertPath s) = None →
  ensureCertificates s rnd1 rnd2 now0 fs0 = Ret (Ok ()) fs1 →
  is_Some (fs_files fs1 !! Clean (ServerCertPath s)) →
  keys_valid ks →
  Provision (Some s) (Ok key) rnd now1 (mkProvisioning ks fs1) = Ret (mkPReply 200 (PCertificate resp)) p2 →
  (∀ p, p ∈ [CaCertPath s; ServerCertPath s; ServerKeyPath s] →
     Clean p ≠ GetAgentCertPath s (pr_AgentID resp) ∧ Clean p ≠ GetAgentKeyPath s (pr_AgentID resp)) →
  post (server +:+ "/api/v1/provision") key = Ok (mkPost 200 (Ok answer) (Ok resp)) →
  runProvision post server key certDir afs = Ret (Ok paths) afs' →
  readable (disk p2) → readable afs' →
  (now0 ≤ now1 ≤ now)%Z → (now ≤ now0 + 365 * 24 * hour)%Z → host ∈ DomainNames s →
  ∃ sc cc,
    LoadServerCredentials (ServerCertPath s) (ServerKeyPath s) (CaCertPath s)
      RequireAndVerifyClientCert (disk p2) = Ret (Ok sc) (disk p2) ∧
    LoadClientCredentials (sp_Cert paths) (sp_Key paths) (sp_CA paths) "" afs' = Ret (Ok cc) afs' ∧
    handshake sc cc host now = true ∧
    CommonName (body (tc_Certificate cc).1) = pr_AgentID resp.
Proof.
  intros Hd Hno Hsrv Een Hsome Hv Ep Hsep Epost Erun Hr1 Hr2 Hn1 Hn2 Hhost.
  destruct (first_start _ _ _ _ _ _ Hd Hno Hsrv Een Hsome)
    as (ca & srv & [Pca Psrv Pkey Pi [n1 Pt] [n2 Ps]]).
  destruct (wp_Ret _ _ _ _ _ (Provision_spec s key rnd now1 (mkProvisioning ks fs1) Hv) Ep) as (Hp & _).
  unfold provisioned in Hp. cbn [pr_Status pr_Body disk keyStore] in Hp.
  destruct Hp as (pk & c & k & caf & Evk & Eb & _ & Hac & _ & Hcaf & [_ Ho] & _).
  injection Eb as ->. cbn [pr_AgentID] in *.
  assert (ValidateAgentID (AgentID pk) = None) as Hid.
  { destruct (Validate_run key now1 ks) as (v & E & Hk). rewrite E in Evk. injection Evk as ->.
    by eapply Hv, Hk. }
  destruct (runProvision_Ok _ _ _ _ _ _ _ Erun) as (resp' & b & r & Er & _ & _ & Edec & Esave).
  rewrite Epost in Er. injection Er as <-. injection Edec as <-.
  destruct (wp_Ret _ _ _ _ _ (save_provision_spec certDir
    (mkProvisionResponse (AgentID pk) (CertFile c) (KeyFile true k) caf) afs Hid) Esave) as [_ Hsaved].
  destruct (Hsaved _ eq_refl) as (-> & Sc & Sk & Sca). cbn [CertPEM KeyPEM CACertPEM sp_Cert sp_Key sp_CA] in *.
  assert (∀ p, p ∈ [CaCertPath s; ServerCertPath s; ServerKeyPath s] →
    fs_files (disk p2) !! Clean p = fs_files fs1 !! Clean p) as Hkeep.
  { intros p Hin. apply Ho; by apply Hsep. }
  rewrite Hkeep in Hcaf by set_solver. rewrite Pca in Hcaf. injection Hcaf as <-.
  destruct Hac as (Epk & Ecn & Eku & _ & Enb & Ena & ca' & Hca' & _ & Hi).
  rewrite Pca in Hca'. injection Hca' as <-. subst k.
  eexists _, _. split.
  { apply (LoadServerCredentials_run _ _ _ _ srv ca); [done|by rewrite Hkeep by set_solver..]. }
  split; [by apply (LoadClientCredentials_run _ _ _ c ca)|]. split; [|done].
  assert (0 < 365 * 24 * hour < 10 * 365 * 24 * hour)%Z as Hh by (unfold hour; lia).
  assert (valid_at now ca = true) as Vca.
  { apply (valid_between _ now0 (10 * 365 * 24 * hour)); [by rewrite Pt..|lia]. }
  assert (valid_at now srv = true) as Vsrv.
  { apply (valid_between _ now0 (365 * 24 * hour)); [by rewrite Ps..|lia]. }
  assert (valid_at now c = true) as Vc.
  { apply (valid_between _ now1 (365 * 24 * hour)); [done..|lia]. }
  assert (IsCA (body ca) = true ∧ CertSign ∈ t_KeyUsage (body ca) ∧
    ServerAuth ∈ t_ExtKeyUsage (body ca) ∧ ClientAuth ∈ t_ExtKeyUsage (body ca)) as (Uca1 & Uca2 & Uca3 & Uca4).
  { rewrite Pt. cbn [IsCA t_KeyUsage t_ExtKeyUsage ca_template]. split_and!; [done|set_solver..]. }
  unfold handshake, client_accepts, server_accepts.
  cbn [tc_Certificate tc_ClientAuth tc_ClientCAs tc_RootCAs tc_ServerName fst].
  rewrite (decide_False (P := RequireAndVerifyClientCert = NoClientCert)), (decide_True (P := "" = "")) by done.
  rewrite (Verify_single ca ClientAuth now c), (Verify_single ca ServerAuth now srv);
    [|assumption || (rewrite ?Ps, ?Eku; cbn [t_ExtKeyUsage server_template]; set_solver)..].
  unfold VerifyHostname. rewrite Ps. cbn [DNSNames server_template]. by rewrite bool_decide_eq_true_2.
Qed.

(** ** A concrete provisioning *)

Module OneAgent.
Definition disk0 : CertFS := mkFS ∅ ∅ no_faults.
Definition disk1 : CertFS := Certs.after (ensureCertificates Certs.s (Certs.rnd 8) (Certs.rnd 9) 100) disk0.
Definition c_ca : Certificate :=
  mkCertificate (ca_template 7 100) 8 (["Silo Proxy CA"], "Silo Proxy Root CA") 8.
Definition c_agent : Certificate :=
  mkCertificate (agent_template 7 150 "agent") 3 (["Silo Proxy CA"], "Silo Proxy Root CA") 8.
Definition resp : ProvisionResponse :=
  mkProvisionResponse "agent" (CertFile c_agent) (KeyFile true 3) (CertFile c_ca).
Definition answered : outcome Provisioning ProvisionReply :=
  Provision (Some Certs.s) (Ok OneProvision.key) (Certs.rnd 3) 150 (mkProvisioning OneKey.ks1 disk1).
Definition p2 : Provisioning :=
  match answered with Ret _ p | Panic _ p | Block p => p end.
Definition post (url key : string) : result PostResponse :=
  if decide (url = "https://proxy.example/api/v1/provision" ∧ key = OneProvision.key)
  then Ok (mkPost 200 (Ok "{...}") (Ok resp)) else Err (Errorf "connection refused").
Definition saved : outcome CertFS (result SavedPaths) :=
  runProvision post "https://proxy.example" OneProvision.key "./certs" disk0.
Definition agent_disk : CertFS := match saved with Ret _ fs | Panic _ fs | Block fs => fs end.
Definition paths : SavedPaths := saved_paths "./certs" "agent".

Lemma started : ensureCertificates Certs.s (Certs.rnd 8) (Certs.rnd 9) 100 disk0 = Ret (Ok ()) disk1.
Proof. vm_compute. reflexivity. Qed.
Lemma provisioned_ : answered = Ret (mkPReply 200 (PCertificate resp)) p2.
Proof. vm_compute. reflexivity. Qed.
Lemma ran : saved = Ret (Ok paths) agent_disk.
Proof. vm_compute. reflexivity. Qed.
End OneAgent.

Lemma provisioned_agent_connects_witness :
  ∃ sc cc, LoadClientCredentials "certs/agents/agent/agent-cert.pem" "certs/agents/agent/agent-key.pem"
             "certs/ca/ca-cert.pem" "" OneAgent.agent_disk = Ret (Ok cc) OneAgent.agent_disk ∧
           handshake sc cc "proxy.example" 1000 = true.
Proof.
  destruct (provisioned_agent_connects Certs.s (Certs.rnd 8) (Certs.rnd 9) 100 OneAgent.disk0 OneAgent.disk1
    OneKey.ks1 OneProvision.key (Certs.rnd 3) 150 OneAgent.resp OneAgent.p2 OneAgent.post
    "https://proxy.example" "./certs" "{...}" OneAgent.disk0 OneAgent.paths OneAgent.agent_disk
    "proxy.example" 1000) as (sc & cc & _ & Hc & Hh & _).
  - exact Certs.paths_distinct.
  - vm_compute. reflexivity.
  - vm_compute. reflexivity.
  - exact OneAgent.started.
  - apply (bool_decide_unpack _). vm_compute. exact I.
  - exact OneProvision.valid.
  - exact OneAgent.provisioned_.
  - intros p Hp. repeat (apply elem_of_cons in Hp as [->|Hp]; [split; vm_compute; discriminate|]).
    by apply not_elem_of_nil in Hp.
  - vm_compute. reflexivity.
  - exact OneAgent.ran.
  - intros p. vm_compute. reflexivity.
  - intros p. vm_compute. reflexivity.
  - lia.
  - vm_compute. discriminate.
  - apply (bool_decide_unpack _). vm_compute. exact I.
  - exists sc, cc. split; [exact Hc|exact Hh].
Defined.
