(* ===== verification/ProvisionConcurrency.v ===== *)
(** * Concurrent provisioning

    [Provision] of [src/internal/api/http/handler/provision.go] runs in the
    goroutine of its HTTP request and takes a lock four times: [Validate] and
    [MarkUsed] the key store's, [GenerateAgentCertIfNotExists] the certificate
    service's, and between them it reads the CA certificate.  Here each of these is
    one step, any number of requests interleave, administrators create and revoke
    keys, the clean-up runs, and the file system may start or stop refusing
    operations ([pstep]).  [with_admin] adds the administrators' certificate
    endpoints of [src/internal/api/http/handler/cert.go]: the writes of
    [CreateAgentCertificate], which takes no lock, one by one, and
    [DeleteAgentCertificate]. *)
From stdpp Require Import base strings list gmap fin_maps relations.
From Stdlib Require Import ZArith Lia Ascii.
From S2P Require Import Prelude GoStd KeyStore FileSystem CertService ProvisionHandler.

(** ** The steps *)

(** Where a request is inside [Provision]. *)
Inductive pcall : Type :=
  | PCStart (key : string)
  | PCValid (key agentID : string)
  | PCMade (key agentID : string) (c : Certificate) (k : nat)
  | PCRead (key agentID : string) (c : Certificate) (k : nat) (ca : pem_file)
  | PCDone (made : option string) (r : ProvisionReply).    (** [made]: the agent it made a certificate for *)

Record psys : Type := mkPSys {
  ps_state : Provisioning;
  ps_calls : gmap nat pcall;
}.

Definition validated (key : string) (v : result ProvisionKey) : pcall :=
  match v with
  | Ok pk => PCValid key (AgentID pk)
  | Err e => PCDone None (p_error 401 (Error e))
  end.

Definition generated (key agentID : string) (made : result (option (Certificate * nat))) : pcall :=
  match made with
  | Err _ => PCDone None (p_error 500 "Failed to generate agent certificate")
  | Ok None => PCDone None (p_error 409 "Certificate already exists for this agent")
  | Ok (Some (c, k)) => PCMade key agentID c k
  end.

Definition ca_read (key agentID : string) (c : Certificate) (k : nat) (ca : result pem_file) : pcall :=
  match ca with
  | Err _ => PCDone (Some agentID) (p_error 500 "Failed to read CA certificate")
  | Ok b => PCRead key agentID c k b
  end.

Definition finished (agentID : string) (c : Certificate) (k : nat) (ca : pem_file) : pcall :=
  PCDone (Some agentID) (mkPReply 200 (PCertificate
    (mkProvisionResponse agentID (CertFile c) (KeyFile true k) ca))).

Definition set_faults (f : Faults) (fs : CertFS) : CertFS := mkFS (fs_files fs) (fs_dirs fs) f.

Inductive pstep (s : Service) : psys → psys → Prop :=
  | ps_new p calls i key :
      calls !! i = None → pstep s (mkPSys p calls) (mkPSys p (<[i := PCStart key]> calls))
  | ps_validate p p' calls i key now v :
      calls !! i = Some (PCStart key) → in_keys (Validate key now) p = Ret v p' →
      pstep s (mkPSys p calls) (mkPSys p' (<[i := validated key v]> calls))
  | ps_generate p p' calls i key agentID rnd now v :
      calls !! i = Some (PCValid key agentID) →
      on_disk (GenerateAgentCertIfNotExists s rnd now agentID) p = Ret v p' →
      pstep s (mkPSys p calls) (mkPSys p' (<[i := generated key agentID v]> calls))
  | ps_ca p p' calls i key agentID c k v :
      calls !! i = Some (PCMade key agentID c k) → on_disk (GetCACert s) p = Ret v p' →
      pstep s (mkPSys p calls) (mkPSys p' (<[i := ca_read key agentID c k v]> calls))
  | ps_mark p p' calls i key agentID c k ca :
      calls !! i = Some (PCRead key agentID c k ca) → in_keys (MarkUsed key) p = Ret () p' →
      pstep s (mkPSys p calls) (mkPSys p' (<[i := finished agentID c k ca]> calls))
  | ps_create p p' calls req random now r :
      CreateProvisionKey req random now p = Ret r p' → pstep s (mkPSys p calls) (mkPSys p' calls)
  | ps_revoke p p' calls order agentID r :
      RevokeProvisionKey order agentID p = Ret r p' → pstep s (mkPSys p calls) (mkPSys p' calls)
  | ps_cleanup p p' calls order now n :
      in_keys (cleanup order now) p = Ret n p' → pstep s (mkPSys p calls) (mkPSys p' calls)
  | ps_faults p calls f :
      pstep s (mkPSys p calls) (mkPSys (set_disk (set_faults f (disk p)) p) calls).

(** ** The invariant *)

(** The agent a request has made a certificate for, with the certificate. *)
Definition made_for (c : pcall) : option string :=
  match c with
  | PCMade _ a _ _ | PCRead _ a _ _ _ => Some a
  | PCDone m _ => m
  | _ => None
  end.

(** What a request that is at [c] knows. *)
Definition call_ok (s : Service) (disk0 disk : CertFS) (c : pcall) : Prop :=
  match c with
  | PCStart _ => True
  | PCValid _ a => ValidateAgentID a = None
  | PCMade _ a c k | PCRead _ a c k _ =>
      ValidateAgentID a = None ∧ cert_on_disk s a disk0 = false ∧ has_pair s a c k disk
  | PCDone (Some a) r =>
      ValidateAgentID a = None ∧ cert_on_disk s a disk0 = false ∧
      (pr_Status r = 200%Z ∧ (∃ c k ca, has_pair s a c k disk ∧
         r = mkPReply 200 (PCertificate (mkProvisionResponse a (CertFile c) (KeyFile true k) ca))) ∨
       pr_Status r = 500%Z ∧ cert_on_disk s a disk = true)
  | PCDone None r => pr_Status r ≠ 200%Z
  end.

Record psys_ok (s : Service) (disk0 : CertFS) (w : psys) : Prop := {
  po_keys : keys_valid (keyStore (ps_state w));
  po_grows : ∀ a, cert_on_disk s a disk0 = true → cert_on_disk s a (disk (ps_state w)) = true;
  po_call : ∀ i c, ps_calls w !! i = Some c → call_ok s disk0 (disk (ps_state w)) c;
  po_once : ∀ i j ci cj a, ps_calls w !! i = Some ci → ps_calls w !! j = Some cj →
    made_for ci = Some a → made_for cj = Some a → i = j;
}.

(** ** Facts *)

Section Facts.
Context (s : Service) (disk0 : CertFS).

(** The store only holds keys of agents it held before, or of one valid agent. *)
Lemma keys_valid_from ks ks' :
  keys_valid ks →
  (∀ key pk', ks_keys ks' !! key = Some pk' →
     ValidateAgentID (AgentID pk') = None ∨ ∃ pk, ks_keys ks !! key = Some pk ∧ AgentID pk' = AgentID pk) →
  keys_valid ks'.
Proof. intros Hv Hk key pk' [?|(pk & Hl & ->)]%Hk; [done|]. by eapply Hv. Qed.

Lemma keys_valid_used key ks ks' : keys_valid ks → MarkUsed key ks = Ret () ks' → keys_valid ks'.
Proof.
  intros Hv E. unfold MarkUsed, mbind, M_bind, get in E.
  destruct (ks_keys ks !! key) as [pk|] eqn:Hk; [|by injection E as <-].
  injection E as <-. apply (keys_valid_from ks); [done|]. simpl.
  intros key' pk' [[<- <-]|[_ Hl]]%lookup_insert_Some; right; eauto.
Qed.

Lemma keys_valid_deleted drop order ks n ks' :
  keys_valid ks → delete_where drop order ks = Ret n ks' → keys_valid ks'.
Proof.
  intros Hv E. destruct (wp_Ret _ _ _ _ _ (wp_delete_where drop order ks) E) as [-> _].
  apply (keys_valid_from ks); [done|]. simpl. intros key pk' [Hl _]%map_lookup_filter_Some. eauto.
Qed.

Lemma CreateProvisionKey_valid req random now p r p' :
  keys_valid (keyStore p) → CreateProvisionKey req random now p = Ret r p' →
  keys_valid (keyStore p') ∧ disk p' = disk p.
Proof.
  unfold CreateProvisionKey. intros Hv. destruct req as [a|e]; [|by intros [= _ <-]].
  destruct (ValidateAgentID a) eqn:Ha; [by intros [= _ <-]|].
  unfold Create, mbind, M_bind, in_keys, zoom. destruct random as [b|e]; intros [= _ <-]; simpl; [|done].
  split; [|done]. apply (keys_valid_from (keyStore p)); [done|]. simpl.
  intros key pk' [[<- <-]|[_ Hl]]%lookup_insert_Some; [by left|right; eauto].
Qed.

Lemma RevokeProvisionKey_valid order a p r p' :
  keys_valid (keyStore p) → RevokeProvisionKey order a p = Ret r p' →
  keys_valid (keyStore p') ∧ disk p' = disk p.
Proof.
  unfold RevokeProvisionKey, Revoke, mbind, M_bind, in_keys, zoom. intros Hv.
  destruct (delete_where _ _ _) as [n ks'| |] eqn:E; [|done..].
  unfold mret, M_ret. intros H. assert (p' = set_keyStore ks' p) as ->.
  { by destruct (bool_decide _) in H; injection H as _ <-. }
  split; [|done]. by eapply keys_valid_deleted.
Qed.

(** *** The certificates on disk *)

(** No agent loses its files, and a complete pair stays as it is. *)
Definition kept (d d' : CertFS) : Prop :=
  (∀ a, cert_on_disk s a d = true → cert_on_disk s a d' = true) ∧
  (∀ a c k, ValidateAgentID a = None → has_pair s a c k d → has_pair s a c k d').

Lemma kept_same d d' : fs_files d' = fs_files d → fs_dirs d' = fs_dirs d → kept d d'.
Proof.
  intros Ef Ed. split.
  - intros a. unfold cert_on_disk, path_exists. by rewrite Ef, Ed.
  - intros a c k _. unfold has_pair. by rewrite Ef.
Qed.

Lemma has_pair_on_disk a c k d :
  ValidateAgentID a = None → has_pair s a c k d → cert_on_disk s a d = true.
Proof.
  intros Ha Hp. pose proof (has_pair_exists s _ _ _ _ Ha Hp) as E.
  rewrite AgentCertExists_run in E. by injection E.
Qed.

Lemma generate_kept rnd now a d v d' :
  ValidateAgentID a = None → GenerateAgentCertIfNotExists s rnd now a d = Ret v d' →
  kept d d' ∧ match v with
    | Ok (Some (c, k)) => cert_on_disk s a d = false ∧ has_pair s a c k d'
    | _ => True
    end.
Proof.
  intros Ha E. destruct (wp_Ret _ _ _ _ _ (GenerateAgentCertIfNotExists_spec s rnd now a d Ha) E)
    as (Hg & [_ Ho] & Hv).
  assert (kept d d' ∨ cert_on_disk s a d = true ∧ d' = d) as Hk.
  { destruct (cert_on_disk s a d) eqn:Ec.
    - right. split; [done|]. rewrite !AgentCertExists_run in Hv. rewrite Ec in Hv.
      destruct v as [[[c k]|]|e]; [by destruct Hv as [? _]|by destruct Hv|done].
    - left. split.
      + intros b. unfold cert_on_disk. rewrite !andb_true_iff. intros [? ?].
        by rewrite !(grows_exists _ _ _ Hg).
      + intros b c k Hb [Hc Hk]. destruct (decide (a = b)) as [->|Hne].
        { rewrite (has_pair_on_disk b c k d) in Ec by (done || by split). done. }
        split; rewrite Ho; try done; apply not_eq_sym, agent_path_ne; done. }
  split.
  - destruct Hk as [Hk|[_ ->]]; [done|by apply kept_same].
  - destruct v as [[[c k]|]|e]; [|done..]. destruct Hv as (H0 & _ & Hp & _).
    rewrite AgentCertExists_run in H0. by injection H0.
Qed.
End Facts.

(** *** Preservation *)

Section Preservation.
Context (s : Service) (disk0 : CertFS).
Notation ok := (psys_ok s disk0).

Lemma call_ok_kept d d' c : kept s d d' → call_ok s disk0 d c → call_ok s disk0 d' c.
Proof.
  intros [Hc Hp]. destruct c as [| |? a c k|? a c k ca|[a|] r]; simpl; naive_solver.
Qed.

(** A certificate that was made is on disk. *)
Lemma made_on_disk d c a : call_ok s disk0 d c → made_for c = Some a →
  ValidateAgentID a = None ∧ cert_on_disk s a d = true.
Proof.
  destruct c as [| |? b c k|? b c k ca|[b|] r]; simpl; try done; intros H [= ->].
  - destruct H as (Ha & _ & Hp). split; [done|by eapply has_pair_on_disk].
  - destruct H as (Ha & _ & Hp). split; [done|by eapply has_pair_on_disk].
  - destruct H as (Ha & _ & [[_ (c & k & ca & Hp & _)]|[_ Hd]]); [|done].
    split; [done|by eapply has_pair_on_disk].
Qed.

(** The shared state moves on and no request does. *)
Lemma psys_ok_shared p p' calls :
  ok (mkPSys p calls) → keys_valid (keyStore p') → kept s (disk p) (disk p') → ok (mkPSys p' calls).
Proof.
  intros [Hk Hg Hc Ho] Hk' Hkept. split; simpl in *; try done.
  - intros a Ha. by apply Hkept, Hg.
  - intros i c Hi. by eapply call_ok_kept, Hc.
Qed.

(** A request takes a step; what it makes, no other had made. *)
Lemma psys_ok_call p calls i c' :
  ok (mkPSys p calls) → call_ok s disk0 (disk p) c' →
  (∀ a, made_for c' = Some a → (∃ c, calls !! i = Some c ∧ made_for c = Some a) ∨
     ∀ j cj, calls !! j = Some cj → made_for cj ≠ Some a) →
  ok (mkPSys p (<[i := c']> calls)).
Proof.
  intros [Hk Hg Hc Ho] Hc' Hm. split; simpl in *; try done.
  - intros j c [[<- <-]|[_ Hj]]%lookup_insert_Some; [done|by eapply Hc].
  - intros j1 j2 c1 c2 a [[<- <-]|[Hn1 H1]]%lookup_insert_Some [[<- <-]|[Hn2 H2]]%lookup_insert_Some M1 M2;
      try done.
    + destruct (Hm a M1) as [(c & Hi & Mc)|Hno]; [by eapply Ho|]. by destruct (Hno _ _ H2).
    + destruct (Hm a M2) as [(c & Hi & Mc)|Hno]; [by eapply Ho|]. by destruct (Hno _ _ H1).
    + by eapply Ho.
Qed.

Lemma psys_ok_step w w' : ok w → pstep s w w' → ok w'.
Proof.
  intros Hok Hs.
  destruct Hs as [p calls i key Hi|p p' calls i key now v Hi E|p p' calls i key a rnd now v Hi E
    |p p' calls i key a c k v Hi E|p p' calls i key a c k ca Hi E|p p' calls req random now r E
    |p p' calls order a r E|p p' calls order now n E|p calls f].
  - apply psys_ok_call; simpl; try done.
  - destruct (Validate_run key now (keyStore p)) as (v' & Ev & Hv).
    unfold in_keys, zoom in E. rewrite Ev in E. injection E as <- <-.
    destruct p as [ks d]. simpl in *. apply psys_ok_call; [done| |by destruct v'].
    destruct v' as [pk|e]; simpl; [|done]. destruct (Hv _ eq_refl) as [Hl _]. by apply (po_keys _ _ _ Hok key pk).
  - pose proof (po_call _ _ _ Hok i _ Hi) as Ha. simpl in Ha.
    unfold on_disk, zoom in E. destruct (GenerateAgentCertIfNotExists s rnd now a (disk p)) as [v' d'| |] eqn:Eg; [|done..].
    injection E as -> <-. destruct (generate_kept s _ _ _ _ _ _ Ha Eg) as [Hkept Hv].
    apply psys_ok_call.
    + apply (psys_ok_shared p); [done|apply Hok|done].
    + destruct v as [[[c k]|]|e]; simpl; [|done..]. destruct Hv as [H0 Hp]. split; [done|].
      split; [|done]. destruct (cert_on_disk s a disk0) eqn:E0; [|done].
      pose proof (po_grows _ _ _ Hok a E0) as Hg. simpl in Hg. congruence.
    + destruct v as [[[c k]|]|e]; simpl; try done. intros b [= <-]. right.
      intros j cj Hj Hm. destruct (made_on_disk _ _ _ (po_call _ _ _ Hok j cj Hj) Hm) as [_ Hd].
      destruct Hv as [H0 _]. simpl in Hd. congruence.
  - unfold on_disk, zoom, GetCACert, try, mbind, M_bind in E.
    destruct (os_ReadFile (CaCertPath s) (disk p)) as [v' d'| |] eqn:Er; [|done..].
    pose proof (os_ReadFile_same _ _ _ _ Er) as ->.
    pose proof (po_call _ _ _ Hok i _ Hi) as (Ha & H0 & Hp).
    assert (p' = p) as -> by (destruct p; destruct v'; by injection E).
    apply psys_ok_call; [done|..].
    + destruct v as [b|e]; simpl; [done|]. split_and!; try done. right. split; [done|].
      by eapply has_pair_on_disk.
    + intros b Hb. left. exists (PCMade key a c k). split; [done|]. by destruct v.
  - pose proof (po_call _ _ _ Hok i _ Hi) as (Ha & H0 & Hp).
    unfold in_keys, zoom in E. destruct (MarkUsed key (keyStore p)) as [[] ks'| |] eqn:Em; [|done..].
    injection E as <-. apply psys_ok_call.
    + apply (psys_ok_shared p); [done| |by apply kept_same]. by eapply keys_valid_used, Em; apply Hok.
    + simpl. split_and!; try done. left. split; [done|]. by exists c, k, ca.
    + intros b Hb. left. by exists (PCRead key a c k ca).
  - destruct (CreateProvisionKey_valid _ _ _ _ _ _ (po_keys _ _ _ Hok) E) as [Hk Hd].
    apply (psys_ok_shared p); [done|done|]. rewrite Hd. by apply kept_same.
  - destruct (RevokeProvisionKey_valid _ _ _ _ _ (po_keys _ _ _ Hok) E) as [Hk Hd].
    apply (psys_ok_shared p); [done|done|]. rewrite Hd. by apply kept_same.
  - unfold in_keys, zoom, cleanup in E. destruct (delete_where _ _ _) as [n' ks'| |] eqn:Ed; [|done..].
    injection E as _ <-. apply (psys_ok_shared p); [done| |by apply kept_same].
    by eapply keys_valid_deleted, Ed; apply Hok.
  - apply (psys_ok_shared p); [done|apply Hok|]. by apply kept_same.
Qed.

Lemma psys_ok_init p : keys_valid (keyStore p) → disk p = disk0 → ok (mkPSys p ∅).
Proof.
  intros Hk Hd. split; simpl; try done; [by intros a; rewrite Hd|..]; intros i; intros; by rewrite lookup_empty in *.
Qed.

Lemma psys_reachable_ok p w :
  keys_valid (keyStore p) → disk p = disk0 → rtc (pstep s) (mkPSys p ∅) w → ok w.
Proof.
  intros Hk Hd Hr. eapply (rtc_invariant (pstep s) ok); [exact Hr|by apply psys_ok_init|].
  intros a b. apply psys_ok_step.
Qed.
End Preservation.

(** An answered request stays as it is. *)
Lemma done_stable s w w' i m r :
  rtc (pstep s) w w' → ps_calls w !! i = Some (PCDone m r) → ps_calls w' !! i = Some (PCDone m r).
Proof.
  induction 1 as [w|w w1 w' Hs _ IH]; [done|]. intros Hi. apply IH.
  destruct Hs; simpl in *; try done; rewrite lookup_insert_ne; try done; congruence.
Qed.

(** ** Certificates made and deleted by administrators *)

(** The rest of the program, [a]'s certificate apart from deletion: the writes of
    [CreateAgentCertificate] for any agent, each a step (a request that fails
    between them stops there), and [DeleteAgentCert] of other agents. *)
Inductive with_admin (s : Service) (a : string) : psys → psys → Prop :=
  | wa_provisioning w w' : pstep s w w' → with_admin s a w w'
  | wa_directory p p' calls b v :
      ValidateAgentID b = None → on_disk (ensureDirectory (GetAgentCertPath s b)) p = Ret v p' →
      with_admin s a (mkPSys p calls) (mkPSys p' calls)
  | wa_cert p p' calls b c v :
      ValidateAgentID b = None → on_disk (writeCertToFile c (GetAgentCertPath s b)) p = Ret v p' →
      with_admin s a (mkPSys p calls) (mkPSys p' calls)
  | wa_key p p' calls b k v :
      ValidateAgentID b = None → on_disk (writeKeyToFile k (GetAgentKeyPath s b)) p = Ret v p' →
      with_admin s a (mkPSys p calls) (mkPSys p' calls)
  | wa_delete p p' calls b v :
      b ≠ a → ValidateAgentID b = None → on_disk (DeleteAgentCert s b) p = Ret v p' →
      with_admin s a (mkPSys p calls) (mkPSys p' calls).

(** What a request that is at [c] has, wherever it got it. *)
Definition call_shape (c : pcall) : Prop :=
  match c with
  | PCStart _ => True
  | PCValid _ a | PCMade _ a _ _ | PCRead _ a _ _ _ => ValidateAgentID a = None
  | PCDone (Some a) r => pr_Status r = 200%Z →
      ∃ c k ca, r = mkPReply 200 (PCertificate (mkProvisionResponse a (CertFile c) (KeyFile true k) ca))
  | PCDone None r => pr_Status r ≠ 200%Z
  end.

(** What the requests know of [a] while nobody deletes its certificate: a request that
    made one leaves it on disk, and there is one such request at most. *)
Record single (s : Service) (a : string) (w : psys) : Prop := {
  sg_keys : keys_valid (keyStore (ps_state w));
  sg_shape : ∀ j c, ps_calls w !! j = Some c → call_shape c;
  sg_disk : ∀ j c, ps_calls w !! j = Some c → made_for c = Some a →
    cert_on_disk s a (disk (ps_state w)) = true;
  sg_once : ∀ i j ci cj, ps_calls w !! i = Some ci → ps_calls w !! j = Some cj →
    made_for ci = Some a → made_for cj = Some a → i = j;
}.

Lemma disk_set_disk d p : disk (set_disk d p) = d.
Proof. by destruct p. Qed.

Section Locked.
Context (s : Service) (a : string) (Ha : ValidateAgentID a = None).

Lemma single_init p : keys_valid (keyStore p) → single s a (mkPSys p ∅).
Proof using Type. intros Hk. split; simpl; try done; intros i; intros; by rewrite lookup_empty in *. Qed.

Lemma single_shared p p' calls :
  single s a (mkPSys p calls) → keys_valid (keyStore p') →
  (cert_on_disk s a (disk p) = true → cert_on_disk s a (disk p') = true) → single s a (mkPSys p' calls).
Proof using Type. intros [L1 L2 L3 L4] Hk Hd. split; simpl in *; try done. intros j c Hj Hm. by eapply Hd, L3. Qed.

(** A request moves on without making a certificate. *)
Lemma single_call p calls i c c' :
  single s a (mkPSys p calls) → calls !! i = Some c → call_shape c' →
  (made_for c' = Some a → made_for c = Some a) → single s a (mkPSys p (<[i := c']> calls)).
Proof using Type.
  intros [L1 L2 L3 L4] Hi Hs Hm. split; simpl in *; try done.
  - intros j cj [[<- <-]|[_ Hj]]%lookup_insert_Some; [done|by eapply L2].
  - intros j cj [[<- <-]|[_ Hj]]%lookup_insert_Some M; [by eapply (L3 i c), Hm|by eapply L3].
  - intros j1 j2 c1 c2 [[<- <-]|[Hn1 H1]]%lookup_insert_Some [[<- <-]|[Hn2 H2]]%lookup_insert_Some M1 M2;
      try done.
    + by eapply (L4 i j2 c c2); auto.
    + by eapply (L4 j1 i c1 c); auto.
    + by eapply L4.
Qed.

(** A request makes a certificate of an agent that has none. *)
Lemma single_made p p' calls i c' :
  single s a (mkPSys p calls) → keys_valid (keyStore p') → call_shape c' →
  (cert_on_disk s a (disk p) = true → cert_on_disk s a (disk p') = true) →
  (made_for c' = Some a → cert_on_disk s a (disk p) = false ∧ cert_on_disk s a (disk p') = true) →
  single s a (mkPSys p' (<[i := c']> calls)).
Proof using Type.
  intros [L1 L2 L3 L4] Hk Hs Hd Hm. simpl in *.
  assert (∀ j cj, calls !! j = Some cj → made_for cj = Some a → made_for c' = Some a → False) as Hno.
  { intros j cj Hj M M'. destruct (Hm M') as [E _]. by rewrite (L3 j cj Hj M) in E. }
  split; simpl; [done|..].
  - intros j cj [[<- <-]|[_ Hj]]%lookup_insert_Some; [done|by eapply L2].
  - intros j cj [[<- <-]|[_ Hj]]%lookup_insert_Some M; [by apply Hm|by eapply Hd, L3].
  - intros j1 j2 c1 c2 [[<- <-]|[Hn1 H1]]%lookup_insert_Some [[<- <-]|[Hn2 H2]]%lookup_insert_Some M1 M2;
      try done; [by destruct (Hno _ _ H2)|by destruct (Hno _ _ H1)|by eapply L4].
Qed.

Lemma grows_cert d d' : grows d d' → cert_on_disk s a d = true → cert_on_disk s a d' = true.
Proof using Type. intros Hg. unfold cert_on_disk. rewrite !andb_true_iff. intros [? ?]. by rewrite !(grows_exists _ _ _ Hg). Qed.

(** A step on the disk alone, whose [wp] is known. *)
Lemma single_disk {A} (m : M CertFS A) p p' calls v :
  single s a (mkPSys p calls) → on_disk m p = Ret v p' →
  wp m (disk p) (λ _ d', cert_on_disk s a (disk p) = true → cert_on_disk s a d' = true) →
  single s a (mkPSys p' calls).
Proof using Type.
  intros Hl E Hw. unfold on_disk, zoom in E. destruct (m (disk p)) as [v' d'| |] eqn:Em; [|done..].
  injection E as <- <-. eapply single_shared; [done|apply Hl|]. rewrite disk_set_disk.
  exact (wp_Ret _ _ _ _ _ Hw Em).
Qed.

Lemma single_generate p p' calls i key b rnd now v :
  single s a (mkPSys p calls) → calls !! i = Some (PCValid key b) →
  on_disk (GenerateAgentCertIfNotExists s rnd now b) p = Ret v p' →
  single s a (mkPSys p' (<[i := generated key b v]> calls)).
Proof using Ha.
  intros Hl Hi E. pose proof (sg_shape _ _ _ Hl i _ Hi) as Hb. simpl in Hb. unfold on_disk, zoom in E.
  destruct (GenerateAgentCertIfNotExists s rnd now b (disk p)) as [v' d'| |] eqn:Eg; [|done..].
  injection E as -> <-.
  destruct (wp_Ret _ _ _ _ _ (GenerateAgentCertIfNotExists_spec s rnd now b (disk p) Hb) Eg) as (Hg & _ & Hv).
  apply (single_made p); [done|apply Hl|by destruct v as [[[c k]|]|e]|..].
  - by apply grows_cert.
  - destruct v as [[[c k]|]|e]; simpl; try done. intros [= ->].
    destruct Hv as (H0 & H1 & _). rewrite AgentCertExists_run in H0, H1.
    injection H0 as H0. injection H1 as H1. done.
Qed.

Lemma single_pstep w w' : single s a w → pstep s w w' → single s a w'.
Proof using Ha.
  intros Hl Hs. pose proof (sg_keys _ _ _ Hl) as Hk. pose proof (sg_shape _ _ _ Hl) as Hsh.
  destruct Hs as [p calls i key Hi|p p' calls i key now v Hi E|p p' calls i key b rnd now v Hi E
    |p p' calls i key b c k v Hi E|p p' calls i key b c k ca Hi E|p p' calls req random now r E
    |p p' calls order b r E|p p' calls order now n E|p calls f]; simpl in Hk, Hsh.
  - by apply (single_made p).
  - destruct (Validate_run key now (keyStore p)) as (v' & Ev & Hv).
    unfold in_keys, zoom in E. rewrite Ev in E. injection E as <- <-.
    eapply single_call; [by destruct p|exact Hi| |by destruct v']. destruct v' as [pk|e]; simpl; [|done].
    destruct (Hv _ eq_refl) as [Hp _]. by apply (Hk key pk).
  - by eapply single_generate.
  - unfold on_disk, zoom, GetCACert, try, mbind, M_bind in E.
    destruct (os_ReadFile (CaCertPath s) (disk p)) as [v' d'| |] eqn:Er; [|done..].
    pose proof (os_ReadFile_same _ _ _ _ Er) as ->.
    assert (p' = p) as -> by (destruct p; destruct v'; by injection E).
    pose proof (Hsh i _ Hi) as Hb. simpl in Hb.
    by eapply single_call; [exact Hl|exact Hi|destruct v..].
  - unfold in_keys, zoom in E. destruct (MarkUsed key (keyStore p)) as [[] ks'| |] eqn:Em; [|done..].
    injection E as <-. eapply single_call; [|exact Hi|by intros _; exists c, k, ca|done].
    apply (single_shared p); [done| |done]. by eapply keys_valid_used.
  - destruct (CreateProvisionKey_valid _ _ _ _ _ _ Hk E) as [Hk' Hd].
    apply (single_shared p); [done|done|]. by rewrite Hd.
  - destruct (RevokeProvisionKey_valid _ _ _ _ _ Hk E) as [Hk' Hd].
    apply (single_shared p); [done|done|]. by rewrite Hd.
  - unfold in_keys, zoom, cleanup in E. destruct (delete_where _ _ _) as [n' ks'| |] eqn:Ed; [|done..].
    injection E as _ <-. apply (single_shared p); [done| |done]. by eapply keys_valid_deleted.
  - by apply (single_shared p).
Qed.

Lemma single_step w w' : single s a w → with_admin s a w w' → single s a w'.
Proof using Ha.
  intros Hl Hs. destruct Hs as [w w' Hs|p p' calls b v Hb E|p p' calls b c v Hb E|p p' calls b k v Hb E
    |p p' calls b v Hne Hb E].
  - by eapply single_pstep.
  - eapply single_disk; [exact Hl|exact E|]. apply wp_ensureDirectory; [done|]. intros d Ef Ed.
    apply grows_cert. split; [done|]. intros q. by rewrite Ef.
  - eapply single_disk; [exact Hl|exact E|]. apply wp_writeCert; [done|].
    apply grows_cert. split; [done|]. intros q Hq. simpl. rewrite lookup_insert_is_Some'. auto.
  - eapply single_disk; [exact Hl|exact E|]. apply wp_writeKey; [done|].
    apply grows_cert. split; [done|]. intros q Hq. simpl. rewrite lookup_insert_is_Some'. auto.
  - eapply single_disk; [exact Hl|exact E|]. eapply wp_mono; [by apply (DeleteAgentCert_exists s b a)|].
    intros r d [H _] Hd. by rewrite H.
Qed.

Lemma single_reachable p w :
  keys_valid (keyStore p) → rtc (with_admin s a) (mkPSys p ∅) w → single s a w.
Proof using Ha.
  intros Hk Hr. eapply (rtc_invariant (with_admin s a) (single s a)); [exact Hr|by apply single_init|].
  intros w1 w2. apply single_step.
Qed.
End Locked.

(** An answered request stays as it is here too. *)
Lemma done_stable_admin s a w w' i m r :
  rtc (with_admin s a) w w' → ps_calls w !! i = Some (PCDone m r) → ps_calls w' !! i = Some (PCDone m r).
Proof.
  induction 1 as [w|w w1 w' Hs _ IH]; [done|]. intros Hi. apply IH. destruct Hs; try done.
  eapply done_stable; [by apply rtc_once|done].
Qed.

(** ** Properties *)

(** C18: provisioning under concurrency.  However requests, administrators' key
    operations, clean-ups and file system failures interleave, a request that is
    answered with a certificate got one for an agent that had none at the start,
    and the pair it got is the pair on disk; and no two requests, with the same
    key or with different ones, are answered with a certificate for one agent. *)
Theorem concurrent_provisioning s p w :
  keys_valid (keyStore p) → rtc (pstep s) (mkPSys p ∅) w →
  (∀ i m r, ps_calls w !! i = Some (PCDone m r) → pr_Status r = 200%Z →
     ∃ a c k ca, m = Some a ∧
       r = mkPReply 200 (PCertificate (mkProvisionResponse a (CertFile c) (KeyFile true k) ca)) ∧
       cert_on_disk s a (disk p) = false ∧ has_pair s a c k (disk (ps_state w))) ∧
  (∀ i j mi mj xi xj,
     ps_calls w !! i = Some (PCDone mi (mkPReply 200 (PCertificate xi))) →
     ps_calls w !! j = Some (PCDone mj (mkPReply 200 (PCertificate xj))) →
     pr_AgentID xi = pr_AgentID xj → i = j).
Proof.
  intros Hk Hr. pose proof (psys_reachable_ok s (disk p) p w Hk eq_refl Hr) as Hok.
  assert (∀ i m r, ps_calls w !! i = Some (PCDone m r) → pr_Status r = 200%Z →
     ∃ a c k ca, m = Some a ∧
       r = mkPReply 200 (PCertificate (mkProvisionResponse a (CertFile c) (KeyFile true k) ca)) ∧
       cert_on_disk s a (disk p) = false ∧ has_pair s a c k (disk (ps_state w))) as H200.
  { intros i m r Hi Hs. pose proof (po_call _ _ _ Hok i _ Hi) as Hc.
    destruct m as [a|]; simpl in Hc; [|done].
    destruct Hc as (_ & H0 & [[_ (c & k & ca & Hp & ->)]|[H5 _]]); [|congruence]. by exists a, c, k, ca. }
  split; [done|]. intros i j mi mj xi xj Hi Hj Ha.
  destruct (H200 i mi _ Hi eq_refl) as (a & c & k & ca & -> & [= ->] & _).
  destruct (H200 j mj _ Hj eq_refl) as (b & c' & k' & ca' & -> & [= ->] & _). simpl in Ha. subst b.
  by apply (po_once _ _ _ Hok i j _ _ a Hi Hj).
Qed.

(** C39: an agent can be locked out.  A request that has made an agent's certificate
    and then fails to read the CA certificate answers 500.  Unless an administrator
    deletes that agent's certificate, whatever provisioning requests with whatever
    keys, administrators' operations on keys, creations of certificates (of this
    agent too) and deletions of other agents' do, in any interleaving, no request
    is ever answered with a certificate for that agent, while a pair for it stays on
    disk.  When an administrator does delete it, the next request whose key is
    accepted is not refused for an existing certificate. *)
Theorem provisioning_locks_out s p w w' i a r :
  ValidateAgentID a = None → keys_valid (keyStore p) → rtc (with_admin s a) (mkPSys p ∅) w →
  ps_calls w !! i = Some (PCDone (Some a) r) → pr_Status r = 500%Z → rtc (with_admin s a) w w' →
  cert_on_disk s a (disk (ps_state w')) = true ∧
  (∀ j m x, ps_calls w' !! j = Some (PCDone m (mkPReply 200 (PCertificate x))) → pr_AgentID x ≠ a) ∧
  (∀ p'', on_disk (DeleteAgentCert s a) (ps_state w') = Ret (Ok ()) p'' →
     cert_on_disk s a (disk p'') = false ∧
     ∀ rnd now v p3, on_disk (GenerateAgentCertIfNotExists s rnd now a) p'' = Ret v p3 → v ≠ Ok None).
Proof.
  intros Ha Hk Hr Hi Hs Hr'. pose proof (done_stable_admin _ _ _ _ _ _ _ Hr' Hi) as Hi'.
  destruct (single_reachable s a Ha p w' Hk ltac:(etrans; [exact Hr|exact Hr'])) as [L1 L2 L3 L4].
  split; [by apply (L3 i _ Hi')|]. split.
  - intros j m x Hj Hx. specialize (L2 j _ Hj). destruct m as [b|]; simpl in L2; [|done].
    destruct (L2 eq_refl) as (c & k & ca & E). injection E as ->. simpl in Hx. subst b.
    pose proof (L4 i j _ _ Hi' Hj eq_refl eq_refl) as <-. rewrite Hi' in Hj. injection Hj as ->. done.
  - intros p'' E. unfold on_disk, zoom in E.
    destruct (DeleteAgentCert s a (disk (ps_state w'))) as [v d| |] eqn:Ed; [|done..]. injection E as -> <-.
    destruct (wp_Ret _ _ _ _ _ (DeleteAgentCert_exists s a a _ Ha Ha) Ed) as [_ Hgone].
    rewrite disk_set_disk. split; [by apply Hgone|]. intros rnd now v p3 E.
    unfold on_disk, zoom in E. rewrite disk_set_disk in E.
    destruct (GenerateAgentCertIfNotExists s rnd now a d) as [v' d'| |] eqn:Eg; [|done..]. injection E as <- _.
    destruct (wp_Ret _ _ _ _ _ (GenerateAgentCertIfNotExists_spec s rnd now a d Ha) Eg) as (_ & _ & Hv).
    intros Ev. rewrite Ev in Hv. destruct Hv as [Hv _]. rewrite AgentCertExists_run, Hgone in Hv by done. discriminate Hv.
Qed.

(** The steps are those of [Provision]: run alone, one after the other, they
    take the application where [Provision] takes it, with its answer. *)
Lemma Provision_is_run s p calls i key rnd now r p' :
  calls !! i = Some (PCStart key) → Provision (Some s) (Ok key) rnd now p = Ret r p' →
  ∃ m, rtc (pstep s) (mkPSys p calls) (mkPSys p' (<[i := PCDone m r]> calls)).
Proof.
  intros Hi E. unfold Provision in E. apply bind_Ret in E as (v & p1 & E1 & E).
  eapply ps_validate in E1; [|exact Hi]. destruct v as [pk|e]; [|injection E as <- <-; eexists; by apply rtc_once].
  apply bind_Ret in E as (v & p2 & E2 & E).
  eapply (ps_generate _ _ _ (<[i := PCValid key (AgentID pk)]> calls)) in E2; [|apply lookup_insert_eq].
  rewrite insert_insert_eq in E2.
  destruct v as [[[c k]|]|e]; [|injection E as <- <-; eexists; by eapply rtc_l, rtc_once..].
  apply bind_Ret in E as (v & p3 & E3 & E).
  eapply (ps_ca _ _ _ (<[i := PCMade key (AgentID pk) c k]> calls)) in E3; [|apply lookup_insert_eq].
  rewrite insert_insert_eq in E3.
  destruct v as [ca|e]; [|injection E as <- <-; eexists; by eapply rtc_l, rtc_l, rtc_once].
  apply bind_Ret in E as ([] & p4 & E4 & E).
  eapply (ps_mark _ _ _ (<[i := PCRead key (AgentID pk) c k ca]> calls)) in E4; [|apply lookup_insert_eq].
  rewrite insert_insert_eq in E4. injection E as <- <-. eexists. by eapply rtc_l, rtc_l, rtc_l, rtc_once.
Qed.

(** ** Two requests with one key *)

Module TwoRequests.
Definition p0 : Provisioning := OneProvision.p.
Definition key : string := OneProvision.key.
Definition gen (k : nat) : M Provisioning (result (option (Certificate * nat))) :=
  on_disk (GenerateAgentCertIfNotExists Certs.s (Certs.rnd k) 150 "agent").
Definition after {A} (m : M Provisioning A) (p : Provisioning) : Provisioning :=
  match m p with Ret _ p' | Panic _ p' | Block p' => p' end.
Definition p1 : Provisioning := after (gen 3) p0.
Definition p2 : Provisioning := after (in_keys (MarkUsed key)) p1.
Definition c : Certificate :=
  mkCertificate (agent_template 7 150 "agent") 3 (["Silo Proxy CA"], "Silo Proxy Root CA") 1.
Definition reply : ProvisionReply :=
  mkPReply 200 (PCertificate (mkProvisionResponse "agent" (CertFile c) (KeyFile true 3) (CertFile Certs.ca))).
Definition both_valid : gmap nat pcall :=
  <[1 := PCValid key "agent"]> (<[0 := PCValid key "agent"]>
    (<[1 := PCStart key]> (<[0 := PCStart key]> ∅))).
Definition made : psys := mkPSys p1 (<[0 := PCMade key "agent" c 3]> both_valid).
Definition ended : psys :=
  mkPSys p2 (<[0 := PCDone (Some "agent") reply]> (<[0 := PCRead key "agent" c 3 (CertFile Certs.ca)]>
    (<[1 := PCDone None (p_error 409 "Certificate already exists for this agent")]> (ps_calls made)))).

Lemma made_reachable : rtc (pstep Certs.s) (mkPSys p0 ∅) made.
Proof.
  eapply rtc_l. { by apply (ps_new _ _ _ 0 key). }
  eapply rtc_l. { by apply (ps_new _ _ _ 1 key). }
  eapply rtc_l. { apply (ps_validate _ p0 p0 _ 0 key 150 (Ok OneProvision.pk)); [done|vm_compute; reflexivity]. }
  eapply rtc_l. { apply (ps_validate _ p0 p0 _ 1 key 150 (Ok OneProvision.pk)); [done|vm_compute; reflexivity]. }
  apply rtc_once. apply (ps_generate _ p0 p1 _ 0 key "agent" (Certs.rnd 3) 150 (Ok (Some (c, 3)))); [done|].
  vm_compute. reflexivity.
Qed.

Lemma ended_run : rtc (pstep Certs.s) (mkPSys p0 ∅) ended.
Proof.
  etrans; [exact made_reachable|].
  eapply rtc_l. { apply (ps_generate _ p1 p1 _ 1 key "agent" (Certs.rnd 4) 151 (Ok None)); [done|].
    vm_compute. reflexivity. }
  eapply rtc_l. { apply (ps_ca _ p1 p1 _ 0 key "agent" c 3 (Ok (CertFile Certs.ca))); [done|].
    vm_compute. reflexivity. }
  apply rtc_once. apply (ps_mark _ p1 p2 _ 0 key "agent" c 3 (CertFile Certs.ca)); [done|].
  vm_compute. reflexivity.
Qed.

(** The CA certificate cannot be read any more. *)
Definition unreadable : Faults :=
  mkFaults (λ p, if decide (p = "certs/ca-cert.pem") then Some (Errorf "input/output error") else None)
    (λ _, None) (λ _, None) (λ _, None).
Definition p1' : Provisioning := set_disk (set_faults unreadable (disk p1)) p1.
Definition failed : psys :=
  mkPSys p1' (<[0 := PCDone (Some "agent") (p_error 500 "Failed to read CA certificate")]> (ps_calls made)).

Lemma failed_reachable : rtc (pstep Certs.s) (mkPSys p0 ∅) failed.
Proof.
  etrans; [exact made_reachable|]. eapply rtc_l. { apply (ps_faults _ p1 _ unreadable). }
  apply rtc_once. apply (ps_ca _ p1' p1' _ 0 key "agent" c 3
    (Err (Wrapf "failed to read CA certificate" (Errorf "input/output error")))); [done|].
  vm_compute. reflexivity.
Qed.

(** An administrator writes a certificate for the agent, and the waiting request goes on. *)
Definition p1'' : Provisioning :=
  after (on_disk (writeCertToFile c (GetAgentCertPath Certs.s "agent"))) p1'.
Definition refused : psys :=
  mkPSys p1'' (<[1 := PCDone None (p_error 409 "Certificate already exists for this agent")]> (ps_calls failed)).
Definition deleted : Provisioning := after (on_disk (DeleteAgentCert Certs.s "agent")) p1''.

Lemma failed_admin : rtc (with_admin Certs.s "agent") (mkPSys p0 ∅) failed.
Proof. eapply (rtc_subrel _ _ _ _ (wa_provisioning _ _)), failed_reachable. Qed.

Lemma refused_run : rtc (with_admin Certs.s "agent") failed refused.
Proof.
  eapply rtc_l.
  { apply (wa_cert _ _ p1' p1'' _ "agent" c None); [done|]. vm_compute. reflexivity. }
  apply rtc_once, wa_provisioning.
  apply (ps_generate _ p1'' p1'' _ 1 key "agent" (Certs.rnd 4) 151 (Ok None)); [done|].
  vm_compute. reflexivity.
Qed.
End TwoRequests.

Lemma concurrent_provisioning_witness :
  ∃ c k, has_pair Certs.s "agent" c k (disk (ps_state TwoRequests.ended)).
Proof.
  destruct (concurrent_provisioning Certs.s TwoRequests.p0 TwoRequests.ended OneProvision.valid
    TwoRequests.ended_run) as [H _].
  destruct (H 0 (Some "agent") TwoRequests.reply) as (a & c & k & ca & Ha & _ & _ & Hp).
  - reflexivity.
  - reflexivity.
  - injection Ha as ->. exists c, k. exact Hp.
Defined.

(** The locked-out agent: another key is refused; after a deletion the same key is
    good. *)
Lemma provisioning_locks_out_witness :
  cert_on_disk Certs.s "agent" (disk (ps_state TwoRequests.refused)) = true ∧
  cert_on_disk Certs.s "agent" (disk TwoRequests.deleted) = false.
Proof.
  destruct (provisioning_locks_out Certs.s TwoRequests.p0 TwoRequests.failed TwoRequests.refused 0 "agent"
    (p_error 500 "Failed to read CA certificate") eq_refl OneProvision.valid TwoRequests.failed_admin)
    as (H1 & _ & H2).
  - reflexivity.
  - reflexivity.
  - exact TwoRequests.refused_run.
  - split; [exact H1|]. apply (H2 TwoRequests.deleted). vm_compute. reflexivity.
Defined.
