(* ===== verification/AgentMain.v ===== *)
(** * The agent's command line

    Models the flag parsing of [runProvision] in
    [src/cmd/silo-proxy-agent/provision.go] (the [flag] package it uses included)
    and the start of [main] in [src/cmd/silo-proxy-agent/main.go]: which of the two
    commands runs, the configuration it reads, and the process's exit code.  What
    [main] waits for is AgentProcess.v. *)
From stdpp Require Import base strings list gmap fin_maps.
From Stdlib Require Import ZArith Lia Ascii.
From S2P Require Import Prelude GoStd FileSystem CertService Tls ProvisionHandler.
From S2P Require Import AgentProvision GrpcClient Logging Configuration.

(** ** The flag package *)

Record Flags : Type := mkFlags {
  f_server : string;
  f_key : string;
  f_certDir : string;
  f_insecure : bool;
}.

(** [fs.String] and [fs.Bool] with their defaults. *)
Definition default_flags : Flags := mkFlags "" "" "./certs" false.

(** What [Parse] ends in with [flag.ExitOnError]: the flags and the arguments left,
    or the end of the process. *)
Inductive parsed : Type :=
  | Parsed (f : Flags) (rest : list string)
  | ParseExit (code : Z).

(** The setter of a string flag. *)
Definition string_flag (name : string) : option (string → Flags → Flags) :=
  if decide (name = "server") then Some (λ v f, mkFlags v (f_key f) (f_certDir f) (f_insecure f))
  else if decide (name = "key") then Some (λ v f, mkFlags (f_server f) v (f_certDir f) (f_insecure f))
  else if decide (name = "cert-dir") then Some (λ v f, mkFlags (f_server f) (f_key f) v (f_insecure f))
  else None.

(** [strconv.ParseBool] *)
Definition ParseBool (s : string) : option bool :=
  if decide (s ∈ ["1"; "t"; "T"; "true"; "TRUE"; "True"]) then Some true
  else if decide (s ∈ ["0"; "f"; "F"; "false"; "FALSE"; "False"]) then Some false
  else None.

(** The name of a flag and its value, cut at the first [=] after the first
    character. *)
Fixpoint cut_value (s : string) : string * option string :=
  match s with
  | EmptyString => ("", None)
  | String c s' =>
      if decide (c = "="%char) then ("", Some s')
      else let (n, v) := cut_value s' in (String c n, v)
  end.

(** The text after the dashes, for an argument that is a flag; [None] for one at
    which the flags end. *)
Definition flag_text (s : string) : option string :=
  match s with
  | String "-"%char (String "-"%char "") | String "-"%char "" => None
  | String "-"%char (String "-"%char t) => Some t
  | String "-"%char t => Some t
  | _ => None
  end.

(** [--] itself is dropped from the arguments. *)
Definition after_flags (args : list string) : list string :=
  match args with
  | "--" :: rest => rest
  | _ => args
  end.

Fixpoint Parse (args : list string) (f : Flags) : parsed :=
  match args with
  | [] => Parsed f []
  | s :: rest =>
      match flag_text s with
      | None => Parsed f (after_flags args)
      | Some text =>
          let (name, value) := cut_value text in
          if decide (HasPrefix text "-" = true ∨ HasPrefix text "=" = true) then ParseExit 2
          else
            match string_flag name with
            | Some set =>
                match value with
                | Some v => Parse rest (set v f)
                | None =>
                    match rest with
                    | v :: rest' => Parse rest' (set v f)
                    | [] => ParseExit 2
                    end
                end
            | None =>
                if decide (name = "insecure") then
                  match ParseBool (default "true" value) with
                  | Some b => Parse rest (mkFlags (f_server f) (f_key f) (f_certDir f) b)
                  | None => ParseExit 2
                  end
                else if decide (name = "help" ∨ name = "h") then ParseExit 0
                else ParseExit 2
            end
      end
  end.

(** ** main *)

Record AgentTLS : Type := mkAgentTLS {
  at_Enabled : bool;
  at_CertFile : string;
  at_KeyFile : string;
  at_CAFile : string;
  at_ServerNameOverride : string;
}.

Record AgentGrpc : Type := mkAgentGrpc {
  ServerAddress : string;
  cfg_AgentID : string;
  ag_TLS : AgentTLS;
}.

Record LocalConfig : Type := mkLocal { ServiceURL : string }.

Record AgentConfig : Type := mkAgentConfig {
  ac_Log : LogConfig;
  ac_Http : HttpConfig;
  ac_Grpc : AgentGrpc;
  ac_Local : LocalConfig;
}.

Definition agent_InitConfig (lib : Libraries AgentConfig) : M (Boot AgentConfig) unit :=
  InitConfig lib (λ c, Level_ (ac_Log c)) "./cmd/silo-proxy-agent".

Inductive agent_state : Type :=
  | AgentExit (code : Z)
  | AgentRunning (c : Client).

Definition on_boot {A} : M (Boot AgentConfig) A → M (Boot AgentConfig * CertFS) A :=
  zoom fst (λ b s, (b, s.2)).
Definition on_disk {A} : M CertFS A → M (Boot AgentConfig * CertFS) A :=
  zoom snd (λ d s, (s.1, d)).

(** [post insecure url key] is the POST of the key, with or without the check of
    the server's certificate. *)
Definition agent_main (post : bool → string → string → result PostResponse) (lib : Libraries AgentConfig)
    (args : list string) : M (Boot AgentConfig * CertFS) agent_state :=
  match args with
  | _ :: "provision" :: flags =>
      match Parse flags default_flags with
      | ParseExit code => mret (AgentExit code)
      | Parsed f _ =>
          r ← on_disk (runProvision (post (f_insecure f)) (f_server f) (f_key f) (f_certDir f));
          match r with
          | Ok paths => _ ← on_boot (for_each (provision_lines paths) Println); mret (AgentExit 0)
          | Err _ => mret (AgentExit 1)
          end
      end
  | _ =>
      _ ← on_boot (agent_InitConfig lib);
      s ← get;
      let config := bt_config s.1 in
      mret (AgentRunning (NewClient (cfg_AgentID (ac_Grpc config)) (at_Enabled (ag_TLS (ac_Grpc config)))))
  end.

(** ** Facts *)

(** The ways to write a flag with its value. *)
Inductive spells (name v : string) : list string → Prop :=
  | spells_two dashes : dashes = "-" ∨ dashes = "--" → spells name v [dashes +:+ name; v]
  | spells_one dashes : dashes = "-" ∨ dashes = "--" → spells name v [dashes +:+ name +:+ "=" +:+ v].

(** Whichever way a string flag is written, it sets its value. *)
Lemma Parse_flag name set v args rest f :
  string_flag name = Some set → spells name v args → Parse (args ++ rest) f = Parse rest (set v f).
Proof.
  intros Hn Hs.
  assert (name = "server" ∨ name = "key" ∨ name = "cert-dir") as Hname.
  { unfold string_flag in Hn. repeat case_decide; naive_solver. }
  destruct Hs as [d Hd|d Hd]; destruct Hd as [-> | ->]; destruct Hname as [->|[->| ->]];
    injection Hn as <-; reflexivity.
Qed.

(** The command line of the documentation, each flag written in any way. *)
Lemma Parse_command a1 a2 a3 server key dir :
  spells "server" server a1 → spells "key" key a2 → spells "cert-dir" dir a3 →
  Parse (a1 ++ a2 ++ a3) default_flags = Parsed (mkFlags server key dir false) [].
Proof.
  intros H1 H2 H3. rewrite <- (app_nil_r a3).
  do 3 (erewrite Parse_flag; [| |eassumption]; [|reflexivity]). done.
Qed.

Lemma Parse_code args f c : Parse args f = ParseExit c → (0 ≤ c ≤ 2)%Z.
Proof.
  revert f. induction args as [args IH] using (induction_ltof1 _ (@length string)); intros f.
  unfold ltof in IH. destruct args as [|s rest]; [done|]. cbn [Parse].
  repeat case_match; intros E; try (injection E as <-; lia); try done; (eapply IH; [|exact E]); simpl; lia.
Qed.

(** What [save_provision] does to the files, whatever the name the server sent. *)
Lemma save_provision_writes certDir r fs :
  wp (save_provision certDir r) fs (λ v fs', ∀ paths, v = Ok paths →
    paths = saved_paths certDir (pr_AgentID r) ∧
    fs_files fs' = <[Clean (sp_CA paths) := CACertPEM r]> (<[Clean (sp_Key paths) := KeyPEM r]>
                     (<[Clean (sp_Cert paths) := CertPEM r]> (fs_files fs)))).
Proof.
  unfold save_provision. wp_steps. apply wp_MkdirAll; [done|]. intros fs1 E1 _. wp_steps.
  apply wp_MkdirAll; [done|]. intros fs2 E2 _. wp_steps. apply wp_WriteFile; [done|]. wp_steps.
  apply wp_WriteFile; [done|]. wp_steps. apply wp_WriteFile; [done|]. wp_steps.
  intros paths [= <-]. split; [done|]. cbn [fs_files]. by rewrite E2, E1.
Qed.

(** Lines printed. *)
Definition after_printing {C} (lines : list string) (b : Boot C) : Boot C :=
  mkBoot (bt_config b) (bt_environ b) (bt_adder b) (bt_logger b) (bt_stdout b ++ lines).

Lemma print_lines {C} lines (b : Boot C) : for_each lines Println b = Ret () (after_printing lines b).
Proof.
  revert b. induction lines as [|line lines IH]; intros b; cbn [for_each].
  - unfold after_printing. rewrite app_nil_r. by destruct b.
  - etrans; [apply (bind_run _ _ _ _ _ eq_refl)|]. cbv beta. rewrite IH. unfold after_printing. cbn.
    by rewrite <- (assoc_L (++)).
Qed.

(** What was sent, saved and reported when [runProvision] succeeds: the three
    files of [saved_paths], for whatever name the server answered, and no other.
    [runProvision] does not check the name.  A name [ValidateAgentID] accepts (every name
    a provisioning key of this server carries) puts the three, all different, in the
    directory asked for. *)
Definition saved_by (post : string → string → result PostResponse) (server key certDir : string)
    (fs fs' : CertFS) (paths : SavedPaths) : Prop :=
  server ≠ "" ∧ key ≠ "" ∧
  ∃ resp r, post (server +:+ "/api/v1/provision") key = Ok resp ∧ po_StatusCode resp = 200%Z ∧
    po_Decoded resp = Ok r ∧
    let id := pr_AgentID r in
    let s := agent_side certDir in
    paths = saved_paths certDir id ∧
    fs_files fs' = <[Clean (sp_CA paths) := CACertPEM r]> (<[Clean (sp_Key paths) := KeyPEM r]>
                     (<[Clean (sp_Cert paths) := CertPEM r]> (fs_files fs))) ∧
    (ValidateAgentID id = None →
       paths = mkPaths id (GetAgentCertPath s id) (GetAgentKeyPath s id) (CaCertPath s) ∧
       NoDup [GetAgentCertPath s id; GetAgentKeyPath s id; CaCertPath s] ∧
       Clean (sp_Cert paths) = sp_Cert paths ∧ Clean (sp_Key paths) = sp_Key paths ∧
       Clean (sp_CA paths) = sp_CA paths).

Lemma saved_paths_valid certDir id :
  ValidateAgentID id = None →
  let s := agent_side certDir in let paths := saved_paths certDir id in
  paths = mkPaths id (GetAgentCertPath s id) (GetAgentKeyPath s id) (CaCertPath s) ∧
  NoDup [GetAgentCertPath s id; GetAgentKeyPath s id; CaCertPath s] ∧
  Clean (sp_Cert paths) = sp_Cert paths ∧ Clean (sp_Key paths) = sp_Key paths ∧
  Clean (sp_CA paths) = sp_CA paths.
Proof.
  intros Hid s paths. subst paths. rewrite saved_paths_eq by done. fold s. cbn [sp_Cert sp_Key sp_CA].
  assert (GetAgentCertPath s id ≠ CaCertPath s) by by apply ca_path_ne.
  assert (GetAgentKeyPath s id ≠ CaCertPath s) by by apply ca_path_ne.
  assert (GetAgentCertPath s id ≠ GetAgentKeyPath s id) by by apply suffix_ne.
  split_and!; [done| |by apply Clean_cert|by apply Clean_key|apply Clean_Join; by split_and!].
  rewrite !NoDup_cons, !not_elem_of_cons. split_and!; try done; try apply not_elem_of_nil. apply NoDup_nil_2.
Qed.

Lemma runProvision_spec post server key certDir fs :
  wp (runProvision post server key certDir) fs (λ v fs',
    ∀ paths, v = Ok paths → saved_by post server key certDir fs fs' paths).
Proof.
  apply wp_run. unfold runProvision.
  case_decide; [by eexists _, _; split; [|intros []]|]. case_decide; [by eexists _, _; split; [|intros []]|].
  destruct (post _ _) as [resp|] eqn:Ep; [|by eexists _, _; split; [|intros ? [=]]].
  destruct (po_Body resp) as [body|] eqn:Eb; [|by eexists _, _; split; [|intros ? [=]]].
  case_decide as Hs; [by eexists _, _; split; [|intros []]|].
  destruct (po_Decoded resp) as [r|] eqn:Ed; [|by eexists _, _; split; [|intros ? [=]]].
  pose proof (save_provision_writes certDir r fs) as Hr. apply wp_run in Hr as (v & fs' & E & Hw).
  exists v, fs'. split; [done|]. destruct v as [paths|]; [intros _ [= <-]|by intros ? [=]].
  destruct (Hw _ eq_refl) as [Epaths Ef].
  split_and!; [done..|]. exists resp, r. split; [done|].
  split; [by destruct (decide (po_StatusCode resp = 200%Z))|]. split; [done|]. cbv zeta.
  split; [done|]. split; [done|]. intros Hid. subst paths. by apply saved_paths_valid.
Qed.

(** ** Properties *)

(** C38: the provision command.  With a server, a key and a directory, each given in
    any of the spellings of a flag, the agent provisions with exactly those and
    with the server's certificate checked; whatever the arguments, the process ends
    with 0, 1 or 2, and with 0, unless help was asked for, only when the server
    answered 200 and the certificate, the key and the CA it sent were written to the
    three files [saved_paths] names for the agent id it answered, with no other file
    touched; then it has printed the agent's name and those files as settings, and
    else nothing.  For an id that [ValidateAgentID] accepts the three differ and are
    those of the agent under the directory asked for; the command does not check the
    id (see [provision_escapes_directory]). *)
Theorem provision_command post lib prog args b fs :
  (∀ a1 a2 a3 server key dir,
     spells "server" server a1 → spells "key" key a2 → spells "cert-dir" dir a3 →
     args = a1 ++ a2 ++ a3 → Parse args default_flags = Parsed (mkFlags server key dir false) []) ∧
  wp (agent_main post lib (prog :: "provision" :: args)) (b, fs) (λ r s,
    let fs' := s.2 in
    ∃ code, r = AgentExit code ∧ (0 ≤ code ≤ 2)%Z ∧
      match Parse args default_flags with
      | ParseExit c => code = c ∧ s = (b, fs)
      | Parsed f _ =>
          code = 0%Z ∧ (∃ paths,
            runProvision (post (f_insecure f)) (f_server f) (f_key f) (f_certDir f) fs = Ret (Ok paths) fs' ∧
            saved_by (post (f_insecure f)) (f_server f) (f_key f) (f_certDir f) fs fs' paths ∧
            s.1 = after_printing (provision_lines paths) b) ∨
          code = 1%Z ∧ s.1 = b ∧ (∃ e,
            runProvision (post (f_insecure f)) (f_server f) (f_key f) (f_certDir f) fs = Ret (Err e) fs')
      end).
Proof.
  split; [intros * H1 H2 H3 ->; by apply Parse_command|]. cbn [agent_main].
  destruct (Parse args default_flags) as [f rest|code] eqn:Ep;
    [|wp_steps; exists code; pose proof (Parse_code _ _ _ Ep); by repeat split; lia].
  unfold on_disk. wp_steps.
  pose proof (runProvision_spec (post (f_insecure f)) (f_server f) (f_key f) (f_certDir f) fs) as Hr.
  apply wp_run in Hr as (v & fs' & E & Hv). unfold wp. cbn [fst snd]. rewrite E.
  destruct v as [paths|e].
  - unfold mbind, M_bind, on_boot, zoom. cbn [fst snd]. rewrite print_lines. cbn.
    exists 0%Z. split; [done|]. split; [lia|]. left. split; [done|]. exists paths. auto.
  - exists 1%Z. split; [done|]. split; [lia|]. right. split_and!; [done..|]. by exists e.
Qed.

(** An id with [..] in the server's answer takes the key out of the directory the
    user named, and the command still succeeds. *)
Theorem provision_escapes_directory server key body cert k ca :
  server ≠ "" → key ≠ "" →
  match runProvision (λ _ _, Ok (mkPost 200 (Ok body) (Ok (mkProvisionResponse "../../evil" cert k ca))))
          server key "certs" (mkFS ∅ {[".."]} no_faults) with
  | Ret (Ok _) fs' => fs_files fs' !! "../evil-key.pem" = Some k
  | _ => False
  end.
Proof.
  intros Hs Hk. unfold runProvision. case_decide; [done|]. case_decide; [done|]. vm_compute. reflexivity.
Qed.

(** An agent and its configuration.  An agent that cannot read or decode its
    configuration dies with the error, with no client made; any other runs a client
    of the identity and the TLS setting it decoded, logs at the configured level and
    prints its configuration only at DEBUG. *)
Theorem agent_boots post lib args env l out zero fs :
  (∀ prog flags, args ≠ prog :: "provision" :: flags) →
  let dir := "./cmd/silo-proxy-agent" in
  let env' := godotenv_Load lib env in
  let log_level c := Level_ (ac_Log c) in
  agent_main post lib args (mkBoot zero env no_settings l out, fs) =
  match ReadInConfig lib (init_settings dir), Unmarshal lib (init_settings dir) env' zero with
  | Some err, _ => Panic (Error err) (mkBoot zero env' (init_settings dir) l out, fs)
  | None, (c, Some err) => Panic (Error err) (mkBoot c env' (init_settings dir) l out, fs)
  | None, (c, None) =>
      Ret (AgentRunning (NewClient (cfg_AgentID (ac_Grpc c)) (at_Enabled (ag_TLS (ac_Grpc c)))))
        (mkBoot c env' (init_settings dir) (mkLogger (level_of (log_level c)) (lg_Out l))
           (out ++ printed lib log_level c), fs)
  end.
Proof.
  intros Hargs. cbv zeta.
  assert (∀ s : Boot AgentConfig * CertFS, agent_main post lib args s =
    (_ ← on_boot (agent_InitConfig lib);
     s ← get;
     let config := bt_config s.1 in
     mret (AgentRunning (NewClient (cfg_AgentID (ac_Grpc config)) (at_Enabled (ag_TLS (ac_Grpc config)))))) s)
    as ->.
  { intros s. unfold agent_main. repeat (case_match; try done). all: subst; exfalso; by eapply Hargs. }
  unfold mbind at 1, M_bind at 1, on_boot, zoom. cbn [fst snd]. unfold agent_InitConfig. rewrite InitConfig_run.
  cbv zeta. destruct (ReadInConfig lib _) as [err|]; [done|]. by destruct (Unmarshal lib _ _ zero) as [c [err|]].
Qed.

(** ** An agent whose configuration is all defaults *)

Module DefaultAgent.
Definition http : HttpConfig := mkHttpConfig 8080 (mkPortRange 0 0) "".
Definition config : AgentConfig :=
  mkAgentConfig (mkLogConfig "debug" http) http (mkAgentGrpc "localhost:9090" "agent-1" (mkAgentTLS false "" "" "" ""))
    (mkLocal "http://localhost:3000").
Definition libraries : Libraries AgentConfig :=
  mkLibraries id (λ _, None) (λ _ _ _, (config, None)) (λ _, Ok "{}").
Definition boot : Boot AgentConfig := mkBoot config ∅ no_settings (mkLogger LevelInfo []) [].
End DefaultAgent.

Lemma provision_command_witness :
  ∃ paths, saved_by OneAgent.post "https://proxy.example" OneProvision.key "./certs" OneAgent.disk0
    OneAgent.agent_disk paths ∧
  agent_main (λ _, OneAgent.post) DefaultAgent.libraries
    ["silo-proxy-agent"; "provision"; "--server=https://proxy.example"; "--key"; OneProvision.key;
     "--cert-dir"; "./certs"] (DefaultAgent.boot, OneAgent.disk0) =
    Ret (AgentExit 0) (after_printing (provision_lines paths) DefaultAgent.boot, OneAgent.agent_disk).
Proof.
  set (args := ["--server=https://proxy.example"; "--key"; OneProvision.key; "--cert-dir"; "./certs"]).
  destruct (provision_command (λ _, OneAgent.post) DefaultAgent.libraries "silo-proxy-agent" args
              DefaultAgent.boot OneAgent.disk0) as [Hparse Hrun].
  assert (Parse args default_flags = Parsed (mkFlags "https://proxy.example" OneProvision.key "./certs" false) [])
    as Ep.
  { apply (Hparse ["--server=https://proxy.example"] ["--key"; OneProvision.key] ["--cert-dir"; "./certs"]).
    - apply (spells_one "server" "https://proxy.example" "--"). by right.
    - apply (spells_two "key" OneProvision.key "--"). by right.
    - apply (spells_two "cert-dir" "./certs" "--"). by right.
    - reflexivity. }
  assert (agent_main (λ _, OneAgent.post) DefaultAgent.libraries
    ("silo-proxy-agent" :: "provision" :: args) (DefaultAgent.boot, OneAgent.disk0) =
    Ret (AgentExit 0) (after_printing (provision_lines OneAgent.paths) DefaultAgent.boot, OneAgent.agent_disk))
    as E by (vm_compute; reflexivity).
  unfold wp in Hrun. rewrite E, Ep in Hrun. destruct Hrun as (code & Hc & _ & [(_ & paths & _ & Hs & Ho)|(-> & _)]);
    [|discriminate Hc].
  exists paths. split; [exact Hs|]. etrans; [exact E|]. cbn [fst] in Ho. rewrite Ho. reflexivity.
Defined.

Lemma agent_boots_witness :
  match agent_main (λ _, OneAgent.post) DefaultAgent.libraries ["silo-proxy-agent"]
          (DefaultAgent.boot, OneAgent.disk0) with
  | Ret (AgentRunning c) (b, _) =>
      c_agentID c = "agent-1" ∧ lg_Level (bt_logger b) = LevelDebug ∧ bt_stdout b = ["Config loaded:"; "{}"]
  | _ => False
  end.
Proof.
  unfold DefaultAgent.boot.
  rewrite (agent_boots (λ _, OneAgent.post) DefaultAgent.libraries ["silo-proxy-agent"] ∅ (mkLogger LevelInfo []) []
    DefaultAgent.config OneAgent.disk0).
  - split; [reflexivity|]. split; reflexivity.
  - intros prog flags H. discriminate H.
Defined.
