(* ===== verification/Shutdown.v ===== *)
(** * Shutting a process down

    What the [main] functions of the two commands share: the signals, where [main]
    and its goroutines can be, and the channels between them. *)
From stdpp Require Import base strings list gmap.
From Stdlib Require Import ZArith Lia.
From S2P Require Import Prelude.

Inductive signal : Type := SIGINT | SIGTERM.

(** A goroutine that stops a server: not started, started, waiting, returned. *)
Inductive stopper : Type := NotStarted | Begun | Stopping | Stopped.

(** Where [main] is: at the wait for a reason to stop, at [wg.Wait()], returned; or
    the process has panicked. *)
Inductive main_at : Type := Waiting | Joining | Finished | Crashed (msg : string).

#[export] Instance stopper_eq_dec : EqDecision stopper.
Proof. solve_decision. Defined.

(** [main] has not returned and nothing has panicked. *)
Definition alive (m : main_at) : Prop := m = Waiting ∨ m = Joining.

(** ** Channels keep their capacity, and none here is closed *)

Lemma ch_send_same {A} (x : A) c r c' : ch_send x c = Ret r c' → ch_cap c' = ch_cap c ∧ ch_closed c' = ch_closed c.
Proof. unfold ch_send. repeat case_match; try done. by intros [= <- <-]. Qed.
Lemma ch_try_send_same {A} (x : A) c r c' :
  ch_try_send x c = Ret r c' → ch_cap c' = ch_cap c ∧ ch_closed c' = ch_closed c.
Proof. unfold ch_try_send. repeat case_match; try done; by intros [= <- <-]. Qed.
Lemma ch_try_recv_same {A} (c : chan A) r c' :
  ch_try_recv c = Ret r c' → ch_cap c' = ch_cap c ∧ ch_closed c' = ch_closed c.
Proof. unfold ch_try_recv. case_match; by intros [= <- <-]. Qed.

Lemma ch_send_push {A} (x : A) c c' : ch_send x c = Ret () c' → c' = ch_push x c.
Proof. unfold ch_send. repeat case_match; try done. by intros [= <-]. Qed.
Lemma ch_try_recv_length {A} (c : chan A) x c' :
  ch_try_recv c = Ret (Some x) c' →
  ch_cap c' = ch_cap c ∧ ch_closed c' = ch_closed c ∧ length (ch_buf c) = S (length (ch_buf c')).
Proof. unfold ch_try_recv. by destruct (ch_buf c); intros [= <- <-]. Qed.

(** What is in a channel can be received. *)
Lemma ch_try_recv_some {A} (c : chan A) : ch_buf c ≠ [] → ∃ x c', ch_try_recv c = Ret (Some x) c'.
Proof. unfold ch_try_recv. destruct (ch_buf c) as [|x l]; [done|]. by eexists _, _. Qed.

(** A send with room left goes through. *)
Lemma ch_send_room {A} (x : A) c :
  ch_closed c = false → length (ch_buf c) < ch_cap c → ch_send x c = Ret () (ch_push x c).
Proof. intros Hc Hl. unfold ch_send, ch_full. by rewrite Hc, bool_decide_eq_false_2 by lia. Qed.
