(* ===== verification/AgentProcess.v ===== *)
(** * The agent's process

    Models the end of [main] in [src/cmd/silo-proxy-agent/main.go]: the client that
    was started, the goroutine that serves [/health], the signals, the wait on
    [quit] and the two goroutines that stop everything.  A step of the process is
    one step of one goroutine; [handle] is what the client makes of a request
    (RequestHandler.v). *)
From stdpp Require Import base strings list gmap fin_maps relations.
From Stdlib Require Import ZArith Lia.
From S2P Require Import Prelude GoStd Proto Http RequestHandler GrpcClient AgentProvision AgentMain Shutdown.

(** ** The process *)

(** The goroutine of [server.ListenAndServe]: serving, about to report its error, or
    returned. *)
Inductive listening : Type := Listening | Failing | Returned.

Record agent_process : Type := mkAP {
  ap_client : client_world;
  ap_quit : chan signal;
  ap_down : bool;                (** [server.Shutdown] was called *)
  ap_listen : listening;
  ap_http : stopper;             (** [server.Shutdown(ctx)] *)
  ap_grpc : stopper;             (** [grpcClient.Stop()] *)
  ap_main : main_at;
}.

(** [grpcClient.Start()], which cannot fail: the loop runs. *)
Definition Client_Start (c : Client) : client_world := mkCW c CTop ∅ ∅ 0.

(** What [main] leaves running when it reaches its wait. *)
Definition agent_start (c : Client) : agent_process :=
  mkAP (Client_Start c) (make_chan 1) false Listening NotStarted NotStarted Waiting.

Section Steps.
Context (handle : ProxyMessage → list Outgoing * result ProxyMessage).

(** The program's own steps. *)
Inductive agent_move : agent_process → agent_process → Prop :=
  | p_client w w' q d l h g m :
      own_step handle w w' → agent_move (mkAP w q d l h g m) (mkAP w' q d l h g m)
  | p_listen_failed w q d h g m :
      agent_move (mkAP w q d Listening h g m) (mkAP w q d Failing h g m)
  | p_listen_closed w q h g m :
      agent_move (mkAP w q true Listening h g m) (mkAP w q true Returned h g m)
  | p_report w q q' d h g m :
      ch_send SIGTERM q = Ret () q' →
      agent_move (mkAP w q d Failing h g m) (mkAP w q' d Returned h g m)
  | p_received w q q' d l h g s :
      ch_try_recv q = Ret (Some s) q' →
      agent_move (mkAP w q d l h g Waiting) (mkAP w q' d l Begun Begun Joining)
  | p_shutdown w q d l g m :
      agent_move (mkAP w q d l Begun g m) (mkAP w q true l Stopping g m)
  | p_shut_down w q d l g m :      (** idle, or the ten seconds are over *)
      agent_move (mkAP w q d l Stopping g m) (mkAP w q d l Stopped g m)
  | p_stop c c' ph gs rq n q d l h m :
      Client_Stop c = Ret () c' →
      agent_move (mkAP (mkCW c ph gs rq n) q d l h Begun m) (mkAP (mkCW c' ph gs rq n) q d l h Stopping m)
  | p_stop_panic w q d l h m msg c' :
      Client_Stop (cw_client w) = Panic msg c' →
      agent_move (mkAP w q d l h Begun m) (mkAP w q d l h Begun (Crashed msg))
  | p_stopped w q d l h m :
      ch_closed (c_doneCh (cw_client w)) = true →
      agent_move (mkAP w q d l h Stopping m) (mkAP w q d l h Stopped m)
  | p_exit w q d l :
      agent_move (mkAP w q d l Stopped Stopped Joining) (mkAP w q d l Stopped Stopped Finished).

Definition own_move (p p' : agent_process) : Prop := alive (ap_main p) ∧ agent_move p p'.

(** With the signals, which [signal.Notify] drops when [quit] is full. *)
Inductive agent_step : agent_process → agent_process → Prop :=
  | p_own p p' : own_move p p' → agent_step p p'
  | p_signal w q q' d l h g m s sent :
      alive m → ch_try_send s q = Ret sent q' →
      agent_step (mkAP w q d l h g m) (mkAP w q' d l h g m).
End Steps.

(** ** The invariant *)

Definition stopping (g : stopper) : bool := bool_decide (g = Stopping ∨ g = Stopped).

Record ap_ok (p : agent_process) : Prop := {
  ap_cw : cw_ok (ap_client p);
  ap_queue : ch_cap (ap_quit p) = 1 ∧ ch_closed (ap_quit p) = false;
  ap_stop : ch_closed (c_stopCh (cw_client (ap_client p))) = stopping (ap_grpc p);
  ap_ended : ap_grpc p = Stopped → cw_phase (ap_client p) = CEnd;
  ap_shut : ap_down p = stopping (ap_http p);
  ap_at : match ap_main p with
    | Waiting => ap_http p = NotStarted ∧ ap_grpc p = NotStarted
    | Joining => ap_http p ≠ NotStarted ∧ ap_grpc p ≠ NotStarted
    | Finished => ap_http p = Stopped ∧ ap_grpc p = Stopped
    | Crashed _ => False
    end;
}.

Lemma cstep_end handle w w' : cstep handle w w' → cw_phase w = CEnd → cw_phase w' = CEnd.
Proof. destruct 1 as [w w' Hl| | | | | | |]; simpl; try done. by destruct Hl. Qed.

Lemma ap_ok_start a tls : ap_ok (agent_start (NewClient a tls)).
Proof. split; simpl; try done. apply cw_ok_init. Qed.

(** The client's [Stop] closes [stopCh] and changes nothing else the loop uses. *)
Lemma Client_Stop_spec c :
  ch_closed (c_stopCh c) = false → ∃ c', Client_Stop c = Ret () c' ∧ ch_closed (c_stopCh c') = true.
Proof.
  intros Hs. unfold Client_Stop, mbind, M_bind, zoom, ch_close, modify. rewrite Hs. by eexists.
Qed.

Lemma ap_ok_move handle p p' : ap_ok p → own_move handle p p' → ap_ok p'.
Proof.
  intros [C [Q1 Q2] S E D A] [Hm Hs].
  destruct Hs as [w w' q d l h g m [Hw Hc]|w q d h g m|w q h g m|w q q' d h g m Hq|w q q' d l h g s Hq|w q d l g m
    |w q d l g m|c c' ph gs rq n q d l h m Hc|w q d l h m msg c' Hc|w q d l h m Hc|w q d l]; simpl in *.
  - split; simpl; try done; [by eapply cstep_ok|by rewrite Hc|]. intros Hg. by eapply cstep_end, E.
  - by split.
  - by split.
  - destruct (ch_send_same _ _ _ _ Hq) as [R1 R2]. split; simpl; rewrite ?R1, ?R2; done.
  - destruct (ch_try_recv_same _ _ _ Hq) as [Q1' Q2']. destruct A as [-> ->].
    split; simpl; rewrite ?Q1', ?Q2'; done.
  - split; simpl; try done. destruct m; naive_solver.
  - split; simpl; try done. destruct m; naive_solver.
  - split; simpl; try done; [by apply (cstep_ok handle _ _ C), c_stop| |destruct m; naive_solver].
    destruct (Client_Stop_spec c S) as (c1 & Hc1 & Hcl). rewrite Hc in Hc1. by injection Hc1 as ->.
  - destruct (Client_Stop_spec _ S) as (c1 & Hc1 & _). by rewrite Hc in Hc1.
  - split; simpl; try done; [|destruct m; naive_solver].
    intros _. rewrite (cw_done _ C) in Hc. by apply bool_decide_eq_true in Hc.
  - by split.
Qed.

Lemma ap_ok_step handle p p' : ap_ok p → agent_step handle p p' → ap_ok p'.
Proof.
  intros Hok Hs. destruct Hs as [p1 p2 Hm|w q q' d l h g m s sent Hm Hq]; [by apply (ap_ok_move handle p1)|].
  destruct Hok as [C [Q1 Q2] S E D A]. simpl in *. destruct (ch_try_send_same _ _ _ _ Hq) as [R1 R2].
  split; simpl; rewrite ?R1, ?R2; done.
Qed.

Lemma ap_reachable_ok handle a tls p : rtc (agent_step handle) (agent_start (NewClient a tls)) p → ap_ok p.
Proof. intros Hr. eapply rtc_invariant; [exact Hr|apply ap_ok_start|]. intros ???. by apply (ap_ok_step handle). Qed.

(** ** Stopping *)

Lemma own_moves_client handle w w' q d l h g m :
  alive m → rtc (own_step handle) w w' → rtc (own_move handle) (mkAP w q d l h g m) (mkAP w' q d l h g m).
Proof.
  intros Hm Hr. induction Hr as [|w w1 w' Hs _ IH]; [apply rtc_refl|].
  eapply rtc_l; [split; [done|by apply p_client]|done].
Qed.

Lemma http_stops handle w q d l h g m :
  alive m → h ≠ NotStarted →
  ∃ d', rtc (own_move handle) (mkAP w q d l h g m) (mkAP w q d' l Stopped g m).
Proof.
  intros Hm Hh. destruct h; [done|exists true|exists d..].
  - eapply rtc_l; [split; [done|apply p_shutdown]|]. apply rtc_once. split; [done|apply p_shut_down].
  - apply rtc_once. split; [done|apply p_shut_down].
  - apply rtc_refl.
Qed.

Lemma grpc_stops handle w q d l h g m :
  ap_ok (mkAP w q d l h g m) → alive m → g ≠ NotStarted →
  ∃ w', rtc (own_move handle) (mkAP w q d l h g m) (mkAP w' q d l h Stopped m).
Proof.
  assert (∀ w, ap_ok (mkAP w q d l h Stopping m) → alive m →
    ∃ w', rtc (own_move handle) (mkAP w q d l h Stopping m) (mkAP w' q d l h Stopped m)) as Hwait.
  { intros w1 Hok Hm. pose proof (ap_stop _ Hok) as Hst. simpl in Hst.
    destruct (client_ends handle w1 (ap_cw _ Hok) Hst) as (w' & Hr & Hend). exists w'.
    eapply rtc_r; [by apply own_moves_client|]. split; [done|]. apply p_stopped.
    pose proof (rtc_invariant _ cw_ok _ _ Hr (ap_cw _ Hok) (own_step_ok handle)) as Hok'.
    rewrite (cw_done _ Hok'). by apply bool_decide_eq_true. }
  intros Hok Hm Hg. destruct g; [done| |by apply Hwait|exists w; apply rtc_refl].
  destruct w as [c ph gs rq n]. pose proof (ap_stop _ Hok) as Hst. simpl in Hst.
  destruct (Client_Stop_spec c Hst) as (c' & Hc & _).
  assert (own_move handle (mkAP (mkCW c ph gs rq n) q d l h Begun m) (mkAP (mkCW c' ph gs rq n) q d l h Stopping m))
    as H1 by (split; [done|by apply p_stop]).
  destruct (Hwait _ (ap_ok_move _ _ _ Hok H1) Hm) as (w' & Hr). exists w'. by eapply rtc_l.
Qed.

Lemma join_finishes handle w q d l h g :
  ap_ok (mkAP w q d l h g Joining) →
  ∃ p', rtc (own_move handle) (mkAP w q d l h g Joining) p' ∧ ap_main p' = Finished.
Proof.
  intros Hok. assert (alive Joining) as Hm by by right. pose proof (ap_at _ Hok) as [Hh Hg]. simpl in Hh, Hg.
  destruct (http_stops handle w q d l h g Joining Hm Hh) as (d' & Hr1).
  pose proof (rtc_invariant _ ap_ok _ _ Hr1 Hok (ap_ok_move handle)) as Hok1.
  destruct (grpc_stops handle w q d' l Stopped g Joining Hok1 Hm Hg) as (w' & Hr2).
  eexists. split; [|by instantiate (1 := mkAP w' q d' l Stopped Stopped Finished)].
  etrans; [exact Hr1|]. eapply rtc_r; [exact Hr2|]. split; [done|apply p_exit].
Qed.

Lemma quit_finishes handle w q d l h g :
  ap_ok (mkAP w q d l h g Waiting) → ch_buf q ≠ [] →
  ∃ p', rtc (own_move handle) (mkAP w q d l h g Waiting) p' ∧ ap_main p' = Finished.
Proof.
  intros Hok Hq. destruct (ch_try_recv_some q Hq) as (s & q' & Er).
  assert (own_move handle (mkAP w q d l h g Waiting) (mkAP w q' d l Begun Begun Joining)) as H1
    by (split; [by left|by eapply p_received]).
  destruct (join_finishes handle _ _ _ _ _ _ (ap_ok_move _ _ _ Hok H1)) as (p' & Hr & Hf).
  exists p'. split; [by eapply rtc_l|done].
Qed.

(** ** Properties *)

(** C17: the agent's process never crashes and exits clean.  Whatever the network, the
    HTTP server and the signals do, no goroutine of [main] panics (the client is
    stopped once); the client is told to stop only after [main] has left its wait,
    and when [main] returns the connection loop has ended, no connection to the
    server is open and the HTTP server has been shut down. *)
Theorem agent_exits_clean handle a tls p :
  rtc (agent_step handle) (agent_start (NewClient a tls)) p →
  (∀ msg, ap_main p ≠ Crashed msg) ∧
  (ap_main p = Waiting → ch_closed (c_stopCh (cw_client (ap_client p))) = false ∧ ap_down p = false) ∧
  (ap_main p = Finished →
     cw_phase (ap_client p) = CEnd ∧ c_open (cw_client (ap_client p)) = ∅ ∧
     ch_closed (c_doneCh (cw_client (ap_client p))) = true ∧ ap_down p = true).
Proof.
  intros Hr. destruct (ap_reachable_ok _ _ _ _ Hr) as [C Q S E D A]. destruct p as [w q d l h g m]. simpl in *.
  split_and!.
  - intros msg ->. done.
  - intros ->. destruct A as [-> ->]. done.
  - intros ->. destruct A as [-> ->]. pose proof (cw_conn _ C) as Hc. pose proof (cw_done _ C) as Hd.
    rewrite (E eq_refl) in Hc, Hd. simpl in Hc, Hd. naive_solver.
Qed.

(** C9: a signal ends the agent.  From every state the process can be in, once a
    signal is in [quit] or the HTTP server has failed, and at every point of the
    shutdown, the program's own steps can bring [main] to its return: no wait of the
    shutdown is a deadlock, whatever the client was doing (connecting, waiting to
    retry, sleeping, or in the middle of a stream). *)
Theorem signal_ends_agent handle a tls p :
  rtc (agent_step handle) (agent_start (NewClient a tls)) p →
  ap_main p = Joining ∨ (ap_main p = Waiting ∧ (ch_buf (ap_quit p) ≠ [] ∨ ap_listen p = Failing)) →
  ∃ p', rtc (own_move handle) p p' ∧ ap_main p' = Finished.
Proof.
  intros Hr Hp. pose proof (ap_reachable_ok _ _ _ _ Hr) as Hok. destruct p as [w q d l h g m]. simpl in Hp.
  destruct Hp as [->|[-> Hp]]; [by apply join_finishes|].
  destruct (decide (ch_buf q = [])) as [Eq|Hq]; [|by apply quit_finishes].
  destruct Hp as [Hp|Hl]; [done|]. simpl in Hl. subst l. destruct (ap_queue _ Hok) as [Q1 Q2]. simpl in Q1, Q2.
  assert (own_move handle (mkAP w q d Failing h g Waiting) (mkAP w (ch_push SIGTERM q) d Returned h g Waiting)) as H1.
  { split; [by left|]. apply p_report. apply ch_send_room; [done|]. rewrite Q1, Eq. simpl. lia. }
  destruct (quit_finishes handle _ _ _ _ _ _ (ap_ok_move _ _ _ Hok H1)) as (p' & Hr' & Hf); [by simpl; rewrite Eq|].
  exists p'. split; [by eapply rtc_l|done].
Qed.

(** ** An agent stopped while its stream is up *)

Module OneShutdown.
Import OneClient.
Definition streaming : client_world := mkCW connected (CStream 0) {[0 := new_gen]} ∅ 0.
Definition signalled : agent_process :=
  mkAP streaming (mkChan [SIGINT] 1 false) false Listening NotStarted NotStarted Waiting.

Lemma signalled_reachable : rtc (agent_step handle) (agent_start (NewClient "a" false)) signalled.
Proof.
  eapply rtc_l; [apply p_own; split; [by left|]; apply p_client; split|].
  { apply c_loop. by apply (c_connected _ (run (connect good "u") (NewClient "a" false)) _ _ _ good "u" 0). }
  { reflexivity. }
  apply rtc_once. by apply (p_signal _ streaming (make_chan 1) _ false _ _ _ Waiting SIGINT true); [left|].
Qed.
End OneShutdown.

Lemma agent_exits_clean_witness :
  ch_closed (c_stopCh (cw_client (ap_client OneShutdown.signalled))) = false.
Proof.
  destruct (agent_exits_clean OneClient.handle "a" false OneShutdown.signalled OneShutdown.signalled_reachable)
    as (_ & Hw & _).
  apply (Hw eq_refl).
Defined.

Lemma signal_ends_agent_witness :
  ∃ p', rtc (own_move OneClient.handle) OneShutdown.signalled p' ∧ ap_main p' = Finished.
Proof.
  apply (signal_ends_agent OneClient.handle "a" false OneShutdown.signalled OneShutdown.signalled_reachable).
  right. split; [reflexivity|]. left. discriminate.
Defined.
