(* ===== verification/ServerMain.v ===== *)
(** * The server's main

    Models the start of [main] in [src/cmd/silo-proxy-server/main.go]: the
    configuration it reads, the order in which the components are made from it, when
    the process gives up instead, and what they are when it serves.  The two
    goroutines it ends with are [serve] of Router.v for HTTP and [Start] of
    ServerStart.v, run from the state described here; [app_step] is what the
    goroutines of the running server do to that state, and waiting for them and for
    signals is ServerProcess.v. *)
From stdpp Require Import base strings list gmap fin_maps relations.
From Stdlib Require Import ZArith Lia.
From S2P Require Import Prelude GoStd PortManager AgentServerManager ServerInterface ConnectionManager.
From S2P Require Import GrpcServer KeyStore FileSystem CertService ProvisionHandler Users Auth Router.
From S2P Require Import CertHandler ProvisionConcurrency Tls ServerStart Database Logging Configuration.

(** ** The configuration *)

Record GrpcTLS : Type := mkGrpcTLS {
  TLS_Enabled : bool;
  TLS_CertFile : string;
  TLS_KeyFile : string;
  TLS_CAFile : string;
  TLS_CAKeyFile : string;
  TLS_ClientAuth : string;
  TLS_DomainNames : string;
  TLS_IPAddresses : string;
  TLS_AgentCertDir : string;
}.

Record GrpcConfig : Type := mkGrpcConfig { GrpcPort : Z; GrpcTLS_ : GrpcTLS }.

Record ProvisionConfig : Type := mkProvisionConfig {
  P_Enabled : bool;
  KeyTTLHours : Z;
  CleanupIntervalMinutes : Z;
}.

Record DBConfig : Type := mkDBConfig { Url : string; Schema : string }.

Record ServerConfig : Type := mkServerConfig {
  Log_ : LogConfig;
  Http_ : HttpConfig;
  Grpc_ : GrpcConfig;
  DB_ : DBConfig;
  JWT_ : Auth.Config;
  Provision_ : ProvisionConfig;
}.

Definition server_InitConfig (lib : Libraries ServerConfig) : M (Boot ServerConfig) unit :=
  InitConfig lib (λ c, Level_ (Log_ c)) "./cmd/silo-proxy-server".

(** ** The process *)

(** What the machine and the database bring to a start. *)
Record Machine : Type := mkMachine {
  m_db : DbEnv;
  m_users : Table;                        (** the rows the migrated table holds *)
  m_ParseIP : string → option string;
  m_rndCA : Random;
  m_rndServer : Random;
  m_now : Z;
  m_net : Net;
}.

(** What [main] changes while it starts. *)
Record Process : Type := mkProcess {
  pr_disk : CertFS;
  pr_log : Log;
  pr_grpc : GrpcServer.Server ASM;
}.

Definition in_db {A} : M Log A → M Process A :=
  zoom pr_log (λ l p, mkProcess (pr_disk p) l (pr_grpc p)).
Definition in_files {A} : M CertFS A → M Process A :=
  zoom pr_disk (λ d p, mkProcess d (pr_log p) (pr_grpc p)).
Definition in_server {A} : M (GrpcServer.Server ASM) A → M Process A :=
  zoom pr_grpc (λ g p, mkProcess (pr_disk p) (pr_log p) g).

(** A server that serves: the application behind the routes, the TLS settings and
    port of the gRPC server, and the interval of the clean-up goroutine. *)
Record Running : Type := mkRunning {
  run_app : App ASM;
  run_pool : Pool;
  run_certs : option Service;
  run_routes : list Route;
  run_grpcPort : Z;
  run_tls : ServerStart.TLSConfig;
  run_cleanup : option Z;
}.

Inductive startup : Type :=
  | Exited (code : Z)
  | Serving (r : Running).

(** [if err != nil { os.Exit(1) }] *)
Definition or_exit {A} (m : M Process (result A)) (k : A → M Process startup) : M Process startup :=
  r ← m;
  match r with
  | Ok a => k a
  | Err _ => mret (Exited 1)
  end.

Definition grpc_tls (t : GrpcTLS) : ServerStart.TLSConfig :=
  mkTLSConfig (TLS_Enabled t) (TLS_CertFile t) (TLS_KeyFile t) (TLS_CAFile t) (TLS_ClientAuth t).

(** [cert.New] with the machine's randomness. *)
Definition new_certs (e : Machine) (t : GrpcTLS) : M CertFS (result Service) :=
  New (m_ParseIP e) (m_rndCA e) (m_rndServer e) (m_now e) (TLS_CAFile t) (TLS_CAKeyFile t)
      (TLS_CertFile t) (TLS_KeyFile t) (TLS_AgentCertDir t) (TLS_DomainNames t) (TLS_IPAddresses t).

Definition migrate (e : Machine) (c : ServerConfig) : M Log (result unit) :=
  err ← RunMigrations (m_db e) (Url (DB_ c)) (Schema (DB_ c));
  mret (match err with Some err => Err err | None => Ok () end).

Definition cert_service (e : Machine) (c : ServerConfig) : M CertFS (result (option Service)) :=
  if TLS_Enabled (GrpcTLS_ (Grpc_ c))
  then try (new_certs e (GrpcTLS_ (Grpc_ c))) id (λ s, mret (Ok (Some s)))
  else mret (Ok None).

(** [NewPortManager] touches no state of the process. *)
Definition port_manager (c : ServerConfig) : M Process (result PortManager) :=
  zoom (λ _, ()) (λ _ p, p)
    (λ _, NewPortManager (PR_Start (AgentPortRange (Http_ c))) (PR_End (AgentPortRange (Http_ c)))).

Definition key_ttl (c : ServerConfig) : Z := int64 (KeyTTLHours (Provision_ c) * hour).
Definition cleanup_interval (c : ServerConfig) : Z := int64 (CleanupIntervalMinutes (Provision_ c) * minute).

(** Lines 96-115: the key store and the services.  The key store of a server
    without provisioning is [nil]; no route reaches the empty one it has here. *)
Definition serving (e : Machine) (c : ServerConfig) (pool : Pool) (certService : option Service) :
    M Process startup :=
  let keys := P_Enabled (Provision_ c) in
  if keys && bool_decide (certService = None) then mret (Exited 1)
  else
    p ← get;
    let keyStore := NewKeyStore (key_ttl c) in
    mret (Serving (mkRunning
      (mkApp (m_users e) (mkProvisioning keyStore (pr_disk p)) (pr_grpc p)) pool certService
      (SetupRoute true keys (AdminAPIKey (Http_ c)) (Secret (JWT_ c)))
      (GrpcPort (Grpc_ c)) (grpc_tls (GrpcTLS_ (Grpc_ c)))
      (if keys then Some (cleanup_interval c) else None))).

Definition server_main (e : Machine) (c : ServerConfig) : M Process startup :=
  or_exit (in_db (migrate e c)) (λ _,
  or_exit (mret (InitDB (m_db e) (Url (DB_ c)) (Schema (DB_ c)))) (λ pool,
  or_exit (in_files (cert_service e c)) (λ certService,
  or_exit (port_manager c) (λ portManager,
  _ ← in_server (Server_SetAgentServerManager (NewAgentServerManager portManager (m_net e)));
  serving e c pool certService)))).

Definition in_boot {A} : M (Boot ServerConfig) A → M (Boot ServerConfig * Process) A :=
  zoom fst (λ b s, (b, s.2)).
Definition in_process {A} : M Process A → M (Boot ServerConfig * Process) A :=
  zoom snd (λ p s, (s.1, p)).

Definition boot_server (lib : Libraries ServerConfig) (e : Machine) : M (Boot ServerConfig * Process) startup :=
  _ ← in_boot (server_InitConfig lib);
  s ← get;
  in_process (server_main e (bt_config s.1)).

(** The gRPC server as [Start] finds it. *)
Definition run_life (r : Running) : Lifecycle ASM :=
  mkLife (run_grpcPort r) (Some (run_tls r)) false None None (app_grpc (run_app r)) (disk (app_prov (run_app r))).

(** ** Facts *)

Lemma save_pair_returns what c k certPath keyPath fs :
  wp (save_pair what c k certPath keyPath (mret (Ok ()))) fs (λ _ _, True).
Proof.
  unfold save_pair. wp_steps. apply wp_ensureDirectory; [done|]. intros ? _ _. wp_steps.
  apply wp_writeCert; [done|]. wp_steps. apply wp_ensureDirectory; [done|]. intros ? _ _. wp_steps.
  apply wp_writeKey; [done|]. by wp_steps.
Qed.

Lemma ensureCertificates_returns s rnd1 rnd2 now fs :
  wp (ensureCertificates s rnd1 rnd2 now) fs (λ _ _, True).
Proof.
  unfold ensureCertificates. wp_steps. eapply (wp_mono _ _ (λ _ _, True)).
  - unfold ensure_ca, fileExists. wp_steps. case_match; wp_steps.
    + eapply wp_mono; [apply generate_spec|]. intros [[c k]|] ? _; [|done]. wp_steps.
      eapply wp_mono; [apply save_pair_returns|]. intros [] ? _; by wp_steps.
    + eapply wp_mono; [apply loadCA_spec|]. intros [] ? _; by wp_steps.
  - intros [[c k]|] fs1 _; [|done]. unfold fileExists. wp_steps. case_match; [|by wp_steps]. wp_steps.
    unfold GenerateServerCert. eapply wp_mono; [apply generate_spec|]. intros [[c' k']|] ? _; [|done].
    apply save_pair_returns.
Qed.

(** [ensureCertificates] of the server's certificates, with the machine's draws. *)
Definition certs_ensured (e : Machine) (s : Service) (fs fs' : CertFS) : Prop :=
  ensureCertificates s (m_rndCA e) (m_rndServer e) (m_now e) fs = Ret (Ok ()) fs'.

Lemma cert_service_spec e c fs :
  wp (cert_service e c) fs (λ r fs', ∀ cs, r = Ok cs →
    match cs with
    | Some s => TLS_Enabled (GrpcTLS_ (Grpc_ c)) = true ∧ certs_ensured e s fs fs'
    | None => TLS_Enabled (GrpcTLS_ (Grpc_ c)) = false ∧ fs' = fs
    end).
Proof.
  unfold cert_service, new_certs, New. destruct (TLS_Enabled _); [|wp_steps; by intros ? [= <-]]. wp_steps.
  pose proof (ensureCertificates_returns (mkService (TLS_CAFile (GrpcTLS_ (Grpc_ c)))
    (TLS_CAKeyFile (GrpcTLS_ (Grpc_ c))) (TLS_CertFile (GrpcTLS_ (Grpc_ c))) (TLS_KeyFile (GrpcTLS_ (Grpc_ c)))
    (TLS_AgentCertDir (GrpcTLS_ (Grpc_ c))) (ParseCommaSeparated (TLS_DomainNames (GrpcTLS_ (Grpc_ c))))
    (omap (m_ParseIP e) (ParseCommaSeparated (TLS_IPAddresses (GrpcTLS_ (Grpc_ c)))))) (m_rndCA e)
    (m_rndServer e) (m_now e) fs) as Hr.
  apply wp_run in Hr as ([[]|err] & fs' & E & _); unfold wp; rewrite E; simpl; [|by intros ? [=]].
  intros ? [= <-]. by split.
Qed.

Lemma migrate_returns e c l : wp (migrate e c) l (λ _ _, True).
Proof. unfold migrate. wp_steps. by eapply wp_mono; [apply RunMigrations_spec|]. Qed.

(** Clean-ups of a ticker that runs only ever remove keys. *)
Lemma StartCleanup_spec interval ticks ks :
  (0 < interval)%Z → wp (StartCleanup interval ticks) ks (λ _ ks', ks_keys ks' ⊆ ks_keys ks).
Proof.
  intros Hi. unfold StartCleanup. rewrite (proj2 (Z.leb_gt _ _)) by done.
  apply (wp_for_each _ _ _ (λ _ ks', ks_keys ks' ⊆ ks_keys ks)); [done|]. intros [order now] l ks1 Hs. wp_steps.
  unfold cleanup. eapply wp_mono; [apply wp_delete_where|]. intros n ks2 [-> _]. wp_steps. simpl.
  etrans; [apply map_filter_subseteq|done].
Qed.

Lemma StartCleanup_panics interval ticks ks :
  (interval ≤ 0)%Z → StartCleanup interval ticks ks = Panic "non-positive interval for NewTicker" ks.
Proof. intros Hi. unfold StartCleanup. by rewrite (proj2 (Z.leb_le _ _)). Qed.

(** The reasons not to start, each in terms of what the step finds. *)
Definition cannot_start (e : Machine) (c : ServerConfig) (p : Process) : Prop :=
  (∃ err l, migrate e c (pr_log p) = Ret (Err err) l) ∨
  (∃ err, InitDB (m_db e) (Url (DB_ c)) (Schema (DB_ c)) = Err err) ∨
  (∃ err fs, cert_service e c (pr_disk p) = Ret (Err err) fs) ∨
  ¬ valid_range (PR_Start (AgentPortRange (Http_ c))) (PR_End (AgentPortRange (Http_ c))) ∨
  (P_Enabled (Provision_ c) = true ∧ TLS_Enabled (GrpcTLS_ (Grpc_ c)) = false).

(** A server that serves, every component in its initial state. *)
Record well_formed (e : Machine) (c : ServerConfig) (fs0 : CertFS) (r : Running) : Prop := {
  wf_users : users_ok (app_users (run_app r));
  wf_keys : ks_keys (keyStore (app_prov (run_app r))) = ∅;
  wf_manager : ∃ asm,
    connManager (app_grpc (run_app r)) = NewConnectionManager (Some asm) ∧ asm_ok asm ∧ view asm = ∅ ∧
    ch_buf (availablePorts (portManager asm)) =
      range_ports (PR_Start (AgentPortRange (Http_ c))) (PR_End (AgentPortRange (Http_ c)));
  wf_pending : pendingRequests (app_grpc (run_app r)) = ∅;
  wf_chans : respChs (app_grpc (run_app r)) = ∅;
  wf_certs : match run_certs r with
    | Some s => TLS_Enabled (GrpcTLS_ (Grpc_ c)) = true ∧
                certs_ensured e s fs0 (disk (app_prov (run_app r)))
    | None => TLS_Enabled (GrpcTLS_ (Grpc_ c)) = false ∧ disk (app_prov (run_app r)) = fs0
    end;
  wf_routes : run_routes r =
    SetupRoute true (P_Enabled (Provision_ c)) (AdminAPIKey (Http_ c)) (Secret (JWT_ c));
  wf_provision : P_Enabled (Provision_ c) = true → is_Some (run_certs r);
  wf_cleanup : run_cleanup r = if P_Enabled (Provision_ c) then Some (cleanup_interval c) else None;
}.

Lemma wp_or_exit {A} (m : M Process (result A)) k p v p' Q :
  m p = Ret v p' → match v with Ok a => wp (k a) p' Q | Err _ => Q (Exited 1) p' end → wp (or_exit m k) p Q.
Proof. intros E H. apply wp_bind. unfold wp. rewrite E. by destruct v. Qed.

Lemma port_manager_run c p :
  let start := PR_Start (AgentPortRange (Http_ c)) in
  let end_ := PR_End (AgentPortRange (Http_ c)) in
  ∃ v, port_manager c p = Ret v p ∧
    match v with
    | Ok pm => valid_range start end_ ∧ pm_ok pm ∧ allocatedPorts pm = ∅ ∧
               ch_buf (availablePorts pm) = range_ports start end_
    | Err _ => ¬ valid_range start end_
    end.
Proof.
  cbv zeta. unfold port_manager, zoom. destruct (decide (valid_range (PR_Start (AgentPortRange (Http_ c)))
    (PR_End (AgentPortRange (Http_ c))))) as [Hv|Hv].
  - rewrite NewPortManager_eq by done. eexists. split; [done|]. split; [done|]. split; [by apply pm_ok_new|done].
  - destruct (NewPortManager_invalid _ _ Hv) as [err ->]. by eexists.
Qed.

Lemma server_main_spec e c p :
  pr_grpc p = NewServer → listeners (m_net e) = ∅ → users_ok (m_users e) →
  wp (server_main e c) p (λ s p',
    match s with
    | Exited code => code = 1%Z ∧ cannot_start e c p
    | Serving r =>
        ¬ cannot_start e c p ∧ well_formed e c (pr_disk p) r ∧
        pr_log p' = pr_log p ++ set_up (m_db e) (Schema (DB_ c))
    end).
Proof.
  intros Hg Hn Hu. unfold server_main.
  pose proof (migrate_returns e c (pr_log p)) as (v1 & l & E1 & _)%wp_run.
  eapply wp_or_exit; [unfold in_db, zoom; by rewrite E1|]. destruct v1 as [[]|err1].
  2:{ split; [done|]. left. by exists err1, l. }
  eapply wp_or_exit; [done|]. destruct (InitDB _ _ _) as [pool|err2] eqn:E2.
  2:{ split; [done|]. right; left. by exists err2. }
  pose proof (cert_service_spec e c (pr_disk p)) as (v3 & fs & E3 & H3)%wp_run.
  eapply wp_or_exit; [unfold in_files, zoom; simpl; by rewrite E3|]. destruct v3 as [certs|err3].
  2:{ split; [done|]. right; right; left. by exists err3, fs. }
  specialize (H3 _ eq_refl). simpl.
  edestruct (port_manager_run c) as (v4 & E4 & H4). eapply wp_or_exit; [exact E4|].
  destruct v4 as [pm|err4]; [|by split; [done|right; right; right; left]].
  destruct H4 as (Hv & Hpm & Ha & Hp). rewrite Hg.
  set (asm := NewAgentServerManager pm (m_net e)).
  assert (asm_ok asm) as Hasm by by apply asm_ok_new.
  assert (view asm = ∅) as Hview by apply fmap_empty.
  apply wp_bind. unfold in_server. apply wp_zoom. apply (wp_modify _ _). unfold serving.
  destruct (P_Enabled (Provision_ c) && bool_decide (certs = None)) eqn:Ek.
  { apply andb_true_iff in Ek as [Ek ->%bool_decide_eq_true]. split; [done|]. do 4 right. by destruct H3. }
  assert (P_Enabled (Provision_ c) = true → is_Some certs) as Hcerts.
  { intros Ep. rewrite Ep in Ek. destruct certs; [by eexists|done]. }
  wp_steps. split; [|split]; simpl.
  - intros [(?&?&E)|[[? E]|[(?&?&E)|[E|[Ep Et]]]]]; [by rewrite E1 in E|by rewrite E2 in E|by rewrite E3 in E|done|].
    destruct (Hcerts Ep) as [s ->]. destruct H3 as [H3 _]. by rewrite H3 in Et.
  - split; simpl; try done. by exists asm.
  - unfold migrate in E1. apply bind_Ret in E1 as (v & l' & E1 & E). destruct v; [done|].
    injection E as <-. by apply (wp_Ret _ _ _ _ _ (RunMigrations_spec _ _ _ _) E1).
Qed.

Lemma boot_server_run lib e b p :
  boot_server lib e (b, p) =
    match server_InitConfig lib b with
    | Ret _ b' => in_process (server_main e (bt_config b')) (b', p)
    | Panic m b' => Panic m (b', p)
    | Block b' => Block (b', p)
    end.
Proof.
  unfold boot_server, mbind, M_bind, in_boot, zoom, get. cbn [fst snd]. by destruct (server_InitConfig lib b).
Qed.

(** Whatever a server that serves does with its connections, they keep their
    invariant. *)
Lemma well_formed_reachable e c fs r cm :
  well_formed e c fs r → rtc cm_step (connManager (app_grpc (run_app r))) cm → cm_ok cm.
Proof.
  intros Hw. destruct (wf_manager _ _ _ _ Hw) as (asm & -> & Hok & Hv & _). by apply (cm_reachable_ok (Some asm)).
Qed.

(** A manager without servers holds no listener and no port. *)
Lemma view_empty asm : asm_ok asm → view asm = ∅ → servers asm = ∅ ∧ listeners (net asm) = ∅ ∧ alloc asm = ∅.
Proof.
  intros Hok Hv. assert (servers asm = ∅) as Hs by by apply fmap_empty_inv in Hv.
  split_and!; [done|apply map_eq..].
  - intros l. rewrite lookup_empty. apply eq_None_not_Some. intros [p Hp].
    destruct (ao_listen _ Hok _ _ Hp) as (a & i & Hi & _). by rewrite Hs, lookup_empty in Hi.
  - intros p. rewrite lookup_empty. apply eq_None_not_Some. intros [a Ha].
    destruct (ao_alloc _ Hok _ _ Ha) as (i & Hi & _). by rewrite Hs, lookup_empty in Hi.
Qed.

(** ** The server at work *)

(** What happens to the state of a server that serves: an HTTP request is answered, the
    connection manager or the table of pending requests is used by a goroutine, a
    response is delivered or taken, expired keys are cleaned up, or the file system
    starts or stops refusing operations. *)
Section Work.
Context (bc : Bcrypt) (jwt : JWT) (uuid_Parse : uuid_parser) (gin : matcher) (config : Auth.Config).
Context (certs : option Service) (routes : list Route).

Definition set_grpc (s : GrpcServer.Server ASM) (a : App ASM) : App ASM := mkApp (app_users a) (app_prov a) s.
Definition set_prov (p : Provisioning) (a : App ASM) : App ASM := mkApp (app_users a) p (app_grpc a).

Inductive app_step : App ASM → App ASM → Prop :=
  | app_request w q r a a' :
      serve bc jwt uuid_Parse config certs gin routes w q a = Ret r a' → app_step a a'
  | app_connections a cm :
      cm_step (connManager (app_grpc a)) cm → app_step a (set_grpc (set_connManager cm (app_grpc a)) a)
  | app_register a msg ch s :
      register_pending msg (app_grpc a) = Ret ch s → app_step a (set_grpc s a)
  | app_unregister a msg s :
      unregister_pending msg (app_grpc a) = Ret () s → app_step a (set_grpc s a)
  | app_deliver a ch msg s :
      HandleResponse_deliver ch msg (app_grpc a) = Ret () s → app_step a (set_grpc s a)
  | app_wait a choice ch r s :
      wait_response choice ch (app_grpc a) = Ret r s → app_step a (set_grpc s a)
  | app_cleanup a order now n p :
      in_keys (cleanup order now) (app_prov a) = Ret n p → app_step a (set_prov p a)
  | app_faults a f :
      app_step a (set_prov (set_disk (set_faults f (disk (app_prov a))) (app_prov a)) a).

(** The response channels hold one message at most and are never closed, and every
    pending request has one. *)
Record chans_ok (s : GrpcServer.Server ASM) : Prop := {
  ck_chan : ∀ ch c, respChs s !! ch = Some c →
    ch < next_ch s ∧ ch_cap c = 1 ∧ ch_closed c = false ∧ length (ch_buf c) ≤ 1;
  ck_pending : ∀ id ch, pendingRequests s !! id = Some ch → is_Some (respChs s !! ch);
}.

(** The users' ids and names are unique, the keys are of valid agents, the
    connections, agent servers, listeners and ports correspond, and the channels
    are as above. *)
Record app_ok (a : App ASM) : Prop := {
  ap_users : users_ok (app_users a);
  ap_keys : keys_valid (keyStore (app_prov a));
  ap_connections : cm_ok (connManager (app_grpc a));
  ap_chans : chans_ok (app_grpc a);
}.

Lemma chans_ok_chan s s' ch c c' :
  chans_ok s → respChs s !! ch = Some c → respChs s' = <[ch := c']> (respChs s) →
  next_ch s' = next_ch s → pendingRequests s' = pendingRequests s →
  ch_cap c' = ch_cap c → ch_closed c' = ch_closed c → length (ch_buf c') ≤ 1 → chans_ok s'.
Proof.
  intros [Hc Hp] Hl Er En Ep Hcap Hcl Hlen. split.
  - intros q d. rewrite Er, En. intros [[<- <-]|[_ Hq]]%lookup_insert_Some; [|by eapply Hc].
    destruct (Hc _ _ Hl) as (? & ? & ? & _). by rewrite Hcap, Hcl.
  - intros id q. rewrite Ep, Er. intros Hq%Hp. rewrite lookup_insert_is_Some'. by right.
Qed.

Lemma chans_ok_register s msg ch s' : chans_ok s → register_pending msg s = Ret ch s' → chans_ok s'.
Proof.
  intros [Hc Hp] [= _ <-]. split; simpl.
  - intros q d [[<- <-]|[_ Hq]]%lookup_insert_Some; [simpl; split_and!; try done; lia|].
    destruct (Hc _ _ Hq) as (? & ?). split; [lia|done].
  - intros id q. rewrite lookup_insert_is_Some'. intros [[_ <-]|[_ Hq]]%lookup_insert_Some; [by left|right; eauto].
Qed.

Lemma chans_ok_deliver s ch msg s' : chans_ok s → HandleResponse_deliver ch msg s = Ret () s' → chans_ok s'.
Proof.
  intros Hok E. destruct (respChs s !! ch) as [c|] eqn:Hc.
  2: { unfold HandleResponse_deliver, mbind, M_bind, on_chan in E. by rewrite Hc in E. }
  destruct (ck_chan _ Hok _ _ Hc) as (_ & Hcap & Hcl & Hlen).
  rewrite (HandleResponse_deliver_runs _ _ _ _ Hc Hcl) in E. injection E as <-.
  eapply (chans_ok_chan s _ ch c); [done|done|simpl; done|done|done|..];
    unfold ch_full; rewrite Hcap; case_bool_decide; simpl; try done.
  rewrite length_app. simpl. lia.
Qed.

Lemma chans_ok_wait s choice ch r s' : chans_ok s → wait_response choice ch s = Ret r s' → chans_ok s' .
Proof.
  intros Hok E. destruct choice; [|injection E as _ <-; done..].
  unfold wait_response, mbind, M_bind, on_chan in E. destruct (respChs s !! ch) as [c|] eqn:Hc; [|done].
  destruct (ck_chan _ Hok _ _ Hc) as (_ & Hcap & Hcl & Hlen). unfold ch_try_recv in E.
  destruct (ch_buf c) as [|m buf] eqn:Eb; [done|]. injection E as _ <-.
  eapply (chans_ok_chan s _ ch c); [done|done|simpl; done|done|done|done|done|].
  simpl in *. lia.
Qed.

(** What serving an HTTP request leaves. *)
Lemma Register_handler_ok `{!BcryptLaws bc} q salt f id now t r t' :
  users_ok t → Register_handler bc q salt f id now t = Ret r t' → users_ok t'.
Proof.
  intros Hok. unfold Register_handler. destruct q as [[un pw]|e]; [|by intros [= _ <-]].
  pose proof (Register_user_spec bc salt f id now un pw t Hok) as Hr.
  intros (x & t1 & E1 & E2)%bind_Ret. injection E2 as _ <-. by apply (wp_Ret _ _ _ _ _ Hr E1).
Qed.

Lemma Login_handler_same q f now t r t' : Login_handler bc jwt config q f now t = Ret r t' → t' = t.
Proof.
  unfold Login_handler, Login, GetUserByUsername, query, mbind, M_bind, gets, mret, M_ret.
  destruct q as [[un pw]|e]; [|by intros [= _ <-]]. by destruct f; intros [= _ <-].
Qed.

Lemma DeleteUser_handler_ok f ctx t r t' :
  users_ok t → DeleteUser_handler uuid_Parse f ctx t = Ret r t' → users_ok t'.
Proof.
  intros Hok. unfold DeleteUser_handler. destruct (ctx !! "user_id") as [[id|]|]; [|done..].
  intros (x & t1 & E1 & E2)%bind_Ret. injection E2 as _ <-. unfold DeleteUser in E1.
  destruct (uuid_Parse id) as [b|e]; [|by injection E1 as _ <-].
  apply bind_Ret in E1 as (y & t2 & E2 & E1).
  pose proof (wp_Ret _ _ _ _ _ (DeleteUser_query_spec f b t Hok) E2) as (Hok2 & _).
  by destruct y; injection E1 as _ <-.
Qed.

Lemma ListUsers_handler_same f1 f2 order q t r t' : ListUsers_handler f1 f2 order q t = Ret r t' → t' = t.
Proof.
  unfold ListUsers_handler, ListUsers, ListUsersPaginated, CountUsers, query, try, mbind, M_bind, gets, mret, M_ret.
  destruct f1, f2; repeat case_match; intros; simplify_eq; done.
Qed.

Lemma Provision_keys q rnd now p r p' :
  keys_valid (keyStore p) → Provision certs q rnd now p = Ret r p' → keys_valid (keyStore p').
Proof.
  intros Hv. unfold Provision. destruct certs as [s|]; [|by intros [= _ <-]].
  destruct q as [key|e]; [|by intros [= _ <-]]. intros E.
  pose proof (wp_Ret _ _ _ _ _ (Provision_spec s key rnd now p Hv) E) as (_ & _ & _).
  apply bind_Ret in E as (v & p1 & E1 & E). destruct (Validate_run key now (keyStore p)) as (v' & Ev & _).
  unfold in_keys, zoom in E1. rewrite Ev in E1. injection E1 as -> <-.
  destruct v as [pk|e]; [|by injection E as _ <-].
  apply bind_Ret in E as (made & p2 & E2 & E). unfold on_disk, zoom in E2.
  destruct (GenerateAgentCertIfNotExists _ _ _ _ _) as [x d| |]; [|done..]. injection E2 as -> <-.
  destruct made as [[[c k]|]|e]; [|by injection E as _ <-..].
  apply bind_Ret in E as (ca & p3 & E3 & E). unfold on_disk, zoom in E3.
  destruct (GetCACert s _) as [y d'| |]; [|done..]. injection E3 as -> <-.
  destruct ca as [b|e]; [|by injection E as _ <-].
  apply bind_Ret in E as ([] & p4 & E4 & E). injection E as _ <-. unfold in_keys, zoom in E4.
  destruct (MarkUsed key _) as [[] ks| |] eqn:Em; [|done..]. injection E4 as <-.
  by eapply keys_valid_used, Em.
Qed.

Lemma on_disk_keys {A} (m : M CertFS A) p r p' : on_disk m p = Ret r p' → keyStore p' = keyStore p.
Proof. unfold on_disk, zoom. destruct (m (disk p)); [|done..]. by intros [= _ <-]. Qed.

Lemma run_endpoint_ok `{!BcryptLaws bc} w q id ctx e (a : App ASM) r a' :
  users_ok (app_users a) → keys_valid (keyStore (app_prov a)) →
  run_endpoint bc jwt uuid_Parse config certs w q id ctx e a = Ret r a' →
  users_ok (app_users a') ∧ keys_valid (keyStore (app_prov a')) ∧ app_grpc a' = app_grpc a.
Proof.
  intros Hu Hk E. destruct e; cbn [run_endpoint] in E;
    try (apply in_users_Ret in E as (x & E & _ & -> & ->); split; [|done]);
    try (apply in_prov_Ret in E as (x & E & _ & -> & ->); split; [done|split; [|done]]).
  - injection E as _ <-. done.
  - by eapply Register_handler_ok.
  - by apply Login_handler_same in E as ->.
  - by eapply DeleteUser_handler_ok.
  - by apply ListUsers_handler_same in E as ->.
  - destruct (ListAgents_run (w_agents w) (connManager (app_grpc a))) as [l El].
    unfold mbind, M_bind, in_grpc, in_cm, zoom in E. rewrite El in E. injection E as _ <-. simpl.
    by destruct a as [? ? []].
  - by apply on_disk_keys in E as ->.
  - by apply on_disk_keys in E as ->.
  - by apply on_disk_keys in E as ->.
  - by apply (CreateProvisionKey_valid _ _ _ _ _ _ Hk E).
  - by injection E as _ <-.
  - by apply (RevokeProvisionKey_valid _ _ _ _ _ Hk E).
  - by eapply Provision_keys.
Qed.

Lemma app_ok_step `{!BcryptLaws bc, !GinLaws gin} a a' : app_ok a → app_step a a' → app_ok a'.
Proof.
  intros [Hu Hk Hc Hch] Hs. destruct Hs as [w q r a a' E|a cm E|a msg ch s E|a msg s E|a ch msg s E
    |a choice ch r s E|a order now n p E|a f].
  - destruct (serve_inv _ _ _ _ _ _ _ _ _ _ _ _ E) as [[-> _]|(rt & id & ctx & _ & _ & Er)]; [done|].
    destruct (run_endpoint_ok _ _ _ _ _ _ _ _ Hu Hk Er) as (Hu' & Hk' & Eg). split; rewrite ?Eg; done.
  - split; simpl; [done|done|by eapply cm_step_ok|]. destruct Hch. by split.
  - split; simpl; [done|done| |by eapply chans_ok_register]. by injection E as _ <-.
  - injection E as <-. split; simpl; [done..|]. destruct Hch as [H1 H2]. split; simpl; [done|].
    intros id ch [_ Hp]%lookup_delete_Some. by eapply H2.
  - split; simpl; [done|done| |by eapply chans_ok_deliver].
    unfold HandleResponse_deliver, mbind, M_bind, on_chan in E. destruct (respChs (app_grpc a) !! ch); [|done].
    destruct (ch_try_send msg c); [|done..]. by injection E as <-.
  - split; simpl; [done|done| |by eapply chans_ok_wait].
    destruct choice; [|injection E as _ <-; done..]. unfold wait_response, mbind, M_bind, on_chan in E.
    destruct (respChs (app_grpc a) !! ch); [|done]. destruct (ch_try_recv c) as [[m|] c'| |]; [|done..].
    by injection E as _ <-.
  - split; simpl; [done| |done|done]. unfold in_keys, zoom, cleanup in E.
    destruct (delete_where _ _ _) as [n' ks'| |] eqn:Ed; [|done..]. injection E as _ <-. simpl.
    by eapply keys_valid_deleted.
  - by split.
Qed.

Lemma app_ok_reachable `{!BcryptLaws bc, !GinLaws gin} a a' : app_ok a → rtc app_step a a' → app_ok a'.
Proof. intros Ha Hr. eapply (rtc_invariant app_step app_ok); [exact Hr|done|]. intros ??. apply app_ok_step. Qed.
End Work.

Lemma well_formed_ok e c fs r : well_formed e c fs r → app_ok (run_app r).
Proof.
  intros Hw. split; [apply Hw| | |].
  - intros key pk. by rewrite (wf_keys _ _ _ _ Hw), lookup_empty.
  - by eapply well_formed_reachable, rtc_refl.
  - split; [|intros id ch; by rewrite (wf_pending _ _ _ _ Hw), lookup_empty].
    intros ch d. rewrite (wf_chans _ _ _ _ Hw). by rewrite lookup_empty.
Qed.

(** ** Properties *)

(** C14: the server starts in a valid state, or not at all.  From a fresh process,
    [main] ends with exit code 1 exactly when a migration or the connection to the
    database fails, the certificates cannot be ensured, the port range is invalid
    or provisioning is enabled without TLS; otherwise it serves, with every component
    in its initial state.  From there, whatever requests are answered, whatever agents
    connect, disconnect and answer and whatever fails, the users' ids and names
    stay unique, the provisioning keys stay those of valid agents, connections, agent
    servers, listeners and ports keep corresponding, and the response channels
    stay open with at most one message; and the clean-up goroutine runs for ever if
    its interval is positive and crashes the process if it is not.  (That ids and
    names are unique in the table the server finds is what the PRIMARY KEY and
    UNIQUE constraints of the migration say.) *)
Theorem server_main_correct bc `{!BcryptLaws bc} jwt uuid_Parse gin `{!GinLaws gin} e c p :
  pr_grpc p = NewServer → listeners (m_net e) = ∅ → users_ok (m_users e) →
  wp (server_main e c) p (λ s p',
    match s with
    | Exited code => code = 1%Z ∧ cannot_start e c p
    | Serving r =>
        ¬ cannot_start e c p ∧ well_formed e c (pr_disk p) r ∧
        pr_log p' = pr_log p ++ set_up (m_db e) (Schema (DB_ c)) ∧
        (∀ a, rtc (app_step bc jwt uuid_Parse gin (JWT_ c) (run_certs r) (run_routes r)) (run_app r) a →
           app_ok a) ∧
        (∀ interval ticks ks, run_cleanup r = Some interval →
           if decide (0 < interval)%Z
           then wp (StartCleanup interval ticks) ks (λ _ ks', ks_keys ks' ⊆ ks_keys ks)
           else ∃ msg, StartCleanup interval ticks ks = Panic msg ks)
    end).
Proof.
  intros Hg Hn Hu. eapply wp_mono; [by apply server_main_spec|]. intros [code|r] p' H; [done|].
  destruct H as (H1 & Hw & H3). split_and!; [done..| |].
  - intros a Hr. eapply app_ok_reachable, Hr; [done..|]. by eapply well_formed_ok.
  - intros interval ticks ks _. case_decide; [by apply StartCleanup_spec|].
    eexists. apply StartCleanup_panics. lia.
Qed.

(** C35: a server and its configuration.  A server that cannot read or decode its
    configuration dies with the error before the database, the disk and the
    logger are touched; any other goes on with exactly what was decoded from the
    file [application.yaml] of the two directories and the environment, logging at
    the configured level, printing its configuration only at DEBUG, and then either
    exits with 1 for one of the reasons not to start or serves in a valid state. *)
Theorem server_boots lib e env l out zero p :
  pr_grpc p = NewServer → listeners (m_net e) = ∅ → users_ok (m_users e) →
  let dir := "./cmd/silo-proxy-server" in
  let env' := godotenv_Load lib env in
  let log_level c := Level_ (Log_ c) in
  let start := boot_server lib e (mkBoot zero env no_settings l out, p) in
  match ReadInConfig lib (init_settings dir), Unmarshal lib (init_settings dir) env' zero with
  | Some err, _ => start = Panic (Error err) (mkBoot zero env' (init_settings dir) l out, p)
  | None, (c, Some err) => start = Panic (Error err) (mkBoot c env' (init_settings dir) l out, p)
  | None, (c, None) =>
      ∃ s p', start = Ret s (mkBoot c env' (init_settings dir)
                               (mkLogger (level_of (log_level c)) (lg_Out l)) (out ++ printed lib log_level c), p') ∧
        match s with
        | Exited code => code = 1%Z ∧ cannot_start e c p
        | Serving r => ¬ cannot_start e c p ∧ well_formed e c (pr_disk p) r
        end
  end.
Proof.
  intros Hg Hn Hu. cbv zeta.
  rewrite boot_server_run. unfold server_InitConfig. rewrite InitConfig_run. cbv zeta.
  destruct (ReadInConfig lib _) as [err|]; [done|]. destruct (Unmarshal lib _ _ zero) as [c [err|]]; [done|].
  pose proof (server_main_spec e c p Hg Hn Hu) as (s & p' & E & H)%wp_run.
  exists s, p'. split; [|destruct s; naive_solver].
  unfold in_process, zoom. cbn [fst snd bt_config]. by rewrite E.
Qed.

(** C15: a clean shutdown.  Whatever happened to the connections of a server that
    [main] started, stopping it, gracefully or after the deadline, returns with no
    agent registered, every connection closed, no agent server listed, no agent
    port open and all ports of the range given back. *)
Theorem server_stops_clean e c p r p' cm creds graceful order :
  pr_grpc p = NewServer → listeners (m_net e) = ∅ → users_ok (m_users e) →
  server_main e c p = Ret (Serving r) p' →
  rtc cm_step (connManager (app_grpc (run_app r))) cm → ch_closed (stopCh cm) = false →
  order ≡ₚ keys (agents cm) →
  let running := set_server (set_connManager cm (app_grpc (run_app r))) (set_grpcServer creds (run_life r)) in
  ∃ stopped, Server_Stop graceful order running = Ret None stopped ∧
    lc_stopped stopped = Some (if graceful then Gracefully else Forced) ∧
    let cm' := connManager (lc_server stopped) in
    agents cm' = ∅ ∧ (∀ ptr k, conns cm' !! ptr = Some k → dead_conn k) ∧
    ∀ asm, agentServerManager cm' = Some asm →
      servers asm = ∅ ∧ listeners (net asm) = ∅ ∧ alloc asm = ∅ ∧
      let pm := portManager asm in pool pm ≡ₚ range_ports (rangeStart pm) (rangeEnd pm).
Proof.
  intros Hg Hn Hu E Hr Hst Hord running.
  destruct (wp_Ret _ _ _ _ _ (server_main_spec e c p Hg Hn Hu) E) as (_ & Hw & _).
  pose proof (well_formed_reachable _ _ _ _ _ Hw Hr) as Hok.
  pose proof (Stop_spec order cm Hok Hord Hst) as ([] & cm' & Es & Hok' & Ha & Hs & _ & Hd & _)%wp_run.
  eexists. split.
  { unfold Server_Stop, mbind, M_bind, get, zoom, in_cm. cbn [running lc_grpcServer set_server set_grpcServer].
    simpl. unfold zoom. simpl. rewrite Es. done. }
  simpl. split_and!; [done..|]. intros asm Easm. pose proof (co_asm _ Hok') as Hasm. rewrite Easm in Hasm. simpl in Hasm.
  unfold served in Hs. rewrite Easm in Hs. simpl in Hs. destruct (view_empty _ Hasm Hs) as (Es' & El & Eal).
  split_and!; [done..|]. pose proof (pm_partition _ (ao_pm _ Hasm)) as Hp. unfold alloc in Eal.
  by rewrite Eal, keys_empty, app_nil_r in Hp.
Qed.

(** ** A server that provisions, with no clean-up interval configured *)

Module OneServer.
Definition db : DbEnv :=
  mkDbEnv id (λ _, None) None (λ _, None) (λ _, None) None (λ _, None) None None.
Definition machine : Machine :=
  mkMachine db Toy.three (λ s, Some s) (Certs.rnd 8) (Certs.rnd 9) 100 (mkNet ∅ ∅ 0 0 Demo.env0).
Definition config : ServerConfig :=
  mkServerConfig (mkLogConfig "info" (mkHttpConfig 0 (mkPortRange 0 0) "")) (mkHttpConfig 8080 (mkPortRange 8100 8103) "admin key")
    (mkGrpcConfig 9090 (mkGrpcTLS true "certs/server-cert.pem" "certs/server-key.pem" "certs/ca-cert.pem"
       "certs/ca-key.pem" "require" "proxy.example, localhost" "127.0.0.1" "certs/agents"))
    (mkDBConfig "postgres://db" "silo") (mkConfig "signing key" 60) (mkProvisionConfig true 24 0).
Definition process : Process := mkProcess (mkFS ∅ ∅ no_faults) [] NewServer.
(** Libraries that find the configuration of one environment variable. *)
Definition libraries : Libraries ServerConfig :=
  mkLibraries id (λ _, None)
    (λ _ env c, if decide (env !! "HTTP_PORT" = None) then (c, Some (Sentinel "no port")) else (config, None))
    (λ _, Err (Sentinel "no JSON")).
End OneServer.

Lemma server_main_correct_witness :
  match server_main OneServer.machine OneServer.config OneServer.process with
  | Ret (Serving r) p' =>
      app_ok (run_app r) ∧ is_Some (run_certs r) ∧
      pr_log p' = [Ran "CREATE SCHEMA IF NOT EXISTS silo"; Ran "SET search_path TO silo"; Migrated "migrations"] ∧
      ∃ msg, StartCleanup 0 [] (keyStore (app_prov (run_app r))) =
             Panic msg (keyStore (app_prov (run_app r)))
  | _ => False
  end.
Proof.
  pose proof (server_main_correct Toy.bcrypt ToyJWT.jwt Toy.uuid_Parse OneApp.gin OneServer.machine OneServer.config OneServer.process) as H.
  assert (match server_main OneServer.machine OneServer.config OneServer.process with
          | Ret (Serving r) _ => run_cleanup r = Some 0%Z | _ => False end) as Hs by (vm_compute; reflexivity).
  unfold wp in H. destruct (server_main _ _ _) as [[code|r] p'| |]; [exact (False_ind _ Hs)| |exact Hs|exact Hs].
  destruct H as (_ & Hw & Hl & Hr & Hc); [reflexivity|reflexivity|exact Toy.three_ok|].
  split; [apply Hr; apply rtc_refl|]. split; [apply (wf_provision _ _ _ _ Hw); reflexivity|].
  split; [exact Hl|]. exact (Hc 0%Z [] (keyStore (app_prov (run_app r))) Hs).
Defined.

Lemma server_stops_clean_witness :
  match server_main OneServer.machine OneServer.config OneServer.process with
  | Ret (Serving r) _ =>
      match ConnectionManager.Register "a" 7 0 (connManager (app_grpc (run_app r))) with
      | Ret (Ok _) cm =>
          ∃ stopped, Server_Stop false ["a"] (set_server (set_connManager cm (app_grpc (run_app r)))
                                                (set_grpcServer None (run_life r))) = Ret None stopped ∧
                     agents (connManager (lc_server stopped)) = ∅
      | _ => False
      end
  | _ => False
  end.
Proof.
  pose proof (server_stops_clean OneServer.machine OneServer.config OneServer.process) as H.
  assert (match server_main OneServer.machine OneServer.config OneServer.process with
          | Ret (Serving r) _ =>
              match ConnectionManager.Register "a" 7 0 (connManager (app_grpc (run_app r))) with
              | Ret (Ok _) cm => keys (agents cm) = ["a"] ∧ ch_closed (stopCh cm) = false
              | _ => False end
          | _ => False end) as Hs by (vm_compute; split; reflexivity).
  destruct (server_main _ _ _) as [[code|r] p'| |]; [exact Hs| |exact Hs|exact Hs].
  destruct (ConnectionManager.Register "a" 7 0 _) as [[ptr|err] cm| |] eqn:Er; [|exact Hs..].
  destruct Hs as [Hk Hc].
  destruct (H r p' cm None false ["a"]) as (stopped & E & _ & Ha & _); [reflexivity|reflexivity|exact Toy.three_ok
    |reflexivity|exact (rtc_once _ _ (step_register _ _ _ _ _ _ Er))|exact Hc|rewrite Hk; reflexivity|].
  exists stopped. split; [exact E|exact Ha].
Defined.

Lemma server_boots_witness :
  boot_server OneServer.libraries OneServer.machine
    (mkBoot OneServer.config ∅ no_settings (mkLogger LevelDebug []) [], OneServer.process) =
  Panic "no port" (mkBoot OneServer.config ∅ (init_settings "./cmd/silo-proxy-server") (mkLogger LevelDebug []) [],
                   OneServer.process) ∧
  match boot_server OneServer.libraries OneServer.machine
          (mkBoot OneServer.config {["HTTP_PORT" := "80"]} no_settings (mkLogger LevelDebug []) [],
           OneServer.process) with
  | Ret _ (b, _) => lg_Level (bt_logger b) = LevelInfo
  | _ => False
  end.
Proof.
  split.
  - exact (server_boots OneServer.libraries OneServer.machine ∅ (mkLogger LevelDebug []) [] OneServer.config
      OneServer.process eq_refl eq_refl Toy.three_ok).
  - destruct (server_boots OneServer.libraries OneServer.machine {["HTTP_PORT" := "80"]} (mkLogger LevelDebug []) []
      OneServer.config OneServer.process) as (s & p' & E & _);
      [reflexivity|reflexivity|exact Toy.three_ok|].
    rewrite E. reflexivity.
Defined.
