(* ===== verification/ServerProcess.v ===== *)
(** * The server's process

    Models the end of [main] in [src/cmd/silo-proxy-server/main.go]: the goroutines
    of the HTTP and the gRPC server that ServerMain.v leaves to run, [errChan], the
    signals, the wait on both and the two goroutines that stop everything.  A step
    is one step of one goroutine; [Start] of the gRPC server (ServerStart.v) is one
    step up to [Serve], and whatever the handlers do to the connections is a step of
    the connection manager.  A panic in the goroutine of a stream
    ([pong_crashes_server] of StreamHandler.v) ends the process too and is no step
    here. *)
From stdpp Require Import base strings list gmap fin_maps relations.
From Stdlib Require Import ZArith Lia.
From S2P Require Import Prelude GoStd PortManager AgentServerManager ServerInterface ConnectionManager.
From S2P Require Import GrpcServer KeyStore FileSystem CertService ProvisionHandler Users Auth Router.
From S2P Require Import Tls ServerStart Database Logging Configuration Shutdown ServerMain.

(** ** The process *)

(** A goroutine that runs a server: before [Serve], in it, about to report its
    error, returned. *)
Inductive serving_at : Type := Starting | Serves | Reporting (e : error) | Ended.

Section Code.
Context {S : Type} `{AgentServerSpec S}.

Record server_process : Type := mkSP {
  sp_life : Lifecycle S;
  sp_errs : chan error;
  sp_sigs : chan signal;
  sp_down : bool;                 (** [httpServer.Shutdown] was called *)
  sp_http : serving_at;
  sp_grpc : serving_at;
  sp_httpStop : stopper;
  sp_grpcStop : stopper;
  sp_main : main_at;
}.

(** What [main] leaves running when it reaches its [select]. *)
Definition sp_start (l : Lifecycle S) : server_process :=
  mkSP l (make_chan 2) (make_chan 1) false Serves Starting NotStarted NotStarted Waiting.

Definition http_error (e : error) : error := Wrapf "HTTP server error" e.
Definition grpc_error (e : error) : error := Wrapf "gRPC server error" e.

Definition with_cm (cm : ConnectionManager S) (l : Lifecycle S) : Lifecycle S :=
  set_server (set_connManager cm (lc_server l)) l.

(** The program's own steps. *)
Inductive server_move : server_process → server_process → Prop :=
  | s_start_failed l l' er sg d h hs gs m listen e :
      Start listen None l = Ret (Some e) l' →
      server_move (mkSP l er sg d h Starting hs gs m) (mkSP l' er sg d h (Reporting (grpc_error e)) hs gs m)
  | s_serves l l' er sg d h hs gs m listen :
      Start listen None l = Ret None l' →
      server_move (mkSP l er sg d h Starting hs gs m) (mkSP l' er sg d h Serves hs gs m)
  | s_serve_failed l er sg d h hs gs m e :
      server_move (mkSP l er sg d h Serves hs gs m)
        (mkSP l er sg d h (Reporting (grpc_error (Wrapf "failed to serve gRPC" e))) hs gs m)
  | s_serve_ended l er sg d h hs gs m :
      gs ≠ NotStarted → server_move (mkSP l er sg d h Serves hs gs m) (mkSP l er sg d h Ended hs gs m)
  | s_grpc_report l er er' sg d h hs gs m e :
      ch_send e er = Ret () er' →
      server_move (mkSP l er sg d h (Reporting e) hs gs m) (mkSP l er' sg d h Ended hs gs m)
  | s_http_failed l er sg d g hs gs m e :
      server_move (mkSP l er sg d Serves g hs gs m) (mkSP l er sg d (Reporting (http_error e)) g hs gs m)
  | s_http_closed l er sg g hs gs m :
      server_move (mkSP l er sg true Serves g hs gs m) (mkSP l er sg true Ended g hs gs m)
  | s_http_report l er er' sg d g hs gs m e :
      ch_send e er = Ret () er' →
      server_move (mkSP l er sg d (Reporting e) g hs gs m) (mkSP l er' sg d Ended g hs gs m)
  | s_connections l er sg d h g hs gs m cm :
      cm_step (connManager (lc_server l)) cm → stopCh cm = stopCh (connManager (lc_server l)) →
      server_move (mkSP l er sg d h g hs gs m) (mkSP (with_cm cm l) er sg d h g hs gs m)
  | s_error l er er' sg d h g hs gs e :
      ch_try_recv er = Ret (Some e) er' →
      server_move (mkSP l er sg d h g hs gs Waiting) (mkSP l er' sg d h g Begun Begun Joining)
  | s_received l er sg sg' d h g hs gs s :
      ch_try_recv sg = Ret (Some s) sg' →
      server_move (mkSP l er sg d h g hs gs Waiting) (mkSP l er sg' d h g Begun Begun Joining)
  | s_shutdown l er sg d h g gs m :
      server_move (mkSP l er sg d h g Begun gs m) (mkSP l er sg true h g Stopping gs m)
  | s_shut_down l er sg d h g gs m :
      server_move (mkSP l er sg d h g Stopping gs m) (mkSP l er sg d h g Stopped gs m)
  | s_stop l l' er sg d h g hs m graceful order :
      order ≡ₚ keys (agents (connManager (lc_server l))) → Server_Stop graceful order l = Ret None l' →
      server_move (mkSP l er sg d h g hs Begun m) (mkSP l' er sg d h g hs Stopped m)
  | s_stop_panic l l' er sg d h g hs m graceful order msg :
      order ≡ₚ keys (agents (connManager (lc_server l))) → Server_Stop graceful order l = Panic msg l' →
      server_move (mkSP l er sg d h g hs Begun m) (mkSP l' er sg d h g hs Begun (Crashed msg))
  | s_exit l er sg d h g :
      server_move (mkSP l er sg d h g Stopped Stopped Joining) (mkSP l er sg d h g Stopped Stopped Finished).

Definition server_own (p p' : server_process) : Prop := alive (sp_main p) ∧ server_move p p'.

(** With the signals. *)
Inductive server_step : server_process → server_process → Prop :=
  | s_own p p' : server_own p p' → server_step p p'
  | s_signal l er sg sg' d h g hs gs m s sent :
      alive m → ch_try_send s sg = Ret sent sg' →
      server_step (mkSP l er sg d h g hs gs m) (mkSP l er sg' d h g hs gs m).
End Code.
Arguments server_process S : clear implicits.

(** ** The invariant *)

Section Proofs.
Context {S : Type} `{AgentServerSpec S}.

Definition report_left (g : serving_at) : nat := match g with Ended => 0 | _ => 1 end.
Definition made (l : Lifecycle S) : Prop := is_Some (lc_grpcServer l).

Record sp_ok (p : server_process S) : Prop := {
  so_cm : cm_ok (connManager (lc_server (sp_life p)));
  so_errs : ch_cap (sp_errs p) = 2 ∧ ch_closed (sp_errs p) = false ∧
    length (ch_buf (sp_errs p)) + report_left (sp_http p) + report_left (sp_grpc p) ≤ 2;
  so_sigs : ch_closed (sp_sigs p) = false;
  so_stop : ch_closed (stopCh (connManager (lc_server (sp_life p)))) = bool_decide (sp_grpcStop p = Stopped);
  so_made : match sp_grpc p with Starting => ¬ made (sp_life p) | Serves => made (sp_life p) | _ => True end;
  so_shut : sp_down p = bool_decide (sp_httpStop p = Stopping ∨ sp_httpStop p = Stopped);
  so_main : match sp_main p with
    | Waiting => sp_httpStop p = NotStarted ∧ sp_grpcStop p = NotStarted
    | Joining => sp_httpStop p ≠ NotStarted ∧ (sp_grpcStop p = Begun ∨ sp_grpcStop p = Stopped ∧ made (sp_life p))
    | Finished => sp_httpStop p = Stopped ∧ sp_grpcStop p = Stopped ∧ made (sp_life p)
    | Crashed _ => ¬ made (sp_life p)
    end;
}.

Lemma server_options_same (l : Lifecycle S) : ∃ r, server_options l = Ret r l.
Proof.
  unfold server_options, mbind, M_bind, get. destruct (lc_tlsConfig l) as [c|]; [|by eexists].
  destruct (Enabled c); [|by eexists]. destruct (ParseClientAuthType (ClientAuth_ c)) as [auth [e|]]; [by eexists|].
  destruct (LoadServerCredentials_same (CertFile_ c) (KeyFile_ c) (CAFile c) auth (lc_disk l)) as (v & Ev & _).
  unfold try, mbind, M_bind, zoom. rewrite Ev. destruct l, v; by eexists.
Qed.

(** [Start] up to [Serve]: it makes the gRPC server or reports why not, and leaves
    the connections alone. *)
Lemma Start_serves listen (l l' : Lifecycle S) r :
  Start listen None l = Ret r l' → ¬ made l →
  lc_server l' = lc_server l ∧ (if r then ¬ made l' else made l').
Proof.
  unfold Start, mbind, M_bind, get, modify, mret, M_ret. destruct listen as [e|]; [by intros [= <- <-]|].
  destruct (server_options_same (set_listener l)) as [[creds|e] ->]; intros [= <- <-] Hm; [|done].
  split; [done|]. by eexists.
Qed.

(** [Stop] of a server that was made closes every connection and ends. *)
Lemma Server_Stop_spec graceful order (l : Lifecycle S) :
  cm_ok (connManager (lc_server l)) → order ≡ₚ keys (agents (connManager (lc_server l))) →
  ch_closed (stopCh (connManager (lc_server l))) = false → made l →
  ∃ l', Server_Stop graceful order l = Ret None l' ∧ made l' ∧
    let cm := connManager (lc_server l') in
    cm_ok cm ∧ ch_closed (stopCh cm) = true ∧ agents cm = ∅ ∧ served cm = ∅ ∧
    ∀ ptr c, conns cm !! ptr = Some c → dead_conn c.
Proof.
  intros Hok Hord Hst [g Hg].
  pose proof (Stop_spec order _ Hok Hord Hst) as ([] & cm' & Es & Hok' & Ha & Hs & Hc & Hd & _)%wp_run.
  eexists. unfold Server_Stop, mbind, M_bind, get, zoom, in_cm. rewrite Hg. simpl. unfold zoom. rewrite Es.
  split; [done|]. simpl. split; [by exists g|]. by split_and!.
Qed.

Lemma sp_ok_start (l : Lifecycle S) :
  cm_ok (connManager (lc_server l)) → ch_closed (stopCh (connManager (lc_server l))) = false → ¬ made l →
  sp_ok (sp_start l).
Proof. intros Hok Hst Hm. by split. Qed.

Lemma sp_ok_move p p' : sp_ok p → server_own p p' → sp_ok p'.
Proof.
  intros [C (E1 & E2 & E3) G T M U A] [Hm Hs].
  destruct Hs as [l l' er sg d h hs gs m listen e Hst|l l' er sg d h hs gs m listen Hst|l er sg d h hs gs m e
    |l er sg d h hs gs m Hg|l er er' sg d h hs gs m e He|l er sg d g hs gs m e|l er sg g hs gs m
    |l er er' sg d g hs gs m e He|l er sg d h g hs gs m cm Hcm Hc|l er er' sg d h g hs gs e He
    |l er sg sg' d h g hs gs s Hsg|l er sg d h g gs m|l er sg d h g gs m|l l' er sg d h g hs m graceful order Ho Hl
    |l l' er sg d h g hs m graceful order msg Ho Hl|l er sg d h g]; simpl in *.
  - destruct (Start_serves _ _ _ _ Hst M) as [El Hl]. split; simpl; rewrite ?El; try done. destruct Hm as [-> | ->]; naive_solver.
  - destruct (Start_serves _ _ _ _ Hst M) as [El Hl]. split; simpl; rewrite ?El; try done. destruct Hm as [-> | ->]; naive_solver.
  - by split.
  - split; simpl; try done. split_and!; [done..|lia].
  - rewrite (ch_send_push _ _ _ He). split; simpl; try done. rewrite length_app. simpl. split_and!; [done..|lia].
  - by split.
  - split; simpl; try done. split_and!; [done..|lia].
  - rewrite (ch_send_push _ _ _ He). split; simpl; try done. rewrite length_app. simpl. split_and!; [done..|lia].
  - split; simpl; try done; [by eapply cm_step_ok|by rewrite Hc].
  - destruct A as [-> ->]. destruct (ch_try_recv_length _ _ _ He) as (R1 & R2 & R3).
    split; simpl; rewrite ?R1, ?R2; try done; [split_and!; [done..|lia]|auto].
  - destruct A as [-> ->]. destruct (ch_try_recv_same _ _ _ Hsg) as [R1 R2].
    split; simpl; rewrite ?R2; try done. auto.
  - split; simpl; try done. destruct Hm as [-> | ->]; naive_solver.
  - split; simpl; try done. destruct Hm as [-> | ->]; naive_solver.
  - destruct (decide (lc_grpcServer l = None)) as [En|En].
    { unfold Server_Stop, mbind, M_bind, get in Hl. by rewrite En in Hl. }
    assert (made l) as Hmade by by apply not_eq_None_Some.
    destruct (Server_Stop_spec graceful order l C Ho T Hmade) as (l1 & E & Hm' & Hok' & Hst' & _).
    rewrite Hl in E. injection E as ->. split; simpl; try done.
    + by destruct g.
    + destruct Hm as [-> | ->]; naive_solver.
  - assert (¬ made l) as Hmade.
    { intros Hmade. destruct (Server_Stop_spec graceful order l C Ho T Hmade) as (l1 & E & _). by rewrite Hl in E. }
    assert (l' = l) as ->.
    { unfold Server_Stop, mbind, M_bind, get in Hl. destruct (lc_grpcServer l) eqn:En; [|by injection Hl].
      destruct Hmade. by eexists. }
    by split.
  - split; simpl; try done. naive_solver.
Qed.

Lemma sp_ok_step p p' : sp_ok p → server_step p p' → sp_ok p'.
Proof.
  intros Hok Hs. destruct Hs as [p1 p2 Hm|l er sg sg' d h g hs gs m s sent Hm Hsg]; [by eapply sp_ok_move|].
  destruct Hok as [C E G T M U A]. simpl in *. destruct (ch_try_send_same _ _ _ _ Hsg) as [R1 R2].
  split; simpl; rewrite ?R2; done.
Qed.

Lemma sp_reachable_ok (l : Lifecycle S) p :
  cm_ok (connManager (lc_server l)) → ch_closed (stopCh (connManager (lc_server l))) = false → ¬ made l →
  rtc server_step (sp_start l) p → sp_ok p.
Proof. intros H1 H2 H3 Hr. eapply rtc_invariant; [exact Hr|by apply sp_ok_start|]. intros ???. by eapply sp_ok_step. Qed.

(** ** Stopping *)

Lemma httpServer_stops (l : Lifecycle S) er sg d h g hs gs m :
  alive m → hs ≠ NotStarted →
  ∃ d', rtc server_own (mkSP l er sg d h g hs gs m) (mkSP l er sg d' h g Stopped gs m).
Proof.
  intros Hm Hh. destruct hs; [done|exists true|exists d..].
  - eapply rtc_l; [split; [done|apply s_shutdown]|]. apply rtc_once. split; [done|apply s_shut_down].
  - apply rtc_once. split; [done|apply s_shut_down].
  - apply rtc_refl.
Qed.

Lemma server_join_finishes (l : Lifecycle S) er sg d h g hs gs :
  sp_ok (mkSP l er sg d h g hs gs Joining) → made l →
  ∃ p', rtc server_own (mkSP l er sg d h g hs gs Joining) p' ∧ sp_main p' = Finished.
Proof.
  intros Hok Hmade. assert (alive Joining) as Hm by by right.
  pose proof (so_main _ Hok) as [Hh Hg]. simpl in Hh, Hg.
  destruct (httpServer_stops l er sg d h g hs gs Joining Hm Hh) as (d' & Hr1).
  assert (∀ l, rtc server_own (mkSP l er sg d' h g Stopped Stopped Joining) (mkSP l er sg d' h g Stopped Stopped Finished))
    as Hexit by (intros l1; apply rtc_once; split; [done|apply s_exit]).
  destruct Hg as [->|[-> _]].
  - pose proof (so_stop _ Hok) as Hst. simpl in Hst.
    destruct (Server_Stop_spec true _ l (so_cm _ Hok) (reflexivity _) Hst Hmade) as (l' & El & _).
    eexists. split; [|by instantiate (1 := mkSP l' er sg d' h g Stopped Stopped Finished)].
    etrans; [exact Hr1|]. eapply rtc_l; [|apply Hexit]. split; [done|]. by eapply s_stop.
  - eexists. split; [etrans; [exact Hr1|apply Hexit]|done].
Qed.

(** A reason to stop that is in one of the two channels is taken. *)
Lemma server_reason_taken (l : Lifecycle S) er sg d h g hs gs :
  sp_ok (mkSP l er sg d h g hs gs Waiting) → made l → ch_buf er ≠ [] ∨ ch_buf sg ≠ [] →
  ∃ p', rtc server_own (mkSP l er sg d h g hs gs Waiting) p' ∧ sp_main p' = Finished.
Proof.
  intros Hok Hmade Hq.
  assert (∃ er' sg', server_own (mkSP l er sg d h g hs gs Waiting) (mkSP l er' sg' d h g Begun Begun Joining))
    as (er' & sg' & H1).
  { destruct Hq as [(x & c & E)%ch_try_recv_some|(x & c & E)%ch_try_recv_some].
    - exists c, sg. split; [by left|by eapply s_error].
    - exists er, c. split; [by left|by eapply s_received]. }
  destruct (server_join_finishes _ _ _ _ _ _ _ _ (sp_ok_move _ _ Hok H1) Hmade) as (p' & Hr & Hf).
  exists p'. split; [by eapply rtc_l|done].
Qed.

(** [errChan] has room for both reports. *)
Lemma report_fits (p : server_process S) e :
  sp_ok p → sp_http p = Reporting e ∨ sp_grpc p = Reporting e → ch_send e (sp_errs p) = Ret () (ch_push e (sp_errs p)).
Proof.
  intros Hok He. destruct (so_errs _ Hok) as (E1 & E2 & E3). apply ch_send_room; [done|]. rewrite E1.
  destruct He as [He|He]; rewrite He in E3; simpl in E3; lia.
Qed.

(** A gRPC server that was not made when its goroutine failed never will be. *)
Definition never_made (p : server_process S) : Prop := ¬ made (sp_life p) ∧ sp_grpc p ≠ Starting.

Lemma never_made_step p p' : never_made p → server_step p p' → never_made p'.
Proof.
  intros [Hm Hg] Hs. destruct Hs as [p1 p2 [_ Hs]|]; [|done].
  destruct Hs as [| | | | | | | | | | | | |l l' er sg d h g hs m graceful order Ho Hl
    |l l' er sg d h g hs m graceful order msg Ho Hl|]; simpl in *; try done.
  - unfold Server_Stop, mbind, M_bind, get in Hl. simpl in Hm. destruct (lc_grpcServer l) eqn:E; [|done].
    destruct Hm. by eexists.
  - unfold Server_Stop, mbind, M_bind, get in Hl. simpl in Hm. destruct (lc_grpcServer l) eqn:E; [destruct Hm; by eexists|].
    by injection Hl as _ <-.
Qed.
End Proofs.

(** ** A server that [main] started *)

Definition started (e : Machine) (c : ServerConfig) (r : Running) : Prop :=
  ∃ p p', pr_grpc p = NewServer ∧ listeners (m_net e) = ∅ ∧ users_ok (m_users e) ∧
    server_main e c p = Ret (Serving r) p'.

Lemma started_ok e c r p : started e c r → rtc server_step (sp_start (run_life r)) p → sp_ok p.
Proof.
  intros (p0 & p1 & Hg & Hn & Hu & E) Hr.
  destruct (wp_Ret _ _ _ _ _ (server_main_spec e c p0 Hg Hn Hu) E) as (_ & Hw & _).
  destruct (wf_manager _ _ _ _ Hw) as (asm & Ecm & Hok & Hv & _).
  eapply sp_reachable_ok; [..|exact Hr]; simpl; rewrite ?Ecm; [by apply cm_ok_new|done|by intros [? ?]].
Qed.

(** ** Properties *)

(** C8: the server's process ends clean.  In every reachable state of a server that
    [main] started, whatever its connections and its two servers do, a server that
    fails can always report it; [main]'s goroutines panic only if the gRPC server
    was never made; the step in which the gRPC server is stopped leaves no agent
    registered, every connection closed and no agent server listening; and when
    [main] returns, both servers have been stopped. *)
Theorem server_exits_clean e c r p :
  started e c r → rtc server_step (sp_start (run_life r)) p →
  (∀ err, sp_http p = Reporting err ∨ sp_grpc p = Reporting err → ∃ er, ch_send err (sp_errs p) = Ret () er) ∧
  (∀ msg, sp_main p = Crashed msg → lc_grpcServer (sp_life p) = None) ∧
  (∀ p', server_own p p' → sp_grpcStop p ≠ Stopped → sp_grpcStop p' = Stopped →
     let cm := connManager (lc_server (sp_life p')) in
     agents cm = ∅ ∧ (∀ ptr k, conns cm !! ptr = Some k → dead_conn k) ∧ served cm = ∅) ∧
  (sp_main p = Finished →
     is_Some (lc_grpcServer (sp_life p)) ∧ sp_down p = true ∧
     ch_closed (stopCh (connManager (lc_server (sp_life p)))) = true).
Proof.
  intros Hs Hr. pose proof (started_ok _ _ _ _ Hs Hr) as Hok. split_and!.
  - intros err He. eexists. by apply report_fits.
  - intros msg Em. pose proof (so_main _ Hok) as Hm. rewrite Em in Hm. by apply eq_None_not_Some.
  - intros p' [_ Hmove] Hn Hst. pose proof (so_cm _ Hok) as Hcm. pose proof (so_stop _ Hok) as Ht.
    destruct Hmove as [| | | | | | | | | | | | |l l' er sg d h g hs m graceful order Ho Hl| |]; simpl in *; try done.
    destruct (decide (lc_grpcServer l = None)) as [En|En].
    { unfold Server_Stop, mbind, M_bind, get in Hl. by rewrite En in Hl. }
    destruct (Server_Stop_spec graceful order l Hcm Ho Ht (proj1 (not_eq_None_Some _) En))
      as (l1 & E & _ & _ & _ & Ha & Hsv & Hd).
    rewrite Hl in E. injection E as ->. done.
  - intros Em. pose proof (so_main _ Hok) as Hm. rewrite Em in Hm. destruct Hm as (Hh & Hg & Hmade).
    split; [done|]. rewrite (so_shut _ Hok), (so_stop _ Hok), Hh, Hg. done.
Qed.

(** C16: a reason to stop ends the server.  From every reachable state in which the gRPC
    server has been made, once a signal has arrived, a server has failed or the
    shutdown has begun, the program's own steps can bring [main] to its return. *)
Theorem reason_ends_server e c r p :
  started e c r → rtc server_step (sp_start (run_life r)) p → is_Some (lc_grpcServer (sp_life p)) →
  sp_main p = Joining ∨ (sp_main p = Waiting ∧
    (ch_buf (sp_sigs p) ≠ [] ∨ ch_buf (sp_errs p) ≠ [] ∨
     ∃ err, sp_http p = Reporting err ∨ sp_grpc p = Reporting err)) →
  ∃ p', rtc server_own p p' ∧ sp_main p' = Finished.
Proof.
  intros Hs Hr Hmade Hp. pose proof (started_ok _ _ _ _ Hs Hr) as Hok.
  destruct p as [l er sg d h g hs gs m]. simpl in Hmade, Hp.
  destruct Hp as [->|[-> [Hq|[Hq|[err He]]]]]; [by apply server_join_finishes|eapply server_reason_taken; eauto..|].
  pose proof (report_fits _ err Hok He) as Hsend. simpl in He, Hsend.
  assert (∃ h' g', server_own (mkSP l er sg d h g hs gs Waiting) (mkSP l (ch_push err er) sg d h' g' hs gs Waiting))
    as (h' & g' & H1).
  { destruct He as [->| ->]; eexists _, _; (split; [by left|]); [by apply s_http_report|by apply s_grpc_report]. }
  destruct (server_reason_taken _ _ _ _ _ _ _ _ (sp_ok_move _ _ Hok H1) Hmade) as (p' & Hr' & Hf).
  { left. simpl. by destruct (ch_buf er). }
  exists p'. split; [by eapply rtc_l|done].
Qed.

(** C34: a gRPC server that does not start crashes the process.  When [Start] failed
    before it made the gRPC server (its port is taken, or its TLS files do not
    load), [main] never returns from its shutdown: stopping the server dereferences
    the nil [grpcServer].  And a signal that comes before the goroutine of [Start]
    has run crashes the process in the same way, with nothing having failed. *)
Theorem unmade_server_crashes e c r p :
  started e c r → rtc server_step (sp_start (run_life r)) p →
  (lc_grpcServer (sp_life p) = None → sp_grpc p ≠ Starting →
     (∀ p', rtc server_step p p' → sp_main p' ≠ Finished) ∧
     (sp_main p = Joining → ∃ p' msg, rtc server_own p p' ∧ sp_main p' = Crashed msg)) ∧
  (∃ p' msg, rtc server_step (sp_start (run_life r)) p' ∧ sp_main p' = Crashed msg ∧
     sp_grpc p' = Starting ∧ ch_buf (sp_errs p') = []).
Proof.
  intros Hs Hr. pose proof (started_ok _ _ _ _ Hs Hr) as Hok. split.
  - intros Hn Hg. assert (never_made p) as Hnm by (split; [by apply eq_None_not_Some|done]). split.
    + intros p' Hr'. pose proof (rtc_invariant _ never_made _ _ Hr' Hnm never_made_step) as [Hm _].
      pose proof (so_main _ (rtc_invariant _ sp_ok _ _ Hr' Hok sp_ok_step)) as Hat. intros Em. rewrite Em in Hat. tauto.
    + intros Em. pose proof (so_main _ Hok) as Hat. rewrite Em in Hat.
      destruct p as [l er sg d h g hs gs m]. simpl in *. subst m. destruct Hat as [_ [->|[_ [? ?]]]]; [|by simplify_eq].
      destruct (Stop_unstarted l true (keys (agents (connManager (lc_server l)))) Hn) as [msg E].
      eexists _, msg. split; [|by instantiate (1 := mkSP l er sg d h g hs Begun (Crashed msg))].
      apply rtc_once. split; [by right|]. by eapply s_stop_panic.
  - destruct (Stop_unstarted (run_life r) true (keys (agents (connManager (lc_server (run_life r))))) eq_refl) as [msg E].
    exists (mkSP (run_life r) (make_chan 2) (make_chan 1) false Serves Starting Begun Begun (Crashed msg)), msg.
    split; [|done]. eapply rtc_l; [by eapply (s_signal _ _ _ (mkChan [SIGTERM] 1 false) _ _ _ _ _ _ SIGTERM true); [left|]|].
    eapply rtc_l; [apply s_own; split; [by left|]; by apply (s_received _ _ _ (make_chan 1) _ _ _ _ _ SIGTERM)|].
    apply rtc_once, s_own. split; [by right|]. by eapply s_stop_panic.
Qed.

(** ** The processes of one server *)

Module OneProcess.
Definition start : outcome Process startup := server_main OneServer.machine OneServer.config OneServer.process.

Lemma one_started r p' : start = Ret (Serving r) p' → started OneServer.machine OneServer.config r.
Proof. intros E. exists OneServer.process, p'. by split_and!; [..|apply Toy.three_ok|exact E]. Qed.

(** The HTTP server could not listen. *)
Definition http_down (l : Lifecycle ASM) : server_process ASM :=
  mkSP l (make_chan 2) (make_chan 1) false (Reporting (http_error io_EOF)) Starting NotStarted NotStarted Waiting.
(** The gRPC server could not. *)
Definition grpc_down (l : Lifecycle ASM) : server_process ASM :=
  mkSP l (make_chan 2) (make_chan 1) false Serves
    (Reporting (grpc_error (Wrapf "failed to listen on port 9090" io_EOF))) NotStarted NotStarted Waiting.
(** Both serve, and the user interrupts. *)
Definition interrupted (l : Lifecycle ASM) : server_process ASM :=
  mkSP l (make_chan 2) (mkChan [SIGINT] 1 false) false Serves Serves NotStarted NotStarted Waiting.

Lemma interrupted_reachable l l' : Start None None l = Ret None l' → rtc server_step (sp_start l) (interrupted l').
Proof.
  intros E. eapply rtc_l; [apply s_own; split; [by left|by eapply s_serves]|]. apply rtc_once.
  by apply (s_signal _ _ _ _ _ _ _ _ _ _ SIGINT true); [left|].
Qed.
End OneProcess.

Lemma server_exits_clean_witness :
  match OneProcess.start with
  | Ret (Serving r) _ => ∃ er, ch_send (http_error io_EOF) (sp_errs (OneProcess.http_down (run_life r))) = Ret () er
  | _ => False
  end.
Proof.
  assert (match OneProcess.start with Ret (Serving _) _ => True | _ => False end) as Hs by (vm_compute; exact I).
  destruct OneProcess.start as [[code|r] p'| |] eqn:E; [exact Hs| |exact Hs|exact Hs].
  apply (server_exits_clean OneServer.machine OneServer.config r (OneProcess.http_down (run_life r))).
  - exact (OneProcess.one_started r p' E).
  - apply rtc_once, s_own. split; [left; reflexivity|]. apply s_http_failed.
  - left. reflexivity.
Defined.

Lemma reason_ends_server_witness :
  match OneProcess.start with
  | Ret (Serving r) _ =>
      match Start None None (run_life r) with
      | Ret None l => ∃ p', rtc server_own (OneProcess.interrupted l) p' ∧ sp_main p' = Finished
      | _ => False
      end
  | _ => False
  end.
Proof.
  assert (match OneProcess.start with
          | Ret (Serving r) _ =>
              match Start None None (run_life r) with Ret None l => is_Some (lc_grpcServer l) | _ => False end
          | _ => False end) as Hs by (vm_compute; eexists; reflexivity).
  destruct OneProcess.start as [[code|r] p'| |] eqn:E; [exact Hs| |exact Hs|exact Hs].
  destruct (Start None None (run_life r)) as [[err|] l| |] eqn:El; [exact Hs| |exact Hs|exact Hs].
  apply (reason_ends_server OneServer.machine OneServer.config r (OneProcess.interrupted l)).
  - exact (OneProcess.one_started r p' E).
  - exact (OneProcess.interrupted_reachable _ _ El).
  - exact Hs.
  - right. split; [reflexivity|]. left. discriminate.
Defined.

Lemma unmade_server_crashes_witness :
  match OneProcess.start with
  | Ret (Serving r) _ =>
      ∀ p', rtc server_step (OneProcess.grpc_down (run_life r)) p' → sp_main p' ≠ Finished
  | _ => False
  end.
Proof.
  assert (match OneProcess.start with Ret (Serving r) _ => run_grpcPort r = 9090%Z | _ => False end) as Hs
    by (vm_compute; reflexivity).
  destruct OneProcess.start as [[code|r] p'| |] eqn:E; [exact Hs| |exact Hs|exact Hs].
  destruct (unmade_server_crashes OneServer.machine OneServer.config r (OneProcess.grpc_down (run_life r)))
    as [H _].
  - exact (OneProcess.one_started r p' E).
  - apply rtc_once, s_own. split; [left; reflexivity|]. apply (s_start_failed _ _ _ _ _ _ _ _ _ (Some io_EOF)).
    unfold Start, mbind, M_bind, get, mret, M_ret, run_life. cbn [lc_port]. rewrite Hs. reflexivity.
  - apply H; [reflexivity|discriminate].
Defined.
